(* ===== verification/_CoqProject ===== *)
-Q . S2P
Prelude.v
Text.v
IpAddr.v
FilterTypes.v
Parse.v
ParseSpec.v
Grammar.v
Engine.v
KeyIndexSpec.v
LabelsSpec.v
GlobSpec.v
EngineSpec.v
VerdictSpec.v
Time.v
Dns.v
Cache.v
CacheSpec.v
FailCache.v
SafeSearch.v
Proc.v
Result.v
Num.v
Shadow.v
Db.v
DbSpec.v
StatsSpec.v
Schema.v
SchemaSpec.v
Pipeline.v
Server.v
ServerSpec.v
Serving.v
ServingSpec.v
Upstream.v
Config.v
UpstreamSpec.v
ConfigSpec.v
Sockets.v
Starter.v
SocketsSpec.v
Lists.v
ListsSpec.v
Daemon.v
DaemonSpec.v
Cli.v
CliSpec.v
Migrate.v
MigrateSpec.v
Commands.v
CommandsSpec.v
UpstreamBooks.v
UpstreamPace.v
UpstreamLive.v
UpstreamRun.v
DaemonRun.v
Scheduler.v
Node.v
SchedulerSpec.v
ServerLiveness.v
NodeSpec.v
ServerRun.v
NodeRun.v
EndToEnd.v
System.v
SystemSpec.v
SystemRun.v
ListHost.v
ListHostSpec.v
ListHostRun.v
CapacitySpec.v
Harness.v
Prng.v
F64.v
Probe.v
ProbeSpec.v
Loadgen.v
LoadgenSpec.v
Testkit.v
TestkitSpec.v
