(* ===== verification/Prelude.v ===== *)
(** * sumidero: a verification library

    sumidero is a filtering DNS server for a home network: it reads a TOML
    configuration, downloads and compiles blocklists, answers queries from
    the filter, a cache or encrypted upstreams, logs to SQLite, and is
    operated through a small command line. The library models the Rust
    sources under [src/crates] and proves what makes them correct.

    ** The parts and their files

    The filter ([crates/filter/src]):
    - [FilterTypes], [Parse] ([parse.rs], [lib.rs]): rules, issues and the
      blocklist parser, generic in the sink it hands rules to. [ParseSpec]:
      every rule handed out is well formed, every line is accounted for,
      canonical texts round-trip. [Grammar]: the language of blocklists as
      a relation between lines, rules and issues, and the parser is exactly
      it, for every consumer.
    - [Engine] ([engine.rs], [lib.rs]): the rule store with its arenas, the
      sorted key indexes, label reversal, wildcards, the builder and
      [verdict]. [KeyIndexSpec] (a finished index is a multimap),
      [LabelsSpec] (reversal), [GlobSpec] (the two-pointer matcher against
      a relational one), [EngineSpec] and [VerdictSpec]: the verdict is an
      exception, a block or no match exactly as the rules that cover the
      name decide.
      [CapacitySpec]: which lists the arenas hold, and one that they do not.
    The resolver ([crates/core/src]):
    - [Dns]: the DNS messages as far as the server touches them; what
      Hickory computes (names, the wire, DNSSEC stripping) is the classes
      [Hickory] and [HickoryOps].
    - [Cache] ([cache.rs]): the slab of linked nodes with its free list.
      [CacheSpec]: it never panics and refines a list in order of recency,
      bounded in entries and bytes; lifetimes are exact.
    - [FailCache] ([failcache.rs]), [SafeSearch] ([safesearch.rs]),
      [Shadow] ([shadow.rs]): each with its theorems in the same file.
    - [Db] ([db.rs]): the writer queue and its batches, the tables as lists
      of rows, reads, retention. [DbSpec]: every offered event is accounted
      for; a ledger explains the tables from what was done to the queue.
      [StatsSpec]: counters and top lists are exact.
    - [Schema] ([db.rs]): opening a file statement by statement.
      [SchemaSpec]: it refines the migration of [Db], and no failing
      statement and no crash loses a row.
    - [Pipeline], [Server] ([server.rs]): the shared state, one event per
      mutex section, atomic counter or await, and [handle_at] with every
      task it spawns. [ServerSpec]: what one query does whatever the
      environment answers. [Scheduler], [SchedulerSpec], [ServerLiveness]:
      all interleavings of all tasks; every query is answered, every guard
      released, lookups are single-flight, load is bounded. [ServerRun]:
      a concrete server, and the witnesses.
    - [Serving] ([server.rs], sockets): UDP answer sizes, TCP framing, the
      connection cap. [ServingSpec].
    - [Sockets] ([server.rs]): [serve] up to the tasks it spawns, and
      [shutdown], call by call. [SocketsSpec]: all addresses or nothing;
      addresses that do not overlap are all served.
    - [Node] ([server.rs], [daemon.rs], [db.rs]): socket tasks, connections,
      queries, the writer thread, the retention sweep and the end of [run]
      as one step relation over the state of [Scheduler] and [Serving].
      [NodeSpec]: every query read from a socket is answered where it came
      from, in order on a connection; a clean stop loses no record.
      [NodeRun]: a run with its stop.
    - [Upstream] ([upstream.rs]): URL checks, start-up, the connection
      state machine of one upstream with its repairs, [send], the race of
      [resolve], health. [UpstreamSpec] (one query, the pool, the schedule
      of reconnects, the rounds of start-up with their deadlines).
      [UpstreamBooks] (all interleavings of queries and repairs of one
      upstream, and what each task holds), [UpstreamPace] (how many builds
      the backoff allows in a span of time) and [UpstreamLive] (every query
      ends, a stale failure is harmless). [UpstreamRun]: a concrete
      network, witnesses, and two builds that overlap.
    - [Config] ([config.rs]), [ConfigSpec]: validation and the lists in
      effect. [Starter]: the starter text, and the value it spells.
    - [Lists] ([lists.rs]): fetching, storing, falling back and compiling,
      as events over a disk. [ListsSpec]: [holds] follows the code through
      every failure and crash point, with the exchanges of the network
      logged; a text is what the answer delivered or the stored copy, and
      stored copies are never torn.
    - [Daemon] ([daemon.rs]): start-up, refresher, signal loop, reports,
      shutdown over their shared state. [DaemonSpec]: [under] follows one
      task while others interfere; a serving daemon always filters with a
      policy built whole from one configuration and reports that policy; a
      reload is all or nothing. [DaemonRun]: a machine on which it starts.
    The command line ([crates/cli/src]):
    - [Cli] ([output.rs], [commands/status.rs], [reload.rs], [explain.rs],
      [check.rs]): commands over a machine with its database file, which
      opening (the statements of [Schema]) may create or migrate.
      [CliSpec]: exit codes against what the daemon publishes; what opening
      does to the file.
    - [Migrate] ([commands/migrate.rs]), [MigrateSpec]: the conversion of an
      AdGuard Home configuration loses nothing of the sections it reads
      silently.
    - [Commands] ([main.rs], [commands/init.rs], [log.rs], [stats.rs],
      [shadow_report.rs], [serve.rs], [migrate.rs]): the other commands and
      the dispatch. [CommandsSpec]: exit codes and output, the files they
      touch, and that [log] and [stats] show what the server wrote.

    The tools around the program:
    - [Harness] ([crates/filter/fuzz], [benches]): the fuzz targets and the
      lookup bench; inputs of a fuzzer's size never panic.
    - [ListHost] ([crates/testkit/src/lib.rs]): the HTTPS list host, byte
      for byte. [ListHostSpec], [ListHostRun]: a fetch against it ends as
      its mode and the stored copy say, and revalidates.
    - [Testkit] ([crates/testkit/src/lib.rs]): the test upstream and the DNS
      client. [TestkitSpec]: the upstream answers from its zone; the client
      reads what [Serving] sends.
    - [Probe], [Loadgen] ([crates/core/examples]): the latency probe and the
      load generator, with [Prng] (xorshift, injective and never stuck) and
      [F64] (IEEE doubles; a count times a fraction rounds to its exact
      nearest rank). [ProbeSpec], [LoadgenSpec]: nothing is asked twice or
      counted wrongly, and the figures are what they say.

    [Prelude] holds machine integers, text literals, panics and generic
    lemmas; [Text], [Num], [IpAddr], [Time] what the sources use of the
    standard library; [Proc] asynchronous code as trees of events; [Result]
    the [Result] type with its [?].

    The parts together:
    - [EndToEnd]: under a policy the daemon built from a configuration, the
      texts of the configuration's lists decide what the server answers;
      and in every run of [Node] in which only such policies are in force,
      every answer that leaves is shed, refused or decided by them.
    - [System] ([daemon::run]): [Node] with the refresher and the signal
      loop as the code of [Daemon] over one shared state. [SystemSpec]: the
      steps of the others are the interference [DaemonSpec] allows the
      refresher, each step of the system is none or a step of the node, and
      so, from a start-up that succeeds, everything proved of [Node] holds
      and every answer is filtered ([system_filters]). [SystemRun]: the
      machine of [DaemonRun], started and asked.

    ** How code corresponds to definitions

    Every definition carries its source's name. Text is a list of bytes
    (0..255 in [Z]); a machine integer is a [Z] whose range is written out
    where the code checks it or could leave it. A computation that can
    panic returns [option], [None] being the panic; [Err] is [inr]. Code
    that awaits or locks is a [Proc] tree over an event type ([Ev], [UEv],
    [LEv], [DEv], [SEv], [NEv]); [exec], [uexec], [lexec], [dexec], [sexec],
    [nexec] say what an event does to the shared state, and an oracle says what the world answers (clocks,
    networks, failing disks). A theorem that quantifies over oracles or
    interleavings holds for every such world.

    Third-party code is a class, with the documented facts it needs as
    fields: [Hickory], [HickoryOps], [IpNetOps], [RcodeDisplay],
    [IpDisplay], [HashIter] (hash map order), [UnstableSort], [SqlOrder]
    (the order SQLite gives equal counts), [NetStack] (which binds collide),
    [UpstreamOps] (URLs, TLS), [ConfigOps] (TOML, SHA-256, PEM),
    [ListsOps], [DaemonOps] and [CliOps] (JSON), [MigrateOps] (YAML),
    [HttpClient] (reqwest's wire) and [HickoryServer].

    ** Fuel and bounds

    A loop that is not structural takes fuel, and a theorem says how much
    is enough: the glob matcher, the binary searches and the eviction loop
    (in the theorems about them: no panic and no exhaustion),
    [acquire] (one round more than the repairs that conclude, and
    [fuel_for] bounds those for any number of queries and any span of time:
    a failed build keeps its upstream down for half a second), the rounds
    of [pool_new] (their budget over 500 ms, plus one), [drain] (101),
    [reload_wait] (four polls a second, plus one), [slug] (the length of
    the name), [unique_name] (the names in use). [refresher_run] is stated
    for any number of turns. A build of the engine succeeds when the texts fit its arenas
    ([fits]: at most 2^16 lists and 2^32 bytes of rules), panics only when
    one is full, and is right whenever it succeeds; [list_capacity] says what
    fits in terms of the texts. The cache's theorems
    hold for limits the constructor accepts ([limits_ok]). Counters that count
    queries or builds are unbounded integers.

    ** Not modelled

    TLS, HTTP/2 and QUIC, SQLite and file systems beyond the operations
    above, and which binds the host refuses beyond the law of [NetStack];
    [heap_bytes], a status figure that sums capacities; log lines (what
    [serve] traces to stderr is an argument); the HTTP client's builder; clap's argument parser
    (the parsed command is an argument); the certificates of the test kit
    and hickory-server's listeners; the layout of the tables and the JSON
    the load tools print (their figures are). What other
    programs do to the list directory while a load runs is not considered.
    In [Node] alone the refresher is the policies it may install at any
    moment while the daemon serves; in [System] it is its code. Installing
    the signal handlers, which can fail after the sockets are bound, is left
    out. *)
From stdpp Require Export base tactics list numbers option strings gmap sorting.
From Stdlib Require Export ZArith Lia.

#[global] Open Scope Z_scope.

(** ** Machine integers

    A [u8], [u16], [u32], [u64] or [usize] value is a [Z] in range; the
    range is written out where the source checks it or can leave it. *)
Definition u8_max : Z := 255.
Definition u16_max : Z := 65535.
Definition u32_max : Z := 4294967295.
Definition u64_max : Z := 18446744073709551615.
Definition usize_max : Z := u64_max.
Definition i64_max : Z := 9223372036854775807.

(** [T::try_from(n)] for an unsigned target whose maximum is [max]. *)
Definition try_from (max n : Z) : option Z :=
  if (0 <=? n) && (n <=? max) then Some n else None.

(** [a.saturating_add(b)] at maximum [max]; [a.saturating_sub(b)]. *)
Definition saturating_add (max a b : Z) : Z := Z.min max (a + b).
Definition saturating_sub (a b : Z) : Z := Z.max 0 (a - b).

(** ** Text literals: the bytes of an ASCII string *)
Definition lit (s : string) : list Z :=
  map (fun a => Z.of_N (Ascii.N_of_ascii a)) (String.list_ascii_of_string s).

(** Length of a byte sequence as a machine integer. *)
Definition len {A} (l : list A) : Z := Z.of_nat (length l).

(** ** Panics

    A Rust operation that can panic ([expect], [assert!], an index or a
    slice out of range) returns [option]; [None] is the panic. *)
Definition assert (b : bool) : option unit := if b then Some tt else None.

(** [v[i]] of a [Vec]: panics out of range. *)
Definition index {A} (l : list A) (i : Z) : option A :=
  if 0 <=? i then l !! Z.to_nat i else None.

(** [v[i] = x] of a [Vec]: panics out of range. *)
Definition index_set {A} (l : list A) (i : Z) (x : A) : option (list A) :=
  if (0 <=? i) && (i <? len l) then Some (<[Z.to_nat i := x]> l) else None.

(** [&v[a..b]]: panics unless [a <= b <= v.len()]. *)
Definition slice {A} (l : list A) (a b : Z) : option (list A) :=
  if (0 <=? a) && (a <=? b) && (b <=? len l)
  then Some (take (Z.to_nat (b - a)) (drop (Z.to_nat a) l)) else None.

(** ** Automation *)

(** Break the conjunctions, existentials and boolean tests of the context. *)
Ltac bool_to_prop :=
  repeat match goal with
  | H : (_ && _)%bool = true |- _ => apply andb_true_iff in H; destruct H
  | H : (_ || _)%bool = false |- _ => apply orb_false_iff in H; destruct H
  | H : negb _ = true |- _ => apply negb_true_iff in H
  | H : negb _ = false |- _ => apply negb_false_iff in H
  | H : (_ <=? _) = true |- _ => apply Z.leb_le in H
  | H : (_ <=? _) = false |- _ => apply Z.leb_gt in H
  | H : (_ <? _) = true |- _ => apply Z.ltb_lt in H
  | H : (_ <? _) = false |- _ => apply Z.ltb_ge in H
  | H : (_ =? _) = true |- _ => apply Z.eqb_eq in H
  | H : (_ =? _) = false |- _ => apply Z.eqb_neq in H
  end.

(** Decide a boolean guard of the goal by arithmetic. *)
Ltac zguard :=
  repeat match goal with
  | |- context [?a <=? ?b] =>
      first [ replace (a <=? b) with true by (symmetry; apply Z.leb_le; lia)
            | replace (a <=? b) with false by (symmetry; apply Z.leb_gt; lia) ]
  | |- context [?a <? ?b] =>
      first [ replace (a <? b) with true by (symmetry; apply Z.ltb_lt; lia)
            | replace (a <? b) with false by (symmetry; apply Z.ltb_ge; lia) ]
  | |- context [?a =? ?b] =>
      first [ replace (a =? b) with true by (symmetry; apply Z.eqb_eq; lia)
            | replace (a =? b) with false by (symmetry; apply Z.eqb_neq; lia) ]
  end; cbn [andb orb negb].

(** Decide a closed arithmetic statement by computation. *)
Ltac zcompute :=
  repeat split; vm_compute; first [reflexivity | intros HF; discriminate HF].

(** Invert one successful bind of the panic monad per step. *)
Ltac inv_bind :=
  repeat match goal with
  | H : mbind _ ?e = Some _ |- _ =>
      apply bind_Some in H; destruct H as (? & ? & ?)
  | H : Some _ = Some _ |- _ => injection H as H; subst
  end; simplify_eq.

Create HintDb rust discriminated.
Create Rewrite HintDb len.

(** ** Generic lemmas *)

Lemma len_nonneg {A} (l : list A) : 0 <= len l.
Proof. unfold len; lia. Qed.

Lemma len_app {A} (l k : list A) : len (l ++ k) = len l + len k.
Proof. unfold len. rewrite length_app. lia. Qed.

Lemma len_cons {A} (x : A) l : len (x :: l) = 1 + len l.
Proof. unfold len. cbn [length]. lia. Qed.

Lemma len_nil {A : Type} : len ([] : list A) = 0.
Proof. reflexivity. Qed.

Lemma len_rev {A} (l : list A) : len (reverse l) = len l.
Proof. unfold len. by rewrite length_reverse. Qed.

Lemma len_insert {A} (l : list A) i x : len (<[i := x]> l) = len l.
Proof. unfold len. by rewrite length_insert. Qed.

#[export] Hint Rewrite @len_app @len_cons @len_nil @len_rev @len_insert : len.
#[export] Hint Resolve len_nonneg : rust.

Lemma try_from_Some max n : 0 <= n <= max -> try_from max n = Some n.
Proof. intros. unfold try_from. by zguard. Qed.

Lemma try_from_None max n : max < n -> try_from max n = None.
Proof. intros. unfold try_from. destruct (0 <=? n); [|done]. by zguard. Qed.

Lemma try_from_inv max n m : try_from max n = Some m -> m = n /\ 0 <= n <= max.
Proof. unfold try_from. intros H. case_match; simplify_eq. bool_to_prop. lia. Qed.

Lemma index_nat {A} (l : list A) (i : nat) : index l (Z.of_nat i) = l !! i.
Proof. unfold index. zguard. by rewrite Nat2Z.id. Qed.

Lemma index_Some_lt {A} (l : list A) i x : index l i = Some x -> 0 <= i < len l.
Proof.
  unfold index, len. intros H. case_match; [|done]. bool_to_prop.
  apply lookup_lt_Some in H. lia.
Qed.

Lemma slice_Some {A} (l : list A) a b :
  0 <= a <= b -> b <= len l ->
  slice l a b = Some (take (Z.to_nat (b - a)) (drop (Z.to_nat a) l)).
Proof. intros. unfold slice. by zguard. Qed.

(** A slice of the middle of a concatenation. *)
Lemma slice_app_mid {A} (p m s : list A) :
  slice (p ++ m ++ s) (len p) (len p + len m) = Some m.
Proof.
  rewrite slice_Some; autorewrite with len; [|pose proof (len_nonneg p);
    pose proof (len_nonneg m); pose proof (len_nonneg s); lia..].
  unfold len. f_equal.
  replace (Z.to_nat (Z.of_nat (length p) + Z.of_nat (length m) - Z.of_nat (length p)))
    with (length m) by lia.
  rewrite Nat2Z.id, drop_app_length. apply take_app_length.
Qed.

(** A slice that exists survives an append. *)
Lemma slice_app_l {A} (l k : list A) a b x :
  slice l a b = Some x -> slice (l ++ k) a b = Some x.
Proof.
  unfold slice. intros H. case_match eqn:E; [|done]. bool_to_prop.
  pose proof (len_nonneg k). rewrite len_app. zguard.
  rewrite <- H. f_equal. unfold len in *.
  rewrite drop_app_le by lia. rewrite take_app_le; [done|].
  rewrite length_drop. lia.
Qed.

Lemma existsb_exists_iff {A} (f : A -> bool) l :
  existsb f l = true <-> exists x, x ∈ l /\ f x = true.
Proof.
  rewrite existsb_exists. split; intros (x & H & E); exists x;
    (split; [by apply list_elem_of_In|done]).
Qed.

Lemma forallb_Forall_iff {A} (f : A -> bool) l :
  forallb f l = true <-> Forall (fun x => f x = true) l.
Proof. rewrite forallb_forall, List.Forall_forall. done. Qed.

Lemma filter_none {A} (P : A -> Prop) `{!forall x, Decision (P x)} l :
  Forall (fun x => ~ P x) l -> filter P l = [].
Proof.
  induction 1 as [|x l Hx Hl IH]; [done|]. by rewrite filter_cons, decide_False.
Qed.

Lemma filter_all {A} (P : A -> Prop) `{!forall x, Decision (P x)} l :
  Forall P l -> filter P l = l.
Proof.
  induction 1 as [|x l Hx Hl IH]; [done|]. rewrite filter_cons, decide_True by done. by f_equal.
Qed.
