(* ===== verification/Text.v ===== *)
(** * Text: the [str] operations of the Rust standard library

    A [&str] is the list of its UTF-8 bytes, each a [Z] in [0..255], so
    [str::len] is [len] and every byte-indexed operation of the source is
    the list operation. The operations below are the ones
    [crates/filter] and [crates/core] use: [trim], [lines],
    [split_whitespace], [split], [strip_prefix], [contains], [find],
    [to_ascii_lowercase], character boundaries. A Unicode white-space
    character is recognised by its encoding. *)
From S2P Require Import Prelude.

(** ** Bytes *)
Definition c_nl : Z := 10.
Definition c_cr : Z := 13.
Definition c_space : Z := 32.
Definition c_bang : Z := 33.
Definition c_hash : Z := 35.
Definition c_dollar : Z := 36.
Definition c_percent : Z := 37.
Definition c_star : Z := 42.
Definition c_hyphen : Z := 45.
Definition c_dot : Z := 46.
Definition c_slash : Z := 47.
Definition c_colon : Z := 58.
Definition c_lbracket : Z := 91.
Definition c_rbracket : Z := 93.
Definition c_caret : Z := 94.
Definition c_underscore : Z := 95.
Definition c_bar : Z := 124.

Definition is_ascii_uppercase (b : Z) : bool := (65 <=? b) && (b <=? 90).
Definition is_ascii_lowercase (b : Z) : bool := (97 <=? b) && (b <=? 122).
Definition is_ascii_digit (b : Z) : bool := (48 <=? b) && (b <=? 57).
Definition is_ascii_alphanumeric (b : Z) : bool :=
  is_ascii_lowercase b || is_ascii_uppercase b || is_ascii_digit b.
Definition to_lower (b : Z) : Z := if is_ascii_uppercase b then b + 32 else b.
Definition to_ascii_lowercase (s : list Z) : list Z := map to_lower s.

Definition str_eqb (s t : list Z) : bool := bool_decide (s = t).
Definition eq_ignore_ascii_case (s t : list Z) : bool :=
  str_eqb (to_ascii_lowercase s) (to_ascii_lowercase t).

(** ** White space: U+0009..U+000D and U+0020 in one byte; U+0085, U+00A0
    in two; U+1680, U+2000..U+200A, U+2028, U+2029, U+202F, U+205F and
    U+3000 in three. *)
Definition ws1 (a : Z) : bool := ((9 <=? a) && (a <=? 13)) || (a =? 32).
Definition ws2 (a b : Z) : bool := (a =? 194) && ((b =? 133) || (b =? 160)).
Definition ws3 (a b c : Z) : bool :=
  ((a =? 225) && (b =? 154) && (c =? 128))
  || ((a =? 226) && (b =? 128)
      && (((128 <=? c) && (c <=? 138)) || (c =? 168) || (c =? 169) || (c =? 175)))
  || ((a =? 226) && (b =? 129) && (c =? 159))
  || ((a =? 227) && (b =? 128) && (c =? 128)).

(** Does the text start with a white-space character? *)
Definition starts_ws (s : list Z) : bool :=
  match s with
  | [] => false
  | a :: r =>
      ws1 a || match r with
               | [] => false
               | b :: r' => ws2 a b || match r' with [] => false | c :: _ => ws3 a b c end
               end
  end.

Fixpoint trim_start (s : list Z) : list Z :=
  match s with
  | [] => []
  | a :: r =>
      if ws1 a then trim_start r else
      match r with
      | [] => s
      | b :: r' =>
          if ws2 a b then trim_start r' else
          match r' with
          | [] => s
          | c :: r'' => if ws3 a b c then trim_start r'' else s
          end
      end
  end.

(** [trim_end], on the reversed text: the last byte comes first. *)
Fixpoint trim_end_rev (s : list Z) : list Z :=
  match s with
  | [] => []
  | a :: r =>
      if ws1 a then trim_end_rev r else
      match r with
      | [] => s
      | b :: r' =>
          if ws2 b a then trim_end_rev r' else
          match r' with
          | [] => s
          | c :: r'' => if ws3 c b a then trim_end_rev r'' else s
          end
      end
  end.

Definition trim_end (s : list Z) : list Z := reverse (trim_end_rev (reverse s)).
Definition trim (s : list Z) : list Z := trim_end (trim_start s).

(** [split_whitespace]: the maximal runs without white space. [cur] is the
    reversed run being read. *)
Definition flush_word (cur : list Z) : list (list Z) :=
  match cur with [] => [] | _ => [reverse cur] end.

Fixpoint split_ws_go (cur s : list Z) : list (list Z) :=
  match s with
  | [] => flush_word cur
  | a :: r =>
      if ws1 a then flush_word cur ++ split_ws_go [] r else
      match r with
      | [] => split_ws_go (a :: cur) r
      | b :: r' =>
          if ws2 a b then flush_word cur ++ split_ws_go [] r' else
          match r' with
          | [] => split_ws_go (a :: cur) r
          | c :: r'' =>
              if ws3 a b c then flush_word cur ++ split_ws_go [] r''
              else split_ws_go (a :: cur) r
          end
      end
  end.

Definition split_whitespace (s : list Z) : list (list Z) := split_ws_go [] s.

(** ** Prefixes, suffixes, substrings *)
Fixpoint strip_prefix (p s : list Z) : option (list Z) :=
  match p, s with
  | [], _ => Some s
  | a :: p', b :: s' => if a =? b then strip_prefix p' s' else None
  | _ :: _, [] => None
  end.

Definition strip_suffix (p s : list Z) : option (list Z) :=
  match strip_prefix (reverse p) (reverse s) with
  | Some r => Some (reverse r)
  | None => None
  end.

Definition starts_with (p s : list Z) : bool :=
  match strip_prefix p s with Some _ => true | None => false end.
Definition ends_with (p s : list Z) : bool :=
  match strip_suffix p s with Some _ => true | None => false end.

(** [s.contains(p)] for a string, [s.contains(c)] for an ASCII character. *)
Fixpoint contains (p s : list Z) : bool :=
  starts_with p s || match s with [] => false | _ :: r => contains p r end.
Definition contains_char (c : Z) (s : list Z) : bool := existsb (Z.eqb c) s.

(** ** Splitting at an ASCII character *)
Fixpoint split (c : Z) (s : list Z) : list (list Z) :=
  match s with
  | [] => [[]]
  | a :: r =>
      if a =? c then [] :: split c r
      else match split c r with
           | [] => [[a]]
           | w :: ws => (a :: w) :: ws
           end
  end.

(** [[..].join(".")] *)
Fixpoint join (c : Z) (ws : list (list Z)) : list Z :=
  match ws with
  | [] => []
  | [w] => w
  | w :: r => w ++ c :: join c r
  end.

(** [s.find(c)], [s.rfind(c)]: first and last position of a byte. *)
Fixpoint find (c : Z) (s : list Z) : option nat :=
  match s with
  | [] => None
  | a :: r => if a =? c then Some 0%nat else S <$> find c r
  end.

(** The text before and after the first occurrence. *)
Definition split_once (c : Z) (s : list Z) : option (list Z * list Z) :=
  i ← find c s; Some (take i s, drop (S i) s).

Fixpoint rfind (c : Z) (s : list Z) : option nat :=
  match s with
  | [] => None
  | a :: r =>
      match rfind c r with
      | Some i => Some (S i)
      | None => if a =? c then Some 0%nat else None
      end
  end.

(** [str::lines]: split after each [\n]; one [\r] before it goes too. *)
Definition strip_cr (s : list Z) : list Z := default s (strip_suffix [c_cr] s).

Fixpoint lines_go (cur s : list Z) : list (list Z) :=
  match s with
  | [] => match cur with [] => [] | _ => [reverse cur] end
  | a :: r =>
      if a =? c_nl then strip_cr (reverse cur) :: lines_go [] r
      else lines_go (a :: cur) r
  end.

Definition lines (s : list Z) : list (list Z) := lines_go [] s.

(** ** Character boundaries: a position is one unless it holds a UTF-8
    continuation byte. *)
Definition is_char_boundary (s : list Z) (i : Z) : bool :=
  (i =? 0) || (i =? len s)
  || match index s i with
     | Some b => negb ((128 <=? b) && (b <? 192))
     | None => false
     end.

(** [&s[i..]]: panics off a character boundary. *)
Definition str_from (s : list Z) (i : Z) : option (list Z) :=
  if is_char_boundary s i then slice s i (len s) else None.

(** [&s[a..b]]: panics off a character boundary. *)
Definition str_slice (s : list Z) (a b : Z) : option (list Z) :=
  if is_char_boundary s a && is_char_boundary s b then slice s a b else None.

(** [std::str::from_utf8]: the well-formed byte sequences. *)
Definition cont (b : Z) : bool := (128 <=? b) && (b <=? 191).
Definition between (lo hi b : Z) : bool := (lo <=? b) && (b <=? hi).

Definition lead3 (a b : Z) : bool :=
  ((a =? 224) && between 160 191 b) || (between 225 236 a && cont b)
  || ((a =? 237) && between 128 159 b) || (between 238 239 a && cont b).
Definition lead4 (a b : Z) : bool :=
  ((a =? 240) && between 144 191 b) || (between 241 243 a && cont b) || ((a =? 244) && between 128 143 b).

Fixpoint utf8_valid (s : list Z) : bool :=
  match s with
  | [] => true
  | a :: r =>
      if between 0 127 a then utf8_valid r else
      match r with
      | [] => false
      | b :: r2 =>
          if between 194 223 a then cont b && utf8_valid r2 else
          match r2 with
          | [] => false
          | c :: r3 =>
              if lead3 a b then cont c && utf8_valid r3 else
              match r3 with
              | [] => false
              | d :: r4 =>
                  lead4 a b && cont c && cont d && utf8_valid r4
              end
          end
      end
  end.

Definition from_utf8 (s : list Z) : option (list Z) := if utf8_valid s then Some s else None.

(** [String::from_utf8_lossy]: one replacement character for each longest
    start of a well-formed character that is not completed. *)
Definition REPLACEMENT : list Z := [239; 191; 189].
Fixpoint from_utf8_lossy (s : list Z) : list Z :=
  match s with
  | [] => []
  | a :: r =>
      if between 0 127 a then a :: from_utf8_lossy r else
      match r with
      | [] => REPLACEMENT
      | b :: r2 =>
          if between 194 223 a then if cont b then a :: b :: from_utf8_lossy r2 else REPLACEMENT ++ from_utf8_lossy r
          else if lead3 a b then
            match r2 with
            | [] => REPLACEMENT
            | c :: r3 => if cont c then a :: b :: c :: from_utf8_lossy r3 else REPLACEMENT ++ from_utf8_lossy r2
            end
          else if lead4 a b then
            match r2 with
            | [] => REPLACEMENT
            | c :: r3 =>
                if cont c then
                  match r3 with
                  | [] => REPLACEMENT
                  | d :: r4 => if cont d then a :: b :: c :: d :: from_utf8_lossy r4 else REPLACEMENT ++ from_utf8_lossy r3
                  end
                else REPLACEMENT ++ from_utf8_lossy r2
            end
          else REPLACEMENT ++ from_utf8_lossy r
      end
  end.

(** ** Lemmas *)

Lemma str_eqb_eq s t : str_eqb s t = true <-> s = t.
Proof. unfold str_eqb. apply bool_decide_eq_true. Qed.

Lemma str_eqb_neq s t : str_eqb s t = false <-> s <> t.
Proof. unfold str_eqb. apply bool_decide_eq_false. Qed.

Lemma strip_prefix_Some p s r : strip_prefix p s = Some r <-> s = p ++ r.
Proof.
  revert s. induction p as [|a p IH]; intros s; cbn [strip_prefix app].
  { split; congruence. }
  destruct s as [|b s]; [split; discriminate|].
  destruct (Z.eqb_spec a b) as [->|Hne].
  - rewrite IH. split; [intros ->; done|congruence].
  - split; [discriminate|intros [=]; congruence].
Qed.

Lemma strip_prefix_app p r : strip_prefix p (p ++ r) = Some r.
Proof. by apply strip_prefix_Some. Qed.

Lemma strip_suffix_Some p s r : strip_suffix p s = Some r <-> s = r ++ p.
Proof.
  unfold strip_suffix. case_match eqn:E.
  - apply strip_prefix_Some in E. split.
    + intros [= <-]. apply (inj reverse). by rewrite reverse_app, reverse_involutive.
    + intros ->. rewrite reverse_app in E. apply app_inj_1 in E; [|done].
      destruct E as [_ <-]. by rewrite reverse_involutive.
  - split; [done|]. intros ->. rewrite reverse_app, strip_prefix_app in E. done.
Qed.

Lemma strip_suffix_app p r : strip_suffix p (r ++ p) = Some r.
Proof. by apply strip_suffix_Some. Qed.

Lemma strip_suffix_None p s : strip_suffix p s = None <-> forall r, s <> r ++ p.
Proof.
  split.
  - intros E r ->. by rewrite strip_suffix_app in E.
  - intros H. destruct (strip_suffix p s) eqn:E; [|done].
    apply strip_suffix_Some in E. by destruct (H l).
Qed.

Lemma starts_with_true p s : starts_with p s = true <-> exists r, s = p ++ r.
Proof.
  unfold starts_with. split.
  - case_match eqn:E; [|done]. intros _. exists l. by apply strip_prefix_Some.
  - intros (r & ->). by rewrite strip_prefix_app.
Qed.

Lemma ends_with_true p s : ends_with p s = true <-> exists r, s = r ++ p.
Proof.
  unfold ends_with. split.
  - case_match eqn:E; [|done]. intros _. exists l. by apply strip_suffix_Some.
  - intros (r & ->). by rewrite strip_suffix_app.
Qed.

Lemma contains_char_true c s : contains_char c s = true <-> c ∈ s.
Proof.
  unfold contains_char. rewrite existsb_exists_iff. split.
  - intros (x & Hx & E). bool_to_prop. by subst.
  - intros H. exists c. by rewrite Z.eqb_refl.
Qed.

Lemma contains_char_false c s : contains_char c s = false <-> c ∉ s.
Proof.
  rewrite <- contains_char_true. destruct (contains_char c s); split; done.
Qed.

Lemma contains_char_app c s t :
  contains_char c (s ++ t) = contains_char c s || contains_char c t.
Proof. unfold contains_char. apply existsb_app. Qed.

Lemma split_nonempty c s : split c s <> [].
Proof. destruct s; cbn; [done|]. repeat case_match; done. Qed.

Lemma split_app c s t :
  c ∉ s -> split c (s ++ t) =
    match split c t with [] => [s] | w :: ws => (s ++ w) :: ws end.
Proof.
  intros H. induction s as [|a s IH]; cbn [app split].
  { pose proof (split_nonempty c t). by destruct (split c t). }
  apply not_elem_of_cons in H as [Hne H]. rewrite IH by done.
  destruct (Z.eqb_spec a c); [by subst|].
  pose proof (split_nonempty c t). by destruct (split c t).
Qed.

Lemma split_sep c s t :
  c ∉ s -> split c (s ++ c :: t) = s :: split c t.
Proof.
  intros H. rewrite split_app by done. cbn [split]. rewrite Z.eqb_refl.
  by rewrite app_nil_r.
Qed.

Lemma split_no_sep c s : c ∉ s -> split c s = [s].
Proof.
  intros H. rewrite <- (app_nil_r s) at 1. rewrite split_app by done. cbn [split].
  by rewrite app_nil_r.
Qed.

Lemma split_pieces c s : Forall (fun w => c ∉ w) (split c s).
Proof.
  induction s as [|a s IH]; cbn [split].
  { repeat constructor. apply not_elem_of_nil. }
  destruct (Z.eqb_spec a c) as [->|Hne].
  { constructor; [apply not_elem_of_nil|done]. }
  destruct (split c s) as [|w ws]; inversion IH; subst; constructor;
    try (apply not_elem_of_cons; split); auto using not_elem_of_nil.
Qed.

Lemma join_cons c w ws : ws <> [] -> join c (w :: ws) = w ++ c :: join c ws.
Proof. destruct ws; done. Qed.

Lemma join_cons_head c a w ws : join c ((a :: w) :: ws) = a :: join c (w :: ws).
Proof. by destruct ws. Qed.

Lemma join_split c s : join c (split c s) = s.
Proof.
  induction s as [|a s IH]; cbn [split]; [done|].
  pose proof (split_nonempty c s) as Hne.
  destruct (Z.eqb_spec a c) as [->|Hac].
  - rewrite join_cons by done. cbn [app]. by rewrite IH.
  - destruct (split c s) as [|w ws] eqn:E; [done|]. rewrite join_cons_head. by rewrite IH.
Qed.

Lemma split_join c ws :
  ws <> [] -> Forall (fun w => c ∉ w) ws -> split c (join c ws) = ws.
Proof.
  induction ws as [|w ws IH]; intros Hne Hall; [done|].
  inversion Hall; subst. destruct ws as [|v ws].
  - cbn [join]. by apply split_no_sep.
  - rewrite join_cons by done. rewrite split_sep by done. rewrite IH; done.
Qed.

Lemma split_inj c s t : split c s = split c t -> s = t.
Proof. intros H. rewrite <- (join_split c s), <- (join_split c t). by rewrite H. Qed.

Lemma join_app c ws vs :
  ws <> [] -> vs <> [] -> join c (ws ++ vs) = join c ws ++ c :: join c vs.
Proof.
  intros Hw Hv. induction ws as [|w ws IH]; [done|].
  destruct ws as [|w' ws].
  - cbn [app]. by rewrite join_cons.
  - rewrite join_cons by done. cbn [app] in *. rewrite join_cons by done.
    rewrite IH by done. by rewrite <- app_assoc.
Qed.

Lemma split_length_pos c s : (0 < length (split c s))%nat.
Proof. pose proof (split_nonempty c s). destruct (split c s); [done|cbn; lia]. Qed.

Lemma find_Some c s i :
  find c s = Some i -> exists u v, s = u ++ c :: v /\ c ∉ u /\ length u = i.
Proof.
  revert i. induction s as [|a s IH]; intros i; cbn [find]; [done|].
  destruct (Z.eqb_spec a c) as [->|Hne].
  - intros [= <-]. exists [], s. repeat split. apply not_elem_of_nil.
  - intros H. apply fmap_Some in H as (j & Hj & ->).
    destruct (IH j Hj) as (u & v & -> & Hu & <-). exists (a :: u), v.
    repeat split. apply not_elem_of_cons; done.
Qed.

Lemma find_None c s : find c s = None <-> c ∉ s.
Proof.
  induction s as [|a s IH]; cbn [find].
  { split; [intros _; apply not_elem_of_nil|done]. }
  destruct (Z.eqb_spec a c) as [->|Hne].
  - split; [done|]. intros H. destruct H. apply elem_of_cons; by left.
  - rewrite fmap_None, IH, not_elem_of_cons. naive_solver.
Qed.

Lemma find_app c u v : c ∉ u -> find c (u ++ c :: v) = Some (length u).
Proof.
  induction u as [|a u IH]; intros H; cbn [app find].
  { by rewrite Z.eqb_refl. }
  apply not_elem_of_cons in H as [Hne H]. destruct (Z.eqb_spec a c); [by subst|].
  by rewrite IH.
Qed.

Lemma rfind_None c s : rfind c s = None <-> c ∉ s.
Proof.
  induction s as [|a s IH]; cbn [rfind].
  { split; [intros _; apply not_elem_of_nil|done]. }
  rewrite not_elem_of_cons, <- IH. destruct (rfind c s).
  - split; [done|]. by intros [_ [=]].
  - destruct (Z.eqb_spec a c); naive_solver.
Qed.

Lemma rfind_Some c s i :
  rfind c s = Some i -> exists u v, s = u ++ c :: v /\ c ∉ v /\ length u = i.
Proof.
  revert i. induction s as [|a s IH]; intros i; cbn [rfind]; [done|].
  destruct (rfind c s) as [j|] eqn:E.
  - intros [= <-]. destruct (IH j eq_refl) as (u & v & -> & Hv & <-).
    by exists (a :: u), v.
  - destruct (Z.eqb_spec a c) as [->|]; [|done]. intros [= <-].
    exists [], s. repeat split. by apply rfind_None.
Qed.

Lemma rfind_app c u v : c ∉ v -> rfind c (u ++ c :: v) = Some (length u).
Proof.
  intros Hv. induction u as [|a u IH]; cbn [app rfind].
  - apply rfind_None in Hv as ->. by rewrite Z.eqb_refl.
  - by rewrite IH.
Qed.

(** Lower case *)
Lemma to_lower_not_upper b : is_ascii_uppercase (to_lower b) = false.
Proof. unfold to_lower, is_ascii_uppercase. case_match eqn:E; bool_to_prop; [by zguard|done]. Qed.

Lemma to_lower_id b : is_ascii_uppercase b = false -> to_lower b = b.
Proof. unfold to_lower. by intros ->. Qed.

Lemma to_lower_idemp b : to_lower (to_lower b) = to_lower b.
Proof. apply to_lower_id, to_lower_not_upper. Qed.

Lemma to_ascii_lowercase_idemp s :
  to_ascii_lowercase (to_ascii_lowercase s) = to_ascii_lowercase s.
Proof.
  unfold to_ascii_lowercase. rewrite map_map. apply map_ext. apply to_lower_idemp.
Qed.

Lemma to_ascii_lowercase_id s :
  existsb is_ascii_uppercase s = false -> to_ascii_lowercase s = s.
Proof.
  induction s as [|a s IH]; cbn [existsb]; [done|]. intros H. bool_to_prop.
  unfold to_ascii_lowercase in *. cbn [map]. rewrite to_lower_id by done. by rewrite IH.
Qed.

Lemma to_ascii_lowercase_no_upper s :
  existsb is_ascii_uppercase (to_ascii_lowercase s) = false.
Proof.
  induction s as [|a s IH]; [done|]. cbn [to_ascii_lowercase map existsb].
  by rewrite to_lower_not_upper.
Qed.

Lemma to_ascii_lowercase_app s t :
  to_ascii_lowercase (s ++ t) = to_ascii_lowercase s ++ to_ascii_lowercase t.
Proof. apply map_app. Qed.

Lemma to_ascii_lowercase_len s : len (to_ascii_lowercase s) = len s.
Proof. unfold len, to_ascii_lowercase. by rewrite length_map. Qed.

Lemma to_lower_dot b : to_lower b = c_dot <-> b = c_dot.
Proof. unfold to_lower, is_ascii_uppercase, c_dot. case_match; bool_to_prop; lia. Qed.

#[export] Hint Rewrite to_ascii_lowercase_len : len.

(** Plain text: printable ASCII, no white space *)
Definition plain_byte (b : Z) : bool := (33 <=? b) && (b <=? 127).

Lemma plain_not_ws b : plain_byte b = true ->
  ws1 b = false /\ (forall c, ws2 b c = false) /\ (forall c d, ws3 b c d = false).
Proof.
  unfold plain_byte. intros H. bool_to_prop. repeat split; intros;
    unfold ws1, ws2, ws3; by zguard.
Qed.

Lemma split_ws_go_plain w cur r :
  Forall (fun b => plain_byte b = true) w ->
  split_ws_go cur (w ++ r) = split_ws_go (reverse w ++ cur) r.
Proof.
  intros H. revert cur. induction H as [|a w Ha Hw IH]; intros cur; [done|].
  destruct (plain_not_ws a Ha) as (H1 & H2 & H3). cbn [app split_ws_go]. rewrite H1.
  replace (match w ++ r with
           | [] => _ | _ => _ end) with (split_ws_go (a :: cur) (w ++ r)).
  { by rewrite IH, reverse_cons, <- app_assoc. }
  destruct (w ++ r) as [|b [|c k]]; [done|by rewrite H2|by rewrite H2, H3].
Qed.

Lemma split_whitespace_plain w :
  w <> [] -> Forall (fun b => plain_byte b = true) w -> split_whitespace w = [w].
Proof.
  intros Hne H. unfold split_whitespace. rewrite <- (app_nil_r w) at 1.
  rewrite split_ws_go_plain by done. cbn [split_ws_go]. rewrite app_nil_r.
  unfold flush_word. destruct (reverse w) eqn:E.
  - apply (f_equal reverse) in E. by rewrite reverse_involutive in E.
  - rewrite <- E. by rewrite reverse_involutive.
Qed.

Lemma split_whitespace_two w v :
  w <> [] -> v <> [] ->
  Forall (fun b => plain_byte b = true) w -> Forall (fun b => plain_byte b = true) v ->
  split_whitespace (w ++ c_space :: v) = [w; v].
Proof.
  intros Hw Hv Pw Pv. unfold split_whitespace. rewrite split_ws_go_plain by done.
  cbn [split_ws_go]. cbn [ws1 c_space Z.leb Z.compare Pos.compare Pos.compare_cont andb orb Z.eqb Pos.eqb].
  rewrite app_nil_r. change (split_ws_go [] v) with (split_whitespace v).
  rewrite split_whitespace_plain by done. unfold flush_word. destruct (reverse w) eqn:E.
  - apply (f_equal reverse) in E. by rewrite reverse_involutive in E.
  - rewrite <- E. by rewrite reverse_involutive.
Qed.

(** A substring that holds a byte the text lacks does not occur in it. *)
Lemma contains_false p s c : c ∈ p -> c ∉ s -> contains p s = false.
Proof.
  intros Hp. induction s as [|a s IH]; intros Hs; cbn [contains].
  - rewrite orb_false_r. destruct (starts_with p []) eqn:E; [|done].
    apply starts_with_true in E as (r & E). destruct p; [|done].
    by apply elem_of_nil in Hp.
  - apply not_elem_of_cons in Hs as [Hne Hs]. rewrite IH by done. rewrite orb_false_r.
    destruct (starts_with p (a :: s)) eqn:E; [|done].
    apply starts_with_true in E as (r & E). exfalso.
    assert (c ∈ a :: s) as H by (rewrite E; apply elem_of_app; by left).
    apply elem_of_cons in H as [->|H]; done.
Qed.

Lemma starts_with_char c s : starts_with [c] s = true <-> head s = Some c.
Proof.
  rewrite starts_with_true. split.
  - by intros (r & ->).
  - destruct s; [done|]. intros [= ->]. by eexists.
Qed.

Lemma ends_with_char c s : ends_with [c] s = true <-> last s = Some c.
Proof.
  rewrite ends_with_true. split.
  - intros (r & ->). apply last_snoc.
  - intros H. apply last_Some in H as (r & ->). by exists r.
Qed.

(** The pieces of a text after its first word: each is preceded by the last
    byte of a white-space character. *)
Definition ws_end_byte (x : Z) : Prop := x <= 32 \/ 128 <= x.

(** Induction over a text by whole characters of one, two or three bytes. *)
Lemma bytes_ind3 (P : list Z -> Prop) :
  (forall s, (forall r, (length r < length s)%nat -> P r) -> P s) -> forall s, P s.
Proof.
  intros H s. remember (length s) as n eqn:E. revert s E.
  induction (lt_wf n) as [n _ IH]. intros s ->. apply H. intros r Hr. by apply (IH _ Hr).
Qed.

Lemma trim_start_suffix s : exists u, s = u ++ trim_start s.
Proof.
  induction s as [s IH] using bytes_ind3. destruct s as [|a r]; [by exists []|].
  cbn [trim_start]. destruct (ws1 a).
  { destruct (IH r ltac:(cbn; lia)) as (u & E). exists (a :: u). cbn. by f_equal. }
  destruct r as [|b r']; [by exists []|]. destruct (ws2 a b).
  { destruct (IH r' ltac:(cbn; lia)) as (u & E). exists (a :: b :: u). cbn. by do 2 f_equal. }
  destruct r' as [|c r'']; [by exists []|]. destruct (ws3 a b c); [|by exists []].
  destruct (IH r'' ltac:(cbn; lia)) as (u & E). exists (a :: b :: c :: u). cbn. by do 3 f_equal.
Qed.

Lemma trim_end_rev_suffix s : exists u, s = u ++ trim_end_rev s.
Proof.
  induction s as [s IH] using bytes_ind3. destruct s as [|a r]; [by exists []|].
  cbn [trim_end_rev]. destruct (ws1 a).
  { destruct (IH r ltac:(cbn; lia)) as (u & E). exists (a :: u). cbn. by f_equal. }
  destruct r as [|b r']; [by exists []|]. destruct (ws2 b a).
  { destruct (IH r' ltac:(cbn; lia)) as (u & E). exists (a :: b :: u). cbn. by do 2 f_equal. }
  destruct r' as [|c r'']; [by exists []|]. destruct (ws3 c b a); [|by exists []].
  destruct (IH r'' ltac:(cbn; lia)) as (u & E). exists (a :: b :: c :: u). cbn. by do 3 f_equal.
Qed.

Lemma trim_infix s : exists u v, s = u ++ trim s ++ v.
Proof.
  unfold trim, trim_end. destruct (trim_start_suffix s) as (u & Hu).
  destruct (trim_end_rev_suffix (reverse (trim_start s))) as (v & Hv).
  exists u, (reverse v). rewrite Hu at 1. f_equal. apply (inj reverse).
  by rewrite reverse_app, !reverse_involutive.
Qed.

(** A trimmed text is empty or starts with a character that is not white
    space. *)
Lemma trim_start_not_ws s : starts_ws (trim_start s) = false.
Proof.
  induction s as [s IH] using bytes_ind3. destruct s as [|a r]; [done|].
  cbn [trim_start]. destruct (ws1 a) eqn:E1; [apply IH; cbn; lia|].
  destruct r as [|b r']; [cbn; by rewrite E1|]. destruct (ws2 a b) eqn:E2; [apply IH; cbn; lia|].
  destruct r' as [|c r'']; [cbn; by rewrite E1, E2|].
  destruct (ws3 a b c) eqn:E3; [apply IH; cbn; lia|]. cbn. by rewrite E1, E2, E3.
Qed.

(** A word other than the first is preceded by white space. *)
Lemma split_ws_go_later cur s w :
  w ∈ split_ws_go cur s ->
  (exists v, w = reverse cur ++ v /\ exists r, s = v ++ r)
  \/ (exists a x r, s = a ++ [x] ++ w ++ r /\ ws_end_byte x).
Proof.
  revert cur. induction s as [s IH] using bytes_ind3. intros cur.
  (* one white-space character [p ++ [x]] in front of [r] *)
  assert (Hsep : forall p x r, s = p ++ x :: r -> ws_end_byte x ->
    w ∈ flush_word cur ++ split_ws_go [] r ->
    (exists v, w = reverse cur ++ v /\ exists r, s = v ++ r)
    \/ (exists a x r, s = a ++ [x] ++ w ++ r /\ ws_end_byte x)).
  { intros p x r Hs Hx Hw. apply elem_of_app in Hw as [Hw|Hw].
    - left. exists []. split; [|by exists s]. unfold flush_word in Hw.
      destruct cur; [by apply elem_of_nil in Hw|]. apply list_elem_of_singleton in Hw as ->.
      by rewrite app_nil_r.
    - right. apply IH in Hw; [|rewrite Hs, length_app; cbn; lia].
      destruct Hw as [(v & -> & r' & ->)|(a & y & r' & -> & Hy)].
      + exists p, x, r'. by split.
      + exists (p ++ [x] ++ a), y, r'. split; [|done]. by rewrite Hs, <- !app_assoc. }
  assert (Hgo : forall a r, s = a :: r -> w ∈ split_ws_go (a :: cur) r ->
    (exists v, w = reverse cur ++ v /\ exists r, s = v ++ r)
    \/ (exists a x r, s = a ++ [x] ++ w ++ r /\ ws_end_byte x)).
  { intros a r Hs Hw. apply IH in Hw; [|rewrite Hs; cbn; lia].
    destruct Hw as [(v & -> & r' & ->)|(b & y & r' & -> & Hy)].
    - left. exists (a :: v). rewrite reverse_cons, <- app_assoc. split; [done|]. by exists r'.
    - right. exists (a :: b), y, r'. by rewrite Hs. }
  destruct s as [|a r]; cbn [split_ws_go].
  { intros Hw. left. exists []. split; [|by exists []]. unfold flush_word in Hw.
    destruct cur; [by apply elem_of_nil in Hw|]. apply list_elem_of_singleton in Hw as ->.
    by rewrite app_nil_r. }
  destruct (ws1 a) eqn:E1.
  { apply (Hsep [] a r); [done|]. unfold ws1 in E1. unfold ws_end_byte.
    apply orb_true_iff in E1 as [E|E]; bool_to_prop; lia. }
  destruct r as [|b r']; [by apply Hgo|]. destruct (ws2 a b) eqn:E2.
  { apply (Hsep [a] b r'); [done|]. unfold ws2 in E2. unfold ws_end_byte. bool_to_prop.
    rewrite orb_true_iff, !Z.eqb_eq in *. lia. }
  destruct r' as [|c r'']; [by apply Hgo|]. destruct (ws3 a b c) eqn:E3; [|by apply Hgo].
  apply (Hsep [a; b] c r''); [done|]. unfold ws3 in E3. unfold ws_end_byte.
  rewrite !orb_true_iff, !andb_true_iff, !Z.eqb_eq, !orb_true_iff, !andb_true_iff,
    !Z.leb_le, !Z.eqb_eq in E3. lia.
Qed.

Lemma split_whitespace_word s w :
  w ∈ split_whitespace s -> exists u v, s = u ++ w ++ v.
Proof.
  intros H. apply split_ws_go_later in H as [(v & -> & r & ->)|(a & x & r & -> & _)].
  - by exists [], r.
  - exists (a ++ [x]), r. by rewrite <- app_assoc.
Qed.

Lemma split_ws_go_drop1 cur s w :
  w ∈ drop 1 (split_ws_go cur s) ->
  exists a x r, s = a ++ [x] ++ w ++ r /\ ws_end_byte x.
Proof.
  revert cur. induction s as [s IH] using bytes_ind3. intros cur.
  assert (Hsep : forall p x r, s = p ++ x :: r -> ws_end_byte x ->
    w ∈ drop 1 (flush_word cur ++ split_ws_go [] r) ->
    exists a x r, s = a ++ [x] ++ w ++ r /\ ws_end_byte x).
  { intros p x r Hs Hx Hw. unfold flush_word in Hw. destruct cur as [|c0 cur]; cbn [app] in Hw.
    - apply IH in Hw as (a & y & r' & -> & Hy); [|rewrite Hs, length_app; cbn; lia].
      exists (p ++ [x] ++ a), y, r'. split; [|done]. by rewrite Hs, <- !app_assoc.
    - cbn [drop] in Hw. apply split_ws_go_later in Hw as [(v & -> & r' & ->)|(a & y & r' & -> & Hy)].
      + exists p, x, r'. by split.
      + exists (p ++ [x] ++ a), y, r'. split; [|done]. by rewrite Hs, <- !app_assoc. }
  assert (Hgo : forall a r, s = a :: r -> w ∈ drop 1 (split_ws_go (a :: cur) r) ->
    exists a x r, s = a ++ [x] ++ w ++ r /\ ws_end_byte x).
  { intros a r Hs Hw. apply IH in Hw as (b & y & r' & -> & Hy); [|rewrite Hs; cbn; lia].
    exists (a :: b), y, r'. by rewrite Hs. }
  destruct s as [|a r]; cbn [split_ws_go].
  { intros Hw. exfalso. unfold flush_word in Hw. destruct cur; cbn in Hw; by apply elem_of_nil in Hw. }
  destruct (ws1 a) eqn:E1.
  { apply (Hsep [] a r); [done|]. unfold ws1 in E1. unfold ws_end_byte.
    apply orb_true_iff in E1 as [E|E]; bool_to_prop; lia. }
  destruct r as [|b r']; [by apply Hgo|]. destruct (ws2 a b) eqn:E2.
  { apply (Hsep [a] b r'); [done|]. unfold ws2 in E2. unfold ws_end_byte. bool_to_prop.
    rewrite orb_true_iff, !Z.eqb_eq in *. lia. }
  destruct r' as [|c r'']; [by apply Hgo|]. destruct (ws3 a b c) eqn:E3; [|by apply Hgo].
  apply (Hsep [a; b] c r''); [done|]. unfold ws3 in E3. unfold ws_end_byte.
  rewrite !orb_true_iff, !andb_true_iff, !Z.eqb_eq, !orb_true_iff, !andb_true_iff,
    !Z.leb_le, !Z.eqb_eq in E3. lia.
Qed.

(** The first word of a text that does not start with white space starts
    with the text's first byte. *)
Lemma split_ws_go_first c cur s :
  exists v ws, split_ws_go (c :: cur) s = (reverse (c :: cur) ++ v) :: ws.
Proof.
  revert c cur. induction s as [s IH] using bytes_ind3. intros c cur.
  assert (Hf : forall r, exists v ws, flush_word (c :: cur) ++ split_ws_go [] r = (reverse (c :: cur) ++ v) :: ws).
  { intros r. exists [], (split_ws_go [] r). by rewrite app_nil_r. }
  assert (Hgo : forall a r, s = a :: r ->
    exists v ws, split_ws_go (a :: c :: cur) r = (reverse (c :: cur) ++ v) :: ws).
  { intros a r ->. destruct (IH r ltac:(cbn; lia) a (c :: cur)) as (v & ws & ->).
    exists (a :: v), ws. rewrite (reverse_cons (c :: cur)), <- app_assoc. done. }
  destruct s as [|a r]; cbn [split_ws_go].
  { exists [], []. by rewrite app_nil_r. }
  destruct (ws1 a); [done|]. destruct r as [|b r']; [by apply Hgo|].
  destruct (ws2 a b); [done|]. destruct r' as [|d r'']; [by apply Hgo|].
  destruct (ws3 a b d); [done|]. by apply Hgo.
Qed.

Lemma split_whitespace_first a s w :
  starts_ws (a :: s) = false -> head (split_whitespace (a :: s)) = Some w -> head w = Some a.
Proof.
  intros Hw. unfold split_whitespace. cbn [split_ws_go].
  assert (Hgo : head (split_ws_go [a] s) = Some w -> head w = Some a).
  { destruct (split_ws_go_first a [] s) as (v & ws & ->). by intros [= <-]. }
  cbn [starts_ws] in Hw. apply orb_false_iff in Hw as [-> Hw]. destruct s as [|b s]; [done|].
  apply orb_false_iff in Hw as [-> Hw]. destruct s as [|c s]; [done|]. by rewrite Hw.
Qed.

Lemma starts_ws_app p q : starts_ws p = true -> starts_ws (p ++ q) = true.
Proof.
  destruct p as [|a [|b [|c p]]]; cbn; [done|..]; rewrite ?orb_true_iff; naive_solver.
Qed.

Lemma trim_not_ws s : starts_ws (trim s) = false.
Proof.
  unfold trim, trim_end. destruct (trim_end_rev_suffix (reverse (trim_start s))) as (v & Hv).
  apply not_true_iff_false. intros H. apply (starts_ws_app _ (reverse v)) in H.
  rewrite <- reverse_app, <- Hv, reverse_involutive, trim_start_not_ws in H. done.
Qed.

(** The first byte, if any, is a one-byte character. *)
Definition char_start (s : list Z) : Prop := forall a, head s = Some a -> a < 128.

Lemma char_start_app p q : char_start p -> p <> [] -> char_start (p ++ q).
Proof. destruct p as [|a p]; [done|]. intros H _. exact H. Qed.

(** A text that starts and ends with a plain byte is its own trim. *)
Lemma trim_start_id a r : plain_byte a = true -> trim_start (a :: r) = a :: r.
Proof.
  intros H. destruct (plain_not_ws a H) as (H1 & H2 & H3). cbn [trim_start]. rewrite H1.
  destruct r as [|b [|c r]]; [done|by rewrite H2|by rewrite H2, H3].
Qed.

Lemma plain_not_ws_end z : plain_byte z = true ->
  ws1 z = false /\ (forall b, ws2 b z = false) /\ (forall c b, ws3 c b z = false).
Proof.
  unfold plain_byte. intros H. bool_to_prop.
  unfold ws1, ws2, ws3. repeat split; intros; zguard; by rewrite ?andb_false_r.
Qed.

Lemma trim_end_id r z : plain_byte z = true -> trim_end (r ++ [z]) = r ++ [z].
Proof.
  intros H. destruct (plain_not_ws_end z H) as (H1 & H2 & H3).
  unfold trim_end. rewrite reverse_snoc. apply (inj reverse). rewrite reverse_involutive, reverse_snoc.
  cbn [trim_end_rev]. rewrite H1.
  destruct (reverse r) as [|b [|c k]]; [done|by rewrite H2|by rewrite H2, H3].
Qed.

Lemma trim_id s a z :
  head s = Some a -> last s = Some z -> plain_byte a = true -> plain_byte z = true -> trim s = s.
Proof.
  intros Ha Hz Pa Pz. apply last_Some in Hz as (r & Hr). unfold trim.
  replace (trim_start s) with s.
  - rewrite Hr. by apply trim_end_id.
  - destruct s; [done|]. injection Ha as ->. by rewrite trim_start_id.
Qed.

Lemma lines_go_single cur s : c_nl ∉ s -> cur <> [] \/ s <> [] -> lines_go cur s = [reverse cur ++ s].
Proof.
  revert cur. induction s as [|a s IH]; intros cur Hn Hne; cbn [lines_go].
  { rewrite app_nil_r. destruct cur; [naive_solver|done]. }
  apply not_elem_of_cons in Hn as [Ha Hn]. destruct (Z.eqb_spec a c_nl); [by subst|].
  rewrite IH by (auto; by left). by rewrite reverse_cons, <- app_assoc.
Qed.

Lemma lines_single s : c_nl ∉ s -> s <> [] -> lines s = [s].
Proof. intros. unfold lines. rewrite lines_go_single by auto. done. Qed.

(** ** Lossy decoding *)
Lemma from_utf8_lossy_len s : len (from_utf8_lossy s) <= 3 * len s.
Proof.
  induction s as [s IH] using bytes_ind3. destruct s as [|a r]; [done|]. cbn [from_utf8_lossy].
  assert (HR : len REPLACEMENT = 3) by done.
  assert (K : forall r', (length r' < length (a :: r))%nat -> len (from_utf8_lossy r') <= 3 * len r') by (intros; by apply IH).
  repeat case_match; subst; rewrite ?len_app, ?len_cons, ?len_nil, ?HR;
    repeat match goal with |- context [len (from_utf8_lossy ?x)] => pose proof (K x ltac:(cbn; lia)); generalize dependent (len (from_utf8_lossy x)); intros end;
    rewrite ?len_cons in *; repeat match goal with |- context [len ?x] => is_var x; pose proof (len_nonneg x); generalize dependent (len x); intros end; lia.
Qed.

(** Well-formed text is left as it is. *)
Lemma from_utf8_lossy_valid s : utf8_valid s = true -> from_utf8_lossy s = s.
Proof.
  induction s as [s IH] using bytes_ind3. destruct s as [|a r]; [done|].
  assert (K : forall r', (length r' < length (a :: r))%nat -> utf8_valid r' = true -> from_utf8_lossy r' = r') by (intros; by apply IH).
  cbn [from_utf8_lossy utf8_valid]. destruct (between 0 127 a); [intros Hv; by rewrite K by (done || cbn; lia)|].
  destruct r as [|b r2]; [done|]. destruct (between 194 223 a).
  { intros [-> Hv]%andb_true_iff. by rewrite K by (done || cbn; lia). }
  destruct r2 as [|c r3]; [done|]. destruct (lead3 a b).
  { intros [-> Hv]%andb_true_iff. by rewrite K by (done || cbn; lia). }
  destruct r3 as [|d r4]; [done|]. intros [[[-> ->]%andb_true_iff ->]%andb_true_iff Hv]%andb_true_iff.
  by rewrite K by (done || cbn; lia).
Qed.

Lemma utf8_valid_replacement s : utf8_valid (REPLACEMENT ++ s) = utf8_valid s.
Proof. reflexivity. Qed.

(** Whatever the bytes, the text is well formed. *)
Lemma from_utf8_lossy_utf8 s : utf8_valid (from_utf8_lossy s) = true.
Proof.
  induction s as [s IH] using bytes_ind3. destruct s as [|a r]; [done|].
  assert (K : forall r', (length r' < length (a :: r))%nat -> utf8_valid (from_utf8_lossy r') = true) by (intros; by apply IH).
  cbn [from_utf8_lossy]. destruct (between 0 127 a) eqn:Ea; [cbn [utf8_valid]; rewrite Ea; apply K; cbn; lia|].
  destruct r as [|b r2]; [done|]. destruct (between 194 223 a) eqn:Eb.
  { destruct (cont b) eqn:Ec; [cbn [utf8_valid]; rewrite Ea, Eb, Ec|rewrite utf8_valid_replacement]; apply K; cbn; lia. }
  destruct (lead3 a b) eqn:E3.
  { destruct r2 as [|c r3]; [done|].
    destruct (cont c) eqn:Ec; [cbn [utf8_valid]; rewrite Ea, Eb, E3, Ec|rewrite utf8_valid_replacement]; apply K; cbn; lia. }
  destruct (lead4 a b) eqn:E4; [|rewrite utf8_valid_replacement; apply K; cbn; lia].
  destruct r2 as [|c r3]; [done|]. destruct (cont c) eqn:Ec; [|rewrite utf8_valid_replacement; apply K; cbn; lia].
  destruct r3 as [|d r4]; [done|].
  destruct (cont d) eqn:Ed; [cbn [utf8_valid]; rewrite Ea, Eb, E3, E4, Ec, Ed|rewrite utf8_valid_replacement]; apply K; cbn; lia.
Qed.
