(* ===== verification/IpAddr.v ===== *)
(** * IpAddr: [std::net::IpAddr] and [str::parse::<IpAddr>]

    The address parser of the Rust standard library (core::net::parser), as
    [crates/filter/src/parse.rs] uses it to recognise hosts lines: four
    decimal octets of at most three digits without leading zeros, or eight
    hexadecimal groups of at most four digits with one [::] and an optional
    embedded IPv4 tail. A parser returns its value and the unread rest; a
    failed parser consumes nothing ([read_atomically]). *)
From S2P Require Import Prelude Text.

Inductive IpAddr :=
| V4 (octets : list Z)
| V6 (segments : list Z).

#[export] Instance IpAddr_eq_dec : EqDecision IpAddr.
Proof. solve_decision. Defined.

Definition is_ipv4 (ip : IpAddr) : bool := match ip with V4 _ => true | V6 _ => false end.
Definition is_unspecified (ip : IpAddr) : bool :=
  match ip with
  | V4 o => bool_decide (o = [0; 0; 0; 0])
  | V6 s => bool_decide (s = [0; 0; 0; 0; 0; 0; 0; 0])
  end.
Definition is_loopback (ip : IpAddr) : bool :=
  match ip with
  | V4 o => match o with a :: _ => a =? 127 | [] => false end
  | V6 s => bool_decide (s = [0; 0; 0; 0; 0; 0; 0; 1])
  end.

(** [char::to_digit] *)
Definition to_digit (radix c : Z) : option Z :=
  let d := if is_ascii_digit c then Some (c - 48)
           else if is_ascii_lowercase c then Some (c - 87)
           else if is_ascii_uppercase c then Some (c - 55)
           else None in
  match d with Some v => if v <? radix then Some v else None | None => None end.

Fixpoint read_digits (radix max_digits : Z) (s : list Z) (result count : Z)
  : option (Z * Z * list Z) :=
  match s with
  | [] => Some (result, count, [])
  | c :: r =>
      match to_digit radix c with
      | None => Some (result, count, s)
      | Some d =>
          if max_digits <? count + 1 then None
          else read_digits radix max_digits r (result * radix + d) (count + 1)
      end
  end.

(** [Parser::read_number] for a target type with maximum [max]. *)
Definition read_number (radix max_digits max : Z) (allow_zero_prefix : bool) (s : list Z)
  : option (Z * list Z) :=
  let leading_zero := match s with c :: _ => c =? 48 | [] => false end in
  match read_digits radix max_digits s 0 0 with
  | None => None
  | Some (result, count, r) =>
      if count =? 0 then None
      else if negb allow_zero_prefix && leading_zero && (1 <? count) then None
      else if result <=? max then Some (result, r) else None
  end.

(** [Parser::read_separator]: the separator, except before the first item. *)
Definition read_separator {A} (sep : Z) (i : nat) (inner : list Z -> option (A * list Z))
  (s : list Z) : option (A * list Z) :=
  match i with
  | O => inner s
  | S _ => match s with c :: r => if c =? sep then inner r else None | [] => None end
  end.

Fixpoint read_octets (n i : nat) (s : list Z) : option (list Z * list Z) :=
  match n with
  | O => Some ([], s)
  | S n' =>
      match read_separator c_dot i (read_number 10 3 u8_max false) s with
      | None => None
      | Some (o, r) =>
          match read_octets n' (S i) r with
          | None => None
          | Some (os, r') => Some (o :: os, r')
          end
      end
  end.

Definition read_ipv4_addr (s : list Z) : option (list Z * list Z) := read_octets 4 0 s.

(** The two groups an embedded IPv4 address fills. *)
Definition ipv4_groups (o : list Z) : list Z :=
  match o with
  | [a; b; c; d] => [a * 256 + b; c * 256 + d]
  | _ => []
  end.

(** [read_groups] with [limit - i] slots left: the groups read, whether an
    embedded IPv4 address ended them, and the rest. *)
Fixpoint read_groups (left i : nat) (s : list Z) : list Z * bool * list Z :=
  match left with
  | O => ([], false, s)
  | S left' =>
      let embedded :=
        if (1 <=? left')%nat then read_separator c_colon i read_ipv4_addr s else None in
      match embedded with
      | Some (o, r) => (ipv4_groups o, true, r)
      | None =>
          match read_separator c_colon i (read_number 16 4 u16_max true) s with
          | None => ([], false, s)
          | Some (g, r) =>
              let '(gs, v4, r') := read_groups left' (S i) r in (g :: gs, v4, r')
          end
      end
  end.

Definition read_ipv6_addr (s : list Z) : option (list Z * list Z) :=
  let '(head, head_ipv4, r) := read_groups 8 0 s in
  if (length head =? 8)%nat then Some (head, r)
  else if head_ipv4 then None
  else match r with
       | a :: b :: r1 =>
           if (a =? c_colon) && (b =? c_colon) then
             let limit := (8 - (length head + 1))%nat in
             let '(tail, _, r2) := read_groups limit 0 r1 in
             Some (head ++ replicate (8 - length head - length tail) 0 ++ tail, r2)
           else None
       | _ => None
       end.

(** [s.parse::<IpAddr>()]: the whole text must be read. *)
Definition parse_ip (s : list Z) : option IpAddr :=
  match read_ipv4_addr s with
  | Some (o, []) => Some (V4 o)
  | Some (_, _ :: _) => None
  | None =>
      match read_ipv6_addr s with
      | Some (g, []) => Some (V6 g)
      | _ => None
      end
  end.

Example parse_ip_v4 : parse_ip (lit "127.0.0.1") = Some (V4 [127; 0; 0; 1]).
Proof. reflexivity. Qed.
Example parse_ip_v4_zero : parse_ip (lit "01.0.0.1") = None.
Proof. reflexivity. Qed.
Example parse_ip_v6 : parse_ip (lit "fe80::1") = Some (V6 [65152; 0; 0; 0; 0; 0; 0; 1]).
Proof. reflexivity. Qed.
Example parse_ip_v6_embedded :
  parse_ip (lit "::ffff:1.2.3.4") = Some (V6 [0; 0; 0; 0; 0; 65535; 258; 772]).
Proof. reflexivity. Qed.
Example parse_ip_v6_any : parse_ip (lit "::") = Some (V6 [0; 0; 0; 0; 0; 0; 0; 0]).
Proof. reflexivity. Qed.

(** A text that begins with neither a digit, a hexadecimal letter nor a
    colon is no address. *)
Lemma parse_ip_head c s :
  to_digit 16 c = None -> c <> c_colon -> parse_ip (c :: s) = None.
Proof.
  intros Hd Hc.
  assert (H10 : to_digit 10 c = None).
  { unfold to_digit in *. repeat case_match; try done; bool_to_prop; try lia; simplify_eq; lia. }
  assert (Hn : forall m mx z, read_number 10 m mx z (c :: s) = None).
  { intros. unfold read_number. cbn [read_digits]. by rewrite H10. }
  assert (Hn6 : forall m mx z, read_number 16 m mx z (c :: s) = None).
  { intros. unfold read_number. cbn [read_digits]. by rewrite Hd. }
  unfold parse_ip, read_ipv4_addr. cbn [read_octets read_separator]. rewrite Hn.
  unfold read_ipv6_addr. cbn [read_groups Nat.leb read_separator].
  unfold read_ipv4_addr. cbn [read_octets read_separator]. rewrite Hn, Hn6.
  cbn [length Nat.eqb]. destruct s as [|b s]; [done|].
  destruct (Z.eqb_spec c c_colon); [done|]. done.
Qed.
