(* ===== verification/FilterTypes.v ===== *)
(** * FilterTypes: the public data of the filter crate
    ([crates/filter/src/lib.rs]): rules, issues, verdicts, and the copies
    that outlive the engine ([Verdict::detach]). *)
From S2P Require Import Prelude Text.

Inductive RuleAction := Block | Except.

(** [String] fields are text; [include_subdomains] comes from [||]. *)
Inductive Pattern :=
| Exact (d : list Z)
| Subtree (d : list Z)
| Wildcard (expr : list Z) (include_subdomains : bool).

Record Rule := mkRule {
  rule_action : RuleAction;
  rule_pattern : Pattern;
  rule_text : list Z;
  rule_line : Z
}.

Inductive IssueReason :=
| CosmeticRule
| UnsupportedModifier
| UnsupportedHostsEntry
| UnsupportedSyntax
| InvalidDomain.

Record LineIssue := mkIssue {
  issue_line : Z;
  issue_text : list Z;
  issue_reason : IssueReason
}.

Record ParsedList := mkParsed { pl_rules : list Rule; pl_issues : list LineIssue }.

Record ListCounts := mkCounts { lc_rules : Z; lc_issues : Z }.

Record AddedList := mkAdded {
  added_index : Z;
  added_rules : Z;
  added_issues : list LineIssue
}.

Record MatchedRule := mkMatched {
  mr_action : RuleAction;
  mr_text : list Z;
  mr_line : Z
}.

Inductive Verdict :=
| VNoMatch
| VBlock (list_ : Z) (rule : MatchedRule)
| VExcept (list_ : Z) (rule : MatchedRule).

Record RuleHit := mkHit { hit_list : Z; hit_line : Z; hit_text : list Z }.

Inductive OwnedVerdict :=
| ONoMatch
| OBlock (h : RuleHit)
| OExcept (h : RuleHit).

#[export] Instance RuleAction_eq_dec : EqDecision RuleAction.
Proof. solve_decision. Defined.
#[export] Instance Pattern_eq_dec : EqDecision Pattern.
Proof. solve_decision. Defined.
#[export] Instance Rule_eq_dec : EqDecision Rule.
Proof. solve_decision. Defined.
#[export] Instance IssueReason_eq_dec : EqDecision IssueReason.
Proof. solve_decision. Defined.
#[export] Instance LineIssue_eq_dec : EqDecision LineIssue.
Proof. solve_decision. Defined.
#[export] Instance MatchedRule_eq_dec : EqDecision MatchedRule.
Proof. solve_decision. Defined.
#[export] Instance Verdict_eq_dec : EqDecision Verdict.
Proof. solve_decision. Defined.

(** [impl Display for IssueReason] *)
Definition issue_reason_display (r : IssueReason) : list Z :=
  match r with
  | CosmeticRule => lit "cosmetic rule (not DNS filtering)"
  | UnsupportedModifier => lit "rule modifiers are not supported"
  | UnsupportedHostsEntry => lit "hosts entry maps to a real address"
  | UnsupportedSyntax => lit "syntax outside the supported subset"
  | InvalidDomain => lit "not a valid DNS name"
  end.

(** [Verdict::detach] *)
Definition detach (v : Verdict) : OwnedVerdict :=
  let hit l r := mkHit l (mr_line r) (mr_text r) in
  match v with
  | VNoMatch => ONoMatch
  | VBlock l r => OBlock (hit l r)
  | VExcept l r => OExcept (hit l r)
  end.
