(* ===== verification/Parse.v ===== *)
(** * Parse: the blocklist parser ([crates/filter/src/parse.rs])

    One definition per function. The rule callback ([sink]) is a function
    on a client state [S]; the issue vector is threaded next to it, so the
    engine builder, the counter and the collector are three instances of
    the same streamed parser, as in the source. A [Cow] is its text. *)
From S2P Require Import Prelude Text IpAddr FilterTypes.

Definition LOCALHOST_NAMES : list (list Z) := map lit [
  "localhost"; "localhost.localdomain"; "local"; "broadcasthost";
  "ip6-localhost"; "ip6-loopback"; "ip6-localnet"; "ip6-mcastprefix";
  "ip6-allnodes"; "ip6-allrouters"; "ip6-allhosts"]%string.

Definition COSMETIC_MARKERS : list (list Z) :=
  map lit ["##"; "#@#"; "#?#"; "#$#"; "#%#"]%string.

Inductive PatternRef :=
| PatternRef_Exact (d : list Z)
| PatternRef_Subtree (d : list Z)
| PatternRef_Wildcard (expr : list Z) (include_subdomains : bool).

Record RuleRef := mkRef {
  action : RuleAction;
  pattern : PatternRef;
  text : list Z;
  line : Z
}.

Definition from_rule (r : Rule) : RuleRef := {|
  action := rule_action r;
  pattern := match rule_pattern r with
             | Exact d => PatternRef_Exact d
             | Subtree d => PatternRef_Subtree d
             | Wildcard e sub => PatternRef_Wildcard e sub
             end;
  text := rule_text r;
  line := rule_line r |}.

Definition to_owned_rule (r : RuleRef) : Rule := {|
  rule_action := action r;
  rule_pattern := match pattern r with
                  | PatternRef_Exact d => Exact d
                  | PatternRef_Subtree d => Subtree d
                  | PatternRef_Wildcard e sub => Wildcard e sub
                  end;
  rule_text := text r;
  rule_line := line r |}.

(** Strip one trailing dot and lowercase (borrowing is not visible). *)
Definition lower_strip (s : list Z) : list Z :=
  let s := default s (strip_suffix [c_dot] s) in
  if existsb is_ascii_uppercase s then to_ascii_lowercase s else s.

Definition label_byte (b : Z) : bool :=
  is_ascii_lowercase b || is_ascii_digit b || (b =? c_hyphen) || (b =? c_underscore).

(** The body of [normalize_domain]'s loop over the labels. *)
Definition label_ok (label : list Z) : bool :=
  negb (len label =? 0) && (len label <=? 63)
  && negb (starts_with [c_hyphen] label || ends_with [c_hyphen] label)
  && forallb label_byte label.

Definition normalize_domain (s : list Z) : option (list Z) :=
  let s := lower_strip s in
  if (len s =? 0) || (253 <? len s) then None
  else if forallb label_ok (split c_dot s) then Some s else None.

Definition wildcard_byte (b : Z) : bool :=
  is_ascii_lowercase b || is_ascii_digit b
  || (b =? c_hyphen) || (b =? c_underscore) || (b =? c_dot) || (b =? c_star).

(** The body of [normalize_wildcard]'s loop over the segments. *)
Definition segment_ok (segment : list Z) : bool :=
  contains_char c_star segment
  || negb ((len segment =? 0) || (63 <? len segment)
           || starts_with [c_hyphen] segment || ends_with [c_hyphen] segment).

Definition normalize_wildcard (s : list Z) : option (list Z) :=
  let s := lower_strip s in
  if (len s =? 0) || (253 <? len s) || negb (existsb is_ascii_alphanumeric s) then None
  else if negb (forallb wildcard_byte s) then None
  else if forallb segment_ok (split c_dot s) then Some s else None.

Definition is_localhost (name : list Z) : bool :=
  let bare := default name (strip_suffix [c_dot] name) in
  existsb (fun l => eq_ignore_ascii_case l bare) LOCALHOST_NAMES.

(** The names a hosts line lists, localhost machinery skipped. *)
Definition hosts_names (line : list Z) : list (list Z) :=
  let effective := trim (default line (head (split c_hash line))) in
  List.filter (fun n => negb (is_localhost n)) (drop 1 (split_whitespace effective)).

(** The hosts test of [parse_line]: the address the first token spells,
    up to a [%zone] suffix. *)
Definition hosts_ip (line : list Z) : option IpAddr :=
  match split_whitespace line with
  | [] => None
  | first :: _ => parse_ip (default first (head (split c_percent first)))
  end.

(** True when the line is blank or a comment (consumed here). *)
Definition skip_or_report_comment (line : list Z) (line_no : Z) (issues : list LineIssue)
  : bool * list LineIssue :=
  if (len line =? 0) || starts_with [c_bang] line then (true, issues)
  else if starts_with [c_lbracket] line && ends_with [c_rbracket] line then (true, issues)
  else if starts_with [c_hash] line then
    let cosmetic :=
      existsb (fun m => starts_with m line) (map lit ["#@#"; "#?#"; "#$#"; "#%#"]%string)
      || (starts_with (lit "##") line
          && match drop 2 line with
             | [] => false
             | c :: r => negb (c =? c_hash) && negb (starts_ws (c :: r))
             end) in
    (true, if cosmetic then issues ++ [mkIssue line_no line CosmeticRule] else issues)
  else (false, issues).

Section Sink.
Context {S : Type} (sink : S -> RuleRef -> S).

(** The loop of [parse_hosts_line] over the names of a sink address. *)
Fixpoint hosts_loop (line : list Z) (line_no : Z) (names : list (list Z))
  (st : S) (issues : list LineIssue) : S * list LineIssue :=
  match names with
  | [] => (st, issues)
  | name :: rest =>
      match normalize_domain name with
      | Some domain =>
          hosts_loop line line_no rest
            (sink st (mkRef Block (PatternRef_Exact domain) line line_no)) issues
      | None =>
          hosts_loop line line_no rest st (issues ++ [mkIssue line_no line InvalidDomain])
      end
  end.

Definition parse_hosts_line (line : list Z) (ip : IpAddr) (line_no : Z)
  (st : S) (issues : list LineIssue) : S * list LineIssue :=
  match hosts_names line with
  | [] => (st, issues)
  | names =>
      if negb (is_unspecified ip || is_loopback ip)
      then (st, issues ++ [mkIssue line_no line UnsupportedHostsEntry])
      else hosts_loop line line_no names st issues
  end.

Definition parse_line (line : list Z) (line_no : Z)
  (st : S) (issues : list LineIssue) : S * list LineIssue :=
  let issue reason := (st, issues ++ [mkIssue line_no line reason]) in
  match hosts_ip line with
  | Some ip => parse_hosts_line line ip line_no st issues
  | None =>
      if existsb (fun m => contains m line) COSMETIC_MARKERS then issue CosmeticRule
      else if contains_char c_dollar line then issue UnsupportedModifier
      else if (1 <? len line) && starts_with [c_slash] line && ends_with [c_slash] line
      then issue UnsupportedSyntax
      else
        let '(act, rest) := match strip_prefix (lit "@@") line with
                            | Some rest => (Except, rest)
                            | None => (Block, line)
                            end in
        let '(subtree, rest) := match strip_prefix (lit "||") rest with
                                | Some rest => (true, rest)
                                | None => (false, rest)
                                end in
        let rest := default rest (strip_suffix [c_caret] rest) in
        if contains_char c_caret rest || starts_with [c_bar] rest
        then issue UnsupportedSyntax
        else
          let pattern :=
            if contains_char c_star rest then
              (fun expr => PatternRef_Wildcard expr subtree) <$> normalize_wildcard rest
            else
              (fun domain => if subtree then PatternRef_Subtree domain
                             else PatternRef_Exact domain) <$> normalize_domain rest in
          match pattern with
          | None => issue InvalidDomain
          | Some p => (sink st (mkRef act p line line_no), issues)
          end
  end.

(** [u32::try_from(idx).unwrap_or(u32::MAX).saturating_add(1)] *)
Definition line_number (idx : nat) : Z :=
  saturating_add u32_max (default u32_max (try_from u32_max (Z.of_nat idx))) 1.

(** The body of [parse_list_streamed]'s loop, and the loop. *)
Definition parse_raw_line (raw : list Z) (idx : nat)
  (st : S) (issues : list LineIssue) : S * list LineIssue :=
  let line_no := line_number idx in
  let line := trim raw in
  let '(skip, issues) := skip_or_report_comment line line_no issues in
  if skip then (st, issues) else parse_line line line_no st issues.

Fixpoint stream_lines (raws : list (list Z)) (idx : nat)
  (st : S) (issues : list LineIssue) : S * list LineIssue :=
  match raws with
  | [] => (st, issues)
  | raw :: rest =>
      let '(st, issues) := parse_raw_line raw idx st issues in
      stream_lines rest (Datatypes.S idx) st issues
  end.

Definition parse_list_streamed (txt : list Z) (st : S) (issues : list LineIssue)
  : S * list LineIssue := stream_lines (lines txt) 0 st issues.
End Sink.

(** [rules.push(r.to_owned_rule())] *)
Definition collect (acc : list Rule) (r : RuleRef) : list Rule := acc ++ [to_owned_rule r].

Definition parse_list (txt : list Z) : ParsedList :=
  let '(rules, issues) := parse_list_streamed collect txt [] [] in
  mkParsed rules issues.

(** [count_rules]: [rules += 1] per rule. *)
Definition count_rules (txt : list Z) : ListCounts :=
  let '(rules, issues) := parse_list_streamed (fun n _ => n + 1) txt 0 [] in
  mkCounts rules (len issues).
