(* ===== verification/ParseSpec.v ===== *)
(** * ParseSpec: what the blocklist parser promises

    The specification of a well-formed rule, of the events one line may
    produce, and the theorems: every rule handed out is well formed, no
    line is silently dropped, canonical rule texts round-trip, names are
    normalised once and for all. *)
From S2P Require Import Prelude Text IpAddr FilterTypes Parse.

(** ** Specification *)

(** A DNS label in presentation form: 1 to 63 bytes of [a-z0-9_-], not
    hyphen-bounded. *)
Definition valid_label (l : list Z) : Prop :=
  1 <= len l <= 63
  /\ Forall (fun b => label_byte b = true) l
  /\ head l <> Some c_hyphen /\ last l <> Some c_hyphen.

(** A normalised name: at most 253 bytes, every label valid. *)
Definition valid_domain (d : list Z) : Prop :=
  1 <= len d <= 253 /\ Forall valid_label (split c_dot d).

(** A normalised wildcard expression. *)
Definition valid_wildcard (e : list Z) : Prop :=
  1 <= len e <= 253 /\ c_star ∈ e /\ Forall (fun b => wildcard_byte b = true) e.

Definition valid_pattern (p : PatternRef) : Prop :=
  match p with
  | PatternRef_Exact d | PatternRef_Subtree d => valid_domain d
  | PatternRef_Wildcard e _ => valid_wildcard e
  end.

(** The rule text with the exception mark off, and the name a canonical
    hosts text would hold after [0.0.0.0]. *)
Definition rule_body (r : RuleRef) : list Z :=
  match action r with
  | Except => default (text r) (strip_prefix (lit "@@") (text r))
  | Block => text r
  end.

(** When the text could be the canonical hosts form of its name, the byte
    after the address is a whole character. *)
Definition hosts_slice_ok (r : RuleRef) : Prop :=
  match pattern r with
  | PatternRef_Exact d =>
      forall t, strip_prefix (lit "0.0.0.0") (rule_body r) = Some t ->
        len t = len d + 1 -> is_char_boundary t 1 = true
  | _ => True
  end.

(** The text starts with an ASCII byte, and with [@@] for an exception. *)
Definition marked_text (r : RuleRef) : Prop :=
  char_start (text r) /\ (action r = Except -> exists b, text r = lit "@@" ++ b).

(** What every rule handed to a sink satisfies. *)
Definition rule_wf (r : RuleRef) : Prop :=
  valid_pattern (pattern r) /\ 1 <= line r <= u32_max /\ hosts_slice_ok r /\ marked_text r.

(** The rules and issues of one text, by the collecting client. *)
Definition refs_of (txt : list Z) : list RuleRef :=
  fst (parse_list_streamed (fun acc r => acc ++ [r]) txt [] []).
Definition issues_of (txt : list Z) : list LineIssue :=
  snd (parse_list_streamed (fun acc r => acc ++ [r]) txt [] []).

(** The events of one trimmed, non-comment line. *)
Definition line_refs (line : list Z) (no : Z) : list RuleRef :=
  fst (parse_line (fun acc r => acc ++ [r]) line no [] []).
Definition line_issues (line : list Z) (no : Z) : list LineIssue :=
  snd (parse_line (fun acc r => acc ++ [r]) line no [] []).

(** ** Streaming is naturality: any sink sees the same rules in order *)

(** The shape of the result of a parser function: a list of rules for the
    sink and a list of issues, whatever the client state. *)
Definition emits {S} (sink : S -> RuleRef -> S) (st : S) (issues : list LineIssue)
  (rs : list RuleRef) (is_ : list LineIssue) (out : S * list LineIssue) : Prop :=
  out = (fold_left sink rs st, issues ++ is_).

Lemma hosts_loop_emits line no names :
  exists rs is_, forall S (sink : S -> RuleRef -> S) st issues,
    emits sink st issues rs is_ (hosts_loop sink line no names st issues).
Proof.
  unfold emits. induction names as [|n names (rs & is_ & IH)].
  { exists [], []. intros. cbn. by rewrite app_nil_r. }
  destruct (normalize_domain n) as [d|] eqn:E.
  - exists (mkRef Block (PatternRef_Exact d) line no :: rs), is_.
    intros. cbn [hosts_loop]. by rewrite E, IH.
  - exists rs, (mkIssue no line InvalidDomain :: is_).
    intros. cbn [hosts_loop]. by rewrite E, IH, <- app_assoc.
Qed.

Ltac emits_issue := eexists [], [_]; intros; reflexivity.
Ltac emits_nothing := exists [], []; intros; unfold emits; cbn; by rewrite ?app_nil_r.

Lemma parse_hosts_line_emits line ip no :
  exists rs is_, forall S (sink : S -> RuleRef -> S) st issues,
    emits sink st issues rs is_ (parse_hosts_line sink line ip no st issues).
Proof.
  unfold parse_hosts_line, emits. destruct (hosts_names line) as [|n ns].
  { emits_nothing. }
  destruct (negb _); [emits_issue|]. apply hosts_loop_emits.
Qed.

Lemma parse_line_emits line no :
  exists rs is_, forall S (sink : S -> RuleRef -> S) st issues,
    emits sink st issues rs is_ (parse_line sink line no st issues).
Proof.
  unfold parse_line. destruct (hosts_ip line) as [ip|].
  { apply parse_hosts_line_emits. }
  unfold emits.
  destruct (existsb _ COSMETIC_MARKERS); [emits_issue|].
  destruct (contains_char c_dollar line); [emits_issue|].
  destruct (_ && _ && _); [emits_issue|].
  destruct (match strip_prefix (lit "@@") line with
            | Some rest => (Except, rest) | None => (Block, line) end) as [act rest1].
  destruct (match strip_prefix (lit "||") rest1 with
            | Some rest => (true, rest) | None => (false, rest1) end) as [sub rest2].
  cbn zeta. destruct (contains_char c_caret _ || _); [emits_issue|].
  match goal with |- context [match ?p with Some _ => _ | None => _ end] =>
    destruct p as [pt|] end; [|emits_issue].
  exists [mkRef act pt line no], []. intros. cbn. by rewrite app_nil_r.
Qed.

Lemma skip_or_report_comment_emits line no :
  exists b is_, forall issues, skip_or_report_comment line no issues = (b, issues ++ is_).
Proof.
  unfold skip_or_report_comment.
  destruct (_ || _); [exists true, []; intros; by rewrite app_nil_r|].
  destruct (_ && _); [exists true, []; intros; by rewrite app_nil_r|].
  destruct (starts_with [c_hash] line); [|exists false, []; intros; by rewrite app_nil_r].
  cbn zeta. destruct (_ || _); [by eexists true, [_]|exists true, []; intros; by rewrite app_nil_r].
Qed.

Lemma parse_raw_line_emits raw idx :
  exists rs is_, forall S (sink : S -> RuleRef -> S) st issues,
    emits sink st issues rs is_ (parse_raw_line sink raw idx st issues).
Proof.
  unfold parse_raw_line.
  destruct (skip_or_report_comment_emits (trim raw) (line_number idx)) as (b & is1 & H1).
  destruct b.
  - exists [], is1. intros. unfold emits. cbn zeta. by rewrite H1.
  - destruct (parse_line_emits (trim raw) (line_number idx)) as (rs & is2 & H2).
    exists rs, (is1 ++ is2). intros. unfold emits in *. cbn zeta. rewrite H1.
    by rewrite H2, app_assoc.
Qed.

Lemma stream_lines_emits raws idx :
  exists rs is_, forall S (sink : S -> RuleRef -> S) st issues,
    emits sink st issues rs is_ (stream_lines sink raws idx st issues).
Proof.
  revert idx. induction raws as [|raw raws IH]; intros idx; [emits_nothing|].
  destruct (parse_raw_line_emits raw idx) as (rs1 & is1 & H1).
  destruct (IH (Datatypes.S idx)) as (rs2 & is2 & H2).
  exists (rs1 ++ rs2), (is1 ++ is2). intros. unfold emits in *. cbn [stream_lines].
  rewrite H1. rewrite H2. by rewrite fold_left_app, app_assoc.
Qed.

Lemma fold_left_snoc {A} (l acc : list A) :
  fold_left (fun a r => a ++ [r]) l acc = acc ++ l.
Proof.
  revert acc. induction l as [|x l IH]; intros acc; cbn; [by rewrite app_nil_r|].
  by rewrite IH, <- app_assoc.
Qed.

(** A parser function that emits, emits what its collecting run shows. *)
Lemma emits_collect (run : forall S, (S -> RuleRef -> S) -> S -> list LineIssue -> S * list LineIssue) :
  (exists rs is_, forall S (sink : S -> RuleRef -> S) st issues,
     emits sink st issues rs is_ (run S sink st issues)) ->
  forall S (sink : S -> RuleRef -> S) st issues,
    emits sink st issues
      (fst (run _ (fun acc r => acc ++ [r]) [] [])) (snd (run _ (fun acc r => acc ++ [r]) [] []))
      (run S sink st issues).
Proof.
  intros (rs & is_ & H) S sink st issues. pose proof (H _ (fun acc r => acc ++ [r]) [] []) as E.
  unfold emits in E. rewrite E. cbn [fst snd]. rewrite fold_left_snoc, !app_nil_l. apply H.
Qed.

Lemma streamed_spec {S} (sink : S -> RuleRef -> S) txt st issues :
  parse_list_streamed sink txt st issues
  = (fold_left sink (refs_of txt) st, issues ++ issues_of txt).
Proof.
  exact (emits_collect (fun S sink st is_ => parse_list_streamed sink txt st is_)
           (stream_lines_emits (lines txt) 0) S sink st issues).
Qed.

Lemma parse_line_spec {S} (sink : S -> RuleRef -> S) line no st issues :
  parse_line sink line no st issues
  = (fold_left sink (line_refs line no) st, issues ++ line_issues line no).
Proof.
  exact (emits_collect (fun S sink st is_ => parse_line sink line no st is_)
           (parse_line_emits line no) S sink st issues).
Qed.

Lemma from_to_rule r : from_rule (to_owned_rule r) = r.
Proof. destruct r as [a p t l]. by destruct p. Qed.

Lemma fold_left_collect rs acc : fold_left collect rs acc = acc ++ map to_owned_rule rs.
Proof.
  revert acc. induction rs as [|r rs IH]; intros acc; cbn; [by rewrite app_nil_r|].
  unfold collect at 2. by rewrite IH, <- app_assoc.
Qed.

Lemma parse_list_eq txt :
  parse_list txt = mkParsed (map to_owned_rule (refs_of txt)) (issues_of txt).
Proof. unfold parse_list. rewrite streamed_spec, fold_left_collect. done. Qed.

Lemma refs_of_parse_list txt : refs_of txt = map from_rule (pl_rules (parse_list txt)).
Proof.
  rewrite parse_list_eq. cbn. rewrite map_map. rewrite <- (map_id (refs_of txt)) at 1.
  apply map_ext. intros r. by rewrite from_to_rule.
Qed.

(** ** Normalisation *)

Lemma lower_strip_eq s : lower_strip s = to_ascii_lowercase (default s (strip_suffix [c_dot] s)).
Proof.
  unfold lower_strip. cbn zeta. destruct (existsb _ _) eqn:E; [done|].
  by rewrite to_ascii_lowercase_id.
Qed.

Lemma label_ok_spec l : label_ok l = true <-> valid_label l.
Proof.
  unfold label_ok, valid_label. pose proof (len_nonneg l).
  rewrite !andb_true_iff, !negb_true_iff, orb_false_iff, Z.eqb_neq, Z.leb_le, forallb_Forall_iff.
  rewrite <- !not_true_iff_false, starts_with_char, ends_with_char.
  intuition lia.
Qed.

Lemma normalize_domain_Some s d :
  normalize_domain s = Some d <->
  d = to_ascii_lowercase (default s (strip_suffix [c_dot] s)) /\ valid_domain d.
Proof.
  unfold normalize_domain. cbn zeta. rewrite lower_strip_eq.
  set (t := to_ascii_lowercase _). unfold valid_domain. pose proof (len_nonneg t).
  assert (HF : forallb label_ok (split c_dot t) = true <-> Forall valid_label (split c_dot t)).
  { rewrite forallb_Forall_iff, !List.Forall_forall. by setoid_rewrite label_ok_spec. }
  split.
  - intros H0. destruct (_ || _) eqn:E; [done|]. bool_to_prop.
    destruct (forallb _ _) eqn:E2; [|done]. injection H0 as <-.
    split; [done|]. split; [lia|]. by apply HF.
  - intros (-> & Hlen & Hlab). zguard. apply HF in Hlab. by rewrite Hlab.
Qed.

Lemma normalize_wildcard_Some s e :
  normalize_wildcard s = Some e ->
  e = to_ascii_lowercase (default s (strip_suffix [c_dot] s))
  /\ 1 <= len e <= 253 /\ Forall (fun b => wildcard_byte b = true) e.
Proof.
  unfold normalize_wildcard. cbn zeta. rewrite lower_strip_eq.
  set (t := to_ascii_lowercase _). pose proof (len_nonneg t).
  intros H0. destruct (_ || _) eqn:E; [done|]. bool_to_prop.
  destruct (forallb wildcard_byte t) eqn:E2; [|done]. cbn [negb] in H0.
  destruct (forallb segment_ok (split c_dot t)); [|done]. injection H0 as <-.
  split; [done|]. split; [lia|]. by apply forallb_Forall_iff.
Qed.

Lemma valid_domain_bytes d :
  valid_domain d -> Forall (fun b => label_byte b = true \/ b = c_dot) d.
Proof.
  intros (_ & H). rewrite <- (join_split c_dot d). induction H as [|l ls Hl Hls IH]; [by constructor|].
  assert (Hl' : Forall (fun b => label_byte b = true \/ b = c_dot) l).
  { destruct Hl as (_ & Hl & _). by eapply Forall_impl; [exact Hl|left]. }
  destruct ls; [done|]. rewrite join_cons by done. apply Forall_app; split; [done|].
  constructor; [by right|done].
Qed.

Lemma label_byte_cases b : label_byte b = true ->
  48 <= b <= 57 \/ 97 <= b <= 122 \/ b = 45 \/ b = 95.
Proof.
  unfold label_byte, is_ascii_lowercase, is_ascii_digit, c_hyphen, c_underscore.
  rewrite !orb_true_iff, !andb_true_iff, !Z.leb_le, !Z.eqb_eq. lia.
Qed.

(** No byte outside the name alphabet occurs in a valid name. *)
Lemma valid_domain_byte d b : valid_domain d -> b ∈ d ->
  48 <= b <= 57 \/ 97 <= b <= 122 \/ b = 45 \/ b = 95 \/ b = 46.
Proof.
  intros H Hb. apply valid_domain_bytes in H. rewrite Forall_forall in H.
  destruct (H b Hb) as [Hl| ->]; [apply label_byte_cases in Hl|unfold c_dot]; lia.
Qed.

Lemma valid_domain_no_star d : valid_domain d -> c_star ∉ d.
Proof. intros H Hb. apply (valid_domain_byte d _ H) in Hb. unfold c_star in Hb. lia. Qed.

Lemma valid_domain_lower d : valid_domain d -> to_ascii_lowercase d = d.
Proof.
  intros H. apply to_ascii_lowercase_id. apply not_true_iff_false. intros E.
  apply existsb_exists_iff in E as (b & Hb & E). apply (valid_domain_byte d _ H) in Hb.
  unfold is_ascii_uppercase in E. bool_to_prop. lia.
Qed.

Lemma valid_domain_nonempty d : valid_domain d -> d <> [].
Proof. intros ((H & _) & _) ->. by rewrite len_nil in H. Qed.

(** A valid name has no trailing dot to strip. *)
Lemma valid_domain_no_trailing_dot d : valid_domain d -> strip_suffix [c_dot] d = None.
Proof.
  intros Hd. apply strip_suffix_None. intros r ->. destruct Hd as (_ & Hl).
  assert (E : split c_dot (r ++ [c_dot]) = split c_dot r ++ [[]]).
  { clear Hl. induction r as [|a r IH]; [done|]. cbn [app split]. rewrite IH.
    destruct (a =? c_dot); [done|]. pose proof (split_nonempty c_dot r).
    by destruct (split c_dot r). }
  rewrite E in Hl. apply Forall_app in Hl as [_ Hl]. inversion Hl as [|? ? Hv].
  destruct Hv as (Hlen & _). rewrite len_nil in Hlen. lia.
Qed.

Lemma normalize_domain_valid d : valid_domain d -> normalize_domain d = Some d.
Proof.
  intros H. apply normalize_domain_Some. split; [|done].
  rewrite valid_domain_no_trailing_dot by done. cbn. by rewrite valid_domain_lower.
Qed.

(** ** Every rule handed out is well formed *)

Definition ascii (s : list Z) : Prop := Forall (fun b => b < 128) s.

Lemma ascii_boundary s : ascii s -> 1 < len s -> is_char_boundary s 1 = true.
Proof.
  intros H Hl. unfold is_char_boundary. cbn [Z.eqb]. apply orb_true_iff. right.
  destruct (index s 1) as [b|] eqn:E.
  - assert (b < 128). { unfold ascii in H. rewrite Forall_forall in H. apply H.
      apply (list_elem_of_lookup_2 _ 1). exact E. }
    by zguard.
  - unfold index in E. cbn in E. apply lookup_ge_None in E. unfold len in Hl. lia.
Qed.

(** The text a name normalises from is ASCII, trailing dot included. *)
Lemma lowered_ascii s : ascii (to_ascii_lowercase (default s (strip_suffix [c_dot] s))) -> ascii s.
Proof.
  intros H. assert (Ht : ascii (default s (strip_suffix [c_dot] s))).
  { set (t := default s _) in *. apply Forall_forall. intros b Hb.
    assert (Hin : to_lower b ∈ to_ascii_lowercase t).
    { apply list_elem_of_In, in_map. by apply list_elem_of_In. }
    unfold ascii in H. rewrite Forall_forall in H. apply H in Hin. unfold to_lower in Hin.
    destruct (is_ascii_uppercase b) eqn:E; [unfold is_ascii_uppercase in E; bool_to_prop; lia|lia]. }
  destruct (strip_suffix [c_dot] s) as [r|] eqn:E; cbn in Ht; [|done].
  apply strip_suffix_Some in E as ->. apply Forall_app; split; [done|]. by repeat constructor.
Qed.

Lemma valid_domain_ascii d : valid_domain d -> ascii d.
Proof. intros H. apply Forall_forall. intros b Hb. apply (valid_domain_byte _ _ H) in Hb. lia. Qed.

Lemma normalize_domain_ascii s d : normalize_domain s = Some d -> ascii s.
Proof.
  intros H. apply normalize_domain_Some in H as (-> & Hv). by apply lowered_ascii, valid_domain_ascii.
Qed.

Lemma wildcard_byte_ascii b : wildcard_byte b = true -> b < 128.
Proof.
  unfold wildcard_byte, label_byte, is_ascii_lowercase, is_ascii_digit, c_hyphen, c_underscore, c_star, c_dot.
  rewrite !orb_true_iff, !andb_true_iff, !Z.leb_le, !Z.eqb_eq. lia.
Qed.

Lemma normalize_domain_len s d : normalize_domain s = Some d -> len d <= len s.
Proof.
  intros H. apply normalize_domain_Some in H as (-> & _). rewrite to_ascii_lowercase_len.
  destruct (strip_suffix [c_dot] s) as [r|] eqn:E; cbn; [|lia].
  apply strip_suffix_Some in E as ->. autorewrite with len. lia.
Qed.

Lemma hosts_names_pos line n :
  n ∈ hosts_names line -> exists a x b, line = a ++ [x] ++ n ++ b /\ ws_end_byte x.
Proof.
  unfold hosts_names. intros H. apply list_elem_of_In in H. apply filter_In in H as [H _].
  apply list_elem_of_In in H. apply split_ws_go_drop1 in H as (a & x & r & E & Hx).
  assert (Hp : exists v, line = default line (head (split c_hash line)) ++ v).
  { pose proof (join_split c_hash line) as J. pose proof (split_nonempty c_hash line).
    destruct (split c_hash line) as [|w ws]; [done|]. cbn [head default]. destruct ws as [|w' ws].
    - exists []. by rewrite app_nil_r.
    - rewrite join_cons in J by done. by eexists. }
  destruct Hp as (v & Hv). destruct (trim_infix (default line (head (split c_hash line)))) as (u & k & Hu).
  rewrite E in Hu. rewrite Hu in Hv. exists (u ++ a), x, (r ++ k ++ v). split; [|done].
  rewrite Hv. by rewrite <- !app_assoc.
Qed.

(** A hosts line starts with a byte of its address. *)
Lemma hosts_ip_char_start line ip : starts_ws line = false -> hosts_ip line = Some ip -> char_start line.
Proof.
  intros Hw Hip. destruct line as [|a s]; [by intros ? [=]|]. unfold hosts_ip in Hip.
  pose proof (split_whitespace_first a s) as Hf. destruct (split_whitespace (a :: s)) as [|w ws]; [done|].
  specialize (Hf w Hw eq_refl). destruct w as [|b w]; [done|]. injection Hf as ->.
  intros b [= <-]. destruct (decide (a < 128)); [done|exfalso]. cbn [split] in Hip.
  destruct (Z.eqb_spec a c_percent); [subst; unfold c_percent in *; lia|].
  assert (Hh : exists t, default (a :: w) (head (match split c_percent w with
    | [] => [[a]] | w' :: ws' => (a :: w') :: ws' end)) = a :: t).
  { destruct (split c_percent w); cbn; by eexists. }
  destruct Hh as (t & E). rewrite E in Hip. rewrite parse_ip_head in Hip; [done| |unfold c_colon; lia].
  unfold to_digit. repeat case_match; bool_to_prop; try done; simplify_eq; lia.
Qed.

Lemma hosts_rule_wf line no n d :
  n ∈ hosts_names line -> normalize_domain n = Some d -> 1 <= no <= u32_max -> char_start line ->
  rule_wf (mkRef Block (PatternRef_Exact d) line no).
Proof.
  intros Hn Hd Hno Hcs. split; [by apply normalize_domain_Some in Hd as (_ & ?)|]. split; [done|].
  split; [|by split].
  intros t Ht Hlen. cbn [rule_body action text] in Ht. apply strip_prefix_Some in Ht.
  pose proof (normalize_domain_len _ _ Hd) as Hnd.
  destruct (hosts_names_pos _ _ Hn) as (a & x & b & E & Hx). rewrite Ht in E.
  assert (Ha : (7 <= length a)%nat).
  { destruct (decide (length a < 7)%nat) as [Hlt|]; [exfalso|lia].
    assert (Hax : (lit "0.0.0.0" ++ t) !! length a = Some x).
    { rewrite E, lookup_app_r by lia. by rewrite Nat.sub_diag. }
    rewrite lookup_app_l in Hax by (cbn; lia).
    assert (HF : Forall (fun b => 32 < b < 128) (lit "0.0.0.0")).
    { repeat constructor. }
    rewrite Forall_forall in HF. specialize (HF x (list_elem_of_lookup_2 _ _ _ Hax)).
    unfold ws_end_byte in Hx. lia. }
  assert (Ht' : drop 1 t = n).
  { apply (f_equal length) in E as Hl. rewrite !length_app in Hl. unfold len in *.
    change (length (lit "0.0.0.0")) with 7%nat in Hl. cbn [length] in Hl.
    assert (length a = 7 /\ length b = 0)%nat as [Ha7 Hb0] by lia.
    apply (f_equal (drop 8)) in E. destruct b; [|done]. rewrite app_nil_r in E.
    do 7 (destruct a as [|? a]; [done|]). destruct a; [|done]. exact E. }
  pose proof (len_nonneg d) as Hd0.
  destruct t as [|y t]; [rewrite len_nil in Hlen; lia|]. cbn [drop] in Ht'. rewrite drop_0 in Ht'. subst t.
  destruct n as [|z n]; [rewrite len_cons, len_nil in Hlen; pose proof (len_nonneg d);
    apply normalize_domain_Some in Hd as (_ & (Hd & _) & _); lia|].
  apply normalize_domain_ascii in Hd. inversion Hd as [|? ? Hz]; subst.
  unfold is_char_boundary. cbn [Z.eqb]. apply orb_true_iff. right.
  change (index (y :: z :: n) 1) with (Some z). cbn beta iota in *.
  destruct (Z.leb_spec 128 z); [lia|done].
Qed.

Lemma hosts_loop_wf line no names acc issues :
  Forall (fun n => n ∈ hosts_names line) names -> 1 <= no <= u32_max -> char_start line ->
  Forall rule_wf acc ->
  Forall rule_wf (fst (hosts_loop (fun acc r => acc ++ [r]) line no names acc issues)).
Proof.
  intros Hn Hno Hcs. revert acc issues. induction Hn as [|n names Hin Hn IH]; intros acc issues Hacc;
    cbn [hosts_loop]; [done|].
  destruct (normalize_domain n) as [d|] eqn:E; apply IH; [|done].
  apply Forall_app; split; [done|]. constructor; [|done]. by eapply hosts_rule_wf.
Qed.

(** The optional mark [p] of a rule body. *)
Lemma strip_optional {A} p (s : list Z) (y n : A) (b : A) r :
  match strip_prefix p s with Some rest => (y, rest) | None => (n, s) end = (b, r) ->
  s = p ++ r /\ b = y \/ s = r /\ b = n.
Proof.
  destruct (strip_prefix p s) as [t|] eqn:E; intros [= <- <-]; [|by right].
  apply strip_prefix_Some in E. by left.
Qed.

Lemma char_start_marks rest : char_start (lit "@@" ++ rest) /\ char_start (lit "||" ++ rest).
Proof. split; intros a H; cbn in H; injection H as <-; lia. Qed.

(** The text of an adblock rule: its marks, or its ASCII body, come first. *)
Lemma body_char_start rest1 rest2 rest :
  rest1 = lit "||" ++ rest2 \/ rest1 = rest2 -> rest2 = rest \/ rest2 = rest ++ [c_caret] ->
  ascii rest -> char_start rest1.
Proof.
  intros [->| ->]; [intros; apply char_start_marks|].
  intros Hr Ha b Hb. assert (Hin : ascii rest2).
  { destruct Hr as [->| ->]; [done|]. apply Forall_app; split; [done|]. by repeat constructor. }
  destruct rest2; [done|]. injection Hb as ->. by inversion Hin.
Qed.

Lemma marked_line line act rest1 p no :
  (line = lit "@@" ++ rest1 /\ act = Except \/ line = rest1 /\ act = Block) ->
  char_start rest1 -> marked_text (mkRef act p line no).
Proof.
  intros [[-> ->]|[-> ->]] H; split; cbn [text action]; try done; [apply char_start_marks|by eexists].
Qed.

Lemma domain_rule_wf line no act rest1 rest d :
  (line = lit "@@" ++ rest1 /\ act = Except \/ line = rest1 /\ act = Block) ->
  rest1 = rest \/ rest1 = rest ++ [c_caret] ->
  normalize_domain rest = Some d -> 1 <= no <= u32_max ->
  rule_wf (mkRef act (PatternRef_Exact d) line no).
Proof.
  intros Hact Hrest Hd Hno. split; [by apply normalize_domain_Some in Hd as (_ & ?)|].
  split; [done|].
  split; [|apply (marked_line line act rest1); [done|];
    eapply body_char_start; [by right|exact Hrest|by eapply normalize_domain_ascii]].
  intros t Ht Hlen.
  assert (Hbody : rule_body (mkRef act (PatternRef_Exact d) line no) = rest1).
  { destruct Hact as [[-> ->]|[-> ->]]; cbn [rule_body action text]; [|done].
    by rewrite strip_prefix_app. }
  rewrite Hbody in Ht. apply strip_prefix_Some in Ht.
  assert (Ha : ascii rest1).
  { apply normalize_domain_ascii in Hd. destruct Hrest as [-> | ->]; [done|].
    apply Forall_app; split; [done|]. by repeat constructor. }
  rewrite Ht in Ha. apply Forall_app in Ha as [_ Ha]. apply ascii_boundary; [done|].
  apply normalize_domain_Some in Hd as (_ & (Hd & _) & _). lia.
Qed.

Lemma line_refs_wf line no :
  1 <= no <= u32_max -> starts_ws line = false -> Forall rule_wf (line_refs line no).
Proof.
  intros Hno Hws. unfold line_refs, parse_line. destruct (hosts_ip line) as [ip|] eqn:Eip.
  { unfold parse_hosts_line. destruct (hosts_names line) as [|n ns] eqn:E; [by constructor|].
    destruct (negb _); [by constructor|].
    apply hosts_loop_wf; [|done|by eapply hosts_ip_char_start|by constructor].
    rewrite E. apply Forall_forall. done. }
  destruct (existsb _ COSMETIC_MARKERS); [by constructor|].
  destruct (contains_char c_dollar line); [by constructor|].
  destruct (_ && _ && _); [by constructor|].
  destruct (match strip_prefix (lit "@@") line with
            | Some rest => (Except, rest) | None => (Block, line) end) as [act rest1] eqn:Ea.
  destruct (match strip_prefix (lit "||") rest1 with
            | Some rest => (true, rest) | None => (false, rest1) end) as [sub rest2] eqn:Es.
  cbn zeta. destruct (contains_char c_caret _ || _); [by constructor|].
  apply strip_optional in Ea. apply strip_optional in Es.
  set (rest := default rest2 (strip_suffix [c_caret] rest2)).
  assert (Hrest : rest2 = rest \/ rest2 = rest ++ [c_caret]).
  { subst rest. destruct (strip_suffix [c_caret] rest2) eqn:E; [|by left].
    apply strip_suffix_Some in E. by right. }
  destruct (contains_char c_star rest) eqn:Estar.
  - destruct (normalize_wildcard rest) as [e|] eqn:Ee; cbn; [|by constructor].
    apply normalize_wildcard_Some in Ee as (-> & Hlen & Hb). constructor; [|done].
    assert (Hcs : char_start rest1).
    { eapply body_char_start; [|exact Hrest|]; [destruct Es as [[? _]|[? _]]; [by left|by right]|].
      apply lowered_ascii. eapply Forall_impl; [exact Hb|apply wildcard_byte_ascii]. }
    split; [|split; [done|split; [done|by eapply marked_line]]]. split; [done|]. split; [|done].
    apply contains_char_true in Estar.
    assert (Hin : c_star ∈ default rest (strip_suffix [c_dot] rest)).
    { destruct (strip_suffix [c_dot] rest) as [r|] eqn:E; [|done]. cbn.
      apply strip_suffix_Some in E. rewrite E in Estar. apply elem_of_app in Estar as [|Estar]; [done|].
      apply list_elem_of_singleton in Estar. done. }
    apply list_elem_of_In. apply list_elem_of_In in Hin.
    apply (in_map to_lower) in Hin. exact Hin.
  - destruct (normalize_domain rest) as [d|] eqn:Ed; cbn; [|by constructor].
    constructor; [|done]. destruct Es as [[Es ->]|[-> ->]].
    + split; [by apply normalize_domain_Some in Ed as (_ & ?)|]. split; [done|]. split; [done|].
      eapply marked_line; [done|]. rewrite Es. apply char_start_marks.
    + by eapply domain_rule_wf.
Qed.

Lemma line_number_range idx : 1 <= line_number idx <= u32_max.
Proof.
  unfold line_number, saturating_add, try_from, u32_max.
  destruct (_ && _) eqn:E; cbn [from_option id]; bool_to_prop; lia.
Qed.

Lemma stream_lines_wf raws idx acc issues :
  Forall rule_wf acc ->
  Forall rule_wf (fst (stream_lines (fun acc r => acc ++ [r]) raws idx acc issues)).
Proof.
  revert idx acc issues. induction raws as [|raw raws IH]; intros idx acc issues Hacc; [done|].
  cbn [stream_lines]. unfold parse_raw_line. cbn zeta.
  destruct (skip_or_report_comment _ _ _) as [[] is1]; [by apply IH|].
  rewrite parse_line_spec. apply IH. rewrite fold_left_snoc. apply Forall_app; split; [done|].
  apply line_refs_wf; [apply line_number_range|apply trim_not_ws].
Qed.

Lemma refs_of_wf txt : Forall rule_wf (refs_of txt).
Proof. apply stream_lines_wf. constructor. Qed.

(** ** Accounting of one line *)

Lemma hosts_loop_count line no names acc issues :
  let '(rs, is_) := hosts_loop (fun acc r => acc ++ [r]) line no names acc issues in
  (length rs + length is_ = length acc + length issues + length names)%nat.
Proof.
  revert acc issues. induction names as [|n names IH]; intros acc issues; cbn [hosts_loop length]; [lia|].
  destruct (normalize_domain n) as [d|];
    match goal with |- context [hosts_loop _ _ _ _ ?a ?i] => specialize (IH a i) end;
    destruct (hosts_loop _ _ _ _ _ _); rewrite length_app in IH; cbn [length] in IH; lia.
Qed.

(** The number of rules plus the number of issues of a line. *)
Definition line_events (line : list Z) (no : Z) : nat :=
  (length (line_refs line no) + length (line_issues line no))%nat.

(** What the documentation promises for one line: a hosts line for a sink
    address yields one event per name that is not the local machine's, a
    hosts line for a real address is one issue, anything else is exactly
    one rule or one issue. *)
Definition expected_events (line : list Z) : nat :=
  match hosts_ip line with
  | None => 1
  | Some ip =>
      if is_unspecified ip || is_loopback ip then length (hosts_names line)
      else match hosts_names line with [] => 0 | _ => 1 end
  end%nat.

(** ** Canonical rule texts *)

(** The texts the engine rebuilds from a key. *)
Inductive canonical_form := CSubtree | CExact | CExactCaret | CHostsZero.

#[export] Instance canonical_form_eq_dec : EqDecision canonical_form.
Proof. solve_decision. Defined.

Definition canonical_text (f : canonical_form) (except : bool) (d : list Z) : list Z :=
  let at_ := if except then lit "@@" else [] in
  match f with
  | CSubtree => at_ ++ lit "||" ++ d ++ [c_caret]
  | CExact => at_ ++ d
  | CExactCaret => at_ ++ d ++ [c_caret]
  | CHostsZero => lit "0.0.0.0 " ++ d
  end.

Definition canonical_pattern (f : canonical_form) (d : list Z) : PatternRef :=
  match f with CSubtree => PatternRef_Subtree d | _ => PatternRef_Exact d end.

(** A name that spells an address, or the local machine, is read as such. *)
Definition canonical_ok (f : canonical_form) (except : bool) (d : list Z) : Prop :=
  match f with
  | CSubtree => True
  | CExact => except = true \/ parse_ip d = None
  | CExactCaret => except = true \/ parse_ip (d ++ [c_caret]) = None
  | CHostsZero => except = false /\ is_localhost d = false
  end.

Lemma valid_domain_plain d : valid_domain d -> Forall (fun b => plain_byte b = true) d.
Proof.
  intros H. apply Forall_forall. intros b Hb. apply (valid_domain_byte d b H) in Hb.
  unfold plain_byte. by zguard.
Qed.

Lemma not_elem_of_domain d c : valid_domain d ->
  (48 <= c <= 57 \/ 97 <= c <= 122 \/ c = 45 \/ c = 95 \/ c = 46 -> False) -> c ∉ d.
Proof. intros H Hc Hin. apply Hc. by eapply valid_domain_byte. Qed.

(** A line without white space, percent sign, hash, dollar or slash in front
    is an adblock rule unless it spells an address. *)
Lemma hosts_ip_plain s :
  s <> [] -> Forall (fun b => plain_byte b = true) s -> c_percent ∉ s -> hosts_ip s = parse_ip s.
Proof.
  intros Hne Hp Hc. unfold hosts_ip. rewrite split_whitespace_plain by done.
  rewrite split_no_sep by done. done.
Qed.

(** A mark comes off when it was put on, and only then. *)
Lemma strip_mark {A} (m : list Z) c (on : bool) (yes no : A) body :
  m = [c; c] -> head body <> Some c ->
  match strip_prefix m ((if on then m else []) ++ body) with
  | Some r => (yes, r)
  | None => (no, (if on then m else []) ++ body)
  end = (if on then yes else no, body).
Proof.
  intros -> Hc. destruct on; [by rewrite strip_prefix_app|]. cbn [app]. destruct body as [|b body]; [done|]. cbn [strip_prefix].
  destruct (Z.eqb_spec c b) as [<-|]; [|done]. by destruct Hc.
Qed.

Lemma strip_caret (caret : bool) d : c_caret ∉ d ->
  default (d ++ (if caret then [c_caret] else [])) (strip_suffix [c_caret] (d ++ (if caret then [c_caret] else []))) = d.
Proof.
  intros Hc. destruct caret; [by rewrite strip_suffix_app|]. rewrite app_nil_r.
  destruct (strip_suffix [c_caret] d) eqn:E; [|done]. apply strip_suffix_Some in E.
  destruct Hc. rewrite E. apply elem_of_app; right. by apply list_elem_of_singleton.
Qed.

Lemma head_not_in (c : Z) d rest : d <> [] -> c ∉ d -> head (d ++ rest) <> Some c.
Proof. destruct d as [|b d]; [done|]. intros _ Hc [= ->]. apply Hc. by left. Qed.

Lemma starts_without c line : c ∉ line -> starts_with [c] line = false.
Proof. intros H. apply not_true_iff_false. rewrite starts_with_char. destruct line; [done|]. intros [= ->]. apply H. by left. Qed.

Lemma not_cosmetic line : c_hash ∉ line -> existsb (fun m => contains m line) COSMETIC_MARKERS = false.
Proof.
  intros H. apply not_true_iff_false. rewrite existsb_exists. intros (m & Hm & E).
  rewrite (contains_false m line c_hash) in E; [done| |done].
  cbn in Hm. repeat destruct Hm as [<-|Hm]; try done; cbn; set_solver.
Qed.

(** Parsing a body: after the marks, [body] is the name and maybe a caret. *)
Lemma parse_domain_line act sub caret d no line :
  valid_domain d ->
  line = (if act : bool then lit "@@" else []) ++ (if sub : bool then lit "||" else []) ++ d
         ++ (if caret : bool then [c_caret] else []) ->
  hosts_ip line = None ->
  line_refs line no =
    [mkRef (if act then Except else Block)
       (if sub then PatternRef_Subtree d else PatternRef_Exact d) line no]
  /\ line_issues line no = [].
Proof.
  intros Hd Hline Hip. unfold line_refs, line_issues, parse_line. rewrite Hip. pose proof (valid_domain_nonempty d Hd) as Hne.
  assert (Hd0 : forall c, ~ (48 <= c <= 57) -> ~ (97 <= c <= 122) -> c <> 45 -> c <> 46 -> c <> 95 -> c ∉ d)
    by (intros; apply not_elem_of_domain; [done|]; lia).
  assert (Hno : forall c, c ∉ d -> c <> 64 -> c <> 124 -> c <> 94 -> c ∉ line).
  { intros c Hc ???. rewrite Hline, !not_elem_of_app.
    destruct act, sub, caret; cbn; rewrite ?not_elem_of_cons; repeat split; try done; apply not_elem_of_nil. }
  rewrite not_cosmetic by (apply Hno; [apply Hd0|..]; unfold c_hash; lia).
  rewrite (proj2 (contains_char_false c_dollar line)) by (apply Hno; [apply Hd0|..]; unfold c_dollar; lia).
  rewrite (starts_without c_slash line) by (apply Hno; [apply Hd0|..]; unfold c_slash; lia).
  rewrite andb_false_r. cbn [andb].
  replace (match strip_prefix (lit "@@") line with Some rest => (Except, rest) | None => (Block, line) end)
    with (if act then Except else Block, (if sub then lit "||" else []) ++ d ++ (if caret then [c_caret] else [])).
  2:{ rewrite Hline. symmetry. apply (strip_mark _ 64); [done|]. destruct sub; [by intros [=]|]. apply (head_not_in _ d); [done|apply Hd0; lia]. }
  cbn zeta. rewrite (strip_mark (lit "||") 124) by (done || (apply (head_not_in _ d); [done|apply Hd0; lia])).
  replace (if sub then true else false) with sub by (by destruct sub).
  rewrite strip_caret by (apply Hd0; unfold c_caret; lia).
  rewrite (proj2 (contains_char_false c_caret d)) by (apply Hd0; unfold c_caret; lia).
  rewrite (starts_without c_bar d) by (apply Hd0; unfold c_bar; lia). cbn [orb].
  rewrite (proj2 (contains_char_false c_star d)) by (by apply valid_domain_no_star).
  rewrite normalize_domain_valid by done. done.
Qed.

Lemma hosts_zero_line d no :
  valid_domain d -> is_localhost d = false ->
  let line := lit "0.0.0.0 " ++ d in
  line_refs line no = [mkRef Block (PatternRef_Exact d) line no] /\ line_issues line no = [].
Proof.
  intros Hd Hl line. pose proof (valid_domain_nonempty d Hd) as Hne.
  assert (Hsplit : split_whitespace line = [lit "0.0.0.0"; d]).
  { apply (split_whitespace_two (lit "0.0.0.0") d); [done..| |by apply valid_domain_plain].
    by repeat constructor. }
  assert (Hip : hosts_ip line = Some (V4 [0; 0; 0; 0])).
  { unfold hosts_ip. rewrite Hsplit. reflexivity. }
  assert (Hn : hosts_names line = [d]).
  { unfold hosts_names. rewrite split_no_sep.
    2:{ unfold line. apply not_elem_of_app. split; [by vm_compute; set_solver|].
        apply not_elem_of_domain; [done|]. unfold c_hash. lia. }
    change (default line (head [line])) with line. replace (trim line) with line.
    - rewrite Hsplit. cbn [drop List.filter]. by rewrite Hl.
    - destruct (exists_last Hne) as (r & z & E). unfold line. rewrite E.
      symmetry. apply (trim_id _ 48 z); [done|by rewrite app_assoc, last_snoc|done|]. apply valid_domain_plain in Hd.
      rewrite E in Hd. apply Forall_app in Hd as [_ Hd]. by inversion Hd. }
  unfold line_refs, line_issues, parse_line. rewrite Hip. unfold parse_hosts_line.
  rewrite Hn. cbn [is_unspecified is_loopback bool_decide hosts_loop].
  rewrite normalize_domain_valid by done. done.
Qed.

Lemma line_events_expected line no : line_events line no = expected_events line.
Proof.
  unfold line_events, expected_events, line_refs, line_issues, parse_line.
  destruct (hosts_ip line) as [ip|].
  { unfold parse_hosts_line. destruct (hosts_names line) as [|n ns]; [by destruct (_ || _)|].
    destruct (is_unspecified ip || is_loopback ip); [|done]. cbn [negb].
    pose proof (hosts_loop_count line no (n :: ns) [] []) as H.
    destruct (hosts_loop _ _ _ _ _ _) as [rs is_]. cbn [fst snd]. by rewrite H. }
  destruct (existsb _ COSMETIC_MARKERS); [done|].
  destruct (contains_char c_dollar line); [done|].
  destruct (_ && _ && _); [done|].
  destruct (match strip_prefix (lit "@@") line with
            | Some rest => (Except, rest) | None => (Block, line) end) as [act rest1].
  destruct (match strip_prefix (lit "||") rest1 with
            | Some rest => (true, rest) | None => (false, rest1) end) as [sub rest2].
  cbn zeta. destruct (contains_char c_caret _ || _); [done|].
  match goal with |- context [match ?p with Some _ => _ | None => _ end] => by destruct p end.
Qed.

(** A one-line list whose line is neither blank nor a comment. *)
Lemma parse_list_line s a z :
  c_nl ∉ s -> head s = Some a -> last s = Some z -> plain_byte a = true -> plain_byte z = true ->
  a <> c_bang -> a <> c_lbracket -> a <> c_hash ->
  parse_list s = mkParsed (map to_owned_rule (line_refs s 1)) (line_issues s 1).
Proof.
  intros Hn Ha Hz Pa Pz H1 H2 H3. assert (Hs : s <> []) by (by intros ->).
  assert (Hsw : forall c, a <> c -> starts_with [c] s = false).
  { intros c Hc. apply not_true_iff_false. rewrite starts_with_char, Ha. congruence. }
  unfold parse_list, parse_list_streamed. rewrite lines_single by done. cbn [stream_lines].
  unfold parse_raw_line. cbn zeta. rewrite (trim_id s a z) by done.
  unfold skip_or_report_comment. rewrite !Hsw by done.
  assert (Hl : len s =? 0 = false) by (destruct s; [done|rewrite len_cons; pose proof (len_nonneg s); by zguard]).
  rewrite Hl. cbn [orb andb]. change (line_number 0) with 1.
  rewrite parse_line_spec, fold_left_collect. done.
Qed.

Definition canonical_byte (b : Z) : Prop :=
  48 <= b <= 57 \/ 97 <= b <= 122 \/ b = 45 \/ b = 95 \/ b = 46 \/ b = 64 \/ b = 124 \/ b = 94.

Lemma canonical_bytes f ex d :
  valid_domain d -> f <> CHostsZero -> Forall canonical_byte (canonical_text f ex d).
Proof.
  intros Hd Hf.
  assert (Forall canonical_byte d).
  { apply Forall_forall. intros b Hb. apply (valid_domain_byte d b Hd) in Hb. unfold canonical_byte. lia. }
  unfold canonical_text. change (lit "@@") with [64; 64]. change (lit "||") with [124; 124].
  destruct f, ex; try done; cbn zeta; rewrite ?Forall_app, ?Forall_cons, ?Forall_nil;
    repeat split; try done; unfold canonical_byte, c_caret; lia.
Qed.

Lemma parse_list_canonical_bytes s no_issues r :
  s <> [] -> Forall canonical_byte s ->
  line_refs s 1 = r -> line_issues s 1 = no_issues ->
  parse_list s = mkParsed (map to_owned_rule r) no_issues.
Proof.
  intros Hs Hb Hr Hi. assert (Hin : forall b, b ∈ s -> canonical_byte b) by (by apply Forall_forall).
  destruct (head s) as [a|] eqn:Ea; [|by destruct s].
  destruct (last s) as [z|] eqn:Ez; [|by apply last_None in Ez].
  assert (Ha : canonical_byte a) by (apply Hin, head_Some_elem_of; done).
  assert (Hz : canonical_byte z).
  { apply Hin. apply last_Some in Ez as (u & ->). apply elem_of_app; right. by apply list_elem_of_singleton. }
  assert (Hp : forall b, canonical_byte b -> plain_byte b = true).
  { unfold canonical_byte, plain_byte. intros b H. by zguard. }
  rewrite <- Hr, <- Hi. apply (parse_list_line s a z); auto; try (unfold canonical_byte in Ha;
    intros ->; unfold c_bang, c_lbracket, c_hash in Ha; lia).
  intros H. apply Hin in H. unfold canonical_byte, c_nl in H. lia.
Qed.

Lemma canonical_hosts_ip f ex d :
  valid_domain d -> f <> CHostsZero -> canonical_ok f ex d ->
  hosts_ip (canonical_text f ex d) = None.
Proof.
  intros Hd Hf Hok. pose proof (canonical_bytes f ex d Hd Hf) as Hb.
  pose proof (valid_domain_nonempty d Hd) as Hne.
  rewrite hosts_ip_plain.
  - destruct f, ex; cbn in Hok; try done; try (by apply parse_ip_head);
      destruct Hok as [|Hok]; try done.
  - destruct f, ex; cbn; try done. by destruct d.
  - eapply Forall_impl; [exact Hb|]. unfold canonical_byte, plain_byte. intros b H. by zguard.
  - intros H. rewrite Forall_forall in Hb. apply Hb in H. unfold canonical_byte, c_percent in H. lia.
Qed.

Lemma canonical_line f ex d :
  valid_domain d -> canonical_ok f ex d ->
  parse_list (canonical_text f ex d) =
    mkParsed [to_owned_rule (mkRef (if ex then Except else Block) (canonical_pattern f d)
                               (canonical_text f ex d) 1)] [].
Proof.
  intros Hd Hok. destruct (decide (f = CHostsZero)) as [->|Hf].
  - destruct Hok as [-> Hl]. destruct (hosts_zero_line d 1 Hd Hl) as [Hr Hi].
    pose proof (valid_domain_nonempty d Hd) as Hne. destruct (exists_last Hne) as (r & z & E).
    cbn [canonical_text]. rewrite (parse_list_line _ 48 z); try done.
    + by rewrite Hr, Hi.
    + apply not_elem_of_app. split; [by vm_compute; set_solver|].
      apply not_elem_of_domain; [done|]. unfold c_nl. lia.
    + by rewrite E, app_assoc, last_snoc.
    + apply valid_domain_plain in Hd. rewrite E in Hd. apply Forall_app in Hd as [_ Hd]. by inversion Hd.
  - pose proof (canonical_hosts_ip f ex d Hd Hf Hok) as Hip.
    set (sub := match f with CSubtree => true | _ => false end).
    set (caret := match f with CSubtree | CExactCaret => true | _ => false end).
    destruct (parse_domain_line ex sub caret d 1 (canonical_text f ex d) Hd) as [Hr Hi];
      [destruct f, ex; subst sub caret; cbn; rewrite ?app_nil_r; done|done|].
    apply parse_list_canonical_bytes with (r := [_]); [|by apply canonical_bytes| |done].
    + pose proof (valid_domain_nonempty d Hd). destruct f, ex; cbn; try done. by destruct d.
    + rewrite Hr. subst sub. by destruct f.
Qed.

Lemma fold_left_count {A} (l : list A) n : fold_left (fun n _ => n + 1) l n = n + len l.
Proof.
  revert n. induction l as [|x l IH]; intros n; cbn [fold_left].
  - rewrite len_nil. lia.
  - rewrite IH, len_cons. lia.
Qed.

(** ** Properties *)

(** C26: every rule the parser hands out is well formed: its name is a
    valid normalised DNS name (or a wildcard over the DNS alphabet), its
    line number is a 1-based [u32], its text starts with an ASCII byte
    (with [@@] for an exception), and the slice the engine takes of a hosts
    text falls on a character boundary. *)
Theorem parse_list_rules_wf txt :
  Forall rule_wf (map from_rule (pl_rules (parse_list txt))).
Proof. rewrite <- refs_of_parse_list. apply refs_of_wf. Qed.

(** No line is silently dropped: a line that is not a hosts line
    yields exactly one rule or one issue, a hosts line for a sink address
    one event per listed name (local-machine names apart), a hosts line
    for a real address one issue. *)
Theorem parse_line_accounts_for_line line no :
  (length (line_refs line no) + length (line_issues line no))%nat = expected_events line.
Proof. apply line_events_expected. Qed.

(** C27: canonical texts round-trip: printing a block or exception rule for
    a valid name in any of the four canonical forms and parsing the list
    gives back exactly that rule and no issue (unless the text spells an
    address or a local-machine name, which hosts syntax claims). *)
Theorem canonical_text_roundtrip f ex d :
  valid_domain d -> canonical_ok f ex d ->
  parse_list (canonical_text f ex d) =
    mkParsed [to_owned_rule (mkRef (if ex then Except else Block) (canonical_pattern f d)
                               (canonical_text f ex d) 1)] [].
Proof. apply canonical_line. Qed.

Lemma canonical_text_roundtrip_witness :
  parse_list (canonical_text CSubtree true (lit "ads.example.com")) =
    mkParsed [to_owned_rule (mkRef Except (PatternRef_Subtree (lit "ads.example.com"))
                               (lit "@@||ads.example.com^") 1)] [].
Proof.
  apply (canonical_text_roundtrip CSubtree true (lit "ads.example.com")); [|exact I].
  apply (normalize_domain_Some (lit "ads.example.com")). vm_compute. reflexivity.
Defined.

(** [normalize_domain] accepts exactly the texts whose lowercased form
    without one trailing dot is a valid DNS name, returns that form, and
    changes nothing when applied again. *)
Theorem normalize_domain_correct s :
  (forall d, normalize_domain s = Some d <->
     d = to_ascii_lowercase (default s (strip_suffix [c_dot] s)) /\ valid_domain d)
  /\ forall d, normalize_domain s = Some d -> normalize_domain d = Some d.
Proof.
  split; [intros d; apply normalize_domain_Some|]. intros d H.
  apply normalize_domain_Some in H as (_ & H). by apply normalize_domain_valid.
Qed.

Lemma normalize_domain_correct_witness :
  normalize_domain (lit "Ads.Example.COM.") = Some (lit "ads.example.com")
  /\ normalize_domain (lit "ads.example.com") = Some (lit "ads.example.com").
Proof.
  assert (H : normalize_domain (lit "Ads.Example.COM.") = Some (lit "ads.example.com"))
    by (vm_compute; reflexivity).
  split; [exact H|]. exact (proj2 (normalize_domain_correct (lit "Ads.Example.COM.")) _ H).
Defined.
