(* ===== verification/Grammar.v ===== *)
(** * Grammar: what each line of a blocklist reads as

    The language of lists as a relation on texts, written without the
    parser: comments and headers, hosts lines, cosmetic rules, modifiers,
    regular expressions, and the marks around a name or a wildcard. The
    theorem: the parser reads exactly this language, line by line. *)
From S2P Require Import Prelude Text IpAddr FilterTypes Parse ParseSpec.

(** ** The language *)

(** Blank, a [!] comment, or a [[...]] header. *)
Definition header (line : list Z) : Prop :=
  line = [] \/ head line = Some c_bang \/ exists mid, line = c_lbracket :: mid ++ [c_rbracket].

(** A [#] line that is a cosmetic rule without a domain, not a comment. *)
Definition cosmetic_head (line : list Z) : Prop :=
  (exists m rest, m ∈ map lit ["#@#"; "#?#"; "#$#"; "#%#"]%string /\ line = m ++ rest)
  \/ exists rest, line = lit "##" ++ rest /\ rest <> [] /\ head rest <> Some c_hash /\ starts_ws rest = false.

(** [a] is what precedes the first [c] of [s]. *)
Definition up_to (c : Z) (s a : list Z) : Prop := exists z, s = a ++ z /\ c ∉ a /\ (z = [] \/ head z = Some c).

(** The line's first word spells an address, up to a [%zone]. *)
Definition first_address (line : list Z) (ip : IpAddr) : Prop :=
  exists w ws a, split_whitespace line = w :: ws /\ up_to c_percent w a /\ parse_ip a = Some ip.

(** The names of a hosts line: the words after the address and before a
    [#], those of the local machine left out. *)
Definition listed (line : list Z) (names : list (list Z)) : Prop :=
  exists e, up_to c_hash line e
    /\ names = List.filter (fun n => negb (is_localhost n)) (drop 1 (split_whitespace (trim e))).

Definition name_of (s : list Z) : list Z := to_ascii_lowercase (default s (strip_suffix [c_dot] s)).

(** A wildcard expression: over the DNS alphabet and [*], a letter or digit
    somewhere, its literal segments possible labels. *)
Definition valid_expr (e : list Z) : Prop :=
  1 <= len e <= 253 /\ (exists b, b ∈ e /\ is_ascii_alphanumeric b = true)
  /\ Forall (fun b => wildcard_byte b = true) e
  /\ Forall (fun s => c_star ∈ s \/ 1 <= len s <= 63 /\ head s <> Some c_hyphen /\ last s <> Some c_hyphen) (split c_dot e).

(** The line is [body] between its marks: [@@] for an exception, [||] for a
    subtree, an optional [^]. *)
Definition written (act : RuleAction) (sub : bool) (body line : list Z) : Prop :=
  exists rest1 rest2,
    line = match act with Except => lit "@@" | Block => [] end ++ rest1
    /\ (act = Block -> forall r, line <> lit "@@" ++ r)
    /\ rest1 = (if sub then lit "||" else []) ++ rest2
    /\ (sub = false -> forall r, rest1 <> lit "||" ++ r)
    /\ (rest2 = body ++ [c_caret] \/ rest2 = body /\ forall r, rest2 <> r ++ [c_caret]).

Definition marker (line : list Z) : Prop := exists m a b, m ∈ COSMETIC_MARKERS /\ line = a ++ m ++ b.
Definition regex (line : list Z) : Prop := exists mid, line = c_slash :: mid ++ [c_slash].
Definition sink_address (ip : IpAddr) : Prop := is_unspecified ip = true \/ is_loopback ip = true.

(** None of the forms that are not a single rule. *)
Definition plain_rule (line : list Z) : Prop :=
  (forall ip, ~ first_address line ip) /\ ~ marker line /\ c_dollar ∉ line /\ ~ regex line.

(** The names of a sink address, one rule or one issue each. *)
Inductive names_read (line : list Z) (no : Z) : list (list Z) -> list RuleRef -> list LineIssue -> Prop :=
| nr_none : names_read line no [] [] []
| nr_name n ns rs is_ : valid_domain (name_of n) -> names_read line no ns rs is_ ->
    names_read line no (n :: ns) (mkRef Block (PatternRef_Exact (name_of n)) line no :: rs) is_
| nr_bad n ns rs is_ : ~ valid_domain (name_of n) -> names_read line no ns rs is_ ->
    names_read line no (n :: ns) rs (mkIssue no line InvalidDomain :: is_).

(** What a line that is neither comment nor header reads as. *)
Inductive entry_reads (line : list Z) (no : Z) : list RuleRef -> list LineIssue -> Prop :=
| er_hosts ip names rs is_ : first_address line ip -> listed line names -> names = [] \/ sink_address ip ->
    names_read line no names rs is_ -> entry_reads line no rs is_
| er_real ip names : first_address line ip -> listed line names -> names <> [] -> ~ sink_address ip ->
    entry_reads line no [] [mkIssue no line UnsupportedHostsEntry]
| er_cosmetic : (forall ip, ~ first_address line ip) -> marker line -> entry_reads line no [] [mkIssue no line CosmeticRule]
| er_modifier : (forall ip, ~ first_address line ip) -> ~ marker line -> c_dollar ∈ line ->
    entry_reads line no [] [mkIssue no line UnsupportedModifier]
| er_regex : (forall ip, ~ first_address line ip) -> ~ marker line -> c_dollar ∉ line -> regex line ->
    entry_reads line no [] [mkIssue no line UnsupportedSyntax]
| er_syntax act sub body : plain_rule line -> written act sub body line -> c_caret ∈ body \/ head body = Some c_bar ->
    entry_reads line no [] [mkIssue no line UnsupportedSyntax]
| er_wildcard act sub body : plain_rule line -> written act sub body line -> c_caret ∉ body -> head body <> Some c_bar ->
    c_star ∈ body -> valid_expr (name_of body) ->
    entry_reads line no [mkRef act (PatternRef_Wildcard (name_of body) sub) line no] []
| er_name act (sub : bool) body : plain_rule line -> written act sub body line -> c_caret ∉ body -> head body <> Some c_bar ->
    c_star ∉ body -> valid_domain (name_of body) ->
    entry_reads line no [mkRef act (if sub then PatternRef_Subtree (name_of body) else PatternRef_Exact (name_of body)) line no] []
| er_invalid act sub body : plain_rule line -> written act sub body line -> c_caret ∉ body -> head body <> Some c_bar ->
    (c_star ∈ body -> ~ valid_expr (name_of body)) -> (c_star ∉ body -> ~ valid_domain (name_of body)) ->
    entry_reads line no [] [mkIssue no line InvalidDomain].

Inductive line_reads (line : list Z) (no : Z) : list RuleRef -> list LineIssue -> Prop :=
| lr_silent : header line -> line_reads line no [] []
| lr_comment : ~ header line -> head line = Some c_hash -> ~ cosmetic_head line -> line_reads line no [] []
| lr_cosmetic : ~ header line -> head line = Some c_hash -> cosmetic_head line -> line_reads line no [] [mkIssue no line CosmeticRule]
| lr_entry rs is_ : ~ header line -> head line <> Some c_hash -> entry_reads line no rs is_ -> line_reads line no rs is_.

(** A list: its trimmed lines, numbered from one. *)
Inductive list_reads : list (list Z) -> nat -> list RuleRef -> list LineIssue -> Prop :=
| ls_end idx : list_reads [] idx [] []
| ls_line raw raws idx rs is_ rs' is_' :
    line_reads (trim raw) (Z.min (Z.of_nat idx + 1) u32_max) rs is_ -> list_reads raws (S idx) rs' is_' ->
    list_reads (raw :: raws) idx (rs ++ rs') (is_ ++ is_').

(** ** The leaves: each test of the parser decides its part of the language *)
Lemma or_iff_both (A B C D : Prop) : (A <-> C) -> (B <-> D) -> A \/ B <-> C \/ D.
Proof. tauto. Qed.

Lemma contains_true p s : contains p s = true <-> exists a b, s = a ++ p ++ b.
Proof.
  induction s as [|c s IH]; cbn [contains]; rewrite orb_true_iff, starts_with_true.
  - split; [intros [(r & E)|HF]; [by exists [], r|done]|]. intros (a & b & E). left.
    destruct a as [|x a]; [by exists b|done].
  - rewrite IH. split.
    + intros [(r & E)|(a & b & ->)]; [by exists [], r|by exists (c :: a), b].
    + intros (a & b & E). destruct a as [|x a]; [left; by exists b|right]. injection E as _ ->. by exists a, b.
Qed.

Lemma framed (a z : Z) line : a <> z -> (exists mid, line = a :: mid ++ [z]) <-> head line = Some a /\ last line = Some z.
Proof.
  intros Hn. split.
  - intros (mid & ->). split; [done|]. by rewrite app_comm_cons, last_snoc.
  - intros (Hh & Hl). destruct line as [|b line]; [done|]. injection Hh as ->.
    destruct (exists_last (l := a :: line)) as (r & y & E); [done|]. rewrite E, last_snoc in Hl. injection Hl as ->.
    destruct r as [|b r]; [injection E as ? _; done|]. injection E as <- ->. by exists r.
Qed.

Lemma header_iff line :
  (len line =? 0) || starts_with [c_bang] line = true \/ starts_with [c_lbracket] line && ends_with [c_rbracket] line = true <-> header line.
Proof.
  unfold header. rewrite framed by done. rewrite orb_true_iff, andb_true_iff, !starts_with_char, ends_with_char, Z.eqb_eq.
  assert (Hl : len line = 0 <-> line = []) by (destruct line; [done|rewrite len_cons; pose proof (len_nonneg line); split; [lia|done]]).
  rewrite Hl. tauto.
Qed.

Lemma cosmetic_head_iff line :
  existsb (fun m => starts_with m line) (map lit ["#@#"; "#?#"; "#$#"; "#%#"]%string)
  || (starts_with (lit "##") line
      && match drop 2 line with [] => false | c :: r => negb (c =? c_hash) && negb (starts_ws (c :: r)) end) = true
  <-> cosmetic_head line.
Proof.
  unfold cosmetic_head. rewrite orb_true_iff, andb_true_iff, existsb_exists_iff, starts_with_true. apply or_iff_both.
  - split.
    + intros (m & Hm & Hs). apply starts_with_true in Hs as (r & ->). by exists m, r.
    + intros (m & r & Hm & ->). exists m. split; [done|]. apply starts_with_true. by exists r.
  - split.
    + intros ((r & ->) & Hd). change (drop 2 (lit "##" ++ r)) with (drop 0 r) in Hd. rewrite drop_0 in Hd. exists r. split; [done|].
      destruct r as [|c r]; [done|]. apply andb_true_iff in Hd as [Hc Hw]. apply negb_true_iff in Hc, Hw. apply Z.eqb_neq in Hc.
      split; [done|]. split; [cbn; congruence|done].
    + intros (r & -> & Hr & Hh & Hw). split; [by exists r|]. change (drop 2 (lit "##" ++ r)) with (drop 0 r). rewrite drop_0.
      destruct r as [|c r]; [done|]. rewrite Hw. cbn in Hh. replace (c =? c_hash) with false; [done|]. symmetry. apply Z.eqb_neq. congruence.
Qed.

Lemma up_to_iff c s a : up_to c s a <-> default s (head (split c s)) = a.
Proof.
  revert a. induction s as [|b s IH]; intros a; cbn [split].
  - split; [intros (z & E & _); by destruct a|]. cbn. intros <-. exists []. split; [done|]. split; [apply not_elem_of_nil|by left].
  - destruct (Z.eqb_spec b c) as [->|Hb]; cbn [head default].
    + split.
      * intros (z & E & Hc & Hz). destruct a as [|x a]; [done|]. injection E as <- _. exfalso. apply Hc. by left.
      * intros <-. exists (c :: s). split; [done|]. split; [apply not_elem_of_nil|by right].
    + pose proof (split_nonempty c s) as Hne. destruct (split c s) as [|w ws] eqn:Es; [done|]. cbn [head default] in *. split.
      * intros (z & E & Hc & Hz). destruct a as [|x a]; [destruct Hz as [->|Hz]; [done|]; cbn in E; subst z; cbn in Hz; congruence|].
        injection E as <- ->. change (b :: w = b :: a). f_equal. apply (proj1 (IH a)). exists z. split; [done|]. split; [|done]. intros Hin. apply Hc. by right.
      * change (id (b :: w)) with (b :: w). intros <-. destruct (proj2 (IH w) eq_refl) as (z & -> & Hc & Hz). exists z. split; [done|]. split; [|done].
        intros Hin. apply elem_of_cons in Hin as [->|Hin]; [done|]. by apply Hc.
Qed.

Lemma first_address_iff line ip : first_address line ip <-> hosts_ip line = Some ip.
Proof.
  unfold first_address, hosts_ip. split.
  - intros (w & ws & a & -> & Ha & Hp). apply up_to_iff in Ha. by rewrite Ha.
  - destruct (split_whitespace line) as [|w ws]; [done|]. intros Hp. exists w, ws, (default w (head (split c_percent w))).
    split; [done|]. split; [by apply up_to_iff|done].
Qed.

Lemma listed_iff line names : listed line names <-> hosts_names line = names.
Proof.
  unfold listed, hosts_names. split.
  - intros (e & He & ->). apply up_to_iff in He. by rewrite He.
  - intros <-. eexists. split; [by apply up_to_iff|done].
Qed.

Lemma regex_iff line : (1 <? len line) && starts_with [c_slash] line && ends_with [c_slash] line = true <-> regex line.
Proof.
  rewrite !andb_true_iff, starts_with_char, ends_with_char, Z.ltb_lt. unfold regex. split.
  - intros ((Hl & Hh) & Ht). destruct line as [|b line]; [done|]. injection Hh as ->. rewrite len_cons in Hl.
    destruct (exists_last (l := line)) as (r & y & ->); [by intros ->|]. rewrite app_comm_cons, last_snoc in Ht. injection Ht as ->. by exists r.
  - intros (mid & ->). rewrite len_cons, len_app, app_comm_cons, last_snoc. pose proof (len_nonneg mid). rewrite len_cons, len_nil. split; [split; [lia|done]|done].
Qed.

Lemma marker_iff line : existsb (fun m => contains m line) COSMETIC_MARKERS = true <-> marker line.
Proof.
  rewrite existsb_exists_iff. unfold marker. split.
  - intros (m & Hm & Hc). apply contains_true in Hc as (a & b & ->). by exists m, a, b.
  - intros (m & a & b & Hm & ->). exists m. split; [done|]. apply contains_true. by exists a, b.
Qed.

Lemma name_iff s : valid_domain (name_of s) <-> normalize_domain s = Some (name_of s).
Proof. rewrite normalize_domain_Some. unfold name_of. tauto. Qed.

Lemma segment_iff s :
  segment_ok s = true <-> c_star ∈ s \/ 1 <= len s <= 63 /\ head s <> Some c_hyphen /\ last s <> Some c_hyphen.
Proof.
  unfold segment_ok. pose proof (len_nonneg s). rewrite orb_true_iff, contains_char_true, negb_true_iff, !orb_false_iff, Z.eqb_neq, Z.ltb_ge.
  rewrite <- !not_true_iff_false, starts_with_char, ends_with_char. apply or_iff_both; [done|]. intuition lia.
Qed.

Lemma expr_iff s : valid_expr (name_of s) <-> normalize_wildcard s = Some (name_of s).
Proof.
  unfold normalize_wildcard. cbn zeta. rewrite lower_strip_eq. fold (name_of s). set (e := name_of s). pose proof (len_nonneg e).
  unfold valid_expr. rewrite <- existsb_exists_iff.
  assert (Hseg : Forall (fun s => c_star ∈ s \/ 1 <= len s <= 63 /\ head s <> Some c_hyphen /\ last s <> Some c_hyphen) (split c_dot e)
    <-> forallb segment_ok (split c_dot e) = true).
  { rewrite forallb_Forall_iff, !List.Forall_forall. split; intros Hf x Hx; apply segment_iff, (Hf x Hx). }
  rewrite Hseg, <- forallb_Forall_iff. split.
  - intros (Hl & -> & -> & ->). zguard. done.
  - destruct (_ || _) eqn:E; [done|]. apply orb_false_iff in E as [E Ea]. apply orb_false_iff in E as [E1 E2].
    apply negb_false_iff in Ea. apply Z.eqb_neq in E1. apply Z.ltb_ge in E2.
    destruct (forallb wildcard_byte e); [|done]. cbn [negb]. destruct (forallb segment_ok (split c_dot e)); [|done]. intros _. split; [lia|done].
Qed.

Lemma name_none s : normalize_domain s = None <-> ~ valid_domain (name_of s).
Proof.
  rewrite name_iff. split; [by intros ->|]. intros Hn. destruct (normalize_domain s) as [d|] eqn:E; [|done].
  destruct Hn. by apply normalize_domain_Some in E as (-> & _).
Qed.

Lemma expr_none s : normalize_wildcard s = None <-> ~ valid_expr (name_of s).
Proof.
  rewrite expr_iff. split; [by intros ->|]. intros Hn. destruct (normalize_wildcard s) as [e|] eqn:E; [|done].
  destruct Hn. by apply normalize_wildcard_Some in E as (-> & _).
Qed.

(** The marks off, as [parse_line] takes them. *)
Definition stripped (line : list Z) : RuleAction * bool * list Z :=
  let '(act, rest) := match strip_prefix (lit "@@") line with Some rest => (Except, rest) | None => (Block, line) end in
  let '(sub, rest) := match strip_prefix (lit "||") rest with Some rest => (true, rest) | None => (false, rest) end in
  (act, sub, default rest (strip_suffix [c_caret] rest)).

Lemma strip_prefix_none p s : strip_prefix p s = None <-> forall r, s <> p ++ r.
Proof.
  split; [intros Hn r ->; by rewrite strip_prefix_app in Hn|]. intros Hn. destruct (strip_prefix p s) as [r|] eqn:E; [|done].
  apply strip_prefix_Some in E. by destruct (Hn r).
Qed.

Lemma written_iff act sub body line : written act sub body line <-> stripped line = (act, sub, body).
Proof.
  unfold written, stripped. split.
  - intros (rest1 & rest2 & E1 & N1 & E2 & N2 & E3).
    assert (H1 : match strip_prefix (lit "@@") line with Some rest => (Except, rest) | None => (Block, line) end = (act, rest1)).
    { destruct act; cbn [app] in E1; subst line; [|by rewrite strip_prefix_app]. by rewrite (proj2 (strip_prefix_none _ _)) by auto. }
    rewrite H1.
    assert (H2 : match strip_prefix (lit "||") rest1 with Some rest => (true, rest) | None => (false, rest1) end = (sub, rest2)).
    { destruct sub; cbn [app] in E2; subst rest1; [by rewrite strip_prefix_app|]. by rewrite (proj2 (strip_prefix_none _ _)) by auto. }
    rewrite H2. destruct E3 as [->|(-> & N3)]; [by rewrite strip_suffix_app|]. by rewrite (proj2 (strip_suffix_None _ _)).
  - destruct (match strip_prefix (lit "@@") line with Some rest => (Except, rest) | None => (Block, line) end) as [act' rest1] eqn:H1.
    destruct (match strip_prefix (lit "||") rest1 with Some rest => (true, rest) | None => (false, rest1) end) as [sub' rest2] eqn:H2.
    intros [= <- <- <-]. exists rest1, rest2. split_and!.
    + destruct (strip_prefix (lit "@@") line) eqn:E; injection H1 as <- <-; [by apply strip_prefix_Some|done].
    + intros ->. destruct (strip_prefix (lit "@@") line) eqn:E; [discriminate H1|]. by apply strip_prefix_none.
    + destruct (strip_prefix (lit "||") rest1) eqn:E; injection H2 as <- <-; [by apply strip_prefix_Some|done].
    + intros ->. destruct (strip_prefix (lit "||") rest1) eqn:E; [discriminate H2|]. by apply strip_prefix_none.
    + destruct (strip_suffix [c_caret] rest2) as [r|] eqn:E; [left; by apply strip_suffix_Some|right; split; [done|]]. by apply strip_suffix_None.
Qed.

(** ** The parser reads the language *)
Notation snoc := (fun acc r => acc ++ [r]).

Lemma names_read_iff line no names rs is_ :
  names_read line no names rs is_ <-> hosts_loop snoc line no names [] [] = (rs, is_).
Proof.
  assert (Hgen : forall rs0 is0, exists rs' is', names_read line no names rs' is' /\ hosts_loop snoc line no names rs0 is0 = (rs0 ++ rs', is0 ++ is')).
  { induction names as [|n names IH]; intros rs0 is0; cbn [hosts_loop]; [exists [], []; split; [constructor|by rewrite !app_nil_r]|].
    destruct (decide (normalize_domain n = None)) as [E|E].
    - rewrite E. destruct (IH rs0 (is0 ++ [mkIssue no line InvalidDomain])) as (rs' & is' & Hr & ->). eexists _, _.
      split; [apply nr_bad; [by apply name_none|exact Hr]|by rewrite <- app_assoc].
    - assert (Hv : valid_domain (name_of n)) by (destruct (decide (valid_domain (name_of n))) as [|Hn]; [done|by apply name_none in Hn]).
      apply name_iff in Hv as Hn. rewrite Hn. destruct (IH (rs0 ++ [mkRef Block (PatternRef_Exact (name_of n)) line no]) is0) as (rs' & is' & Hr & ->).
      eexists _, _. split; [by apply nr_name; [|exact Hr]|by rewrite <- app_assoc]. }
  assert (Hfun : forall rs is1 rs' is', names_read line no names rs is1 -> names_read line no names rs' is' -> rs = rs' /\ is1 = is').
  { clear. intros rs is1 rs' is' Hr. revert rs' is'. induction Hr as [|n ns rs is1 Hv Hr IH|n ns rs is1 Hv Hr IH]; intros rs' is' Hr';
      inversion Hr'; subst; try done; edestruct IH as (-> & ->); by eauto. }
  destruct (Hgen [] []) as (rs' & is' & Hr & ->). split; [|by intros [= <- <-]].
  intros Hr'. by destruct (Hfun _ _ _ _ Hr Hr') as (-> & ->).
Qed.

Lemma no_address line : (forall ip, ~ first_address line ip) <-> hosts_ip line = None.
Proof.
  split; [|by intros Hn ip ?%first_address_iff; congruence]. intros Hn. destruct (hosts_ip line) as [ip|] eqn:E; [|done].
  destruct (Hn ip). by apply first_address_iff.
Qed.

Lemma sink_iff ip : is_unspecified ip || is_loopback ip = true <-> sink_address ip.
Proof. apply orb_true_iff. Qed.

(** [parse_line] past the hosts lines, its tests as the language has them. *)
Lemma parse_marks line no :
  plain_rule line ->
  parse_line snoc line no [] []
  = (let '(act, sub, body) := stripped line in
     if contains_char c_caret body || starts_with [c_bar] body then ([], [mkIssue no line UnsupportedSyntax])
     else match (if contains_char c_star body then (fun expr => PatternRef_Wildcard expr sub) <$> normalize_wildcard body
                 else (fun domain => if sub : bool then PatternRef_Subtree domain else PatternRef_Exact domain) <$> normalize_domain body) with
          | None => ([], [mkIssue no line InvalidDomain])
          | Some p => ([mkRef act p line no], [])
          end).
Proof.
  intros (Ha & Hm & Hd & Hr). unfold parse_line. apply no_address in Ha. rewrite Ha.
  rewrite <- marker_iff, not_true_iff_false in Hm. rewrite Hm. apply contains_char_false in Hd. rewrite Hd.
  rewrite <- regex_iff, not_true_iff_false in Hr. rewrite Hr. unfold stripped.
  destruct (strip_prefix (lit "@@") line); cbn zeta beta iota;
    match goal with |- context [strip_prefix (lit "||") ?r] => destruct (strip_prefix (lit "||") r) end; reflexivity.
Qed.

Lemma entry_reads_code line no rs is_ : entry_reads line no rs is_ -> parse_line snoc line no [] [] = (rs, is_).
Proof.
  destruct 1 as [ip names rs is_ Ha Hl Hs Hr|ip names Ha Hl Hn Hs|Ha Hm|Ha Hm Hd|Ha Hm Hd Hr|act sub body Hp Hw Hb
    |act sub body Hp Hw Hc Hb Hs Hv|act sub body Hp Hw Hc Hb Hs Hv|act sub body Hp Hw Hc Hb Hv1 Hv2].
  1,2: apply first_address_iff in Ha; apply listed_iff in Hl; unfold parse_line, parse_hosts_line; rewrite Ha, Hl.
  - apply names_read_iff in Hr. destruct names as [|n names]; [exact Hr|]. destruct Hs as [Hs|Hs]; [done|]. apply sink_iff in Hs. rewrite Hs. exact Hr.
  - destruct names as [|n names]; [done|]. rewrite <- sink_iff, not_true_iff_false in Hs. by rewrite Hs.
  - unfold parse_line. apply no_address in Ha. apply marker_iff in Hm. by rewrite Ha, Hm.
  - unfold parse_line. apply no_address in Ha. rewrite <- marker_iff, not_true_iff_false in Hm. apply contains_char_true in Hd. by rewrite Ha, Hm, Hd.
  - unfold parse_line. apply no_address in Ha. rewrite <- marker_iff, not_true_iff_false in Hm. apply contains_char_false in Hd.
    apply regex_iff in Hr. by rewrite Ha, Hm, Hd, Hr.
  - rewrite parse_marks by done. apply written_iff in Hw. rewrite Hw.
    replace (contains_char c_caret body || starts_with [c_bar] body) with true; [done|]. symmetry.
    by rewrite orb_true_iff, contains_char_true, starts_with_char.
  - rewrite parse_marks by done. apply written_iff in Hw. rewrite Hw. apply contains_char_false in Hc. apply contains_char_true in Hs.
    rewrite <- starts_with_char, not_true_iff_false in Hb. apply expr_iff in Hv. by rewrite Hc, Hb, Hs, Hv.
  - rewrite parse_marks by done. apply written_iff in Hw. rewrite Hw. apply contains_char_false in Hc, Hs.
    rewrite <- starts_with_char, not_true_iff_false in Hb. apply name_iff in Hv. by rewrite Hc, Hb, Hs, Hv.
  - rewrite parse_marks by done. apply written_iff in Hw. rewrite Hw. apply contains_char_false in Hc.
    rewrite <- starts_with_char, not_true_iff_false in Hb. rewrite Hc, Hb. cbn [orb]. destruct (contains_char c_star body) eqn:Es.
    + apply contains_char_true in Es. specialize (Hv1 Es). apply expr_none in Hv1. by rewrite Hv1.
    + apply contains_char_false in Es. specialize (Hv2 Es). apply name_none in Hv2. by rewrite Hv2.
Qed.

Lemma entry_reads_total line no : exists rs is_, entry_reads line no rs is_.
Proof.
  destruct (hosts_ip line) as [ip|] eqn:Ha.
  { apply first_address_iff in Ha. destruct (proj2 (listed_iff line _) eq_refl) as (e & Hl). assert (Hls : listed line (hosts_names line)) by (by exists e).
    destruct (decide (hosts_names line = [])) as [Hn|Hn].
    - eexists _, _. eapply er_hosts; [done|exact Hls|by left|]. apply names_read_iff. by rewrite Hn.
    - destruct (is_unspecified ip || is_loopback ip) eqn:Es.
      + destruct (hosts_loop snoc line no (hosts_names line) [] []) as [rs is_] eqn:Er. exists rs, is_.
        eapply er_hosts; [done|exact Hls|right; by apply sink_iff|by apply names_read_iff].
      + eexists _, _. eapply er_real; [done|exact Hls|done|]. by rewrite <- sink_iff, Es. }
  rewrite <- no_address in Ha. destruct (existsb (fun m => contains m line) COSMETIC_MARKERS) eqn:Em.
  { eexists _, _. apply er_cosmetic; [done|by apply marker_iff]. }
  assert (Hm : ~ marker line) by (by rewrite <- marker_iff, Em). destruct (decide (c_dollar ∈ line)) as [Hd|Hd].
  { eexists _, _. by apply er_modifier. }
  destruct ((1 <? len line) && starts_with [c_slash] line && ends_with [c_slash] line) eqn:Er.
  { eexists _, _. apply er_regex; try done. by apply regex_iff. }
  assert (Hp : plain_rule line) by (split; [done|split; [done|split; [done|by rewrite <- regex_iff, Er]]]).
  destruct (stripped line) as [[act sub] body] eqn:Hw. apply written_iff in Hw.
  destruct (decide (c_caret ∈ body \/ head body = Some c_bar)) as [Hb|Hb]; [eexists _, _; by eapply er_syntax|].
  assert (Hc : c_caret ∉ body) by tauto. assert (Hbar : head body <> Some c_bar) by tauto.
  destruct (decide (c_star ∈ body)) as [Hs|Hs].
  - destruct (normalize_wildcard body) as [e|] eqn:Ee.
    + eexists _, _. eapply er_wildcard; try done. apply expr_iff. rewrite Ee. by apply normalize_wildcard_Some in Ee as (-> & _).
    + apply expr_none in Ee. eexists _, _. by eapply er_invalid.
  - destruct (normalize_domain body) as [d|] eqn:Ed.
    + eexists _, _. eapply er_name; try done. apply name_iff. rewrite Ed. by apply normalize_domain_Some in Ed as (-> & _).
    + apply name_none in Ed. eexists _, _. by eapply er_invalid.
Qed.

Lemma entry_reads_iff line no rs is_ : entry_reads line no rs is_ <-> parse_line snoc line no [] [] = (rs, is_).
Proof.
  split; [apply entry_reads_code|]. destruct (entry_reads_total line no) as (rs' & is' & Hr).
  rewrite (entry_reads_code _ _ _ _ Hr). by intros [= <- <-].
Qed.

Lemma line_reads_iff raw idx rs is_ :
  line_reads (trim raw) (Z.min (Z.of_nat idx + 1) u32_max) rs is_ <-> parse_raw_line snoc raw idx [] [] = (rs, is_).
Proof.
  assert (Hno : line_number idx = Z.min (Z.of_nat idx + 1) u32_max).
  { unfold line_number, saturating_add, try_from. assert (0 < u32_max) by done. repeat case_match; bool_to_prop; cbn [default from_option id] in *; simplify_eq; lia. }
  rewrite <- Hno. unfold parse_raw_line. cbn zeta. set (line := trim raw). set (no := line_number idx). unfold skip_or_report_comment.
  pose proof (header_iff line) as Hh. destruct ((len line =? 0) || starts_with [c_bang] line) eqn:E1.
  { assert (Hd : header line) by (apply Hh; by left). split; [destruct 1; done|]. intros [= <- <-]. by apply lr_silent. }
  destruct (starts_with [c_lbracket] line && ends_with [c_rbracket] line) eqn:E2.
  { assert (Hd : header line) by (apply Hh; by right). split; [destruct 1; done|]. intros [= <- <-]. by apply lr_silent. }
  assert (Hd : ~ header line) by (rewrite <- Hh; intros [|]; discriminate).
  destruct (starts_with [c_hash] line) eqn:E3.
  - apply starts_with_char in E3. cbn zeta. pose proof (cosmetic_head_iff line) as Hc.
    match goal with |- context [if ?b then [] ++ _ else _] => destruct b eqn:E4 end.
    + pose proof (proj1 Hc eq_refl) as Hcos. split; [by destruct 1|]. intros [= <- <-]. by apply lr_cosmetic.
    + assert (Hc' : ~ cosmetic_head line) by (rewrite <- Hc; discriminate). split; [by destruct 1|]. intros [= <- <-]. by apply lr_comment.
  - assert (Hn : head line <> Some c_hash) by (rewrite <- starts_with_char, E3; discriminate). rewrite <- entry_reads_iff.
    split; [by destruct 1|]. by apply lr_entry.
Qed.

Lemma raw_line_any {S} (sink : S -> RuleRef -> S) raw idx st issues rs is_ :
  parse_raw_line snoc raw idx [] [] = (rs, is_) -> parse_raw_line sink raw idx st issues = (fold_left sink rs st, issues ++ is_).
Proof.
  intros Hr. pose proof (emits_collect (fun S sink st is_ => parse_raw_line sink raw idx st is_) (parse_raw_line_emits raw idx) S sink st issues) as He.
  unfold emits in He. rewrite Hr in He. exact He.
Qed.

Lemma list_reads_iff raws idx rs is_ : list_reads raws idx rs is_ <-> stream_lines snoc raws idx [] [] = (rs, is_).
Proof.
  assert (Hgen : forall acc iss, exists rs' is', list_reads raws idx rs' is' /\ stream_lines snoc raws idx acc iss = (acc ++ rs', iss ++ is')).
  { revert idx. induction raws as [|raw raws IH]; intros idx acc iss; cbn [stream_lines]; [exists [], []; split; [constructor|by rewrite !app_nil_r]|].
    destruct (parse_raw_line snoc raw idx [] []) as [rs1 is1] eqn:E. rewrite (raw_line_any _ _ _ _ _ _ _ E), fold_left_snoc.
    destruct (IH (S idx) (acc ++ rs1) (iss ++ is1)) as (rs' & is' & Hr & ->). exists (rs1 ++ rs'), (is1 ++ is').
    split; [constructor; [by apply line_reads_iff|done]|by rewrite !app_assoc]. }
  assert (Hfun : forall rs is1 rs' is', list_reads raws idx rs is1 -> list_reads raws idx rs' is' -> rs = rs' /\ is1 = is').
  { clear. intros rs is1 rs' is' Hr. revert rs' is'. induction Hr as [|raw raws idx rs is1 rs2 is2 Hl Hr IH]; intros rs' is' Hr'; inversion Hr' as [|????? ? ? Hl' Hr'']; subst; [done|].
    apply line_reads_iff in Hl, Hl'. rewrite Hl in Hl'. injection Hl' as <- <-. by edestruct IH as (-> & ->); [exact Hr''|]. }
  destruct (Hgen [] []) as (rs' & is' & Hr & ->). split; [|by intros [= <- <-]].
  intros Hr'. by destruct (Hfun _ _ _ _ Hr Hr') as (-> & ->).
Qed.

(** ** Properties *)

(** C25: the parser reads exactly the language of blocklists. A list parses
    to some rules and issues if and only if its lines, trimmed and numbered
    from one (the number saturating), read as them one after another:
    blank lines, [!] comments, headers and [#] comments as nothing; a hosts
    line as one rule per valid name and one issue per invalid one when the
    address is a sink, as one issue otherwise, local-machine names left
    out; cosmetic rules, modifiers, regular expressions and stray [^] or
    [|] each as an issue of its kind; any other line as the name, subtree
    or wildcard between its marks, or an issue when that is no valid one.
    Every consumer is handed those rules in that order, and [count_rules]
    counts them. *)
Theorem parse_list_reads txt :
  (forall rules issues, list_reads (lines txt) 0 rules issues <-> parse_list txt = mkParsed (map to_owned_rule rules) issues)
  /\ exists rules issues, list_reads (lines txt) 0 rules issues
      /\ count_rules txt = mkCounts (len rules) (len issues)
      /\ forall S (sink : S -> RuleRef -> S) st, parse_list_streamed sink txt st [] = (fold_left sink rules st, issues).
Proof.
  assert (Hcode : forall rules issues, list_reads (lines txt) 0 rules issues <-> refs_of txt = rules /\ issues_of txt = issues).
  { intros rules issues. rewrite list_reads_iff. unfold refs_of, issues_of, parse_list_streamed.
    destruct (stream_lines snoc (lines txt) 0 [] []) as [rs is_]. cbn. split; [by intros [= -> ->]|by intros [-> ->]]. }
  split.
  - intros rules issues. rewrite Hcode, parse_list_eq. split; [by intros [-> ->]|]. intros [= Hm ->]. split; [|done].
    apply (f_equal (map from_rule)) in Hm. rewrite !map_map in Hm. rewrite <- (map_id (refs_of txt)), <- (map_id rules).
    etransitivity; [|etransitivity; [exact Hm|]]; apply map_ext; intros r; by rewrite from_to_rule.
  - exists (refs_of txt), (issues_of txt). split; [by apply Hcode|]. split; [|intros S sink st; by rewrite streamed_spec].
    unfold count_rules. by rewrite streamed_spec, fold_left_count.
Qed.
