(* ===== verification/Engine.v ===== *)
(** * Engine: the compiled matcher ([crates/filter/src/engine.rs]) and the
    builder of [crates/filter/src/lib.rs]

    One definition per function, in the source's order: the rule store,
    the key indexes over byte arenas, label reversal, the wildcard table,
    [Engine::add_rule], [finish], [verdict], [matched], the glob matcher,
    [EngineBuilder]. An operation that can panic returns [option] ([None]
    is the panic). [sort_unstable_by] of the standard library is a
    parameter with its contract ([UnstableSort]): nothing below depends on
    the order it leaves equal keys in. *)
From S2P Require Import Prelude Text FilterTypes Parse.

Definition FLAG_EXCEPT : Z := 1.
Definition FORM_SHIFT : Z := 1.
Definition FORM_VERBATIM : Z := 0.
Definition FORM_SUBTREE : Z := 1.
Definition FORM_EXACT : Z := 2.
Definition FORM_EXACT_CARET : Z := 3.
Definition FORM_HOSTS_ZERO : Z := 4.

(** ** Rule store: parallel arrays indexed by rule id *)
Record Store := mkStore {
  st_lists : list Z;
  st_lines : list Z;
  st_flags : list Z;
  st_span_off : list Z;
  st_span_len : list Z;
  st_verbatim : list Z
}.

Definition store_default : Store := mkStore [] [] [] [] [] [].

Definition store_push (s : Store) (list_ line : Z) (except : bool) (form : Z)
  : option (Z * Store) :=
  id ← try_from u32_max (len (st_lines s));
  Some (id, mkStore (st_lists s ++ [list_]) (st_lines s ++ [line])
              (st_flags s ++ [Z.lor (Z.b2z except) (Z.shiftl form FORM_SHIFT)])
              (st_span_off s ++ [0]) (st_span_len s ++ [0]) (st_verbatim s)).

Definition set_span_off (s : Store) (id off : Z) : option Store :=
  offs ← index_set (st_span_off s) id off;
  Some (mkStore (st_lists s) (st_lines s) (st_flags s) offs (st_span_len s) (st_verbatim s)).

Definition set_span_len (s : Store) (id l : Z) : option Store :=
  lens ← index_set (st_span_len s) id l;
  Some (mkStore (st_lists s) (st_lines s) (st_flags s) (st_span_off s) lens (st_verbatim s)).

Definition set_span (s : Store) (id off l : Z) : option Store :=
  s ← set_span_off s id off;
  l ← try_from u8_max l;
  set_span_len s id l.

(** [(0..=n).rev().find(|&l| text.is_char_boundary(l)).unwrap_or(0)] *)
Fixpoint last_boundary (text : list Z) (n : nat) : nat :=
  match n with
  | O => O
  | S n' => if is_char_boundary text (Z.of_nat n) then n else last_boundary text n'
  end.

Definition push_verbatim (s : Store) (id : Z) (text : list Z) : option Store :=
  off ← try_from u32_max (len (st_verbatim s));
  let s := mkStore (st_lists s) (st_lines s) (st_flags s) (st_span_off s) (st_span_len s)
             (st_verbatim s ++ text) in
  let l := Z.min (len text) 255 in
  set_span s id off (Z.of_nat (last_boundary text (Z.to_nat l))).

Definition is_except (s : Store) (id : Z) : option bool :=
  f ← index (st_flags s) id; Some (negb (Z.land f FLAG_EXCEPT =? 0)).

Definition store_form (s : Store) (id : Z) : option Z :=
  f ← index (st_flags s) id; Some (Z.shiftr f FORM_SHIFT).

Definition store_len (s : Store) : Z := len (st_lines s).

(** ** Byte keys: [Ord for [u8]] *)
Fixpoint bytes_ltb (a b : list Z) : bool :=
  match a, b with
  | [], [] => false
  | [], _ :: _ => true
  | _ :: _, [] => false
  | x :: a', y :: b' => if x <? y then true else if y <? x then false else bytes_ltb a' b'
  end.

Definition key_le (x y : list Z * Z) : Prop := bytes_ltb (fst y) (fst x) = false.

(** [slice::sort_unstable_by] on keyed entries: a sorted permutation. *)
Class UnstableSort := {
  sort_unstable : list (list Z * Z) -> list (list Z * Z);
  sort_unstable_perm : forall l, Permutation (sort_unstable l) l;
  sort_unstable_sorted : forall l, StronglySorted key_le (sort_unstable l)
}.

(** ** Key index: sorted, deduplicated byte keys to rule ids *)
Record KeyIndex := mkIndex {
  ki_arena : list Z;
  ki_offs : list Z;
  ki_lens : list Z;
  ki_rules : list Z
}.

Definition key_index_default : KeyIndex := mkIndex [] [] [] [].

Definition ki_insert (ki : KeyIndex) (key : list Z) (rule : Z) : option KeyIndex :=
  off ← try_from u32_max (len (ki_arena ki));
  l ← try_from u8_max (len key);
  Some (mkIndex (ki_arena ki ++ key) (ki_offs ki ++ [off]) (ki_lens ki ++ [l])
          (ki_rules ki ++ [rule])).

Definition ki_key (ki : KeyIndex) (i : Z) : option (list Z) :=
  off ← index (ki_offs ki) i;
  l ← index (ki_lens ki) i;
  slice (ki_arena ki) off (off + l).

(** The loop of [KeyIndex::finish] over the sorted positions: the rebuilt
    index, the previous distinct key with its new offset, and the state
    the [relocate] callback threads. *)
Fixpoint finish_loop {St} (relocate : St -> Z -> Z -> option St) (ki : KeyIndex)
  (order : list (list Z * Z)) (new : KeyIndex) (prev : option (list Z * Z)) (st : St)
  : option (KeyIndex * St) :=
  match order with
  | [] => Some (new, st)
  | (key, i) :: rest =>
      '(new_off, arena, prev) ←
        match prev with
        | Some (pk, off) =>
            if str_eqb pk key then Some (off, ki_arena new, prev)
            else off ← try_from u32_max (len (ki_arena new));
                 Some (off, ki_arena new ++ key, Some (key, off))
        | None => off ← try_from u32_max (len (ki_arena new));
                  Some (off, ki_arena new ++ key, Some (key, off))
        end;
      l ← index (ki_lens ki) i;
      rule ← index (ki_rules ki) i;
      st ← relocate st rule new_off;
      finish_loop relocate ki rest
        (mkIndex arena (ki_offs new ++ [new_off]) (ki_lens new ++ [l]) (ki_rules new ++ [rule]))
        prev st
  end.

Section Sorted.
Context `{UnstableSort}.

Definition ki_finish {St} (relocate : St -> Z -> Z -> option St) (ki : KeyIndex) (st : St)
  : option (KeyIndex * St) :=
  n ← try_from u32_max (len (ki_rules ki));
  keyed ← mapM (fun i => k ← ki_key ki i; Some (k, i)) (seqZ 0 n);
  finish_loop relocate ki (sort_unstable keyed) key_index_default None st.
End Sorted.

(** [partition_point] over an index range; [fuel] bounds the halvings. *)
Fixpoint partition_loop (fuel : nat) (pred : Z -> option bool) (lo hi : Z) : option Z :=
  match fuel with
  | O => Some lo
  | S fuel =>
      if lo <? hi then
        let mid := lo + (hi - lo) / 2 in
        p ← pred mid;
        if (p : bool) then partition_loop fuel pred (mid + 1) hi
        else partition_loop fuel pred lo mid
      else Some lo
  end.

Definition partition_point (n : Z) (pred : Z -> option bool) : option Z :=
  partition_loop (Z.to_nat n) pred 0 n.

(** [(lo..n).take_while(|i| key(i) == needle).map(|i| rules[i])] *)
Fixpoint take_equal (ki : KeyIndex) (needle : list Z) (is_ : list Z) : option (list Z) :=
  match is_ with
  | [] => Some []
  | i :: rest =>
      k ← ki_key ki i;
      if str_eqb k needle then
        r ← index (ki_rules ki) i;
        rs ← take_equal ki needle rest;
        Some (r :: rs)
      else Some []
  end.

Definition equal_range (ki : KeyIndex) (needle : list Z) : option (list Z) :=
  let n := len (ki_rules ki) in
  lo ← partition_point n (fun i => k ← ki_key ki i; Some (bytes_ltb k needle));
  take_equal ki needle (seqZ lo (n - lo)).

(** ** Label reversal into a fixed buffer *)

(** [out[w..w + l.len()].copy_from_slice(l)] *)
Definition copy_at (out : list Z) (w : Z) (l : list Z) : option (list Z) :=
  if w + len l <=? len out
  then Some (take (Z.to_nat w) out ++ l ++ drop (Z.to_nat (w + len l)) out) else None.

Fixpoint reverse_labels_loop (labels : list (list Z)) (out : list Z) (w : Z)
  : option (list Z * Z) :=
  match labels with
  | [] => Some (out, w)
  | label :: rest =>
      '(out, w) ← (if 0 <? w then out ← index_set out w c_dot; Some (out, w + 1)
                   else Some (out, w));
      out ← copy_at out w label;
      reverse_labels_loop rest out (w + len label)
  end.

Definition reverse_labels_into (domain out : list Z) : option (list Z * Z) :=
  reverse_labels_loop (rev (split c_dot domain)) out 0.

(** [let mut buf = [0u8; 256]; let n = ..; &buf[..n]] *)
Definition reversed (domain : list Z) : option (list Z) :=
  '(buf, n) ← reverse_labels_into domain (replicate 256 0);
  slice buf 0 n.

(** ** Wildcards *)
Record WildcardEntry := mkWild {
  we_expr : list Z;
  we_include_subdomains : bool;
  we_rule : Z
}.

(** The complete labels after a wildcard's last [*]; the outer [option] is
    the source's. *)
Definition wildcard_anchor (expr : list Z) : option (list Z) :=
  match rfind c_star expr with
  | None => None
  | Some star =>
      let tail := drop (star + 1) expr in
      match find c_dot tail with
      | None => None
      | Some dot =>
          let anchor := drop (dot + 1) tail in
          match anchor with [] => None | _ => Some anchor end
      end
  end.

(** Classic two-pointer glob matcher; [star] is the last star taken and
    the text position it was taken at. *)
Fixpoint glob_loop (fuel : nat) (pat text : list Z) (p t : nat) (star : option (nat * nat))
  : option (option nat) :=
  match fuel with
  | O => None
  | S fuel =>
      match text !! t with
      | None => Some (Some p)
      | Some tc =>
          let retry :=
            match star with
            | Some (sp, st) => glob_loop fuel pat text (sp + 1) (st + 1) (Some (sp, (st + 1)%nat))
            | None => Some None
            end in
          match pat !! p with
          | None => retry
          | Some pc =>
              if pc =? tc then glob_loop fuel pat text (p + 1) (t + 1) star
              else if pc =? c_star then glob_loop fuel pat text (p + 1) t (Some (p, t))
              else retry
          end
      end
  end.

(** [while p < pat.len() && pat[p] == b'*' { p += 1 }; p == pat.len()] *)
Definition trailing_stars (pat : list Z) (p : nat) : bool :=
  forallb (Z.eqb c_star) (drop p pat).

(** Steps enough for every run: each retry advances the star position and
    each other step advances the pattern. *)
Definition glob_fuel (pat text : list Z) : nat :=
  S ((length text + 1) * (length pat + 1)).

Definition glob_match (pat text : list Z) : bool :=
  match glob_loop (glob_fuel pat text) pat text 0 0 None with
  | Some (Some p) => trailing_stars pat p
  | _ => false
  end.

(** The suffixes of a name at its label boundaries, the name itself apart. *)
Fixpoint tails_after_dot (s : list Z) : list (list Z) :=
  match s with
  | [] => []
  | a :: r => if a =? c_dot then r :: tails_after_dot r else tails_after_dot r
  end.

Definition wildcard_matches (expr name : list Z) (include_subdomains : bool) : bool :=
  glob_match expr name
  || (include_subdomains && existsb (glob_match expr) (tails_after_dot name)).

(** ** Engine *)
Record Engine := mkEngine {
  en_store : Store;
  en_subtree : KeyIndex;
  en_exact : KeyIndex;
  en_wildcards : list WildcardEntry;
  en_wildcard_buckets : gmap (list Z) (list Z);
  en_wildcard_unanchored : list Z;
  en_list_count : Z
}.

Definition engine_default : Engine :=
  mkEngine store_default key_index_default key_index_default [] ∅ [] 0.

Definition begin_list (e : Engine) : option (Z * Engine) :=
  let list_ := en_list_count e in
  _ ← try_from u16_max list_;
  Some (list_, mkEngine (en_store e) (en_subtree e) (en_exact e) (en_wildcards e)
                 (en_wildcard_buckets e) (en_wildcard_unanchored e) (list_ + 1)).

(** [!except && body.strip_prefix("0.0.0.0").is_some_and(..) && body[7] == b' '] *)
Definition hosts_zero_form (except : bool) (body domain : list Z) : option bool :=
  if except then Some false else
  match strip_prefix (lit "0.0.0.0") body with
  | None => Some false
  | Some d =>
      if len d =? len domain + 1 then
        rest ← str_from d 1;
        if str_eqb rest domain then b ← index body 7; Some (b =? c_space) else Some false
      else Some false
  end.

(** The text form [add_rule] picks for an exact rule. *)
Definition exact_form (except : bool) (body domain : list Z) : option Z :=
  if str_eqb body domain then Some FORM_EXACT
  else if match strip_suffix [c_caret] body with Some d => str_eqb d domain | None => false end
  then Some FORM_EXACT_CARET
  else b ← hosts_zero_form except body domain;
       Some (if (b : bool) then FORM_HOSTS_ZERO else FORM_VERBATIM).

Definition subtree_canonical (body domain : list Z) : bool :=
  match strip_prefix (lit "||") body with
  | None => false
  | Some b => match strip_suffix [c_caret] b with
              | None => false
              | Some d => str_eqb d domain
              end
  end.

Definition add_rule (e : Engine) (rule : RuleRef) : option Engine :=
  list_ ← try_from u16_max (saturating_sub (en_list_count e) 1);
  let except := bool_decide (action rule = Except) in
  let body := if except then default (text rule) (strip_prefix (lit "@@") (text rule))
              else text rule in
  match pattern rule with
  | PatternRef_Subtree domain =>
      let canonical := subtree_canonical body domain in
      let form := if canonical then FORM_SUBTREE else FORM_VERBATIM in
      '(id, store) ← store_push (en_store e) list_ (line rule) except form;
      key ← reversed domain;
      subtree ← ki_insert (en_subtree e) key id;
      store ← (if canonical then Some store else push_verbatim store id (text rule));
      Some (mkEngine store subtree (en_exact e) (en_wildcards e) (en_wildcard_buckets e)
              (en_wildcard_unanchored e) (en_list_count e))
  | PatternRef_Exact domain =>
      form ← exact_form except body domain;
      '(id, store) ← store_push (en_store e) list_ (line rule) except form;
      exact ← ki_insert (en_exact e) domain id;
      store ← (if form =? FORM_VERBATIM then push_verbatim store id (text rule) else Some store);
      Some (mkEngine store (en_subtree e) exact (en_wildcards e) (en_wildcard_buckets e)
              (en_wildcard_unanchored e) (en_list_count e))
  | PatternRef_Wildcard expr include_subdomains =>
      '(id, store) ← store_push (en_store e) list_ (line rule) except FORM_VERBATIM;
      store ← push_verbatim store id (text rule);
      idx ← try_from u32_max (len (en_wildcards e));
      let '(buckets, unanchored) :=
        match wildcard_anchor expr with
        | Some anchor =>
            (<[anchor := default [] (en_wildcard_buckets e !! anchor) ++ [idx]]>
               (en_wildcard_buckets e), en_wildcard_unanchored e)
        | None => (en_wildcard_buckets e, en_wildcard_unanchored e ++ [idx])
        end in
      Some (mkEngine store (en_subtree e) (en_exact e)
              (en_wildcards e ++ [mkWild expr include_subdomains id]) buckets unanchored
              (en_list_count e))
  end.

(** The forms whose text is rebuilt from a key of the exact index. *)
Definition is_exact_form (f : Z) : bool :=
  (f =? FORM_EXACT) || (f =? FORM_EXACT_CARET) || (f =? FORM_HOSTS_ZERO).

(** The [relocate] closure of [Engine::finish] for one index. *)
Definition relocate_if (want : Z -> bool) (s : Store) (rule off : Z) : option Store :=
  f ← store_form s rule;
  if want f then set_span_off s rule off else Some s.

(** [for i in 0..index.rules.len() { .. store.span_len[rule] = index.lens[i] }] *)
Fixpoint set_lens (want : Z -> bool) (entries : list (Z * Z)) (s : Store) : option Store :=
  match entries with
  | [] => Some s
  | (rule, l) :: rest =>
      f ← store_form s rule;
      s ← (if want f then set_span_len s rule l else Some s);
      set_lens want rest s
  end.

Section Build.
Context `{UnstableSort}.

Definition finish (e : Engine) : option Engine :=
  '(subtree, store) ← ki_finish (relocate_if (Z.eqb FORM_SUBTREE)) (en_subtree e) (en_store e);
  '(exact, store) ← ki_finish (relocate_if is_exact_form) (en_exact e) store;
  store ← set_lens (Z.eqb FORM_SUBTREE) (zip (ki_rules subtree) (ki_lens subtree)) store;
  store ← set_lens is_exact_form (zip (ki_rules exact) (ki_lens exact)) store;
  Some (mkEngine store subtree exact (en_wildcards e) (en_wildcard_buckets e)
          (en_wildcard_unanchored e) (en_list_count e)).

Definition rule_count (e : Engine) : Z := store_len (en_store e).
Definition list_count (e : Engine) : Z := en_list_count e.

(** ** Verdict *)

(** What a scan over candidate rules leaves: an exception ends it. *)
Inductive Scan := Found (id : Z) | Continue (block : option Z).

(** [consider]: an exception is found, the first block is remembered. *)
Definition consider (e : Engine) (id : Z) (block : option Z) : option Scan :=
  x ← is_except (en_store e) id;
  Some (if (x : bool) then Found id else Continue (Some (default id block))).

Fixpoint scan_ids (e : Engine) (ids : list Z) (block : option Z) : option Scan :=
  match ids with
  | [] => Some (Continue block)
  | id :: rest =>
      s ← consider e id block;
      match s with Found id => Some (Found id) | Continue block => scan_ids e rest block end
  end.

(** [rev] has a label boundary at each dot and at its end. *)
Definition boundaries (rev_ : list Z) : list Z :=
  List.filter (fun i => match index rev_ i with Some b => b =? c_dot | None => false end)
    (seqZ 0 (len rev_)) ++ [len rev_].

Fixpoint scan_boundaries (e : Engine) (rev_ : list Z) (ends : list Z) (block : option Z)
  : option Scan :=
  match ends with
  | [] => Some (Continue block)
  | end_ :: rest =>
      key ← slice rev_ 0 end_;
      ids ← equal_range (en_subtree e) key;
      s ← scan_ids e ids block;
      match s with
      | Found id => Some (Found id)
      | Continue block => scan_boundaries e rev_ rest block
      end
  end.

Fixpoint scan_wildcards (e : Engine) (name : list Z) (idxs : list Z) (block : option Z)
  : option Scan :=
  match idxs with
  | [] => Some (Continue block)
  | idx :: rest =>
      w ← index (en_wildcards e) idx;
      s ← (if wildcard_matches (we_expr w) name (we_include_subdomains w)
           then consider e (we_rule w) block else Some (Continue block));
      match s with
      | Found id => Some (Found id)
      | Continue block => scan_wildcards e name rest block
      end
  end.

(** The bucket loop over the label suffixes; [fuel] bounds the labels. *)
Fixpoint scan_buckets (fuel : nat) (e : Engine) (name suffix : list Z) (block : option Z)
  : option Scan :=
  match fuel with
  | O => Some (Continue block)
  | S fuel =>
      s ← scan_wildcards e name (default [] (en_wildcard_buckets e !! suffix)) block;
      match s with
      | Found id => Some (Found id)
      | Continue block =>
          match find c_dot suffix with
          | Some dot => scan_buckets fuel e name (drop (dot + 1) suffix) block
          | None => Some (Continue block)
          end
      end
  end.

(** [Engine::matched] *)
Definition matched (e : Engine) (id : Z) : option (Z * MatchedRule) :=
  let s := en_store e in
  except ← is_except s id;
  off ← index (st_span_off s) id;
  l ← index (st_span_len s) id;
  let at_ := if (except : bool) then lit "@@" else [] in
  form ← store_form s id;
  text ←
    (if form =? FORM_SUBTREE then
       key ← slice (ki_arena (en_subtree e)) off (off + l);
       r ← reversed key;
       domain ← from_utf8 r;
       Some (at_ ++ lit "||" ++ domain ++ lit "^")
     else if is_exact_form form then
       key ← slice (ki_arena (en_exact e)) off (off + l);
       domain ← from_utf8 key;
       Some (if form =? FORM_EXACT then if (except : bool) then lit "@@" ++ domain else domain
             else if form =? FORM_EXACT_CARET then at_ ++ domain ++ lit "^"
             else lit "0.0.0.0 " ++ domain)
     else str_slice (st_verbatim s) off (off + l));
  list_ ← index (st_lists s) id;
  line ← index (st_lines s) id;
  Some (list_, mkMatched (if (except : bool) then Except else Block) text line).

Definition except_verdict (e : Engine) (id : Z) : option Verdict :=
  '(list_, rule) ← matched e id; Some (VExcept list_ rule).

(** The query name as the matcher sees it. *)
Definition query_name (name : list Z) : list Z :=
  let lowered := if existsb is_ascii_uppercase name then to_ascii_lowercase name else name in
  default lowered (strip_suffix [c_dot] lowered).

(** [Engine::verdict] *)
Definition verdict (e : Engine) (name : list Z) : option Verdict :=
  let name := query_name name in
  if (len name =? 0) || (253 <? len name) then Some VNoMatch else
  ids ← equal_range (en_exact e) name;
  s ← scan_ids e ids None;
  match s with
  | Found id => except_verdict e id
  | Continue block =>
      rev_ ← reversed name;
      s ← scan_boundaries e rev_ (boundaries rev_) block;
      match s with
      | Found id => except_verdict e id
      | Continue block =>
          s ← (match en_wildcards e with
               | [] => Some (Continue block)
               | _ =>
                   s ← scan_buckets (S (length name)) e name name block;
                   match s with
                   | Found id => Some (Found id)
                   | Continue block => scan_wildcards e name (en_wildcard_unanchored e) block
                   end
               end);
          match s with
          | Found id => except_verdict e id
          | Continue None => Some VNoMatch
          | Continue (Some id) => '(list_, rule) ← matched e id; Some (VBlock list_ rule)
          end
      end
  end.

(** ** Builder ([EngineBuilder] of lib.rs) *)

(** [add_list]: parsed rules, one by one. *)
Definition add_list (e : Engine) (rules : list Rule) : option (Z * Engine) :=
  '(index_, e) ← begin_list e;
  e ← fold_left (fun e r => e ← e; add_rule e (from_rule r)) rules (Some e);
  Some (index_, e).

(** [add_list_text]: the rule callback counts the rule and adds it; a panic
    in it ends the run. *)
Definition add_text_sink (st : Z * option Engine) (r : RuleRef) : Z * option Engine :=
  (fst st + 1, e ← snd st; add_rule e r).

Definition add_list_text (e : Engine) (txt : list Z) : option (AddedList * Engine) :=
  '(index_, e) ← begin_list e;
  let '((rules, e), issues) := parse_list_streamed add_text_sink txt (0, Some e) [] in
  e ← e;
  Some (mkAdded index_ rules issues, e).

(** [EngineBuilder::new] to [build] over the texts of the lists in order. *)
Definition build_texts (txts : list (list Z)) : option Engine :=
  e ← fold_left (fun e t => e ← e; '(_, e) ← add_list_text e t; Some e) txts (Some engine_default);
  finish e.
End Build.

(** A concrete sort, for running the model. *)
#[export] Instance key_le_dec : forall x y, Decision (key_le x y).
Proof. intros x y. unfold key_le. apply _. Defined.
