(* ===== verification/KeyIndexSpec.v ===== *)
(** * KeyIndexSpec: the key indexes are sorted multimaps

    The byte order, the sort instance, the specification of
    [partition_point], and the refinement of a [KeyIndex] (arena, offsets,
    lengths, rule ids) to the list of its entries: [ki_rep]. *)
From S2P Require Import Prelude Text Engine.

(** ** Specification: the entries an index stands for *)
Definition ki_rep (ki : KeyIndex) (ents : list (list Z * Z)) : Prop :=
  length (ki_offs ki) = length ents
  /\ ki_lens ki = map (fun e => len (fst e)) ents
  /\ ki_rules ki = map snd ents
  /\ forall i k r, ents !! i = Some (k, r) ->
       exists off, ki_offs ki !! i = Some off
         /\ slice (ki_arena ki) off (off + len k) = Some k.

(** The entries under one key, in index order. *)
Definition entries_at (needle : list Z) (ents : list (list Z * Z)) : list Z :=
  map snd (filter (fun e => fst e = needle) ents).

(** Relocation of a list of (key, rule, new offset). *)
Fixpoint relocate_all {St} (relocate : St -> Z -> Z -> option St)
  (locs : list (list Z * Z * Z)) (st : St) : option St :=
  match locs with
  | [] => Some st
  | (_, rule, off) :: rest => st ← relocate st rule off; relocate_all relocate rest st
  end.

Definition key_bytes (ents : list (list Z * Z)) : Z :=
  foldr (fun e n => len (fst e) + n) 0 ents.

(** A step that panics only where an arena is full. *)
Definition or_full {A} (o : option A) (full : Prop) (P : A -> Prop) : Prop :=
  o = None /\ full \/ exists a, o = Some a /\ P a.

Lemma or_full_bind {A C} (o : option A) (f : A -> option C) full (P : A -> Prop) (Q : C -> Prop) :
  or_full o full P -> (forall a, P a -> or_full (f a) full Q) -> or_full (o ≫= f) full Q.
Proof. intros [(-> & Hf)|(a & -> & Ha)] Hk; [by left|]. cbn. by apply Hk. Qed.

Lemma or_full_weaken {A} (o : option A) (full full' : Prop) (P Q : A -> Prop) :
  (full -> full') -> (forall a, P a -> Q a) -> or_full o full P -> or_full o full' Q.
Proof. intros Hf HP [(-> & H)|(a & -> & H)]; [left; auto|right; eauto]. Qed.

Lemma or_full_room {A} (o : option A) full P : or_full o full P -> ~ full -> exists a, o = Some a /\ P a.
Proof. by intros [(_ & Hf)|Ha] Hn. Qed.
Lemma or_full_built {A} (o : option A) full P a : or_full o full P -> o = Some a -> P a.
Proof. by intros [(-> & _)|(b & -> & Hb)] [= ->]. Qed.

(** ** Byte order *)
Lemma bytes_ltb_irrefl a : bytes_ltb a a = false.
Proof. induction a as [|x a IH]; cbn; [done|]. by rewrite Z.ltb_irrefl. Qed.

Lemma bytes_ltb_trans a b c : bytes_ltb a b = true -> bytes_ltb b c = true -> bytes_ltb a c = true.
Proof.
  revert b c. induction a as [|x a IH]; intros [|y b] [|z c]; cbn; try done.
  destruct (Z.ltb_spec x y), (Z.ltb_spec y x), (Z.ltb_spec y z), (Z.ltb_spec z y),
    (Z.ltb_spec x z), (Z.ltb_spec z x); try lia; try done. apply IH.
Qed.

Lemma bytes_ltb_antisym a b : bytes_ltb a b = false -> bytes_ltb b a = false -> a = b.
Proof.
  revert b. induction a as [|x a IH]; intros [|y b]; cbn; try done.
  destruct (Z.ltb_spec x y), (Z.ltb_spec y x); try lia; try done.
  intros H1 H2. f_equal; [lia|by apply IH].
Qed.

Lemma bytes_ltb_asym a b : bytes_ltb a b = true -> bytes_ltb b a = false.
Proof.
  intros H. apply not_true_iff_false. intros H'. pose proof (bytes_ltb_trans _ _ _ H H') as E.
  by rewrite bytes_ltb_irrefl in E.
Qed.

(** [a <= b < c] gives [a < c]; as negations: not (b < a), b < c. *)
Lemma bytes_leb_ltb_trans a b c : bytes_ltb b a = false -> bytes_ltb b c = true -> bytes_ltb a c = true.
Proof.
  intros H1 H2. destruct (bytes_ltb a b) eqn:E.
  - by eapply bytes_ltb_trans.
  - by rewrite (bytes_ltb_antisym _ _ E H1).
Qed.

#[export] Instance key_le_trans : Transitive key_le.
Proof.
  intros x y z H1 H2. unfold key_le in *. apply not_true_iff_false. intros H.
  pose proof (bytes_leb_ltb_trans _ _ _ H2 H) as E. congruence.
Qed.

#[export] Instance key_le_total : Total key_le.
Proof.
  intros x y. unfold key_le. destruct (bytes_ltb (fst y) (fst x)) eqn:E; [|by left].
  right. by apply bytes_ltb_asym.
Qed.

(** A sort the model can run. *)
Definition merge_sort_keys : UnstableSort := {|
  sort_unstable := merge_sort key_le;
  sort_unstable_perm := fun l => merge_sort_Permutation key_le l;
  sort_unstable_sorted := fun l => StronglySorted_merge_sort key_le l
|}.

(** ** Partition point *)
Lemma partition_loop_spec fuel (pred : Z -> option bool) (f : Z -> bool) lo hi n :
  0 <= lo <= hi -> hi <= n -> (Z.to_nat (hi - lo) <= fuel)%nat ->
  (forall i, 0 <= i < n -> pred i = Some (f i)) ->
  (forall i j, 0 <= i < j -> j < n -> f j = true -> f i = true) ->
  (forall i, 0 <= i < lo -> f i = true) -> (forall i, hi <= i < n -> f i = false) ->
  exists p, partition_loop fuel pred lo hi = Some p /\ 0 <= p <= n
    /\ (forall i, 0 <= i < p -> f i = true) /\ (forall i, p <= i < n -> f i = false).
Proof.
  revert lo hi. induction fuel as [|fuel IH]; intros lo hi Hlo Hhi Hfuel Hpred Hmono Hl Hh;
    cbn [partition_loop].
  { exists lo. repeat split; try lia; [done|]. intros i Hi. apply Hh. lia. }
  destruct (Z.ltb_spec lo hi); [|exists lo; repeat split; try lia; [done|]; intros i Hi; apply Hh; lia].
  cbn zeta. set (mid := lo + (hi - lo) / 2).
  assert (Hmid : lo <= mid < hi).
  { subst mid. pose proof (Z.div_pos (hi - lo) 2). pose proof (Z.div_lt (hi - lo) 2). lia. }
  rewrite Hpred by lia. cbn [mbind option_bind]. destruct (f mid) eqn:E.
  - apply IH; try done; try lia. intros i Hi. destruct (decide (i = mid)) as [->|]; [done|].
    apply (Hmono i mid); [lia..|done].
  - apply IH; try done; try lia. intros i Hi. destruct (decide (i = mid)) as [->|]; [done|].
    destruct (f i) eqn:Ei; [|done]. rewrite (Hmono mid i) in E; [done|lia..|done].
Qed.

Lemma partition_point_spec (pred : Z -> option bool) (f : Z -> bool) n :
  0 <= n ->
  (forall i, 0 <= i < n -> pred i = Some (f i)) ->
  (forall i j, 0 <= i < j -> j < n -> f j = true -> f i = true) ->
  exists p, partition_point n pred = Some p /\ 0 <= p <= n
    /\ (forall i, 0 <= i < p -> f i = true) /\ (forall i, p <= i < n -> f i = false).
Proof.
  intros Hn Hp Hm. unfold partition_point. apply (partition_loop_spec _ _ _ _ _ n); try done; lia.
Qed.

(** ** Representation *)
Lemma ki_key_rep ki ents i k r :
  ki_rep ki ents -> ents !! i = Some (k, r) -> ki_key ki (Z.of_nat i) = Some k.
Proof.
  intros (Ho & Hl & Hr & H) Hi. destruct (H i k r Hi) as (off & Hoff & Hs).
  unfold ki_key. rewrite !index_nat, Hoff. cbn [mbind option_bind].
  rewrite Hl, list_lookup_fmap, Hi. done.
Qed.

Lemma ki_rule_rep ki ents i k r :
  ki_rep ki ents -> ents !! i = Some (k, r) -> index (ki_rules ki) (Z.of_nat i) = Some r.
Proof. intros (_ & _ & Hr & _) Hi. by rewrite index_nat, Hr, list_lookup_fmap, Hi. Qed.

Lemma ki_len_rep ki ents i k r :
  ki_rep ki ents -> ents !! i = Some (k, r) -> index (ki_lens ki) (Z.of_nat i) = Some (len k).
Proof. intros (_ & Hl & _ & _) Hi. by rewrite index_nat, Hl, list_lookup_fmap, Hi. Qed.

Lemma ki_rep_len ki ents : ki_rep ki ents -> len (ki_rules ki) = len ents.
Proof. intros (_ & _ & Hr & _). unfold len. rewrite Hr. by rewrite length_fmap. Qed.

Lemma ki_rep_default : ki_rep key_index_default [].
Proof. repeat split. intros i k r H. by rewrite lookup_nil in H. Qed.

(** Growing an index by one entry whose key is already in the arena. *)
Lemma ki_rep_snoc ki ents arena' suffix k r off :
  ki_rep ki ents -> arena' = ki_arena ki ++ suffix ->
  slice arena' off (off + len k) = Some k ->
  ki_rep (mkIndex arena' (ki_offs ki ++ [off]) (ki_lens ki ++ [len k]) (ki_rules ki ++ [r]))
    (ents ++ [(k, r)]).
Proof.
  intros (Ho & Hl & Hr & H) -> Hs. repeat split; cbn [ki_offs ki_lens ki_rules ki_arena].
  - rewrite !length_app. cbn. lia.
  - by rewrite Hl, map_app.
  - by rewrite Hr, map_app.
  - intros i k' r' Hi. destruct (decide (i < length ents)%nat) as [Hlt|Hge].
    + rewrite lookup_app_l in Hi by done. destruct (H i k' r' Hi) as (o & Hoff & Hs').
      exists o. rewrite lookup_app_l by lia. split; [done|]. by apply slice_app_l.
    + rewrite lookup_app_r in Hi by lia.
      destruct (i - length ents)%nat as [|?] eqn:E; [|done]. injection Hi as <- <-.
      exists off. rewrite lookup_app_r by lia. rewrite Ho, E. done.
Qed.

Lemma ki_insert_rep ki ents key rule :
  ki_rep ki ents -> len key <= u8_max ->
  or_full (ki_insert ki key rule) (u32_max < len (ki_arena ki))
    (fun ki' => ki_rep ki' (ents ++ [(key, rule)]) /\ ki_arena ki' = ki_arena ki ++ key).
Proof.
  intros H Hk. unfold ki_insert. pose proof (len_nonneg (ki_arena ki)). pose proof (len_nonneg key).
  destruct (decide (len (ki_arena ki) <= u32_max)); [right|left; rewrite (try_from_None u32_max) by lia; split; [done|lia]].
  rewrite !try_from_Some by lia. cbn [mbind option_bind]. eexists. split; [done|]. split; [|done].
  eapply ki_rep_snoc; [done|done|].
  rewrite <- (app_nil_r (ki_arena ki ++ key)), <- app_assoc. apply slice_app_mid.
Qed.

(** ** Finishing *)

(** One entry of the sorted order names an entry of the old index. *)
Definition order_ok (ents : list (list Z * Z)) (o : list Z * Z) (e : list Z * Z) : Prop :=
  exists i, snd o = Z.of_nat i /\ ents !! i = Some e /\ fst o = fst e.

(** A key with the place it takes in the rebuilt arena: at its end, or
    where the same key already is. *)
Definition landed (arena k : list Z) (x : Z * list Z * option (list Z * Z)) : Prop :=
  exists sfx, snd (fst x) = arena ++ sfx
    /\ slice (arena ++ sfx) (fst (fst x)) (fst (fst x) + len k) = Some k
    /\ (forall pk o, snd x = Some (pk, o) -> slice (arena ++ sfx) o (o + len pk) = Some pk)
    /\ len sfx <= len k.

Lemma lands_new arena k :
  or_full (off ← try_from u32_max (len arena); Some (off, arena ++ k, Some (k, off))) (u32_max < len arena) (landed arena k).
Proof.
  pose proof (len_nonneg arena). destruct (decide (len arena <= u32_max)); [right|left; rewrite (try_from_None u32_max) by lia; split; [done|lia]].
  rewrite try_from_Some by lia. eexists. split; [done|]. exists k. cbn [fst snd].
  assert (Hs : slice (arena ++ k) (len arena) (len arena + len k) = Some k).
  { rewrite <- (app_nil_r (arena ++ k)), <- app_assoc. apply slice_app_mid. }
  repeat split; [done| |lia]. by intros pk o [= <- <-].
Qed.

Lemma finish_loop_spec {St} (relocate : St -> Z -> Z -> option St) ki ents order oents new nents prev :
  ki_rep ki ents -> Forall2 (order_ok ents) order oents ->
  ki_rep new nents ->
  (forall pk off, prev = Some (pk, off) -> slice (ki_arena new) off (off + len pk) = Some pk) ->
  (forall st, finish_loop relocate ki order new prev st = None) /\ u32_max < len (ki_arena new) + key_bytes oents
  \/ exists new' locs, ki_rep new' (nents ++ oents)
    /\ map (fun l => (fst (fst l), snd (fst l))) locs = oents
    /\ Forall (fun l => slice (ki_arena new') (snd l) (snd l + len (fst (fst l))) = Some (fst (fst l))) locs
    /\ (exists sfx, ki_arena new' = ki_arena new ++ sfx)
    /\ forall st, finish_loop relocate ki order new prev st
         = (st' ← relocate_all relocate locs st; Some (new', st')).
Proof.
  intros Hki Hord. revert new nents prev. induction Hord as [|o [k r] order oents Ho Hord IH];
    intros new nents prev Hnew Hprev.
  { right. exists new, []. rewrite app_nil_r. repeat split; try done; try apply Hnew.
    exists []. by rewrite app_nil_r. }
  destruct o as [k' i']. destruct Ho as (i & Hi & Hlook & Hk). cbn in Hi, Hk. subst k' i'.
  cbn [key_bytes foldr fst]. change (foldr _ 0 oents) with (key_bytes oents).
  pose proof (len_nonneg (ki_arena new)) as Ha0. pose proof (len_nonneg k) as Hk0.
  assert (Hkb : 0 <= key_bytes oents).
  { clear. induction oents as [|[k r] o IH]; cbn; [done|]. fold (key_bytes o).
    pose proof (len_nonneg k). change (foldr _ 0 o) with (key_bytes o). lia. }
  (* where this key lands *)
  assert (Hstep : or_full (match prev with
    | Some (pk, off) =>
        if str_eqb pk k then Some (off, ki_arena new, prev)
        else off ← try_from u32_max (len (ki_arena new));
             Some (off, ki_arena new ++ k, Some (k, off))
    | None => off ← try_from u32_max (len (ki_arena new));
              Some (off, ki_arena new ++ k, Some (k, off))
    end) (u32_max < len (ki_arena new)) (landed (ki_arena new) k)).
  { pose proof (lands_new (ki_arena new) k) as Hland.
    destruct prev as [[pk off]|]; [|done]. destruct (str_eqb pk k) eqn:E; [|done].
    apply str_eqb_eq in E as ->. right. eexists. split; [done|]. exists []. rewrite app_nil_r, len_nil.
    repeat split; auto; lia. }
  destruct Hstep as [(Heq & Hfull)|([[off arena] prev'] & Heq & sfx & Ea & Hs & Hprev' & Hsfx)].
  { left. split; [|lia]. intros st. cbn [finish_loop]. by rewrite Heq. }
  cbn [fst snd] in Ea, Hs, Hprev'. subst arena.
  set (new1 := mkIndex (ki_arena new ++ sfx) (ki_offs new ++ [off]) (ki_lens new ++ [len k])
                 (ki_rules new ++ [r])).
  assert (Hone : forall st, finish_loop relocate ki ((k, Z.of_nat i) :: order) new prev st
    = (st ← relocate st r off; finish_loop relocate ki order new1 prev' st)).
  { intros st. cbn [finish_loop]. rewrite Heq. cbn [mbind option_bind].
    by rewrite (ki_len_rep _ _ _ _ _ Hki Hlook), (ki_rule_rep _ _ _ _ _ Hki Hlook). }
  destruct (IH new1 (nents ++ [(k, r)]) prev') as [(Hnone & Hfull)|(new' & locs & Hrep & Hlocs & Hsl & (s2 & Hs2) & Hrun)].
  { by eapply ki_rep_snoc. }
  { done. }
  { left. split; [intros st; rewrite Hone; destruct (relocate st r off); [apply Hnone|done]|].
    cbn [new1 ki_arena] in Hfull. rewrite len_app in Hfull. lia. }
  right. exists new', ((k, r, off) :: locs). rewrite <- app_assoc in Hrep. repeat split; try apply Hrep.
  - cbn. by rewrite Hlocs.
  - constructor; [|done]. cbn [fst snd]. rewrite Hs2. apply slice_app_l. exact Hs.
  - exists (sfx ++ s2). rewrite Hs2. cbn [new1 ki_arena]. by rewrite app_assoc.
  - intros st. rewrite Hone. cbn [relocate_all]. destruct (relocate st r off) as [st1|]; [|done].
    cbn [mbind option_bind]. apply Hrun.
Qed.

Section Finish.
Context `{UnstableSort}.

(** The keyed positions [finish] sorts. *)
Definition keyed (ents : list (list Z * Z)) : list (list Z * Z) :=
  imap (fun i e => (fst e, Z.of_nat i)) ents.

Lemma keyed_mapM ki ents :
  ki_rep ki ents ->
  mapM (fun i => k ← ki_key ki i; Some (k, i)) (seqZ 0 (len ents)) = Some (keyed ents).
Proof.
  intros Hrep. apply mapM_Some, Forall2_same_length_lookup.
  split; [unfold keyed; rewrite length_imap, length_seqZ; unfold len; lia|].
  intros i z [k j] Hz Hk. unfold keyed in Hk. rewrite list_lookup_imap in Hk.
  apply fmap_Some in Hk as ([k' r] & He & [= -> ->]).
  apply lookup_seqZ in Hz as [-> _]. cbn [fst]. rewrite Z.add_0_l.
  by rewrite (ki_key_rep _ _ _ _ _ Hrep He).
Qed.

(** Reading a sorted position back as an entry. *)
Definition entry_of (ents : list (list Z * Z)) (o : list Z * Z) : list Z * Z :=
  (fst o, default 0 (snd <$> ents !! Z.to_nat (snd o))).

Lemma keyed_entries ents : map (entry_of ents) (keyed ents) = ents.
Proof.
  apply list_eq. intros i. unfold keyed. rewrite list_lookup_fmap, list_lookup_imap.
  destruct (ents !! i) as [[k r]|] eqn:E; cbn; [|done].
  unfold entry_of. cbn. by rewrite Nat2Z.id, E.
Qed.

Lemma keyed_order_ok ents l :
  l ≡ₚ keyed ents -> Forall2 (order_ok ents) l (map (entry_of ents) l).
Proof.
  intros Hp. apply Forall2_fmap_r, Forall_Forall2_diag, Forall_forall. intros [k z] Hin.
  rewrite Hp in Hin. unfold keyed in Hin. apply elem_of_lookup_imap in Hin as (i & [k' r] & [= -> ->] & Hi).
  exists i. split; [done|]. split; [|done]. unfold entry_of. cbn. by rewrite Nat2Z.id, Hi.
Qed.

Lemma key_bytes_perm l l' : l ≡ₚ l' -> key_bytes l = key_bytes l'.
Proof.
  unfold key_bytes. induction 1; cbn; lia.
Qed.

Lemma ki_finish_spec {St} (relocate : St -> Z -> Z -> option St) ki ents :
  ki_rep ki ents ->
  (forall st, ki_finish relocate ki st = None) /\ (u32_max < len ents \/ u32_max < key_bytes ents)
  \/ exists ki' ents' locs, ki_rep ki' ents' /\ ents' ≡ₚ ents /\ StronglySorted key_le ents'
    /\ map (fun l => (fst (fst l), snd (fst l))) locs = ents'
    /\ Forall (fun l => slice (ki_arena ki') (snd l) (snd l + len (fst (fst l))) = Some (fst (fst l))) locs
    /\ forall st, ki_finish relocate ki st = (st' ← relocate_all relocate locs st; Some (ki', st')).
Proof.
  intros Hrep. set (sorted := sort_unstable (keyed ents)). pose proof (len_nonneg ents).
  destruct (decide (len ents <= u32_max)).
  2:{ left. split; [|lia]. intros st. unfold ki_finish. by rewrite (ki_rep_len _ _ Hrep), (try_from_None u32_max) by lia. }
  assert (Hrun0 : forall st, ki_finish relocate ki st = finish_loop relocate ki sorted key_index_default None st).
  { intros st. unfold ki_finish. rewrite (ki_rep_len _ _ Hrep), try_from_Some by lia. cbn [mbind option_bind].
    by rewrite (keyed_mapM _ _ Hrep). }
  assert (Hperm : map (entry_of ents) sorted ≡ₚ ents).
  { rewrite <- (keyed_entries ents) at 2. apply Permutation_map, sort_unstable_perm. }
  destruct (finish_loop_spec relocate ki ents sorted (map (entry_of ents) sorted)
              key_index_default [] None) as [(Hnone & Hfull)|(ki' & locs & Hrep' & Hlocs & Hsl & _ & Hrun)].
  - done.
  - apply keyed_order_ok, sort_unstable_perm.
  - apply ki_rep_default.
  - done.
  - left. split; [intros st; by rewrite Hrun0|]. right.
    cbn [key_index_default ki_arena] in Hfull. rewrite len_nil, (key_bytes_perm _ _ Hperm) in Hfull. lia.
  - right. exists ki', (map (entry_of ents) sorted), locs. cbn [app] in Hrep'.
    repeat split; try apply Hrep'; try done.
    + assert (Hs : StronglySorted key_le sorted) by apply sort_unstable_sorted.
      clear -Hs. induction Hs as [|o l Hl IH Hall]; cbn; [constructor|]. constructor; [done|].
      apply List.Forall_map. eapply Forall_impl; [exact Hall|]. intros p Hp. exact Hp.
    + intros st. rewrite Hrun0. apply Hrun.
Qed.
End Finish.

(** ** Lookup *)

Lemma sorted_lookup_le ents i j x y :
  StronglySorted key_le ents -> (i < j)%nat -> ents !! i = Some x -> ents !! j = Some y -> key_le x y.
Proof.
  intros Hs. revert i j. induction Hs as [|e l Hl IH Hall]; intros i j Hij Hi Hj; [done|].
  destruct j as [|j]; [lia|]. cbn in Hj. destruct i as [|i]; cbn in Hi.
  - injection Hi as <-. rewrite Forall_forall in Hall. apply Hall. by eapply list_elem_of_lookup_2.
  - apply (IH i j); [lia|done|done].
Qed.

(** Past the entries below the needle, the run of equal keys is all of it. *)
Lemma take_equal_spec ki ents needle sfx :
  ki_rep ki ents -> StronglySorted key_le sfx ->
  Forall (fun e => bytes_ltb (fst e) needle = false) sfx ->
  forall pfx, ents = pfx ++ sfx ->
  take_equal ki needle (seqZ (len pfx) (len sfx)) = Some (entries_at needle sfx).
Proof.
  intros Hrep Hs. induction Hs as [|[k r] l Hl IH Hall]; intros Hge pfx He.
  { done. }
  inversion Hge as [|? ? Hk Hge']; subst x l0. cbn in Hk.
  assert (Hi : ents !! length pfx = Some (k, r)).
  { rewrite He, lookup_app_r by lia. by rewrite Nat.sub_diag. }
  rewrite len_cons. rewrite seqZ_cons by (pose proof (len_nonneg l); lia).
  pose proof (ki_key_rep _ _ _ _ _ Hrep Hi : ki_key ki (len pfx) = Some k) as Hkey.
  pose proof (ki_rule_rep _ _ _ _ _ Hrep Hi : index (ki_rules ki) (len pfx) = Some r) as Hrule.
  cbn [take_equal]. rewrite Hkey.
  cbn [mbind option_bind]. destruct (str_eqb k needle) eqn:E.
  - apply str_eqb_eq in E as ->. rewrite Hrule. cbn [mbind option_bind].
    specialize (IH Hge' (pfx ++ [(needle, r)])). rewrite <- app_assoc in IH.
    specialize (IH He). rewrite len_app, len_cons, len_nil in IH.
    replace (Z.succ (len pfx)) with (len pfx + (1 + 0)) by lia.
    replace (Z.pred (1 + len l)) with (len l) by lia. rewrite IH. cbn [mbind option_bind].
    unfold entries_at. rewrite filter_cons. cbn [fst]. by rewrite decide_True.
  - f_equal. symmetry. unfold entries_at. apply str_eqb_neq in E.
    rewrite filter_cons. cbn [fst]. rewrite decide_False by done.
    replace (filter _ l) with ([] : list (list Z * Z)); [done|]. symmetry.
    apply filter_none. apply Forall_forall. intros [k' r'] Hin. cbn. intros ->.
    rewrite Forall_forall in Hall. specialize (Hall _ Hin). unfold key_le in Hall. cbn in Hall.
    destruct E. by apply bytes_ltb_antisym.
Qed.

Lemma equal_range_spec ki ents needle :
  ki_rep ki ents -> StronglySorted key_le ents ->
  equal_range ki needle = Some (entries_at needle ents).
Proof.
  intros Hrep Hs. unfold equal_range. cbn zeta. rewrite (ki_rep_len _ _ Hrep).
  pose proof (len_nonneg ents) as Hn.
  set (f := fun i => match ents !! Z.to_nat i with Some e => bytes_ltb (fst e) needle | None => false end).
  assert (Hlook : forall i, 0 <= i < len ents -> exists e, ents !! Z.to_nat i = Some e).
  { intros i Hi. apply lookup_lt_is_Some. unfold len in Hi. lia. }
  destruct (partition_point_spec (fun i => k ← ki_key ki i; Some (bytes_ltb k needle)) f (len ents))
    as (p & Hp & Hrange & Hlt & Hge); [done| | |].
  { intros i Hi. destruct (Hlook i Hi) as ([k r] & E). unfold f. rewrite E. cbn [fst].
    replace i with (Z.of_nat (Z.to_nat i)) at 1 by lia. by rewrite (ki_key_rep _ _ _ _ _ Hrep E). }
  { intros i j Hij Hj. unfold f. destruct (Hlook i ltac:(lia)) as ([k r] & E).
    destruct (Hlook j ltac:(lia)) as ([k' r'] & E'). rewrite E, E'. cbn [fst]. intros Hk'.
    eapply bytes_leb_ltb_trans; [|exact Hk'].
    apply (sorted_lookup_le ents (Z.to_nat i) (Z.to_nat j) (k, r) (k', r') Hs); [lia|done|done]. }
  rewrite Hp. cbn [mbind option_bind].
  set (pfx := take (Z.to_nat p) ents). set (sfx := drop (Z.to_nat p) ents).
  assert (He : ents = pfx ++ sfx) by (symmetry; apply take_drop).
  assert (Hpl : len pfx = p).
  { unfold pfx, len. rewrite length_take. unfold len in Hrange. lia. }
  assert (Hsl : len ents - p = len sfx).
  { rewrite He, len_app, Hpl. lia. }
  rewrite Hsl. rewrite <- Hpl at 1.
  assert (Hsort : StronglySorted key_le sfx).
  { rewrite He in Hs. clear -Hs. induction pfx as [|e l IH]; [done|]. inversion Hs. by apply IH. }
  rewrite (take_equal_spec ki ents needle sfx); try done.
  - f_equal. unfold entries_at. rewrite He at 1. rewrite filter_app, map_app.
    replace (filter _ pfx) with ([] : list (list Z * Z)); [done|]. symmetry. apply filter_none.
    apply Forall_forall. intros [k r] Hin. cbn. intros ->.
    apply list_elem_of_lookup in Hin as (i & Hi).
    assert (Hi' : (i < Z.to_nat p)%nat).
    { apply lookup_lt_Some in Hi. unfold pfx in Hi. rewrite length_take in Hi. lia. }
    specialize (Hlt (Z.of_nat i) ltac:(lia)). unfold f in Hlt. rewrite Nat2Z.id in Hlt.
    unfold pfx in Hi. rewrite lookup_take_lt in Hi by done. rewrite Hi in Hlt. cbn in Hlt.
    by rewrite bytes_ltb_irrefl in Hlt.
  - apply Forall_forall. intros [k r] Hin. cbn.
    apply list_elem_of_lookup in Hin as (i & Hi). unfold sfx in Hi. rewrite lookup_drop in Hi.
    assert (Hb : (Z.to_nat p + i < length ents)%nat) by (by eapply lookup_lt_Some).
    specialize (Hge (Z.of_nat (Z.to_nat p + i))). unfold f in Hge. rewrite Nat2Z.id, Hi in Hge.
    apply Hge. unfold len. lia.
Qed.

(** ** Properties *)

(** Inserting entries one by one into an empty index. *)
Definition insert_all (ents : list (list Z * Z)) : option KeyIndex :=
  fold_left (fun ki e => ki ← ki; ki_insert ki (fst e) (snd e)) ents (Some key_index_default).

Lemma insert_all_rep ents : forall ki done,
  ki_rep ki done -> len (ki_arena ki) + key_bytes ents <= u32_max ->
  Forall (fun e => len (fst e) <= u8_max) ents ->
  exists ki', fold_left (fun ki e => ki ← ki; ki_insert ki (fst e) (snd e)) ents (Some ki) = Some ki'
    /\ ki_rep ki' (done ++ ents).
Proof.
  induction ents as [|[k r] ents IH]; intros ki done Hrep Hb Hk; cbn [fold_left fst snd].
  { exists ki. by rewrite app_nil_r. }
  apply Forall_cons in Hk as [Hk1 Hk]. cbn [fst] in Hk1. cbn [key_bytes foldr fst] in Hb. fold (key_bytes ents) in Hb.
  assert (0 <= key_bytes ents).
  { clear. induction ents as [|[k r] o IH]; cbn; [reflexivity|]. fold (key_bytes o). pose proof (len_nonneg k). lia. }
  pose proof (len_nonneg k).
  destruct (or_full_room _ _ _ (ki_insert_rep ki done k r Hrep Hk1)) as (ki1 & E & Hrep1 & Ha); [lia|].
  cbn [mbind option_bind]. rewrite E. destruct (IH ki1 (done ++ [(k, r)]) Hrep1) as (ki2 & E2 & Hrep2).
  { rewrite Ha, len_app. lia. } { done. }
  exists ki2. split; [done|]. by rewrite <- app_assoc in Hrep2.
Qed.

(** A key index is a multimap: after inserting any entries that fit
    its arena and finishing it (whatever order the unstable sort leaves
    equal keys in), looking a key up gives exactly the rule ids inserted
    under it, and nothing panics. *)
Theorem key_index_is_multimap `{UnstableSort} ents needle :
  Forall (fun e => len (fst e) <= u8_max) ents -> len ents <= u32_max -> key_bytes ents <= u32_max ->
  exists ki ki' ids, insert_all ents = Some ki
    /\ ki_finish (fun s _ _ => Some s) ki tt = Some (ki', tt)
    /\ equal_range ki' needle = Some ids /\ ids ≡ₚ entries_at needle ents.
Proof.
  intros Hk Hn Hb. destruct (insert_all_rep ents key_index_default [] ki_rep_default) as (ki & E & Hrep).
  { cbn. unfold len. cbn. lia. } { done. }
  destruct (ki_finish_spec (fun (s : unit) _ _ => Some s) ki ents Hrep) as
    [(_ & Hfull)|(ki' & ents' & locs & Hrep' & Hp & Hs & _ & _ & Hrun)]; [lia|].
  exists ki, ki', (entries_at needle ents'). split; [done|]. split; [|split].
  - rewrite Hrun. replace (relocate_all _ locs tt) with (Some tt); [done|].
    clear. induction locs as [|[[k r] o] locs IH]; [done|]. cbn. apply IH.
  - by apply equal_range_spec.
  - unfold entries_at. by rewrite Hp.
Qed.

Lemma key_index_is_multimap_witness :
  exists ki ki' ids, insert_all [(lit "b", 7); (lit "a", 8); (lit "b", 9)] = Some ki
    /\ @ki_finish merge_sort_keys _ (fun s _ _ => Some s) ki tt = Some (ki', tt)
    /\ equal_range ki' (lit "b") = Some ids
    /\ ids ≡ₚ entries_at (lit "b") [(lit "b", 7); (lit "a", 8); (lit "b", 9)].
Proof.
  apply (@key_index_is_multimap merge_sort_keys).
  - repeat constructor; vm_compute; intros H; discriminate H.
  - vm_compute. intros H; discriminate H.
  - vm_compute. intros H; discriminate H.
Defined.
