(* ===== verification/LabelsSpec.v ===== *)
(** * LabelsSpec: label reversal and label-boundary matching

    [reversed] never overruns its 256-byte buffer on a query name, is the
    join of the reversed labels, and is its own inverse on valid names; a
    reversed rule key is a label-boundary prefix of a reversed query
    exactly when the rule name is the query name or one of its parents. *)
From S2P Require Import Prelude Text FilterTypes Parse ParseSpec Engine.

(** ** Specification *)

(** The key of a subtree rule. *)
Definition rkey (d : list Z) : list Z := join c_dot (rev (split c_dot d)).

(** [||d^] covers [name]: [d] itself or a name under it. *)
Definition in_subtree (d name : list Z) : Prop :=
  name = d \/ exists p, name = p ++ c_dot :: d.

(** What the loop writes: a dot before every label but those before the
    first non-empty one. *)
Fixpoint emit (started : bool) (labels : list (list Z)) : list Z :=
  match labels with
  | [] => []
  | l :: r => (if started then [c_dot] else []) ++ l ++ emit (started || (0 <? len l)) r
  end.

Definition weight (labels : list (list Z)) : Z := foldr (fun l n => len l + 1 + n) 0 labels.

(** ** Splitting and joining *)
Lemma split_app_sep c a b : split c (a ++ c :: b) = split c a ++ split c b.
Proof.
  induction a as [|x a IH]; cbn [app split]; [by rewrite Z.eqb_refl|].
  rewrite IH. destruct (x =? c); [done|]. pose proof (split_nonempty c a).
  by destruct (split c a).
Qed.

Lemma weight_cons l r : weight (l :: r) = len l + 1 + weight r.
Proof. done. Qed.

Lemma weight_app a b : weight (a ++ b) = weight a + weight b.
Proof. unfold weight. induction a as [|l a IH]; cbn; [done|]. lia. Qed.

Lemma weight_rev l : weight (rev l) = weight l.
Proof. induction l as [|x l IH]; [done|]. cbn [rev]. rewrite weight_app, IH, !weight_cons. change (weight []) with 0. lia. Qed.

Lemma weight_nonneg l : 0 <= weight l.
Proof.
  unfold weight. induction l as [|x l IH]; cbn; [lia|]. pose proof (len_nonneg x). lia.
Qed.

Lemma weight_split c s : weight (split c s) = len s + 1.
Proof.
  induction s as [|a s IH]; [done|]. cbn [split]. rewrite len_cons. pose proof (split_nonempty c s).
  destruct (a =? c).
  - rewrite weight_cons, IH, len_nil. lia.
  - destruct (split c s) as [|w ws]; [done|]. rewrite weight_cons in *. rewrite len_cons. lia.
Qed.

Lemma emit_true labels : labels <> [] -> emit true labels = c_dot :: join c_dot labels.
Proof.
  induction labels as [|l r IH]; intros Hne; [done|]. cbn [emit app orb]. f_equal.
  destruct r as [|l' r]; [cbn; by rewrite app_nil_r|]. rewrite IH by done. done.
Qed.

Lemma emit_false l r : l <> [] -> emit false (l :: r) = join c_dot (l :: r).
Proof.
  intros Hl. cbn [emit app orb]. destruct l as [|a l]; [done|].
  replace (0 <? len (a :: l)) with true
    by (symmetry; rewrite len_cons; pose proof (len_nonneg l); apply Z.ltb_lt; lia).
  destruct r as [|l' r]; [cbn; by rewrite app_nil_r|]. rewrite emit_true by done. done.
Qed.

(** ** The loop and its buffer *)
Lemma copy_at_spec out w l :
  0 <= w -> w + len l <= len out ->
  exists out', copy_at out w l = Some out' /\ len out' = len out
    /\ take (Z.to_nat (w + len l)) out' = take (Z.to_nat w) out ++ l.
Proof.
  intros Hw Hl. pose proof (len_nonneg l). unfold copy_at. zguard. eexists. split; [done|].
  unfold len in *. rewrite !length_app, length_take, length_drop. split; [lia|].
  rewrite take_app_ge by (rewrite length_take; lia).
  rewrite length_take. f_equal. rewrite take_app_le by lia. apply take_ge. lia.
Qed.

Lemma index_set_spec {A} (l : list A) i x :
  0 <= i < len l -> index_set l i x = Some (<[Z.to_nat i := x]> l).
Proof. intros. unfold index_set. by zguard. Qed.

Lemma take_insert_succ {A} (l : list A) i x :
  0 <= i < len l -> take (Z.to_nat (i + 1)) (<[Z.to_nat i := x]> l) = take (Z.to_nat i) l ++ [x].
Proof.
  intros Hi. unfold len in Hi. replace (Z.to_nat (i + 1)) with (S (Z.to_nat i)) by lia.
  rewrite (take_S_r _ _ x) by (apply list_lookup_insert_eq; lia).
  by rewrite take_insert_ge by lia.
Qed.

Lemma reverse_labels_loop_spec labels out w :
  0 <= w -> w + weight labels <= len out ->
  exists out', reverse_labels_loop labels out w = Some (out', w + len (emit (0 <? w) labels))
    /\ len out' = len out
    /\ take (Z.to_nat (w + len (emit (0 <? w) labels))) out'
       = take (Z.to_nat w) out ++ emit (0 <? w) labels.
Proof.
  revert out w. induction labels as [|l r IH]; intros out w Hw Hsz.
  { exists out. cbn. rewrite len_nil, Z.add_0_r, app_nil_r. done. }
  rewrite weight_cons in Hsz. pose proof (len_nonneg l) as Hl0.
  pose proof (weight_nonneg r) as Hr0. cbn [reverse_labels_loop emit].
  destruct (Z.ltb_spec 0 w) as [Hpos|Hz].
  - rewrite index_set_spec by lia. cbn [mbind option_bind].
    destruct (copy_at_spec (<[Z.to_nat w := c_dot]> out) (w + 1) l) as (o1 & -> & Ho1 & Ht1);
      [lia|rewrite len_insert; lia|]. cbn [mbind option_bind].
    destruct (IH o1 (w + 1 + len l)) as (o2 & E2 & Ho2 & Ht2); [lia|rewrite Ho1, len_insert; lia|].
    replace (0 <? w + 1 + len l) with true in * by (symmetry; apply Z.ltb_lt; lia).
    cbn [orb]. exists o2. rewrite !len_app, len_cons, len_nil. rewrite E2.
    rewrite Ho2, Ho1, len_insert. split; [f_equal; f_equal; lia|]. split; [done|].
    replace (w + (1 + 0 + (len l + len (emit true r)))) with (w + 1 + len l + len (emit true r)) by lia.
    rewrite Ht2, Ht1, take_insert_succ by lia. by rewrite <- !app_assoc.
  - assert (w = 0) as -> by lia. cbn [mbind option_bind].
    destruct (copy_at_spec out 0 l) as (o1 & -> & Ho1 & Ht1); [lia..|]. cbn [mbind option_bind].
    destruct (IH o1 (0 + len l)) as (o2 & E2 & Ho2 & Ht2); [lia|rewrite Ho1; lia|].
    cbn [orb app]. exists o2. rewrite E2, Ho2, Ho1, len_app.
    rewrite Z.add_0_l in *. split; [f_equal; f_equal; lia|]. split; [done|].
    rewrite Z.add_0_l, Ht2, Ht1. by rewrite <- app_assoc.
Qed.

Lemma reversed_emit d :
  len d <= 255 -> reversed d = Some (emit false (rev (split c_dot d))).
Proof.
  intros Hd. unfold reversed, reverse_labels_into.
  destruct (reverse_labels_loop_spec (rev (split c_dot d)) (replicate 256 0) 0) as (o & E & Ho & Ht);
    [lia|rewrite weight_rev, weight_split; unfold len at 2; rewrite length_replicate; lia|].
  change (0 <? 0) with false in *. rewrite Z.add_0_l in *. rewrite E. cbn [mbind option_bind].
  set (r := emit _ _) in *.
  change (take (Z.to_nat 0) (replicate 256 0) ++ r) with r in Ht.
  assert (Hr : len r <= len o).
  { apply (f_equal length) in Ht. rewrite length_take in Ht. unfold len. lia. }
  pose proof (len_nonneg r). rewrite slice_Some by lia. f_equal.
  rewrite Z.sub_0_r. exact Ht.
Qed.

(** ** Valid names, query names *)

(** A name whose last label is not empty. *)
Definition no_trailing_dot (s : list Z) : Prop := last s <> Some c_dot.

Lemma reversed_name s :
  len s <= 255 -> s <> [] -> no_trailing_dot s -> reversed s = Some (rkey s).
Proof.
  intros Hl Hne Hnd. rewrite reversed_emit by done. unfold rkey. f_equal.
  pose proof (split_nonempty c_dot s) as Hs. destruct (exists_last Hs) as (ls & l & E).
  rewrite E, rev_app_distr. cbn [rev app]. apply emit_false. intros ->.
  pose proof (join_split c_dot s) as J. rewrite E in J. destruct ls as [|w ls]; [by cbn in J|].
  rewrite join_app in J by done. apply Hnd. rewrite <- J. cbn. by rewrite last_snoc.
Qed.

Lemma split_rkey s : split c_dot (rkey s) = rev (split c_dot s).
Proof.
  unfold rkey. apply split_join.
  - intros E. apply (f_equal (@rev _)) in E. rewrite rev_involutive in E.
    by apply split_nonempty in E.
  - apply Forall_rev, split_pieces.
Qed.

Lemma rkey_involutive s : rkey (rkey s) = s.
Proof. unfold rkey at 1. rewrite split_rkey, rev_involutive. apply join_split. Qed.

Lemma rkey_len s : len (rkey s) = len s.
Proof.
  pose proof (weight_split c_dot (rkey s)) as H1. pose proof (weight_split c_dot s) as H2.
  rewrite split_rkey, weight_rev in H1. lia.
Qed.

Lemma rkey_inj s t : rkey s = rkey t -> s = t.
Proof. intros H. by rewrite <- (rkey_involutive s), H, rkey_involutive. Qed.

Lemma valid_no_trailing_dot d : valid_domain d -> no_trailing_dot d.
Proof.
  intros Hd H. apply last_Some in H as (r & ->). pose proof (valid_domain_no_trailing_dot _ Hd) as E.
  by rewrite strip_suffix_app in E.
Qed.

Lemma valid_domain_rkey d : valid_domain d -> valid_domain (rkey d).
Proof.
  intros (Hl & Hv). split; [by rewrite rkey_len|]. rewrite split_rkey. by apply Forall_rev.
Qed.

Lemma reversed_valid d : valid_domain d -> reversed d = Some (rkey d).
Proof.
  intros Hd. apply reversed_name; [destruct Hd as ((_ & ?) & _); lia|by apply valid_domain_nonempty|
    by apply valid_no_trailing_dot].
Qed.

(** ** Label boundaries *)

Lemma elem_of_boundaries r e :
  e ∈ boundaries r <-> e = len r \/ (0 <= e < len r /\ index r e = Some c_dot).
Proof.
  unfold boundaries. rewrite elem_of_app, list_elem_of_singleton, list_elem_of_In, filter_In.
  rewrite <- list_elem_of_In, elem_of_seqZ. split.
  - intros [[Hr Hi]|]; [|by left]. right. split; [lia|].
    destruct (index r e); [|done]. bool_to_prop. by subst.
  - intros [|[Hr Hi]]; [by right|]. left. split; [lia|]. by rewrite Hi, Z.eqb_refl.
Qed.

Lemma boundary_slice r e :
  e ∈ boundaries r -> slice r 0 e = Some (take (Z.to_nat e) r).
Proof.
  rewrite elem_of_boundaries. intros H. pose proof (len_nonneg r).
  rewrite slice_Some by lia. by rewrite Z.sub_0_r.
Qed.

(** A key is a boundary prefix when the rest is empty or starts a label. *)
Lemma boundary_prefix r k :
  (exists e, e ∈ boundaries r /\ take (Z.to_nat e) r = k)
  <-> r = k \/ exists q, r = k ++ c_dot :: q.
Proof.
  split.
  - intros (e & He & Hk). apply elem_of_boundaries in He as [->|[Hr Hi]].
    + left. rewrite <- Hk. unfold len. by rewrite Nat2Z.id, take_ge.
    + right. exists (drop (S (Z.to_nat e)) r). rewrite <- Hk.
      unfold index in Hi. destruct (0 <=? e); [|done].
      by rewrite <- (take_drop_middle r _ _ Hi) at 1.
  - intros [->|(q & ->)].
    + exists (len k). split; [apply elem_of_boundaries; by left|].
      unfold len. by rewrite Nat2Z.id, take_ge.
    + exists (len k). split.
      * apply elem_of_boundaries. right. pose proof (len_nonneg k). pose proof (len_nonneg q).
        rewrite len_app, len_cons. split; [lia|]. unfold len. rewrite index_nat.
        rewrite lookup_app_r by lia. by rewrite Nat.sub_diag.
      * unfold len. rewrite Nat2Z.id. apply take_app_length.
Qed.

Lemma subtree_prefix d name :
  (rkey name = rkey d \/ exists q, rkey name = rkey d ++ c_dot :: q) <-> in_subtree d name.
Proof.
  unfold in_subtree. split.
  - intros [H|(q & H)]; [left; by apply rkey_inj|]. right.
    exists (join c_dot (rev (split c_dot q))).
    apply (f_equal (split c_dot)) in H. rewrite split_app_sep, !split_rkey in H.
    apply (f_equal (@rev _)) in H. rewrite rev_app_distr, !rev_involutive in H.
    rewrite <- (join_split c_dot name), H. rewrite join_app; [by rewrite join_split| |apply split_nonempty].
    intros E. apply (f_equal (@rev _)) in E. rewrite rev_involutive in E. by apply split_nonempty in E.
  - intros [->|(p & ->)]; [by left|]. right. unfold rkey at 1. rewrite split_app_sep, rev_app_distr.
    exists (join c_dot (rev (split c_dot p))). rewrite join_app; [done| |];
      intros E; apply (f_equal (@rev _)) in E; rewrite rev_involutive in E; by apply split_nonempty in E.
Qed.

(** The reversed query has the rule's key at a boundary exactly when the
    rule covers the name. *)
Lemma subtree_boundary d name :
  (exists e, e ∈ boundaries (rkey name) /\ take (Z.to_nat e) (rkey name) = rkey d)
  <-> in_subtree d name.
Proof. by rewrite boundary_prefix, subtree_prefix. Qed.
