(* ===== verification/GlobSpec.v ===== *)
(** * GlobSpec: the wildcard matcher

    The reference meaning of a wildcard expression ([glob]), soundness of
    the two-pointer matcher for every text, termination within its fuel,
    completeness for texts without a star of their own, and the anchor
    lemma that justifies the wildcard buckets. *)
From S2P Require Import Prelude Text FilterTypes Parse Engine.

(** ** Specification: a star matches any byte sequence, dots included; any
    other byte matches itself *)
Inductive glob : list Z -> list Z -> Prop :=
| glob_nil : glob [] []
| glob_char c p t : c <> c_star -> glob p t -> glob (c :: p) (c :: t)
| glob_star p u t : glob p t -> glob (c_star :: p) (u ++ t).

(** A name matches a wildcard rule itself or, with [||], through any of its
    parents. *)
Definition wildcard_covers (expr name : list Z) (include_subdomains : bool) : Prop :=
  glob expr name
  \/ (include_subdomains = true /\ exists p q, name = p ++ c_dot :: q /\ glob expr q).

(** ** Algebra of [glob] *)
Lemma glob_app p t q u : glob p t -> glob q u -> glob (p ++ q) (t ++ u).
Proof.
  intros H Hq. induction H as [|c p t Hc H IH|p v t H IH]; cbn [app]; [done|by constructor|].
  rewrite <- app_assoc. by constructor.
Qed.

Lemma glob_literal l : c_star ∉ l -> glob l l.
Proof.
  induction l as [|c l IH]; intros H; [constructor|].
  apply not_elem_of_cons in H as [Hc H]. constructor; [done|by apply IH].
Qed.

Lemma glob_literal_inv l p t :
  c_star ∉ l -> glob (l ++ p) t -> exists u, t = l ++ u /\ glob p u.
Proof.
  revert t. induction l as [|c l IH]; intros t Hl H; [by exists t|].
  apply not_elem_of_cons in Hl as [Hc Hl]. inversion H as [|? ? v Hc' H' E1 E2|? ? ? ? E1]; subst.
  - destruct (IH v Hl H') as (u & -> & Hu). by exists u.
  - done.
Qed.

Lemma glob_star_inv p t : glob (c_star :: p) t -> exists u v, t = u ++ v /\ glob p v.
Proof. intros H. inversion H; subst; [done|]. by eexists _, _. Qed.

Lemma glob_stars_nil p : glob p [] <-> Forall (eq c_star) p.
Proof.
  split.
  - intros H. remember [] as t eqn:E. induction H as [|c p t Hc H IH|p u t H IH]; [constructor|done|].
    apply app_eq_nil in E as [-> ->]. constructor; [done|by apply IH].
  - induction 1 as [|c p <- H IH]; [constructor|]. by apply (glob_star p [] []).
Qed.

(** A literal tail of the expression is a literal tail of the text. *)
Lemma glob_literal_tail p l t :
  c_star ∉ l -> glob (p ++ l) t -> exists u, t = u ++ l.
Proof.
  intros Hl. revert t. induction p as [|c p IH]; intros t H.
  - rewrite <- (app_nil_r l) in H. cbn [app] in H. apply glob_literal_inv in H as (u & -> & Hu); [|done].
    inversion Hu; subst. exists []. by rewrite app_nil_r.
  - inversion H as [|? ? v Hc H' E1 E2|? u v H' E1 E2]; subst.
    + destruct (IH v H') as (w & ->). by exists (c :: w).
    + destruct (IH v H') as (w & ->). exists (u ++ w). by rewrite app_assoc.
Qed.

Lemma trailing_stars_spec pat p : trailing_stars pat p = true <-> Forall (eq c_star) (drop p pat).
Proof.
  unfold trailing_stars. rewrite forallb_Forall_iff. split; intros H;
    (eapply Forall_impl; [exact H|]); intros x Hx; by apply Z.eqb_eq.
Qed.

(** ** Termination: the fuel is never spent *)
Definition glob_measure (pat text : list Z) (p : nat) (star : option (nat * nat)) : nat :=
  let st := match star with Some (_, st) => st | None => 0%nat end in
  ((length text - st) * (length pat + 1) + (length pat - p))%nat.

Lemma glob_loop_total fuel pat text p t star :
  (p <= length pat)%nat ->
  match star with Some (sp, st) => (sp < length pat /\ st <= t)%nat | None => True end ->
  (glob_measure pat text p star < fuel)%nat ->
  exists r, glob_loop fuel pat text p t star = Some r.
Proof.
  revert p t star. induction fuel as [|fuel IH]; intros p t star Hp Hs Hf; [lia|].
  cbn [glob_loop]. destruct (text !! t) as [tc|] eqn:Et; [|by eexists].
  assert (Ht : (t < length text)%nat) by (by eapply lookup_lt_Some).
  assert (Hretry : exists r, match star with
    | Some (sp, st) => glob_loop fuel pat text (sp + 1) (st + 1) (Some (sp, (st + 1)%nat))
    | None => Some None
    end = Some r).
  { destruct star as [[sp st]|]; [|by eexists]. apply IH; [lia|lia|].
    unfold glob_measure in *.
    assert (length text - st = S (length text - (st + 1)))%nat as E by lia. rewrite E in Hf. cbn in Hf. lia. }
  destruct (pat !! p) as [pc|] eqn:Ep; [|done].
  assert (Hp' : (p < length pat)%nat) by (by eapply lookup_lt_Some).
  destruct (pc =? tc).
  - apply IH; [lia| |].
    + destruct star as [[sp st]|]; [|done]. lia.
    + unfold glob_measure in *. lia.
  - destruct (pc =? c_star); [|done]. apply IH; [lia|lia|].
    unfold glob_measure in *. destruct star as [[sp st]|].
    + assert ((length text - t) * (length pat + 1) <= (length text - st) * (length pat + 1))%nat
        by (apply Nat.mul_le_mono_r; lia). lia.
    + assert ((length text - t) * (length pat + 1) <= (length text - 0) * (length pat + 1))%nat
        by (apply Nat.mul_le_mono_r; lia). lia.
Qed.

Lemma glob_loop_terminates pat text :
  exists r, glob_loop (glob_fuel pat text) pat text 0%nat 0%nat None = Some r.
Proof. apply glob_loop_total; [lia|done|]. unfold glob_measure, glob_fuel. nia. Qed.

(** ** Soundness *)
Lemma take_snoc {A} (l : list A) i x : l !! i = Some x -> take (i + 1) l = take i l ++ [x].
Proof. intros H. replace (i + 1)%nat with (S i) by lia. by apply take_S_r. Qed.

Lemma glob_loop_sound fuel pat text p t star r :
  (t <= length text)%nat ->
  glob (take p pat) (take t text) ->
  match star with
  | Some (sp, st) => pat !! sp = Some c_star /\ (st < length text)%nat
      /\ exists s0, (s0 <= st)%nat /\ glob (take sp pat) (take s0 text)
  | None => True
  end ->
  glob_loop fuel pat text p t star = Some (Some r) ->
  glob (take r pat) text.
Proof.
  revert p t star. induction fuel as [|fuel IH]; intros p t star Ht Hg Hs Hrun; [done|].
  cbn [glob_loop] in Hrun. destruct (text !! t) as [tc|] eqn:Et.
  2:{ injection Hrun as <-. apply lookup_ge_None in Et. by rewrite (take_ge text) in Hg by lia. }
  assert (Ht' : (t < length text)%nat) by (by eapply lookup_lt_Some).
  assert (Hretry : match star with
    | Some (sp, st) => glob_loop fuel pat text (sp + 1) (st + 1) (Some (sp, (st + 1)%nat))
    | None => Some None
    end = Some (Some r) -> glob (take r pat) text).
  { destruct star as [[sp st]|]; [|done]. destruct Hs as (Hsp & Hst & s0 & Hle & H0). intros Hr.
    assert (Hg' : glob (take (sp + 1) pat) (take (st + 1) text)).
    { rewrite (take_snoc _ _ _ Hsp). rewrite <- (take_drop s0 (take (st + 1) text)).
      rewrite take_take. replace (s0 `min` (st + 1))%nat with s0 by lia.
      apply glob_app; [done|]. rewrite <- (app_nil_r (drop _ _)). repeat constructor. }
    destruct (decide (st + 1 < length text)%nat) as [Hlt|Hge].
    - eapply IH; [|exact Hg'| |exact Hr]; [lia|]. split; [done|]. split; [lia|]. exists s0. split; [lia|done].
    - (* the retry starts at the end of the text and stops there *)
      assert (Hend : text !! (st + 1)%nat = None) by (apply lookup_ge_None; lia).
      destruct fuel; [done|]. cbn [glob_loop] in Hr. rewrite Hend in Hr. injection Hr as <-.
      rewrite (take_ge text) in Hg' by lia. done. }
  destruct (pat !! p) as [pc|] eqn:Ep; [|by apply Hretry].
  destruct (Z.eqb_spec pc tc) as [->|Hne].
  - eapply IH; [|  |exact Hs|exact Hrun]; [lia|].
    rewrite (take_snoc _ _ _ Ep), (take_snoc _ _ _ Et). apply glob_app; [done|].
    destruct (decide (tc = c_star)) as [->|]; [|apply glob_char; [done|constructor]].
    apply (glob_star [] [c_star] []). constructor.
  - destruct (Z.eqb_spec pc c_star) as [->|]; [|by apply Hretry].
    eapply IH; [exact Ht| | |exact Hrun].
    + rewrite (take_snoc _ _ _ Ep). rewrite <- (app_nil_r (take t text)). apply glob_app; [done|].
      apply (glob_star [] [] []). constructor.
    + split; [done|]. split; [done|]. exists t. split; [lia|done].
Qed.

Lemma glob_match_sound pat text : glob_match pat text = true -> glob pat text.
Proof.
  unfold glob_match. destruct (glob_loop _ _ _ _ _ _) as [[r|]|] eqn:E; [|done..].
  intros H. apply trailing_stars_spec in H. apply glob_loop_sound in E; [|lia|constructor|done].
  rewrite <- (take_drop r pat), <- (app_nil_r text). apply glob_app; [done|]. by apply glob_stars_nil.
Qed.

(** ** Completeness, for a text without stars *)

(** The run since the last star is a literal stretch of the pattern that
    the text shows at [st]. *)
Definition literal_run (pat text : list Z) (p t sp st : nat) : Prop :=
  exists l, c_star ∉ l /\ drop (sp + 1) pat = l ++ drop p pat
    /\ drop st text = l ++ drop t text /\ length l = (t - st)%nat /\ (st <= t)%nat.

(** If the pattern matches at all, what remains still does: from here when
    no star was taken, from some position at or after [st] otherwise. *)
Definition still_matches (pat text : list Z) (p t : nat) (star : option (nat * nat)) : Prop :=
  match star with
  | None => glob (drop p pat) (drop t text)
  | Some (sp, st) =>
      literal_run pat text p t sp st
      /\ exists t', (st <= t' <= length text)%nat /\ glob (drop (sp + 1) pat) (drop t' text)
  end.

Lemma drop_cons {A} (l : list A) i x : l !! i = Some x -> drop i l = x :: drop (i + 1) l.
Proof. intros H. replace (i + 1)%nat with (S i) by lia. by apply drop_S. Qed.

(** A mismatch at the current position rules out a match at [st]. *)
Lemma mismatch_advances pat text p t sp st :
  (t < length text)%nat ->
  still_matches pat text p t (Some (sp, st)) ->
  ~ glob (drop p pat) (drop t text) ->
  still_matches pat text (sp + 1) (st + 1) (Some (sp, (st + 1)%nat)).
Proof.
  intros Ht ((l & Hl & Hpat & Htext & Hlen & Hst) & t' & Ht' & Hg) Hno. split.
  { exists []. repeat split; try done; [apply not_elem_of_nil|cbn; lia]. }
  exists t'. split; [|done]. split; [|lia].
  destruct (decide (t' = st)) as [->|]; [|lia]. exfalso. apply Hno.
  rewrite Hpat in Hg. apply glob_literal_inv in Hg as (u & Hu & Hg); [|done].
  rewrite Htext in Hu. by apply app_inv_head in Hu as <-.
Qed.

Lemma glob_loop_complete fuel pat text p t star r :
  c_star ∉ text -> (t <= length text)%nat ->
  still_matches pat text p t star ->
  glob_loop fuel pat text p t star = Some r ->
  exists q, r = Some q /\ Forall (eq c_star) (drop q pat).
Proof.
  intros Hstar. revert p t star. induction fuel as [|fuel IH]; intros p t star Ht Hm Hrun; [done|].
  cbn [glob_loop] in Hrun. destruct (text !! t) as [tc|] eqn:Et.
  2:{ injection Hrun as <-. exists p. split; [done|]. apply lookup_ge_None in Et.
      apply glob_stars_nil. destruct star as [[sp st]|].
      - destruct Hm as ((l & Hl & Hpat & Htext & Hlen & Hst) & t' & Ht' & Hg).
        rewrite Hpat in Hg. apply glob_literal_inv in Hg as (u & Hu & Hg); [|done].
        apply (f_equal length) in Hu. rewrite length_app, length_drop in Hu.
        assert (u = []) as -> by (apply length_zero_iff_nil; lia). done.
      - cbn in Hm. by rewrite (drop_ge text) in Hm by lia. }
  assert (Ht' : (t < length text)%nat) by (by eapply lookup_lt_Some).
  assert (Htc : tc <> c_star).
  { intros ->. apply Hstar. by eapply list_elem_of_lookup_2. }
  pose proof (drop_cons _ _ _ Et) as Hdt.
  assert (Hretry : ~ glob (drop p pat) (drop t text) ->
    match star with
    | Some (sp, st) => glob_loop fuel pat text (sp + 1) (st + 1) (Some (sp, (st + 1)%nat))
    | None => Some None
    end = Some r -> exists q, r = Some q /\ Forall (eq c_star) (drop q pat)).
  { intros Hno. destruct star as [[sp st]|]; [|by destruct Hno]. intros Hr.
    assert (Hst : (st <= t)%nat) by (destruct Hm as ((l & ?) & _); naive_solver).
    eapply IH; [|by eapply mismatch_advances|exact Hr]. lia. }
  destruct (pat !! p) as [pc|] eqn:Ep.
  2:{ apply Hretry; [|done]. apply lookup_ge_None in Ep. rewrite (drop_ge pat) by lia.
      rewrite Hdt. intros H. inversion H. }
  pose proof (drop_cons _ _ _ Ep) as Hdp.
  destruct (Z.eqb_spec pc tc) as [->|Hne].
  - eapply IH; [| |exact Hrun]; [lia|]. destruct star as [[sp st]|].
    + destruct Hm as ((l & Hl & Hpat & Htext & Hlen & Hst) & t' & Ht2 & Hg). split; [|by exists t'].
      exists (l ++ [tc]). rewrite <- !app_assoc. cbn [app]. rewrite <- Hdp, <- Hdt.
      repeat split; try done; try lia.
      * rewrite not_elem_of_app, list_elem_of_singleton. naive_solver.
      * rewrite length_app. cbn. lia.
    + cbn in Hm |- *. rewrite Hdp, Hdt in Hm. inversion Hm; subst; done.
  - destruct (Z.eqb_spec pc c_star) as [->|Hns].
    + eapply IH; [exact Ht| |exact Hrun]. split.
      { exists []. repeat split; try done; [apply not_elem_of_nil|cbn; lia]. }
      destruct star as [[sp st]|].
      * destruct Hm as ((l & Hl & Hpat & Htext & Hlen & Hst) & t' & Ht2 & Hg).
        rewrite Hpat, Hdp in Hg. apply glob_literal_inv in Hg as (u & Hu & Hg); [|done].
        apply glob_star_inv in Hg as (v & w & -> & Hg).
        exists (t' + length l + length v)%nat.
        assert (Hb : (t' + length l + length v <= length text)%nat).
        { apply (f_equal length) in Hu. rewrite !length_app, length_drop in Hu. lia. }
        split; [lia|]. apply (f_equal (drop (length l + length v))) in Hu.
        rewrite drop_drop in Hu. rewrite app_assoc in Hu.
        rewrite <- length_app in Hu at 2. rewrite drop_app_length in Hu.
        replace (t' + length l + length v)%nat with (t' + (length l + length v))%nat by lia.
        by rewrite Hu.
      * cbn in Hm. rewrite Hdp in Hm. apply glob_star_inv in Hm as (v & w & Hv & Hg).
        exists (t + length v)%nat. apply (f_equal length) in Hv as Hlv.
        rewrite length_app, length_drop in Hlv. split; [lia|].
        apply (f_equal (drop (length v))) in Hv. rewrite drop_drop, drop_app_length in Hv. by rewrite Hv.
    + apply Hretry; [|done]. rewrite Hdp, Hdt. intros H. inversion H; subst; congruence.
Qed.

Lemma glob_match_complete pat text : c_star ∉ text -> glob pat text -> glob_match pat text = true.
Proof.
  intros Hs Hg. unfold glob_match. destruct (glob_loop_terminates pat text) as (r & E).
  rewrite E. apply glob_loop_complete in E as (q & -> & Hq); [|done|lia|done].
  by apply trailing_stars_spec.
Qed.

(** ** Wildcard rules *)
Lemma elem_of_tails s q : q ∈ tails_after_dot s <-> exists p, s = p ++ c_dot :: q.
Proof.
  induction s as [|a s IH]; cbn [tails_after_dot].
  { split; [intros H; by apply elem_of_nil in H|]. intros (p & E). by destruct p. }
  destruct (Z.eqb_spec a c_dot) as [->|Hne].
  - rewrite elem_of_cons, IH. split.
    + intros [->|(p & ->)]; [by exists []|by exists (c_dot :: p)].
    + intros (p & E). destruct p as [|b p]; injection E; intros; subst; [by left|right; by exists p].
  - rewrite IH. split.
    + intros (p & ->). by exists (a :: p).
    + intros (p & E). destruct p as [|b p]; injection E; intros; subst; [done|by exists p].
Qed.

Lemma wildcard_matches_sound expr name sub :
  wildcard_matches expr name sub = true -> wildcard_covers expr name sub.
Proof.
  unfold wildcard_matches. intros H. apply orb_true_iff in H as [H|H].
  - left. by apply glob_match_sound.
  - right. apply andb_true_iff in H as [-> H]. split; [done|].
    apply existsb_exists_iff in H as (q & Hq & H). apply elem_of_tails in Hq as (p & ->).
    exists p, q. split; [done|]. by apply glob_match_sound.
Qed.

Lemma wildcard_matches_complete expr name sub :
  c_star ∉ name -> wildcard_covers expr name sub -> wildcard_matches expr name sub = true.
Proof.
  intros Hs. unfold wildcard_matches. intros [H|(-> & p & q & -> & H)]; apply orb_true_iff.
  - left. by apply glob_match_complete.
  - right. cbn [andb]. apply existsb_exists_iff. exists q. split; [apply elem_of_tails; by exists p|].
    apply glob_match_complete; [|done]. apply not_elem_of_app in Hs as [_ Hs].
    by apply not_elem_of_cons in Hs as [_ Hs].
Qed.

(** An anchored wildcard only covers names under its anchor, so looking it
    up in the bucket of the name's own suffixes loses nothing. *)
Lemma wildcard_anchor_suffix expr name sub a :
  wildcard_anchor expr = Some a -> wildcard_covers expr name sub -> a ∈ tails_after_dot name.
Proof.
  intros Ha Hc. unfold wildcard_anchor in Ha. destruct (rfind c_star expr) as [i|] eqn:Ei; [|done].
  apply rfind_Some in Ei as (u & v & -> & Hv & <-). cbn zeta in Ha.
  assert (Hd : drop (length u + 1) (u ++ c_star :: v) = v).
  { change (c_star :: v) with ([c_star] ++ v). rewrite app_assoc.
    replace (length u + 1)%nat with (length (u ++ [c_star])) by (rewrite length_app; cbn; lia).
    apply drop_app_length. }
  rewrite Hd in Ha. destruct (find c_dot v) as [j|] eqn:Ej; [|done].
  apply find_Some in Ej as (w & b & -> & Hw & <-).
  assert (Hd2 : drop (length w + 1) (w ++ c_dot :: b) = b).
  { change (c_dot :: b) with ([c_dot] ++ b). rewrite app_assoc.
    replace (length w + 1)%nat with (length (w ++ [c_dot])) by (rewrite length_app; cbn; lia).
    apply drop_app_length. }
  rewrite Hd2 in Ha. assert (b = a) as -> by (destruct b; congruence).
  assert (Htail : forall t, glob (u ++ c_star :: w ++ c_dot :: a) t -> exists x, t = x ++ w ++ c_dot :: a).
  { intros t Hg. apply (glob_literal_tail (u ++ [c_star])); [done|]. by rewrite <- app_assoc. }
  apply elem_of_tails. destruct Hc as [Hg|(_ & p & q & -> & Hg)].
  - destruct (Htail _ Hg) as (x & ->). exists (x ++ w). by rewrite <- app_assoc.
  - destruct (Htail _ Hg) as (x & ->). exists (p ++ c_dot :: x ++ w). by rewrite <- !app_assoc, <- app_comm_cons, <- app_assoc.
Qed.

(** The bucket loop walks the suffixes through [find]. *)
Lemma tails_find s i : find c_dot s = Some i -> tails_after_dot s = drop (i + 1) s :: tails_after_dot (drop (i + 1) s).
Proof.
  intros H. apply find_Some in H as (u & v & -> & Hu & <-).
  assert (Hd : drop (length u + 1) (u ++ c_dot :: v) = v).
  { change (c_dot :: v) with ([c_dot] ++ v). rewrite app_assoc.
    replace (length u + 1)%nat with (length (u ++ [c_dot])) by (rewrite length_app; cbn; lia).
    apply drop_app_length. }
  rewrite Hd. clear Hd. induction u as [|a u IH]; cbn [app tails_after_dot]; [by rewrite Z.eqb_refl|].
  apply not_elem_of_cons in Hu as [Ha Hu]. destruct (Z.eqb_spec a c_dot); [by subst|]. by apply IH.
Qed.

Lemma tails_no_dot s : find c_dot s = None -> tails_after_dot s = [].
Proof.
  intros H. apply find_None in H. induction s as [|a s IH]; [done|].
  apply not_elem_of_cons in H as [Ha H]. cbn. destruct (Z.eqb_spec a c_dot); [by subst|]. by apply IH.
Qed.

(** ** Properties *)

(** C20: the two-pointer matcher against the meaning of a wildcard: it
    always ends within its fuel, every match it reports is one, and for a
    text without a star of its own it finds every match. *)
Theorem glob_match_correct pat text :
  (exists r, glob_loop (glob_fuel pat text) pat text 0%nat 0%nat None = Some r)
  /\ (glob_match pat text = true -> glob pat text)
  /\ (c_star ∉ text -> glob pat text -> glob_match pat text = true).
Proof.
  split; [apply glob_loop_terminates|]. split; [apply glob_match_sound|apply glob_match_complete].
Qed.

Lemma glob_match_correct_witness :
  glob (lit "a*d") (lit "abcd") /\ glob_match (lit "a*d") (lit "abcd") = true.
Proof.
  assert (H : glob (lit "a*d") (lit "abcd")).
  { apply (proj1 (proj2 (glob_match_correct (lit "a*d") (lit "abcd")))). vm_compute. reflexivity. }
  split; [exact H|]. apply (proj2 (proj2 (glob_match_correct (lit "a*d") (lit "abcd")))); [|exact H].
  apply contains_char_false. vm_compute. reflexivity.
Defined.

(** The matcher takes a star of the query name literally: the rule
    [*.ads.com] covers [*.x.ads.com] but does not match it. *)
Theorem glob_match_misses_starred_text :
  glob (lit "*.ads.com") (lit "*.x.ads.com")
  /\ glob_match (lit "*.ads.com") (lit "*.x.ads.com") = false.
Proof.
  split; [|vm_compute; reflexivity].
  change (lit "*.ads.com") with (c_star :: lit ".ads.com").
  change (lit "*.x.ads.com") with (lit "*.x" ++ lit ".ads.com"). apply glob_star.
  apply glob_literal, contains_char_false. vm_compute. reflexivity.
Qed.
