(* ===== verification/EngineSpec.v ===== *)
(** * EngineSpec: the compiled matcher against the rule list it was built from

    The meaning of a rule ([covers]), the refinement of an engine under
    construction to the list of its rules ([building]) and of a finished
    engine to the same list ([built]), and the lemmas that carry the
    verdict: which rule ids a query visits, what a scan over them leaves,
    what text a hit reports. *)
From S2P Require Import Prelude Text FilterTypes Parse ParseSpec Engine KeyIndexSpec LabelsSpec GlobSpec.

(** ** Specification *)

(** A rule together with the index of its list. *)
Notation Located := (Z * RuleRef)%type.

(** What a pattern matches: the name itself, the name or any of its
    parents, or a wildcard over them. *)
Definition covers (p : PatternRef) (name : list Z) : Prop :=
  match p with
  | PatternRef_Exact d => name = d
  | PatternRef_Subtree d => in_subtree d name
  | PatternRef_Wildcard e sub => wildcard_covers e name sub
  end.

(** The name a rule is indexed under; wildcards are in a table. *)
Definition sub_key (r : RuleRef) : option (list Z) :=
  match pattern r with PatternRef_Subtree d => Some (rkey d) | _ => None end.
Definition exact_key (r : RuleRef) : option (list Z) :=
  match pattern r with PatternRef_Exact d => Some d | _ => None end.
Definition wild_key (r : RuleRef) : option (list Z * bool) :=
  match pattern r with PatternRef_Wildcard e s => Some (e, s) | _ => None end.

Definition is_exception (r : RuleRef) : bool := bool_decide (action r = Except).

(** The text form of a rule: which canonical text, if any, spells it. *)
Definition form_of (r : RuleRef) : Z :=
  match pattern r with
  | PatternRef_Subtree d => if subtree_canonical (rule_body r) d then FORM_SUBTREE else FORM_VERBATIM
  | PatternRef_Exact d => default FORM_VERBATIM (exact_form (is_exception r) (rule_body r) d)
  | PatternRef_Wildcard _ _ => FORM_VERBATIM
  end.

(** A verbatim text is kept up to 255 bytes, cut at a character boundary. *)
Definition cut_text (t : list Z) : list Z :=
  take (last_boundary t (Z.to_nat (Z.min (len t) 255))) t.

Definition reported (r : RuleRef) : list Z :=
  if form_of r =? FORM_VERBATIM then cut_text (text r) else text r.

Definition report (r : RuleRef) : MatchedRule := mkMatched (action r) (reported r) (line r).

(** The bytes a rule can take in any arena, and one for its id. *)
Definition pattern_len (p : PatternRef) : Z :=
  match p with PatternRef_Exact d | PatternRef_Subtree d | PatternRef_Wildcard d _ => len d end.

Definition load (R : list Located) : Z :=
  foldr (fun x n => 1 + len (text (snd x)) + pattern_len (pattern (snd x)) + n) 0 R.

(** The rules with a key, in order, with their ids. *)
Fixpoint entries {A} (f : RuleRef -> option A) (i : Z) (R : list Located) : list (A * Z) :=
  match R with
  | [] => []
  | x :: R => match f (snd x) with Some k => [(k, i)] | None => [] end ++ entries f (i + 1) R
  end.

Definition flags_of (r : RuleRef) : Z :=
  Z.lor (Z.b2z (is_exception r)) (Z.shiftl (form_of r) FORM_SHIFT).

Definition wild_entry (x : (list Z * bool) * Z) : WildcardEntry :=
  mkWild (fst (fst x)) (snd (fst x)) (snd x).

(** The store of the rules [R]: parallel arrays, verbatim texts in place. *)
Record store_ok (s : Store) (R : list Located) : Prop := {
  so_lists : st_lists s = map fst R;
  so_lines : st_lines s = map (fun x => line (snd x)) R;
  so_flags : st_flags s = map (fun x => flags_of (snd x)) R;
  so_offs : length (st_span_off s) = length R;
  so_lens : length (st_span_len s) = length R;
  so_bytes : len (st_verbatim s) <= load R;
  so_text : forall i x, R !! i = Some x -> form_of (snd x) = FORM_VERBATIM ->
    exists off l, st_span_off s !! i = Some off /\ st_span_len s !! i = Some l
      /\ str_slice (st_verbatim s) off (off + l) = Some (cut_text (text (snd x)))
}.

(** Every wildcard is where its anchor sends the lookup, and the buckets
    hold nothing else. *)
Definition buckets_ok (ws : list WildcardEntry) (b : gmap (list Z) (list Z)) (un : list Z) : Prop :=
  (forall i w, ws !! i = Some w ->
     match wildcard_anchor (we_expr w) with
     | Some a => Z.of_nat i ∈ default [] (b !! a)
     | None => Z.of_nat i ∈ un
     end)
  /\ (forall a i, i ∈ default [] (b !! a) -> 0 <= i < len ws)
  /\ (forall i, i ∈ un -> 0 <= i < len ws).

(** An engine under construction. *)
Record building (e : Engine) (R : list Located) : Prop := {
  bg_store : store_ok (en_store e) R;
  bg_sub : ki_rep (en_subtree e) (entries sub_key 0 R);
  bg_exact : ki_rep (en_exact e) (entries exact_key 0 R);
  bg_sub_bytes : len (ki_arena (en_subtree e)) = key_bytes (entries sub_key 0 R);
  bg_exact_bytes : len (ki_arena (en_exact e)) = key_bytes (entries exact_key 0 R);
  bg_wild : en_wildcards e = map wild_entry (entries wild_key 0 R);
  bg_buckets : buckets_ok (en_wildcards e) (en_wildcard_buckets e) (en_wildcard_unanchored e)
}.

(** A finished engine. *)
Record built (e : Engine) (R : list Located) : Prop := {
  bt_except : forall id l r, index R id = Some (l, r) -> is_except (en_store e) id = Some (is_exception r);
  bt_matched : forall id l r, index R id = Some (l, r) -> matched e id = Some (l, report r);
  bt_sub : exists ents, ki_rep (en_subtree e) ents /\ StronglySorted key_le ents
    /\ ents ≡ₚ entries sub_key 0 R;
  bt_exact : exists ents, ki_rep (en_exact e) ents /\ StronglySorted key_le ents
    /\ ents ≡ₚ entries exact_key 0 R;
  bt_wild : en_wildcards e = map wild_entry (entries wild_key 0 R);
  bt_buckets : buckets_ok (en_wildcards e) (en_wildcard_buckets e) (en_wildcard_unanchored e)
}.

(** ** Entries *)
Lemma entries_app {A} (f : RuleRef -> option A) i R R' :
  entries f i (R ++ R') = entries f i R ++ entries f (i + len R) R'.
Proof.
  revert i. induction R as [|x R IH]; intros i; cbn [entries app].
  - by rewrite len_nil, Z.add_0_r.
  - rewrite IH, len_cons, <- app_assoc. do 3 f_equal. lia.
Qed.

Lemma elem_of_entries {A} (f : RuleRef -> option A) i R k id :
  (k, id) ∈ entries f i R <-> exists l r, index R (id - i) = Some (l, r) /\ f r = Some k.
Proof.
  revert i. induction R as [|[l0 r0] R IH]; intros i; cbn [entries].
  - split; [intros H; by apply elem_of_nil in H|]. intros (l & r & H & _).
    apply index_Some_lt in H. unfold len in H. cbn in H. lia.
  - rewrite elem_of_app, IH. cbn [snd]. split.
    + intros [H|(l & r & H & Hf)].
      * destruct (f r0) eqn:E; [|by apply elem_of_nil in H]. apply list_elem_of_singleton in H as [= -> ->].
        exists l0, r0. by rewrite Z.sub_diag.
      * exists l, r. split; [|done]. pose proof (index_Some_lt _ _ _ H). unfold index in *.
        replace (0 <=? id - i) with true by (symmetry; apply Z.leb_le; lia).
        replace (0 <=? id - (i + 1)) with true in H by (symmetry; apply Z.leb_le; lia).
        replace (Z.to_nat (id - i)) with (S (Z.to_nat (id - (i + 1)))) by lia. done.
    + intros (l & r & H & Hf). pose proof (index_Some_lt _ _ _ H) as Hr. unfold index in H.
      replace (0 <=? id - i) with true in H by (symmetry; apply Z.leb_le; lia).
      destruct (Z.to_nat (id - i)) as [|n] eqn:E; cbn in H.
      * injection H as -> ->. left. rewrite Hf. apply list_elem_of_singleton. f_equal. lia.
      * right. exists l, r. split; [|done]. unfold index.
        replace (0 <=? id - (i + 1)) with true by (symmetry; apply Z.leb_le; lia).
        by replace (Z.to_nat (id - (i + 1))) with n by lia.
Qed.

Lemma elem_of_entries0 {A} (f : RuleRef -> option A) R k id :
  (k, id) ∈ entries f 0 R <-> exists l r, index R id = Some (l, r) /\ f r = Some k.
Proof. rewrite elem_of_entries. by rewrite Z.sub_0_r. Qed.

Lemma entries_NoDup {A} (f : RuleRef -> option A) i R : NoDup (map snd (entries f i R)).
Proof.
  revert i. induction R as [|x R IH]; intros i; cbn [entries]; [constructor|].
  destruct (f (snd x)); cbn [app map snd]; [|done]. constructor; [|done].
  intros H. apply list_elem_of_fmap in H as ([k id] & -> & H). apply elem_of_entries in H as (l & r & H & _).
  apply index_Some_lt in H. cbn in H. lia.
Qed.

Lemma load_app R R' : load (R ++ R') = load R + load R'.
Proof. induction R as [|x R IH]; cbn [app load foldr]; [done|]. fold (load (R ++ R')). fold (load R). lia. Qed.

Lemma pattern_len_nonneg p : 0 <= pattern_len p.
Proof. destruct p; apply len_nonneg. Qed.

Lemma load_len R : len R <= load R.
Proof.
  induction R as [|x R IH]; [done|]. cbn [load foldr]. fold (load R). rewrite len_cons.
  pose proof (len_nonneg (text (snd x))). pose proof (pattern_len_nonneg (pattern (snd x))). lia.
Qed.

Lemma key_bytes_load f i R :
  (forall r k, f r = Some k -> len k = pattern_len (pattern r)) -> key_bytes (entries f i R) <= load R.
Proof.
  intros Hf. revert i. induction R as [|x R IH]; intros i; [done|]. cbn [entries load foldr]. fold (load R).
  specialize (IH (i + 1)). pose proof (len_nonneg (text (snd x))).
  pose proof (pattern_len_nonneg (pattern (snd x))).
  destruct (f (snd x)) as [k|] eqn:E; cbn [app key_bytes foldr fst]; fold (key_bytes (entries f (i + 1) R)); [|lia].
  rewrite (Hf _ _ E). lia.
Qed.

Lemma entries_len {A} (f : RuleRef -> option A) i R : len (entries f i R) <= len R.
Proof.
  revert i. induction R as [|x R IH]; intros i; [done|]. cbn [entries]. specialize (IH (i + 1)).
  rewrite len_app, len_cons. destruct (f (snd x)); rewrite ?len_cons, len_nil; lia.
Qed.

Lemma sub_key_len r k : sub_key r = Some k -> len k = pattern_len (pattern r).
Proof. unfold sub_key. destruct (pattern r); intros [= <-]. cbn. apply rkey_len. Qed.

Lemma exact_key_len r k : exact_key r = Some k -> len k = pattern_len (pattern r).
Proof. unfold exact_key. destruct (pattern r); by intros [= <-]. Qed.

Lemma index_snoc {A} (l : list A) x i y :
  index (l ++ [x]) i = Some y -> index l i = Some y \/ i = len l /\ y = x.
Proof.
  intros H. pose proof (index_Some_lt _ _ _ H) as Hr. unfold index, len in *. rewrite length_app in Hr. cbn [length] in Hr.
  replace (0 <=? i) with true in * by (symmetry; apply Z.leb_le; lia).
  apply lookup_app_Some in H as [H|[Hge H]]; [by left|right].
  apply list_lookup_singleton_Some in H as [H ->]. split; [lia|done].
Qed.

(** ** Text forms *)
Lemma str_from_boundary s i : is_char_boundary s i = true -> 0 <= i -> str_from s i = Some (drop (Z.to_nat i) s).
Proof.
  intros H Hi. unfold str_from. rewrite H. assert (i <= len s).
  { unfold is_char_boundary in H. pose proof (len_nonneg s). destruct (Z.eqb_spec i 0); [lia|].
    destruct (Z.eqb_spec i (len s)); [lia|]. cbn [orb] in H.
    destruct (index s i) eqn:E; [|done]. apply index_Some_lt in E. lia. }
  rewrite slice_Some by lia. f_equal. apply take_ge. rewrite length_drop. unfold len. lia.
Qed.

Lemma rule_body_eq r :
  rule_body r = (if is_exception r then default (text r) (strip_prefix (lit "@@") (text r)) else text r).
Proof. unfold rule_body, is_exception. by destruct (action r). Qed.

(** The text is the exception mark, when there is one, and the body. *)
Lemma rule_text_body r :
  rule_wf r -> text r = (if is_exception r then lit "@@" else []) ++ rule_body r.
Proof.
  intros (_ & _ & _ & _ & Hm). rewrite rule_body_eq. unfold is_exception.
  destruct (decide (action r = Except)) as [E|E].
  - rewrite bool_decide_true by done. destruct (Hm E) as (b & ->). by rewrite strip_prefix_app.
  - rewrite bool_decide_false by done. done.
Qed.

Lemma subtree_canonical_true body d :
  subtree_canonical body d = true -> body = lit "||" ++ d ++ [c_caret].
Proof.
  unfold subtree_canonical. destruct (strip_prefix (lit "||") body) as [b|] eqn:E; [|done].
  destruct (strip_suffix [c_caret] b) as [d'|] eqn:E2; [|done]. intros H. apply str_eqb_eq in H as ->.
  apply strip_prefix_Some in E as ->. by apply strip_suffix_Some in E2 as ->.
Qed.

(** What [exact_form] answers for a rule the parser made: it never panics,
    and each canonical answer spells the body. *)
Lemma exact_form_spec r d :
  rule_wf r -> pattern r = PatternRef_Exact d ->
  exists f, exact_form (is_exception r) (rule_body r) d = Some f
    /\ (f = FORM_EXACT /\ rule_body r = d
        \/ f = FORM_EXACT_CARET /\ rule_body r = d ++ [c_caret]
        \/ f = FORM_HOSTS_ZERO /\ is_exception r = false /\ rule_body r = lit "0.0.0.0 " ++ d
        \/ f = FORM_VERBATIM).
Proof.
  intros (Hv & _ & Hs & _) Hp. unfold hosts_slice_ok in Hs. rewrite Hp in Hs, Hv. cbn in Hv.
  unfold exact_form. destruct (str_eqb (rule_body r) d) eqn:E1.
  { exists FORM_EXACT. apply str_eqb_eq in E1. auto. }
  destruct (match strip_suffix [c_caret] (rule_body r) with Some d0 => str_eqb d0 d | None => false end) eqn:E2.
  { exists FORM_EXACT_CARET. destruct (strip_suffix _ _) as [d'|] eqn:E3; [|done].
    apply str_eqb_eq in E2 as ->. apply strip_suffix_Some in E3. auto. }
  unfold hosts_zero_form. destruct (is_exception r); [exists FORM_VERBATIM; auto|].
  destruct (strip_prefix (lit "0.0.0.0") (rule_body r)) as [t|] eqn:E3; [|exists FORM_VERBATIM; auto].
  specialize (Hs t eq_refl). destruct (len t =? len d + 1) eqn:E4; [|exists FORM_VERBATIM; auto].
  apply Z.eqb_eq in E4. rewrite str_from_boundary by (auto; lia). cbn [mbind option_bind].
  destruct (str_eqb (drop (Z.to_nat 1) t) d) eqn:E5; [|exists FORM_VERBATIM; auto].
  apply str_eqb_eq in E5. apply strip_prefix_Some in E3. rewrite E3.
  destruct t as [|b t]; [rewrite len_nil in E4; pose proof (len_nonneg d); lia|].
  change (index (lit "0.0.0.0" ++ b :: t) 7) with (Some b). cbn [mbind option_bind].
  destruct (Z.eqb_spec b c_space) as [->|]; [|exists FORM_VERBATIM; auto].
  exists FORM_HOSTS_ZERO. split; [done|]. right; right; left. split; [done|]. split; [done|].
  change (drop (Z.to_nat 1) (c_space :: t)) with t in E5. by subst.
Qed.

Lemma form_of_cases r :
  rule_wf r ->
  form_of r = FORM_VERBATIM
  \/ (exists d, pattern r = PatternRef_Subtree d /\ form_of r = FORM_SUBTREE
        /\ rule_body r = lit "||" ++ d ++ [c_caret])
  \/ (exists d, pattern r = PatternRef_Exact d
        /\ (form_of r = FORM_EXACT /\ rule_body r = d
            \/ form_of r = FORM_EXACT_CARET /\ rule_body r = d ++ [c_caret]
            \/ form_of r = FORM_HOSTS_ZERO /\ is_exception r = false /\ rule_body r = lit "0.0.0.0 " ++ d)).
Proof.
  intros Hwf. unfold form_of. destruct (pattern r) as [d|d|e s] eqn:Hp; [| |by left].
  - destruct (exact_form_spec r d Hwf Hp) as (f & -> & H). cbn [from_option id default].
    destruct H as [H|[H|[H| ->]]]; [right; right; exists d..|by left]; intuition.
  - destruct (subtree_canonical (rule_body r) d) eqn:E; [|by left]. right; left. exists d.
    split; [done|]. split; [done|]. by apply subtree_canonical_true.
Qed.

(** ** Flags *)
Lemma flags_form r : Z.shiftr (flags_of r) FORM_SHIFT = form_of r.
Proof.
  unfold flags_of, FORM_SHIFT. rewrite Z.shiftr_lor, Z.shiftr_shiftl_l, Z.sub_diag by lia.
  rewrite Z.shiftl_0_r. by destruct (is_exception r).
Qed.

Lemma flags_except r : negb (Z.land (flags_of r) FLAG_EXCEPT =? 0) = is_exception r.
Proof.
  unfold flags_of, FLAG_EXCEPT, FORM_SHIFT. rewrite Z.land_lor_distr_l.
  replace (Z.land (Z.shiftl (form_of r) 1) 1) with 0.
  - rewrite Z.lor_0_r. by destruct (is_exception r).
  - symmetry. apply Z.bits_inj'. intros n Hn. rewrite Z.land_spec, Z.bits_0.
    destruct (decide (n = 0)) as [->|]; [by rewrite Z.shiftl_spec_low|].
    rewrite andb_comm. change 1 with (Z.ones 1) at 1. rewrite Z.ones_spec_high by lia. done.
Qed.

(** ** The store *)
Lemma lookup_map_index {A B} (f : A -> B) l i x : index l i = Some x -> index (map f l) i = Some (f x).
Proof. unfold index. destruct (0 <=? i); [|done]. intros H. by rewrite list_lookup_fmap, H. Qed.

Lemma store_form_ok s (R : list Located) i l r :
  st_flags s = map (fun x => flags_of (snd x)) R -> index R i = Some (l, r) ->
  store_form s i = Some (form_of r).
Proof.
  intros H Hi. unfold store_form. rewrite H, (lookup_map_index _ _ _ _ Hi). cbn [mbind option_bind snd].
  by rewrite flags_form.
Qed.

Lemma is_except_ok s (R : list Located) i l r :
  st_flags s = map (fun x => flags_of (snd x)) R -> index R i = Some (l, r) ->
  is_except s i = Some (is_exception r).
Proof.
  intros H Hi. unfold is_except. rewrite H, (lookup_map_index _ _ _ _ Hi). cbn [mbind option_bind snd].
  by rewrite flags_except.
Qed.

Lemma last_boundary_ok t n :
  (last_boundary t n <= n)%nat /\ is_char_boundary t (Z.of_nat (last_boundary t n)) = true.
Proof.
  induction n as [|n [IH1 IH2]]; cbn [last_boundary]; [done|].
  destruct (is_char_boundary t (Z.of_nat (S n))) eqn:E; [done|]. split; [lia|done].
Qed.

(** A character boundary survives an append of whole characters. *)
Lemma char_boundary_app v t i :
  char_start t -> 0 <= i <= len v -> is_char_boundary v i = true -> is_char_boundary (v ++ t) i = true.
Proof.
  intros Ht Hi H. unfold is_char_boundary in *. destruct (Z.eqb_spec i 0); [done|]. cbn [orb] in *.
  unfold index in *. replace (0 <=? i) with true in * by (symmetry; apply Z.leb_le; lia).
  destruct (decide (i < len v)) as [Hlt|].
  - rewrite lookup_app_l by (unfold len in Hlt; lia).
    destruct (v !! Z.to_nat i) eqn:E.
    { destruct (Z.eqb_spec i (len v)); [lia|]. cbn [orb] in H. rewrite H. apply orb_true_r. }
    apply lookup_ge_None in E. unfold len in Hlt. lia.
  - assert (i = len v) as -> by lia. unfold len. rewrite Nat2Z.id, lookup_app_r, Nat.sub_diag by lia.
    destruct t as [|a t]; cbn [lookup list_lookup].
    + by rewrite app_nil_r, Z.eqb_refl.
    + assert (a < 128) by (by apply Ht). apply orb_true_iff. right.
      destruct (Z.leb_spec 128 a); [lia|done].
Qed.

Lemma char_boundary_end v : is_char_boundary v (len v) = true.
Proof. unfold is_char_boundary. by rewrite Z.eqb_refl, orb_true_r. Qed.

(** A boundary of an appended text is a boundary of the whole. *)
Lemma char_boundary_shift v t i :
  char_start t -> 0 <= i -> is_char_boundary t i = true -> is_char_boundary (v ++ t) (len v + i) = true.
Proof.
  intros Ht Hi H. destruct (decide (i = 0)) as [->|Hne].
  { rewrite Z.add_0_r. apply char_boundary_app; [done|pose proof (len_nonneg v); lia|apply char_boundary_end]. }
  unfold is_char_boundary in *. pose proof (len_nonneg v).
  replace (i =? 0) with false in H by (symmetry; apply Z.eqb_neq; lia).
  replace (len v + i =? 0) with false by (symmetry; apply Z.eqb_neq; lia). cbn [orb] in *.
  rewrite len_app. replace (len v + i =? len v + len t) with (i =? len t)
    by (destruct (Z.eqb_spec i (len t)), (Z.eqb_spec (len v + i) (len v + len t)); lia || done).
  destruct (i =? len t); [done|]. cbn [orb] in *. unfold index in *.
  replace (0 <=? i) with true in H by (symmetry; apply Z.leb_le; lia). zguard.
  replace (Z.to_nat (len v + i)) with (length v + Z.to_nat i)%nat by (unfold len; lia).
  rewrite lookup_app_r by lia. by replace (length v + Z.to_nat i - length v)%nat with (Z.to_nat i) by lia.
Qed.

Lemma str_slice_app v t off e x :
  char_start t -> str_slice v off e = Some x -> str_slice (v ++ t) off e = Some x.
Proof.
  intros Ht. unfold str_slice. destruct (is_char_boundary v off && is_char_boundary v e) eqn:E; [|done].
  intros H. assert (Hr : 0 <= off /\ off <= e /\ e <= len v).
  { unfold slice in H. destruct (_ && _) eqn:E2 in H; [|done]. bool_to_prop. lia. }
  apply andb_true_iff in E as [E1 E2].
  rewrite !char_boundary_app by (done || lia). cbn [andb]. by apply slice_app_l.
Qed.

(** ** Adding to the store *)

(** The store right after [push]: the new rule has no span yet. *)
Definition pushed (s : Store) (x : Located) : Store :=
  mkStore (st_lists s ++ [fst x]) (st_lines s ++ [line (snd x)]) (st_flags s ++ [flags_of (snd x)])
    (st_span_off s ++ [0]) (st_span_len s ++ [0]) (st_verbatim s).

Lemma store_push_ok s R x :
  store_ok s R ->
  or_full (store_push s (fst x) (line (snd x)) (is_exception (snd x)) (form_of (snd x))) (u32_max < load R)
    (fun y => y = (len R, pushed s x)).
Proof.
  intros Hs. unfold store_push. rewrite (so_lines _ _ Hs).
  replace (len (map _ R)) with (len R) by (unfold len; by rewrite length_map).
  pose proof (len_nonneg R). pose proof (load_len R).
  destruct (decide (len R <= u32_max)); [right|left; rewrite (try_from_None u32_max) by lia; split; [done|lia]].
  rewrite try_from_Some by lia. cbn. eexists. split; [done|]. unfold pushed. by rewrite (so_lines _ _ Hs).
Qed.

Lemma load_snoc R x : load R <= load (R ++ [x]).
Proof.
  rewrite load_app. cbn. pose proof (len_nonneg (text (snd x))). pose proof (pattern_len_nonneg (pattern (snd x))). lia.
Qed.

Lemma load_one x : load [x] = 1 + len (text (snd x)) + pattern_len (pattern (snd x)).
Proof. cbn. lia. Qed.

Lemma pushed_texts s R x s' :
  store_ok s R ->
  st_lists s' = st_lists (pushed s x) -> st_lines s' = st_lines (pushed s x) ->
  st_flags s' = st_flags (pushed s x) ->
  length (st_span_off s') = S (length R) -> length (st_span_len s') = S (length R) ->
  len (st_verbatim s') <= load (R ++ [x]) ->
  (forall i, (i < length R)%nat -> st_span_off s' !! i = st_span_off s !! i
     /\ st_span_len s' !! i = st_span_len s !! i) ->
  (exists t, st_verbatim s' = st_verbatim s ++ t /\ char_start t) ->
  (form_of (snd x) = FORM_VERBATIM ->
     exists off l, st_span_off s' !! length R = Some off /\ st_span_len s' !! length R = Some l
       /\ str_slice (st_verbatim s') off (off + l) = Some (cut_text (text (snd x)))) ->
  store_ok s' (R ++ [x]).
Proof.
  intros Hs H1 H2 H3 H4 H5 H6 Hkeep (t & Hv & Ht) Hnew. cbn in H1, H2, H3. split; try done.
  - by rewrite H1, (so_lists _ _ Hs), map_app.
  - by rewrite H2, (so_lines _ _ Hs), map_app.
  - by rewrite H3, (so_flags _ _ Hs), map_app.
  - rewrite length_app. cbn. lia.
  - rewrite length_app. cbn. lia.
  - intros i y Hi Hf. apply lookup_app_Some in Hi as [Hi|[Hge Hi]].
    + destruct (Hkeep i) as [Ho Hl]; [by eapply lookup_lt_Some|].
      destruct (so_text _ _ Hs i y Hi Hf) as (off & l & Ho' & Hl' & Hsl). exists off, l.
      rewrite Ho, Hl, Hv. split; [done|]. split; [done|]. by apply str_slice_app.
    + apply list_lookup_singleton_Some in Hi as [Hi ->].
      replace i with (length R) by lia. by apply Hnew.
Qed.

Lemma pushed_ok s R x :
  store_ok s R -> form_of (snd x) <> FORM_VERBATIM -> store_ok (pushed s x) (R ++ [x]).
Proof.
  intros Hs Hf. apply (pushed_texts s R); try done; cbn [pushed st_span_off st_span_len st_verbatim].
  - rewrite length_app, (so_offs _ _ Hs). cbn. lia.
  - rewrite length_app, (so_lens _ _ Hs). cbn. lia.
  - rewrite load_app, load_one. pose proof (so_bytes _ _ Hs). pose proof (len_nonneg (text (snd x))).
    pose proof (pattern_len_nonneg (pattern (snd x))). lia.
  - intros i Hi. rewrite !lookup_app_l by (rewrite ?(so_offs _ _ Hs), ?(so_lens _ _ Hs); lia). done.
  - exists []. by rewrite app_nil_r.
Qed.

Lemma cut_text_len t : (last_boundary t (Z.to_nat (Z.min (len t) 255)) <= length t)%nat
  /\ Z.of_nat (last_boundary t (Z.to_nat (Z.min (len t) 255))) <= 255.
Proof.
  destruct (last_boundary_ok t (Z.to_nat (Z.min (len t) 255))) as [H _]. unfold len in *. lia.
Qed.

Lemma push_verbatim_ok s R x :
  store_ok s R -> rule_wf (snd x) ->
  or_full (push_verbatim (pushed s x) (len R) (text (snd x))) (u32_max < load R)
    (fun s' => form_of (snd x) = FORM_VERBATIM -> store_ok s' (R ++ [x])).
Proof.
  intros Hs Hwf. unfold push_verbatim. cbn [pushed st_verbatim st_span_off st_span_len].
  pose proof (so_bytes _ _ Hs) as Hb. pose proof (len_nonneg (text (snd x))). pose proof (pattern_len_nonneg (pattern (snd x))).
  pose proof (len_nonneg (st_verbatim s)).
  destruct (decide (len (st_verbatim s) <= u32_max)); [right|left; rewrite (try_from_None u32_max) by lia; split; [done|lia]].
  rewrite (try_from_Some u32_max) by lia. cbn [mbind option_bind]. set (n := last_boundary _ _).
  destruct (cut_text_len (text (snd x))) as [Hn1 Hn2]. fold n in Hn1, Hn2.
  unfold set_span, set_span_off, set_span_len. cbn [st_span_off st_span_len st_lists st_lines st_flags st_verbatim].
  assert (Ho : len (st_span_off s) = len R) by (unfold len; by rewrite (so_offs _ _ Hs)).
  assert (Hn : len (st_span_len s) = len R) by (unfold len; by rewrite (so_lens _ _ Hs)).
  unfold index_set. rewrite len_app, len_cons, Ho. pose proof (len_nonneg R).
  change (len ([] : list Z)) with 0. zguard. cbn [mbind option_bind].
  cbn [st_span_off st_span_len st_lists st_lines st_flags st_verbatim].
  rewrite try_from_Some by (unfold u8_max; lia). cbn [mbind option_bind].
  rewrite len_app, len_cons, Hn. change (len ([] : list Z)) with 0. zguard. cbn [mbind option_bind].
  eexists. split; [done|]. intros Hf.
  assert (HnR : Z.to_nat (len R) = length R) by (unfold len; lia). rewrite !HnR.
  apply (pushed_texts s R); try done; cbn [st_lists st_lines st_flags st_span_off st_span_len st_verbatim].
  - rewrite length_insert, length_app, (so_offs _ _ Hs). cbn. lia.
  - rewrite length_insert, length_app, (so_lens _ _ Hs). cbn. lia.
  - rewrite len_app, load_app, load_one. lia.
  - intros i Hi. rewrite !list_lookup_insert_ne by lia.
    rewrite !lookup_app_l by (rewrite ?(so_offs _ _ Hs), ?(so_lens _ _ Hs); lia). done.
  - exists (text (snd x)). split; [done|]. apply Hwf.
  - intros _. exists (len (st_verbatim s)), (Z.of_nat n).
    rewrite !list_lookup_insert_eq by (rewrite length_app, ?(so_offs _ _ Hs), ?(so_lens _ _ Hs); cbn; lia).
    split; [done|]. split; [done|]. unfold str_slice.
    assert (Hcs : char_start (text (snd x))) by apply Hwf.
    rewrite (char_boundary_app _ _ (len (st_verbatim s))) by
      (first [done|lia|apply char_boundary_end]).
    rewrite char_boundary_shift; [|done|lia|apply last_boundary_ok]. cbn [andb].
    rewrite slice_Some by (rewrite ?len_app; unfold len in *; lia).
    replace (len (st_verbatim s) + Z.of_nat n - len (st_verbatim s)) with (Z.of_nat n) by lia.
    rewrite Nat2Z.id. unfold len. rewrite Nat2Z.id, drop_app_length. done.
Qed.

(** ** Adding a rule *)
Lemma entries_snoc {A} (f : RuleRef -> option A) R x :
  entries f 0 (R ++ [x])
  = entries f 0 R ++ match f (snd x) with Some k => [(k, len R)] | None => [] end.
Proof. rewrite entries_app. cbn [entries]. by rewrite app_nil_r. Qed.

Lemma entries_skip {A} (f : RuleRef -> option A) R x :
  f (snd x) = None -> entries f 0 (R ++ [x]) = entries f 0 R.
Proof. intros H. by rewrite entries_snoc, H, app_nil_r. Qed.

Lemma key_bytes_app a b : key_bytes (a ++ b) = key_bytes a + key_bytes b.
Proof. unfold key_bytes. induction a as [|e a IH]; cbn [app foldr]; [done|]. lia. Qed.

Lemma ki_insert_entries ki f R x k :
  ki_rep ki (entries f 0 R) -> len (ki_arena ki) = key_bytes (entries f 0 R) ->
  (forall r k, f r = Some k -> len k = pattern_len (pattern r)) ->
  len k <= u8_max -> f (snd x) = Some k ->
  or_full (ki_insert ki k (len R)) (u32_max < load R)
    (fun ki' => ki_rep ki' (entries f 0 (R ++ [x])) /\ len (ki_arena ki') = key_bytes (entries f 0 (R ++ [x]))).
Proof.
  intros Hrep Hb Hf Hk Hx. pose proof (key_bytes_load f 0 R Hf).
  generalize (ki_insert_rep ki (entries f 0 R) k (len R) Hrep Hk). apply or_full_weaken; [lia|]. intros ki' (Hrep' & Ha).
  rewrite entries_snoc, Hx. split; [done|].
  rewrite Ha, len_app, key_bytes_app, Hb. cbn. lia.
Qed.

Lemma buckets_weaken ws w b un :
  buckets_ok ws b un ->
  (forall a i, i ∈ default [] (b !! a) -> 0 <= i < len (ws ++ [w]))
  /\ (forall i, i ∈ un -> 0 <= i < len (ws ++ [w])).
Proof.
  intros (_ & H2 & H3). rewrite len_app. pose proof (len_nonneg [w]).
  split; [intros a i Hi; apply H2 in Hi|intros i Hi; apply H3 in Hi]; lia.
Qed.

Lemma buckets_snoc ws b un w :
  buckets_ok ws b un ->
  match wildcard_anchor (we_expr w) with
  | Some a => buckets_ok (ws ++ [w]) (<[a := default [] (b !! a) ++ [len ws]]> b) un
  | None => buckets_ok (ws ++ [w]) b (un ++ [len ws])
  end.
Proof.
  intros H. destruct (buckets_weaken ws w b un H) as (H2 & H3). destruct H as (H1 & _).
  assert (Hl : 0 <= len ws < len (ws ++ [w])).
  { rewrite len_app, len_cons. pose proof (len_nonneg ws). change (len ([] : list WildcardEntry)) with 0. lia. }
  assert (Hlast : forall i v, (ws ++ [w]) !! i = Some v -> ws !! i = Some v \/ Z.of_nat i = len ws /\ v = w).
  { intros i v Hi. apply lookup_app_Some in Hi as [Hi|[Hge Hi]]; [by left|right].
    apply list_lookup_singleton_Some in Hi as [Hi ->]. unfold len. split; [lia|done]. }
  destruct (wildcard_anchor (we_expr w)) as [a|] eqn:Ea; (split; [|split]); try done.
  - intros i v Hi. apply Hlast in Hi as [Hi|[Hi ->]].
    + specialize (H1 i v Hi). destruct (wildcard_anchor (we_expr v)) as [a'|]; [|done].
      destruct (decide (a' = a)) as [->|Hne].
      * rewrite lookup_insert_eq. cbn. apply elem_of_app. by left.
      * by rewrite lookup_insert_ne.
    + rewrite Ea, lookup_insert_eq, Hi. cbn. apply elem_of_app. right. by apply list_elem_of_singleton.
  - intros a' i Hi. destruct (decide (a' = a)) as [->|Hne].
    + rewrite lookup_insert_eq in Hi. cbn in Hi. apply elem_of_app in Hi as [Hi|Hi]; [by eapply H2|].
      apply list_elem_of_singleton in Hi. lia.
    + rewrite lookup_insert_ne in Hi by done. by eapply H2.
  - intros i v Hi. apply Hlast in Hi as [Hi|[Hi ->]].
    + specialize (H1 i v Hi). destruct (wildcard_anchor (we_expr v)); [done|]. apply elem_of_app. by left.
    + rewrite Ea, Hi. apply elem_of_app. right. by apply list_elem_of_singleton.
  - intros i Hi. apply elem_of_app in Hi as [Hi|Hi]; [by apply H3|]. apply list_elem_of_singleton in Hi. lia.
Qed.

Lemma valid_len d : valid_domain d -> 1 <= len d <= 253.
Proof. intros (H & _). done. Qed.

(** One rule more, pattern by pattern. *)
Section AddRule.
Variables (e : Engine) (R : list Located) (l : Z) (r : RuleRef).
Hypotheses (El : l = en_list_count e - 1) (Hb : building e R) (Hl : 0 <= l <= u16_max) (Hwf : rule_wf r).

(** The rule is added, or an arena was full before. *)
Definition adds : Prop :=
  or_full (add_rule e r) (u32_max < load R) (fun e' => building e' (R ++ [(l, r)]) /\ en_list_count e' = en_list_count e).

Lemma add_domain d : pattern r = PatternRef_Exact d \/ pattern r = PatternRef_Subtree d -> valid_domain d.
Proof using Hwf. destruct Hwf as (Hv & _). by intros [Hp|Hp]; rewrite Hp in Hv. Qed.

(** Up to the match on the pattern. *)
Ltac add_rule_starts :=
  unfold adds, add_rule, saturating_sub; rewrite Z.max_r, <- El by lia;
  rewrite (try_from_Some u16_max l) by done; cbn [mbind option_bind]; cbn zeta;
  change (bool_decide (action r = Except)) with (is_exception r); rewrite <- rule_body_eq;
  pose proof (store_push_ok (en_store e) R (l, r) (bg_store _ _ Hb)) as Hpush; cbn [fst snd] in Hpush;
  pose proof (pushed_ok (en_store e) R (l, r) (bg_store _ _ Hb)) as Hpok;
  pose proof (push_verbatim_ok (en_store e) R (l, r) (bg_store _ _ Hb) Hwf) as Hverb; cbn [fst snd] in Hverb, Hpok;
  destruct Hb as [_ Hsub Hex Hsubb Hexb Hw Hbk].

(** The new engine, field by field: an index without this rule's key is
    what it was. *)
Ltac add_rule_ends Hp :=
  right; (eexists; split; [reflexivity|]; split; [|reflexivity]); split;
  cbn [en_store en_subtree en_exact en_wildcards en_wildcard_buckets en_wildcard_unanchored];
  rewrite ?(entries_skip exact_key) by (cbn; unfold exact_key; by rewrite Hp);
  rewrite ?(entries_skip sub_key) by (cbn; unfold sub_key; by rewrite Hp);
  rewrite ?(entries_skip wild_key) by (cbn; unfold wild_key; by rewrite Hp);
  auto.

(** The store with the rule's text, if its form wants it there. *)
Lemma stored_text (verb : bool) :
  verb = (form_of r =? FORM_VERBATIM) ->
  or_full (if verb then push_verbatim (pushed (en_store e) (l, r)) (len R) (text r) else Some (pushed (en_store e) (l, r)))
    (u32_max < load R) (fun s => store_ok s (R ++ [(l, r)])).
Proof using Hb Hwf.
  intros ->. pose proof (bg_store _ _ Hb) as Hs. destruct (Z.eqb_spec (form_of r) FORM_VERBATIM) as [E|E].
  - generalize (push_verbatim_ok (en_store e) R (l, r) Hs Hwf). apply or_full_weaken; [done|]. auto.
  - right. eexists. split; [done|]. by apply pushed_ok.
Qed.

Lemma add_exact d : pattern r = PatternRef_Exact d -> adds.
Proof using El Hb Hl Hwf.
  intros Hp. pose proof (add_domain d (or_introl Hp)) as Hv. pose proof (stored_text _ eq_refl) as Htext. add_rule_starts. rewrite Hp.
  destruct (exact_form_spec r d Hwf Hp) as (f & Hf & _). rewrite Hf. cbn [mbind option_bind].
  assert (Hform : form_of r = f) by (unfold form_of; rewrite Hp, Hf; done). rewrite Hform in *.
  apply (or_full_bind _ _ _ _ _ Hpush). intros _ ->. cbn [fst snd].
  assert (Hk : exact_key (snd (l, r)) = Some d) by (cbn; unfold exact_key; by rewrite Hp).
  eapply or_full_bind; [apply (ki_insert_entries (en_exact e) exact_key R (l, r) d); try done;
    [apply exact_key_len|apply valid_len in Hv; unfold u8_max; lia]|].
  intros ki' (Hrep & Hbytes). apply (or_full_bind _ _ _ _ _ Htext). intros s Hs. add_rule_ends Hp.
Qed.

Lemma add_subtree d : pattern r = PatternRef_Subtree d -> adds.
Proof using El Hb Hl Hwf.
  intros Hp. pose proof (add_domain d (or_intror Hp)) as Hv. pose proof (stored_text _ eq_refl) as Htext. add_rule_starts. rewrite Hp.
  assert (Hform : form_of r = if subtree_canonical (rule_body r) d then FORM_SUBTREE else FORM_VERBATIM)
    by (unfold form_of; by rewrite Hp).
  rewrite <- Hform. apply (or_full_bind _ _ _ _ _ Hpush). intros _ ->. cbn [fst snd]. rewrite (reversed_valid d Hv). cbn [mbind option_bind].
  assert (Hk : sub_key (snd (l, r)) = Some (rkey d)) by (cbn; unfold sub_key; by rewrite Hp).
  eapply or_full_bind; [apply (ki_insert_entries (en_subtree e) sub_key R (l, r) (rkey d)); try done;
    [apply sub_key_len|apply valid_len in Hv; rewrite rkey_len; unfold u8_max; lia]|].
  intros ki' (Hrep & Hbytes). eapply (or_full_bind _ _ _ (fun s => store_ok s (R ++ [(l, r)]))).
  { rewrite Hform in Htext. destruct (subtree_canonical (rule_body r) d); exact Htext. }
  intros s Hs. add_rule_ends Hp.
Qed.

Lemma add_wildcard expr sub : pattern r = PatternRef_Wildcard expr sub -> adds.
Proof using El Hb Hl Hwf.
  intros Hp. add_rule_starts. rewrite Hp. assert (Hform : form_of r = FORM_VERBATIM) by (unfold form_of; by rewrite Hp).
  rewrite Hform in *. apply (or_full_bind _ _ _ _ _ Hpush). intros _ ->. cbn [fst snd].
  apply (or_full_bind _ _ _ _ _ Hverb). intros sv Hsv. specialize (Hsv eq_refl).
  assert (Hwl : len (en_wildcards e) <= len R).
  { rewrite Hw. unfold len at 1. rewrite length_map. apply (entries_len wild_key 0). }
  pose proof (load_len R). pose proof (len_nonneg (en_wildcards e)).
  destruct (decide (len (en_wildcards e) <= u32_max)); [|left; rewrite (try_from_None u32_max) by lia; split; [done|lia]].
  rewrite (try_from_Some u32_max) by lia. cbn [mbind option_bind].
  pose proof (buckets_snoc _ _ _ (mkWild expr sub (len R)) Hbk) as Hbk'. cbn [we_expr] in Hbk'.
  assert (Hw' : en_wildcards e ++ [mkWild expr sub (len R)] = map wild_entry (entries wild_key 0 (R ++ [(l, r)]))).
  { rewrite entries_snoc, map_app, <- Hw. cbn. unfold wild_key. by rewrite Hp. }
  destruct (wildcard_anchor expr) as [a|]; add_rule_ends Hp.
Qed.
End AddRule.

Lemma add_rule_building e R l r :
  l = en_list_count e - 1 -> building e R -> 0 <= l <= u16_max -> rule_wf r ->
  or_full (add_rule e r) (u32_max < load R) (fun e' => building e' (R ++ [(l, r)]) /\ en_list_count e' = en_list_count e).
Proof.
  intros El Hb Hl Hwf. destruct (pattern r) as [d|d|expr sub] eqn:Hp;
    [by eapply add_exact|by eapply add_subtree|by eapply add_wildcard].
Qed.

(** ** Finishing: spans point at the sorted keys *)

(** Everything of a store but one span array. *)
Definition same_but_offs (s s' : Store) : Prop :=
  st_lists s' = st_lists s /\ st_lines s' = st_lines s /\ st_flags s' = st_flags s
  /\ st_span_len s' = st_span_len s /\ st_verbatim s' = st_verbatim s
  /\ length (st_span_off s') = length (st_span_off s).
Definition same_but_lens (s s' : Store) : Prop :=
  st_lists s' = st_lists s /\ st_lines s' = st_lines s /\ st_flags s' = st_flags s
  /\ st_span_off s' = st_span_off s /\ st_verbatim s' = st_verbatim s
  /\ length (st_span_len s') = length (st_span_len s).

(** [v] written over [old] at the wanted ids of [ups]. *)
Definition updated (want : Z -> bool) (R : list Located) (ups : list (Z * Z)) (old v : list Z) : Prop :=
  (forall id z l r, (id, z) ∈ ups -> index R id = Some (l, r) -> want (form_of r) = true ->
     index v id = Some z)
  /\ (forall id l r, index R id = Some (l, r) -> want (form_of r) = false -> index v id = index old id).

Lemma index_set_index {A} (v v' : list A) i x j :
  index_set v i x = Some v' -> index v' j = if decide (i = j) then Some x else index v j.
Proof.
  unfold index_set, index. intros H. destruct (_ && _) eqn:E; [|done]. bool_to_prop. injection H as <-.
  unfold len in *. destruct (decide (i = j)) as [<-|Hne].
  - zguard. apply list_lookup_insert_eq. lia.
  - destruct (0 <=? j) eqn:Ej; [|done]. bool_to_prop. apply list_lookup_insert_ne. lia.
Qed.

Lemma updated_nil want R v : updated want R [] v v.
Proof. split; [|done]. intros id z l r H. by apply elem_of_nil in H. Qed.

Lemma updated_skip want R id z ups old v l r :
  index R id = Some (l, r) -> want (form_of r) = false ->
  updated want R ups old v -> updated want R ((id, z) :: ups) old v.
Proof.
  intros Hi Hw (H1 & H2). split; [|done]. intros id' z' l' r' Hin Hi' Hw'.
  apply elem_of_cons in Hin as [[= -> ->]|Hin]; [|by eapply H1]. rewrite Hi in Hi'. simplify_eq. congruence.
Qed.

Lemma updated_set want R id z ups old old' v l r :
  index R id = Some (l, r) -> want (form_of r) = true -> index_set old id z = Some old' ->
  id ∉ map fst ups ->
  updated want R ups old' v ->
  (forall j, j ∉ map fst ups -> index v j = index old' j) ->
  updated want R ((id, z) :: ups) old v.
Proof.
  intros Hi Hw Hset Hnd (H1 & H2) Hkeep. pose proof (index_set_index _ _ _ _ id Hset) as Hid.
  rewrite decide_True in Hid by done. split.
  - intros id' z' l' r' Hin Hi' Hw'. apply elem_of_cons in Hin as [[= -> ->]|Hin]; [|by eapply H1].
    by rewrite Hkeep.
  - intros id' l' r' Hi' Hw'. rewrite (H2 _ _ _ Hi' Hw'), (index_set_index _ _ _ _ id' Hset).
    destruct (decide (id = id')) as [<-|]; [|done]. rewrite Hi in Hi'. simplify_eq. congruence.
Qed.

(** One pass over a span array: [upd] writes it through [index_set]. *)
Section Pass.
Context (want : Z -> bool) (R : list Located).
Context (get : Store -> list Z) (same : Store -> Store -> Prop).
Context (upd : Store -> Z -> Z -> option Store) (step : Store -> Z -> Z -> option Store).
Context (same_refl : forall s, same s s).
Context (same_trans : forall a b c, same a b -> same b c -> same a c).
Context (same_flags : forall a b, same a b -> st_flags b = st_flags a).
Context (same_len : forall a b, same a b -> length (get b) = length (get a)).
Context (upd_spec : forall s id z, 0 <= id < len (get s) ->
  exists s', upd s id z = Some s' /\ same s s' /\ index_set (get s) id z = Some (get s')).
Context (step_eq : forall s id z, step s id z = (f ← store_form s id; if want f then upd s id z else Some s)).

Lemma pass_spec ups s :
  st_flags s = map (fun x => flags_of (snd x)) R -> length (get s) = length R ->
  Forall (fun u => exists x, index R (fst u) = Some x) ups -> NoDup (map fst ups) ->
  exists s', foldr (fun u k s => s ← step s (fst u) (snd u); k s) Some ups s = Some s' /\ same s s'
    /\ updated want R ups (get s) (get s')
    /\ (forall j, j ∉ map fst ups -> index (get s') j = index (get s) j).
Proof.
  intros Hfl Hlen Hin. revert s Hfl Hlen. induction Hin as [|[id z] ups ([l r] & Hi) Hin IH];
    intros s Hfl Hlen Hnd; cbn [foldr map fst snd].
  { exists s. split; [done|]. split; [apply same_refl|]. split; [apply updated_nil|done]. }
  inversion Hnd as [|? ? Hni Hnd']; subst. cbn [fst] in Hi.
  rewrite step_eq, (store_form_ok s R id l r Hfl Hi). cbn [mbind option_bind].
  destruct (want (form_of r)) eqn:Ew.
  - destruct (upd_spec s id z) as (s1 & E1 & Hs1 & Hset).
    { apply index_Some_lt in Hi. unfold len in *. by rewrite Hlen. }
    rewrite E1. cbn [mbind option_bind].
    destruct (IH s1) as (s2 & -> & Hs2 & Hup & Hk);
      [by rewrite (same_flags _ _ Hs1)|by rewrite (same_len _ _ Hs1)|done|].
    exists s2. split; [done|]. split; [by eapply same_trans|].
    split; [by eapply updated_set|]. intros j Hj. apply not_elem_of_cons in Hj as [Hj1 Hj2].
    rewrite (Hk j Hj2), (index_set_index _ _ _ _ j Hset). by rewrite decide_False.
  - cbn [mbind option_bind]. destruct (IH s) as (s2 & -> & Hs2 & Hup & Hk); [done..|].
    exists s2. split; [done|]. split; [done|]. split; [by eapply updated_skip|].
    intros j Hj. apply not_elem_of_cons in Hj as [_ Hj]. by apply Hk.
Qed.
End Pass.

Lemma relocate_all_spec want R locs s :
  st_flags s = map (fun x => flags_of (snd x)) R -> length (st_span_off s) = length R ->
  Forall (fun u => exists x, index R (snd (fst u)) = Some x) locs -> NoDup (map (fun u => snd (fst u)) locs) ->
  exists s', relocate_all (relocate_if want) locs s = Some s' /\ same_but_offs s s'
    /\ updated want R (map (fun u => (snd (fst u), snd u)) locs) (st_span_off s) (st_span_off s').
Proof.
  intros Hfl Hlen Hin Hnd.
  destruct (pass_spec want R st_span_off same_but_offs set_span_off (relocate_if want)) with
    (ups := map (fun u => (snd (fst u), snd u)) locs) (s := s) as (s' & E & Hs & Hup & _);
    try done; try (unfold same_but_offs; intuition congruence).
  - intros s0 id z Hid. unfold set_span_off, index_set. zguard. cbn [mbind option_bind].
    eexists. split; [done|]. cbn [st_span_off]. split; [|done].
    repeat split. cbn. by rewrite length_insert.
  - apply List.Forall_map. eapply Forall_impl; [exact Hin|]. done.
  - rewrite map_map. exact Hnd.
  - exists s'. split; [|done]. rewrite <- E. clear. revert s.
    induction locs as [|[[k id] off] locs IH]; intros s; [done|]. cbn [relocate_all map foldr fst snd].
    destruct (relocate_if want s id off) as [s1|]; [|done]. cbn [mbind option_bind]. apply IH.
Qed.

Lemma set_lens_spec want R ups s :
  st_flags s = map (fun x => flags_of (snd x)) R -> length (st_span_len s) = length R ->
  Forall (fun u => exists x, index R (fst u) = Some x) ups -> NoDup (map fst ups) ->
  exists s', set_lens want ups s = Some s' /\ same_but_lens s s'
    /\ updated want R ups (st_span_len s) (st_span_len s').
Proof.
  intros Hfl Hlen Hin Hnd.
  destruct (pass_spec want R st_span_len same_but_lens set_span_len
    (fun s id z => f ← store_form s id; if want f then set_span_len s id z else Some s)) with
    (ups := ups) (s := s) as (s' & E & Hs & Hup & _);
    try done; try (unfold same_but_lens; intuition congruence).
  - intros s0 id z Hid. unfold set_span_len, index_set. zguard. cbn [mbind option_bind].
    eexists. split; [done|]. cbn [st_span_len]. split; [|done].
    repeat split. cbn. by rewrite length_insert.
  - exists s'. split; [|done]. rewrite <- E. clear. revert s.
    induction ups as [|[id z] ups IH]; intros s; [done|]. cbn [set_lens foldr fst snd].
    destruct (store_form s id) as [f|]; [|done]. cbn [mbind option_bind].
    destruct (if want f then set_span_len s id z else Some s) as [s1|]; [|done]. cbn [mbind option_bind]. apply IH.
Qed.

(** ** The text of a hit *)
Lemma utf8_valid_ascii s : Forall (fun b => 0 <= b < 128) s -> utf8_valid s = true.
Proof.
  induction 1 as [|b s Hb Hs IH]; [done|]. cbn [utf8_valid]. unfold between. by zguard.
Qed.

Lemma from_utf8_domain d : valid_domain d -> from_utf8 d = Some d.
Proof.
  intros H. unfold from_utf8. rewrite utf8_valid_ascii; [done|].
  apply Forall_forall. intros b Hb. apply (valid_domain_byte _ _ H) in Hb. lia.
Qed.

(** The spans of a finished store: a canonical rule's span is its key. *)
Record spans_ok (e : Engine) (R : list Located) : Prop := {
  sp_lists : st_lists (en_store e) = map fst R;
  sp_lines : st_lines (en_store e) = map (fun x => line (snd x)) R;
  sp_flags : st_flags (en_store e) = map (fun x => flags_of (snd x)) R;
  sp_text : forall id l r, index R id = Some (l, r) ->
    exists off n, index (st_span_off (en_store e)) id = Some off
      /\ index (st_span_len (en_store e)) id = Some n
      /\ (form_of r = FORM_VERBATIM ->
            str_slice (st_verbatim (en_store e)) off (off + n) = Some (cut_text (text r)))
      /\ (forall k, form_of r = FORM_SUBTREE -> sub_key r = Some k ->
            slice (ki_arena (en_subtree e)) off (off + n) = Some k)
      /\ (forall k, is_exact_form (form_of r) = true -> exact_key r = Some k ->
            slice (ki_arena (en_exact e)) off (off + n) = Some k)
}.

(** The canonical text rebuilt from the key is the rule's own text. *)
Lemma matched_ok e R id l r :
  spans_ok e R -> rule_wf r -> index R id = Some (l, r) -> matched e id = Some (l, report r).
Proof.
  intros Hs Hwf Hi. destruct (sp_text _ _ Hs id l r Hi) as (off & n & Ho & Hn & Hv & Hsub & Hex).
  unfold matched. rewrite (is_except_ok _ R id l r (sp_flags _ _ Hs) Hi). cbn [mbind option_bind].
  rewrite Ho, Hn. cbn [mbind option_bind].
  rewrite (store_form_ok _ R id l r (sp_flags _ _ Hs) Hi). cbn [mbind option_bind].
  rewrite (sp_lists _ _ Hs), (sp_lines _ _ Hs), (lookup_map_index fst _ _ _ Hi).
  rewrite (lookup_map_index (fun x => line (snd x)) _ _ _ Hi). cbn [fst snd].
  pose proof (rule_text_body r Hwf) as Ht. pose proof (proj1 Hwf) as Hvp.
  unfold report, reported.
  assert (Hact : (if is_exception r then Except else Block) = action r).
  { unfold is_exception. by destruct (action r). }
  destruct (form_of_cases r Hwf) as [Hf|[(d & Hp & Hf & Hb)|(d & Hp & Hf)]].
  - rewrite Hf. cbn [FORM_VERBATIM FORM_SUBTREE Z.eqb is_exact_form FORM_EXACT FORM_EXACT_CARET FORM_HOSTS_ZERO orb].
    rewrite (Hv Hf). cbn [mbind option_bind]. by rewrite Hact.
  - assert (Hd : valid_domain d) by (by rewrite Hp in Hvp). rewrite Hf.
    cbn [FORM_SUBTREE FORM_VERBATIM Z.eqb Pos.eqb].
    rewrite (Hsub (rkey d) Hf) by (unfold sub_key; by rewrite Hp). cbn [mbind option_bind].
    rewrite reversed_valid by (by apply valid_domain_rkey). cbn [mbind option_bind].
    rewrite rkey_involutive, from_utf8_domain by done. cbn [mbind option_bind].
    rewrite Hact, Ht, Hb. done.
  - assert (Hd : valid_domain d) by (by rewrite Hp in Hvp).
    assert (Hk : exact_key r = Some d) by (unfold exact_key; by rewrite Hp).
    assert (Hxf : is_exact_form (form_of r) = true) by (destruct Hf as [[-> _]|[[-> _]|[-> _]]]; done).
    specialize (Hex d Hxf Hk).
    destruct Hf as [[-> Hb]|[[-> Hb]|(-> & Hx & Hb)]];
      cbn [FORM_SUBTREE FORM_VERBATIM FORM_EXACT FORM_EXACT_CARET FORM_HOSTS_ZERO Z.eqb Pos.eqb is_exact_form orb];
      rewrite Hex; cbn [mbind option_bind]; rewrite from_utf8_domain by done; cbn [mbind option_bind];
      rewrite Hact, Ht, Hb; [by destruct (is_exception r)|done|by rewrite Hx].
Qed.

(** ** [finish] *)
Lemma entries_ids {A} (f : RuleRef -> option A) R ents :
  ents ≡ₚ entries f 0 R ->
  Forall (fun u => exists x, index R (snd u) = Some x) ents /\ NoDup (map snd ents).
Proof.
  intros Hp. split.
  - apply Forall_forall. intros [k id] Hin. rewrite Hp in Hin.
    apply elem_of_entries0 in Hin as (l & r & H & _). by eexists.
  - rewrite (Permutation_map snd Hp). apply entries_NoDup.
Qed.

Section Finished.
Context `{UnstableSort}.

(** What finishing one index gives: the sorted index, and the wanted spans
    set to the keys. *)
Lemma finish_index want f ki R s :
  ki_rep ki (entries f 0 R) ->
  (forall r k, f r = Some k -> len k = pattern_len (pattern r)) ->
  st_flags s = map (fun x => flags_of (snd x)) R -> length (st_span_off s) = length R ->
  ki_finish (relocate_if want) ki s = None /\ u32_max < load R
  \/ exists ki' s' ents, ki_finish (relocate_if want) ki s = Some (ki', s')
    /\ ki_rep ki' ents /\ StronglySorted key_le ents /\ ents ≡ₚ entries f 0 R
    /\ same_but_offs s s'
    /\ (forall id l r k, index R id = Some (l, r) -> f r = Some k -> want (form_of r) = true ->
          exists off, index (st_span_off s') id = Some off
            /\ slice (ki_arena ki') off (off + len k) = Some k)
    /\ (forall id l r, index R id = Some (l, r) -> want (form_of r) = false ->
          index (st_span_off s') id = index (st_span_off s) id).
Proof.
  intros Hrep Hf Hfl Hlen. pose proof (entries_len f 0 R). pose proof (load_len R). pose proof (key_bytes_load f 0 R Hf).
  destruct (ki_finish_spec (relocate_if want) ki (entries f 0 R) Hrep) as
    [(Hnone & Hfull)|(ki' & ents & locs & Hrep' & Hp & Hs & Hlocs & Hsl & Hrun)]; [left; split; [by rewrite Hnone|lia]|right].
  destruct (entries_ids f R ents Hp) as [Hin Hnd].
  destruct (relocate_all_spec want R locs s Hfl Hlen) as (s' & E & Hsame & Hup1 & Hup2).
  { rewrite <- Hlocs in Hin. rewrite List.Forall_map in Hin. eapply Forall_impl; [exact Hin|]. done. }
  { rewrite <- Hlocs, map_map in Hnd. done. }
  exists ki', s', ents. rewrite Hrun, E. cbn [mbind option_bind]. split; [done|].
  split; [done|]. split; [done|]. split; [done|]. split; [done|]. split; [|done].
  intros id l r k Hi Hk Hw.
  assert (Hent : (k, id) ∈ ents) by (rewrite Hp; apply elem_of_entries0; by exists l, r).
  rewrite <- Hlocs in Hent. apply list_elem_of_fmap in Hent as ([[k' id'] off] & [= -> ->] & Hloc).
  exists off. split.
  - eapply Hup1; [|exact Hi|exact Hw]. apply list_elem_of_fmap. by exists (k', id', off).
  - rewrite Forall_forall in Hsl. by apply (Hsl _ Hloc).
Qed.

(** The length pass over a finished index. *)
Lemma finish_lens want f ki R ents s :
  ki_rep ki ents -> ents ≡ₚ entries f 0 R ->
  st_flags s = map (fun x => flags_of (snd x)) R -> length (st_span_len s) = length R ->
  exists s', set_lens want (zip (ki_rules ki) (ki_lens ki)) s = Some s' /\ same_but_lens s s'
    /\ (forall id l r k, index R id = Some (l, r) -> f r = Some k -> want (form_of r) = true ->
          index (st_span_len s') id = Some (len k))
    /\ (forall id l r, index R id = Some (l, r) -> want (form_of r) = false ->
          index (st_span_len s') id = index (st_span_len s) id).
Proof.
  intros (_ & Hlens & Hrules & _) Hp Hfl Hlen. destruct (entries_ids f R ents Hp) as [Hin Hnd].
  set (ups := map (fun e => (snd e, len (fst e))) ents).
  assert (Hz : zip (ki_rules ki) (ki_lens ki) = ups).
  { rewrite Hrules, Hlens. subst ups. clear. induction ents as [|e ents IH]; [done|]. cbn. by rewrite IH. }
  rewrite Hz. destruct (set_lens_spec want R ups s Hfl Hlen) as (s' & E & Hsame & H1 & H2).
  { apply List.Forall_map. eapply Forall_impl; [exact Hin|]. done. }
  { subst ups. by rewrite map_map. }
  exists s'. split; [done|]. split; [done|]. split; [|done].
  intros id l r k Hi Hk Hw. eapply H1; [|exact Hi|exact Hw]. apply list_elem_of_fmap.
  exists (k, id). split; [done|]. rewrite Hp. apply elem_of_entries0. by exists l, r.
Qed.
End Finished.

Lemma index_total {A} (l : list A) i n : 0 <= i < Z.of_nat n -> length l = n -> exists x, index l i = Some x.
Proof.
  intros Hi Hl. unfold index. zguard. apply lookup_lt_is_Some. lia.
Qed.

Lemma form_of_wants r k :
  rule_wf r ->
  (form_of r = FORM_SUBTREE -> sub_key r = Some k -> is_exact_form (form_of r) = false)
  /\ (is_exact_form (form_of r) = true -> (FORM_SUBTREE =? form_of r) = false)
  /\ (form_of r = FORM_VERBATIM -> (FORM_SUBTREE =? form_of r) = false /\ is_exact_form (form_of r) = false).
Proof.
  intros Hwf. destruct (form_of_cases r Hwf) as [->|[(d & _ & -> & _)|(d & _ & [[-> _]|[[-> _]|[-> _]]])]];
    repeat split; done.
Qed.

Section Finish2.
Context `{UnstableSort}.

Lemma finish_built e R :
  building e R -> Forall (fun x => rule_wf (snd x)) R -> or_full (finish e) (u32_max < load R) (fun e' => built e' R).
Proof.
  intros Hb Hwf. destruct Hb as [Hst Hsub Hex _ _ Hw Hbk].
  destruct (finish_index (Z.eqb FORM_SUBTREE) sub_key (en_subtree e) R (en_store e)) as
    [(E1 & Hfull)|(sub & s1 & ents1 & E1 & Hrep1 & Hsort1 & Hp1 & (L1 & N1 & F1 & T1 & V1 & O1) & A1 & K1)];
    [done|apply sub_key_len|apply Hst|apply Hst|left; split; [unfold finish; by rewrite E1|done]|].
  destruct (finish_index is_exact_form exact_key (en_exact e) R s1) as
    [(E2 & Hfull)|(ex & s2 & ents2 & E2 & Hrep2 & Hsort2 & Hp2 & (L2 & N2 & F2 & T2 & V2 & O2) & A2 & K2)];
    [done|apply exact_key_len|rewrite F1; apply Hst|rewrite O1; apply Hst|
     left; split; [unfold finish; rewrite E1; cbn [mbind option_bind]; by rewrite E2|done]|].
  destruct (finish_lens (Z.eqb FORM_SUBTREE) sub_key sub R ents1 s2) as
    (s3 & E3 & (L3 & N3 & F3 & T3 & V3 & O3) & A3 & K3);
    [done|done|rewrite F2, F1; apply Hst|rewrite T2, T1; apply Hst|].
  destruct (finish_lens is_exact_form exact_key ex R ents2 s3) as
    (s4 & E4 & (L4 & N4 & F4 & T4 & V4 & O4) & A4 & K4);
    [done|done|rewrite F3, F2, F1; apply Hst|rewrite O3, T2, T1; apply Hst|].
  unfold finish. rewrite E1. cbn [mbind option_bind]. rewrite E2. cbn [mbind option_bind].
  rewrite E3. cbn [mbind option_bind]. rewrite E4. cbn [mbind option_bind].
  right. eexists. split; [reflexivity|]. set (e' := mkEngine _ _ _ _ _ _ _).
  assert (Hspans : spans_ok e' R).
  { split; cbn [e' en_store en_subtree en_exact]; [rewrite L4, L3, L2, L1; apply Hst|rewrite N4, N3, N2, N1; apply Hst|
      rewrite F4, F3, F2, F1; apply Hst|].
    intros id l r Hi. pose proof (index_Some_lt _ _ _ Hi) as Hr. unfold len in Hr.
    destruct (index_total (st_span_off s4) id (length R) Hr) as (off & Hoff).
    { rewrite T4, T3, O2, O1. apply Hst. }
    destruct (index_total (st_span_len s4) id (length R) Hr) as (n & Hn).
    { rewrite O4, O3, T2, T1. apply Hst. }
    exists off, n. split; [done|]. split; [done|].
    assert (Hrwf : rule_wf r).
    { rewrite Forall_forall in Hwf. apply (Hwf (l, r)). unfold index in Hi. destruct (0 <=? id); [|done].
      by eapply list_elem_of_lookup_2. }
    rewrite T4, T3 in Hoff. rewrite V4, V3, V2, V1. repeat split.
    - intros Hf. destruct (form_of_wants r [] Hrwf) as (_ & _ & Hv). destruct (Hv Hf) as [W1 W2].
      rewrite (K2 _ _ _ Hi W2), (K1 _ _ _ Hi W1) in Hoff.
      rewrite (K4 _ _ _ Hi W2), (K3 _ _ _ Hi W1), T2, T1 in Hn.
      unfold index in *. destruct (0 <=? id); [|done].
      destruct (so_text _ _ Hst _ _ Hi Hf) as (off' & n' & H1 & H2 & Hs). by simplify_eq.
    - intros k Hf Hk. destruct (form_of_wants r k Hrwf) as (Hx & _ & _). specialize (Hx Hf Hk).
      assert (W : (FORM_SUBTREE =? form_of r) = true) by (by rewrite Hf).
      rewrite (K2 _ _ _ Hi Hx) in Hoff. rewrite (K4 _ _ _ Hi Hx), (A3 _ _ _ _ Hi Hk W) in Hn.
      destruct (A1 _ _ _ _ Hi Hk W) as (off' & Ho' & Hsl). rewrite Hoff in Ho'. by simplify_eq.
    - intros k Hf Hk. rewrite (A4 _ _ _ _ Hi Hk Hf) in Hn.
      destruct (A2 _ _ _ _ Hi Hk Hf) as (off' & Ho' & Hsl). rewrite Hoff in Ho'. by simplify_eq. }
  split; cbn [e' en_store en_subtree en_exact en_wildcards en_wildcard_buckets en_wildcard_unanchored];
    [| |by exists ents1|by exists ents2|done|done].
  - intros id l r Hi. eapply is_except_ok; [|exact Hi]. apply (sp_flags _ _ Hspans).
  - intros id l r Hi. apply (matched_ok e' R); [done| |done].
    rewrite Forall_forall in Hwf. apply (Hwf (l, r)). unfold index in Hi. destruct (0 <=? id); [|done].
    by eapply list_elem_of_lookup_2.
Qed.
End Finish2.
