(* ===== verification/VerdictSpec.v ===== *)
(** * VerdictSpec: a verdict is right about the rule list

    The candidate rules a query visits, what a scan over them leaves, and
    the theorems: the build does not panic within the arena bounds, every
    query gets a verdict, the verdict is exceptions over blocks over no
    match for exactly the rules that cover the name, and the reported rule
    is one of them with its own text. *)
From S2P Require Import Prelude Text FilterTypes Parse ParseSpec Engine KeyIndexSpec LabelsSpec GlobSpec EngineSpec.

(** ** Specification *)

(** The rules of the lists [txts], in order, with their list indices. *)
Fixpoint rules_from (i : Z) (txts : list (list Z)) : list Located :=
  match txts with
  | [] => []
  | t :: txts => map (pair i) (refs_of t) ++ rules_from (i + 1) txts
  end.
Definition rules_of (txts : list (list Z)) : list Located := rules_from 0 txts.

(** What the builder can hold: list indices are [u16], arena offsets and
    rule ids [u32]. *)
Definition fits (txts : list (list Z)) : Prop :=
  len txts <= 65536 /\ load (rules_of txts) <= u32_max.

(** A hit reports the rule it came from; a text the engine cannot rebuild
    is cut to its longest prefix of at most 255 bytes of whole characters. *)
Definition reports (r : RuleRef) (m : MatchedRule) : Prop :=
  mr_action m = action r /\ mr_line m = line r
  /\ (mr_text m = text r \/ (255 < len (text r) /\ mr_text m = cut_text (text r))).

(** The decision over a rule list: an exception beats a block, a block
    beats nothing, and nothing means no rule covers the name. *)
Definition verdict_spec (R : list Located) (q : list Z) (v : Verdict) : Prop :=
  match v with
  | VExcept l m => exists r, (l, r) ∈ R /\ action r = Except /\ covers (pattern r) q /\ reports r m
  | VBlock l m =>
      (exists r, (l, r) ∈ R /\ action r = Block /\ covers (pattern r) q /\ reports r m)
      /\ forall x, x ∈ R -> action (snd x) = Except -> ~ covers (pattern (snd x)) q
  | VNoMatch => forall x, x ∈ R -> ~ covers (pattern (snd x)) q
  end.

(** ** Candidates *)

(** The wildcard rules among [idxs] that match the name. *)
Definition wild_id (ws : list WildcardEntry) (q : list Z) (idx : Z) : list Z :=
  match index ws idx with
  | Some w => if wildcard_matches (we_expr w) q (we_include_subdomains w) then [we_rule w] else []
  | None => []
  end.
Definition wild_ids (ws : list WildcardEntry) (q : list Z) (idxs : list Z) : list Z :=
  concat (map (wild_id ws q) idxs).

Definition subtree_ids (ents : list (list Z * Z)) (rv : list Z) (ends : list Z) : list Z :=
  concat (map (fun i => entries_at (take (Z.to_nat i) rv) ents) ends).

Definition bucket_ids (e : Engine) (q : list Z) (suffixes : list (list Z)) : list Z :=
  concat (map (fun s => wild_ids (en_wildcards e) q (default [] (en_wildcard_buckets e !! s))) suffixes).

(** What the scan over all candidates decides. *)
Definition conclude (e : Engine) (s : Scan) : option Verdict :=
  match s with
  | Found id => except_verdict e id
  | Continue None => Some VNoMatch
  | Continue (Some id) => '(list_, rule) ← matched e id; Some (VBlock list_ rule)
  end.

(** A rule a query visits: as [covers], through the code's own tests. *)
Definition visited (rv q : list Z) (r : RuleRef) : Prop :=
  match pattern r with
  | PatternRef_Exact d => d = q
  | PatternRef_Subtree d => exists i, i ∈ boundaries rv /\ take (Z.to_nat i) rv = rkey d
  | PatternRef_Wildcard x s => wildcard_matches x q s = true
  end.

(** ** Scans *)
Lemma scan_ids_app e a b block :
  scan_ids e (a ++ b) block
  = (s ← scan_ids e a block; match s with Found id => Some (Found id) | Continue bl => scan_ids e b bl end).
Proof.
  revert block. induction a as [|id a IH]; intros block; cbn [app scan_ids]; [done|].
  destruct (consider e id block) as [[x|bl]|]; cbn [mbind option_bind]; [done|apply IH|done].
Qed.

Lemma scan_wildcards_eq e q idxs block :
  Forall (fun i => 0 <= i < len (en_wildcards e)) idxs ->
  scan_wildcards e q idxs block = scan_ids e (wild_ids (en_wildcards e) q idxs) block.
Proof.
  intros H. revert block. induction H as [|i idxs Hi H IH]; intros block; [done|].
  cbn [scan_wildcards]. unfold wild_ids. cbn [map concat]. rewrite scan_ids_app. fold (wild_ids (en_wildcards e) q idxs).
  destruct (index_total (en_wildcards e) i _ Hi eq_refl) as (w & Hw). unfold wild_id. rewrite Hw.
  cbn [mbind option_bind]. destruct (wildcard_matches _ _ _); cbn [scan_ids mbind option_bind]; [|apply IH].
  destruct (consider e (we_rule w) block) as [[x|bl]|]; cbn [mbind option_bind]; [done|apply IH|done].
Qed.

Lemma scan_boundaries_eq e rv ents ends block :
  ki_rep (en_subtree e) ents -> StronglySorted key_le ents ->
  Forall (fun i => i ∈ boundaries rv) ends ->
  scan_boundaries e rv ends block = scan_ids e (subtree_ids ents rv ends) block.
Proof.
  intros Hrep Hs H. revert block. induction H as [|i ends Hi H IH]; intros block; [done|].
  cbn [scan_boundaries]. rewrite (boundary_slice _ _ Hi). cbn [mbind option_bind].
  rewrite (equal_range_spec _ ents) by done. cbn [mbind option_bind].
  unfold subtree_ids. cbn [map concat]. rewrite scan_ids_app.
  destruct (scan_ids e (entries_at _ _) block) as [[x|bl]|]; cbn [mbind option_bind]; [done|apply IH|done].
Qed.

Lemma tails_length s : (length (tails_after_dot s) <= length s)%nat.
Proof. induction s as [|a s IH]; cbn; [lia|]. destruct (a =? c_dot); cbn; lia. Qed.

Lemma scan_buckets_eq fuel e q suffix block :
  (forall a i, i ∈ default [] (en_wildcard_buckets e !! a) -> 0 <= i < len (en_wildcards e)) ->
  (length (tails_after_dot suffix) < fuel)%nat ->
  scan_buckets fuel e q suffix block
  = scan_ids e (bucket_ids e q (suffix :: tails_after_dot suffix)) block.
Proof.
  intros Hb. revert suffix block. induction fuel as [|fuel IH]; intros suffix block Hf; [lia|].
  cbn [scan_buckets]. rewrite scan_wildcards_eq by (apply Forall_forall; intros i; apply Hb).
  unfold bucket_ids at 1. cbn [map concat]. rewrite scan_ids_app.
  destruct (scan_ids e (wild_ids _ _ _) block) as [[x|bl]|]; cbn [mbind option_bind]; [done| |done].
  destruct (find c_dot suffix) as [dot|] eqn:E.
  - rewrite IH by (rewrite (tails_find _ _ E) in Hf; cbn in Hf; lia). by rewrite (tails_find _ _ E).
  - by rewrite (tails_no_dot _ E).
Qed.

Lemma wild_ids_nil q idxs : wild_ids [] q idxs = [].
Proof.
  unfold wild_ids. induction idxs as [|i idxs IH]; [done|]. cbn [map concat].
  rewrite IH, app_nil_r. unfold wild_id, index. by destruct (0 <=? i).
Qed.

Lemma bucket_ids_nil e q ss : en_wildcards e = [] -> bucket_ids e q ss = [].
Proof.
  intros H. unfold bucket_ids. induction ss as [|s ss IH]; [done|]. cbn [map concat].
  by rewrite H, wild_ids_nil in *.
Qed.

(** What a scan leaves: the first exception, or no exception and the first
    rule visited. *)
Lemma scan_ids_spec e R ids block :
  built e R -> Forall (fun id => exists x, index R id = Some x) ids ->
  exists s, scan_ids e ids block = Some s
    /\ match s with
       | Found id => id ∈ ids /\ exists l r, index R id = Some (l, r) /\ action r = Except
       | Continue b =>
           (forall id l r, id ∈ ids -> index R id = Some (l, r) -> action r = Block)
           /\ b = match block with Some _ => block | None => head ids end
       end.
Proof.
  intros Hb H. revert block. induction H as [|id ids ([l r] & Hi) H IH]; intros block; cbn [scan_ids].
  { exists (Continue block). split; [done|]. split; [intros id l r Hin; by apply elem_of_nil in Hin|].
    by destruct block. }
  unfold consider. rewrite (bt_except _ _ Hb _ _ _ Hi). cbn [mbind option_bind]. unfold is_exception.
  destruct (decide (action r = Except)) as [Ex|Ex].
  - rewrite bool_decide_true by done. exists (Found id). split; [done|]. split; [by left|]. by exists l, r.
  - rewrite bool_decide_false by done. destruct (IH (Some (default id block))) as (s & -> & Hs).
    exists s. split; [done|]. destruct s as [x|b].
    + destruct Hs as (Hin & Hx). split; [by right|done].
    + destruct Hs as (Hno & ->). split.
      * intros id' l' r' Hin Hi'. apply elem_of_cons in Hin as [->|Hin]; [|by eapply Hno].
        rewrite Hi in Hi'. simplify_eq. by destruct (action r').
      * by destruct block.
Qed.

(** ** Membership *)
Lemma elem_of_entries_at k ents id : id ∈ entries_at k ents <-> (k, id) ∈ ents.
Proof.
  unfold entries_at. rewrite list_elem_of_fmap. setoid_rewrite list_elem_of_filter. split.
  - by intros ([k' i] & -> & <- & H).
  - intros H. by exists (k, id).
Qed.

Lemma elem_of_concat_map {A B} (f : A -> list B) l y :
  y ∈ concat (map f l) <-> exists x, x ∈ l /\ y ∈ f x.
Proof.
  rewrite list_elem_of_In, in_concat. split.
  - intros (m & Hm & Hy). apply in_map_iff in Hm as (x & <- & Hx). exists x. by rewrite !list_elem_of_In.
  - intros (x & Hx & Hy). exists (f x). rewrite <- !list_elem_of_In. split; [|done].
    apply list_elem_of_fmap. by exists x.
Qed.

Lemma elem_of_wild_ids ws q idxs id :
  id ∈ wild_ids ws q idxs <->
  exists i w, i ∈ idxs /\ index ws i = Some w /\ we_rule w = id
    /\ wildcard_matches (we_expr w) q (we_include_subdomains w) = true.
Proof.
  unfold wild_ids. rewrite elem_of_concat_map. unfold wild_id. split.
  - intros (i & Hi & Hid). destruct (index ws i) as [w|] eqn:E; [|by apply elem_of_nil in Hid].
    destruct (wildcard_matches _ _ _) eqn:Em; [|by apply elem_of_nil in Hid].
    apply list_elem_of_singleton in Hid as ->. by exists i, w.
  - intros (i & w & Hi & Hw & <- & Hm). exists i. split; [done|]. rewrite Hw, Hm. by apply list_elem_of_singleton.
Qed.

(** The candidates of a query. *)
Definition candidates (e : Engine) (ents_sub ents_ex : list (list Z * Z)) (rv q : list Z) : list Z :=
  entries_at q ents_ex ++ subtree_ids ents_sub rv (boundaries rv)
  ++ bucket_ids e q (q :: tails_after_dot q) ++ wild_ids (en_wildcards e) q (en_wildcard_unanchored e).

Lemma elem_of_wild_table e R i w :
  built e R -> index (en_wildcards e) i = Some w ->
  exists l r, index R (we_rule w) = Some (l, r)
    /\ pattern r = PatternRef_Wildcard (we_expr w) (we_include_subdomains w).
Proof.
  intros Hb Hi. rewrite (bt_wild _ _ Hb) in Hi. unfold index in Hi. destruct (0 <=? i); [|done].
  apply list_elem_of_lookup_2 in Hi. apply list_elem_of_fmap in Hi as ([[x s] id] & -> & Hin).
  apply elem_of_entries0 in Hin as (l & r & Hr & Hw). exists l, r. split; [done|].
  unfold wild_key in Hw. destruct (pattern r); by simplify_eq.
Qed.

Lemma wild_table_index e R id l r x s :
  built e R -> index R id = Some (l, r) -> pattern r = PatternRef_Wildcard x s ->
  exists i, en_wildcards e !! i = Some (mkWild x s id).
Proof.
  intros Hb Hi Hp. rewrite (bt_wild _ _ Hb). apply list_elem_of_lookup. apply list_elem_of_fmap.
  exists ((x, s), id). split; [done|]. apply elem_of_entries0. exists l, r. split; [done|].
  unfold wild_key. by rewrite Hp.
Qed.

(** A wildcard's rule is a candidate exactly when it matches. *)
Lemma elem_of_wild_candidates e R q id :
  built e R ->
  id ∈ bucket_ids e q (q :: tails_after_dot q) ++ wild_ids (en_wildcards e) q (en_wildcard_unanchored e)
  <-> exists l r x s, index R id = Some (l, r) /\ pattern r = PatternRef_Wildcard x s
        /\ wildcard_matches x q s = true.
Proof.
  intros Hb. rewrite elem_of_app. unfold bucket_ids. rewrite elem_of_concat_map. setoid_rewrite elem_of_wild_ids.
  split.
  - intros [(t & _ & i & w & _ & Hw & <- & Hm)|(i & w & _ & Hw & <- & Hm)];
      destruct (elem_of_wild_table e R i w Hb Hw) as (l & r & Hr & Hp); by eexists l, r, _, _.
  - intros (l & r & x & s & Hi & Hp & Hm). destruct (wild_table_index e R id l r x s Hb Hi Hp) as (i & Hw).
    destruct (bt_buckets _ _ Hb) as (H1 & _). specialize (H1 i _ Hw). cbn [we_expr] in H1.
    assert (Hw' : index (en_wildcards e) (Z.of_nat i) = Some (mkWild x s id)) by (by rewrite index_nat).
    destruct (wildcard_anchor x) as [a|] eqn:Ea.
    + left. exists a. split; [|by exists (Z.of_nat i), (mkWild x s id)].
      right. eapply wildcard_anchor_suffix; [done|]. by eapply wildcard_matches_sound.
    + right. by exists (Z.of_nat i), (mkWild x s id).
Qed.

Lemma elem_of_candidates e R ents_sub ents_ex rv q id :
  built e R -> ents_sub ≡ₚ entries sub_key 0 R -> ents_ex ≡ₚ entries exact_key 0 R ->
  id ∈ candidates e ents_sub ents_ex rv q
  <-> exists l r, index R id = Some (l, r) /\ visited rv q r.
Proof.
  intros Hb Hps Hpe. unfold candidates. rewrite 2!elem_of_app, elem_of_wild_candidates by done.
  unfold subtree_ids. rewrite elem_of_concat_map. rewrite elem_of_entries_at, Hpe, elem_of_entries0.
  setoid_rewrite elem_of_entries_at. setoid_rewrite Hps. setoid_rewrite elem_of_entries0.
  unfold visited, exact_key, sub_key. split.
  - intros [(l & r & Hi & Hk)|[(i & Hb' & l & r & Hi & Hk)|(l & r & x & s & Hi & Hp & Hm)]];
      exists l, r; (split; [done|]).
    + destruct (pattern r); by simplify_eq.
    + destruct (pattern r); simplify_eq. by exists i.
    + by rewrite Hp.
  - intros (l & r & Hi & Hv). destruct (pattern r) as [d|d|x s] eqn:Hp.
    + left. exists l, r. subst. by rewrite Hp.
    + right; left. destruct Hv as (i & Hb' & Hk). exists i. split; [done|]. exists l, r. by rewrite Hp, Hk.
    + right; right. by exists l, r, x, s.
Qed.

(** ** The verdict as one scan *)
Lemma verdict_candidates e R ents_sub ents_ex name rv :
  built e R ->
  ki_rep (en_subtree e) ents_sub -> StronglySorted key_le ents_sub ->
  ki_rep (en_exact e) ents_ex -> StronglySorted key_le ents_ex ->
  1 <= len (query_name name) <= 253 -> reversed (query_name name) = Some rv ->
  verdict e name
  = (s ← scan_ids e (candidates e ents_sub ents_ex rv (query_name name)) None; conclude e s).
Proof.
  intros Hb Hr1 Hs1 Hr2 Hs2 Hl Hrv. unfold verdict. cbn zeta. set (q := query_name name) in *.
  replace ((len q =? 0) || (253 <? len q)) with false by (symmetry; apply orb_false_iff; split;
    [apply Z.eqb_neq|apply Z.ltb_ge]; lia).
  rewrite (equal_range_spec _ ents_ex) by done. cbn [mbind option_bind].
  unfold candidates. rewrite scan_ids_app.
  destruct (scan_ids e (entries_at q ents_ex) None) as [[x|b1]|]; cbn [mbind option_bind conclude]; [done| |done].
  rewrite Hrv. cbn [mbind option_bind]. rewrite (scan_boundaries_eq _ _ ents_sub) by
    (first [done|by apply Forall_forall]). rewrite scan_ids_app.
  destruct (scan_ids e (subtree_ids _ _ _) b1) as [[x|b2]|]; cbn [mbind option_bind conclude]; [done| |done].
  destruct (bt_buckets _ _ Hb) as (_ & Hbk & Hun).
  assert (Hwild : match en_wildcards e with
     | [] => Some (Continue b2)
     | _ :: _ => s ← scan_buckets (S (length q)) e q q b2;
         match s with Found id => Some (Found id) | Continue block => scan_wildcards e q (en_wildcard_unanchored e) block end
     end = scan_ids e (bucket_ids e q (q :: tails_after_dot q) ++ wild_ids (en_wildcards e) q (en_wildcard_unanchored e)) b2).
  { destruct (en_wildcards e) as [|w ws] eqn:E.
    - rewrite bucket_ids_nil, wild_ids_nil by done. done.
    - rewrite scan_ids_app, scan_buckets_eq; [|by rewrite E|pose proof (tails_length q); lia].
      rewrite <- E. destruct (scan_ids e (bucket_ids _ _ _) b2) as [[x|b3]|]; cbn [mbind option_bind]; try done.
      apply scan_wildcards_eq. apply Forall_forall. intros i Hi. rewrite E. by apply Hun. }
  rewrite Hwild. by destruct (scan_ids e _ b2) as [[x|[id|]]|].
Qed.

Lemma cut_text_short t : len t <= 255 -> cut_text t = t.
Proof.
  intros H. unfold cut_text. rewrite Z.min_l by done. unfold len. rewrite Nat2Z.id.
  assert (E : last_boundary t (length t) = length t).
  { destruct t as [|a t]; [done|]. cbn [length last_boundary].
    change (Z.of_nat (S (length t))) with (len (a :: t)). by rewrite char_boundary_end. }
  rewrite E. by apply take_ge.
Qed.

Lemma report_reports r : reports r (report r).
Proof.
  split; [done|]. split; [done|]. cbn [report mr_text]. unfold reported.
  destruct (form_of r =? FORM_VERBATIM); [|by left].
  destruct (decide (len (text r) <= 255)) as [H|H]; [left; by apply cut_text_short|right]. split; [lia|done].
Qed.

(** The decision over the rules a query visits. *)
Lemma verdict_visited e R name rv :
  built e R -> 1 <= len (query_name name) <= 253 -> reversed (query_name name) = Some rv ->
  exists v, verdict e name = Some v
    /\ match v with
       | VExcept l m => exists r, (l, r) ∈ R /\ action r = Except /\ visited rv (query_name name) r /\ m = report r
       | VBlock l m =>
           (exists r, (l, r) ∈ R /\ action r = Block /\ visited rv (query_name name) r /\ m = report r)
           /\ forall x, x ∈ R -> visited rv (query_name name) (snd x) -> action (snd x) = Block
       | VNoMatch => forall x, x ∈ R -> ~ visited rv (query_name name) (snd x)
       end.
Proof.
  intros Hb Hl Hrv. destruct (bt_sub _ _ Hb) as (es & Hr1 & Hs1 & Hp1).
  destruct (bt_exact _ _ Hb) as (ee & Hr2 & Hs2 & Hp2).
  rewrite (verdict_candidates e R es ee name rv) by done. set (q := query_name name) in *.
  pose proof (fun id => elem_of_candidates e R es ee rv q id Hb Hp1 Hp2) as Hc.
  destruct (scan_ids_spec e R (candidates e es ee rv q) None Hb) as (s & -> & Hs).
  { apply Forall_forall. intros id Hid. apply Hc in Hid as (l & r & Hi & _). by eexists. }
  assert (Hin : forall id x, index R id = Some x -> x ∈ R).
  { intros id x Hi. unfold index in Hi. destruct (0 <=? id); [|done]. by eapply list_elem_of_lookup_2. }
  assert (Hall : forall x, x ∈ R -> visited rv q (snd x) -> exists id, index R id = Some x /\ id ∈ candidates e es ee rv q).
  { intros [l r] Hx Hv. apply list_elem_of_lookup in Hx as (i & Hx). exists (Z.of_nat i).
    rewrite index_nat. split; [done|]. apply Hc. exists l, r. by rewrite index_nat. }
  cbn [mbind option_bind]. destruct s as [id|b].
  - destruct Hs as (Hid & l & r & Hi & Hx). apply Hc in Hid as (l' & r' & Hi' & Hv).
    rewrite Hi in Hi'. injection Hi' as <- <-. exists (VExcept l (report r)).
    cbn [conclude]. unfold except_verdict. rewrite (bt_matched _ _ Hb _ _ _ Hi). split; [done|].
    exists r. repeat split; try done. by eapply Hin.
  - destruct Hs as (Hno & ->). destruct (candidates e es ee rv q) as [|id ids] eqn:E; cbn [head conclude].
    + exists VNoMatch. split; [done|]. intros x Hx Hv. destruct (Hall x Hx Hv) as (id & _ & Hid).
      by apply elem_of_nil in Hid.
    + assert (Hid : id ∈ id :: ids) by (by left). apply Hc in Hid as (l & r & Hi & Hv).
      exists (VBlock l (report r)). rewrite (bt_matched _ _ Hb _ _ _ Hi). split; [done|]. split.
      * exists r. repeat split; try done; [by eapply Hin|]. eapply Hno; [|exact Hi]. by left.
      * intros x Hx Hvx. destruct (Hall x Hx Hvx) as (id' & Hi' & Hid'). destruct x as [l' r'].
        by eapply Hno.
Qed.

(** ** From what is visited to what is covered *)
Lemma visited_covers q r :
  c_star ∉ q -> visited (rkey q) q r <-> covers (pattern r) q.
Proof.
  intros Hs. unfold visited, covers. destruct (pattern r) as [d|d|x s].
  - by split.
  - apply subtree_boundary.
  - split; [apply wildcard_matches_sound|by apply wildcard_matches_complete].
Qed.

Lemma reversed_total q : len q <= 255 -> exists rv, reversed q = Some rv.
Proof. intros H. rewrite reversed_emit by done. by eexists. Qed.

(** ** The builder *)
Section Builder.
Context `{UnstableSort}.

Lemma load_prefix R R' : load R <= load (R ++ R').
Proof. rewrite load_app. pose proof (load_len R'). pose proof (len_nonneg R'). lia. Qed.

Lemma fold_add_none rs n : fold_left add_text_sink rs (n, None) = (n + len rs, None).
Proof.
  revert n. induction rs as [|r rs IH]; intros n; cbn [fold_left].
  - by rewrite len_nil, Z.add_0_r.
  - unfold add_text_sink at 2. cbn [fst snd mbind option_bind]. rewrite IH, len_cons. f_equal. lia.
Qed.

Lemma fold_add_text rs : forall e R l n,
  building e R -> l = en_list_count e - 1 -> 0 <= l <= u16_max -> Forall rule_wf rs ->
  exists o, fold_left add_text_sink rs (n, Some e) = (n + len rs, o)
    /\ or_full o (u32_max < load (R ++ map (pair l) rs))
         (fun e' => building e' (R ++ map (pair l) rs) /\ en_list_count e' = en_list_count e).
Proof.
  induction rs as [|r rs IH]; intros e R l n Hb El Hl Hwf; cbn [fold_left map].
  { exists (Some e). rewrite app_nil_r, len_nil, Z.add_0_r. split; [done|]. right. by exists e. }
  apply Forall_cons in Hwf as [Hr Hrs].
  replace (R ++ (l, r) :: map (pair l) rs) with ((R ++ [(l, r)]) ++ map (pair l) rs) by (by rewrite <- app_assoc).
  unfold add_text_sink at 2. cbn [fst snd mbind option_bind]. rewrite len_cons.
  destruct (add_rule_building e R l r El Hb Hl Hr) as [(-> & Hfull)|(e1 & -> & Hb1 & Hc1)].
  - exists None. rewrite fold_add_none. split; [f_equal; lia|]. left. split; [done|].
    pose proof (load_prefix R [(l, r)]). pose proof (load_prefix (R ++ [(l, r)]) (map (pair l) rs)). lia.
  - destruct (IH e1 (R ++ [(l, r)]) l (n + 1)) as (o & E2 & Ho); [done|by rewrite Hc1|done..|].
    exists o. rewrite E2, <- Hc1. split; [f_equal; lia|exact Ho].
Qed.

Lemma building_count e R n :
  building e R ->
  building (mkEngine (en_store e) (en_subtree e) (en_exact e) (en_wildcards e)
              (en_wildcard_buckets e) (en_wildcard_unanchored e) n) R.
Proof. intros []. by split. Qed.

Lemma add_list_text_building e R t :
  building e R -> 0 <= en_list_count e ->
  or_full (add_list_text e t) (u16_max < en_list_count e \/ u32_max < load (R ++ map (pair (en_list_count e)) (refs_of t)))
    (fun x => fst x = mkAdded (en_list_count e) (len (refs_of t)) (issues_of t)
       /\ building (snd x) (R ++ map (pair (en_list_count e)) (refs_of t)) /\ en_list_count (snd x) = en_list_count e + 1).
Proof.
  intros Hb Hc. unfold add_list_text, begin_list.
  destruct (decide (en_list_count e <= u16_max)); [|left; rewrite (try_from_None u16_max) by lia; split; [done|lia]].
  rewrite (try_from_Some u16_max) by done. cbn [mbind option_bind]. rewrite streamed_spec.
  destruct (fold_add_text (refs_of t) _ R (en_list_count e) 0 (building_count e R (en_list_count e + 1) Hb))
    as (o & -> & Ho); [cbn; lia|done|apply refs_of_wf|].
  eapply or_full_bind; [eapply or_full_weaken; [|done|exact Ho]; auto|].
  intros e' (Hb' & Hc'). right. eexists. split; [done|]. cbn [fst snd]. by rewrite Z.add_0_l.
Qed.

Lemma building_default : building engine_default [].
Proof.
  split; try done; try apply ki_rep_default.
  split; [done|]. cbn [engine_default en_wildcards en_wildcard_buckets en_wildcard_unanchored]. split.
    + intros a i Hi. rewrite lookup_empty in Hi. by apply elem_of_nil in Hi.
    + intros i Hi. by apply elem_of_nil in Hi.
Qed.

Lemma rules_from_wf i txts : Forall (fun x => rule_wf (snd x)) (rules_from i txts).
Proof.
  revert i. induction txts as [|t txts IH]; intros i; cbn; [constructor|].
  apply Forall_app. split; [|apply IH]. apply List.Forall_map. cbn. apply refs_of_wf.
Qed.

Lemma fold_lists_none txts : fold_left (fun e t => e ← e; '(_, e) ← add_list_text e t; Some e) txts None = None.
Proof. by induction txts. Qed.

Lemma fold_lists_building txts : forall e R,
  building e R -> 0 <= en_list_count e ->
  or_full (fold_left (fun e t => e ← e; '(_, e) ← add_list_text e t; Some e) txts (Some e))
    (u16_max + 1 < en_list_count e + len txts \/ u32_max < load (R ++ rules_from (en_list_count e) txts))
    (fun e' => building e' (R ++ rules_from (en_list_count e) txts)).
Proof.
  induction txts as [|t txts IH]; intros e R Hb H0; cbn [fold_left rules_from].
  { right. exists e. by rewrite app_nil_r. }
  rewrite len_cons, app_assoc. pose proof (len_nonneg txts). cbn [mbind option_bind].
  pose proof (load_prefix (R ++ map (pair (en_list_count e)) (refs_of t)) (rules_from (en_list_count e + 1) txts)) as Hpre.
  destruct (add_list_text_building e R t Hb H0) as [(-> & Hfull)|([ad e1] & -> & _ & Hb1 & Hc1)]; cbn [mbind option_bind fst snd] in *.
  - left. rewrite fold_lists_none. split; [done|]. destruct Hfull; lia.
  - rewrite <- Hc1 in *. generalize (IH e1 _ Hb1 ltac:(lia)). apply or_full_weaken; [|done]. intros [Hf|Hf]; [left; lia|by right].
Qed.

(** The build panics only where the lists do not fit; otherwise the engine
    stands for their rules. *)
Lemma build_texts_or_full txts : or_full (build_texts txts) (~ fits txts) (fun e => built e (rules_of txts)).
Proof.
  unfold build_texts, fits. eapply or_full_bind.
  - eapply or_full_weaken; [|done|apply (fold_lists_building txts engine_default [] building_default); done].
    cbn. unfold u16_max. intros [Hf|Hf] (H1 & H2); [lia|]. change (u32_max < load (rules_of txts)) in Hf. lia.
  - intros e Hb. generalize (finish_built e (rules_of txts) Hb (rules_from_wf 0 txts)). apply or_full_weaken; [|done].
    intros Hf (_ & H2). lia.
Qed.

Lemma build_texts_built txts :
  fits txts -> exists e, build_texts txts = Some e /\ built e (rules_of txts).
Proof. intros Hf. by apply (or_full_room _ _ _ (build_texts_or_full txts)); intros H'. Qed.

Lemma built_from txts e : build_texts txts = Some e -> built e (rules_of txts).
Proof. apply (or_full_built _ _ _ e (build_texts_or_full txts)). Qed.
End Builder.

Lemma elem_of_rules_wf txts x : x ∈ rules_of txts -> rule_wf (snd x).
Proof. intros H. pose proof (rules_from_wf 0 txts) as Hw. rewrite Forall_forall in Hw. by apply Hw. Qed.

Lemma verdict_out_of_range e name :
  len (query_name name) = 0 \/ 253 < len (query_name name) -> verdict e name = Some VNoMatch.
Proof.
  intros H. unfold verdict. cbn zeta.
  replace ((len (query_name name) =? 0) || (253 <? len (query_name name))) with true; [done|].
  symmetry. apply orb_true_iff. rewrite Z.eqb_eq, Z.ltb_lt. done.
Qed.

Lemma query_name_lower name : query_name name = default (to_ascii_lowercase name) (strip_suffix [c_dot] (to_ascii_lowercase name)).
Proof.
  unfold query_name. cbn zeta. destruct (existsb _ _) eqn:E; [done|]. by rewrite to_ascii_lowercase_id.
Qed.

Lemma fold_add_same rs n e :
  fold_left add_text_sink (map from_rule rs) (n, e)
  = (n + len rs, fold_left (fun e r => e ← e; add_rule e (from_rule r)) rs e).
Proof.
  revert n e. induction rs as [|r rs IH]; intros n e; cbn [fold_left map].
  - by rewrite len_nil, Z.add_0_r.
  - unfold add_text_sink at 2. cbn [fst snd]. rewrite IH, len_cons. f_equal. lia.
Qed.

(** ** Properties *)

Lemma verdict_decided `{UnstableSort} txts e name :
  build_texts txts = Some e -> 1 <= len (query_name name) <= 253 ->
  no_trailing_dot (query_name name) -> c_star ∉ query_name name ->
  exists v, verdict e name = Some v /\ verdict_spec (rules_of txts) (query_name name) v.
Proof.
  intros He Hl Hd Hs. pose proof (built_from txts e He) as Hb.
  destruct (verdict_visited e (rules_of txts) name (rkey (query_name name)) Hb Hl) as (v & Hv & Hspec).
  { apply reversed_name; [lia| |done]. intros E. rewrite E in Hl. unfold len in Hl. cbn in Hl. lia. }
  exists v. split; [done|]. destruct v as [|l m|l m]; cbn.
  - intros x Hx Hc. eapply Hspec; [exact Hx|]. by apply visited_covers.
  - destruct Hspec as ((r & Hin & Ha & Hvis & ->) & Hno). split.
    + exists r. repeat split; try done; [by apply visited_covers|apply report_reports].
    + intros x Hx Hex Hc. apply (visited_covers _ _ Hs) in Hc. rewrite (Hno x Hx Hc) in Hex. done.
  - destruct Hspec as (r & Hin & Ha & Hvis & ->).
    exists r. repeat split; try done; [by apply visited_covers|apply report_reports].
Qed.

(** C1: the verdict is right. Lists within the builder's capacity always
    build; and whenever lists build, for every query name (lowercased, one
    trailing dot off, 1 to 253 bytes, no star of its own, no further
    trailing dot), the verdict is an exception exactly when some exception
    rule covers the name, otherwise a block exactly when some block rule
    does, and the reported list, action, line and text are those of such a
    rule. *)
Theorem verdict_correct `{UnstableSort} txts name :
  1 <= len (query_name name) <= 253 ->
  no_trailing_dot (query_name name) -> c_star ∉ query_name name ->
  (fits txts -> exists e, build_texts txts = Some e)
  /\ forall e, build_texts txts = Some e ->
       exists v, verdict e name = Some v /\ verdict_spec (rules_of txts) (query_name name) v.
Proof.
  intros Hl Hd Hs. split; [|intros e He; by apply verdict_decided].
  intros Hf. destruct (build_texts_built txts Hf) as (e & He & _). by exists e.
Qed.

Lemma verdict_correct_witness :
  exists e v,
    @build_texts merge_sort_keys [lit "||ads.com^"; lit "@@||ok.ads.com^"] = Some e
    /\ verdict e (lit "X.Ok.ads.com.") = Some v
    /\ verdict_spec (rules_of [lit "||ads.com^"; lit "@@||ok.ads.com^"]) (lit "x.ok.ads.com") v.
Proof.
  destruct (@verdict_correct merge_sort_keys [lit "||ads.com^"; lit "@@||ok.ads.com^"] (lit "X.Ok.ads.com.")) as (Hb & Hv).
  - split; vm_compute; intros H; discriminate H.
  - vm_compute. intros H; discriminate H.
  - apply contains_char_false. vm_compute. reflexivity.
  - destruct Hb as (e & He); [split; vm_compute; intros H; discriminate H|]. exists e.
    destruct (Hv e He) as (v & Ev & Hs). exists v. split; [exact He|]. split; [exact Ev|exact Hs].
Defined.

(** An engine the builder made answers every name. *)
Lemma built_answers e R name : built e R -> exists v, verdict e name = Some v.
Proof.
  intros Hb. destruct (decide (len (query_name name) = 0 \/ 253 < len (query_name name))) as [Ho|Hi].
  { exists VNoMatch. by apply verdict_out_of_range. }
  pose proof (len_nonneg (query_name name)).
  destruct (reversed_total (query_name name)) as (rv & Hrv); [lia|].
  destruct (verdict_visited e R name rv Hb) as (v & Hv & _); [lia|done|]. by exists v.
Qed.

Lemma build_answers `{UnstableSort} txts e :
  build_texts txts = Some e -> forall name, exists v, verdict e name = Some v.
Proof. intros He name. eapply built_answers. by apply (built_from txts). Qed.

(** Nothing panics: within the arena bounds the build succeeds, and
    every query whatsoever (any bytes, any length) gets a verdict; an empty
    or over-long name matches nothing, and a hit always names a rule of its
    list with the verdict's own action. *)
Theorem verdict_total `{UnstableSort} txts :
  fits txts ->
  exists e, build_texts txts = Some e /\ forall name, exists v, verdict e name = Some v
    /\ (len (query_name name) = 0 \/ 253 < len (query_name name) -> v = VNoMatch)
    /\ match v with
       | VNoMatch => True
       | VBlock l m => exists r, (l, r) ∈ rules_of txts /\ action r = Block /\ reports r m
       | VExcept l m => exists r, (l, r) ∈ rules_of txts /\ action r = Except /\ reports r m
       end.
Proof.
  intros Hf. destruct (build_texts_built txts Hf) as (e & He & Hb). exists e. split; [done|]. intros name.
  destruct (decide (len (query_name name) = 0 \/ 253 < len (query_name name))) as [Ho|Hi].
  { exists VNoMatch. split; [by apply verdict_out_of_range|done]. }
  pose proof (len_nonneg (query_name name)).
  destruct (reversed_total (query_name name)) as (rv & Hrv); [lia|].
  destruct (verdict_visited e (rules_of txts) name rv Hb) as (v & Hv & Hspec); [lia|done|].
  exists v. split; [done|]. split; [by intros|]. destruct v as [|l m|l m]; [done|..].
  - destruct Hspec as ((r & Hin & Ha & _ & ->) & _). exists r. split; [done|]. split; [done|apply report_reports].
  - destruct Hspec as (r & Hin & Ha & _ & ->). exists r. split; [done|]. split; [done|apply report_reports].
Qed.

Lemma verdict_total_witness :
  exists e, @build_texts merge_sort_keys [lit "ads.com"] = Some e
    /\ forall name, exists v, verdict e name = Some v
    /\ (len (query_name name) = 0 \/ 253 < len (query_name name) -> v = VNoMatch)
    /\ match v with
       | VNoMatch => True
       | VBlock l m => exists r, (l, r) ∈ rules_of [lit "ads.com"] /\ action r = Block /\ reports r m
       | VExcept l m => exists r, (l, r) ∈ rules_of [lit "ads.com"] /\ action r = Except /\ reports r m
       end.
Proof.
  apply (@verdict_total merge_sort_keys [lit "ads.com"]). split; vm_compute; intros H; discriminate H.
Defined.

(** A verdict does not depend on the ASCII case of the query name nor
    on one trailing dot. *)
Theorem verdict_name_insensitive e name :
  verdict e (to_ascii_lowercase name) = verdict e name
  /\ (last name <> Some c_dot -> verdict e (name ++ [c_dot]) = verdict e name).
Proof.
  assert (Hq : forall a b, query_name a = query_name b -> verdict e a = verdict e b).
  { intros a b E. unfold verdict. by rewrite E. }
  split.
  - apply Hq. rewrite !query_name_lower. by rewrite to_ascii_lowercase_idemp.
  - intros Hl. apply Hq. rewrite !query_name_lower, to_ascii_lowercase_app.
    change (to_ascii_lowercase [c_dot]) with [c_dot]. rewrite strip_suffix_app. cbn [from_option id default].
    destruct (strip_suffix [c_dot] (to_ascii_lowercase name)) as [r|] eqn:E; [exfalso|done].
    apply strip_suffix_Some in E. apply Hl. destruct name as [|a name _] using rev_ind; [by destruct r|].
    rewrite to_ascii_lowercase_app in E. change (to_ascii_lowercase [a]) with [to_lower a] in E.
    apply app_inj_tail in E as [_ E]. apply to_lower_dot in E as ->. by rewrite last_snoc.
Qed.

Lemma verdict_name_insensitive_witness :
  verdict engine_default (lit "Ads.com.") = verdict engine_default (lit "Ads.com").
Proof. apply (proj2 (verdict_name_insensitive engine_default (lit "Ads.com"))). vm_compute. intros H; discriminate H. Defined.

(** The two ways into the builder agree: streaming a text with
    [add_list_text] leaves the same engine as parsing it and adding the
    parsed rules with [add_list], under the same list index, and counts
    the parsed rules and issues. *)
Theorem add_list_text_agrees e txt :
  add_list_text e txt
  = ('(i, e') ← add_list e (pl_rules (parse_list txt));
     Some (mkAdded i (len (pl_rules (parse_list txt))) (pl_issues (parse_list txt)), e')).
Proof.
  unfold add_list_text, add_list. destruct (begin_list e) as [[i e1]|]; [|done]. cbn [mbind option_bind].
  rewrite streamed_spec, refs_of_parse_list, fold_add_same, parse_list_eq. cbn [pl_rules pl_issues app].
  rewrite Z.add_0_l. by destruct (fold_left _ _ _).
Qed.

(** [reverse_labels_into] drops the dots of trailing empty labels, so
    a name with two trailing dots, which is not a name the rule covers,
    is matched by its subtree rules. *)
Theorem double_dot_matches_subtree :
  exists e m, @build_texts merge_sort_keys [lit "||ads.com^"] = Some e
    /\ verdict e (lit "ads.com..") = Some (VBlock 0 m)
    /\ query_name (lit "ads.com..") = lit "ads.com."
    /\ ~ in_subtree (lit "ads.com") (query_name (lit "ads.com..")).
Proof.
  eexists _, _. split; [vm_compute; reflexivity|]. split; [vm_compute; reflexivity|].
  split; [reflexivity|]. intros [H|(p & H)]; [vm_compute in H; discriminate H|].
  apply (f_equal (@last Z)) in H. change (c_dot :: lit "ads.com") with ([46; 97; 100; 115; 46; 99; 111] ++ [109]) in H.
  rewrite app_assoc, last_snoc in H. vm_compute in H. discriminate H.
Qed.
