(* ===== verification/Time.v ===== *)
(** * Time: [std::time] as nanoseconds

    An [Instant] is a number of nanoseconds on the monotonic clock, a
    [Duration] a non-negative number of nanoseconds; the operations are the
    standard library's. *)
From S2P Require Import Prelude.

Definition Instant := Z.
Definition Duration := Z.

Definition ns_per_sec : Z := 1000000000.
Definition ns_per_ms : Z := 1000000.

Definition from_secs (s : Z) : Duration := s * ns_per_sec.
Definition from_millis (ms : Z) : Duration := ms * ns_per_ms.
Definition from_mins (m : Z) : Duration := from_secs (60 * m).
Definition as_secs (d : Duration) : Z := d / ns_per_sec.
Definition as_millis (d : Duration) : Z := d / ns_per_ms.
Definition as_micros (d : Duration) : Z := d / 1000.

(** [Instant::duration_since]: zero when the argument is later. *)
Definition duration_since (now earlier : Instant) : Duration := Z.max 0 (now - earlier).

(** [Instant::checked_duration_since]. *)
Definition checked_duration_since (t now : Instant) : option Duration :=
  if now <=? t then Some (t - now) else None.

Lemma as_secs_from_secs s : as_secs (from_secs s) = s.
Proof. unfold as_secs, from_secs, ns_per_sec. by rewrite Z.div_mul. Qed.

Lemma as_secs_nonneg d : 0 <= d -> 0 <= as_secs d.
Proof. intros. unfold as_secs, ns_per_sec. apply Z.div_pos; lia. Qed.

Lemma duration_since_nonneg a b : 0 <= duration_since a b.
Proof. unfold duration_since. lia. Qed.

(** Whole seconds elapsed against a deadline in seconds. *)
Lemma as_secs_lt d s : as_secs d < s <-> d < from_secs s.
Proof.
  unfold as_secs, from_secs, ns_per_sec. split; intros H.
  - apply Z.nle_gt. intros H'. apply (Z.div_le_mono _ _ 1000000000) in H'; [|lia].
    rewrite Z.div_mul in H' by lia. lia.
  - apply Z.div_lt_upper_bound; lia.
Qed.

Lemma as_secs_le d s : s <= as_secs d <-> from_secs s <= d.
Proof. pose proof (as_secs_lt d s). lia. Qed.

#[export] Hint Resolve duration_since_nonneg as_secs_nonneg : rust.
