(* ===== verification/Dns.v ===== *)
(** * Dns: DNS messages as the source sees them (the data of hickory-proto)

    The fields the source reads and writes are fields here; what it only
    passes along (a [Name], the record data it never opens, the options of
    an OPT record) is an opaque type of the class [Hickory], and what
    hickory computes (the wire format, the DNSSEC filter, truncation) are
    the operations of [HickoryOps]. Codes ([RecordType], [DNSClass],
    [ResponseCode]) are their numbers. *)
From S2P Require Import Prelude Text IpAddr.

(** ** Codes *)
Definition NoError : Z := 0.
Definition FormErr : Z := 1.
Definition ServFail : Z := 2.
Definition NXDomain : Z := 3.
Definition NotImp : Z := 4.
Definition Refused : Z := 5.

Definition TYPE_ANY : Z := 255.
Definition CLASS_IN : Z := 1.

Inductive MessageType := MQuery | MResponse.
Inductive OpCode := OpQuery | OpOther (code : Z).

(** ** Opaque data *)
Class Hickory := {
  Name : Type;
  (* what [Eq] and [Hash] of [Name] look at: case does not matter *)
  name_canon : Name -> list Z;
  name_to_ascii : Name -> list Z;
  name_from_ascii : list Z -> option Name;
  OtherRData : Type;
  EdnsOptions : Type;
  edns_no_options : EdnsOptions
}.

Section Data.
Context `{Hickory}.

Record Soa := mkSoa {
  soa_mname : Name;
  soa_rname : Name;
  soa_serial : Z;
  soa_refresh : Z;
  soa_retry : Z;
  soa_expire : Z;
  soa_minimum : Z
}.

(** The record data the source opens; the rest is one opaque case. *)
Inductive RData :=
| RA (o : list Z)
| RAAAA (g : list Z)
| RCNAME (n : Name)
| RSOA (s : Soa)
| ROther (d : OtherRData).

Record DnsRecord := mkRecord {
  r_name : Name;
  r_class : Z;
  r_ttl : Z;
  r_data : RData
}.

Record Query := mkQuery { q_name : Name; q_type : Z; q_class : Z }.

Record Metadata := mkMeta {
  msg_id : Z;
  message_type : MessageType;
  op_code : OpCode;
  authoritative : bool;
  truncation : bool;
  recursion_desired : bool;
  recursion_available : bool;
  authentic_data : bool;
  checking_disabled : bool;
  response_code : Z
}.

Record Edns := mkEdns {
  edns_rcode_high : Z;
  edns_version : Z;
  edns_dnssec_ok : bool;
  edns_max_payload : Z;
  edns_options : EdnsOptions
}.

Record Message := mkMessage {
  metadata : Metadata;
  queries : list Query;
  answers : list DnsRecord;
  authorities : list DnsRecord;
  additionals : list DnsRecord;
  edns : option Edns
}.

(** [Message::new], [add_query], [add_answer], [add_authority], [set_edns],
    the writes to [metadata]. *)
Definition message_new (i : Z) (t : MessageType) (op : OpCode) : Message :=
  mkMessage (mkMeta i t op false false false false false false NoError) [] [] [] [] None.

Definition set_meta (m : Message) (f : Metadata -> Metadata) : Message :=
  mkMessage (f (metadata m)) (queries m) (answers m) (authorities m) (additionals m) (edns m).

Definition with_id (i : Z) (x : Metadata) : Metadata :=
  mkMeta i (message_type x) (op_code x) (authoritative x) (truncation x) (recursion_desired x)
    (recursion_available x) (authentic_data x) (checking_disabled x) (response_code x).
Definition with_type (t : MessageType) (x : Metadata) : Metadata :=
  mkMeta (msg_id x) t (op_code x) (authoritative x) (truncation x) (recursion_desired x)
    (recursion_available x) (authentic_data x) (checking_disabled x) (response_code x).
Definition with_rd (b : bool) (x : Metadata) : Metadata :=
  mkMeta (msg_id x) (message_type x) (op_code x) (authoritative x) (truncation x) b
    (recursion_available x) (authentic_data x) (checking_disabled x) (response_code x).
Definition with_ra (b : bool) (x : Metadata) : Metadata :=
  mkMeta (msg_id x) (message_type x) (op_code x) (authoritative x) (truncation x)
    (recursion_desired x) b (authentic_data x) (checking_disabled x) (response_code x).
Definition with_rcode (rc : Z) (x : Metadata) : Metadata :=
  mkMeta (msg_id x) (message_type x) (op_code x) (authoritative x) (truncation x)
    (recursion_desired x) (recursion_available x) (authentic_data x) (checking_disabled x) rc.

Definition set_rcode (m : Message) (rc : Z) : Message := set_meta m (with_rcode rc).
Definition rcode (m : Message) : Z := response_code (metadata m).

Definition add_query (m : Message) (q : Query) : Message :=
  mkMessage (metadata m) (queries m ++ [q]) (answers m) (authorities m) (additionals m) (edns m).
Definition add_answer (m : Message) (r : DnsRecord) : Message :=
  mkMessage (metadata m) (queries m) (answers m ++ [r]) (authorities m) (additionals m) (edns m).
Definition add_authority (m : Message) (r : DnsRecord) : Message :=
  mkMessage (metadata m) (queries m) (answers m) (authorities m ++ [r]) (additionals m) (edns m).
Definition set_edns (m : Message) (e : option Edns) : Message :=
  mkMessage (metadata m) (queries m) (answers m) (authorities m) (additionals m) e.

Definition set_ttl (r : DnsRecord) (ttl : Z) : DnsRecord :=
  mkRecord (r_name r) (r_class r) ttl (r_data r).

(** [Record::from_rdata]: class IN. *)
Definition record_from_rdata (n : Name) (ttl : Z) (d : RData) : DnsRecord :=
  mkRecord n CLASS_IN ttl d.

(** [Edns::new] and its setters. *)
Definition edns_new : Edns := mkEdns 0 0 false 1232 edns_no_options.
Definition edns_set_max_payload (e : Edns) (n : Z) : Edns :=
  mkEdns (edns_rcode_high e) (edns_version e) (edns_dnssec_ok e) n (edns_options e).
Definition edns_set_dnssec_ok (e : Edns) (b : bool) : Edns :=
  mkEdns (edns_rcode_high e) (edns_version e) b (edns_max_payload e) (edns_options e).
End Data.

(** ** What hickory computes *)
Class HickoryOps `{Hickory} := {
  (* the wire encoding; a message never exceeds 65,535 bytes on the wire *)
  to_vec : Message -> option (list Z);
  to_vec_bound : forall m w, to_vec m = Some w -> len w <= u16_max;
  from_vec : list Z -> option Message;
  (* drop the DNSSEC records a client did not ask for *)
  maybe_strip_dnssec : Message -> bool -> Message;
  maybe_strip_meta : forall m b,
    metadata (maybe_strip_dnssec m b) = metadata m
    /\ queries (maybe_strip_dnssec m b) = queries m
    /\ edns (maybe_strip_dnssec m b) = edns m;
  truncate : Message -> Message;
  max_payload : Message -> Z
}.

(** ** A concrete instance, for running the model: names are their text,
    matched case-insensitively; the wire encoding is the record count. *)
#[local] Instance text_names : Hickory := {|
  Name := list Z;
  name_canon := to_ascii_lowercase;
  name_to_ascii := fun n => n;
  name_from_ascii := fun s => if len s <=? 255 then Some s else None;
  OtherRData := list Z;
  EdnsOptions := unit;
  edns_no_options := tt
|}.

Definition text_to_vec (m : Message) : option (list Z) :=
  if len (answers m ++ authorities m) <=? 1000
  then Some (replicate (Z.to_nat (len (answers m ++ authorities m))) 0) else None.

Lemma text_to_vec_bound m w : text_to_vec m = Some w -> len w <= u16_max.
Proof.
  unfold text_to_vec. intros H. destruct (_ <=? _) eqn:E; [|done]. injection H as <-. bool_to_prop.
  unfold len in *. rewrite length_replicate. unfold u16_max. lia.
Qed.

(** An id and a name. *)
Definition text_from_vec (b : list Z) : option Message :=
  match b with
  | id :: name => Some (add_query (message_new id MQuery OpQuery) (mkQuery (name : Name) 1 CLASS_IN))
  | [] => None
  end.

Definition text_ops : HickoryOps := {|
  to_vec := text_to_vec;
  to_vec_bound := text_to_vec_bound;
  from_vec := text_from_vec;
  maybe_strip_dnssec := fun m _ => m;
  maybe_strip_meta := fun m _ => conj eq_refl (conj eq_refl eq_refl);
  truncate := fun m => m;
  max_payload := fun m => match edns m with Some e => Z.max 512 (edns_max_payload e) | None => 512 end
|}.
