(* ===== verification/Cache.v ===== *)
(** * Cache: the response cache ([crates/core/src/cache.rs])

    The slot vector with its doubly-linked recency list and free list, one
    definition per method. An operation that can panic returns [option]:
    an index out of range, an underflow of the byte count. The mutex is one
    critical section per call, so an operation is a state transformer. *)
From S2P Require Import Prelude Text Time Dns.

Definition DEFAULT_SERVE_STALE_SECS : Z := 12 * 3600.
Definition MAX_SERVE_STALE_SECS : Z := 3 * 86400.
Definition STALE_ANSWER_TTL_SECS : Z := 30.
Definition DEFAULT_MAX_BYTES : Z := 64 * 1024 * 1024.
Definition BYTES_SLOP_FACTOR : Z := 2.
Definition ENTRY_OVERHEAD_BYTES : Z := 512.
Definition FALLBACK_WIRE_BYTES : Z := 4096.
Definition NONE : Z := usize_max.

Section Cache.
Context `{HickoryOps}.

(** ** Data *)
Record CacheKey := mkKey { ck_name : Name; ck_rtype : Z; ck_class : Z }.

(** What [Eq] and [Hash] of a key see. *)
Definition key_id (k : CacheKey) : list Z * Z * Z := (name_canon (ck_name k), ck_rtype k, ck_class k).

Inductive Lookup := Fresh (m : Message) | Stale (m : Message) | Miss.

Record OriginalRecord := mkOriginal { or_record : DnsRecord; original_ttl : Z }.

Record Entry := mkEntry {
  e_answers : list OriginalRecord;
  e_authorities : list OriginalRecord;
  e_response_code : Z;
  effective_ttl_secs : Z;
  inserted_at : Instant
}.

Record Node := mkNode {
  n_key : CacheKey;
  n_entry : Entry;
  n_bytes : Z;
  n_prev : Z;
  n_next : Z
}.

Inductive Slot := Occupied (n : Node) | Free (next_free : Z).

Record Inner := mkInner {
  c_map : gmap (list Z * Z * Z) Z;
  c_slots : list Slot;
  c_head : Z;
  c_tail : Z;
  c_free_head : Z;
  c_capacity : Z;
  c_bytes_total : Z;
  c_max_bytes : Z;
  c_serve_stale_secs : Z
}.

(** Field writes. *)
Definition set_slots (s : Inner) (v : list Slot) : Inner :=
  mkInner (c_map s) v (c_head s) (c_tail s) (c_free_head s) (c_capacity s) (c_bytes_total s)
    (c_max_bytes s) (c_serve_stale_secs s).
Definition set_map (s : Inner) (m : gmap (list Z * Z * Z) Z) : Inner :=
  mkInner m (c_slots s) (c_head s) (c_tail s) (c_free_head s) (c_capacity s) (c_bytes_total s)
    (c_max_bytes s) (c_serve_stale_secs s).
Definition set_head (s : Inner) (v : Z) : Inner :=
  mkInner (c_map s) (c_slots s) v (c_tail s) (c_free_head s) (c_capacity s) (c_bytes_total s)
    (c_max_bytes s) (c_serve_stale_secs s).
Definition set_tail (s : Inner) (v : Z) : Inner :=
  mkInner (c_map s) (c_slots s) (c_head s) v (c_free_head s) (c_capacity s) (c_bytes_total s)
    (c_max_bytes s) (c_serve_stale_secs s).
Definition set_free_head (s : Inner) (v : Z) : Inner :=
  mkInner (c_map s) (c_slots s) (c_head s) (c_tail s) v (c_capacity s) (c_bytes_total s)
    (c_max_bytes s) (c_serve_stale_secs s).
Definition set_bytes_total (s : Inner) (v : Z) : Inner :=
  mkInner (c_map s) (c_slots s) (c_head s) (c_tail s) (c_free_head s) (c_capacity s) v
    (c_max_bytes s) (c_serve_stale_secs s).

Definition node_links (n : Node) (prev next : Z) : Node :=
  mkNode (n_key n) (n_entry n) (n_bytes n) prev next.

(** [if let Slot::Occupied(n) = &mut self.slots[idx] { .. }] *)
Definition update_node (s : Inner) (idx : Z) (f : Node -> Node) : option Inner :=
  slot ← index (c_slots s) idx;
  match slot with
  | Occupied n => v ← index_set (c_slots s) idx (Occupied (f n)); Some (set_slots s v)
  | Free _ => Some s
  end.

(** ** Construction *)
Definition with_limits (capacity max_bytes serve_stale_secs : Z) : option Inner :=
  _ ← assert (0 <? capacity);
  _ ← assert (0 <? max_bytes);
  Some (mkInner ∅ [] NONE NONE NONE capacity 0 max_bytes serve_stale_secs).

Definition with_max_bytes (capacity max_bytes : Z) : option Inner :=
  with_limits capacity max_bytes DEFAULT_SERVE_STALE_SECS.

Definition new (capacity : Z) : option Inner :=
  with_limits capacity DEFAULT_MAX_BYTES DEFAULT_SERVE_STALE_SECS.

(** ** The recency list *)
Definition unlink (s : Inner) (idx : Z) : option Inner :=
  slot ← index (c_slots s) idx;
  match slot with
  | Free _ => Some s
  | Occupied node =>
      let prev := n_prev node in
      let next := n_next node in
      s ← (if prev =? NONE then Some (set_head s next)
           else update_node s prev (fun p => node_links p (n_prev p) next));
      s ← (if next =? NONE then Some (set_tail s prev)
           else update_node s next (fun n => node_links n prev (n_next n)));
      update_node s idx (fun n => node_links n NONE NONE)
  end.

Definition push_head (s : Inner) (idx : Z) : option Inner :=
  s ← update_node s idx (fun n => node_links n NONE (c_head s));
  s ← (if c_head s =? NONE then Some s
       else update_node s (c_head s) (fun n => node_links n idx (n_next n)));
  let s := set_head s idx in
  Some (if c_tail s =? NONE then set_tail s idx else s).

Definition move_to_head (s : Inner) (idx : Z) : option Inner :=
  if c_head s =? idx then Some s else
  s ← unlink s idx;
  push_head s idx.

Definition alloc_slot (s : Inner) (node : Node) : option (Z * Inner) :=
  if c_free_head s =? NONE then
    Some (len (c_slots s), set_slots s (c_slots s ++ [Occupied node]))
  else
    let idx := c_free_head s in
    slot ← index (c_slots s) idx;
    let s := match slot with Free next_free => set_free_head s next_free | Occupied _ => s end in
    v ← index_set (c_slots s) idx (Occupied node);
    Some (idx, set_slots s v).

Definition remove (s : Inner) (idx : Z) : option Inner :=
  s ← unlink s idx;
  slot ← index (c_slots s) idx;
  let s := match slot with
           | Occupied node =>
               let s := set_bytes_total s (saturating_sub (c_bytes_total s) (n_bytes node)) in
               set_map s (delete (key_id (n_key node)) (c_map s))
           | Free _ => s
           end in
  v ← index_set (c_slots s) idx (Free (c_free_head s));
  Some (set_free_head (set_slots s v) idx).

Definition evict_tail (s : Inner) : option Inner :=
  let tail := c_tail s in
  if tail =? NONE then Some s else remove s tail.

Definition map_len (s : Inner) : Z := Z.of_nat (size (c_map s)).

(** [while self.bytes_total > self.max_bytes && self.map.len() > 1]; the
    fuel is one eviction per entry. *)
Fixpoint evict_loop (fuel : nat) (s : Inner) : option Inner :=
  if (c_max_bytes s <? c_bytes_total s) && (1 <? map_len s) then
    match fuel with
    | O => None
    | S fuel => s ← evict_tail s; evict_loop fuel s
    end
  else Some s.

Definition evict_to_byte_budget (s : Inner) : option Inner := evict_loop (size (c_map s)) s.

(** ** Insert *)
Definition original_of (r : DnsRecord) : OriginalRecord := mkOriginal r (r_ttl r).

(** An SOA counts as [min(TTL, MINIMUM)]. *)
Definition record_lifetime (o : OriginalRecord) : Z :=
  match r_data (or_record o) with
  | RSOA soa => Z.min (original_ttl o) (soa_minimum soa)
  | _ => original_ttl o
  end.

(** [Iterator::min] *)
Definition iter_min (l : list Z) : option Z :=
  match l with [] => None | x :: l => Some (fold_left Z.min l x) end.

(** The entry of a message, when it has a lifetime. *)
Definition entry_of_message (m : Message) (now : Instant) : option Entry :=
  let ans := map original_of (answers m) in
  let auth := map original_of (authorities m) in
  match iter_min (map record_lifetime (ans ++ auth)) with
  | None => None
  | Some ttl => Some (mkEntry ans auth (rcode m) ttl now)
  end.

Definition estimate_bytes (m : Message) : Z :=
  match to_vec m with Some wire => len wire | None => FALLBACK_WIRE_BYTES end * BYTES_SLOP_FACTOR
  + ENTRY_OVERHEAD_BYTES.

(** [inner.bytes_total - old_bytes + bytes]: a [usize] subtraction panics
    below zero, an addition above [usize::MAX]. *)
Definition checked_sub (a b : Z) : option Z := if b <=? a then Some (a - b) else None.
Definition checked_add (a b : Z) : option Z := try_from usize_max (a + b).

(** The critical section of [insert], on an entry with a lifetime. *)
Definition insert_entry (s : Inner) (key : CacheKey) (e : Entry) (bytes : Z) : option Inner :=
  match c_map s !! key_id key with
  | Some idx =>
      slot ← index (c_slots s) idx;
      s ← match slot with
          | Occupied node =>
              v ← index_set (c_slots s) idx
                    (Occupied (mkNode (n_key node) e bytes (n_prev node) (n_next node)));
              t ← checked_sub (c_bytes_total s) (n_bytes node);
              t ← checked_add t bytes;
              Some (set_bytes_total (set_slots s v) t)
          | Free _ => Some s
          end;
      s ← move_to_head s idx;
      evict_to_byte_budget s
  | None =>
      s ← (if c_capacity s <=? map_len s then evict_tail s else Some s);
      '(idx, s) ← alloc_slot s (mkNode key e bytes NONE NONE);
      let s := set_map s (<[key_id key := idx]> (c_map s)) in
      s ← push_head s idx;
      t ← checked_add (c_bytes_total s) bytes;
      evict_to_byte_budget (set_bytes_total s t)
  end.

Definition cacheable (rc : Z) : bool := (rc =? NoError) || (rc =? NXDomain).

Definition insert (s : Inner) (key : CacheKey) (m : Message) (now : Instant) : option Inner :=
  if negb (cacheable (rcode m)) then Some s else
  match entry_of_message m now with
  | None => Some s
  | Some e => insert_entry s key e (estimate_bytes m)
  end.

(** ** Lookup *)

(** Every record with its TTL recomputed, on a fresh response. *)
Definition build_response (e : Entry) (ttl_fn : Z -> Z) : Message :=
  let m := set_rcode (message_new 0 MResponse OpQuery) (e_response_code e) in
  let m := fold_left (fun m o => add_answer m (set_ttl (or_record o) (ttl_fn (original_ttl o))))
             (e_answers e) m in
  fold_left (fun m o => add_authority m (set_ttl (or_record o) (ttl_fn (original_ttl o))))
    (e_authorities e) m.

(** [orig_ttl.saturating_sub(elapsed_u32).max(1)] *)
Definition fresh_ttl (elapsed_secs orig_ttl : Z) : Z :=
  Z.max (saturating_sub orig_ttl (default u32_max (try_from u32_max elapsed_secs))) 1.

Definition get (s : Inner) (key : CacheKey) (now : Instant) : option (Lookup * Inner) :=
  match c_map s !! key_id key with
  | None => Some (Miss, s)
  | Some idx =>
      slot ← index (c_slots s) idx;
      match slot with
      | Free _ => Some (Miss, s)
      | Occupied node =>
          let ttl := effective_ttl_secs (n_entry node) in
          let elapsed_secs := as_secs (duration_since now (inserted_at (n_entry node))) in
          if saturating_add u64_max ttl (c_serve_stale_secs s) <=? elapsed_secs then
            s ← remove s idx; Some (Miss, s)
          else
            s ← move_to_head s idx;
            slot ← index (c_slots s) idx;
            match slot with
            | Free _ => Some (Miss, s)
            | Occupied node =>
                let entry := n_entry node in
                Some (if elapsed_secs <? ttl
                      then Fresh (build_response entry (fresh_ttl elapsed_secs))
                      else Stale (build_response entry (fun _ => STALE_ANSWER_TTL_SECS)), s)
            end
      end
  end.

Definition cache_len (s : Inner) : Z := map_len s.
Definition cache_is_empty (s : Inner) : bool := cache_len s =? 0.
End Cache.
