(* ===== verification/CacheSpec.v ===== *)
(** * CacheSpec: the cache refines a recency list

    The abstract cache is the list of its entries from most to least
    recently used ([Abs]); [rep] ties the slot vector, the links, the free
    list, the map and the byte count to it. Every operation is shown to
    return (no panic, no endless eviction) and to take the abstract step. *)
From S2P Require Import Prelude Text Time Dns Cache.

Section Spec.
Context `{HickoryOps}.

Notation kid := (list Z * Z * Z)%type.

(** ** The abstract cache *)
Record Item := mkItem { i_key : CacheKey; i_entry : Entry; i_bytes : Z }.
Definition item_id (x : Item) : kid := key_id (i_key x).

Record Abs := mkAbs {
  a_items : list Item;
  a_capacity : Z;
  a_max_bytes : Z;
  a_stale : Z
}.

Definition items_bytes (l : list Item) : Z := foldr (fun x n => i_bytes x + n) 0 l.

Definition a_lookup (l : list Item) (k : kid) : option Item := List.find (fun x => bool_decide (item_id x = k)) l.
Definition a_remove (l : list Item) (k : kid) : list Item := List.filter (fun x => negb (bool_decide (item_id x = k))) l.

(** Drop from the least-recent end until the budget holds or one entry is
    left. *)
Fixpoint a_evict (fuel : nat) (max : Z) (l : list Item) : list Item :=
  match fuel with
  | O => l
  | S fuel =>
      if (max <? items_bytes l) && (1 <? len l) then a_evict fuel max (removelast l) else l
  end.
Definition a_fit (max : Z) (l : list Item) : list Item := a_evict (length l) max l.

(** An insertion puts the entry first: in the place of its old version, or
    after evicting the last entry of a full cache; then the budget. A
    replacement keeps the key it was first stored under. *)
Definition a_insert (a : Abs) (k : CacheKey) (e : Entry) (bytes : Z) : list Item :=
  match a_lookup (a_items a) (key_id k) with
  | Some old =>
      a_fit (a_max_bytes a) (mkItem (i_key old) e bytes :: a_remove (a_items a) (key_id k))
  | None =>
      let l := if a_capacity a <=? len (a_items a) then removelast (a_items a) else a_items a in
      a_fit (a_max_bytes a) (mkItem k e bytes :: l)
  end.

(** A lookup: a miss, a removal, or the entry moved to the front. *)
Definition a_get (a : Abs) (k : CacheKey) (now : Instant) : Lookup * list Item :=
  match a_lookup (a_items a) (key_id k) with
  | None => (Miss, a_items a)
  | Some x =>
      let ttl := effective_ttl_secs (i_entry x) in
      let elapsed := as_secs (duration_since now (inserted_at (i_entry x))) in
      if saturating_add u64_max ttl (a_stale a) <=? elapsed then (Miss, a_remove (a_items a) (key_id k))
      else (if elapsed <? ttl then Fresh (build_response (i_entry x) (fresh_ttl elapsed))
            else Stale (build_response (i_entry x) (fun _ => STALE_ANSWER_TTL_SECS)),
            x :: a_remove (a_items a) (key_id k))
  end.

(** ** Representation *)
Definition slot_at (v : list Slot) (i : Z) : option Slot := index v i.

(** The chain of occupied slots [l] from [prev] to [next], holding [xs]. *)
Fixpoint chain (v : list Slot) (prev : Z) (l : list Z) (xs : list Item) (next : Z) : Prop :=
  match l, xs with
  | [], [] => True
  | i :: l', x :: xs' =>
      index v i = Some (Occupied (mkNode (i_key x) (i_entry x) (i_bytes x) prev (default next (head l'))))
      /\ chain v i l' xs' next
  | _, _ => False
  end.

(** The free list: slots linked from [h] to [NONE]. *)
Fixpoint free_chain (v : list Slot) (h : Z) (l : list Z) : Prop :=
  match l with
  | [] => h = NONE
  | i :: l' => h = i /\ exists nxt, index v i = Some (Free nxt) /\ free_chain v nxt l'
  end.

Record rep (s : Inner) (a : Abs) (order free : list Z) : Prop := {
  rp_chain : chain (c_slots s) NONE order (a_items a) NONE;
  rp_head : c_head s = default NONE (head order);
  rp_tail : c_tail s = default NONE (last order);
  rp_free : free_chain (c_slots s) (c_free_head s) free;
  rp_nodup : NoDup (order ++ free);
  rp_slots : len order + len free = len (c_slots s);
  rp_map : c_map s = list_to_map (zip (map item_id (a_items a)) order);
  rp_keys : NoDup (map item_id (a_items a));
  rp_bytes : c_bytes_total s = items_bytes (a_items a);
  rp_pos : Forall (fun x => 0 <= i_bytes x) (a_items a);
  rp_cap : c_capacity s = a_capacity a;
  rp_max : c_max_bytes s = a_max_bytes a;
  rp_stale : c_serve_stale_secs s = a_stale a;
  rp_size : len (c_slots s) <= a_capacity a;
  rp_limits : 0 < a_capacity a < NONE /\ 0 < a_max_bytes a
}.

(** ** Chains *)
Lemma chain_length v p l xs n : chain v p l xs n -> length l = length xs.
Proof.
  revert p xs. induction l as [|i l IH]; intros p [|x xs]; cbn; try done. intros (_ & Hc). f_equal. by eapply IH.
Qed.

Lemma index_set_eq {A} (v v' : list A) i x : index_set v i x = Some v' -> index v' i = Some x.
Proof.
  unfold index_set, index. intros Hs. destruct (_ && _) eqn:E; [|done]. bool_to_prop. injection Hs as <-.
  zguard. apply list_lookup_insert_eq. unfold len in *. lia.
Qed.

Lemma index_set_ne {A} (v v' : list A) i j x : index_set v i x = Some v' -> i <> j -> index v' j = index v j.
Proof.
  unfold index_set, index. intros Hs Hne. destruct (_ && _) eqn:E; [|done]. bool_to_prop. injection Hs as <-.
  destruct (0 <=? j) eqn:Ej; [|done]. bool_to_prop. apply list_lookup_insert_ne. lia.
Qed.

Lemma index_set_len {A} (v v' : list A) i x : index_set v i x = Some v' -> len v' = len v.
Proof. unfold index_set. intros Hs. destruct (_ && _); [|done]. injection Hs as <-. apply len_insert. Qed.

Lemma index_set_ok {A} (v : list A) i x y : index v i = Some y -> exists v', index_set v i x = Some v'.
Proof. intros Hi. apply index_Some_lt in Hi. unfold index_set. zguard. by eexists. Qed.

(** A write outside the chain leaves it alone. *)
Lemma chain_frame v v' p l xs n :
  (forall j, j ∈ l -> index v' j = index v j) -> chain v p l xs n -> chain v' p l xs n.
Proof.
  revert p xs. induction l as [|i l IH]; intros p [|x xs] Hf Hc; cbn in *; try done.
  destruct Hc as (Hi & Hc). split; [rewrite Hf; [done|by left]|]. apply IH; [|done].
  intros j Hj. apply Hf. by right.
Qed.

Lemma free_frame v v' h l :
  (forall j, j ∈ l -> index v' j = index v j) -> free_chain v h l -> free_chain v' h l.
Proof.
  revert h. induction l as [|i l IH]; intros h Hf Hc; cbn in *; [done|].
  destruct Hc as (-> & nxt & Hi & Hc). split; [done|]. exists nxt.
  split; [rewrite Hf; [done|by left]|]. apply IH; [|done]. intros j Hj. apply Hf. by right.
Qed.

Lemma chain_app v p l1 xs1 l2 xs2 n :
  length l1 = length xs1 ->
  chain v p (l1 ++ l2) (xs1 ++ xs2) n <->
  chain v p l1 xs1 (default n (head l2)) /\ chain v (default p (last l1)) l2 xs2 n.
Proof.
  revert p xs1. induction l1 as [|i l1 IH]; intros p [|x xs1] Hl; try done.
  { cbn. tauto. }
  cbn in Hl. injection Hl as Hl. cbn [app chain]. rewrite (IH i xs1 Hl).
  assert (E : default n (head (l1 ++ l2)) = default (default n (head l2)) (head l1)) by (by destruct l1).
  assert (E2 : default p (last (i :: l1)) = default i (last l1)).
  { rewrite last_cons. by destruct (last l1). }
  rewrite E, E2. tauto.
Qed.

Lemma chain_index v p l xs n i :
  chain v p l xs n -> i ∈ l -> exists nd, index v i = Some (Occupied nd).
Proof.
  revert p xs. induction l as [|j l IH]; intros p [|x xs] Hc Hi; cbn in Hc; try done.
  { by apply elem_of_nil in Hi. }
  destruct Hc as (Hj & Hc). apply elem_of_cons in Hi as [->|Hi]; [by eexists|]. by eapply IH.
Qed.

Lemma free_index v h l i : free_chain v h l -> i ∈ l -> exists nx, index v i = Some (Free nx).
Proof.
  revert h. induction l as [|j l IH]; intros h Hc Hi; cbn in Hc; [by apply elem_of_nil in Hi|].
  destruct Hc as (_ & nxt & Hj & Hc). apply elem_of_cons in Hi as [->|Hi]; [by eexists|]. by eapply IH.
Qed.

(** Relinking the ends of a chain. *)
Lemma chain_set_next v v' p l i xs x n n' :
  chain v p (l ++ [i]) (xs ++ [x]) n -> NoDup (l ++ [i]) ->
  (forall nd, index v i = Some (Occupied nd) ->
     index_set v i (Occupied (node_links nd (n_prev nd) n')) = Some v') ->
  chain v' p (l ++ [i]) (xs ++ [x]) n'.
Proof.
  intros Hc Hnd Hset. assert (Hl : length l = length xs).
  { apply chain_length in Hc. rewrite !length_app in Hc. cbn in Hc. lia. }
  apply chain_app in Hc as (Hc1 & Hc2); [|done]. cbn in Hc2. destruct Hc2 as (Hi & _).
  specialize (Hset _ Hi). cbn in Hset. apply chain_app; [done|]. apply NoDup_app in Hnd as (_ & Hni & _). split.
  - eapply chain_frame; [|exact Hc1]. intros j Hj. eapply index_set_ne; [exact Hset|].
    intros ->. eapply Hni; [exact Hj|]. by apply list_elem_of_singleton.
  - cbn. split; [|done]. by apply index_set_eq in Hset.
Qed.

Lemma chain_set_prev v v' p p' i l x xs n :
  chain v p (i :: l) (x :: xs) n -> NoDup (i :: l) ->
  (forall nd, index v i = Some (Occupied nd) ->
     index_set v i (Occupied (node_links nd p' (n_next nd))) = Some v') ->
  chain v' p' (i :: l) (x :: xs) n.
Proof.
  intros (Hi & Hc) Hnd Hset. specialize (Hset _ Hi). cbn in Hset. apply NoDup_cons in Hnd as [Hni _]. split.
  - by apply index_set_eq in Hset.
  - eapply chain_frame; [|exact Hc]. intros j Hj. eapply index_set_ne; [exact Hset|]. by intros ->.
Qed.

(** ** The recency list operations *)

(** Everything but the slots and the ends of the list. *)
Definition same_rest (s s' : Inner) : Prop :=
  c_map s' = c_map s /\ c_free_head s' = c_free_head s /\ c_capacity s' = c_capacity s
  /\ c_bytes_total s' = c_bytes_total s /\ c_max_bytes s' = c_max_bytes s
  /\ c_serve_stale_secs s' = c_serve_stale_secs s /\ len (c_slots s') = len (c_slots s).

Record linked (s : Inner) (l : list Z) (xs : list Item) : Prop := {
  lk_chain : chain (c_slots s) NONE l xs NONE;
  lk_head : c_head s = default NONE (head l);
  lk_tail : c_tail s = default NONE (last l)
}.

Definition ok_index (i : Z) : Prop := 0 <= i < NONE.

Lemma update_node_spec s i f nd :
  index (c_slots s) i = Some (Occupied nd) ->
  exists v, update_node s i f = Some (set_slots s v)
    /\ index_set (c_slots s) i (Occupied (f nd)) = Some v.
Proof.
  intros Hi. unfold update_node. rewrite Hi. cbn [mbind option_bind].
  destruct (index_set_ok (c_slots s) i (Occupied (f nd)) _ Hi) as (v & E). rewrite E. by exists v.
Qed.

Lemma same_rest_trans a b c : same_rest a b -> same_rest b c -> same_rest a c.
Proof. unfold same_rest. intuition congruence. Qed.

Lemma ok_not_none i : ok_index i -> i =? NONE = false.
Proof. intros [_ Hi]. apply Z.eqb_neq. lia. Qed.

(** First half of [unlink]: the predecessor, or the head, skips [i]. *)
Lemma unlink_prev s l1 i l2 xs1 x xs2 :
  linked s (l1 ++ i :: l2) (xs1 ++ x :: xs2) -> length l1 = length xs1 ->
  NoDup (l1 ++ i :: l2) -> Forall ok_index (l1 ++ i :: l2) ->
  exists s', (if default NONE (last l1) =? NONE then Some (set_head s (default NONE (head l2)))
      else update_node s (default NONE (last l1)) (fun p => node_links p (n_prev p) (default NONE (head l2))))
      = Some s'
    /\ same_rest s s' /\ c_tail s' = c_tail s /\ c_head s' = default NONE (head (l1 ++ l2))
    /\ chain (c_slots s') NONE l1 xs1 (default NONE (head l2))
    /\ (forall j, j ∉ l1 -> index (c_slots s') j = index (c_slots s) j).
Proof.
  intros [Hc Hh Ht] Hl Hnd Hok. apply chain_app in Hc as (Hc1 & Hc2); [|done].
  destruct l1 as [|p0 l1'] eqn:El1 using rev_ind; [|clear IHl1'].
  - destruct xs1; [|done]. cbn. exists (set_head s (default NONE (head l2))). repeat split; done.
  - rewrite last_snoc. cbn [default from_option id]. apply Forall_app in Hok as [Hok1 _].
    apply Forall_app in Hok1 as [_ Hp0]. apply Forall_inv in Hp0. rewrite (ok_not_none _ Hp0).
    destruct xs1 as [|x1 xs1'] using rev_ind; [rewrite length_app in Hl; cbn in Hl; lia|clear IHxs1'].
    assert (Hin : p0 ∈ l1' ++ [p0]) by (apply elem_of_app; right; by apply list_elem_of_singleton).
    destruct (chain_index _ _ _ _ _ _ Hc1 Hin) as (nd & Hnd0).
    destruct (update_node_spec s p0 (fun p => node_links p (n_prev p) (default NONE (head l2))) nd Hnd0) as (v & -> & Hset).
    exists (set_slots s v). split; [done|]. split.
    { repeat split. cbn. by eapply index_set_len. }
    split; [done|]. split; [cbn; rewrite Hh; by destruct l1'|]. split.
    + eapply chain_set_next; [exact Hc1|by apply NoDup_app in Hnd as (? & _)|].
      intros nd' Hnd'. rewrite Hnd0 in Hnd'. by simplify_eq.
    + intros j Hj. eapply index_set_ne; [exact Hset|]. by intros ->.
Qed.

(** Second half: the successor, or the tail, points back past [i]. *)
Lemma unlink_next s i prev l2 xs2 :
  chain (c_slots s) i l2 xs2 NONE -> NoDup l2 -> Forall ok_index l2 ->
  exists s', (if default NONE (head l2) =? NONE then Some (set_tail s prev)
      else update_node s (default NONE (head l2)) (fun n => node_links n prev (n_next n))) = Some s'
    /\ same_rest s s' /\ c_head s' = c_head s
    /\ c_tail s' = (match l2 with [] => prev | _ => c_tail s end)
    /\ chain (c_slots s') prev l2 xs2 NONE
    /\ (forall j, j ∉ l2 -> index (c_slots s') j = index (c_slots s) j).
Proof.
  intros Hc Hnd Hok. destruct l2 as [|q l2].
  - destruct xs2; [|done]. cbn. exists (set_tail s prev). repeat split; done.
  - destruct xs2 as [|y xs2]; [done|]. cbn [head default from_option id].
    rewrite (ok_not_none q) by (by inversion Hok).
    destruct (chain_index _ _ _ _ _ q Hc) as (nd & Hnd0); [by left|].
    destruct (update_node_spec s q (fun n => node_links n prev (n_next n)) nd Hnd0) as (v & -> & Hset).
    exists (set_slots s v). split; [done|]. split.
    { repeat split. cbn. by eapply index_set_len. }
    split; [done|]. split; [done|]. split.
    + eapply chain_set_prev; [exact Hc|done|]. intros nd' Hnd'. rewrite Hnd0 in Hnd'. by simplify_eq.
    + intros j Hj. eapply index_set_ne; [exact Hset|]. intros ->. apply Hj. by left.
Qed.

Lemma unlink_spec s l1 i l2 xs1 x xs2 :
  linked s (l1 ++ i :: l2) (xs1 ++ x :: xs2) -> length l1 = length xs1 ->
  NoDup (l1 ++ i :: l2) -> Forall ok_index (l1 ++ i :: l2) ->
  exists s', unlink s i = Some s' /\ same_rest s s' /\ linked s' (l1 ++ l2) (xs1 ++ xs2)
    /\ index (c_slots s') i = Some (Occupied (mkNode (i_key x) (i_entry x) (i_bytes x) NONE NONE))
    /\ (forall j, j ∉ l1 ++ i :: l2 -> index (c_slots s') j = index (c_slots s) j).
Proof.
  intros Hlk Hl Hnd Hok. pose proof (lk_chain _ _ _ Hlk) as Hc. apply chain_app in Hc as (_ & Hc2); [|done].
  cbn [chain] in Hc2. destruct Hc2 as (Hi & Hc2).
  pose proof Hnd as Hnd'. apply NoDup_app in Hnd' as (Hnd1 & Hdis & Hnd2). apply NoDup_cons in Hnd2 as [Hni Hnd2].
  assert (Hi1 : i ∉ l1) by (intros Hin; apply (Hdis _ Hin); by left).
  unfold unlink. rewrite Hi. cbn [mbind option_bind n_prev n_next].
  destruct (unlink_prev _ _ _ _ _ _ _ Hlk Hl Hnd Hok) as (s1 & -> & R1 & T1 & H1 & C1 & F1).
  cbn [mbind option_bind].
  assert (Hc2' : chain (c_slots s1) i l2 xs2 NONE).
  { eapply chain_frame; [|exact Hc2]. intros j Hj. apply F1. intros Hj'. apply (Hdis _ Hj'). by right. }
  assert (Hok2 : Forall ok_index l2).
  { apply Forall_app in Hok as [_ Hok]. by inversion Hok. }
  destruct (unlink_next s1 i (default NONE (last l1)) l2 xs2 Hc2' Hnd2 Hok2) as (s2 & -> & R2 & H2 & T2 & C2 & F2).
  cbn [mbind option_bind].
  assert (Hi2 : index (c_slots s2) i = Some (Occupied (mkNode (i_key x) (i_entry x) (i_bytes x)
     (default NONE (last l1)) (default NONE (head l2))))).
  { rewrite F2, F1 by done. exact Hi. }
  destruct (update_node_spec s2 i (fun n => node_links n NONE NONE) _ Hi2) as (v & -> & Hset).
  exists (set_slots s2 v). split; [done|]. split.
  { eapply same_rest_trans; [exact R1|]. eapply same_rest_trans; [exact R2|].
    repeat split. cbn. by eapply index_set_len. }
  split; [|split].
  - split; cbn [set_slots c_slots c_head c_tail].
    + eapply chain_frame with (v := c_slots s2).
      { intros j Hj. eapply index_set_ne; [exact Hset|]. intros ->. by apply elem_of_app in Hj as [Hj|Hj]. }
      apply chain_app; [done|]. split; [|exact C2]. eapply chain_frame; [|exact C1].
      intros j Hj. apply F2. intros Hj'. apply (Hdis _ Hj). by right.
    + by rewrite H2.
    + rewrite T2, T1, (lk_tail _ _ _ Hlk), !last_app. destruct l2 as [|q l2]; [done|].
      rewrite !last_cons. by destruct (last l2).
  - by apply index_set_eq in Hset.
  - intros j Hj. apply not_elem_of_app in Hj as [Hj1 Hj2]. apply not_elem_of_cons in Hj2 as [Hj2 Hj3].
    cbn. rewrite (index_set_ne _ _ _ j _ Hset) by done. by rewrite F2, F1.
Qed.

Lemma push_head_spec s l xs i nd :
  linked s l xs -> index (c_slots s) i = Some (Occupied nd) -> i ∉ l -> ok_index i -> NoDup l ->
  Forall ok_index l ->
  exists s', push_head s i = Some s' /\ same_rest s s'
    /\ linked s' (i :: l) (mkItem (n_key nd) (n_entry nd) (n_bytes nd) :: xs)
    /\ (forall j, j ∉ i :: l -> index (c_slots s') j = index (c_slots s) j).
Proof.
  intros [Hc Hh Ht] Hi Hni Hok Hnd Hokl. unfold push_head.
  destruct (update_node_spec s i (fun n => node_links n NONE (c_head s)) nd Hi) as (v & -> & Hset).
  cbn [mbind option_bind set_slots c_head].
  set (s1 := set_slots s v) in *.
  assert (Hc1 : chain (c_slots s1) NONE l xs NONE).
  { eapply chain_frame; [|exact Hc]. intros j Hj. eapply index_set_ne; [exact Hset|]. by intros ->. }
  assert (Hi1 : index (c_slots s1) i
    = Some (Occupied (mkNode (n_key nd) (n_entry nd) (n_bytes nd) NONE (default NONE (head l))))).
  { cbn. rewrite (index_set_eq _ _ _ _ Hset), Hh. done. }
  assert (R1 : same_rest s s1) by (repeat split; cbn; by eapply index_set_len).
  destruct l as [|q l].
  - destruct xs; [|done]. rewrite Hh. cbn. rewrite Ht. cbn. eexists. split; [done|].
    split; [exact R1|]. split; [split; cbn; [split; [exact Hi1|done]|done|done]|].
    intros j Hj. eapply index_set_ne; [exact Hset|]. intros ->. apply Hj. by left.
  - destruct xs as [|y xs]; [done|]. rewrite Hh. cbn [head default from_option Datatypes.id].
    rewrite (ok_not_none q) by (by inversion Hokl).
    destruct (chain_index _ _ _ _ _ q Hc1) as (nq & Hq); [by left|].
    destruct (update_node_spec s1 q (fun n => node_links n i (n_next n)) nq Hq) as (v2 & -> & Hset2).
    cbn [mbind option_bind]. cbn [set_head c_tail set_slots s1].
    assert (Htl : default NONE (last (q :: l)) =? NONE = false).
    { apply ok_not_none. rewrite Forall_forall in Hokl. apply Hokl. destruct (last (q :: l)) as [z|] eqn:E.
      - apply last_Some in E as (l' & ->). apply elem_of_app; right. by apply list_elem_of_singleton.
      - by apply last_None in E. }
    rewrite Ht, Htl. eexists. split; [done|]. split.
    { eapply same_rest_trans; [exact R1|]. repeat split. cbn. by eapply index_set_len. }
    split; [split; cbn [set_head set_slots c_slots c_head c_tail s1]|].
    + cbn [chain]. split.
      { rewrite (index_set_ne _ _ _ i _ Hset2); [exact Hi1|]. intros ->. apply Hni. by left. }
      eapply chain_set_prev; [exact Hc1|done|]. intros nd' Hnd'. rewrite Hq in Hnd'. by simplify_eq.
    + done.
    + rewrite Ht, !last_cons. by destruct (last l).
    + intros j Hj. apply not_elem_of_cons in Hj as [Hj1 Hj2].
      change (index v2 j = index (c_slots s) j).
      rewrite (index_set_ne _ _ _ j _ Hset2); [|intros ->; apply Hj2; by left].
      eapply index_set_ne; [exact Hset|done].
Qed.

(** ** The map *)
Lemma delete_list_to_map_mid (l1 l2 : list (kid * Z)) k v :
  NoDup (map fst (l1 ++ (k, v) :: l2)) ->
  delete k (list_to_map (l1 ++ (k, v) :: l2) : gmap kid Z) = list_to_map (l1 ++ l2).
Proof.
  intros Hnd.
  assert (Hp : l1 ++ (k, v) :: l2 ≡ₚ (k, v) :: l1 ++ l2) by (symmetry; apply Permutation_middle).
  rewrite (list_to_map_proper _ _ Hnd Hp). cbn [list_to_map foldr]. rewrite delete_insert_id; [done|].
  apply not_elem_of_list_to_map. rewrite Hp in Hnd. cbn in Hnd. by apply NoDup_cons in Hnd as [? _].
Qed.

Lemma zip_mid (ids1 ids2 : list kid) k (l1 l2 : list Z) i :
  length ids1 = length l1 ->
  zip (ids1 ++ k :: ids2) (l1 ++ i :: l2) = zip ids1 l1 ++ (k, i) :: zip ids2 l2.
Proof. intros Hl. rewrite zip_with_app by done. done. Qed.

Lemma zip_fst (ids : list kid) (l : list Z) : length ids = length l -> map fst (zip ids l) = ids.
Proof. intros Hl. change (map fst (zip ids l)) with ((zip ids l).*1). apply fst_zip. lia. Qed.

Lemma rep_length s a order free : rep s a order free -> length order = length (a_items a).
Proof. intros Hr. eapply chain_length. apply Hr. Qed.

Lemma rep_map_len s a order free : rep s a order free -> map_len s = len (a_items a).
Proof.
  intros Hr. unfold map_len. rewrite (rp_map _ _ _ _ Hr), map_size_list_to_map.
  - unfold len. f_equal. rewrite length_zip_with_l_eq; [by rewrite length_map|].
    rewrite length_map. symmetry. by eapply rep_length.
  - change ((zip ?a ?b).*1) with (map fst (zip a b)). rewrite zip_fst; [apply Hr|].
    rewrite length_map. symmetry. by eapply rep_length.
Qed.

(** A key in the map splits the list at its entry. *)
Lemma rep_lookup_Some s a order free k i :
  rep s a order free -> c_map s !! k = Some i ->
  exists l1 l2 xs1 x xs2, order = l1 ++ i :: l2 /\ a_items a = xs1 ++ x :: xs2
    /\ length l1 = length xs1 /\ item_id x = k.
Proof.
  intros Hr Hk. pose proof (rep_length _ _ _ _ Hr) as Hl. rewrite (rp_map _ _ _ _ Hr) in Hk.
  apply elem_of_list_to_map_2 in Hk. apply list_elem_of_lookup in Hk as (j & Hj).
  apply lookup_zip_with_Some in Hj as (k' & i' & [= <- <-] & Hj1 & Hj2).
  rewrite list_lookup_fmap in Hj1. destruct (a_items a !! j) as [x|] eqn:Ex; [|done]. injection Hj1 as Hx.
  exists (take j order), (drop (S j) order), (take j (a_items a)), x, (drop (S j) (a_items a)).
  rewrite !take_drop_middle by done. repeat split; [|done]. rewrite !length_take. lia.
Qed.

Lemma a_lookup_mid xs1 x xs2 :
  NoDup (map item_id (xs1 ++ x :: xs2)) -> a_lookup (xs1 ++ x :: xs2) (item_id x) = Some x.
Proof.
  unfold a_lookup. induction xs1 as [|y xs1 IH]; cbn [app List.find map]; intros Hnd.
  - by rewrite bool_decide_true.
  - apply NoDup_cons in Hnd as [Hni Hnd]. rewrite bool_decide_false; [by apply IH|].
    intros E. apply Hni. rewrite E. apply list_elem_of_fmap. exists x. split; [done|].
    apply elem_of_app. right. by left.
Qed.

Lemma a_remove_none l k : k ∉ map item_id l -> a_remove l k = l.
Proof.
  unfold a_remove. induction l as [|y l IH]; cbn [List.filter map]; intros Hni; [done|].
  apply not_elem_of_cons in Hni as [Hne Hni]. rewrite bool_decide_false by done. cbn. by rewrite IH.
Qed.

Lemma a_remove_mid xs1 x xs2 :
  NoDup (map item_id (xs1 ++ x :: xs2)) -> a_remove (xs1 ++ x :: xs2) (item_id x) = xs1 ++ xs2.
Proof.
  rewrite map_app. cbn [map]. intros Hnd. apply NoDup_app in Hnd as (H1 & Hd & H2).
  apply NoDup_cons in H2 as [Hn2 _]. unfold a_remove. rewrite List.filter_app. cbn [List.filter].
  rewrite bool_decide_true by done. cbn [negb].
  change (a_remove xs1 (item_id x) ++ a_remove xs2 (item_id x) = xs1 ++ xs2).
  rewrite !a_remove_none; [done|done|]. intros Hin. apply (Hd _ Hin). by left.
Qed.

Lemma rep_lookup_None s a order free k :
  rep s a order free -> c_map s !! k = None -> a_lookup (a_items a) k = None /\ k ∉ map item_id (a_items a).
Proof.
  intros Hr Hk. rewrite (rp_map _ _ _ _ Hr) in Hk. apply not_elem_of_list_to_map in Hk.
  change ((zip ?a ?b).*1) with (map fst (zip a b)) in Hk. rewrite zip_fst in Hk
    by (rewrite length_map; symmetry; by eapply rep_length).
  split; [|done]. unfold a_lookup. destruct (List.find _ _) as [x|] eqn:E; [|done].
  apply List.find_some in E as (Hin & E). apply bool_decide_eq_true in E. destruct Hk.
  apply list_elem_of_fmap. exists x. split; [done|]. by apply list_elem_of_In.
Qed.

(** ** Removal and eviction *)
Definition with_items (a : Abs) (l : list Item) : Abs :=
  mkAbs l (a_capacity a) (a_max_bytes a) (a_stale a).

Lemma rep_linked s a order free : rep s a order free -> linked s order (a_items a).
Proof. intros Hr. split; apply Hr. Qed.

Lemma rep_ok s a order free : rep s a order free -> Forall ok_index order /\ Forall ok_index free.
Proof.
  intros Hr. pose proof (rp_size _ _ _ _ Hr). destruct (rp_limits _ _ _ _ Hr) as (Hc & _).
  split; apply Forall_forall; intros j Hj.
  - destruct (chain_index _ _ _ _ _ j (rp_chain _ _ _ _ Hr) Hj) as (nd & E).
    apply index_Some_lt in E. unfold ok_index. lia.
  - destruct (free_index _ _ _ j (rp_free _ _ _ _ Hr) Hj) as (nd & E).
    apply index_Some_lt in E. unfold ok_index. lia.
Qed.

Lemma items_bytes_app l k : items_bytes (l ++ k) = items_bytes l + items_bytes k.
Proof. unfold items_bytes. induction l as [|x l IH]; cbn [app foldr]; [done|]. lia. Qed.

Lemma items_bytes_nonneg l : Forall (fun x => 0 <= i_bytes x) l -> 0 <= items_bytes l.
Proof. induction 1 as [|x l Hx Hl IH]; cbn; [done|]. fold (items_bytes l). lia. Qed.

Lemma NoDup_mid_move (l1 l2 free : list Z) i :
  NoDup ((l1 ++ i :: l2) ++ free) -> NoDup ((l1 ++ l2) ++ i :: free).
Proof.
  intros Hnd. assert (Hp : (l1 ++ i :: l2) ++ free ≡ₚ (l1 ++ l2) ++ i :: free) by solve_Permutation.
  by rewrite <- Hp.
Qed.

Lemma remove_spec s a l1 i l2 xs1 x xs2 free :
  rep s a (l1 ++ i :: l2) free -> a_items a = xs1 ++ x :: xs2 -> length l1 = length xs1 ->
  exists s', remove s i = Some s' /\ rep s' (with_items a (xs1 ++ xs2)) (l1 ++ l2) (i :: free).
Proof.
  intros Hr Ha Hl. pose proof (rep_linked _ _ _ _ Hr) as Hlk. rewrite Ha in Hlk.
  destruct (rep_ok _ _ _ _ Hr) as (Hok & _). pose proof (rp_nodup _ _ _ _ Hr) as Hnd.
  assert (Hnd1 : NoDup (l1 ++ i :: l2)) by (apply NoDup_app in Hnd; tauto).
  destruct (unlink_spec s l1 i l2 xs1 x xs2 Hlk Hl Hnd1 Hok) as (s1 & E1 & R1 & Hlk1 & Hi1 & F1).
  destruct R1 as (Rm & Rf & Rc & Rb & Rx & Rs & Rl).
  unfold remove. rewrite E1. cbn [mbind option_bind]. rewrite Hi1. cbn [mbind option_bind n_bytes n_key].
  cbn [set_map set_bytes_total c_slots c_free_head c_map].
  destruct (index_set_ok (c_slots s1) i (Free (c_free_head s1)) _ Hi1) as (v & Hset).
  rewrite Hset. cbn [mbind option_bind]. eexists. split; [reflexivity|].
  pose proof (rp_keys _ _ _ _ Hr) as Hk. rewrite Ha, map_app in Hk. cbn [map] in Hk.
  pose proof (rp_bytes _ _ _ _ Hr) as Hb. rewrite Ha, items_bytes_app in Hb. cbn [items_bytes foldr] in Hb.
  fold (items_bytes xs2) in Hb.
  pose proof (rp_pos _ _ _ _ Hr) as Hpos. rewrite Ha in Hpos. apply Forall_app in Hpos as [Hp1 Hp2].
  apply Forall_cons in Hp2 as [Hpx Hp2].
  assert (Hv : len v = len (c_slots s)) by (rewrite (index_set_len _ _ _ _ Hset); exact Rl).
  assert (Hfr : forall j, j ∉ l1 ++ i :: l2 -> index v j = index (c_slots s) j).
  { intros j Hj. rewrite (index_set_ne _ _ _ j _ Hset); [by apply F1|]. intros ->. apply Hj.
    apply elem_of_app; right; by left. }
  assert (Hifree : i ∉ free).
  { intros Hin. apply NoDup_app in Hnd as (_ & Hd & _). apply (Hd i); [|done]. apply elem_of_app; right; by left. }
  split; cbn [set_free_head set_slots set_map set_bytes_total c_slots c_head c_tail c_free_head c_map c_capacity
              c_bytes_total c_max_bytes c_serve_stale_secs with_items a_items a_capacity a_max_bytes a_stale].
  - eapply chain_frame; [|apply Hlk1]. intros j Hj. eapply index_set_ne; [exact Hset|]. intros ->.
    apply NoDup_app in Hnd1 as (_ & Hd & Hn2). apply NoDup_cons in Hn2 as [Hn2 _].
    apply elem_of_app in Hj as [Hj|Hj]; [|done]. apply (Hd _ Hj). by left.
  - apply Hlk1.
  - apply Hlk1.
  - cbn [free_chain]. split; [done|]. exists (c_free_head s1). split; [by apply index_set_eq in Hset|].
    rewrite Rf. eapply free_frame; [|apply Hr]. intros j Hj. apply Hfr. intros Hin.
    apply NoDup_app in Hnd as (_ & Hd & _). by apply (Hd j).
  - by apply NoDup_mid_move.
  - rewrite Hv, <- (rp_slots _ _ _ _ Hr), !len_app, !len_cons. lia.
  - rewrite Rm, (rp_map _ _ _ _ Hr), Ha, !map_app. cbn [map].
    assert (Hl' : length (map item_id xs1) = length l1) by (by rewrite length_map).
    rewrite zip_mid, zip_with_app by done.
    change (key_id (i_key x)) with (item_id x). apply delete_list_to_map_mid. rewrite <- zip_mid by done.
    rewrite zip_fst; [done|]. rewrite !length_app. cbn. rewrite !length_map.
    pose proof (rep_length _ _ _ _ Hr) as Hlen. rewrite Ha, !length_app in Hlen. cbn in Hlen. lia.
  - rewrite map_app. apply NoDup_app in Hk as (Hk1 & Hkd & Hk2). apply NoDup_cons in Hk2 as [_ Hk2].
    apply NoDup_app. split; [done|]. split; [|done]. intros k Hk3 Hk4. apply (Hkd k Hk3). by right.
  - rewrite Rb, Hb, items_bytes_app. unfold saturating_sub.
    pose proof (items_bytes_nonneg _ Hp1). pose proof (items_bytes_nonneg _ Hp2). lia.
  - by apply Forall_app.
  - rewrite Rc. apply Hr.
  - rewrite Rx. apply Hr.
  - rewrite Rs. apply Hr.
  - rewrite Hv. apply Hr.
  - apply Hr.
Qed.

(** Evicting the tail drops the last item. *)
Lemma evict_tail_spec s a order free :
  rep s a order free -> a_items a <> [] ->
  exists s' order' free', evict_tail s = Some s'
    /\ rep s' (with_items a (removelast (a_items a))) order' free'.
Proof.
  intros Hr Hne. pose proof (rep_length _ _ _ _ Hr) as Hl.
  destruct (exists_last Hne) as (xs & x & Ha). rewrite Ha in Hl |- *.
  destruct order as [|i l _] using rev_ind; [rewrite length_app in Hl; cbn in Hl; lia|].
  rewrite !length_app in Hl. cbn in Hl.
  destruct (remove_spec s a l i [] xs x [] free) as (s' & E & Hr'); [done|done|lia|].
  unfold evict_tail. rewrite (rp_tail _ _ _ _ Hr), last_snoc. cbn [default from_option Datatypes.id].
  rewrite ok_not_none.
  - exists s', (l ++ []), (i :: free). split; [done|]. rewrite removelast_last. by rewrite app_nil_r in Hr' at 1.
  - destruct (rep_ok _ _ _ _ Hr) as (Hok & _). apply Forall_app in Hok as [_ Hok]. by inversion Hok.
Qed.

Lemma evict_loop_spec fuel : forall s a order free,
  rep s a order free -> (length (a_items a) <= fuel)%nat ->
  exists s' order' free', evict_loop fuel s = Some s'
    /\ rep s' (with_items a (a_evict fuel (a_max_bytes a) (a_items a))) order' free'.
Proof.
  induction fuel as [|fuel IH]; intros s a order free Hr Hf; cbn [evict_loop a_evict];
    rewrite (rp_bytes _ _ _ _ Hr), (rp_max _ _ _ _ Hr), (rep_map_len _ _ _ _ Hr).
  - assert (Ha : a_items a = []) by (destruct (a_items a); [done|cbn in Hf; lia]).
    rewrite Ha. cbn [items_bytes foldr]. rewrite andb_false_r. exists s, order, free. split; [done|].
    rewrite <- Ha. by destruct a.
  - destruct ((a_max_bytes a <? items_bytes (a_items a)) && (1 <? len (a_items a))) eqn:E.
    + assert (Hne : a_items a <> []) by (intros Ha; rewrite Ha in E; by rewrite andb_false_r in E).
      destruct (evict_tail_spec s a order free Hr Hne) as (s1 & o1 & f1 & -> & Hr1). cbn [mbind option_bind].
      destruct (IH s1 _ o1 f1 Hr1) as (s2 & o2 & f2 & E2 & Hr2).
      { cbn [with_items a_items]. destruct (exists_last Hne) as (xs & x & Ha). rewrite Ha in Hf |- *.
        rewrite removelast_last. rewrite length_app in Hf. cbn in Hf. lia. }
      exists s2, o2, f2. split; [done|]. exact Hr2.
    + exists s, order, free. split; [done|]. by destruct a.
Qed.

Lemma evict_to_byte_budget_spec s a order free :
  rep s a order free ->
  exists s' order' free', evict_to_byte_budget s = Some s'
    /\ rep s' (with_items a (a_fit (a_max_bytes a) (a_items a))) order' free'.
Proof.
  intros Hr. unfold evict_to_byte_budget, a_fit. pose proof (rep_map_len _ _ _ _ Hr) as Hm.
  unfold map_len, len in Hm. assert (E : size (c_map s) = length (a_items a)) by lia. rewrite E.
  by apply (evict_loop_spec _ s a order free).
Qed.

(** ** Recency, replacement, allocation *)
Lemma list_to_map_move (ids1 ids2 : list kid) k (l1 l2 : list Z) i :
  length ids1 = length l1 -> length ids2 = length l2 -> NoDup (ids1 ++ k :: ids2) ->
  list_to_map (zip (k :: ids1 ++ ids2) (i :: l1 ++ l2))
  = (list_to_map (zip (ids1 ++ k :: ids2) (l1 ++ i :: l2)) : gmap kid Z).
Proof.
  intros H1 H2 Hnd. symmetry. apply list_to_map_proper.
  - change ((zip ?x ?y).*1) with (map fst (zip x y)). rewrite zip_fst; [done|].
    rewrite !length_app. cbn. lia.
  - rewrite zip_mid by done. cbn [zip zip_with]. rewrite zip_with_app by done. symmetry. apply Permutation_middle.
Qed.

Lemma rep_split_lengths s a l1 i l2 xs1 x xs2 free :
  rep s a (l1 ++ i :: l2) free -> a_items a = xs1 ++ x :: xs2 -> length l1 = length xs1 -> length l2 = length xs2.
Proof.
  intros Hr Ha Hl. pose proof (rep_length _ _ _ _ Hr) as Hlen. rewrite Ha, !length_app in Hlen. cbn in Hlen. lia.
Qed.

Lemma move_to_head_spec s a l1 i l2 xs1 x xs2 free :
  rep s a (l1 ++ i :: l2) free -> a_items a = xs1 ++ x :: xs2 -> length l1 = length xs1 ->
  exists s', move_to_head s i = Some s' /\ rep s' (with_items a (x :: xs1 ++ xs2)) (i :: l1 ++ l2) free
    /\ exists nd, index (c_slots s') i = Some (Occupied nd) /\ n_entry nd = i_entry x.
Proof.
  intros Hr Ha Hl. pose proof (rep_linked _ _ _ _ Hr) as Hlk. rewrite Ha in Hlk.
  pose proof (rep_split_lengths _ _ _ _ _ _ _ _ _ Hr Ha Hl) as Hl2.
  destruct (rep_ok _ _ _ _ Hr) as (Hok & _). pose proof (rp_nodup _ _ _ _ Hr) as Hnd.
  assert (Hnd1 : NoDup (l1 ++ i :: l2)) by (apply NoDup_app in Hnd; tauto).
  assert (Hi : index (c_slots s) i = Some (Occupied (mkNode (i_key x) (i_entry x) (i_bytes x)
     (default NONE (last l1)) (default NONE (head l2))))).
  { pose proof (lk_chain _ _ _ Hlk) as Hc. apply chain_app in Hc as (_ & Hc); [|done]. by destruct Hc as (Hi & _). }
  unfold move_to_head. destruct (Z.eqb_spec (c_head s) i) as [Eh|Eh].
  - assert (l1 = []) as ->.
    { destruct l1 as [|j l1]; [done|]. rewrite (lk_head _ _ _ Hlk) in Eh. cbn in Eh. subst j.
      apply NoDup_cons in Hnd1 as [Hni _]. destruct Hni. apply elem_of_app; right; by left. }
    destruct xs1; [|done]. exists s. split; [done|]. split; [|by eexists].
    cbn [app] in *. rewrite <- Ha. by destruct a.
  - destruct (unlink_spec s l1 i l2 xs1 x xs2 Hlk Hl Hnd1 Hok) as (s1 & -> & R1 & Hlk1 & Hi1 & F1).
    cbn [mbind option_bind].
    assert (Hni : i ∉ l1 ++ l2).
    { intros Hin. apply NoDup_app in Hnd1 as (_ & Hd & Hn2). apply NoDup_cons in Hn2 as [Hn2 _].
      apply elem_of_app in Hin as [Hin|Hin]; [|done]. apply (Hd _ Hin). by left. }
    assert (Hok12 : Forall ok_index (l1 ++ l2) /\ ok_index i).
    { apply Forall_app in Hok as [Ho1 Ho2]. apply Forall_cons in Ho2 as [Hoi Ho2]. split; [by apply Forall_app|done]. }
    assert (Hnd12 : NoDup (l1 ++ l2)).
    { apply NoDup_app in Hnd1 as (Hn1 & Hd & Hn2). apply NoDup_cons in Hn2 as [_ Hn2].
      apply NoDup_app. split; [done|]. split; [|done]. intros j Hj1 Hj2. apply (Hd j Hj1). by right. }
    destruct (push_head_spec s1 (l1 ++ l2) (xs1 ++ xs2) i _ Hlk1 Hi1 Hni (proj2 Hok12) Hnd12 (proj1 Hok12))
      as (s2 & -> & R2 & Hlk2 & F2).
    cbn [n_key n_entry n_bytes] in Hlk2. destruct (same_rest_trans _ _ _ R1 R2) as (Rm & Rf & Rc & Rb & Rx & Rs & Rl).
    exists s2. split; [done|]. split.
    2:{ pose proof (lk_chain _ _ _ Hlk2) as Hc. destruct Hc as (Hc & _). by eexists. }
    assert (Hitem : mkItem (i_key x) (i_entry x) (i_bytes x) = x) by (by destruct x). rewrite Hitem in Hlk2.
    pose proof (rp_keys _ _ _ _ Hr) as Hk. rewrite Ha in Hk.
    assert (Hpx : x :: xs1 ++ xs2 ≡ₚ xs1 ++ x :: xs2) by apply Permutation_middle.
    split; cbn [with_items a_items a_capacity a_max_bytes a_stale]; try apply Hlk2.
    + rewrite Rf. eapply free_frame; [|apply Hr]. intros j Hj.
      assert (Hj' : j ∉ l1 ++ i :: l2).
      { intros Hin. apply NoDup_app in Hnd as (_ & Hd & _). by apply (Hd j). }
      rewrite F2; [by apply F1|]. intros Hin. apply Hj'. apply elem_of_cons in Hin as [->|Hin].
      * apply elem_of_app; right; by left.
      * apply elem_of_app in Hin as [Hin|Hin]; apply elem_of_app; [by left|right; by right].
    + assert (Hp : (i :: l1 ++ l2) ++ free ≡ₚ (l1 ++ i :: l2) ++ free) by solve_Permutation. by rewrite Hp.
    + rewrite Rl, <- (rp_slots _ _ _ _ Hr), len_cons, !len_app, len_cons. lia.
    + rewrite Rm, (rp_map _ _ _ _ Hr), Ha. cbn [map]. rewrite !map_app. cbn [map].
      rewrite map_app in Hk. symmetry. apply list_to_map_move; [by rewrite length_map|by rewrite length_map|done].
    + change (map item_id (x :: xs1 ++ xs2)) with (item_id <$> (x :: xs1 ++ xs2)).
      rewrite Hpx. exact Hk.
    + rewrite Rb, (rp_bytes _ _ _ _ Hr), Ha. cbn [items_bytes foldr]. fold (items_bytes (xs1 ++ xs2)).
      rewrite !items_bytes_app. cbn [items_bytes foldr]. fold (items_bytes xs2). lia.
    + rewrite Hpx, <- Ha. apply Hr.
    + rewrite Rc. apply Hr.
    + rewrite Rx. apply Hr.
    + rewrite Rs. apply Hr.
    + rewrite Rl. apply Hr.
    + apply Hr.
Qed.

(** Replacing the payload of one slot in place. *)
Lemma chain_replace v v' p l1 i l2 xs1 x y xs2 n :
  chain v p (l1 ++ i :: l2) (xs1 ++ x :: xs2) n -> length l1 = length xs1 -> NoDup (l1 ++ i :: l2) ->
  (forall nd, index v i = Some (Occupied nd) ->
     index_set v i (Occupied (mkNode (i_key y) (i_entry y) (i_bytes y) (n_prev nd) (n_next nd))) = Some v') ->
  chain v' p (l1 ++ i :: l2) (xs1 ++ y :: xs2) n.
Proof.
  intros Hc Hl Hnd Hset. apply chain_app in Hc as (Hc1 & Hc2); [|done]. destruct Hc2 as (Hi & Hc2).
  specialize (Hset _ Hi). cbn in Hset.
  apply NoDup_app in Hnd as (_ & Hd & Hn2). apply NoDup_cons in Hn2 as [Hn2 _].
  apply chain_app; [done|]. split.
  - eapply chain_frame; [|exact Hc1]. intros j Hj. eapply index_set_ne; [exact Hset|]. intros ->.
    apply (Hd _ Hj). by left.
  - split; [by apply index_set_eq in Hset|]. eapply chain_frame; [|exact Hc2]. intros j Hj.
    eapply index_set_ne; [exact Hset|]. by intros ->.
Qed.

Lemma replace_spec s a l1 i l2 xs1 x xs2 free e bytes :
  rep s a (l1 ++ i :: l2) free -> a_items a = xs1 ++ x :: xs2 -> length l1 = length xs1 ->
  0 <= bytes -> items_bytes (a_items a) + bytes <= usize_max ->
  exists v t nd, index (c_slots s) i = Some (Occupied nd)
    /\ index_set (c_slots s) i (Occupied (mkNode (n_key nd) e bytes (n_prev nd) (n_next nd))) = Some v
    /\ (t ← checked_sub (c_bytes_total s) (n_bytes nd); checked_add t bytes) = Some t
    /\ rep (set_bytes_total (set_slots s v) t)
         (with_items a (xs1 ++ mkItem (i_key x) e bytes :: xs2)) (l1 ++ i :: l2) free.
Proof.
  intros Hr Ha Hl Hb Hroom. pose proof (rp_chain _ _ _ _ Hr) as Hc. rewrite Ha in Hc.
  pose proof Hc as Hc'. apply chain_app in Hc' as (_ & Hi & _); [|done].
  destruct (index_set_ok (c_slots s) i (Occupied (mkNode (i_key x) e bytes (default NONE (last l1)) (default NONE (head l2)))) _ Hi)
    as (v & Hset).
  pose proof (rp_bytes _ _ _ _ Hr) as Ht. pose proof (rp_pos _ _ _ _ Hr) as Hpos. rewrite Ha in Ht, Hpos, Hroom.
  rewrite items_bytes_app in Ht, Hroom. cbn [items_bytes foldr] in Ht, Hroom. fold (items_bytes xs2) in Ht, Hroom.
  apply Forall_app in Hpos as [Hp1 Hp2]. apply Forall_cons in Hp2 as [Hpx Hp2].
  pose proof (items_bytes_nonneg _ Hp1). pose proof (items_bytes_nonneg _ Hp2).
  exists v, (c_bytes_total s - i_bytes x + bytes), (mkNode (i_key x) (i_entry x) (i_bytes x) (default NONE (last l1)) (default NONE (head l2))).
  split; [exact Hi|]. split; [exact Hset|]. split.
  { cbn [n_bytes]. unfold checked_sub, checked_add. zguard. cbn [mbind option_bind]. rewrite try_from_Some by lia. f_equal. }
  pose proof (rp_nodup _ _ _ _ Hr) as Hnd.
  assert (Hnd1 : NoDup (l1 ++ i :: l2)) by (apply NoDup_app in Hnd; tauto).
  assert (Hids : map item_id (xs1 ++ mkItem (i_key x) e bytes :: xs2) = map item_id (a_items a)).
  { rewrite Ha, !map_app. done. }
  split; cbn [set_bytes_total set_slots c_slots c_head c_tail c_free_head c_map c_capacity c_bytes_total c_max_bytes
              c_serve_stale_secs with_items a_items a_capacity a_max_bytes a_stale]; try apply Hr.
  - eapply chain_replace; [exact Hc|done|done|]. intros nd Hnd'. rewrite Hi in Hnd'. injection Hnd' as <-. exact Hset.
  - eapply free_frame; [|apply Hr]. intros j Hj. eapply index_set_ne; [exact Hset|]. intros ->.
    apply NoDup_app in Hnd as (_ & Hd & _). apply (Hd j); [|done]. apply elem_of_app; right; by left.
  - rewrite (index_set_len _ _ _ _ Hset). apply Hr.
  - rewrite Hids. apply Hr.
  - rewrite Hids. apply Hr.
  - rewrite Ht, items_bytes_app. cbn [items_bytes foldr i_bytes]. fold (items_bytes xs2). lia.
  - apply Forall_app; split; [done|]. by constructor.
  - rewrite (index_set_len _ _ _ _ Hset). apply Hr.
Qed.

Lemma index_snoc_eq {A} (v : list A) x : index (v ++ [x]) (len v) = Some x.
Proof. unfold len. rewrite index_nat, lookup_app_r by lia. by rewrite Nat.sub_diag. Qed.

Lemma index_snoc_lt {A} (v : list A) x j : j < len v -> index (v ++ [x]) j = index v j.
Proof.
  intros Hj. unfold index. destruct (0 <=? j) eqn:E; [|done]. bool_to_prop.
  apply lookup_app_l. unfold len in Hj. lia.
Qed.

(** A slot for a new node: from the free list, or a new one. *)
Lemma alloc_spec s a order free nd :
  rep s a order free -> len (a_items a) < a_capacity a ->
  exists i s1 free1, alloc_slot s nd = Some (i, s1)
    /\ index (c_slots s1) i = Some (Occupied nd) /\ ok_index i /\ i ∉ order
    /\ chain (c_slots s1) NONE order (a_items a) NONE
    /\ free_chain (c_slots s1) (c_free_head s1) free1
    /\ NoDup ((i :: order) ++ free1) /\ 1 + len order + len free1 = len (c_slots s1)
    /\ len (c_slots s1) <= a_capacity a
    /\ c_map s1 = c_map s /\ c_head s1 = c_head s /\ c_tail s1 = c_tail s /\ c_capacity s1 = c_capacity s
    /\ c_bytes_total s1 = c_bytes_total s /\ c_max_bytes s1 = c_max_bytes s
    /\ c_serve_stale_secs s1 = c_serve_stale_secs s.
Proof.
  intros Hr Hcap. pose proof (rp_slots _ _ _ _ Hr) as Hsl. pose proof (rep_length _ _ _ _ Hr) as Hlen.
  destruct (rep_ok _ _ _ _ Hr) as (Hok & Hokf). pose proof (rp_free _ _ _ _ Hr) as Hfr.
  pose proof (rp_nodup _ _ _ _ Hr) as Hnd. destruct (rp_limits _ _ _ _ Hr) as ((Hc0 & Hc1) & _).
  assert (Hol : len order = len (a_items a)) by (unfold len; by rewrite Hlen).
  assert (Hbound : forall j, j ∈ order -> j < len (c_slots s)).
  { intros j Hj. destruct (chain_index _ _ _ _ _ j (rp_chain _ _ _ _ Hr) Hj) as (n & E). apply index_Some_lt in E. lia. }
  unfold alloc_slot. destruct free as [|i free1].
  - cbn in Hfr. rewrite Hfr, Z.eqb_refl. change (len ([] : list Z)) with 0 in Hsl.
    exists (len (c_slots s)), (set_slots s (c_slots s ++ [Occupied nd])), []. split; [done|].
    pose proof (len_nonneg (c_slots s)).
    assert (Hni : len (c_slots s) ∉ order) by (intros Hin; apply Hbound in Hin; lia).
    cbn [set_slots c_slots c_free_head]. repeat split; try done; try lia.
    + apply index_snoc_eq.
    + eapply chain_frame; [|apply Hr]. intros j Hj. apply index_snoc_lt. by apply Hbound.
    + rewrite app_nil_r in *. constructor; done.
    + rewrite len_app, len_cons. change (len ([] : list Slot)) with 0. change (len ([] : list Z)) with 0. lia.
    + rewrite len_app, len_cons. change (len ([] : list Slot)) with 0. lia.
  - destruct Hfr as (Hfh & nxt & Hi & Hfr). rewrite Hfh. apply Forall_cons in Hokf as [Hoki Hokf].
    rewrite ok_not_none by done. cbn zeta. rewrite Hi. cbn [mbind option_bind set_free_head c_slots].
    destruct (index_set_ok (c_slots s) i (Occupied nd) _ Hi) as (v & Hset). rewrite Hset. cbn [mbind option_bind].
    exists i, (set_slots (set_free_head s nxt) v), free1. split; [done|].
    assert (Hni : i ∉ order).
    { intros Hin. apply NoDup_app in Hnd as (_ & Hd & _). apply (Hd i Hin). by left. }
    assert (Hnif : i ∉ free1).
    { apply NoDup_app in Hnd as (_ & _ & Hn). by apply NoDup_cons in Hn as [? _]. }
    cbn [set_slots set_free_head c_slots c_free_head]. rewrite !(index_set_len _ _ _ _ Hset).
    rewrite len_cons in Hsl. repeat split; try done; try (pose proof (rp_size _ _ _ _ Hr); lia); try apply Hoki.
    + by apply index_set_eq in Hset.
    + eapply chain_frame; [|apply Hr]. intros j Hj. eapply index_set_ne; [exact Hset|]. by intros ->.
    + eapply free_frame; [|exact Hfr]. intros j Hj. eapply index_set_ne; [exact Hset|]. by intros ->.
    + assert (Hp : (i :: order) ++ free1 ≡ₚ order ++ i :: free1) by solve_Permutation. by rewrite Hp.
Qed.

(** Storing a new entry at the head. *)
Lemma add_spec s a order free key e bytes :
  rep s a order free -> len (a_items a) < a_capacity a -> key_id key ∉ map item_id (a_items a) ->
  0 <= bytes -> items_bytes (a_items a) + bytes <= usize_max ->
  exists s3 order' free' t,
    ('(idx, s) ← alloc_slot s (mkNode key e bytes NONE NONE);
     let s := set_map s (<[key_id key := idx]> (c_map s)) in push_head s idx) = Some s3
    /\ checked_add (c_bytes_total s3) bytes = Some t
    /\ rep (set_bytes_total s3 t) (with_items a (mkItem key e bytes :: a_items a)) order' free'.
Proof.
  intros Hr Hcap Hni Hb Hroom.
  destruct (alloc_spec s a order free (mkNode key e bytes NONE NONE) Hr Hcap) as
    (i & s1 & free1 & -> & Hi & Hoki & Hio & Hch & Hfr & Hnd & Hsl & Hsz & Em & Eh & Et & Ec & Eb & Ex & Es).
  cbn [mbind option_bind]. cbn zeta.
  set (s2 := set_map s1 (<[key_id key:=i]> (c_map s1))).
  assert (Hlk : linked s2 order (a_items a)).
  { split; cbn; [done|rewrite Eh; apply Hr|rewrite Et; apply Hr]. }
  destruct (rep_ok _ _ _ _ Hr) as (Hok & _).
  assert (Hndo : NoDup order).
  { cbn in Hnd. apply NoDup_cons in Hnd as [_ Hnd]. apply NoDup_app in Hnd. tauto. }
  destruct (push_head_spec s2 order (a_items a) i _ Hlk Hi Hio Hoki Hndo Hok) as (s3 & -> & R3 & Hlk3 & F3).
  cbn [n_key n_entry n_bytes] in Hlk3. destruct R3 as (Rm & Rf & Rc & Rb & Rx & Rs & Rl).
  pose proof (items_bytes_nonneg _ (rp_pos _ _ _ _ Hr)).
  exists s3, (i :: order), free1, (c_bytes_total s3 + bytes). split; [done|]. split.
  { unfold checked_add. apply try_from_Some. rewrite Rb. cbn. rewrite Eb, (rp_bytes _ _ _ _ Hr). lia. }
  split; cbn [set_bytes_total c_slots c_head c_tail c_free_head c_map c_capacity c_bytes_total c_max_bytes
              c_serve_stale_secs with_items a_items a_capacity a_max_bytes a_stale]; try apply Hlk3.
  - rewrite Rf. eapply free_frame; [|exact Hfr]. intros j Hj. apply F3.
    cbn in Hnd. apply NoDup_cons in Hnd as [Hn1 Hn2]. intros Hin. apply elem_of_cons in Hin as [->|Hin].
    + apply Hn1. apply elem_of_app. by right.
    + apply NoDup_app in Hn2 as (_ & Hd & _). by apply (Hd j).
  - exact Hnd.
  - rewrite Rl. cbn [set_map c_slots s2]. rewrite len_cons. lia.
  - rewrite Rm. cbn [set_map c_map s2]. rewrite Em, (rp_map _ _ _ _ Hr). done.
  - cbn. constructor; [done|apply Hr].
  - rewrite Rb. cbn [set_map c_bytes_total s2]. rewrite Eb, (rp_bytes _ _ _ _ Hr). cbn. fold (items_bytes (a_items a)). lia.
  - constructor; [done|apply Hr].
  - rewrite Rc. cbn. rewrite Ec. apply Hr.
  - rewrite Rx. cbn. rewrite Ex. apply Hr.
  - rewrite Rs. cbn. rewrite Es. apply Hr.
  - rewrite Rl. cbn [set_map c_slots s2]. exact Hsz.
  - apply Hr.
Qed.

(** ** Bounds of the abstract cache *)

(** The largest estimate of one entry: 65,535 bytes on the wire. *)
Definition MAX_ENTRY_BYTES : Z := u16_max * BYTES_SLOP_FACTOR + ENTRY_OVERHEAD_BYTES.

Record bounded (a : Abs) : Prop := {
  bd_count : len (a_items a) <= a_capacity a;
  bd_bytes : items_bytes (a_items a) <= a_max_bytes a \/ len (a_items a) <= 1;
  bd_entry : Forall (fun x => 0 <= i_bytes x <= MAX_ENTRY_BYTES) (a_items a);
  bd_room : a_max_bytes a + 2 * MAX_ENTRY_BYTES <= usize_max
}.

Lemma estimate_bytes_range m : ENTRY_OVERHEAD_BYTES <= estimate_bytes m <= MAX_ENTRY_BYTES.
Proof.
  unfold estimate_bytes, MAX_ENTRY_BYTES, FALLBACK_WIRE_BYTES, BYTES_SLOP_FACTOR, ENTRY_OVERHEAD_BYTES.
  destruct (to_vec m) as [w|] eqn:E; [|unfold u16_max; lia].
  apply to_vec_bound in E. pose proof (len_nonneg w). unfold u16_max in *. lia.
Qed.

Lemma removelast_prefix {A} (l : list A) : exists k, l = removelast l ++ k.
Proof.
  destruct l as [|x l _] using rev_ind; [by exists []|]. exists [x]. by rewrite removelast_last.
Qed.

Lemma a_evict_prefix fuel max l : exists k, l = a_evict fuel max l ++ k.
Proof.
  revert l. induction fuel as [|fuel IH]; intros l; cbn [a_evict]; [exists []; by rewrite app_nil_r|].
  destruct (_ && _); [|exists []; by rewrite app_nil_r].
  destruct (IH (removelast l)) as (k & Ek). destruct (removelast_prefix l) as (k2 & Ek2).
  exists (k ++ k2). by rewrite app_assoc, <- Ek.
Qed.

Lemma a_evict_budget fuel max l :
  (length l <= fuel)%nat -> items_bytes (a_evict fuel max l) <= max \/ len (a_evict fuel max l) <= 1.
Proof.
  revert l. induction fuel as [|fuel IH]; intros l Hf; cbn [a_evict].
  - right. unfold len. lia.
  - destruct (_ && _) eqn:E.
    + apply andb_true_iff in E as [_ E]. apply Z.ltb_lt in E. apply IH.
      destruct l as [|x l _] using rev_ind; [cbn; lia|]. rewrite removelast_last. rewrite length_app in Hf. cbn in Hf. lia.
    + apply andb_false_iff in E as [E|E]; apply Z.ltb_ge in E; [left|right]; lia.
Qed.

Lemma a_evict_nonempty fuel max x l : exists k, a_evict fuel max (x :: l) = x :: k.
Proof.
  revert l. induction fuel as [|fuel IH]; intros l; cbn [a_evict]; [by exists l|].
  destruct (_ && _) eqn:E; [|by exists l]. destruct l as [|y l _] using rev_ind.
  - rewrite andb_comm in E. done.
  - rewrite app_comm_cons, removelast_last. apply IH.
Qed.

Lemma prefix_count {A} (l k : list A) n : len (l ++ k) <= n -> len l <= n.
Proof. rewrite len_app. pose proof (len_nonneg k). lia. Qed.

Lemma items_bytes_prefix l k : Forall (fun x => 0 <= i_bytes x) (l ++ k) -> items_bytes l <= items_bytes (l ++ k).
Proof.
  intros Hp. apply Forall_app in Hp as [_ Hp]. rewrite items_bytes_app. pose proof (items_bytes_nonneg _ Hp). lia.
Qed.

(** A fitted list is bounded when the list before fitting is. *)
Lemma bounded_fit a l :
  bounded a -> len l <= a_capacity a -> Forall (fun x => 0 <= i_bytes x <= MAX_ENTRY_BYTES) l ->
  bounded (with_items a (a_fit (a_max_bytes a) l)).
Proof.
  intros Hb Hl Hx. destruct (a_evict_prefix (length l) (a_max_bytes a) l) as (k & Ek).
  fold (a_fit (a_max_bytes a) l) in Ek. split; cbn; try apply Hb.
  - rewrite Ek in Hl. by eapply prefix_count.
  - by apply a_evict_budget.
  - rewrite Ek in Hx. apply Forall_app in Hx. tauto.
Qed.

Lemma bounded_total a : bounded a -> items_bytes (a_items a) <= Z.max (a_max_bytes a) MAX_ENTRY_BYTES.
Proof.
  intros Hb. destruct (bd_bytes _ Hb) as [Hx|Hx]; [lia|]. pose proof (bd_entry _ Hb) as He.
  destruct (a_items a) as [|x [|y l]]; cbn.
  - unfold MAX_ENTRY_BYTES, BYTES_SLOP_FACTOR, ENTRY_OVERHEAD_BYTES, u16_max. lia.
  - apply Forall_inv in He. lia.
  - rewrite !len_cons in Hx. pose proof (len_nonneg l). lia.
Qed.

(** ** The operations refine their abstract steps *)
Lemma insert_entry_spec s a order free key e bytes :
  rep s a order free -> bounded a -> 0 <= bytes <= MAX_ENTRY_BYTES -> 0 < a_max_bytes a ->
  exists s' order' free', insert_entry s key e bytes = Some s'
    /\ rep s' (with_items a (a_insert a key e bytes)) order' free'
    /\ bounded (with_items a (a_insert a key e bytes)).
Proof.
  intros Hr Hb Hby Hm. unfold insert_entry, a_insert.
  pose proof (bounded_total _ Hb) as Htot. pose proof (bd_room _ Hb) as Hroom. pose proof (bd_entry _ Hb) as Hent.
  destruct (c_map s !! key_id key) as [i|] eqn:Ek.
  - destruct (rep_lookup_Some _ _ _ _ _ _ Hr Ek) as (l1 & l2 & xs1 & x & xs2 & -> & Ha & Hl & Hx).
    pose proof (rp_keys _ _ _ _ Hr) as Hkeys. rewrite Ha in Hkeys. rewrite Ha, <- Hx.
    rewrite a_lookup_mid, a_remove_mid by done.
    destruct (replace_spec s a l1 i l2 xs1 x xs2 free e bytes Hr Ha Hl) as (v & t & nd & Hi & Hset & Ht & Hr1); [lia|lia|].
    rewrite Hi. cbn [mbind option_bind]. rewrite Hset. cbn [mbind option_bind].
    destruct (checked_sub (c_bytes_total s) (n_bytes nd)) as [t0|]; [|done]. cbn [mbind option_bind] in Ht |- *.
    rewrite Ht. cbn [mbind option_bind].
    destruct (move_to_head_spec _ _ l1 i l2 xs1 (mkItem (i_key x) e bytes) xs2 free Hr1) as (s2 & -> & Hr2 & _);
      [done|done|]. cbn [mbind option_bind].
    destruct (evict_to_byte_budget_spec _ _ _ _ Hr2) as (s3 & o3 & f3 & E3 & Hr3).
    exists s3, o3, f3. split; [done|]. split; [exact Hr3|]. apply bounded_fit; [done| |].
    + pose proof (bd_count _ Hb) as Hc. rewrite Ha, len_app, len_cons in Hc. rewrite len_cons, len_app. lia.
    + rewrite Ha in Hent. apply Forall_app in Hent as [He1 He2]. apply Forall_cons in He2 as [_ He2].
      constructor; [done|]. by apply Forall_app.
  - destruct (rep_lookup_None _ _ _ _ _ Hr Ek) as (-> & Hni).
    rewrite (rp_cap _ _ _ _ Hr), (rep_map_len _ _ _ _ Hr).
    assert (Hev : exists s1 o1 f1 l, (if a_capacity a <=? len (a_items a) then evict_tail s else Some s) = Some s1
      /\ l = (if a_capacity a <=? len (a_items a) then removelast (a_items a) else a_items a)
      /\ rep s1 (with_items a l) o1 f1 /\ len l < a_capacity a /\ exists k, a_items a = l ++ k).
    { destruct (rp_limits _ _ _ _ Hr) as ((Hc0 & _) & _). pose proof (bd_count _ Hb) as Hcnt.
      destruct (Z.leb_spec (a_capacity a) (len (a_items a))) as [Hge|Hlt].
      - assert (Hne : a_items a <> []) by (intros E; rewrite E in Hge; unfold len in Hge; cbn in Hge; lia).
        destruct (evict_tail_spec s a order free Hr Hne) as (s1 & o1 & f1 & E1 & Hr1).
        exists s1, o1, f1, (removelast (a_items a)). split; [done|]. split; [done|]. split; [done|].
        split; [|apply removelast_prefix].
        destruct (exists_last Hne) as (xs & x & Ex). rewrite Ex in Hcnt |- *. rewrite removelast_last.
        rewrite len_app, len_cons in Hcnt. change (len ([] : list Item)) with 0 in Hcnt. lia.
      - exists s, order, free, (a_items a). split; [done|]. split; [done|]. split; [by destruct a|].
        split; [done|]. exists []. by rewrite app_nil_r. }
    destruct Hev as (s1 & o1 & f1 & l & -> & <- & Hr1 & Hl & k & Hk). cbn [mbind option_bind].
    pose proof (rp_pos _ _ _ _ Hr) as Hpos. rewrite Hk in Hpos, Htot, Hni, Hent.
    pose proof (items_bytes_prefix _ _ Hpos). rewrite map_app in Hni. apply not_elem_of_app in Hni as [Hni _].
    destruct (add_spec s1 (with_items a l) o1 f1 key e bytes Hr1) as (s3 & o3 & f3 & t & E3 & Et & Hr3);
      [done|done|lia|cbn [with_items a_items]; lia|].
    destruct (alloc_slot s1 (mkNode key e bytes NONE NONE)) as [[idx s2]|]; [|done].
    cbn [mbind option_bind] in E3 |- *. cbn zeta in *. rewrite E3. cbn [mbind option_bind].
    rewrite Et. cbn [mbind option_bind].
    destruct (evict_to_byte_budget_spec _ _ _ _ Hr3) as (s4 & o4 & f4 & E4 & Hr4).
    exists s4, o4, f4. split; [done|]. split; [exact Hr4|]. apply bounded_fit; [done| |].
    + rewrite len_cons. lia.
    + constructor; [done|]. apply Forall_app in Hent. tauto.
Qed.

Lemma bounded_perm a l :
  bounded a -> l ≡ₚ a_items a -> bounded (with_items a l).
Proof.
  intros Hb Hp. assert (Hl : len l = len (a_items a)) by (unfold len; by rewrite Hp).
  assert (Hby : items_bytes l = items_bytes (a_items a)).
  { unfold items_bytes. clear -Hp. induction Hp; cbn; lia. }
  destruct Hb. split; cbn [with_items a_items a_capacity a_max_bytes]; rewrite ?Hl, ?Hby, ?Hp; done.
Qed.

Lemma bounded_drop a xs1 x xs2 :
  bounded a -> a_items a = xs1 ++ x :: xs2 -> bounded (with_items a (xs1 ++ xs2)).
Proof.
  intros Hb Ha. destruct Hb as [H1 H2 H3 H4]. rewrite Ha in *. rewrite len_app, len_cons in *.
  rewrite items_bytes_app in H2. cbn in H2. fold (items_bytes xs2) in H2.
  apply Forall_app in H3 as [H3 H5]. apply Forall_cons in H5 as [H5 H6].
  split; cbn [with_items a_items a_capacity a_max_bytes]; rewrite ?len_app, ?items_bytes_app; [lia| |by apply Forall_app|done].
  pose proof (len_nonneg xs1). pose proof (len_nonneg xs2). destruct H2; [left; lia|right; lia].
Qed.

Lemma get_spec s a order free key now :
  rep s a order free -> bounded a ->
  exists s' order' free', get s key now = Some (fst (a_get a key now), s')
    /\ rep s' (with_items a (snd (a_get a key now))) order' free'
    /\ bounded (with_items a (snd (a_get a key now))).
Proof.
  intros Hr Hb. unfold get, a_get.
  destruct (c_map s !! key_id key) as [i|] eqn:Ek.
  2:{ destruct (rep_lookup_None _ _ _ _ _ Hr Ek) as (-> & _). exists s, order, free. by destruct a. }
  destruct (rep_lookup_Some _ _ _ _ _ _ Hr Ek) as (l1 & l2 & xs1 & x & xs2 & -> & Ha & Hl & Hx).
  pose proof (rp_keys _ _ _ _ Hr) as Hkeys. rewrite Ha in Hkeys. rewrite Ha, <- Hx.
  rewrite a_lookup_mid, a_remove_mid by done.
  pose proof (rp_chain _ _ _ _ Hr) as Hc. rewrite Ha in Hc. apply chain_app in Hc as (_ & Hi & _); [|done].
  rewrite Hi. cbn [mbind option_bind n_entry]. rewrite (rp_stale _ _ _ _ Hr).
  destruct (saturating_add u64_max (effective_ttl_secs (i_entry x)) (a_stale a) <=? _) eqn:Eexp; cbn [fst snd].
  - destruct (remove_spec s a l1 i l2 xs1 x xs2 free Hr Ha Hl) as (s' & -> & Hr'). cbn [mbind option_bind].
    exists s', (l1 ++ l2), (i :: free). split; [done|]. split; [done|]. by eapply bounded_drop.
  - destruct (move_to_head_spec s a l1 i l2 xs1 x xs2 free Hr Ha Hl) as (s' & -> & Hr' & nd & Hnd & Hne).
    cbn [mbind option_bind]. rewrite Hnd. cbn [mbind option_bind]. rewrite Hne.
    exists s', (i :: l1 ++ l2), free. split; [done|]. split; [done|]. apply bounded_perm; [done|].
    rewrite Ha. apply Permutation_middle.
Qed.

(** ** Sequences of operations *)
Inductive CacheOp := OInsert (k : CacheKey) (m : Message) (now : Instant) | OGet (k : CacheKey) (now : Instant).

Definition run_op (s : Inner) (o : CacheOp) : option (option Lookup * Inner) :=
  match o with
  | OInsert k m now => s' ← insert s k m now; Some (None, s')
  | OGet k now => '(l, s') ← get s k now; Some (Some l, s')
  end.

Fixpoint run_ops (s : Inner) (ops : list CacheOp) : option (list (option Lookup) * Inner) :=
  match ops with
  | [] => Some ([], s)
  | o :: ops =>
      '(out, s) ← run_op s o;
      '(outs, s) ← run_ops s ops;
      Some (out :: outs, s)
  end.

Definition a_insert_message (a : Abs) (k : CacheKey) (m : Message) (now : Instant) : list Item :=
  if negb (cacheable (rcode m)) then a_items a else
  match entry_of_message m now with
  | None => a_items a
  | Some e => a_insert a k e (estimate_bytes m)
  end.

Definition a_step (a : Abs) (o : CacheOp) : option Lookup * Abs :=
  match o with
  | OInsert k m now => (None, with_items a (a_insert_message a k m now))
  | OGet k now => (Some (fst (a_get a k now)), with_items a (snd (a_get a k now)))
  end.

Fixpoint a_run (a : Abs) (ops : list CacheOp) : list (option Lookup) * Abs :=
  match ops with
  | [] => ([], a)
  | o :: ops =>
      let '(out, a) := a_step a o in
      let '(outs, a) := a_run a ops in
      (out :: outs, a)
  end.

(** The state of a cache that stands for [a]. *)
Definition stands_for (s : Inner) (a : Abs) : Prop :=
  bounded a /\ exists order free, rep s a order free.

(** Limits the constructors accept and a 64-bit machine can hold. *)
Definition limits_ok (capacity max_bytes : Z) : Prop :=
  0 < capacity < NONE /\ 0 < max_bytes /\ max_bytes + 2 * MAX_ENTRY_BYTES <= usize_max.

Lemma insert_stands_for s a k m now :
  stands_for s a ->
  exists s', insert s k m now = Some s' /\ stands_for s' (with_items a (a_insert_message a k m now)).
Proof.
  intros (Hb & order & free & Hr). unfold insert, a_insert_message.
  assert (Hsame : stands_for s (with_items a (a_items a))) by (destruct a; split; [done|by exists order, free]).
  destruct (negb (cacheable (rcode m))); [by exists s|].
  destruct (entry_of_message m now) as [e|]; [|by exists s].
  pose proof (estimate_bytes_range m) as Hrange. unfold ENTRY_OVERHEAD_BYTES in Hrange.
  destruct (insert_entry_spec s a order free k e (estimate_bytes m) Hr Hb) as (s' & o' & f' & E & Hr' & Hb');
    [lia|apply Hr|]. exists s'. split; [done|]. split; [done|]. by exists o', f'.
Qed.

Lemma get_stands_for s a k now :
  stands_for s a ->
  exists s', get s k now = Some (fst (a_get a k now), s') /\ stands_for s' (with_items a (snd (a_get a k now))).
Proof.
  intros (Hb & order & free & Hr).
  destruct (get_spec s a order free k now Hr Hb) as (s' & o' & f' & E & Hr' & Hb').
  exists s'. split; [done|]. split; [done|]. by exists o', f'.
Qed.

Lemma run_ops_stands_for ops : forall s a,
  stands_for s a ->
  exists s', run_ops s ops = Some (fst (a_run a ops), s') /\ stands_for s' (snd (a_run a ops)).
Proof.
  induction ops as [|o ops IH]; intros s a Hs; cbn [run_ops a_run]; [by exists s|].
  destruct o as [k m now|k now]; cbn [run_op a_step].
  - destruct (insert_stands_for s a k m now Hs) as (s1 & -> & Hs1). cbn [mbind option_bind].
    destruct (IH s1 _ Hs1) as (s2 & -> & Hs2). cbn [mbind option_bind].
    destruct (a_run _ ops) as [outs a2]. by exists s2.
  - destruct (get_stands_for s a k now Hs) as (s1 & -> & Hs1). cbn [mbind option_bind].
    destruct (IH s1 _ Hs1) as (s2 & -> & Hs2). cbn [mbind option_bind].
    destruct (a_run _ ops) as [outs a2]. by exists s2.
Qed.

Lemma with_limits_stands_for capacity max_bytes stale :
  limits_ok capacity max_bytes ->
  exists s, with_limits capacity max_bytes stale = Some s /\ stands_for s (mkAbs [] capacity max_bytes stale).
Proof.
  intros (Hc & Hm & Hroom). unfold with_limits. zguard. cbn [assert mbind option_bind].
  eexists. split; [reflexivity|]. split.
  - split; cbn; [unfold len; cbn; lia|by left; lia|constructor|lia].
  - exists [], []. split; cbn; try done; try (unfold len; cbn; lia); constructor.
Qed.

Lemma rep_counts s a : stands_for s a -> cache_len s = len (a_items a) /\ c_bytes_total s = items_bytes (a_items a).
Proof. intros (_ & order & free & Hr). split; [by eapply rep_map_len|apply Hr]. Qed.

Lemma a_run_limits ops a :
  a_capacity (snd (a_run a ops)) = a_capacity a /\ a_max_bytes (snd (a_run a ops)) = a_max_bytes a
  /\ a_stale (snd (a_run a ops)) = a_stale a.
Proof.
  revert a. induction ops as [|o ops IH]; intros a; cbn [a_run]; [done|].
  destruct (a_step a o) as [out a1] eqn:E. specialize (IH a1). destruct (a_run a1 ops) as [outs a2].
  cbn [snd] in *. destruct IH as (-> & -> & ->). destruct o; cbn in E; injection E as <- <-; done.
Qed.

(** ** Lifetimes *)
Lemma fold_min_le l x : fold_left Z.min l x <= x /\ Forall (fun y => fold_left Z.min l x <= y) l
  /\ (fold_left Z.min l x = x \/ fold_left Z.min l x ∈ l).
Proof.
  revert x. induction l as [|y l IH]; intros x; cbn [fold_left].
  - split; [lia|]. split; [constructor|by left].
  - destruct (IH (Z.min x y)) as (H1 & H2 & H3). split; [lia|]. split; [constructor; [lia|done]|].
    destruct H3 as [H3|H3]; [|right; by right]. rewrite H3.
    destruct (Z.min_spec x y) as [[_ ->]|[_ ->]]; [by left|right; by left].
Qed.

Lemma iter_min_Some l m : iter_min l = Some m <-> m ∈ l /\ Forall (fun y => m <= y) l.
Proof.
  destruct l as [|x l]; cbn.
  - split; [done|]. intros (Hin & _). by apply elem_of_nil in Hin.
  - destruct (fold_min_le l x) as (H1 & H2 & H3). split.
    + intros [= <-]. split; [|by constructor]. destruct H3 as [->|H3]; [by left|by right].
    + intros (Hin & Hall). f_equal. apply Forall_cons in Hall as [Ha Hb].
      assert (Hle : fold_left Z.min l x <= m).
      { apply elem_of_cons in Hin as [->|Hin]; [done|]. rewrite Forall_forall in H2. by apply H2. }
      assert (m <= fold_left Z.min l x).
      { destruct H3 as [->|H3]; [done|]. rewrite Forall_forall in Hb. by apply Hb. }
      lia.
Qed.

(** The authoritative lifetime of one record (RFC 1035, RFC 2308). *)
Definition lifetime (r : DnsRecord) : Z :=
  match r_data r with RSOA soa => Z.min (r_ttl r) (soa_minimum soa) | _ => r_ttl r end.

Lemma lifetimes_of_message m :
  map record_lifetime (map original_of (answers m) ++ map original_of (authorities m))
  = map lifetime (answers m ++ authorities m).
Proof. rewrite <- map_app, map_map. done. Qed.

Lemma entry_of_message_Some m now e :
  entry_of_message m now = Some e <->
  e = mkEntry (map original_of (answers m)) (map original_of (authorities m)) (rcode m) (effective_ttl_secs e) now
  /\ effective_ttl_secs e ∈ map lifetime (answers m ++ authorities m)
  /\ Forall (fun r => effective_ttl_secs e <= lifetime r) (answers m ++ authorities m).
Proof.
  unfold entry_of_message. rewrite lifetimes_of_message.
  destruct (iter_min _) as [ttl|] eqn:E.
  - split.
    + intros [= <-]. cbn. apply iter_min_Some in E as (Hin & Hall). split; [done|]. split; [done|].
      rewrite List.Forall_map in Hall. exact Hall.
    + intros (He & Hin & Hall). rewrite He. do 2 f_equal.
      assert (E2 : iter_min (map lifetime (answers m ++ authorities m)) = Some (effective_ttl_secs e)).
      { apply iter_min_Some. split; [done|]. rewrite List.Forall_map. exact Hall. }
      rewrite E in E2. by injection E2.
  - split; [done|]. intros (_ & Hin & _). destruct (answers m ++ authorities m) as [|r rs]; [by apply elem_of_nil in Hin|done].
Qed.

(** ** The rebuilt response *)
Lemma fold_add_answers l f m :
  fold_left (fun m o => add_answer m (set_ttl (or_record o) (f (original_ttl o)))) l m
  = mkMessage (metadata m) (queries m) (answers m ++ map (fun o => set_ttl (or_record o) (f (original_ttl o))) l)
      (authorities m) (additionals m) (edns m).
Proof.
  revert m. induction l as [|o l IH]; intros m; cbn [fold_left map].
  - rewrite app_nil_r. by destruct m.
  - rewrite IH. cbn. by rewrite <- app_assoc.
Qed.

Lemma fold_add_authorities l f m :
  fold_left (fun m o => add_authority m (set_ttl (or_record o) (f (original_ttl o)))) l m
  = mkMessage (metadata m) (queries m) (answers m)
      (authorities m ++ map (fun o => set_ttl (or_record o) (f (original_ttl o))) l) (additionals m) (edns m).
Proof.
  revert m. induction l as [|o l IH]; intros m; cbn [fold_left map].
  - rewrite app_nil_r. by destruct m.
  - rewrite IH. cbn. by rewrite <- app_assoc.
Qed.

(** A response rebuilt from the stored records of [m], with the TTLs [f]. *)
Definition rebuilt (m : Message) (f : DnsRecord -> Z) : Message :=
  mkMessage (with_rcode (rcode m) (metadata (message_new 0 MResponse OpQuery))) []
    (map (fun r => set_ttl r (f r)) (answers m)) (map (fun r => set_ttl r (f r)) (authorities m)) [] None.

Lemma build_response_rebuilt m now e f :
  entry_of_message m now = Some e -> build_response e f = rebuilt m (fun r => f (r_ttl r)).
Proof.
  intros He. apply entry_of_message_Some in He as (He & _). rewrite He.
  unfold build_response, rebuilt. cbn [e_answers e_authorities e_response_code].
  rewrite fold_add_answers, fold_add_authorities. cbn. by rewrite !map_map.
Qed.

(** In its lifetime every record has time left, so a decremented TTL is
    exact. *)
Lemma fresh_ttl_exact m now e elapsed r :
  entry_of_message m now = Some e -> 0 <= elapsed < effective_ttl_secs e ->
  Forall (fun r => r_ttl r <= u32_max) (answers m ++ authorities m) ->
  r ∈ answers m ++ authorities m -> fresh_ttl elapsed (r_ttl r) = r_ttl r - elapsed.
Proof.
  intros He Hel Hu Hr. apply entry_of_message_Some in He as (_ & _ & Hall).
  rewrite Forall_forall in Hall, Hu. specialize (Hall r Hr). specialize (Hu r Hr). cbn in Hall, Hu.
  assert (lifetime r <= r_ttl r) by (unfold lifetime; destruct (r_data r); lia).
  unfold fresh_ttl. rewrite try_from_Some by lia. cbn. unfold saturating_sub. lia.
Qed.

(** What the cache answers with has no question of its own. *)
Lemma build_response_no_question e f : queries (build_response e f) = [].
Proof. unfold build_response. by rewrite fold_add_answers, fold_add_authorities. Qed.

Lemma get_has_no_question s k now m s' :
  get s k now = Some (Fresh m, s') \/ get s k now = Some (Stale m, s') -> queries m = [].
Proof.
  assert (H' : forall l s', get s k now = Some (l, s') -> match l with Fresh m | Stale m => queries m = [] | Miss => True end);
    [|by intros [E|E]; apply H' in E].
  intros l s1. unfold get. destruct (c_map s !! _) as [idx|]; [|by intros [= <- <-]]. intros E. apply bind_Some in E as (slot & _ & E).
  destruct slot as [node|next]; cycle 1; [by injection E as <- <-|]. destruct (_ <=? _); [apply bind_Some in E as (s2 & _ & E); by injection E as <- <-|].
  apply bind_Some in E as (s2 & _ & E). apply bind_Some in E as (slot2 & _ & E). destruct slot2 as [node2|next2]; injection E as <- <-; [|done].
  destruct (_ <? _); apply build_response_no_question.
Qed.

Lemma a_fit_head max x l : exists k, a_fit max (x :: l) = x :: k.
Proof. apply a_evict_nonempty. Qed.

(** The entry just inserted is first, under its key. *)
Lemma a_insert_head a k e bytes :
  exists x l, a_insert a k e bytes = x :: l /\ item_id x = key_id k /\ i_entry x = e.
Proof.
  unfold a_insert. destruct (a_lookup (a_items a) (key_id k)) as [old|] eqn:E.
  - destruct (a_fit_head (a_max_bytes a) (mkItem (i_key old) e bytes) (a_remove (a_items a) (key_id k))) as (l & ->).
    eexists _, l. split; [done|]. split; [|done]. apply List.find_some in E as (_ & E).
    by apply bool_decide_eq_true in E.
  - match goal with |- context [a_fit _ (_ :: ?l)] =>
      destruct (a_fit_head (a_max_bytes a) (mkItem k e bytes) l) as (l' & ->) end.
    by eexists _, l'.
Qed.
End Spec.

(** ** Properties *)
Section Properties.
Context `{HickoryOps}.

(** C5: the slot vector, the doubly-linked list, the free list and the map
    together are a least-recently-used list: from any accepted limits, any
    sequence of insertions and lookups runs without a panic and without an
    endless eviction, every lookup answers what the abstract list answers,
    and the final state stands for the abstract one. *)
Theorem cache_refines_lru capacity max_bytes stale ops :
  limits_ok capacity max_bytes ->
  exists s0 s, with_limits capacity max_bytes stale = Some s0
    /\ run_ops s0 ops = Some (fst (a_run (mkAbs [] capacity max_bytes stale) ops), s)
    /\ stands_for s (snd (a_run (mkAbs [] capacity max_bytes stale) ops)).
Proof.
  intros Hl. destruct (with_limits_stands_for capacity max_bytes stale Hl) as (s0 & E0 & Hs0).
  destruct (run_ops_stands_for ops s0 _ Hs0) as (s & E & Hs). by exists s0, s.
Qed.

(** Whatever was done to it, the cache never holds more entries than
    its capacity, its byte count is the sum over its entries and stays in
    the byte budget unless a single entry is left. *)
Theorem cache_stays_bounded capacity max_bytes stale ops s0 outs s :
  limits_ok capacity max_bytes ->
  with_limits capacity max_bytes stale = Some s0 -> run_ops s0 ops = Some (outs, s) ->
  cache_len s <= capacity
  /\ (c_bytes_total s <= max_bytes \/ cache_len s <= 1)
  /\ c_bytes_total s = items_bytes (a_items (snd (a_run (mkAbs [] capacity max_bytes stale) ops))).
Proof.
  intros Hl E0 E. destruct (with_limits_stands_for capacity max_bytes stale Hl) as (s0' & E0' & Hs0).
  rewrite E0 in E0'. injection E0' as <-. destruct (run_ops_stands_for ops s0 _ Hs0) as (s' & E' & Hs).
  rewrite E in E'. injection E' as _ <-. destruct (rep_counts _ _ Hs) as (-> & ->).
  destruct (a_run_limits ops (mkAbs [] capacity max_bytes stale)) as (Hc & Hm & _). cbn in Hc, Hm.
  destruct Hs as (Hb & _). pose proof (bd_count _ Hb) as H1. pose proof (bd_bytes _ Hb) as H2.
  rewrite Hc in H1. rewrite Hm in H2. done.
Qed.


(** What is never cached: a response code other than NOERROR and
    NXDOMAIN, and a message without any record (which has no lifetime);
    such an insertion leaves the cache as it is. *)
Theorem cache_ignores_uncacheable s k m now :
  rcode m <> NoError /\ rcode m <> NXDomain \/ answers m ++ authorities m = [] ->
  insert s k m now = Some s.
Proof.
  unfold insert. intros [(H1 & H2)|Hnil].
  - unfold cacheable. rewrite <- Z.eqb_neq in H1, H2. by rewrite H1, H2.
  - destruct (negb (cacheable (rcode m))); [done|]. unfold entry_of_message. by rewrite lifetimes_of_message, Hnil.
Qed.
End Properties.

(** ** Witnesses: names as text, one A record of 60 s *)
#[local] Existing Instance text_names.
#[local] Existing Instance text_ops.

Definition wit_key : @CacheKey text_names := @mkKey text_names (lit "Example.com.") 1 1.
Definition wit_key_lower : @CacheKey text_names := @mkKey text_names (lit "example.com.") 1 1.
Definition wit_msg : @Message text_names :=
  @add_answer text_names (@message_new text_names 7 MResponse OpQuery)
    (@record_from_rdata text_names (lit "example.com.") 60 (@RA text_names [192; 0; 2; 1])).
Definition wit_entry : @Entry text_names :=
  @mkEntry text_names [@mkOriginal text_names
    (@record_from_rdata text_names (lit "example.com.") 60 (@RA text_names [192; 0; 2; 1])) 60] [] 0 60 1000.

Lemma cache_refines_lru_witness :
  exists s0 s, @with_limits text_names 2 65536 30 = Some s0
    /\ @run_ops text_names text_ops s0 [OInsert wit_key wit_msg 1000; OGet wit_key_lower 2000]
       = Some (fst (a_run (mkAbs [] 2 65536 30) [OInsert wit_key wit_msg 1000; OGet wit_key_lower 2000]), s)
    /\ stands_for s (snd (a_run (mkAbs [] 2 65536 30) [OInsert wit_key wit_msg 1000; OGet wit_key_lower 2000])).
Proof. apply (@cache_refines_lru text_names text_ops 2 65536 30). zcompute. Defined.

Lemma cache_stays_bounded_witness :
  exists s0 outs s, @with_limits text_names 2 65536 30 = Some s0
    /\ @run_ops text_names text_ops s0 [OInsert wit_key wit_msg 1000] = Some (outs, s) /\ cache_len s <= 2
    /\ (c_bytes_total s <= 65536 \/ cache_len s <= 1)
    /\ c_bytes_total s = items_bytes (a_items (snd (a_run (mkAbs [] 2 65536 30) [OInsert wit_key wit_msg 1000]))).
Proof.
  assert (Hl : limits_ok 2 65536) by zcompute.
  destruct (@with_limits_stands_for text_names 2 65536 30 Hl) as (s0 & H0 & Hs0).
  destruct (run_ops_stands_for [OInsert wit_key wit_msg 1000] s0 _ Hs0) as (s & H1 & _).
  exists s0, (fst (a_run (mkAbs [] 2 65536 30) [OInsert wit_key wit_msg 1000])), s.
  split; [exact H0|]. split; [exact H1|].
  exact (@cache_stays_bounded text_names text_ops 2 65536 30 [OInsert wit_key wit_msg 1000] s0 _ s Hl H0 H1).
Defined.


Lemma cache_ignores_uncacheable_witness :
  exists s, @with_limits text_names 2 65536 30 = Some s
    /\ @insert text_names text_ops s wit_key (@message_new text_names 7 MResponse OpQuery) 1000 = Some s.
Proof.
  eexists. split; [vm_compute; reflexivity|].
  apply (@cache_ignores_uncacheable text_names text_ops). right. reflexivity.
Defined.

(** An NXDOMAIN without SOA, behind an alias, is cached and served for the
    lifetime of the alias; one without any record is not. *)
Definition wit_alias_nx : @Message text_names :=
  @set_rcode text_names (@add_answer text_names (@message_new text_names 7 MResponse OpQuery)
    (@record_from_rdata text_names (lit "example.com.") 60 (@RCNAME text_names (lit "gone.example.")))) NXDomain.

Example negative_without_soa_served :
  let served (m : @Message text_names) :=
    s ← @with_limits text_names 2 65536 30;
    s ← @insert text_names text_ops s wit_key m 1000;
    fst <$> @get text_names s wit_key_lower (1000 + from_secs 20) in
  authorities wit_alias_nx = [] /\ served wit_alias_nx = Some (Fresh (rebuilt wit_alias_nx (fun r => r_ttl r - 20)))
  /\ served (@set_rcode text_names (@message_new text_names 7 MResponse OpQuery) NXDomain) = Some Miss.
Proof. vm_compute. split_and!; reflexivity. Qed.
