(* ===== verification/FailCache.v ===== *)
(** * FailCache: resolution-failure hold-downs ([crates/core/src/failcache.rs])

    The map of failures per cache key, [held], [record], [clear]. The order
    in which a [HashMap] is iterated is a parameter ([HashIter]): it only
    picks one of several oldest holds. Then the theorems: holds run 5, 10,
    20, 40, 60 seconds, hold exactly as long as announced, are forgotten
    after a quiet minute or a success, and the map is bounded. *)
From S2P Require Import Prelude Text Time Dns Cache.

Definition FIRST_HOLD : Duration := from_secs 5.
Definition MAX_HOLD : Duration := from_mins 1.
Definition MAX_KEYS : Z := 4096.

(** Iteration over a [HashMap]: every entry once, in some order. *)
Class HashIter := {
  hash_iter : forall {K V} `{Countable K}, gmap K V -> list (K * V);
  hash_iter_perm : forall {K V} `{Countable K} (m : gmap K V), hash_iter m ≡ₚ map_to_list m
}.

Definition map_order : HashIter := {|
  hash_iter := fun _ _ _ _ m => map_to_list m;
  hash_iter_perm := fun _ _ _ _ m => Permutation_refl _
|}.

(** [Iterator::min_by_key]: the first of the smallest. *)
Fixpoint min_by_key {A} (f : A -> Z) (l : list A) : option A :=
  match l with
  | [] => None
  | x :: l => match min_by_key f l with
              | None => Some x
              | Some y => if f y <? f x then Some y else Some x
              end
  end.

Section FailCache.
Context `{Hickory} `{HashIter}.

Notation kid := (list Z * Z * Z)%type.

Record Failure := mkFailure { f_until : Instant; f_hold : Duration }.
Notation FailureCache := (gmap kid Failure).
Definition fc_new : FailureCache := ∅.

Definition held (fc : FailureCache) (key : CacheKey) (now : Instant) : option Duration :=
  f ← fc !! key_id key;
  left ← checked_duration_since (f_until f) now;
  if left =? 0 then None else Some left.

Definition next_hold (fc : FailureCache) (key : CacheKey) (now : Instant) : Duration :=
  match fc !! key_id key with
  | Some prev => if now <? f_until prev + MAX_HOLD then Z.min (f_hold prev * 2) MAX_HOLD else FIRST_HOLD
  | None => FIRST_HOLD
  end.

Definition fc_len (fc : FailureCache) : Z := Z.of_nat (size fc).
Definition fc_is_empty (fc : FailureCache) : bool := fc_len fc =? 0.

(** [inner.retain(|_, f| now < f.until + MAX_HOLD)] *)
Definition prune (fc : FailureCache) (now : Instant) : FailureCache :=
  filter (fun x => now < f_until (snd x) + MAX_HOLD) fc.

(** Make room for a new key. *)
Definition make_room (fc : FailureCache) (key : CacheKey) (now : Instant) : FailureCache :=
  if (MAX_KEYS <=? fc_len fc) && negb (bool_decide (is_Some (fc !! key_id key))) then
    let fc := prune fc now in
    if MAX_KEYS <=? fc_len fc then
      match min_by_key (fun x => f_until (snd x)) (hash_iter fc) with
      | Some (oldest, _) => delete oldest fc
      | None => fc
      end
    else fc
  else fc.

Definition record (fc : FailureCache) (key : CacheKey) (now : Instant) : Duration * FailureCache :=
  let hold := next_hold fc key now in
  let fc := make_room fc key now in
  (hold, <[key_id key := mkFailure (now + hold) hold]> fc).

Definition clear (fc : FailureCache) (key : CacheKey) : FailureCache := delete (key_id key) fc.

(** ** Reachable failure caches *)
Inductive FailOp := FRecord (k : CacheKey) (now : Instant) | FClear (k : CacheKey).

Definition fail_step (fc : FailureCache) (o : FailOp) : FailureCache :=
  match o with FRecord k now => snd (record fc k now) | FClear k => clear fc k end.

(** Every hold is in range and the map is bounded. *)
Definition fc_ok (fc : FailureCache) : Prop :=
  fc_len fc <= MAX_KEYS /\ forall k f, fc !! k = Some f -> FIRST_HOLD <= f_hold f <= MAX_HOLD.

(** The [n]-th hold of a streak of consecutive failures. *)
Definition streak_hold (n : nat) : Duration := Z.min (FIRST_HOLD * 2 ^ Z.of_nat n) MAX_HOLD.

(** A client that retries within a minute after each hold. *)
Fixpoint streak (fc : FailureCache) (key : CacheKey) (times : list Instant) : list Duration :=
  match times with
  | [] => []
  | t :: times => let '(hold, fc) := record fc key t in hold :: streak fc key times
  end.

(** [times] are attempts each less than a minute after the previous hold. *)
Fixpoint consecutive (n : nat) (prev : Instant) (times : list Instant) : Prop :=
  match times with
  | [] => True
  | t :: times => t < prev + streak_hold n + MAX_HOLD /\ consecutive (S n) t times
  end.

(** ** Lemmas *)
Lemma min_by_key_Some {A} (f : A -> Z) l x : min_by_key f l = Some x -> x ∈ l /\ Forall (fun y => f x <= f y) l.
Proof.
  revert x. induction l as [|y l IH]; intros x; cbn [min_by_key]; [done|].
  destruct (min_by_key f l) as [z|] eqn:E.
  - destruct (IH z eq_refl) as (Hin & Hall). destruct (Z.ltb_spec (f z) (f y)); intros [= <-].
    + split; [by right|]. constructor; [lia|done].
    + split; [by left|]. constructor; [lia|]. eapply Forall_impl; [exact Hall|]. cbn. lia.
  - intros [= <-]. destruct l; [|cbn in E; by repeat case_match]. split; [by left|]. by repeat constructor.
Qed.

Lemma min_by_key_None {A} (f : A -> Z) l : min_by_key f l = None -> l = [].
Proof. destruct l as [|x l]; [done|]. cbn. by repeat case_match. Qed.

Lemma prune_subset fc now : prune fc now ⊆ fc.
Proof. apply map_filter_subseteq. Qed.

Lemma make_room_subset fc key now : make_room fc key now ⊆ fc.
Proof.
  unfold make_room. repeat case_match; try done; try apply prune_subset.
  etrans; [apply delete_subseteq|apply prune_subset].
Qed.

Lemma fc_len_subset fc fc' : fc ⊆ fc' -> fc_len fc <= fc_len fc'.
Proof. intros Hs. apply map_subseteq_size in Hs. unfold fc_len. lia. Qed.

Lemma record_len fc key now : fc_len fc <= MAX_KEYS -> fc_len (snd (record fc key now)) <= MAX_KEYS.
Proof.
  intros Hl. cbn. unfold fc_len at 1. rewrite map_size_insert.
  pose proof (fc_len_subset _ _ (make_room_subset fc key now)) as Hsub. unfold fc_len in Hsub.
  destruct (make_room fc key now !! key_id key) as [f|] eqn:E; cbn; [unfold fc_len in Hl; lia|].
  unfold make_room in *. destruct (_ && _) eqn:Ec.
  - destruct (Z.leb_spec MAX_KEYS (fc_len (prune fc now))) as [Hge|Hlt].
    + destruct (min_by_key _ _) as [[oldest v]|] eqn:Em.
      * apply min_by_key_Some in Em as (Hin & _). rewrite hash_iter_perm in Hin.
        apply elem_of_map_to_list in Hin.
        rewrite map_size_delete, Hin in *. pose proof (fc_len_subset _ _ (prune_subset fc now)).
        unfold fc_len in *. cbn in *. unfold MAX_KEYS in *. lia.
      * apply min_by_key_None in Em. pose proof (hash_iter_perm (prune fc now)) as Hp. rewrite Em in Hp.
        apply Permutation_nil in Hp. apply map_to_list_empty_iff in Hp. rewrite Hp in Hge. unfold fc_len in Hge.
        rewrite map_size_empty in Hge. unfold MAX_KEYS in Hge. lia.
    + unfold fc_len in *. lia.
  - apply andb_false_iff in Ec as [Ec|Ec].
    + apply Z.leb_gt in Ec. unfold fc_len in *. lia.
    + apply negb_false_iff, bool_decide_eq_true in Ec. rewrite E in Ec. by destruct Ec.
Qed.

Lemma hold_consts : FIRST_HOLD = 5 * ns_per_sec /\ MAX_HOLD = 60 * ns_per_sec /\ 0 < ns_per_sec.
Proof. done. Qed.

Lemma next_hold_range fc key now :
  (forall k f, fc !! k = Some f -> FIRST_HOLD <= f_hold f <= MAX_HOLD) ->
  FIRST_HOLD <= next_hold fc key now <= MAX_HOLD.
Proof.
  intros Hf. destruct hold_consts as (E1 & E2 & E3). unfold next_hold.
  destruct (fc !! key_id key) as [f|] eqn:E; [|lia]. specialize (Hf _ _ E). destruct (_ <? _); lia.
Qed.

Lemma fail_step_ok fc o : fc_ok fc -> fc_ok (fail_step fc o).
Proof.
  intros (Hl & Hh). destruct o as [k now|k]; cbn [fail_step].
  - split; [by apply record_len|]. intros k' f. cbn. destruct (decide (key_id k = k')) as [<-|Hne].
    + rewrite lookup_insert_eq. intros [= <-]. by apply next_hold_range.
    + rewrite lookup_insert_ne by done. intros Hk. eapply (Hh k'), lookup_weaken; [exact Hk|apply make_room_subset].
  - split.
    + pose proof (fc_len_subset _ _ (delete_subseteq fc (key_id k))). unfold clear. lia.
    + intros k' f Hk. eapply (Hh k'), lookup_weaken; [exact Hk|apply delete_subseteq].
Qed.

Lemma record_lookup fc key now :
  snd (record fc key now) !! key_id key
  = Some (mkFailure (now + fst (record fc key now)) (fst (record fc key now))).
Proof. cbn. by rewrite lookup_insert_eq. Qed.

Lemma streak_hold_step n : Z.min (streak_hold n * 2) MAX_HOLD = streak_hold (S n).
Proof.
  unfold streak_hold. rewrite Nat2Z.inj_succ, Z.pow_succ_r by lia. destruct hold_consts as (E1 & E2 & E3).
  assert (0 < 2 ^ Z.of_nat n) by (apply Z.pow_pos_nonneg; lia). nia.
Qed.

Lemma streak_from fc key prev n times :
  fc !! key_id key = Some (mkFailure (prev + streak_hold n) (streak_hold n)) ->
  consecutive n prev times ->
  streak fc key times = map streak_hold (seq (S n) (length times)).
Proof.
  revert fc prev n. induction times as [|t times IH]; intros fc prev n Hf Hc; [done|].
  cbn [consecutive] in Hc. destruct Hc as (Ht & Hc). cbn [streak length seq map].
  assert (Hh : next_hold fc key t = streak_hold (S n)).
  { unfold next_hold. rewrite Hf. cbn [f_until f_hold]. zguard. apply streak_hold_step. }
  pose proof (record_lookup fc key t) as Hl. cbn [record fst snd] in Hl |- *. rewrite Hh in Hl |- *.
  f_equal. by apply (IH _ t).
Qed.
End FailCache.

(** ** Properties *)
Section Properties.
Context `{Hickory} `{HashIter}.

(** From a new cache, after any sequence of failures and successes,
    every hold-down is between 5 s and 60 s and at most 4096 keys are
    tracked. *)
Theorem failcache_bounded ops :
  fc_len (fold_left fail_step ops fc_new) <= MAX_KEYS
  /\ forall k f, fold_left fail_step ops fc_new !! k = Some f -> FIRST_HOLD <= f_hold f <= MAX_HOLD.
Proof.
  assert (Hgen : forall fc, fc_ok fc -> fc_ok (fold_left fail_step ops fc)).
  { induction ops as [|o ops IH]; intros fc Hok; [done|]. cbn. by apply IH, fail_step_ok. }
  apply Hgen. split; [done|]. intros k f Hk. unfold fc_new in Hk. by rewrite lookup_empty in Hk.
Qed.

(** Consecutive failures (each within a minute after the previous hold
    ends) are held 5, 10, 20, 40, then 60 s; the first failure of a key, or
    one after a quiet minute, is held 5 s. *)
Theorem failcache_backoff fc key t0 times :
  (forall f, fc !! key_id key = Some f -> f_until f + MAX_HOLD <= t0) ->
  consecutive 0 t0 times ->
  streak fc key (t0 :: times) = map streak_hold (seq 0 (S (length times))).
Proof.
  intros Hq Hc. cbn [streak seq map].
  assert (Hh : next_hold fc key t0 = streak_hold 0).
  { unfold next_hold. destruct (fc !! key_id key) as [f|] eqn:E; [|done]. specialize (Hq f eq_refl). by zguard. }
  pose proof (record_lookup fc key t0) as Hl. cbn [record fst snd] in Hl |- *. rewrite Hh in Hl |- *.
  f_equal. by apply (streak_from _ _ t0).
Qed.

(** A recorded failure is held for exactly the announced time, counted
    from the failure, under every key equal to it, and is forgotten at once
    by [clear]; other keys that are still held stay held unless the map is
    full. *)
Theorem failcache_holds_exactly fc key key' now t :
  key_id key' = key_id key -> now <= t ->
  held (snd (record fc key now)) key' t
    = (if t <? now + fst (record fc key now) then Some (now + fst (record fc key now) - t) else None)
  /\ held (clear (snd (record fc key now)) key) key' t = None
  /\ (forall other u, key_id other <> key_id key -> fc_len fc < MAX_KEYS ->
        held (snd (record fc key now)) other u = held fc other u).
Proof.
  intros Hk Ht. split; [|split].
  - unfold held. rewrite Hk, record_lookup. cbn [mbind option_bind f_until].
    unfold checked_duration_since. set (u := now + fst (record fc key now)).
    destruct (Z.leb_spec t u), (Z.ltb_spec t u); cbn [mbind option_bind]; try lia; try done.
    + by zguard.
    + assert (u = t) as -> by lia. by rewrite Z.sub_diag.
  - unfold held, clear. rewrite Hk, lookup_delete_eq. done.
  - intros other u Hne Hlt. unfold held. cbn [record snd]. rewrite lookup_insert_ne by done.
    unfold make_room. replace (MAX_KEYS <=? fc_len fc) with false by (symmetry; apply Z.leb_gt; lia). done.
Qed.
End Properties.

(** ** Witnesses *)
#[local] Existing Instance text_names.
#[local] Existing Instance map_order.

Definition wit_broken : @CacheKey text_names := @mkKey text_names (lit "broken.example.") 1 1.

Lemma failcache_backoff_witness :
  streak fc_new wit_broken [0; from_secs 5; from_secs 15; from_secs 35; from_secs 75; from_secs 135]
  = map from_secs [5; 10; 20; 40; 60; 60].
Proof.
  refine (failcache_backoff fc_new wit_broken 0
    [from_secs 5; from_secs 15; from_secs 35; from_secs 75; from_secs 135] _ _).
  - intros f Hf. discriminate Hf.
  - vm_compute. repeat split; reflexivity.
Defined.

Lemma failcache_holds_exactly_witness :
  held (snd (record fc_new wit_broken 0)) (@mkKey text_names (lit "Broken.example.") 1 1) (from_secs 3)
  = Some (from_secs 2).
Proof.
  refine (proj1 (failcache_holds_exactly fc_new wit_broken (@mkKey text_names (lit "Broken.example.") 1 1) 0 (from_secs 3) _ _)).
  - reflexivity.
  - vm_compute. intros HF; discriminate HF.
Defined.
