(* ===== verification/SafeSearch.v ===== *)
(** * SafeSearch: CNAME rewrites for search engines ([crates/core/src/safesearch.rs])

    The host tables, provider validation, the enabled bit set and [rewrite]
    with the standard library's binary search. Then the theorems: the tables
    are strictly sorted, so the binary search is membership, and [rewrite]
    sends exactly the hosts of the enabled providers to their endpoints. *)
From S2P Require Import Prelude Text FilterTypes Parse Engine KeyIndexSpec.

Definition SUPPORTED_PROVIDERS : list (list Z) :=
  map lit ["google"; "youtube"; "bing"; "duckduckgo"]%string.

Definition GOOGLE_TLDS : list (list Z) := map lit [
  "ad"; "ae"; "al"; "am"; "as"; "at"; "az"; "ba"; "be"; "bf"; "bg"; "bi"; "bj"; "bs"; "bt";
  "by"; "ca"; "cat"; "cd"; "cf"; "cg"; "ch"; "ci"; "cl"; "cm"; "cn"; "co"; "co.ao"; "co.bw";
  "co.ck"; "co.cr"; "co.id"; "co.il"; "co.in"; "co.jp"; "co.ke"; "co.kr"; "co.ls"; "co.ma";
  "co.mz"; "co.nz"; "co.th"; "co.tz"; "co.ug"; "co.uk"; "co.uz"; "co.ve"; "co.vi"; "co.za";
  "co.zm"; "co.zw"; "com"; "com.af"; "com.ag"; "com.ai"; "com.ar"; "com.au"; "com.bd";
  "com.bh"; "com.bn"; "com.bo"; "com.br"; "com.bz"; "com.co"; "com.cu"; "com.cy"; "com.do";
  "com.ec"; "com.eg"; "com.et"; "com.fj"; "com.gh"; "com.gi"; "com.gt"; "com.hk"; "com.jm";
  "com.kh"; "com.kw"; "com.lb"; "com.ly"; "com.mm"; "com.mt"; "com.mx"; "com.my"; "com.na";
  "com.nf"; "com.ng"; "com.ni"; "com.np"; "com.om"; "com.pa"; "com.pe"; "com.pg"; "com.ph";
  "com.pk"; "com.pr"; "com.py"; "com.qa"; "com.sa"; "com.sb"; "com.sg"; "com.sl"; "com.sv";
  "com.tj"; "com.tr"; "com.tw"; "com.ua"; "com.uy"; "com.vc"; "com.vn"; "cv"; "cz"; "de"; "dj";
  "dk"; "dm"; "dz"; "ee"; "es"; "fi"; "fm"; "fr"; "ga"; "ge"; "gg"; "gl"; "gm"; "gp"; "gr";
  "gy"; "hn"; "hr"; "ht"; "hu"; "ie"; "im"; "iq"; "is"; "it"; "je"; "jo"; "kg"; "ki"; "kz";
  "la"; "li"; "lk"; "lt"; "lu"; "lv"; "md"; "me"; "mg"; "mk"; "ml"; "mn"; "ms"; "mu"; "mv";
  "mw"; "ne"; "nl"; "no"; "nr"; "nu"; "pl"; "pn"; "ps"; "pt"; "ro"; "rs"; "ru"; "rw"; "sc";
  "se"; "sh"; "si"; "sk"; "sm"; "sn"; "so"; "sr"; "st"; "td"; "tg"; "tk"; "tl"; "tm"; "tn";
  "to"; "tt"; "vg"; "vu"; "ws"
]%string.

Definition YOUTUBE_HOSTS : list (list Z) := map lit [
  "m.youtube.com"; "www.youtube-nocookie.com"; "www.youtube.com"; "youtube.googleapis.com";
  "youtubei.googleapis.com"]%string.
Definition BING_HOSTS : list (list Z) := map lit ["edgeservices.bing.com"; "www.bing.com"]%string.
Definition DUCKDUCKGO_HOSTS : list (list Z) := map lit [
  "duckduckgo.com"; "start.duckduckgo.com"; "www.duckduckgo.com"]%string.

Definition GOOGLE : Z := 1.
Definition YOUTUBE : Z := Z.shiftl 1 1.
Definition BING : Z := Z.shiftl 1 2.
Definition DUCKDUCKGO : Z := Z.shiftl 1 3.
Definition ALL : Z := Z.lor (Z.lor (Z.lor GOOGLE YOUTUBE) BING) DUCKDUCKGO.

Inductive SafeSearchError := UnknownProvider (p : list Z).

(** [validate_providers]: the first unknown name is the error. *)
Fixpoint validate_providers (providers : list (list Z)) : option SafeSearchError :=
  match providers with
  | [] => None
  | p :: rest =>
      if existsb (str_eqb p) SUPPORTED_PROVIDERS then validate_providers rest
      else Some (UnknownProvider p)
  end.

Record SafeSearch := mkSafeSearch { ss_enabled : Z }.

Definition provider_bit (p : list Z) : Z :=
  if str_eqb p (lit "google") then GOOGLE
  else if str_eqb p (lit "youtube") then YOUTUBE
  else if str_eqb p (lit "bing") then BING
  else DUCKDUCKGO.

Definition ss_new (enabled : bool) (providers : list (list Z)) : SafeSearch + SafeSearchError :=
  match validate_providers providers with
  | Some e => inr e
  | None =>
      if negb enabled then inl (mkSafeSearch 0)
      else match providers with
           | [] => inl (mkSafeSearch ALL)
           | _ => inl (mkSafeSearch (fold_left (fun bits p => Z.lor bits (provider_bit p)) providers 0))
           end
  end.

(** [slice::binary_search(..).is_ok()] of the standard library: halve the
    size until one element is left, then compare it. *)
Fixpoint bsearch_loop (fuel : nat) (tbl : list (list Z)) (x : list Z) (base size : nat) : nat :=
  match fuel with
  | O => base
  | S fuel =>
      if (1 <? size)%nat then
        let half := (size / 2)%nat in
        let mid := (base + half)%nat in
        let greater := match tbl !! mid with Some y => bytes_ltb x y | None => true end in
        bsearch_loop fuel tbl x (if greater then base else mid) (size - half)
      else base
  end.

Definition binary_search (tbl : list (list Z)) (x : list Z) : bool :=
  match tbl with
  | [] => false
  | _ => match tbl !! bsearch_loop (length tbl) tbl x 0%nat (length tbl) with
         | Some y => str_eqb y x
         | None => false
         end
  end.

Definition on (ss : SafeSearch) (bit : Z) : bool := negb (Z.land (ss_enabled ss) bit =? 0).

Definition rewrite (ss : SafeSearch) (qname : list Z) : option (list Z) :=
  if on ss YOUTUBE && binary_search YOUTUBE_HOSTS qname then Some (lit "restrictmoderate.youtube.com")
  else if on ss BING && binary_search BING_HOSTS qname then Some (lit "strict.bing.com")
  else if on ss DUCKDUCKGO && binary_search DUCKDUCKGO_HOSTS qname then Some (lit "safe.duckduckgo.com")
  else if on ss GOOGLE && match strip_prefix (lit "www.google.") qname with
                          | Some tld => binary_search GOOGLE_TLDS tld
                          | None => false
                          end
  then Some (lit "forcesafesearch.google.com")
  else None.

(** ** Specification *)
Inductive Provider := PGoogle | PYoutube | PBing | PDuckduckgo.

Definition provider_name (p : Provider) : list Z :=
  match p with
  | PGoogle => lit "google" | PYoutube => lit "youtube" | PBing => lit "bing" | PDuckduckgo => lit "duckduckgo"
  end.

Definition endpoint (p : Provider) : list Z :=
  match p with
  | PGoogle => lit "forcesafesearch.google.com"
  | PYoutube => lit "restrictmoderate.youtube.com"
  | PBing => lit "strict.bing.com"
  | PDuckduckgo => lit "safe.duckduckgo.com"
  end.

(** The search hosts of a provider. *)
Definition search_host (p : Provider) (q : list Z) : Prop :=
  match p with
  | PGoogle => exists tld, q = lit "www.google." ++ tld /\ tld ∈ GOOGLE_TLDS
  | PYoutube => q ∈ YOUTUBE_HOSTS
  | PBing => q ∈ BING_HOSTS
  | PDuckduckgo => q ∈ DUCKDUCKGO_HOSTS
  end.

(** Enforced by the configuration: the switch is on and the provider is
    named, or no provider is. *)
Definition enforced (enabled : bool) (providers : list (list Z)) (p : Provider) : Prop :=
  enabled = true /\ (providers = [] \/ provider_name p ∈ providers).

Definition strictly_sorted (tbl : list (list Z)) : bool :=
  forallb (fun xy => bytes_ltb (fst xy) (snd xy)) (zip tbl (drop 1 tbl)).

(** ** Binary search is membership in a strictly sorted table *)
Lemma strictly_sorted_lookup tbl i j x y :
  strictly_sorted tbl = true -> (i < j)%nat -> tbl !! i = Some x -> tbl !! j = Some y -> bytes_ltb x y = true.
Proof.
  intros Hs. unfold strictly_sorted in Hs. rewrite forallb_Forall_iff, Forall_forall in Hs.
  assert (Hstep : forall k a b, tbl !! k = Some a -> tbl !! S k = Some b -> bytes_ltb a b = true).
  { intros k a b Ha Hb. apply (Hs (a, b)). apply (list_elem_of_lookup_2 _ k). apply lookup_zip_with_Some.
    exists a, b. split; [done|]. split; [done|]. by rewrite lookup_drop. }
  intros Hij. revert y. induction Hij as [|j Hij IH]; intros y Hi Hj; [by eapply Hstep|].
  assert (Hlt : (j < length tbl)%nat) by (apply lookup_lt_Some in Hj; lia).
  apply lookup_lt_is_Some in Hlt as (z & Hz). eapply bytes_ltb_trans; [by apply IH|by eapply Hstep].
Qed.

Lemma bsearch_loop_spec fuel tbl x base size :
  strictly_sorted tbl = true -> (1 <= size)%nat -> (base + size <= length tbl)%nat -> (size <= fuel)%nat ->
  let r := bsearch_loop fuel tbl x base size in
  (base <= r < base + size)%nat
  /\ (forall k, tbl !! k = Some x -> (base <= k < base + size)%nat -> k = r).
Proof.
  intros Hs. revert base size. induction fuel as [|fuel IH]; intros base size H1 Hb Hf; [lia|].
  cbn [bsearch_loop]. destruct (Nat.ltb_spec 1 size) as [Hlt|Hge].
  2:{ split; [lia|]. intros k Hk Hr. lia. }
  cbn zeta. set (half := (size / 2)%nat).
  assert (Hh : (1 <= half < size)%nat).
  { subst half. split; [apply Nat.div_le_lower_bound; lia|apply Nat.div_lt; lia]. }
  assert (Hm : (base + half < length tbl)%nat) by lia.
  apply lookup_lt_is_Some in Hm as (y & Hy). rewrite Hy.
  destruct (bytes_ltb x y) eqn:E.
  - destruct (IH base (size - half)%nat) as (Hr & Hk); [lia|lia|lia|].
    assert (Hd : (half <= size - half)%nat).
    { subst half. pose proof (Nat.div_mod_eq size 2). pose proof (Nat.mod_upper_bound size 2). lia. }
    split; [lia|]. intros k Hkx Hkr. apply Hk; [done|]. split; [lia|].
    destruct (decide (k < base + half)%nat) as [|Hge]; [lia|exfalso].
    destruct (decide (k = base + half)%nat) as [->|Hne].
    + rewrite Hy in Hkx. injection Hkx as ->. by rewrite bytes_ltb_irrefl in E.
    + assert (Hyx : bytes_ltb y x = true) by (eapply (strictly_sorted_lookup tbl (base + half) k); [done|lia|done|done]).
      pose proof (bytes_ltb_trans _ _ _ E Hyx) as Hxx. by rewrite bytes_ltb_irrefl in Hxx.
  - destruct (IH (base + half)%nat (size - half)%nat) as (Hr & Hk); [lia|lia|lia|]. split; [lia|].
    intros k Hkx Hkr. apply Hk; [done|]. split; [|lia].
    destruct (decide (base + half <= k)%nat) as [|Hlt']; [lia|exfalso].
    assert (Hxy : bytes_ltb x y = true) by (eapply (strictly_sorted_lookup tbl k (base + half)); [done|lia|done|done]).
    congruence.
Qed.

Lemma binary_search_elem tbl x : strictly_sorted tbl = true -> binary_search tbl x = true <-> x ∈ tbl.
Proof.
  intros Hs. unfold binary_search. destruct tbl as [|a tl] eqn:Et; [split; [done|intros Hx; by apply elem_of_nil in Hx]|].
  rewrite <- Et in *. assert (Hl : (1 <= length tbl)%nat) by (rewrite Et; cbn; lia).
  destruct (bsearch_loop_spec (length tbl) tbl x 0 (length tbl) Hs) as (Hr & Hk); [lia..|]. cbn zeta in *.
  set (r := bsearch_loop _ _ _ _ _) in *. assert (Hlt : (r < length tbl)%nat) by lia.
  apply lookup_lt_is_Some in Hlt as (y & Hy). rewrite Hy. split.
  - intros E. apply str_eqb_eq in E as ->. by eapply list_elem_of_lookup_2.
  - intros Hx. apply list_elem_of_lookup in Hx as (k & Hkx). rewrite (Hk k Hkx) in Hkx
      by (apply lookup_lt_Some in Hkx; lia). rewrite Hy in Hkx. injection Hkx as ->. by apply str_eqb_eq.
Qed.

(** ** The enabled bits *)
Lemma on_testbit ss n : 0 <= n -> on ss (Z.shiftl 1 n) = Z.testbit (ss_enabled ss) n.
Proof.
  intros Hn. unfold on. rewrite Z.shiftl_1_l. destruct (Z.testbit (ss_enabled ss) n) eqn:E.
  - apply negb_true_iff, Z.eqb_neq. intros Hz. apply (f_equal (fun z => Z.testbit z n)) in Hz.
    rewrite Z.land_spec, E, Z.pow2_bits_true, Z.bits_0 in Hz by done. done.
  - apply negb_false_iff, Z.eqb_eq. apply Z.bits_inj'. intros k Hk. rewrite Z.land_spec, Z.bits_0.
    destruct (decide (k = n)) as [->|Hne]; [by rewrite E|]. rewrite Z.pow2_bits_false by lia. apply andb_false_r.
Qed.

Lemma fold_lor_testbit ps b n :
  Z.testbit (fold_left (fun bits p => Z.lor bits (provider_bit p)) ps b) n
  = Z.testbit b n || existsb (fun p => Z.testbit (provider_bit p) n) ps.
Proof.
  revert b. induction ps as [|p ps IH]; intros b; cbn [fold_left existsb]; [by rewrite orb_false_r|].
  rewrite IH, Z.lor_spec. by rewrite orb_assoc.
Qed.

Definition provider_index (p : Provider) : Z :=
  match p with PGoogle => 0 | PYoutube => 1 | PBing => 2 | PDuckduckgo => 3 end.

Lemma validate_providers_None ps :
  validate_providers ps = None <-> Forall (fun p => exists q, p = provider_name q) ps.
Proof.
  induction ps as [|p ps IH]; cbn [validate_providers]; [by split|].
  destruct (existsb (str_eqb p) SUPPORTED_PROVIDERS) eqn:E.
  - rewrite IH, Forall_cons. split; [|tauto]. intros Hps. split; [|done].
    apply existsb_exists_iff in E as (q & Hq & E). apply str_eqb_eq in E as <-.
    apply list_elem_of_fmap in Hq as (n & -> & Hq).
    repeat (apply elem_of_cons in Hq as [->|Hq]; [first [by exists PGoogle|by exists PYoutube|by exists PBing|by exists PDuckduckgo]|]).
    by apply elem_of_nil in Hq.
  - split; [done|]. intros Hps. apply Forall_cons in Hps as [(q & ->) _]. by destruct q.
Qed.

#[export] Instance Provider_eq_dec : EqDecision Provider.
Proof. solve_decision. Defined.

Lemma provider_bit_testbit p q :
  Z.testbit (provider_bit (provider_name q)) (provider_index p) = bool_decide (p = q).
Proof. destruct p, q; reflexivity. Qed.

Lemma provider_name_inj p q : provider_name p = provider_name q -> p = q.
Proof. destruct p, q; intros E; first [done | vm_compute in E; discriminate E]. Qed.

(** The bit of a provider is set exactly when it is enforced. *)
Lemma enabled_bits enabled ps ss p :
  ss_new enabled ps = inl ss -> Z.testbit (ss_enabled ss) (provider_index p) = true <-> enforced enabled ps p.
Proof.
  unfold ss_new, enforced. destruct (validate_providers ps) as [e|] eqn:Ev; [done|].
  apply validate_providers_None in Ev. destruct enabled; cbn [negb].
  2:{ intros [= <-]. cbn [ss_enabled]. rewrite Z.bits_0. split; [done|by intros [? _]]. }
  destruct ps as [|p0 ps0] eqn:Eps.
  { intros [= <-]. split; [intros _; split; [done|by left]|by destruct p]. }
  rewrite <- Eps in *. intros [= <-]. cbn [ss_enabled]. rewrite fold_lor_testbit, Z.bits_0. cbn [orb].
  rewrite existsb_exists_iff. split.
  - intros (x & Hx & Hb). split; [done|]. right. rewrite Forall_forall in Ev. destruct (Ev x Hx) as (q & ->).
    rewrite provider_bit_testbit in Hb. apply bool_decide_eq_true in Hb as ->. done.
  - intros (_ & [E|Hin]); [by rewrite Eps in E|]. exists (provider_name p). split; [done|].
    rewrite provider_bit_testbit. by apply bool_decide_eq_true.
Qed.

(** ** The tables *)
Lemma tables_sorted :
  strictly_sorted GOOGLE_TLDS = true /\ strictly_sorted YOUTUBE_HOSTS = true
  /\ strictly_sorted BING_HOSTS = true /\ strictly_sorted DUCKDUCKGO_HOSTS = true.
Proof. repeat split; vm_compute; reflexivity. Qed.

Definition google_host (q : list Z) : bool :=
  match strip_prefix (lit "www.google.") q with Some tld => binary_search GOOGLE_TLDS tld | None => false end.

Lemma google_host_spec q : google_host q = true <-> search_host PGoogle q.
Proof.
  unfold google_host. cbn [search_host]. destruct tables_sorted as (Hs & _). split.
  - destruct (strip_prefix _ q) as [tld|] eqn:E; [|done]. intros Hb. apply strip_prefix_Some in E.
    exists tld. split; [done|]. by apply binary_search_elem.
  - intros (tld & -> & Hin). rewrite strip_prefix_app. by apply binary_search_elem.
Qed.

Lemma host_tests q :
  (binary_search YOUTUBE_HOSTS q = true <-> search_host PYoutube q)
  /\ (binary_search BING_HOSTS q = true <-> search_host PBing q)
  /\ (binary_search DUCKDUCKGO_HOSTS q = true <-> search_host PDuckduckgo q).
Proof.
  destruct tables_sorted as (_ & H1 & H2 & H3). split; [|split]; by apply binary_search_elem.
Qed.

(** No host belongs to two providers. *)
Lemma hosts_disjoint_tables :
  forallb (fun h => negb (google_host h) && negb (binary_search BING_HOSTS h) && negb (binary_search DUCKDUCKGO_HOSTS h))
    YOUTUBE_HOSTS = true
  /\ forallb (fun h => negb (google_host h) && negb (binary_search DUCKDUCKGO_HOSTS h)) BING_HOSTS = true
  /\ forallb (fun h => negb (google_host h)) DUCKDUCKGO_HOSTS = true.
Proof. repeat split; vm_compute; reflexivity. Qed.

Lemma hosts_disjoint q :
  (search_host PYoutube q -> ~ search_host PGoogle q /\ ~ search_host PBing q /\ ~ search_host PDuckduckgo q)
  /\ (search_host PBing q -> ~ search_host PGoogle q /\ ~ search_host PDuckduckgo q)
  /\ (search_host PDuckduckgo q -> ~ search_host PGoogle q).
Proof.
  destruct hosts_disjoint_tables as (H1 & H2 & H3). destruct (host_tests q) as (Ty & Tb & Td).
  rewrite forallb_Forall_iff, Forall_forall in H1, H2, H3.
  split; [|split]; intros Hq.
  - specialize (H1 q Hq). bool_to_prop. rewrite <- google_host_spec, <- Tb, <- Td. repeat split; congruence.
  - specialize (H2 q Hq). bool_to_prop. rewrite <- google_host_spec, <- Td. repeat split; congruence.
  - specialize (H3 q Hq). bool_to_prop. rewrite <- google_host_spec. congruence.
Qed.

Lemma provider_bits ss :
  on ss GOOGLE = Z.testbit (ss_enabled ss) 0 /\ on ss YOUTUBE = Z.testbit (ss_enabled ss) 1
  /\ on ss BING = Z.testbit (ss_enabled ss) 2 /\ on ss DUCKDUCKGO = Z.testbit (ss_enabled ss) 3.
Proof. repeat split; [apply (on_testbit ss 0)|apply (on_testbit ss 1)|apply (on_testbit ss 2)|apply (on_testbit ss 3)]; lia. Qed.

Lemma and_true_iff b c (P Q : Prop) : (b = true <-> P) -> (c = true <-> Q) -> (b && c = true <-> P /\ Q).
Proof. intros Hb Hc. by rewrite andb_true_iff, Hb, Hc. Qed.

(** ** Properties *)

(** C28: safe search rewrites exactly the search hosts of the enforced
    providers, each to its own endpoint (an empty provider list enforces
    every provider, a disabled table none). *)
Theorem safesearch_rewrite_correct enabled providers ss q t :
  ss_new enabled providers = inl ss ->
  rewrite ss q = Some t <->
  exists p, enforced enabled providers p /\ search_host p q /\ t = endpoint p.
Proof.
  intros Hss. pose proof (fun p => enabled_bits enabled providers ss p Hss) as Hbit.
  destruct (provider_bits ss) as (Bg & By & Bb & Bd). destruct (host_tests q) as (Ty & Tb & Td).
  pose proof (google_host_spec q) as Tg. destruct (hosts_disjoint q) as (Dy & Db & Dd).
  assert (Hy : on ss YOUTUBE && binary_search YOUTUBE_HOSTS q = true <-> enforced enabled providers PYoutube /\ search_host PYoutube q)
    by (rewrite By; apply and_true_iff; [apply (Hbit PYoutube)|done]).
  assert (Hb : on ss BING && binary_search BING_HOSTS q = true <-> enforced enabled providers PBing /\ search_host PBing q)
    by (rewrite Bb; apply and_true_iff; [apply (Hbit PBing)|done]).
  assert (Hd : on ss DUCKDUCKGO && binary_search DUCKDUCKGO_HOSTS q = true <-> enforced enabled providers PDuckduckgo /\ search_host PDuckduckgo q)
    by (rewrite Bd; apply and_true_iff; [apply (Hbit PDuckduckgo)|done]).
  assert (Hg : on ss GOOGLE && google_host q = true <-> enforced enabled providers PGoogle /\ search_host PGoogle q)
    by (rewrite Bg; apply and_true_iff; [apply (Hbit PGoogle)|done]).
  unfold rewrite. fold (google_host q). clear Hbit By Bb Bd Bg Ty Tb Td Tg.
  assert (Huniq : forall p, enforced enabled providers p /\ search_host p q ->
    (Some t = Some (endpoint p) <-> exists p, enforced enabled providers p /\ search_host p q /\ t = endpoint p)).
  { intros p (He & Hp). split; [intros [= ->]; by exists p|]. intros (p' & _ & Hp' & ->). f_equal. f_equal.
    destruct p, p'; try done; exfalso; tauto. }
  destruct (_ && binary_search YOUTUBE_HOSTS q); [rewrite <- (Huniq PYoutube) by (by apply Hy); by split|].
  destruct (_ && binary_search BING_HOSTS q); [rewrite <- (Huniq PBing) by (by apply Hb); by split|].
  destruct (_ && binary_search DUCKDUCKGO_HOSTS q); [rewrite <- (Huniq PDuckduckgo) by (by apply Hd); by split|].
  destruct (_ && google_host q); [rewrite <- (Huniq PGoogle) by (by apply Hg); by split|].
  split; [done|]. intros (p & He & Hp & _). exfalso.
  destruct p; [apply proj2 in Hg; rename Hg into Hx|apply proj2 in Hy; rename Hy into Hx
    |apply proj2 in Hb; rename Hb into Hx|apply proj2 in Hd; rename Hd into Hx];
    discriminate (Hx (conj He Hp)).
Qed.

Lemma safesearch_rewrite_correct_witness :
  exists p, enforced true [lit "bing"] p /\ search_host p (lit "www.bing.com") /\ lit "strict.bing.com" = endpoint p.
Proof.
  apply (safesearch_rewrite_correct true [lit "bing"] (mkSafeSearch 4) (lit "www.bing.com") (lit "strict.bing.com"));
    vm_compute; reflexivity.
Defined.

(** A provider name outside the supported four is rejected even when
    safe search is off, with the first such name as the error; supported
    names never are. *)
Theorem safesearch_providers_validated enabled providers :
  (forall e, ss_new enabled providers = inr e <->
     exists good p rest, providers = good ++ p :: rest /\ e = UnknownProvider p
       /\ Forall (fun x => exists q, x = provider_name q) good /\ forall q, p <> provider_name q).
Proof.
  intros e.
  assert (Hv : ss_new enabled providers = inr e <-> validate_providers providers = Some e).
  { unfold ss_new. destruct (validate_providers providers); [split; congruence|].
    destruct (negb enabled); [done|]. by destruct providers. }
  rewrite Hv. clear Hv enabled. induction providers as [|p ps IH]; cbn [validate_providers].
  { split; [done|]. intros (good & p & rest & E & _). by destruct good. }
  destruct (existsb (str_eqb p) SUPPORTED_PROVIDERS) eqn:E.
  - assert (Hp : exists q, p = provider_name q).
    { assert (Hn : validate_providers [p] = None) by (cbn [validate_providers]; by rewrite E).
      apply validate_providers_None in Hn. by apply Forall_inv in Hn. }
    rewrite IH. split.
    + intros (good & p' & rest & -> & -> & Hg & Hn). exists (p :: good), p', rest. split; [done|].
      split; [done|]. split; [by constructor|done].
    + intros ([|g good] & p' & rest & Heq & -> & Hg & Hn).
      * injection Heq as -> ->. destruct Hp as (q & ->). by destruct (Hn q).
      * injection Heq as -> ->. apply Forall_cons in Hg as [_ Hg]. by exists good, p', rest.
  - split.
    + intros [= <-]. exists [], p, ps. repeat split; [constructor|]. intros q ->. by destruct q.
    + intros ([|g good] & p' & rest & Heq & -> & Hg & Hn); [by injection Heq as -> ->|].
      injection Heq as -> ->. apply Forall_cons in Hg as [(q & ->) _]. by destruct q.
Qed.
