(* ===== verification/Proc.v ===== *)
(** * Proc: asynchronous code as trees of events

    A task of the async runtime is a tree: it returns, panics, or performs
    one event of [Ev] and continues with the event's result. An event is
    one atomic access to shared state (a mutex held for a statement, an
    atomic counter) or one await; between two events other tasks may run.
    [bind] is sequencing, so [x ← p; q] reads like the source. The
    predicates over trees are recursive functions: they compute on the
    code. *)
From S2P Require Import Prelude.

Inductive Proc (Ev : Type -> Type) (A : Type) : Type :=
| Ret (a : A)
| Vis {B : Type} (e : Ev B) (k : B -> Proc Ev A)
| Panic.
Arguments Ret {Ev A} a.
Arguments Vis {Ev A B} e k.
Arguments Panic {Ev A}.

Section Proc.
Context {Ev : Type -> Type}.

Fixpoint bind {A C} (f : A -> Proc Ev C) (p : Proc Ev A) : Proc Ev C :=
  match p with
  | Ret a => f a
  | Vis e k => Vis e (fun b => bind f (k b))
  | Panic => Panic
  end.

Definition event {B} (e : Ev B) : Proc Ev B := Vis e Ret.

(** [v.expect(..)] of a computation that can panic. *)
Definition expect {A} (o : option A) : Proc Ev A :=
  match o with Some a => Ret a | None => Panic end.

(** One event with its answer. *)
Record Obs := mkObs { o_type : Type; o_event : Ev o_type; o_answer : o_type }.

(** [runs p tr a]: given the answers of [tr], [p] performs the events of
    [tr] and returns [a]. *)
Fixpoint runs {A} (p : Proc Ev A) (tr : list Obs) (a : A) : Prop :=
  match p with
  | Ret a' => tr = [] /\ a' = a
  | Vis e k => exists b tr', tr = mkObs _ e b :: tr' /\ runs (k b) tr' a
  | Panic => False
  end.

(** What [f] sees in a trace. *)
Fixpoint project {B : Type} (f : Obs -> option B) (tr : list Obs) : list B :=
  match tr with
  | [] => []
  | o :: tr => match f o with Some b => b :: project f tr | None => project f tr end
  end.

(** The part of a trace that [f] selects. *)
Fixpoint select (f : Obs -> bool) (tr : list Obs) : list Obs :=
  match tr with
  | [] => []
  | o :: tr => if f o then o :: select f tr else select f tr
  end.

(** Every event of the tree satisfies [P]. *)
Fixpoint all_events (P : forall B, Ev B -> Prop) {A} (p : Proc Ev A) : Prop :=
  match p with
  | Vis e k => P _ e /\ forall b, all_events P (k b)
  | _ => True
  end.

(** Every value the tree can return satisfies [P]. *)
Fixpoint all_results {A} (P : A -> Prop) (p : Proc Ev A) : Prop :=
  match p with
  | Ret a => P a
  | Vis e k => forall b, all_results P (k b)
  | Panic => True
  end.

(** The tree cannot panic. *)
Fixpoint no_panic {A} (p : Proc Ev A) : Prop :=
  match p with Ret _ => True | Panic => False | Vis e k => forall b, no_panic (k b) end.

(** The tree performs at most [n] events, an event counted with what it
    spawns ([weight]). *)
Fixpoint bounded (weight : forall B, Ev B -> nat) {A} (n : nat) (p : Proc Ev A) : Prop :=
  match p with
  | Vis e k => (S (weight _ e) <= n)%nat /\ forall b, bounded weight (n - S (weight _ e)) (k b)
  | _ => True
  end.

(** Every observation of a trace satisfies [P]. *)
Fixpoint every (P : Obs -> Prop) (tr : list Obs) : Prop :=
  match tr with [] => True | o :: tr => P o /\ every P tr end.

(** ** Sequencing *)
Lemma project_app {B} (f : Obs -> option B) t u : project f (t ++ u) = project f t ++ project f u.
Proof. induction t as [|o t IH]; cbn; [done|]. rewrite IH. by destruct (f o). Qed.

Lemma select_app f t u : select f (t ++ u) = select f t ++ select f u.
Proof. induction t as [|o t IH]; cbn; [done|]. rewrite IH. by destruct (f o). Qed.

Lemma every_app P t u : every P (t ++ u) <-> every P t /\ every P u.
Proof. induction t as [|o t IH]; cbn; [tauto|]. rewrite IH. tauto. Qed.

Lemma runs_bind_inv {A C} (f : A -> Proc Ev C) p tr c :
  runs (bind f p) tr c -> exists tr1 tr2 a, tr = tr1 ++ tr2 /\ runs p tr1 a /\ runs (f a) tr2 c.
Proof.
  revert tr. induction p as [a|B e k IH|]; intros tr; cbn [bind runs].
  - intros Hr. by exists [], tr, a.
  - intros (b & tr' & -> & Hr). apply IH in Hr as (tr1 & tr2 & a & -> & H1 & H2).
    exists (mkObs B e b :: tr1), tr2, a. split; [done|]. split; [|done]. by exists b, tr1.
  - done.
Qed.

Lemma all_results_bind {A C} (P : C -> Prop) (Q : A -> Prop) (f : A -> Proc Ev C) p :
  all_results Q p -> (forall a, Q a -> all_results P (f a)) -> all_results P (bind f p).
Proof. intros Hp Hf. induction p as [a|B e k IH|]; cbn [bind all_results] in *; auto. Qed.

Lemma all_results_true {A} (p : Proc Ev A) : all_results (fun _ => True) p.
Proof. induction p; cbn; auto. Qed.

Lemma all_results_impl {A} (P Q : A -> Prop) (p : Proc Ev A) : (forall a, P a -> Q a) -> all_results P p -> all_results Q p.
Proof. intros HPQ. induction p as [a|B e k IH|]; cbn [all_results]; auto. Qed.

Lemma all_results_seq {A C} (P : C -> Prop) (f : A -> Proc Ev C) p :
  (forall a, all_results P (f a)) -> all_results P (bind f p).
Proof. intros Hf. eapply all_results_bind; [apply all_results_true|auto]. Qed.

Lemma all_events_bind (P : forall B, Ev B -> Prop) {A C} (f : A -> Proc Ev C) p :
  all_events P p -> (forall a, all_events P (f a)) -> all_events P (bind f p).
Proof. intros Hp Hf. induction p as [a|B e k IH|]; cbn [bind all_events] in *; [done| |done].
  destruct Hp as (HP & Hk). split; [done|]. intros b. apply IH, Hk.
Qed.

Lemma bounded_weaken w {A} n m (p : Proc Ev A) : (n <= m)%nat -> bounded w n p -> bounded w m p.
Proof.
  revert n m. induction p as [a|B e k IH|]; intros n m Hle; cbn [bounded]; [done| |done].
  intros (Hs & Hk). split; [lia|]. intros b. eapply IH; [|apply Hk]. lia.
Qed.

Lemma bounded_bind w {A C} n m (f : A -> Proc Ev C) p :
  bounded w n p -> (forall a, bounded w m (f a)) -> bounded w (n + m) (bind f p).
Proof.
  intros Hp Hf. revert n Hp. induction p as [a|B e k IH|]; intros n Hp; cbn [bind].
  - eapply bounded_weaken; [|apply Hf]. lia.
  - cbn [bounded] in *. destruct Hp as (Hs & Hk). split; [lia|]. intros b.
    eapply bounded_weaken; [|apply IH, Hk]. lia.
  - done.
Qed.

Lemma no_panic_bind {A C} (f : A -> Proc Ev C) p : no_panic p -> (forall a, no_panic (f a)) -> no_panic (bind f p).
Proof. intros Hp Hf. induction p as [a|B e k IH|]; [apply Hf|intros b; apply IH, Hp|done]. Qed.

(** What every result satisfies, every run returns. *)
Lemma runs_result {A} (P : A -> Prop) p tr a : all_results P p -> runs p tr a -> P a.
Proof.
  revert tr. induction p as [a'|B e k IH|]; intros tr Hp Hr; cbn [all_results runs] in *.
  - by destruct Hr as (_ & <-).
  - destruct Hr as (b & tr' & _ & Hr). by apply (IH b tr').
  - done.
Qed.

Lemma runs_events (P : forall B, Ev B -> Prop) {A} p tr (a : A) :
  all_events P p -> runs p tr a -> every (fun o => P (o_type o) (o_event o)) tr.
Proof.
  revert tr. induction p as [a'|B e k IH|]; intros tr Hp Hr; cbn [all_events runs] in *.
  - by destruct Hr as (-> & _).
  - destruct Hr as (b & tr' & -> & Hr). destruct Hp as (HP & Hk). split; [done|]. by apply (IH b).
  - done.
Qed.
End Proc.
Arguments Obs Ev : clear implicits.

(** Two lists related element by element; trees live in a large universe,
    so this is not the library's [Forall2]. *)
Fixpoint all2 {A B : Type} (P : A -> B -> Prop) (l : list A) (k : list B) : Prop :=
  match l, k with
  | [], [] => True
  | a :: l, b :: k => P a b /\ all2 P l k
  | _, _ => False
  end.

Lemma all2_impl {A B : Type} (P Q : A -> B -> Prop) l k : (forall a b, P a b -> Q a b) -> all2 P l k -> all2 Q l k.
Proof. intros HPQ. revert k. induction l as [|a l IH]; intros [|b k]; cbn; try done. intros (Ha & Hl). auto. Qed.

Lemma all2_app {A B : Type} (P : A -> B -> Prop) l k l' k' : all2 P l k -> all2 P l' k' -> all2 P (l ++ l') (k ++ k').
Proof. intros Hl Hl'. revert k Hl. induction l as [|a l IH]; intros [|b k]; cbn; try done. intros (Ha & Hl). auto. Qed.

(** The related element of one in the middle. *)
Lemma all2_middle {A B : Type} (P : A -> B -> Prop) pre a post k :
  all2 P (pre ++ a :: post) k -> exists k1 b k2, k = k1 ++ b :: k2 /\ all2 P pre k1 /\ P a b /\ all2 P post k2.
Proof.
  revert k. induction pre as [|x pre IH]; intros [|b k]; cbn; try done.
  - intros (Ha & Hp). by exists [], b, k.
  - intros (Hx & Hr). destruct (IH k Hr) as (k1 & b' & k2 & -> & H1 & H2 & H3). by exists (b :: k1), b', k2.
Qed.

Lemma all2_find {A B : Type} (P : A -> B -> Prop) l k b :
  all2 P l k -> List.In b k -> exists pre a post, l = pre ++ a :: post /\ P a b.
Proof.
  revert l. induction k as [|b' k IH]; intros [|a l]; cbn; try done.
  intros (Ha & Hl) [<-|Hin]; [by exists [], a, l|]. destruct (IH l Hl Hin) as (pre & a' & post & -> & Hp).
  by exists (a :: pre), a', post.
Qed.

Lemma length_middle {A : Type} (pre : list A) a post : length (pre ++ a :: post) = S (length (pre ++ post)).
Proof. induction pre as [|x pre IH]; cbn; [done|]. by rewrite IH. Qed.

#[export] Instance Proc_ret {Ev} : MRet (Proc Ev) := fun A a => Ret a.
#[export] Instance Proc_bind {Ev} : MBind (Proc Ev) := fun A B f p => bind f p.

(** ** Code over a state

    [run o e s] performs event [e] in state [s], the world answering as
    [o] says. [holds I p Q s] follows [p] from [s] through every answer of
    the world: [I] at every state on the way, so also where a crash would
    stop it, and [Q] of what it returns. *)
Section Holds.
Context {Ev : Type -> Type} {O S : Type} (run : O -> forall B : Type, Ev B -> S -> B * S).

Fixpoint holds (I : S -> Prop) {A} (p : Proc Ev A) (Q : A -> S -> Prop) (s : S) : Prop :=
  I s /\ match p with
         | Ret a => Q a s
         | Panic => True
         | Vis e k => forall o, holds I (k (fst (run o _ e s))) Q (snd (run o _ e s))
         end.

Lemma holds_bind I {A C} (p : Proc Ev A) (f : A -> Proc Ev C) Q s :
  holds I p (fun a s => holds I (f a) Q s) s -> holds I (p ≫= f) Q s.
Proof.
  revert s. induction p as [a|B e k IH|]; intros s; cbn; [tauto| |tauto]. intros (Hi & Hk). split; [done|].
  intros o. by apply IH.
Qed.

Lemma holds_event I {B C} (e : Ev B) (f : B -> Proc Ev C) Q s :
  I s -> (forall o, holds I (f (fst (run o _ e s))) Q (snd (run o _ e s))) -> holds I (event e ≫= f) Q s.
Proof. intros Hi Hk. exact (conj Hi Hk). Qed.

Lemma holds_last I {B} (e : Ev B) (Q : B -> S -> Prop) s :
  I s -> (forall o, I (snd (run o _ e s)) /\ Q (fst (run o _ e s)) (snd (run o _ e s))) -> holds I (event e) Q s.
Proof. intros Hi Hk. exact (conj Hi Hk). Qed.

Lemma holds_ret (I : S -> Prop) {A} (a : A) (Q : A -> S -> Prop) s : I s -> Q a s -> holds I (Ret a) Q s.
Proof. intros Hi HQ. exact (conj Hi HQ). Qed.

Lemma holds_weaken (I J : S -> Prop) {A} (p : Proc Ev A) (Q R : A -> S -> Prop) s :
  (forall s, I s -> J s) -> (forall a s, Q a s -> R a s) -> holds I p Q s -> holds J p R s.
Proof.
  intros HI HQ. revert s. induction p as [a|B e k IH|]; intros s; cbn; [intros (? & ?); auto| |intros (? & _); auto].
  intros (Hi & Hk). split; [auto|]. intros o. by apply IH.
Qed.

(** The invariant holds at the end too. *)
Lemma holds_and_inv I {A} (p : Proc Ev A) Q s : holds I p Q s -> holds I p (fun a s => I s /\ Q a s) s.
Proof.
  revert s. induction p as [a|B e k IH|]; intros s; cbn; [tauto| |tauto]. intros (Hi & Hk). split; [done|].
  intros o. by apply IH.
Qed.

Lemma holds_and I J {A} (p : Proc Ev A) Q R s :
  holds I p Q s -> holds J p R s -> holds (fun s => I s /\ J s) p (fun a s => Q a s /\ R a s) s.
Proof.
  revert s. induction p as [a|B e k IH|]; intros s; cbn; [tauto| |tauto]. intros (Hi & Hk) (Hj & Hl). split; [done|].
  intros o. by apply IH.
Qed.

Lemma holds_expect (I : S -> Prop) {A C} (o : option A) (f : A -> Proc Ev C) Q s :
  I s -> (forall a, o = Some a -> holds I (f a) Q s) -> holds I (expect o ≫= f) Q s.
Proof. intros Hi Hf. destruct o as [a|]; [by apply (Hf a)|exact (conj Hi Logic.I)]. Qed.
(** Where a crash may leave the state. *)
Fixpoint reaches {A} (p : Proc Ev A) (s s' : S) : Prop :=
  s' = s \/ match p with
            | Vis e k => exists o, reaches (k (fst (run o _ e s))) (snd (run o _ e s)) s'
            | _ => False
            end.

Lemma holds_reaches I {A} (p : Proc Ev A) Q s s' : holds I p Q s -> reaches p s s' -> I s'.
Proof.
  revert s. induction p as [a|B e k IH|]; intros s; cbn; intros (Hi & Hk) [->|Hr]; try done. destruct Hr as (o & Hr). by apply (IH _ _ (Hk o)).
Qed.

(** The run in which the world answers [o] throughout. *)
Fixpoint perform (o : O) {A} (p : Proc Ev A) (s : S) : option (A * S) :=
  match p with
  | Ret a => Some (a, s)
  | Panic => None
  | Vis e k => perform o (k (fst (run o _ e s))) (snd (run o _ e s))
  end.

(** The run in which the [i]-th event is answered by [os i]. *)
Fixpoint perform_each (os : nat -> O) (i : nat) {A} (p : Proc Ev A) (s : S) : option (A * S) :=
  match p with
  | Ret a => Some (a, s)
  | Panic => None
  | Vis e k => perform_each os (Datatypes.S i) (k (fst (run (os i) _ e s))) (snd (run (os i) _ e s))
  end.

Lemma perform_each_holds I os i {A} (p : Proc Ev A) Q s a s' : holds I p Q s -> perform_each os i p s = Some (a, s') -> I s' /\ Q a s'.
Proof.
  revert i s. induction p as [a'|B e k IH|]; intros i s; cbn; [by intros (? & ?) [= <- <-]| |done]. intros (_ & Hk). by apply IH.
Qed.

Lemma perform_each_total os i {A} (p : Proc Ev A) s : no_panic p -> is_Some (perform_each os i p s).
Proof. revert i s. induction p as [a|B e k IH|]; intros i s; cbn; [by eexists|intros Hk; by apply IH|done]. Qed.

Lemma perform_each_same o {A} (p : Proc Ev A) i s : perform_each (fun _ => o) i p s = perform o p s.
Proof. revert i s. induction p as [a|B e k IH|]; intros i s; cbn; [done|apply IH|done]. Qed.

Lemma perform_bind o {A C} (p : Proc Ev A) (f : A -> Proc Ev C) s :
  perform o (p ≫= f) s = match perform o p s with Some (a, s) => perform o (f a) s | None => None end.
Proof. revert s. induction p as [a|B e k IH|]; intros s; cbn; [done|apply IH|done]. Qed.

Lemma perform_holds I o {A} (p : Proc Ev A) Q s a s' : holds I p Q s -> perform o p s = Some (a, s') -> I s' /\ Q a s'.
Proof.
  revert s. induction p as [a'|B e k IH|]; intros s; cbn; [by intros (? & ?) [= <- <-]| |done]. intros (_ & Hk). by apply IH.
Qed.
End Holds.
Arguments holds_bind {Ev O S run} I {A C}.
Arguments holds_event {Ev O S run} I {B C}.
Arguments holds_last {Ev O S run} I {B}.
Arguments holds_ret {Ev O S run} I {A}.
Arguments holds_weaken {Ev O S run} I J {A}.
Arguments holds_and_inv {Ev O S run} I {A}.
Arguments holds_and {Ev O S run} I J {A}.
Arguments holds_expect {Ev O S run} I {A C}.
Arguments holds_reaches {Ev O S run} I {A}.
Arguments perform_bind {Ev O S run} o {A C}.
Arguments perform_holds {Ev O S run} I o {A}.
Arguments perform_each_holds {Ev O S run} I os i {A}.
Arguments perform_each_total {Ev O S run} os i {A}.
Arguments perform_each_same {Ev O S run} o {A}.
