(* ===== verification/Result.v ===== *)
(** * Result: Rust's [Result] as a sum

    [inl] is [Ok], [inr] is [Err]; [let? x := e in k] is [let x = e?; k].
    [ensure] is an early return of an error, [for_each] a loop whose body
    can return early; [await? x := p in k] is [let x = p.await?; k]. *)
From S2P Require Import Prelude Proc.

(** [r?] and the rest. *)
Definition try {A B E : Type} (r : A + E) (f : A -> B + E) : B + E := match r with inl a => f a | inr e => inr e end.

Declare Scope result_scope.
Delimit Scope result_scope with result.
Notation "'let?' x := e 'in' k" := (try e (fun x => k))
  (at level 200, x pattern, e at level 200, k at level 200, format "'[v' 'let?'  x  :=  e  'in' '/' k ']'") : result_scope.
#[global] Open Scope result_scope.

(** [if !b { return Err(e); }] *)
Definition ensure {E : Type} (b : bool) (e : E) : unit + E := if b then inl tt else inr e.

(** [for x in l { body(x)? }] *)
Fixpoint for_each {A E : Type} (body : A -> unit + E) (l : list A) : unit + E :=
  match l with
  | [] => inl tt
  | x :: l => match body x with inl _ => for_each body l | inr e => inr e end
  end.

Definition map_err {A E F : Type} (f : E -> F) (r : A + E) : A + F :=
  match r with inl a => inl a | inr e => inr (f e) end.
Definition ok_or {A E : Type} (o : option A) (e : E) : A + E := match o with Some a => inl a | None => inr e end.
Definition ok {A E : Type} (r : A + E) : option A := match r with inl a => Some a | inr _ => None end.

Lemma try_ok {A B E : Type} (r : A + E) (f : A -> B + E) b : try r f = inl b <-> exists a, r = inl a /\ f a = inl b.
Proof. destruct r as [a|e]; cbn; [split; [by exists a|by intros (? & [= <-] & ?)]|split; [done|by intros (? & ? & _)]]. Qed.

Lemma try_unit {B E : Type} (r : unit + E) (f : unit -> B + E) b : try r f = inl b <-> r = inl tt /\ f tt = inl b.
Proof. rewrite try_ok. split; [by intros ([] & ? & ?)|intros (? & ?); by exists tt]. Qed.

Lemma ensure_ok {E : Type} b (e : E) : ensure b e = inl tt <-> b = true.
Proof. by destruct b. Qed.

Lemma for_each_ok {A E : Type} (body : A -> unit + E) l : for_each body l = inl tt <-> Forall (fun x => body x = inl tt) l.
Proof.
  induction l as [|x l IH]; cbn; [by split|]. rewrite Forall_cons, <- IH. destruct (body x) as [[]|e]; [tauto|].
  split; [done|by intros (? & _)].
Qed.

Lemma map_err_ok {A E F : Type} (f : E -> F) (r : A + E) a : map_err f r = inl a <-> r = inl a.
Proof. destruct r; cbn; split; congruence. Qed.

(** Decide [e1; e2; ..] = Ok by its parts. *)
Create Rewrite HintDb result.
#[export] Hint Rewrite @try_unit @ensure_ok @for_each_ok @map_err_ok : result.

(** ** [?] in asynchronous code *)
Definition await_try {Ev : Type -> Type} {A B E : Type} (p : Proc Ev (A + E)) (f : A -> Proc Ev (B + E)) : Proc Ev (B + E) :=
  r ← p; match r with inl a => f a | inr e => Ret (inr e) end.

Notation "'await?' x := e 'in' k" := (await_try e (fun x => k))
  (at level 200, x pattern, e at level 200, k at level 200, format "'[v' 'await?'  x  :=  e  'in' '/' k ']'") : result_scope.

(** [p.map_err(f)] *)
Definition err_into {Ev : Type -> Type} {A E F : Type} (f : E -> F) (p : Proc Ev (A + E)) : Proc Ev (A + F) :=
  r ← p; Ret (map_err f r).

Section Holds.
Context {Ev : Type -> Type} {O S : Type} {run : O -> forall B : Type, Ev B -> S -> B * S}.

Lemma holds_await {A B E : Type} I (p : Proc Ev (A + E)) (f : A -> Proc Ev (B + E)) Q s :
  Proc.holds run I p (fun r s => match r with inl a => Proc.holds run I (f a) Q s | inr e => I s /\ Q (inr e) s end) s ->
  Proc.holds run I (await_try p f) Q s.
Proof. intros Hp. apply holds_bind. revert Hp. apply holds_weaken; [done|]. intros [a|e] s'; [done|]. intros (Hi & Hq). by apply holds_ret. Qed.

Lemma perform_await {A B E : Type} o (p : Proc Ev (A + E)) (f : A -> Proc Ev (B + E)) s :
  Proc.perform run o (await_try p f) s
  = match Proc.perform run o p s with
    | Some (inl a, s) => Proc.perform run o (f a) s
    | Some (inr e, s) => Some (inr e, s)
    | None => None
    end.
Proof. unfold await_try. rewrite perform_bind. by destruct (Proc.perform run o p s) as [[[a|e] s']|]. Qed.

Lemma perform_err_into {A E F : Type} o (g : E -> F) (p : Proc Ev (A + E)) s :
  Proc.perform run o (err_into g p) s = match Proc.perform run o p s with Some (r, s) => Some (map_err g r, s) | None => None end.
Proof. unfold err_into. rewrite perform_bind. by destruct (Proc.perform run o p s) as [[r s']|]. Qed.

Lemma holds_err_into {A E F : Type} I (g : E -> F) (p : Proc Ev (A + E)) Q s :
  Proc.holds run I p (fun r s => Q (map_err g r) s) s -> Proc.holds run I (err_into g p) Q s.
Proof.
  intros Hp. apply holds_bind. apply holds_and_inv in Hp. revert Hp. apply holds_weaken; [done|]. intros r s' (Hi & Hq). by apply holds_ret.
Qed.
End Holds.
