(* ===== verification/Num.v ===== *)
(** * Num: decimal numbers in text

    [to_string] of an unsigned integer and [str::parse] into one: an
    optional [+], then at least one digit, rejecting overflow. *)
From S2P Require Import Prelude Text.

Definition digit_char (d : Z) : Z := 48 + d.

(** [n.to_string()]; the fuel is the number of digits, at most [n + 1]. *)
Fixpoint digits_go (fuel : nat) (n : Z) (acc : list Z) : list Z :=
  match fuel with
  | O => acc
  | S fuel => let acc := digit_char (n mod 10) :: acc in
              if n <? 10 then acc else digits_go fuel (n / 10) acc
  end.
Definition to_string (n : Z) : list Z := digits_go (S (Z.to_nat (Z.log2 n))) n [].

Fixpoint parse_digits (max : Z) (s : list Z) (acc : Z) : option Z :=
  match s with
  | [] => Some acc
  | c :: s =>
      if is_ascii_digit c then
        let acc := acc * 10 + (c - 48) in
        if acc <=? max then parse_digits max s acc else None
      else None
  end.

(** [s.parse::<uN>()] with maximum [max]. *)
Definition parse_uint (max : Z) (s : list Z) : option Z :=
  let s := match s with c :: r => if (c =? 43) && negb (bool_decide (r = [])) then r else s | [] => s end in
  match s with [] => None | _ => parse_digits max s 0 end.

Lemma parse_digits_app max s t acc :
  parse_digits max (s ++ t) acc = a ← parse_digits max s acc; parse_digits max t a.
Proof.
  revert acc. induction s as [|c s IH]; intros acc; cbn [parse_digits app]; [done|].
  destruct (is_ascii_digit c); [|done]. cbn zeta. destruct (_ <=? max); [apply IH|done].
Qed.

Lemma digits_go_acc fuel n acc : digits_go fuel n acc = digits_go fuel n [] ++ acc.
Proof.
  revert n acc. induction fuel as [|fuel IH]; intros n acc; cbn [digits_go]; [done|]. cbn zeta.
  destruct (n <? 10); [done|]. rewrite IH, (IH _ [_]), <- app_assoc. done.
Qed.

Lemma digits_go_parse fuel n max :
  0 <= n <= max -> n < 2 ^ Z.of_nat fuel ->
  parse_digits max (digits_go fuel n []) 0 = Some n.
Proof.
  revert n. induction fuel as [|fuel IH]; intros n Hn Hf.
  { change (2 ^ Z.of_nat 0) with 1 in Hf. by assert (n = 0) as -> by lia. }
  cbn [digits_go]. cbn zeta. pose proof (Z.mod_pos_bound n 10 ltac:(lia)).
  assert (Hd : forall acc, acc * 10 + n mod 10 <= max ->
    parse_digits max [digit_char (n mod 10)] acc = Some (acc * 10 + n mod 10)).
  { intros acc Ha. cbn [parse_digits]. unfold is_ascii_digit, digit_char. zguard. f_equal. lia. }
  destruct (Z.ltb_spec n 10) as [Hlt|Hge].
  - assert (n mod 10 = n) by (apply Z.mod_small; lia). rewrite Hd by lia. f_equal. lia.
  - pose proof (Z.div_mod n 10 ltac:(lia)).
    rewrite digits_go_acc, parse_digits_app, IH; [cbn [mbind option_bind]; rewrite Hd by lia; f_equal; lia| |].
    + split; [apply Z.div_pos; lia|apply Z.div_le_upper_bound; lia].
    + rewrite Nat2Z.inj_succ, Z.pow_succ_r in Hf by lia. apply Z.div_lt_upper_bound; lia.
Qed.

Lemma digits_go_head fuel n acc :
  (0 < fuel)%nat -> exists d r, digits_go fuel n acc = d :: r /\ (acc = [] \/ True) /\ is_ascii_digit d = true.
Proof.
  revert n acc. induction fuel as [|fuel IH]; intros n acc Hf; [lia|]. cbn [digits_go]. cbn zeta.
  pose proof (Z.mod_pos_bound n 10 ltac:(lia)).
  assert (Hd : is_ascii_digit (digit_char (n mod 10)) = true) by (unfold is_ascii_digit, digit_char; by zguard).
  destruct (n <? 10); [by exists (digit_char (n mod 10)), acc; auto|].
  destruct fuel as [|fuel]; [exists (digit_char (n mod 10)), acc; auto|].
  destruct (IH (n / 10) (digit_char (n mod 10) :: acc)) as (d & r & E & _ & Hd'); [lia|].
  exists d, r. auto.
Qed.

(** A printed number parses back. *)
Lemma parse_to_string max n : 0 <= n <= max -> parse_uint max (to_string n) = Some n.
Proof.
  intros Hn. unfold parse_uint, to_string.
  assert (Hp : parse_digits max (digits_go (S (Z.to_nat (Z.log2 n))) n []) 0 = Some n).
  { apply digits_go_parse; [done|]. pose proof (Z.log2_nonneg n).
    rewrite Nat2Z.inj_succ, Z2Nat.id by lia. destruct (decide (n = 0)) as [->|Hne]; [done|].
    apply Z.log2_spec. lia. }
  destruct (digits_go_head (S (Z.to_nat (Z.log2 n))) n []) as (d & r & E & _ & Hd); [lia|].
  rewrite E in *. unfold is_ascii_digit in Hd. bool_to_prop. by zguard.
Qed.

Lemma digits_go_chars fuel n acc :
  0 <= n -> Forall (fun c => 48 <= c <= 57) acc -> Forall (fun c => 48 <= c <= 57) (digits_go fuel n acc).
Proof.
  revert n acc. induction fuel as [|fuel IH]; intros n acc Hn Ha; cbn [digits_go]; [done|]. cbn zeta.
  pose proof (Z.mod_pos_bound n 10 ltac:(lia)).
  assert (Ha' : Forall (fun c => 48 <= c <= 57) (digit_char (n mod 10) :: acc)) by (constructor; [unfold digit_char; lia|done]).
  destruct (n <? 10); [done|]. apply IH; [|done]. apply Z.div_pos; lia.
Qed.

Lemma to_string_digits n : 0 <= n -> to_string n <> [] /\ Forall (fun c => 48 <= c <= 57) (to_string n).
Proof.
  intros Hn. split; [|by apply digits_go_chars]. unfold to_string.
  destruct (digits_go_head (S (Z.to_nat (Z.log2 n))) n []) as (d & r & -> & _); [lia|done].
Qed.

Lemma to_string_inj a b : 0 <= a -> 0 <= b -> to_string a = to_string b -> a = b.
Proof.
  intros Ha Hb He. pose proof (parse_to_string (Z.max a b) a ltac:(lia)) as E1. pose proof (parse_to_string (Z.max a b) b ltac:(lia)) as E2.
  rewrite He in E1. congruence.
Qed.
