(* ===== verification/Shadow.v ===== *)
(** * Shadow: comparing answers with a reference resolver ([crates/core/src/shadow.rs])

    [looks_blocked], [describe], [classify] and the cap on comparisons in
    flight; the comparison task itself ([spawn_compare]) is part of the
    asynchronous code of Server. *)
From S2P Require Import Prelude Text IpAddr Dns.

(** [Display] of hickory's [ResponseCode]. *)
Class RcodeDisplay := { rcode_display : Z -> list Z }.

Definition CLASS_EXPECTED : list Z := lit "expected".
Definition CLASS_WE_BLOCK : list Z := lit "we-block-they-answer".
Definition CLASS_THEY_BLOCK : list Z := lit "they-block-we-answer".
Definition CLASS_RCODE : list Z := lit "rcode-mismatch".

(** At most this many comparisons in flight. *)
Definition MAX_INFLIGHT : Z := 64.

Section Shadow.
Context `{Hickory}.

(** The loop over the answers: an address that is not unspecified ends it. *)
Fixpoint looks_loop (records : list DnsRecord) (saw_addr : bool) : bool :=
  match records with
  | [] => saw_addr
  | r :: records =>
      match r_data r with
      | RA a => if negb (is_unspecified (V4 a)) then false else looks_loop records true
      | RAAAA a => if negb (is_unspecified (V6 a)) then false else looks_loop records true
      | _ => looks_loop records saw_addr
      end
  end.

Definition looks_blocked (resp : Message) : bool :=
  if rcode resp =? NXDomain then true
  else if rcode resp =? NoError then looks_loop (answers resp) false
  else false.

Definition describe `{RcodeDisplay} (resp : Message) (blocked_verdict : bool) : list Z :=
  let style := if blocked_verdict then lit "blocked/" else if looks_blocked resp then lit "blocky/" else [] in
  style ++ rcode_display (rcode resp).

Definition classify_class (ours : Message) (ours_blocked : bool) (theirs : Message) : option (list Z) :=
  match ours_blocked, looks_blocked theirs with
  | true, true => if rcode ours =? rcode theirs then None else Some CLASS_EXPECTED
  | true, false =>
      if (rcode theirs =? NoError) && bool_decide (length (answers theirs) = 0%nat)
      then Some CLASS_EXPECTED else Some CLASS_WE_BLOCK
  | false, true => if looks_blocked ours then None else Some CLASS_THEY_BLOCK
  | false, false => if rcode ours =? rcode theirs then None else Some CLASS_RCODE
  end.

Definition classify `{RcodeDisplay} (ours : Message) (ours_blocked : bool) (theirs : Message)
  : option (list Z * list Z * list Z) :=
  let ours_desc := describe ours ours_blocked in
  let theirs_desc := describe theirs false in
  class ← classify_class ours ours_blocked theirs;
  Some (ours_desc, theirs_desc, class).

(** The limiter: a semaphore of [MAX_INFLIGHT] permits. *)
Record Shadow := mkShadow { sh_permits : Z }.
Definition shadow_new : Shadow := mkShadow MAX_INFLIGHT.
Definition try_acquire (s : Shadow) : option Shadow :=
  if 0 <? sh_permits s then Some (mkShadow (sh_permits s - 1)) else None.
Definition release (s : Shadow) : Shadow := mkShadow (sh_permits s + 1).

(** ** Specification *)
Definition addr_of (r : DnsRecord) : option IpAddr :=
  match r_data r with RA a => Some (V4 a) | RAAAA a => Some (V6 a) | _ => None end.

(** A block by NXDOMAIN, or by unspecified addresses only. *)
Definition blocked_answer (m : Message) : Prop :=
  rcode m = NXDomain
  \/ (rcode m = NoError /\ (exists r a, r ∈ answers m /\ addr_of r = Some a)
      /\ forall r a, r ∈ answers m -> addr_of r = Some a -> is_unspecified a = true).

Lemma looks_loop_spec rs saw :
  looks_loop rs saw = true <->
  (saw = true \/ exists r a, r ∈ rs /\ addr_of r = Some a)
  /\ forall r a, r ∈ rs -> addr_of r = Some a -> is_unspecified a = true.
Proof.
  revert saw. induction rs as [|r rs IH]; intros saw; cbn [looks_loop].
  { split; [intros ->; split; [by left|intros r a Hr; by apply elem_of_nil in Hr]|].
    intros ([?|(r & a & Hr & _)] & _); [done|by apply elem_of_nil in Hr]. }
  assert (Haddr : forall a0, addr_of r = Some a0 ->
    (if negb (is_unspecified a0) then false else looks_loop rs true) = true <->
    (saw = true \/ exists r' a, r' ∈ r :: rs /\ addr_of r' = Some a)
    /\ forall r' a, r' ∈ r :: rs -> addr_of r' = Some a -> is_unspecified a = true).
  { intros a0 Ha. destruct (is_unspecified a0) eqn:Eu; cbn [negb].
    - rewrite IH. split.
      + intros (_ & Hall). split; [right; exists r, a0; split; [by left|done]|].
        intros r' a Hr. apply elem_of_cons in Hr as [->|Hr]; [|by apply (Hall r')]. congruence.
      + intros (_ & Hall). split; [by left|]. intros r' a Hr. apply Hall. by right.
    - split; [done|]. intros (_ & Hall). specialize (Hall r a0 ltac:(by left) Ha). congruence. }
  assert (Hskip : addr_of r = None ->
    looks_loop rs saw = true <->
    (saw = true \/ exists r' a, r' ∈ r :: rs /\ addr_of r' = Some a)
    /\ forall r' a, r' ∈ r :: rs -> addr_of r' = Some a -> is_unspecified a = true).
  { intros Hn. rewrite IH. split; intros (Hs & Hall); (split; [|intros r' a Hr Ha]).
    - destruct Hs as [?|(r' & a & Hr & Ha)]; [by left|right]. exists r', a. split; [by right|done].
    - apply elem_of_cons in Hr as [->|Hr]; [congruence|by apply (Hall r')].
    - destruct Hs as [?|(r' & a & Hr & Ha)]; [by left|right]. apply elem_of_cons in Hr as [->|Hr]; [congruence|].
      by exists r', a.
    - apply (Hall r'); [by right|done]. }
  unfold addr_of in Haddr, Hskip. destruct (r_data r); [by apply Haddr|by apply Haddr|by apply Hskip..].
Qed.

Lemma looks_blocked_spec m : looks_blocked m = true <-> blocked_answer m.
Proof.
  unfold looks_blocked, blocked_answer.
  destruct (Z.eqb_spec (rcode m) NXDomain) as [E|E]; [by split; [left|]|].
  destruct (Z.eqb_spec (rcode m) NoError) as [E'|E'].
  - rewrite looks_loop_spec. split; [intros ([?|Hs] & Hall); [done|by right]|].
    intros [?|(_ & Hs & Hall)]; [done|]. split; [by right|done].
  - split; [done|]. intros [?|[? _]]; done.
Qed.
End Shadow.

(** Close an equivalence about one of the four class texts. *)
Ltac class_cases :=
  split; intros Hc;
  first [ exfalso; vm_compute in Hc; discriminate Hc | reflexivity | tauto
        | exfalso; intuition congruence | intuition congruence ].

(** ** Properties *)

(** A comparison is reported exactly when the outcomes diverge, and
    under its class: [expected] is a block of ours that the reference makes
    in another style (unspecified addresses, another code, or no records),
    [we-block] a block the reference answers, [they-block] an answer of
    ours that the reference blocks (and ours does not look blocked),
    [rcode-mismatch] two unblocked answers with different codes; the same
    answer never diverges from itself. *)
Theorem shadow_classifies `{Hickory} `{RcodeDisplay} ours ours_blocked theirs :
  let class := snd <$> classify ours ours_blocked theirs in
  (class = Some CLASS_EXPECTED <-> ours_blocked = true
     /\ ((blocked_answer theirs /\ rcode ours <> rcode theirs) \/ (rcode theirs = NoError /\ answers theirs = [])))
  /\ (class = Some CLASS_WE_BLOCK <-> ours_blocked = true
     /\ ~ blocked_answer theirs /\ (rcode theirs = NoError -> answers theirs <> []))
  /\ (class = Some CLASS_THEY_BLOCK <-> ours_blocked = false /\ blocked_answer theirs /\ ~ blocked_answer ours)
  /\ (class = Some CLASS_RCODE <-> ours_blocked = false /\ ~ blocked_answer theirs /\ rcode ours <> rcode theirs)
  /\ (class = None <-> (ours_blocked = true /\ blocked_answer theirs /\ rcode ours = rcode theirs)
       \/ (ours_blocked = false /\ ((blocked_answer theirs /\ blocked_answer ours)
                                    \/ (~ blocked_answer theirs /\ rcode ours = rcode theirs))))
  /\ classify ours false ours = None.
Proof.
  cbn zeta.
  assert (Hempty : rcode theirs = NoError -> answers theirs = [] -> ~ blocked_answer theirs).
  { intros E Ea [E'|(_ & (r & a & Hr & _) & _)]; [rewrite E in E'; done|]. rewrite Ea in Hr. by apply elem_of_nil in Hr. }
  assert (Hself : classify ours false ours = None).
  { unfold classify, classify_class. destruct (looks_blocked ours); [done|]. by rewrite Z.eqb_refl. }
  assert (Hclass : snd <$> classify ours ours_blocked theirs = classify_class ours ours_blocked theirs)
    by (unfold classify; by destruct (classify_class _ _ _)).
  rewrite Hclass. clear Hclass. unfold classify_class.
  pose proof (looks_blocked_spec theirs) as Ht. pose proof (looks_blocked_spec ours) as Ho.
  assert (Ha : bool_decide (length (answers theirs) = 0%nat) = true <-> answers theirs = [])
    by (rewrite bool_decide_eq_true, length_zero_iff_nil; done).
  revert Ht Ho Ha Hempty Hself.
  generalize (blocked_answer theirs) (blocked_answer ours) (classify ours false ours = None) (answers theirs = []).
  generalize (bool_decide (length (answers theirs) = 0%nat)).
  intros e BT BO SELF EMPTY Ht Ho Ha Hempty Hself.
  destruct ours_blocked, (looks_blocked theirs), (looks_blocked ours), e,
    (Z.eqb_spec (rcode ours) (rcode theirs)), (Z.eqb_spec (rcode theirs) NoError); cbn [andb];
    (split_and!; [..|exact Hself]); clear Hself; class_cases.
Qed.
