(* ===== verification/Db.v ===== *)
(** * Db: the query log ([crates/core/src/db.rs])

    Record and event types with their text forms, the bounded writer queue
    with its drop counter, the writer thread's batches, the rows and tables
    of the database, what opening makes of a file, and the reads
    ([recent_queries], [stats], [retention_sweep], ...). A table is the list
    of its rows in order of their [id]; an SQL statement is the operation it
    names on that list. Whether the i-th statement of a transaction fails
    (disk full, a locked file) is an argument. *)
From S2P Require Import Prelude Text Num IpAddr.

Definition LOG_RETENTION_SECS : Z := 7 * 24 * 3600.

(** ** Records and their text forms *)
Inductive VerdictKind := Allowed | Blocked | Excepted | Rewritten.

#[export] Instance VerdictKind_eq_dec : EqDecision VerdictKind.
Proof. solve_decision. Defined.

Definition verdict_as_str (v : VerdictKind) : list Z :=
  match v with
  | Allowed => lit "allowed" | Blocked => lit "blocked" | Excepted => lit "excepted" | Rewritten => lit "rewritten"
  end.

Definition verdict_from_db (s : list Z) : option VerdictKind :=
  if str_eqb s (lit "allowed") then Some Allowed
  else if str_eqb s (lit "blocked") then Some Blocked
  else if str_eqb s (lit "excepted") then Some Excepted
  else if str_eqb s (lit "rewritten") then Some Rewritten
  else None.

Inductive ResponseSource := Synth | SCache | SStale | SUpstream | Failed | FailureCached.

#[export] Instance ResponseSource_eq_dec : EqDecision ResponseSource.
Proof. solve_decision. Defined.

Definition source_as_str (s : ResponseSource) : list Z :=
  match s with
  | Synth => lit "synth" | SCache => lit "cache" | SStale => lit "stale"
  | SUpstream => lit "upstream" | Failed => lit "failed" | FailureCached => lit "failure_cached"
  end.

Definition source_from_db (s : list Z) : option ResponseSource :=
  if str_eqb s (lit "synth") then Some Synth
  else if str_eqb s (lit "cache") then Some SCache
  else if str_eqb s (lit "stale") then Some SStale
  else if str_eqb s (lit "upstream") then Some SUpstream
  else if str_eqb s (lit "failed") then Some Failed
  else if str_eqb s (lit "failure_cached") then Some FailureCached
  else None.

Record QueryRecord := mkQueryRecord {
  q_ts : Z;
  q_client : IpAddr;
  q_qname : list Z;
  q_qtype : Z;
  q_verdict : VerdictKind;
  q_rule : option (list Z);
  q_list : option Z;
  q_source : ResponseSource;
  q_rcode : Z;
  q_duration_us : Z
}.

Record DivergenceRow := mkDivergence {
  d_ts : Z;
  d_qname : list Z;
  d_qtype : Z;
  d_ours : list Z;
  d_theirs : list Z;
  d_class : list Z
}.

Inductive LogEvent := LQuery (q : QueryRecord) | LDivergence (d : DivergenceRow).

(** A flush carries the number of its waiter. *)
Inductive Msg := MEvent (e : LogEvent) | MFlush (ack : nat).

Definition WRITER_QUEUE_CAPACITY : Z := 4096.
Definition BATCH_SIZE : Z := 256.

(** ** The writer handle: a bounded queue and the drop counter *)
Record DbWriter := mkWriter {
  w_queue : list Msg;
  w_capacity : Z;
  w_open : bool;      (* the writer thread still holds the receiver *)
  w_drops : Z
}.

Definition writer_new (capacity : Z) : DbWriter := mkWriter [] capacity true 0.

(** [mpsc::Sender::try_send] *)
Definition try_send (w : DbWriter) (m : Msg) : option DbWriter :=
  if w_open w && (len (w_queue w) <? w_capacity w)
  then Some (mkWriter (w_queue w ++ [m]) (w_capacity w) (w_open w) (w_drops w)) else None.

(** [AtomicU64::fetch_add] wraps. *)
Definition log (w : DbWriter) (event : LogEvent) : bool * DbWriter :=
  match try_send w (MEvent event) with
  | Some w => (true, w)
  | None => (false, mkWriter (w_queue w) (w_capacity w) (w_open w) ((w_drops w + 1) mod (u64_max + 1)))
  end.

Definition dropped (w : DbWriter) : Z := w_drops w.

(** ** Tables *)
Record QueryRow := mkQueryRow {
  row_id : Z;
  row_ts : Z;
  row_client : list Z;
  row_qname : list Z;
  row_qtype : Z;
  row_verdict : list Z;
  row_rule : option (list Z);
  row_list : option Z;
  row_source : list Z;
  row_rcode : Z;
  row_duration_us : Z
}.

Record Heartbeat := mkHeartbeat {
  hb_pid : Z; hb_started_ts : Z; hb_updated_ts : Z; hb_config_hash : list Z; hb_lists_hash : list Z
}.

Record DaemonStats := mkDaemonStats {
  ds_updated_ts : Z;
  ds_log_events_dropped : Z;
  ds_log_events_dropped_recent : Z;
  ds_upstreams_json : list Z;
  ds_runtime_json : list Z
}.

(** The shape an older binary may have left: the columns of
    [daemon_stats] and whether the [verdict] check knows [rewritten]. *)
Record Shape := mkShape { has_recent : bool; has_runtime : bool; knows_rewritten : bool }.

Record Tables := mkTables {
  t_version : option (list Z);             (* meta.schema_version *)
  t_shape : Shape;
  t_queries : list QueryRow;
  t_next_query : Z;                        (* AUTOINCREMENT *)
  t_heartbeat : option Heartbeat;
  t_stats : option DaemonStats;            (* the u64 counters as stored, in i64 *)
  t_divergences : list (Z * DivergenceRow);
  t_next_divergence : Z
}.

Definition set_queries (t : Tables) (l : list QueryRow) (next : Z) : Tables :=
  mkTables (t_version t) (t_shape t) l next (t_heartbeat t) (t_stats t) (t_divergences t) (t_next_divergence t).
Definition set_divergences (t : Tables) (l : list (Z * DivergenceRow)) (next : Z) : Tables :=
  mkTables (t_version t) (t_shape t) (t_queries t) (t_next_query t) (t_heartbeat t) (t_stats t) l next.
Definition set_heartbeat (t : Tables) (h : Heartbeat) : Tables :=
  mkTables (t_version t) (t_shape t) (t_queries t) (t_next_query t) (Some h) (t_stats t) (t_divergences t) (t_next_divergence t).
Definition set_stats (t : Tables) (s : DaemonStats) : Tables :=
  mkTables (t_version t) (t_shape t) (t_queries t) (t_next_query t) (t_heartbeat t) (Some s) (t_divergences t) (t_next_divergence t).
Definition set_version (t : Tables) (v : list Z) : Tables :=
  mkTables (Some v) (t_shape t) (t_queries t) (t_next_query t) (t_heartbeat t) (t_stats t) (t_divergences t) (t_next_divergence t).

(** [Display] of [IpAddr]: a parameter of the rows' text. *)
Class IpDisplay := { ip_to_string : IpAddr -> list Z }.

(** [Display] of [SocketAddr]. *)
Definition socket_addr_to_string `{IpDisplay} (ip : IpAddr) (port : Z) : list Z :=
  match ip with
  | V4 _ => ip_to_string ip ++ [c_colon] ++ to_string port
  | V6 _ => lit "[" ++ ip_to_string ip ++ lit "]:" ++ to_string port
  end.

(** [x.cast_signed()] and [x.cast_unsigned()] of 64-bit integers. *)
Definition cast_signed (x : Z) : Z := if x <=? i64_max then x else x - (u64_max + 1).
Definition cast_unsigned (x : Z) : Z := if 0 <=? x then x else x + (u64_max + 1).
Definition i64_try_from (n : Z) : option Z := try_from i64_max n.

(** [ORDER BY count DESC]: SQL leaves the order of ties, and of the groups
    before it, open. *)
Class SqlOrder := {
  order_by_count : list (list Z * Z) -> list (list Z * Z);
  order_by_count_perm : forall l, order_by_count l ≡ₚ l;
  order_by_count_sorted : forall l, StronglySorted (fun a b => snd b <= snd a) (order_by_count l)
}.

Section Db.
Context `{IpDisplay} `{SqlOrder}.

(** The ten bound parameters of the INSERT statement. *)
Definition row_of_query (i : Z) (q : QueryRecord) : QueryRow :=
  mkQueryRow i (q_ts q) (ip_to_string (q_client q)) (q_qname q) (q_qtype q) (verdict_as_str (q_verdict q))
    (q_rule q) ((fun l => default i64_max (i64_try_from l)) <$> q_list q) (source_as_str (q_source q))
    (q_rcode q) (q_duration_us q).

(** The CHECK constraint of the [verdict] column. *)
Definition verdict_check (sh : Shape) (v : list Z) : bool :=
  existsb (str_eqb v) [lit "allowed"; lit "blocked"; lit "excepted"]
  || (knows_rewritten sh && str_eqb v (lit "rewritten")).

Definition insert_query (t : Tables) (q : QueryRecord) : option Tables :=
  let row := row_of_query (t_next_query t) q in
  if verdict_check (t_shape t) (row_verdict row)
  then Some (set_queries t (t_queries t ++ [row]) (t_next_query t + 1)) else None.

Definition insert_divergence (t : Tables) (d : DivergenceRow) : Tables :=
  set_divergences t (t_divergences t ++ [(t_next_divergence t, d)]) (t_next_divergence t + 1).

(** [process_batch_inner]: one transaction. [fails i] says that the i-th
    statement fails; a failure leaves the tables as they were and returns
    the acknowledgements collected so far (the others are dropped with the
    batch, which releases their waiters too). *)
Fixpoint batch_loop (fails : nat -> bool) (i : nat) (t : Tables) (batch : list Msg) (acks : list nat)
  : option Tables * list nat :=
  match batch with
  | [] => (if fails i then None else Some t, acks)          (* tx.commit() *)
  | MEvent (LQuery q) :: batch =>
      if fails i then (None, acks)
      else match insert_query t q with
           | Some t => batch_loop fails (S i) t batch acks
           | None => (None, acks)
           end
  | MEvent (LDivergence d) :: batch =>
      if fails i then (None, acks) else batch_loop fails (S i) (insert_divergence t d) batch acks
  | MFlush a :: batch => batch_loop fails i t batch (acks ++ [a])
  end.

(** [process_batch] and the error arm of [writer_loop]: the tables after
    the batch, whether it committed, and the flushes acknowledged. *)
Definition process_batch (fails : nat -> bool) (t : Tables) (batch : list Msg) : Tables * bool * list nat :=
  if fails 0%nat then (t, false, [])                        (* unchecked_transaction *)
  else match batch_loop fails 1 t batch [] with
       | (Some t', acks) => (t', true, acks)
       | (None, acks) => (t, false, acks)
       end.

(** One turn of [writer_loop]: the first message and what else is queued,
    [BATCH_SIZE] at most. [None] while the queue is empty. *)
Definition writer_turn (fails : nat -> bool) (w : DbWriter) (t : Tables) : option (DbWriter * Tables * bool * list nat) :=
  match w_queue w with
  | [] => None
  | _ =>
      let batch := take (Z.to_nat BATCH_SIZE) (w_queue w) in
      let w := mkWriter (drop (Z.to_nat BATCH_SIZE) (w_queue w)) (w_capacity w) (w_open w) (w_drops w) in
      let '(t, ok, acks) := process_batch fails t batch in
      Some (w, t, ok, acks)
  end.

(** ** Reads *)

(** [row_to_query_record]: [None] is a conversion error. *)
Definition row_to_query_record (r : QueryRow) : option QueryRecord :=
  client ← parse_ip (row_client r);
  qtype ← try_from u16_max (row_qtype r);
  verdict ← verdict_from_db (row_verdict r);
  let list := (fun l => default usize_max (try_from usize_max l)) <$> row_list r in
  source ← source_from_db (row_source r);
  rc ← try_from u16_max (row_rcode r);
  duration ← try_from u32_max (row_duration_us r);
  Some (mkQueryRecord (row_ts r) client (row_qname r) qtype verdict (row_rule r) list source rc duration).

(** [ORDER BY ts DESC, id DESC]: insertion in order; ties by id. *)
Definition row_newer (a b : QueryRow) : bool :=
  (row_ts b <? row_ts a) || ((row_ts b =? row_ts a) && (row_id b <? row_id a)).
Fixpoint insert_row (r : QueryRow) (l : list QueryRow) : list QueryRow :=
  match l with
  | [] => [r]
  | x :: l' => if row_newer r x then r :: l else x :: insert_row r l'
  end.
Definition order_rows (l : list QueryRow) : list QueryRow := fold_right insert_row [] l.

Definition recent_queries (t : Tables) (limit : Z) : option (list QueryRecord) :=
  mapM row_to_query_record (take (Z.to_nat limit) (order_rows (t_queries t))).

Record Stats := mkStats {
  total : Z; blocked : Z; excepted : Z; rewritten : Z; cache_hits : Z; stale_hits : Z;
  upstream_failures : Z; failure_cached : Z;
  top_queried : list (list Z * Z); top_blocked : list (list Z * Z)
}.

Definition count_rows (f : QueryRow -> bool) (l : list QueryRow) : Z := len (List.filter f l).

(** [SELECT name, COUNT( * ) .. GROUP BY name]: one row per name. *)
Definition occurrences (name : list Z) (names : list (list Z)) : Z := len (List.filter (str_eqb name) names).
Definition group_count (names : list (list Z)) : list (list Z * Z) :=
  map (fun name => (name, occurrences name names)) (remove_dups names).

(** The closure [top_list] on the grouped rows. *)
Definition top_list (names : list (list Z)) : list (list Z * Z) :=
  map (fun r => (fst r, default 0 (try_from u64_max (snd r)))) (take 10 (order_by_count (group_count names))).

Definition stats (t : Tables) (since_ts : Z) : Stats :=
  let rows := List.filter (fun r => since_ts <=? row_ts r) (t_queries t) in
  let n v := count_rows (fun r => str_eqb (row_verdict r) (lit v)) rows in
  let m s := count_rows (fun r => str_eqb (row_source r) (lit s)) rows in
  mkStats (len rows) (n "blocked"%string) (n "excepted"%string) (n "rewritten"%string)
    (m "cache"%string) (m "stale"%string) (m "failed"%string) (m "failure_cached"%string)
    (top_list (map row_qname rows))
    (top_list (map row_qname (List.filter (fun r => str_eqb (row_verdict r) (lit "blocked")) rows))).

(** [divergence_summary]: [unsigned_abs] of a count is the count. *)
Definition divergence_summary (t : Tables) (since_ts : Z) : list (list Z * Z) :=
  map (fun r => (fst r, Z.abs (snd r)))
    (order_by_count (group_count (map d_class (List.filter (fun d => since_ts <=? d_ts d) (map snd (t_divergences t)))))).

Definition recent_divergences (t : Tables) (limit : Z) : list DivergenceRow :=
  map (fun x => mkDivergence (d_ts x) (d_qname x) (default 0 (try_from u16_max (d_qtype x)))
                  (d_ours x) (d_theirs x) (d_class x))
    (take (Z.to_nat limit) (reverse (map snd (t_divergences t)))).

(** [retention_sweep]: rows older than the window go; the count deleted. *)
Definition retention_sweep (t : Tables) (now_ts : Z) : Z * Tables :=
  let cutoff := now_ts - LOG_RETENTION_SECS in
  let q := List.filter (fun r => negb (row_ts r <? cutoff)) (t_queries t) in
  let d := List.filter (fun r => negb (d_ts (snd r) <? cutoff)) (t_divergences t) in
  ((len (t_queries t) - len q) + (len (t_divergences t) - len d),
   set_divergences (set_queries t q (t_next_query t)) d (t_next_divergence t)).

Definition write_heartbeat (t : Tables) (hb : Heartbeat) : Tables := set_heartbeat t hb.
Definition heartbeat (t : Tables) : option Heartbeat :=
  (fun h => mkHeartbeat (default 0 (try_from u32_max (hb_pid h))) (hb_started_ts h) (hb_updated_ts h)
              (hb_config_hash h) (hb_lists_hash h)) <$> t_heartbeat t.

Definition write_daemon_stats (t : Tables) (s : DaemonStats) : Tables :=
  set_stats t (mkDaemonStats (ds_updated_ts s) (cast_signed (ds_log_events_dropped s))
                 (cast_signed (ds_log_events_dropped_recent s)) (ds_upstreams_json s) (ds_runtime_json s)).

(** [write_runtime]: an upsert that keeps the counters. *)
Definition write_runtime (t : Tables) (updated_ts : Z) (runtime_json : list Z) : Tables :=
  match t_stats t with
  | None => set_stats t (mkDaemonStats updated_ts 0 0 (lit "{}") runtime_json)
  | Some s => set_stats t (mkDaemonStats updated_ts (ds_log_events_dropped s) (ds_log_events_dropped_recent s)
                             (ds_upstreams_json s) runtime_json)
  end.

Definition daemon_stats (t : Tables) : option DaemonStats :=
  (fun s => mkDaemonStats (ds_updated_ts s) (cast_unsigned (ds_log_events_dropped s))
              (cast_unsigned (ds_log_events_dropped_recent s)) (ds_upstreams_json s) (ds_runtime_json s)) <$> t_stats t.
End Db.

(** ** Schema *)
Definition SCHEMA_VERSION : Z := 4.

(** [rusqlite]'s own errors as their text. *)
Inductive DbError :=
| OpenFailed (path source : list Z)
| Sql (e : list Z)
| SchemaTooNew (found supported : Z).

Definition db_error_text (e : DbError) : list Z :=
  match e with
  | OpenFailed path source => lit "cannot open database " ++ path ++ lit ": " ++ source
  | Sql e => lit "sql: " ++ e
  | SchemaTooNew found supported =>
      lit "database schema v" ++ to_string found ++ lit " is newer than supported v" ++ to_string supported
  end.

Definition set_shape (t : Tables) (sh : Shape) : Tables :=
  mkTables (t_version t) sh (t_queries t) (t_next_query t) (t_heartbeat t) (t_stats t) (t_divergences t) (t_next_divergence t).

(** [ALTER TABLE .. ADD COLUMN .. DEFAULT ..] fills the row there is. *)
Definition fill_recent (s : DaemonStats) : DaemonStats :=
  mkDaemonStats (ds_updated_ts s) (ds_log_events_dropped s) 0 (ds_upstreams_json s) (ds_runtime_json s).
Definition fill_runtime (s : DaemonStats) : DaemonStats :=
  mkDaemonStats (ds_updated_ts s) (ds_log_events_dropped s) (ds_log_events_dropped_recent s) (ds_upstreams_json s) (lit "{}").

(** The id after the largest. *)
Definition next_id (rows : list QueryRow) : Z := 1 + foldr (fun r n => Z.max (row_id r) n) 0 rows.

Definition add_recent (t : Tables) : Tables :=
  let sh := t_shape t in
  if has_recent sh then t
  else match t_stats t with
       | Some s => set_stats (set_shape t (mkShape true (has_runtime sh) (knows_rewritten sh))) (fill_recent s)
       | None => set_shape t (mkShape true (has_runtime sh) (knows_rewritten sh))
       end.
Definition add_runtime (t : Tables) : Tables :=
  let sh := t_shape t in
  if has_runtime sh then t
  else match t_stats t with
       | Some s => set_stats (set_shape t (mkShape (has_recent sh) true (knows_rewritten sh))) (fill_runtime s)
       | None => set_shape t (mkShape (has_recent sh) true (knows_rewritten sh))
       end.
(** The v3 rebuild copies every row and id; the new table counts on from
    the largest. *)
Definition rebuild_queries (t : Tables) : Tables :=
  let sh := t_shape t in
  if knows_rewritten sh then t
  else set_queries (set_shape t (mkShape (has_recent sh) (has_runtime sh) true)) (t_queries t) (next_id (t_queries t)).

(** What [migrate_schema] comes to (its statements are in [Schema]): each
    step adds what its version added, if missing. *)
Definition migrated (t : Tables) (from : Z) : Tables :=
  let t := if from <? 2 then add_recent t else t in
  let t := if from <? 3 then rebuild_queries t else t in
  if from <? 4 then add_runtime t else t.

Definition versioned (t : Tables) : Tables + DbError :=
  match t_version t with
  | Some v =>
      let found := default 0 (parse_uint u32_max v) in
      if SCHEMA_VERSION <? found then inr (SchemaTooNew found SCHEMA_VERSION)
      else if found <? SCHEMA_VERSION
           then inl (set_version (migrated t found) (to_string SCHEMA_VERSION))
           else inl t
  | None => inl (set_version t (to_string SCHEMA_VERSION))
  end.

(** A new file: every table in its current shape. *)
Definition with_tables (t : option Tables) : Tables :=
  match t with
  | Some t => t
  | None => mkTables None (mkShape true true true) [] 1 None None [] 1
  end.

(** What [Db::open] comes to on a file that may exist, when no statement
    fails ([Schema] has the statements). *)
Definition db_open (file : option Tables) : Tables + DbError := versioned (with_tables file).
