(* ===== verification/DbSpec.v ===== *)
(** * DbSpec: the query log keeps what it accepted

    The accounting of events between the queue, the tables and the two ways
    of losing one; rows and enumerations read back as written; the order of
    [recent_queries]; retention. *)
From S2P Require Import Prelude Text Num IpAddr Db.

(** ** Text forms *)
Lemma verdict_from_as v : verdict_from_db (verdict_as_str v) = Some v.
Proof. by destruct v. Qed.
Lemma source_from_as s : source_from_db (source_as_str s) = Some s.
Proof. by destruct s. Qed.

(** ** Rows *)
Section Rows.
Context `{IpDisplay}.

(** The machine ranges of a record, and an address that prints back. *)
Definition record_ok (q : QueryRecord) : Prop :=
  parse_ip (ip_to_string (q_client q)) = Some (q_client q)
  /\ 0 <= q_qtype q <= u16_max /\ 0 <= q_rcode q <= u16_max /\ 0 <= q_duration_us q <= u32_max
  /\ (forall l, q_list q = Some l -> 0 <= l <= usize_max).

(** A list index beyond [i64::MAX] is stored as [i64::MAX]. *)
Definition clamp_list (q : QueryRecord) : QueryRecord :=
  mkQueryRecord (q_ts q) (q_client q) (q_qname q) (q_qtype q) (q_verdict q) (q_rule q)
    (Z.min i64_max <$> q_list q) (q_source q) (q_rcode q) (q_duration_us q).

Lemma list_column l :
  0 <= l <= usize_max ->
  default usize_max (try_from usize_max (default i64_max (i64_try_from l))) = Z.min i64_max l.
Proof.
  intros Hl. unfold i64_try_from. destruct (decide (l <= i64_max)) as [Hle|Hgt].
  - rewrite (try_from_Some i64_max l) by lia. cbn [from_option]. unfold id. rewrite try_from_Some by lia. cbn [from_option]. unfold id. lia.
  - replace (try_from i64_max l) with (@None Z) by (unfold try_from; by zguard).
    cbn [from_option]. rewrite try_from_Some by (unfold usize_max, u64_max, i64_max in *; lia). cbn [from_option]. unfold id. lia.
Qed.

Lemma row_roundtrip i q :
  record_ok q -> row_to_query_record (row_of_query i q) = Some (clamp_list q).
Proof.
  intros (Hip & Ht & Hr & Hd & Hl). unfold row_to_query_record, row_of_query, clamp_list.
  cbn [row_client row_qtype row_verdict row_list row_source row_rcode row_duration_us row_ts row_qname row_rule].
  rewrite Hip, (try_from_Some u16_max (q_qtype q)), verdict_from_as, source_from_as,
    (try_from_Some u16_max (q_rcode q)), (try_from_Some u32_max) by lia.
  cbn [mbind option_bind]. do 2 f_equal. destruct (q_list q) as [l|]; [|done].
  cbn [fmap option_fmap option_map]. f_equal. apply list_column. by apply Hl.
Qed.

(** ** Batches *)
Definition batch_queries (batch : list Msg) : list QueryRecord :=
  omap (fun m => match m with MEvent (LQuery q) => Some q | _ => None end) batch.
Definition batch_divergences (batch : list Msg) : list DivergenceRow :=
  omap (fun m => match m with MEvent (LDivergence d) => Some d | _ => None end) batch.
Definition batch_flushes (batch : list Msg) : list nat :=
  omap (fun m => match m with MFlush a => Some a | _ => None end) batch.

(** Rows numbered from [i]. *)
Definition number_rows (i : Z) (qs : list QueryRecord) : list QueryRow :=
  imap (fun k q => row_of_query (i + Z.of_nat k) q) qs.
Definition number_divergences (i : Z) (ds : list DivergenceRow) : list (Z * DivergenceRow) :=
  imap (fun k d => (i + Z.of_nat k, d)) ds.

Definition append_batch (t : Tables) (batch : list Msg) : Tables :=
  set_divergences
    (set_queries t (t_queries t ++ number_rows (t_next_query t) (batch_queries batch))
       (t_next_query t + len (batch_queries batch)))
    (t_divergences t ++ number_divergences (t_next_divergence t) (batch_divergences batch))
    (t_next_divergence t + len (batch_divergences batch)).

Lemma number_rows_cons i q qs : number_rows i (q :: qs) = row_of_query i q :: number_rows (i + 1) qs.
Proof.
  unfold number_rows. rewrite imap_cons. f_equal; [f_equal; lia|]. apply imap_ext. intros k x _. cbn. f_equal. lia.
Qed.
Lemma number_divergences_cons i d ds : number_divergences i (d :: ds) = (i, d) :: number_divergences (i + 1) ds.
Proof.
  unfold number_divergences. rewrite imap_cons. f_equal; [f_equal; lia|]. apply imap_ext. intros k x _. cbn. f_equal. lia.
Qed.

Lemma append_batch_nil t : append_batch t [] = t.
Proof. destruct t. unfold append_batch, set_queries, set_divergences, len. cbn. by rewrite !app_nil_r, !Z.add_0_r. Qed.

Lemma append_batch_query t q batch :
  append_batch t (MEvent (LQuery q) :: batch)
  = append_batch (set_queries t (t_queries t ++ [row_of_query (t_next_query t) q]) (t_next_query t + 1)) batch.
Proof.
  unfold append_batch. change (batch_queries (MEvent (LQuery q) :: batch)) with (q :: batch_queries batch).
  change (batch_divergences (MEvent (LQuery q) :: batch)) with (batch_divergences batch).
  rewrite number_rows_cons, len_cons. cbn [set_queries t_queries t_next_query].
  rewrite <- app_assoc, Z.add_assoc. done.
Qed.

Lemma append_batch_divergence t d batch :
  append_batch t (MEvent (LDivergence d) :: batch) = append_batch (insert_divergence t d) batch.
Proof.
  unfold append_batch. change (batch_queries (MEvent (LDivergence d) :: batch)) with (batch_queries batch).
  change (batch_divergences (MEvent (LDivergence d) :: batch)) with (d :: batch_divergences batch).
  rewrite number_divergences_cons, len_cons. unfold insert_divergence.
  cbn [set_divergences set_queries t_divergences t_next_divergence].
  rewrite <- app_assoc, Z.add_assoc. done.
Qed.

Lemma verdict_check_ok sh v : knows_rewritten sh = true -> verdict_check sh (verdict_as_str v) = true.
Proof. intros Hk. unfold verdict_check. rewrite Hk. by destruct v. Qed.

(** A transaction stores the whole batch in order or nothing. *)
Lemma batch_loop_spec fails i t batch acks t' acks' :
  knows_rewritten (t_shape t) = true ->
  batch_loop fails i t batch acks = (Some t', acks') ->
  t' = append_batch t batch /\ acks' = acks ++ batch_flushes batch.
Proof.
  revert i t acks. induction batch as [|m batch IH]; intros i t acks Hk; cbn [batch_loop].
  - destruct (fails i); [done|]. intros [= <- <-]. by rewrite append_batch_nil, app_nil_r.
  - destruct m as [[q|d]|a].
    + destruct (fails i); [done|]. unfold insert_query.
      replace (verdict_check _ _) with true by (symmetry; by apply verdict_check_ok).
      intros Hl. apply IH in Hl as (-> & ->); [|done]. by rewrite append_batch_query.
    + destruct (fails i); [done|]. intros Hl. apply IH in Hl as (-> & ->); [|done]. by rewrite append_batch_divergence.
    + intros Hl. apply IH in Hl as (-> & ->); [|done]. split; [done|]. cbn. by rewrite <- app_assoc.
Qed.

(** Without a failing statement the batch commits. *)
Lemma batch_loop_commits fails i t batch acks :
  knows_rewritten (t_shape t) = true -> (forall k, fails k = false) ->
  fst (batch_loop fails i t batch acks) <> None.
Proof.
  intros Hk Hf. revert i t acks Hk. induction batch as [|m batch IH]; intros i t acks Hk; cbn [batch_loop].
  - by rewrite Hf.
  - destruct m as [[q|d]|a]; [|rewrite Hf; by apply IH|by apply IH].
    rewrite Hf. unfold insert_query. replace (verdict_check _ _) with true by (symmetry; by apply verdict_check_ok).
    by apply IH.
Qed.
End Rows.

(** ** Accounting *)
Section Accounting.
Context `{IpDisplay}.

(** What happens to the log: an event is offered, a flush is queued, the
    writer takes a batch ([fails] says which statements fail). *)
Inductive LogOp := OpLog (e : LogEvent) | OpFlush (a : nat) | OpTurn (fails : nat -> bool).

(** The log with its history: events offered, batches committed, batches
    lost, flushes acknowledged. *)
Record Ledger := mkLedger {
  l_writer : DbWriter;
  l_tables : Tables;
  l_accepted : list Msg;
  l_rejected : nat;
  l_batches : list (bool * list Msg);
  l_acked : list nat
}.

Definition ledger_new (capacity : Z) (t : Tables) : Ledger := mkLedger (writer_new capacity) t [] 0 [] [].

Definition log_step (s : Ledger) (o : LogOp) : Ledger :=
  match o with
  | OpLog e =>
      let '(ok, w) := log (l_writer s) e in
      if ok then mkLedger w (l_tables s) (l_accepted s ++ [MEvent e]) (l_rejected s) (l_batches s) (l_acked s)
      else mkLedger w (l_tables s) (l_accepted s) (S (l_rejected s)) (l_batches s) (l_acked s)
  | OpFlush a =>
      match try_send (l_writer s) (MFlush a) with
      | Some w => mkLedger w (l_tables s) (l_accepted s ++ [MFlush a]) (l_rejected s) (l_batches s) (l_acked s)
      | None => s
      end
  | OpTurn fails =>
      match writer_turn fails (l_writer s) (l_tables s) with
      | Some (w, t, ok, acks) =>
          mkLedger w t (l_accepted s) (l_rejected s)
            (l_batches s ++ [(ok, take (Z.to_nat BATCH_SIZE) (w_queue (l_writer s)))]) (l_acked s ++ acks)
      | None => s
      end
  end.

Definition committed (bs : list (bool * list Msg)) : list Msg := concat (map snd (List.filter fst bs)).

(** The accounting invariant, from tables [t0] and capacity [cap]. *)
Record balanced (t0 : Tables) (cap : Z) (s : Ledger) : Prop := {
  bal_queue : len (w_queue (l_writer s)) <= cap;
  bal_cap : w_capacity (l_writer s) = cap /\ w_open (l_writer s) = true;
  bal_drops : w_drops (l_writer s) = Z.of_nat (l_rejected s) mod (u64_max + 1);
  bal_order : l_accepted s = concat (map snd (l_batches s)) ++ w_queue (l_writer s);
  bal_tables : l_tables s = append_batch t0 (committed (l_batches s));
  bal_acked : forall a, a ∈ batch_flushes (committed (l_batches s)) -> a ∈ l_acked s
}.

Lemma number_rows_app i a b : number_rows i (a ++ b) = number_rows i a ++ number_rows (i + len a) b.
Proof.
  revert i. induction a as [|q a IH]; intros i; cbn [app].
  - rewrite len_nil, Z.add_0_r. done.
  - rewrite !number_rows_cons, IH, len_cons. cbn [app]. do 3 f_equal. lia.
Qed.
Lemma number_divergences_app i a b :
  number_divergences i (a ++ b) = number_divergences i a ++ number_divergences (i + len a) b.
Proof.
  revert i. induction a as [|q a IH]; intros i; cbn [app].
  - rewrite len_nil, Z.add_0_r. done.
  - rewrite !number_divergences_cons, IH, len_cons. cbn [app]. do 3 f_equal. lia.
Qed.

Lemma append_batch_app t a b : append_batch t (a ++ b) = append_batch (append_batch t a) b.
Proof.
  unfold append_batch, batch_queries, batch_divergences. rewrite !omap_app.
  rewrite number_rows_app, number_divergences_app, !len_app, !Z.add_assoc, !app_assoc. done.
Qed.

Lemma committed_snoc bs ok b : committed (bs ++ [(ok, b)]) = committed bs ++ (if ok then b else []).
Proof.
  unfold committed. rewrite List.filter_app, map_app, concat_app. f_equal. destruct ok; cbn; by rewrite ?app_nil_r.
Qed.

Lemma process_batch_spec fails t batch t' ok acks :
  knows_rewritten (t_shape t) = true -> process_batch fails t batch = (t', ok, acks) ->
  if ok then t' = append_batch t batch /\ acks = batch_flushes batch else t' = t.
Proof.
  intros Hk. unfold process_batch. destruct (fails 0%nat); [intros [= <- <- <-]; done|].
  destruct (batch_loop fails 1 t batch []) as [[t1|] acks1] eqn:E; intros [= <- <- <-]; [|done].
  apply batch_loop_spec in E as (-> & ->); [done|done].
Qed.

Lemma append_batch_shape t b : t_shape (append_batch t b) = t_shape t.
Proof. done. Qed.

Lemma log_step_balanced t0 cap s o :
  0 <= cap -> knows_rewritten (t_shape t0) = true -> balanced t0 cap s -> balanced t0 cap (log_step s o).
Proof.
  intros Hc Hk [Hq (Hcap & Hop) Hd Ho Ht Ha]. destruct s as [w t acc rej bs acked].
  cbn [l_writer l_tables l_accepted l_rejected l_batches l_acked] in *.
  destruct o as [e|a|fails]; cbn [log_step l_writer l_tables l_accepted l_rejected l_batches l_acked].
  - unfold log, try_send. rewrite Hop, Hcap. cbn [andb]. destruct (Z.ltb_spec (len (w_queue w)) cap); cbn.
    + split; cbn; [rewrite len_app; unfold len in *; cbn; lia|done|done|by rewrite Ho, app_assoc|done|done].
    + split; cbn; [done..| |done|done|done]. rewrite Hd, Zplus_mod_idemp_l. f_equal. lia.
  - unfold try_send. rewrite Hop, Hcap. cbn [andb]. destruct (Z.ltb_spec (len (w_queue w)) cap); cbn; [|by split].
    split; cbn; [rewrite len_app; unfold len in *; cbn; lia|done|done|by rewrite Ho, app_assoc|done|done].
  - unfold writer_turn. destruct (w_queue w) as [|m q] eqn:Eq; [split; cbn; by rewrite ?Eq|]. rewrite <- Eq in *.
    destruct (process_batch _ _ _) as [[t' ok] acks] eqn:E. cbn.
    assert (Hkt : knows_rewritten (t_shape t) = true) by (by rewrite Ht).
    pose proof (process_batch_spec _ _ _ _ _ _ Hkt E) as Hp.
    split; cbn [l_writer l_tables l_accepted l_rejected l_batches l_acked w_queue w_capacity w_open w_drops].
    + unfold len in *. rewrite length_drop. lia.
    + done.
    + done.
    + rewrite map_app, concat_app, Ho, <- app_assoc. f_equal. cbn [map snd concat]. by rewrite app_nil_r, take_drop.
    + rewrite committed_snoc. destruct ok; [|by rewrite app_nil_r, Hp]. by rewrite append_batch_app, <- Ht; apply Hp.
    + intros a. rewrite committed_snoc. unfold batch_flushes. rewrite omap_app, elem_of_app, elem_of_app.
      intros [Hin|Hin]; [left; by apply Ha|]. right. destruct ok; [|by apply elem_of_nil in Hin]. by destruct Hp as (_ & ->).
Qed.

Lemma ledger_new_balanced cap t : 0 <= cap -> balanced t cap (ledger_new cap t).
Proof.
  intros Hc. split; cbn; [done|done|done|done| |].
  - unfold committed. cbn. by rewrite append_batch_nil.
  - intros a Hin. by apply elem_of_nil in Hin.
Qed.

Lemma ledger_balanced cap t ops :
  0 <= cap -> knows_rewritten (t_shape t) = true ->
  balanced t cap (fold_left log_step ops (ledger_new cap t)).
Proof.
  intros Hc Hk. assert (Hgen : forall s, balanced t cap s -> balanced t cap (fold_left log_step ops s)).
  { induction ops as [|o ops IH]; intros s Hs; [done|]. cbn. apply IH. by apply log_step_balanced. }
  apply Hgen. by apply ledger_new_balanced.
Qed.
End Accounting.

(** ** Order, counters, retention *)
Definition newer (a b : QueryRow) : Prop := row_ts b < row_ts a \/ (row_ts b = row_ts a /\ row_id b <= row_id a).

Lemma insert_row_perm r l : insert_row r l ≡ₚ r :: l.
Proof.
  induction l as [|x l IH]; cbn [insert_row]; [done|]. destruct (row_newer r x); [done|].
  rewrite IH. apply Permutation_swap.
Qed.

Lemma order_rows_perm l : order_rows l ≡ₚ l.
Proof. induction l as [|r l IH]; cbn; [done|]. by rewrite insert_row_perm, IH. Qed.

Lemma newer_trans a b c : newer a b -> newer b c -> newer a c.
Proof. unfold newer. lia. Qed.

Lemma row_newer_cases a b : if row_newer a b then newer a b else newer b a.
Proof.
  unfold row_newer, newer. destruct (Z.ltb_spec (row_ts b) (row_ts a)); cbn [orb]; [lia|].
  destruct (Z.eqb_spec (row_ts b) (row_ts a)); cbn [andb]; [|lia].
  destruct (Z.ltb_spec (row_id b) (row_id a)); lia.
Qed.

Lemma insert_row_sorted r l : StronglySorted newer l -> StronglySorted newer (insert_row r l).
Proof.
  induction 1 as [|x l Hs IH Hx]; cbn [insert_row]; [by repeat constructor|].
  pose proof (row_newer_cases r x) as Hc. destruct (row_newer r x).
  - constructor; [by constructor|]. constructor; [done|]. eapply Forall_impl; [exact Hx|].
    intros y. by apply newer_trans.
  - constructor; [done|]. rewrite insert_row_perm. by constructor.
Qed.

Lemma order_rows_sorted l : StronglySorted newer (order_rows l).
Proof. induction l as [|r l IH]; cbn; [constructor|]. by apply insert_row_sorted. Qed.

(** ** Reading back what was logged *)
Section ReadBack.
Context `{IpDisplay}.

(** The rows a run of logged records makes, from an empty log. *)
Definition logged (t : Tables) (qs : list QueryRecord) : Tables := append_batch t (map (fun q => MEvent (LQuery q)) qs).

(** A record with its place in the log. *)
Definition place (qs : list QueryRecord) : list (nat * QueryRecord) := imap pair qs.
Definition later (a b : nat * QueryRecord) : Prop :=
  q_ts (snd b) < q_ts (snd a) \/ (q_ts (snd b) = q_ts (snd a) /\ (fst b <= fst a)%nat).
Definition placed_row (i : Z) (p : nat * QueryRecord) : QueryRow := row_of_query (i + Z.of_nat (fst p)) (snd p).

Lemma batch_queries_map qs : batch_queries (map (fun q => MEvent (LQuery q)) qs) = qs.
Proof. induction qs as [|q qs IH]; [done|]. cbn. f_equal. exact IH. Qed.

Lemma logged_rows t qs : t_queries (logged t qs) = t_queries t ++ map (placed_row (t_next_query t)) (place qs).
Proof.
  unfold logged, append_batch. rewrite batch_queries_map. cbn. f_equal. unfold number_rows, place.
  change (map (placed_row (t_next_query t))) with (fmap (M := list) (placed_row (t_next_query t))).
  by rewrite fmap_imap.
Qed.

Lemma place_snd qs : map snd (place qs) = qs.
Proof.
  unfold place. change (map snd) with (fmap (M := list) (@snd nat QueryRecord)). rewrite fmap_imap.
  transitivity (imap (fun _ (q : QueryRecord) => q) qs); [by apply imap_ext|].
  induction qs as [|q qs IH]; [done|]. rewrite imap_cons. f_equal. exact IH.
Qed.

Lemma sorted_map_inv {A B} (f : A -> B) (R : B -> B -> Prop) (S : A -> A -> Prop) l :
  (forall a b, R (f a) (f b) -> S a b) -> StronglySorted R (map f l) -> StronglySorted S l.
Proof.
  intros HRS. induction l as [|a l IH]; cbn; [constructor|]. intros Hs.
  apply StronglySorted_inv in Hs as (Hs & Hf). constructor; [by apply IH|].
  change (map f l) with (f <$> l) in Hf. rewrite Forall_fmap in Hf. eapply Forall_impl; [exact Hf|]. intros b. apply HRS.
Qed.

Lemma mapM_placed i l :
  Forall (fun p => record_ok (snd p)) l ->
  mapM row_to_query_record (placed_row i <$> l) = Some (map (fun p => clamp_list (snd p)) l).
Proof.
  intros Hok. apply mapM_Some_2. apply Forall2_fmap_l.
  change (map (fun p => clamp_list (snd p)) l) with ((fun p => clamp_list (snd p)) <$> l). apply Forall2_fmap_r.
  apply Forall_Forall2_diag. eapply Forall_impl; [exact Hok|]. intros p Hp. by apply row_roundtrip.
Qed.

Lemma filter_map_len {A B} (f : B -> bool) (g : A -> B) l : len (List.filter f (map g l)) = len (List.filter (fun a => f (g a)) l).
Proof. unfold len. f_equal. induction l as [|a l IH]; cbn; [done|]. destruct (f (g a)); cbn; by rewrite IH. Qed.

Lemma filter_place (f : QueryRecord -> bool) qs :
  len (List.filter (fun p => f (snd p)) (place qs)) = len (List.filter f qs).
Proof. rewrite <- (place_snd qs) at 2. by rewrite filter_map_len. Qed.

Lemma filter_filter {A} (f g : A -> bool) l : List.filter f (List.filter g l) = List.filter (fun x => g x && f x) l.
Proof. induction l as [|x l IH]; cbn; [done|]. destruct (g x) eqn:E; cbn; [destruct (f x)|]; by rewrite IH. Qed.

Lemma stats_count i qs since (g : QueryRow -> bool) (f : QueryRecord -> bool) :
  (forall p, g (placed_row i p) = f (snd p)) ->
  len (List.filter g (List.filter (fun r => since <=? row_ts r) (map (placed_row i) (place qs))))
  = len (List.filter (fun q => (since <=? q_ts q) && f q) qs).
Proof.
  intros Hg. rewrite filter_filter, filter_map_len, <- (filter_place (fun q => (since <=? q_ts q) && f q)).
  f_equal. apply List.filter_ext. intros p. by rewrite Hg.
Qed.

(** Disjoint classes count at most the whole. *)
Lemma class_counts {A} `{EqDecision A} (key : QueryRecord -> A) (w : QueryRecord -> bool) (cs : list A) qs :
  NoDup cs ->
  foldr (fun c n => len (List.filter (fun q => w q && bool_decide (key q = c)) qs) + n) 0 cs
  <= len (List.filter (fun q => w q && true) qs).
Proof.
  intros Hnd. induction qs as [|q qs IH]; [clear Hnd; cbn [List.filter]; change (len []) with 0; induction cs; cbn [foldr]; lia|].
  cbn [List.filter]. destruct (w q) eqn:Ew; cbn [andb]; [|exact IH]. rewrite len_cons.
  assert (Hstep : foldr (fun c n => len (if bool_decide (key q = c)
                   then q :: List.filter (fun q => w q && bool_decide (key q = c)) qs
                   else List.filter (fun q => w q && bool_decide (key q = c)) qs) + n) 0 cs
    = foldr (fun c n => len (List.filter (fun q => w q && bool_decide (key q = c)) qs) + n) 0 cs
      + (if bool_decide (key q ∈ cs) then 1 else 0)).
  { clear IH. induction Hnd as [|c cs Hc Hnd IHc]; [done|]. cbn [foldr]. rewrite IHc.
    destruct (decide (key q = c)) as [->|Hne].
    - rewrite bool_decide_eq_true_2 by done. rewrite (bool_decide_eq_true_2 (c ∈ c :: cs)) by left.
      rewrite (bool_decide_eq_false_2 (c ∈ cs)) by done. rewrite len_cons. lia.
    - rewrite bool_decide_eq_false_2 by done.
      rewrite (bool_decide_ext (key q ∈ c :: cs) (key q ∈ cs)) by (rewrite elem_of_cons; tauto). lia. }
  rewrite Hstep. destruct (bool_decide _); lia.
Qed.

Lemma verdict_str_eqb v w : str_eqb (verdict_as_str v) (verdict_as_str w) = bool_decide (v = w).
Proof. by destruct v, w. Qed.
Lemma source_str_eqb v w : str_eqb (source_as_str v) (source_as_str w) = bool_decide (v = w).
Proof. by destruct v, w. Qed.
End ReadBack.

(** ** Properties *)
Section Properties.
Context `{IpDisplay}.

(** C17: no event is lost silently or reordered. Whatever is logged and
    however batches fail, the queue stays within its capacity, the counter
    counts exactly the events that were refused (modulo 2^64), every
    accepted message is in exactly one batch or still queued, in order, and
    the tables hold exactly the events of the committed batches, in order,
    with consecutive ids. *)
Theorem log_accounting capacity t ops :
  0 <= capacity -> knows_rewritten (t_shape t) = true ->
  let s := fold_left log_step ops (ledger_new capacity t) in
  len (w_queue (l_writer s)) <= capacity
  /\ dropped (l_writer s) = Z.of_nat (l_rejected s) mod (u64_max + 1)
  /\ l_accepted s = concat (map snd (l_batches s)) ++ w_queue (l_writer s)
  /\ t_queries (l_tables s)
     = t_queries t ++ number_rows (t_next_query t) (batch_queries (concat (map snd (List.filter fst (l_batches s)))))
  /\ t_divergences (l_tables s)
     = t_divergences t
       ++ number_divergences (t_next_divergence t) (batch_divergences (concat (map snd (List.filter fst (l_batches s)))))
  /\ forall a, MFlush a ∈ concat (map snd (List.filter fst (l_batches s))) -> a ∈ l_acked s.
Proof.
  intros Hc Hk s. destruct (ledger_balanced capacity t ops Hc Hk) as [Hq _ Hd Ho Ht Ha]. fold s in Hq, Hd, Ho, Ht, Ha.
  split; [done|]. split; [done|]. split; [done|]. split; [by rewrite Ht|]. split; [by rewrite Ht|].
  intros a Hin. apply Ha. unfold batch_flushes. apply list_elem_of_omap. by exists (MFlush a).
Qed.

(** [recent_queries] returns the logged records themselves (a list
    index beyond [i64::MAX] clamped), newest first, the later logged first
    among equal times, at most [limit]. *)
Theorem recent_queries_newest_first t qs limit :
  t_queries t = [] -> Forall record_ok qs ->
  exists ps, ps ≡ₚ place qs /\ StronglySorted later ps
    /\ recent_queries (logged t qs) limit = Some (map (fun p => clamp_list (snd p)) (take (Z.to_nat limit) ps)).
Proof.
  intros Ht Hok. set (i := t_next_query t).
  pose proof (logged_rows t qs) as Hrows. rewrite Ht in Hrows. cbn [app] in Hrows.
  assert (Hperm : order_rows (t_queries (logged t qs)) ≡ₚ map (placed_row i) (place qs))
    by (by rewrite order_rows_perm, Hrows).
  apply Permutation_map_inv in Hperm as (ps & Hmap & Hps). symmetry in Hps. exists ps. split; [done|]. split.
  - apply (sorted_map_inv (placed_row i) newer); [|rewrite <- Hmap; apply order_rows_sorted].
    intros a b. unfold newer, later, placed_row, row_of_query. cbn. lia.
  - unfold recent_queries. rewrite Hmap. change (map (placed_row i)) with (fmap (M := list) (placed_row i)).
    rewrite <- fmap_take. apply mapM_placed.
    apply Forall_take. rewrite Hps. apply (Forall_fmap snd record_ok). change (snd <$> place qs) with (map snd (place qs)). by rewrite place_snd.
Qed.

(** A sweep deletes exactly the rows and divergences older than seven
    days, keeps the others in order, reports how many went, and a second
    sweep at the same time deletes nothing. *)
Theorem retention_sweeps_exactly t now :
  let '(n, t') := retention_sweep t now in
  let keep ts := negb (ts <? now - 7 * 86400) in
  t_queries t' = List.filter (fun r => keep (row_ts r)) (t_queries t)
  /\ t_divergences t' = List.filter (fun d => keep (d_ts (snd d))) (t_divergences t)
  /\ n = len (List.filter (fun r => negb (keep (row_ts r))) (t_queries t))
          + len (List.filter (fun d => negb (keep (d_ts (snd d)))) (t_divergences t))
  /\ retention_sweep t' now = (0, t').
Proof.
  unfold retention_sweep. cbn zeta. change LOG_RETENTION_SECS with (7 * 86400).
  assert (Hcount : forall A (f : A -> bool) l, len l - len (List.filter f l) = len (List.filter (fun x => negb (f x)) l)).
  { intros A f l. unfold len. induction l as [|x l IH]; cbn [List.filter length]; [lia|].
    destruct (f x); cbn [negb length]; lia. }
  assert (Hidem : forall A (f : A -> bool) l, List.filter f (List.filter f l) = List.filter f l).
  { intros A f l. rewrite filter_filter. apply List.filter_ext. intros x. by destruct (f x). }
  split; [done|]. split; [done|]. split; [by rewrite !Hcount|].
  cbn [t_queries t_divergences set_divergences set_queries t_next_query t_next_divergence].
  rewrite !Hidem. f_equal. lia.
Qed.

(** A published sample reads back as written (the two 64-bit counters
    pass through signed columns), and a lifecycle report published between
    two samples replaces only the time and the report. *)
Theorem daemon_stats_roundtrip t s ts report :
  0 <= ds_log_events_dropped s <= u64_max -> 0 <= ds_log_events_dropped_recent s <= u64_max ->
  daemon_stats (write_daemon_stats t s) = Some s
  /\ daemon_stats (write_runtime (write_daemon_stats t s) ts report)
     = Some (mkDaemonStats ts (ds_log_events_dropped s) (ds_log_events_dropped_recent s) (ds_upstreams_json s) report).
Proof.
  intros H1 H2.
  assert (Hcast : forall x, 0 <= x <= u64_max -> cast_unsigned (cast_signed x) = x).
  { intros x Hx. unfold cast_unsigned, cast_signed. destruct (Z.leb_spec x i64_max); [by zguard|].
    unfold i64_max, u64_max in *. zguard. lia. }
  unfold daemon_stats, write_runtime, write_daemon_stats. destruct s as [a b c d e]. cbn in *.
  by rewrite !Hcast.
Qed.

End Properties.

(** ** Witnesses *)
#[local] Instance show_v4 : IpDisplay := {| ip_to_string := fun ip =>
  match ip with
  | V4 o => join c_dot (map to_string o)
  | V6 _ => lit "::1"
  end |}.

Definition wit_tables : Tables := with_tables None.
Definition wit_record (ts : Z) (v : VerdictKind) : QueryRecord :=
  mkQueryRecord ts (V4 [192; 168; 1; 10]) (lit "example.com") 1 v None (Some 3) SCache 0 42.

Lemma wit_record_ok ts v : record_ok (wit_record ts v).
Proof.
  split; [vm_compute; reflexivity|]. split; [zcompute|]. split; [zcompute|]. split; [zcompute|].
  intros l [= <-]. zcompute.
Qed.

Lemma log_accounting_witness :
  let s := fold_left log_step
    [OpLog (LQuery (wit_record 1 Allowed)); OpLog (LQuery (wit_record 2 Blocked)); OpTurn (fun _ => false);
     OpLog (LQuery (wit_record 3 Allowed))] (ledger_new 1 wit_tables) in
  dropped (l_writer s) = Z.of_nat (l_rejected s) mod (u64_max + 1).
Proof.
  refine (proj1 (proj2 (log_accounting 1 wit_tables
    [OpLog (LQuery (wit_record 1 Allowed)); OpLog (LQuery (wit_record 2 Blocked)); OpTurn (fun _ => false);
     OpLog (LQuery (wit_record 3 Allowed))] _ _))); [lia|reflexivity].
Defined.

Lemma recent_queries_newest_first_witness :
  exists ps, ps ≡ₚ place [wit_record 5 Allowed; wit_record 9 Blocked] /\ StronglySorted later ps
    /\ recent_queries (logged wit_tables [wit_record 5 Allowed; wit_record 9 Blocked]) 10
       = Some (map (fun p => clamp_list (snd p)) (take (Z.to_nat 10) ps)).
Proof.
  apply (recent_queries_newest_first wit_tables [wit_record 5 Allowed; wit_record 9 Blocked] 10); [reflexivity|].
  constructor; [apply wit_record_ok|]. constructor; [apply wit_record_ok|constructor].
Defined.

Lemma daemon_stats_roundtrip_witness :
  daemon_stats (write_daemon_stats wit_tables (mkDaemonStats 7 u64_max 0 (lit "[]") (lit "{}")))
  = Some (mkDaemonStats 7 u64_max 0 (lit "[]") (lit "{}")).
Proof.
  refine (proj1 (daemon_stats_roundtrip wit_tables (mkDaemonStats 7 u64_max 0 (lit "[]") (lit "{}")) 8 (lit "{}") _ _));
    zcompute.
Defined.
