(* ===== verification/StatsSpec.v ===== *)
(** * StatsSpec: the aggregates say what was logged

    The counters and the two top-ten lists of [stats] and the summary of
    divergences, for every order SQL may give groups of equal count. *)
From S2P Require Import Prelude Text Num IpAddr Db DbSpec.

(** ** Groups *)
Section Groups.
Context `{SqlOrder}.

Lemma group_names names : map fst (group_count names) = remove_dups names.
Proof. unfold group_count. rewrite map_map. apply map_id. Qed.

Lemma group_count_elem names name n : (name, n) ∈ group_count names <-> name ∈ names /\ n = occurrences name names.
Proof.
  unfold group_count. rewrite list_elem_of_fmap. setoid_rewrite elem_of_remove_dups. split.
  - intros (x & [= <- <-] & Hx). done.
  - intros (Hin & ->). by exists name.
Qed.

(** [top] is a top list of [names], at most [k] long: each entry a name
    with its exact count, in descending order, and no name left out
    occurs more often than one listed. *)
Record top_of (k : nat) (names : list (list Z)) (top : list (list Z * Z)) : Prop := {
  top_distinct : NoDup (map fst top);
  top_exact : forall name n, (name, n) ∈ top -> name ∈ names /\ n = occurrences name names;
  top_sorted : StronglySorted (fun a b => snd b <= snd a) top;
  top_length : length top = Nat.min k (length (remove_dups names));
  top_others : forall name, name ∈ names -> name ∉ map fst top ->
    forall x n, (x, n) ∈ top -> occurrences name names <= n
}.

Lemma in_take {A} k (l : list A) x : x ∈ take k l -> x ∈ l.
Proof. intros Hx. rewrite <- (take_drop k l), elem_of_app. by left. Qed.
Lemma in_drop {A} k (l : list A) x : x ∈ drop k l -> x ∈ l.
Proof. intros Hx. rewrite <- (take_drop k l), elem_of_app. by right. Qed.

Lemma sorted_take_drop {A} (R : A -> A -> Prop) k (l : list A) a b :
  StronglySorted R l -> a ∈ take k l -> b ∈ drop k l -> R a b.
Proof.
  revert k. induction l as [|x l IH]; intros [|k] Hs; cbn; try (by intros Ha%elem_of_nil); try (by intros _ Hb%elem_of_nil).
  apply StronglySorted_inv in Hs as (Hs & Hx). rewrite elem_of_cons. intros [->|Ha] Hb.
  - rewrite Forall_forall in Hx. apply Hx. by eapply in_drop.
  - by apply (IH k).
Qed.

Lemma sorted_take {A} (R : A -> A -> Prop) k (l : list A) : StronglySorted R l -> StronglySorted R (take k l).
Proof.
  revert k. induction l as [|x l IH]; intros [|k] Hs; cbn; try constructor; apply StronglySorted_inv in Hs as (Hs & Hx); [by apply IH|].
  by apply Forall_take.
Qed.

Lemma ordered_groups_top k names : top_of k names (take k (order_by_count (group_count names))).
Proof.
  pose proof (order_by_count_perm (group_count names)) as Hp. pose proof (order_by_count_sorted (group_count names)) as Hs.
  set (l := order_by_count (group_count names)) in *.
  assert (Hnd : NoDup (map fst l)) by (change (NoDup (fst <$> l)); rewrite Hp; change (NoDup (map fst (group_count names)));
    rewrite group_names; apply NoDup_remove_dups).
  assert (Hin : forall x n, (x, n) ∈ l <-> x ∈ names /\ n = occurrences x names) by (intros; rewrite Hp; apply group_count_elem).
  split.
  - change (NoDup (fst <$> take k l)). rewrite fmap_take. eapply sublist_NoDup; [exact Hnd|apply sublist_take].
  - intros name n He. apply Hin. by eapply in_take.
  - by apply sorted_take.
  - rewrite length_take, Hp. f_equal. by rewrite <- group_names, length_map.
  - intros name Hn Hout x n Ht. assert (Hd : (name, occurrences name names) ∈ drop k l).
    { assert (Hl : (name, occurrences name names) ∈ take k l ++ drop k l) by (rewrite take_drop; by apply Hin).
      apply elem_of_app in Hl as [Hl|Hl]; [|done]. destruct Hout. change (name ∈ fst <$> take k l). apply list_elem_of_fmap. by exists (name, occurrences name names). }
    exact (sorted_take_drop _ k l _ _ Hs Ht Hd).
Qed.

Lemma occurrences_le name names : 0 <= occurrences name names <= len names.
Proof. unfold occurrences, len. pose proof (List.filter_length_le (str_eqb name) names). lia. Qed.

Lemma top_list_top names : len names <= u64_max -> top_of 10 names (top_list names).
Proof.
  intros Hl. assert (E : top_list names = take 10 (order_by_count (group_count names))); [|rewrite E; apply ordered_groups_top].
  unfold top_list. pose proof (top_exact _ _ _ (ordered_groups_top 10 names)) as He.
  induction (take 10 (order_by_count (group_count names))) as [|[x n] l IH]; [done|]. cbn [map fst snd].
  destruct (He x n) as (_ & ->); [by left|]. pose proof (occurrences_le x names). rewrite try_from_Some by lia. cbn [default from_option].
  unfold id. f_equal. apply IH. intros y m Hy. apply He. by right.
Qed.
End Groups.

(** ** The log *)
Section Log.
Context `{IpDisplay} `{SqlOrder}.

Definition in_window (since : Z) (qs : list QueryRecord) : list QueryRecord := List.filter (fun q => since <=? q_ts q) qs.

Lemma filter_placed i qs (g : QueryRow -> bool) (f : QueryRecord -> bool) :
  (forall p, g (placed_row i p) = f (snd p)) ->
  map row_qname (List.filter g (map (placed_row i) (place qs))) = map q_qname (List.filter f qs).
Proof.
  intros Hg. rewrite <- (place_snd qs) at 2. generalize (place qs) as ps. intros ps.
  induction ps as [|p ps IH]; [done|]. cbn [map List.filter]. rewrite Hg. destruct (f (snd p)); [|done]. cbn [map]. by rewrite IH.
Qed.

Lemma blocked_placed i qs since :
  map row_qname (List.filter (fun r => str_eqb (row_verdict r) (verdict_as_str Blocked))
                   (List.filter (fun r => since <=? row_ts r) (map (placed_row i) (place qs))))
  = map q_qname (List.filter (fun q => bool_decide (q_verdict q = Blocked)) (in_window since qs)).
Proof.
  unfold in_window. rewrite !filter_filter. apply filter_placed. intros p.
  rewrite <- verdict_str_eqb. done.
Qed.

Lemma window_names_bound since qs f : len qs <= u64_max -> len (map q_qname (List.filter f (in_window since qs))) <= u64_max.
Proof.
  unfold in_window, len. rewrite length_map, filter_filter. intros Hl.
  pose proof (List.filter_length_le (fun q => (since <=? q_ts q) && f q) qs). lia.
Qed.

(** The counters of [s] are those of the records since [since]. *)
Definition counts_log (since : Z) (qs : list QueryRecord) (s : Stats) : Prop :=
  let n f := len (List.filter (fun q => (since <=? q_ts q) && f q) qs) in
  total s = n (fun _ => true)
  /\ blocked s = n (fun q => bool_decide (q_verdict q = Blocked))
  /\ excepted s = n (fun q => bool_decide (q_verdict q = Excepted))
  /\ rewritten s = n (fun q => bool_decide (q_verdict q = Rewritten))
  /\ cache_hits s = n (fun q => bool_decide (q_source q = SCache))
  /\ stale_hits s = n (fun q => bool_decide (q_source q = SStale))
  /\ upstream_failures s = n (fun q => bool_decide (q_source q = Failed))
  /\ failure_cached s = n (fun q => bool_decide (q_source q = FailureCached))
  /\ blocked s + excepted s + rewritten s <= total s
  /\ cache_hits s + stale_hits s + upstream_failures s + failure_cached s <= total s.

Lemma stats_counters t qs since : t_queries t = [] -> counts_log since qs (stats (logged t qs) since).
Proof.
  intros Ht. unfold counts_log, stats, count_rows. rewrite logged_rows, Ht. cbn [app].
  cbn [total blocked excepted rewritten cache_hits stale_hits upstream_failures failure_cached].
  set (i := t_next_query t).
  assert (Hv : forall v, len (List.filter (fun r => str_eqb (row_verdict r) (verdict_as_str v))
      (List.filter (fun r => since <=? row_ts r) (map (placed_row i) (place qs))))
    = len (List.filter (fun q => (since <=? q_ts q) && bool_decide (q_verdict q = v)) qs))
    by (intros v; apply stats_count; intros p; apply verdict_str_eqb).
  assert (Hs : forall v, len (List.filter (fun r => str_eqb (row_source r) (source_as_str v))
      (List.filter (fun r => since <=? row_ts r) (map (placed_row i) (place qs))))
    = len (List.filter (fun q => (since <=? q_ts q) && bool_decide (q_source q = v)) qs))
    by (intros v; apply stats_count; intros p; apply source_str_eqb).
  assert (Htot : len (List.filter (fun r => since <=? row_ts r) (map (placed_row i) (place qs)))
    = len (List.filter (fun q => (since <=? q_ts q) && true) qs)).
  { rewrite <- (stats_count i qs since (fun _ => true)) by done. by rewrite filter_filter; f_equal; apply List.filter_ext; intros; rewrite andb_true_r. }
  pose proof (Hv Blocked) as E1. pose proof (Hv Excepted) as E2. pose proof (Hv Rewritten) as E3.
  pose proof (Hs SCache) as F1. pose proof (Hs SStale) as F2. pose proof (Hs Failed) as F3. pose proof (Hs FailureCached) as F4.
  cbn [verdict_as_str source_as_str] in *. rewrite E1, E2, E3, F1, F2, F3, F4, Htot.
  pose proof (class_counts q_verdict (fun q => since <=? q_ts q) [Blocked; Excepted; Rewritten] qs) as Cv.
  pose proof (class_counts q_source (fun q => since <=? q_ts q) [SCache; SStale; Failed; FailureCached] qs) as Cs.
  cbn [foldr] in Cv, Cs.
  split_and!; try reflexivity.
  - assert (Hnd : NoDup [Blocked; Excepted; Rewritten]) by (repeat constructor; set_solver). specialize (Cv Hnd). lia.
  - assert (Hnd : NoDup [SCache; SStale; Failed; FailureCached]) by (repeat constructor; set_solver). specialize (Cs Hnd). lia.
Qed.

(** [stats] reports the log of the window exactly: every counter is the
    number of logged records with that verdict or source, neither kind
    exceeds the total, and whatever order SQL gives ties, the two top lists
    are ten (or all) distinct names with their exact counts, in descending
    order, that no name left out beats. *)
Lemma stats_reported t qs since :
  t_queries t = [] -> len qs <= u64_max ->
  let s := stats (logged t qs) since in
  counts_log since qs s
  /\ top_of 10 (map q_qname (in_window since qs)) (top_queried s)
  /\ top_of 10 (map q_qname (List.filter (fun q => bool_decide (q_verdict q = Blocked)) (in_window since qs))) (top_blocked s).
Proof.
  intros Ht Hl. cbn zeta. split; [by apply stats_counters|]. unfold stats. cbn [top_queried top_blocked]. rewrite logged_rows, Ht. cbn [app].
  rewrite (filter_placed _ qs _ (fun q => since <=? q_ts q)) by done. pose proof (blocked_placed (t_next_query t) qs since) as Hb.
  cbn [verdict_as_str] in Hb. rewrite Hb. split; apply top_list_top; [|by apply window_names_bound].
  unfold len in *. rewrite length_map. pose proof (List.filter_length_le (fun q => since <=? q_ts q) qs). lia.
Qed.

(** The summary names every class of divergence of the window once, with
    its exact count, largest first. *)
Theorem divergence_summary_exact t since :
  let classes := map d_class (List.filter (fun d => since <=? d_ts d) (map snd (t_divergences t))) in
  top_of (length (remove_dups classes)) classes (divergence_summary t since).
Proof.
  intros classes. unfold divergence_summary. fold classes.
  assert (Hall : take (length (remove_dups classes)) (order_by_count (group_count classes)) = order_by_count (group_count classes)).
  { apply take_ge. rewrite order_by_count_perm. by rewrite <- group_names, length_map. }
  assert (E : map (fun r => (fst r, Z.abs (snd r))) (order_by_count (group_count classes)) = order_by_count (group_count classes)).
  { pose proof (top_exact _ _ _ (ordered_groups_top (length (remove_dups classes)) classes)) as He. rewrite Hall in He. clear Hall.
    induction (order_by_count (group_count classes)) as [|[x n] l IH]; [done|]. cbn [map fst snd].
    destruct (He x n) as (_ & ->); [by left|]. pose proof (occurrences_le x classes). rewrite Z.abs_eq by lia. f_equal.
    apply IH. intros y m Hy. apply He. by right. }
  rewrite E, <- Hall at 1. apply ordered_groups_top.
Qed.
End Log.

(** ** Witnesses *)

(** Any sort by count will do: insertion. *)
Fixpoint insert_group (g : list Z * Z) (l : list (list Z * Z)) : list (list Z * Z) :=
  match l with
  | [] => [g]
  | x :: l => if snd x <=? snd g then g :: x :: l else x :: insert_group g l
  end.
Definition sort_groups (l : list (list Z * Z)) : list (list Z * Z) := foldr insert_group [] l.

Lemma insert_group_perm g l : insert_group g l ≡ₚ g :: l.
Proof. induction l as [|x l IH]; cbn [insert_group]; [done|]. destruct (_ <=? _); [done|]. rewrite IH. apply Permutation_swap. Qed.
Lemma sort_groups_perm l : sort_groups l ≡ₚ l.
Proof. induction l as [|g l IH]; cbn; [done|]. by rewrite insert_group_perm, IH. Qed.
Lemma insert_group_sorted g l :
  StronglySorted (fun a b => snd b <= snd a) l -> StronglySorted (fun a b => snd b <= snd a) (insert_group g l).
Proof.
  induction 1 as [|x l Hs IH Hx]; cbn [insert_group]; [by repeat constructor|]. destruct (Z.leb_spec (snd x) (snd g)).
  - constructor; [by constructor|]. constructor; [done|]. eapply Forall_impl; [exact Hx|]. cbn. lia.
  - constructor; [done|]. rewrite insert_group_perm. constructor; [lia|done].
Qed.
Lemma sort_groups_sorted l : StronglySorted (fun a b => snd b <= snd a) (sort_groups l).
Proof. induction l as [|g l IH]; cbn; [constructor|]. by apply insert_group_sorted. Qed.

Definition insertion_order : SqlOrder :=
  {| order_by_count := sort_groups; order_by_count_perm := sort_groups_perm; order_by_count_sorted := sort_groups_sorted |}.
#[local] Existing Instance insertion_order.
#[local] Existing Instance show_v4.

Lemma stats_reported_witness :
  let s := stats (logged wit_tables [wit_record 5 Allowed; wit_record 9 Blocked; wit_record 9 Blocked]) 9 in
  blocked s = 2 /\ top_queried s = [(lit "example.com", 2)] /\ NoDup (map fst (top_blocked s)).
Proof.
  destruct (stats_reported wit_tables [wit_record 5 Allowed; wit_record 9 Blocked; wit_record 9 Blocked] 9 eq_refl) as (Hc & Hq & Hb); [zcompute|].
  split; [etransitivity; [exact (proj1 (proj2 Hc))|vm_compute; reflexivity]|]. split; [vm_compute; reflexivity|exact (top_distinct _ _ _ Hb)].
Defined.
