(* ===== verification/Schema.v ===== *)
(** * Schema: opening the database ([crates/core/src/db.rs])

    [Db::open] statement by statement: the pragmas, the tables, the version
    and the migrations, over a file in which any table may still be
    missing. Every statement commits by itself (the rebuild of [queries] is
    one transaction); one may fail, and a crash may come between two. *)
From S2P Require Import Prelude Text Num IpAddr Proc Result Db.

(** ** The file

    A table is there or not; [daemon_stats] with the columns it has,
    [queries] with whether its check knows [rewritten]. *)
Record QueriesTable := mkQueries { qt_rewritten : bool; qt_rows : list QueryRow; qt_next : Z }.
Record StatsTable := mkStatsTable { st_recent : bool; st_runtime : bool; st_row : option DaemonStats }.

Record DbFile := mkDbFile {
  f_meta : option (option (list Z));       (* the row schema_version *)
  f_queries : option QueriesTable;
  f_heartbeat : option (option Heartbeat);
  f_stats : option StatsTable;
  f_divergences : option (list (Z * DivergenceRow) * Z);
  f_idx_queries : bool;
  f_idx_divergences : bool
}.
Definition file_new : DbFile := mkDbFile None None None None None false false.

Definition with_meta (f : DbFile) (x : option (list Z)) : DbFile :=
  mkDbFile (Some x) (f_queries f) (f_heartbeat f) (f_stats f) (f_divergences f) (f_idx_queries f) (f_idx_divergences f).
Definition with_queries (f : DbFile) (x : QueriesTable) : DbFile :=
  mkDbFile (f_meta f) (Some x) (f_heartbeat f) (f_stats f) (f_divergences f) (f_idx_queries f) (f_idx_divergences f).
Definition with_heartbeat (f : DbFile) (x : option Heartbeat) : DbFile :=
  mkDbFile (f_meta f) (f_queries f) (Some x) (f_stats f) (f_divergences f) (f_idx_queries f) (f_idx_divergences f).
Definition with_stats (f : DbFile) (x : StatsTable) : DbFile :=
  mkDbFile (f_meta f) (f_queries f) (f_heartbeat f) (Some x) (f_divergences f) (f_idx_queries f) (f_idx_divergences f).
Definition with_divergences (f : DbFile) (x : list (Z * DivergenceRow) * Z) : DbFile :=
  mkDbFile (f_meta f) (f_queries f) (f_heartbeat f) (f_stats f) (Some x) (f_idx_queries f) (f_idx_divergences f).
Definition with_idx_queries (f : DbFile) : DbFile :=
  mkDbFile (f_meta f) (f_queries f) (f_heartbeat f) (f_stats f) (f_divergences f) true (f_idx_divergences f).
Definition with_idx_divergences (f : DbFile) : DbFile :=
  mkDbFile (f_meta f) (f_queries f) (f_heartbeat f) (f_stats f) (f_divergences f) (f_idx_queries f) true.

(** ** Statements *)
Inductive Stmt :=
| CreateMeta | CreateQueries | CreateIdxQueries | CreateHeartbeat | CreateDaemonStats | CreateDivergences | CreateIdxDivergences
| AddRecent                      (* ALTER TABLE daemon_stats ADD COLUMN log_events_dropped_recent *)
| AddRuntime                     (* ALTER TABLE daemon_stats ADD COLUMN runtime_json *)
| RebuildQueries                 (* BEGIN; rename, create, copy, drop, index; COMMIT *)
| InsertVersion (v : list Z)
| ReplaceVersion (v : list Z).

(** [None]: the statement is an error on this file (no such table, a
    duplicate column or key). *)
Definition stmt_exec (s : Stmt) (f : DbFile) : option DbFile :=
  match s with
  | CreateMeta => Some (match f_meta f with Some _ => f | None => with_meta f None end)
  | CreateQueries => Some (match f_queries f with Some _ => f | None => with_queries f (mkQueries true [] 1) end)
  | CreateIdxQueries => _ ← f_queries f; Some (with_idx_queries f)
  | CreateHeartbeat => Some (match f_heartbeat f with Some _ => f | None => with_heartbeat f None end)
  | CreateDaemonStats => Some (match f_stats f with Some _ => f | None => with_stats f (mkStatsTable true true None) end)
  | CreateDivergences => Some (match f_divergences f with Some _ => f | None => with_divergences f ([], 1) end)
  | CreateIdxDivergences => _ ← f_divergences f; Some (with_idx_divergences f)
  | AddRecent =>
      t ← f_stats f;
      if st_recent t then None else Some (with_stats f (mkStatsTable true (st_runtime t) (fill_recent <$> st_row t)))
  | AddRuntime =>
      t ← f_stats f;
      if st_runtime t then None else Some (with_stats f (mkStatsTable (st_recent t) true (fill_runtime <$> st_row t)))
  | RebuildQueries =>
      t ← f_queries f;
      Some (with_idx_queries (with_queries f (mkQueries true (qt_rows t) (next_id (qt_rows t)))))
  | InsertVersion v => m ← f_meta f; match m with Some _ => None | None => Some (with_meta f (Some v)) end
  | ReplaceVersion v => _ ← f_meta f; Some (with_meta f (Some v))
  end.

(** ** The connection *)
Inductive SEv : Type -> Type :=
| OpenConn : SEv (unit + list Z)
| Pragma (name value : list Z) : SEv (unit + list Z)
| BusyTimeout (secs : Z) : SEv (unit + list Z)
| Execute (s : Stmt) : SEv (unit + list Z)
| StatsColumns : SEv (list (list Z) + list Z)        (* SELECT * FROM daemon_stats LIMIT 0 *)
| QueriesKnow : SEv (bool + list Z)                  (* the text of queries names rewritten *)
| SelectVersion : SEv (option (list Z))              (* .ok() *)
| SpawnWriter : SEv (unit + list Z).

Definition column_names (t : StatsTable) : list (list Z) :=
  [lit "id"; lit "updated_ts"; lit "log_events_dropped"; lit "upstreams_json"]
  ++ (if st_recent t then [lit "log_events_dropped_recent"] else [])
  ++ (if st_runtime t then [lit "runtime_json"] else []).

(** At one operation: whether the world makes it fail, and what SQLite
    says when the statement itself is an error. *)
Record SOracle := mkSOracle { so_fail : option (list Z); so_error : list Z }.

Definition sexec (o : SOracle) (B : Type) (e : SEv B) (f : DbFile) : B * DbFile :=
  match e in SEv B return B * DbFile with
  | OpenConn | Pragma _ _ | BusyTimeout _ | SpawnWriter => (match so_fail o with Some err => inr err | None => inl tt end, f)
  | Execute s =>
      match so_fail o, stmt_exec s f with
      | Some err, _ => (inr err, f)
      | None, None => (inr (so_error o), f)
      | None, Some f => (inl tt, f)
      end
  | StatsColumns =>
      (match so_fail o, f_stats f with
       | Some err, _ => inr err
       | None, None => inr (so_error o)
       | None, Some t => inl (column_names t)
       end, f)
  | QueriesKnow =>
      (match so_fail o, f_queries f with
       | Some err, _ => inr err
       | None, None => inr (so_error o)
       | None, Some t => inl (qt_rewritten t)
       end, f)
  | SelectVersion => (match so_fail o with Some _ => None | None => m ← f_meta f; m end, f)
  end.

Notation Sql := (Proc SEv).

(** ** [Db::open] *)
Definition init_connection : Sql (unit + list Z) :=
  await? _ := event (Pragma (lit "journal_mode") (lit "WAL")) in
  await? _ := event (Pragma (lit "synchronous") (lit "NORMAL")) in
  await? _ := event (Pragma (lit "foreign_keys") (lit "ON")) in
  event (BusyTimeout 5).

(** [execute_batch]: the first error ends it. *)
Fixpoint execute_batch (l : list Stmt) : Sql (unit + list Z) :=
  match l with
  | [] => Ret (inl tt)
  | s :: l =>
      await? _ := event (Execute s) in
      execute_batch l
  end.

Definition create_schema : Sql (unit + list Z) :=
  execute_batch [CreateMeta; CreateQueries; CreateIdxQueries; CreateHeartbeat; CreateDaemonStats; CreateDivergences; CreateIdxDivergences].

(** One [if from < n { if !has { .. } }]. *)
Definition migrate_step (due : bool) (has : Sql (bool + list Z)) (s : Stmt) : Sql (unit + list Z) :=
  if due then
    await? h := has in
    if (h : bool) then Ret (inl tt) else event (Execute s)
  else Ret (inl tt).

Definition has_column (name : list Z) : Sql (bool + list Z) :=
  await? names := event StatsColumns in
  Ret (inl (existsb (str_eqb name) names)).

Definition migrate_schema (from : Z) : Sql (unit + list Z) :=
  await? _ := migrate_step (from <? 2) (has_column (lit "log_events_dropped_recent")) AddRecent in
  await? _ := migrate_step (from <? 3) (event QueriesKnow) RebuildQueries in
  migrate_step (from <? 4) (has_column (lit "runtime_json")) AddRuntime.

Definition ensure_schema_version : Sql (unit + DbError) :=
  existing ← event SelectVersion;
  match existing with
  | Some v =>
      let found := default 0 (parse_uint u32_max v) in
      if SCHEMA_VERSION <? found then Ret (inr (SchemaTooNew found SCHEMA_VERSION))
      else if found <? SCHEMA_VERSION then
        await? _ := err_into Db.Sql (migrate_schema found) in
        err_into Db.Sql (event (Execute (ReplaceVersion (to_string SCHEMA_VERSION))))
      else Ret (inl tt)
  | None => err_into Db.Sql (event (Execute (InsertVersion (to_string SCHEMA_VERSION))))
  end.

(** [open_with_queue_capacity]: the writer's queue is the handle. *)
Definition open_with_queue_capacity (path : list Z) (capacity : Z) : Sql (DbWriter + DbError) :=
  await? _ := err_into (OpenFailed path) (event OpenConn) in
  await? _ := err_into Db.Sql init_connection in
  await? _ := err_into Db.Sql create_schema in
  await? _ := ensure_schema_version in
  await? _ := err_into (fun e => OpenFailed path (lit "spawn writer thread: " ++ e)) (event SpawnWriter) in
  Ret (inl (writer_new capacity)).

Definition db_open_file (path : list Z) : Sql (DbWriter + DbError) := open_with_queue_capacity path WRITER_QUEUE_CAPACITY.

(** ** A file as tables *)

(** The tables a file has or would be given. *)
Definition tables_of (f : DbFile) : Tables :=
  let q := default (mkQueries true [] 1) (f_queries f) in
  let s := default (mkStatsTable true true None) (f_stats f) in
  let d := default ([], 1) (f_divergences f) in
  mkTables (mjoin (f_meta f)) (mkShape (st_recent s) (st_runtime s) (qt_rewritten q)) (qt_rows q) (qt_next q)
    (mjoin (f_heartbeat f)) (st_row s) (fst d) (snd d).

Definition file_of (t : Tables) : DbFile :=
  mkDbFile (Some (t_version t)) (Some (mkQueries (knows_rewritten (t_shape t)) (t_queries t) (t_next_query t)))
    (Some (t_heartbeat t)) (Some (mkStatsTable (has_recent (t_shape t)) (has_runtime (t_shape t)) (t_stats t)))
    (Some (t_divergences t, t_next_divergence t)) true true.
