(* ===== verification/SchemaSpec.v ===== *)
(** * SchemaSpec: opening survives crashes and loses nothing

    However often an opening fails or is cut off between two statements,
    the file keeps every row, keeps saying a version its tables have, and
    the next opening that is left alone brings it to the current schema. *)
From S2P Require Import Prelude Text Num IpAddr Proc Result Db Schema.

(** ** What a file says and has *)

(** The version the file claims: text that is no number counts as 0. *)
Definition claims (f : DbFile) : option Z := v ← mjoin (f_meta f); Some (default 0 (parse_uint u32_max v)).
Definition older (c : option Z) (n : Z) : Prop := exists v, c = Some v /\ v < n.

(** What a table lacks, the version says. An old shape has a version: a
    file without one has current tables. *)
Definition honest_stats (c : option Z) (s : option StatsTable) : Prop :=
  forall t, s = Some t -> (st_recent t = false -> older c 2) /\ (st_runtime t = false -> older c 4).
Definition honest_queries (c : option Z) (q : option QueriesTable) : Prop :=
  forall t, q = Some t -> qt_rewritten t = false -> older c 3.
Definition honest (f : DbFile) : Prop := honest_stats (claims f) (f_stats f) /\ honest_queries (claims f) (f_queries f).

(** The next id is new. *)
Definition fresh_ids (q : option QueriesTable) : Prop := forall t, q = Some t -> Forall (fun r => row_id r < qt_next t) (qt_rows t).

(** Every table is there, in its current shape. *)
Definition current (f : DbFile) : Prop :=
  claims f = Some SCHEMA_VERSION
  /\ (exists t, f_queries f = Some t /\ qt_rewritten t = true)
  /\ (exists t, f_stats f = Some t /\ st_recent t = true /\ st_runtime t = true)
  /\ is_Some (f_heartbeat f) /\ is_Some (f_divergences f).

(** The row of [daemon_stats]: the columns [t0] had keep their values. *)
Definition row_kept (t0 t : StatsTable) : Prop :=
  (st_recent t0 = true -> st_recent t = true) /\ (st_runtime t0 = true -> st_runtime t = true)
  /\ match st_row t0, st_row t with
     | None, None => True
     | Some a, Some b =>
         ds_updated_ts b = ds_updated_ts a /\ ds_log_events_dropped b = ds_log_events_dropped a /\ ds_upstreams_json b = ds_upstreams_json a
         /\ (st_recent t0 = true -> ds_log_events_dropped_recent b = ds_log_events_dropped_recent a)
         /\ (st_runtime t0 = true -> ds_runtime_json b = ds_runtime_json a)
     | _, _ => False
     end.

(** [f] has all the data of [f0], and no other. *)
Definition carries_queries (q0 q : option QueriesTable) : Prop :=
  match q0 with Some t0 => exists t, q = Some t /\ qt_rows t = qt_rows t0 | None => forall t, q = Some t -> qt_rows t = [] end.
Definition carries_stats (s0 s : option StatsTable) : Prop :=
  match s0 with Some t0 => exists t, s = Some t /\ row_kept t0 t | None => forall t, s = Some t -> st_row t = None end.
Definition carries_table {A} (empty : A) (x0 x : option A) : Prop :=
  match x0 with Some a => x = Some a | None => forall a, x = Some a -> a = empty end.
Definition carries (f0 f : DbFile) : Prop :=
  carries_queries (f_queries f0) (f_queries f) /\ carries_stats (f_stats f0) (f_stats f)
  /\ carries_table None (f_heartbeat f0) (f_heartbeat f) /\ carries_table ([], 1) (f_divergences f0) (f_divergences f).

Definition sound (f0 f : DbFile) : Prop := honest f /\ fresh_ids (f_queries f) /\ carries f0 f.

(** ** Statements *)
Lemma row_kept_refl t : row_kept t t.
Proof. unfold row_kept. by destruct (st_row t). Qed.

Lemma carries_table_refl {A} (e : A) x : carries_table e x x.
Proof. by destruct x. Qed.

Lemma carries_refl f : carries f f.
Proof.
  split; [|split; [|split; apply carries_table_refl]].
  - unfold carries_queries. destruct (f_queries f) as [t|]; [by exists t|done].
  - unfold carries_stats. destruct (f_stats f) as [t|]; [exists t; split; [done|apply row_kept_refl]|done].
Qed.

Lemma row_kept_trans a b c : row_kept a b -> row_kept b c -> row_kept a c.
Proof.
  unfold row_kept. intros (A1 & A2 & A3) (B1 & B2 & B3). split; [auto|]. split; [auto|].
  destruct (st_row a), (st_row b), (st_row c); try done. intuition congruence.
Qed.

(** One table changes; the data stays. *)
Lemma carries_queries_set q0 q t t' : q = Some t -> qt_rows t' = qt_rows t -> carries_queries q0 q -> carries_queries q0 (Some t').
Proof.
  intros -> E. unfold carries_queries. destruct q0 as [t0|]; [intros (x & [= <-] & Ex); exists t'; by rewrite E|].
  intros Hn x [= <-]. rewrite E. by apply Hn.
Qed.
Lemma carries_stats_set s0 s t t' : s = Some t -> row_kept t t' -> carries_stats s0 s -> carries_stats s0 (Some t').
Proof.
  intros -> E. unfold carries_stats. destruct s0 as [t0|]; [intros (x & [= <-] & Ex); exists t'; split; [done|by eapply row_kept_trans]|].
  intros Hn x [= <-]. specialize (Hn t eq_refl). unfold row_kept in E. rewrite Hn in E. destruct E as (_ & _ & E). by destruct (st_row t').
Qed.
Lemma carries_create {A} (e : A) x0 : carries_table e x0 None -> carries_table e x0 (Some e).
Proof. unfold carries_table. destruct x0; [done|]. by intros _ a [= <-]. Qed.

Lemma next_id_fresh rows : Forall (fun r => row_id r < next_id rows) rows.
Proof.
  unfold next_id. induction rows as [|r rows IH]; cbn; [done|]. constructor; [lia|]. eapply Forall_impl; [exact IH|]. cbn. lia.
Qed.

(** What keeps the data and does not take back a claim. *)
Definition ddl (s : Stmt) : bool := match s with InsertVersion _ | ReplaceVersion _ => false | _ => true end.

Lemma ddl_claims s f f' : ddl s = true -> stmt_exec s f = Some f' -> claims f' = claims f.
Proof.
  unfold claims. destruct f as [m q h st d i j]. destruct s; cbn; try discriminate; intros _.
  all: try (destruct m; intros [= <-]; done). all: try (destruct q; cbn; intros [= <-]; done). all: try (destruct h; intros [= <-]; done).
  all: try (destruct d; cbn; intros [= <-]; done). all: destruct st as [[[] [] r]|]; cbn; intros [= <-]; done.
Qed.

Lemma ddl_sound s f0 f f' : ddl s = true -> stmt_exec s f = Some f' -> sound f0 f -> sound f0 f'.
Proof.
  intros Hd He. pose proof (ddl_claims s f f' Hd He) as Hc. unfold sound, honest, carries. rewrite Hc. clear Hc.
  intros ((Hs & Hq) & Hi & (K1 & K2 & K3 & K4)). generalize dependent (claims f). intros c Hs Hq.
  destruct f as [m q h st d i j]. cbn [f_queries f_stats f_heartbeat f_divergences] in *.
  destruct s; cbn in He; try discriminate Hd.
  - destruct m; injection He as <-; done.
  - destruct q as [t|]; injection He as <-; [done|]. cbn. split; [split; [done|by intros t [= <-]]|]. split; [by intros t [= <-]|]. split; [|done].
    unfold carries_queries in *. destruct (f_queries f0); [by destruct K1 as (? & ? & _)|]. by intros t [= <-].
  - destruct q; [|done]. by injection He as <-.
  - destruct h; injection He as <-; [done|]. cbn. split_and!; try done. by apply carries_create.
  - destruct st as [t|]; injection He as <-; [done|]. cbn. split; [split; [by intros t [= <-]|done]|]. split; [done|]. split; [done|]. split; [|done].
    unfold carries_stats in *. destruct (f_stats f0); [by destruct K2 as (? & ? & _)|]. by intros t [= <-].
  - destruct d; injection He as <-; [done|]. cbn. split_and!; try done. by apply carries_create.
  - destruct d; [|done]. by injection He as <-.
  - destruct st as [t|]; [|done]. cbn in He. destruct (st_recent t) eqn:Er; [done|]. injection He as <-. cbn.
    split; [split; [|done]|]; [intros x [= <-]; cbn; split; [done|apply (Hs t eq_refl)]|]. split; [done|]. split; [done|]. split; [|done].
    apply (carries_stats_set _ (Some t) t); [done| |done]. unfold row_kept. cbn. rewrite Er. split; [done|]. split; [done|]. by destruct (st_row t).
  - destruct st as [t|]; [|done]. cbn in He. destruct (st_runtime t) eqn:Er; [done|]. injection He as <-. cbn.
    split; [split; [|done]|]; [intros x [= <-]; cbn; split; [apply (Hs t eq_refl)|done]|]. split; [done|]. split; [done|]. split; [|done].
    apply (carries_stats_set _ (Some t) t); [done| |done]. unfold row_kept. cbn. rewrite Er. split; [done|]. split; [done|]. by destruct (st_row t).
  - destruct q as [t|]; [|done]. injection He as <-. cbn. split; [split; [done|by intros x [= <-]]|]. split; [intros x [= <-]; apply next_id_fresh|].
    split; [|done]. by apply (carries_queries_set _ (Some t) t).
Qed.

(** Stamping the version once the tables are current. *)
Definition complete (f : DbFile) : Prop :=
  (exists t, f_queries f = Some t /\ qt_rewritten t = true)
  /\ (exists t, f_stats f = Some t /\ st_recent t = true /\ st_runtime t = true)
  /\ is_Some (f_heartbeat f) /\ is_Some (f_divergences f).

Lemma complete_honest f c : complete f -> honest_stats c (f_stats f) /\ honest_queries c (f_queries f).
Proof.
  intros ((q & Eq & Hq) & (t & Et & H1 & H2) & _). split.
  - intros x Ex. rewrite Et in Ex. injection Ex as <-. by rewrite H1, H2.
  - intros x Ex. rewrite Eq in Ex. injection Ex as <-. by rewrite Hq.
Qed.

Lemma stamp_sound f0 f v : complete f -> sound f0 f -> sound f0 (with_meta f (Some v)).
Proof. intros Hc (_ & Hi & Hk). split; [|done]. by apply (complete_honest (with_meta f (Some v))). Qed.

Lemma stamp_claims f n : 0 <= n <= u32_max -> claims (with_meta f (Some (to_string n))) = Some n.
Proof. intros Hn. unfold claims, with_meta, mjoin, option_join. cbn [f_meta mbind option_bind]. by rewrite parse_to_string. Qed.

(** ** The stages *)
Section Stages.
Context (f0 : DbFile).
Notation safe := (Proc.holds sexec (sound f0)).

(** A statement that commits, or fails and changes nothing. *)
Lemma execute_safe s f (Q : unit + list Z -> DbFile -> Prop) :
  sound f0 f -> ddl s = true ->
  (forall e, Q (inr e) f) -> (forall f', stmt_exec s f = Some f' -> sound f0 f' -> Q (inl tt) f') ->
  safe (event (Execute s)) Q f.
Proof.
  intros Hf Hd He Hq. apply holds_last; [done|]. intros o. cbn. destruct (so_fail o); cbn; [by split|].
  destruct (stmt_exec s f) as [f'|] eqn:E; cbn; [|by split]. pose proof (ddl_sound s f0 f f' Hd E Hf). auto.
Qed.

(** Operations that only look. *)
Definition looks {B} (e : SEv B) : bool := match e with Execute _ => false | _ => true end.
Lemma looks_same o {B} (e : SEv B) f : looks e = true -> snd (sexec o B e f) = f.
Proof. by destruct e. Qed.

Lemma look_safe {B} (e : SEv B) f (Q : B -> DbFile -> Prop) :
  looks e = true -> sound f0 f -> (forall o, Q (fst (sexec o B e f)) f) -> safe (event e) Q f.
Proof. intros He Hf Hq. apply holds_last; [done|]. intros o. rewrite looks_same by done. auto. Qed.

Lemma init_safe f : sound f0 f -> safe init_connection (fun _ f' => f' = f) f.
Proof.
  intros Hf. unfold init_connection.
  apply holds_await, look_safe; [done..|]. intros o. destruct (fst _); [|done].
  apply holds_await, look_safe; [done..|]. intros o1. destruct (fst _); [|done].
  apply holds_await, look_safe; [done..|]. intros o2. destruct (fst _); [|done].
  by apply look_safe.
Qed.

(** A batch that commits is its statements in order. *)
Fixpoint stmts_exec (l : list Stmt) (f : DbFile) : option DbFile :=
  match l with [] => Some f | s :: l => f ← stmt_exec s f; stmts_exec l f end.

Lemma execute_batch_safe l : forall f, Forall (fun s => ddl s = true) l -> sound f0 f ->
  safe (execute_batch l) (fun r f' => match r with inl _ => stmts_exec l f = Some f' | inr _ => True end) f.
Proof.
  induction l as [|s l IH]; intros f Hl Hf; cbn [execute_batch]; [by apply holds_ret|]. apply Forall_cons in Hl as (Hd & Hl).
  apply holds_await, execute_safe; [done|done|by intros|]. intros f' He Hf'. cbn [stmts_exec]. rewrite He. cbn. by apply IH.
Qed.

(** Every table is there. *)
Definition present (f : DbFile) : Prop :=
  is_Some (f_meta f) /\ is_Some (f_queries f) /\ is_Some (f_stats f) /\ is_Some (f_heartbeat f) /\ is_Some (f_divergences f).

Lemma create_safe f : sound f0 f ->
  safe create_schema (fun r f' => match r with inl _ => present f' /\ claims f' = claims f | inr _ => True end) f.
Proof.
  intros Hf. unfold create_schema. generalize (execute_batch_safe _ f (ltac:(by repeat constructor) : Forall (fun s => ddl s = true)
    [CreateMeta; CreateQueries; CreateIdxQueries; CreateHeartbeat; CreateDaemonStats; CreateDivergences; CreateIdxDivergences]) Hf).
  apply holds_weaken; [done|]. intros [[]|e] f'; [|done]. destruct f as [m q h st d i j]. unfold claims, present.
  destruct m, q, h, st, d; cbn; intros [= <-]; (split; [by repeat split; eexists|done]).
Qed.

(** A migration step leaves its table as its version has it. *)
Lemma migrate_step_safe due (has : Sql (bool + list Z)) s (has_it : DbFile -> Prop) f :
  sound f0 f -> ddl s = true ->
  (forall Q : bool + list Z -> DbFile -> Prop, (forall e, Q (inr e) f) -> (forall b : bool, (b = true -> has_it f) -> Q (inl b) f) -> safe has Q f) ->
  (forall f', stmt_exec s f = Some f' -> has_it f' /\ (present f -> present f')) ->
  safe (migrate_step due has s)
    (fun r f' => match r with
                 | inl _ => claims f' = claims f /\ (present f -> present f') /\ (due = true -> has_it f')
                            /\ (f' = f \/ stmt_exec s f = Some f')
                 | inr _ => True end) f.
Proof.
  intros Hf Hd Hhas Hs. unfold migrate_step. destruct due; [|apply holds_ret; [done|]; split_and!; [done|done|done|by left]].
  apply holds_await, Hhas; [done|]. intros [] Hb; [apply holds_ret; [done|]; auto 6|].
  apply execute_safe; [done|done|done|]. intros f' He _. destruct (Hs f' He) as (H1 & H2). split; [by apply (ddl_claims s)|]. auto.
Qed.

Definition full_queries (f : DbFile) : Prop := exists t, f_queries f = Some t /\ qt_rewritten t = true.
Definition has_recents (f : DbFile) : Prop := exists t, f_stats f = Some t /\ st_recent t = true.
Definition has_runtimes (f : DbFile) : Prop := exists t, f_stats f = Some t /\ st_runtime t = true.

Lemma column_names_recent t : existsb (str_eqb (lit "log_events_dropped_recent")) (column_names t) = st_recent t.
Proof. by destruct t as [[] [] r]. Qed.
Lemma column_names_runtime t : existsb (str_eqb (lit "runtime_json")) (column_names t) = st_runtime t.
Proof. by destruct t as [[] [] r]. Qed.

Lemma has_column_safe name (has_it : DbFile -> Prop) f (Q : bool + list Z -> DbFile -> Prop) :
  sound f0 f -> (forall t, f_stats f = Some t -> existsb (str_eqb name) (column_names t) = true -> has_it f) ->
  (forall e, Q (inr e) f) -> (forall b : bool, (b = true -> has_it f) -> Q (inl b) f) -> safe (has_column name) Q f.
Proof.
  intros Hf Hn He Hb. unfold has_column. apply holds_await, look_safe; [done|done|]. intros o. cbn.
  destruct (so_fail o); [by split|]. destruct (f_stats f) as [t|] eqn:E; [|by split]. split; [done|]. apply Hb. by apply Hn.
Qed.

Lemma queries_know_safe f (Q : bool + list Z -> DbFile -> Prop) :
  sound f0 f -> (forall e, Q (inr e) f) -> (forall b : bool, (b = true -> full_queries f) -> Q (inl b) f) -> safe (event QueriesKnow) Q f.
Proof.
  intros Hf He Hb. apply look_safe; [done|done|]. intros o. cbn. destruct (so_fail o); [done|].
  destruct (f_queries f) as [t|] eqn:E; [|done]. apply Hb. intros Ht. by exists t.
Qed.

(** What a migration statement leaves. *)
Lemma add_recent_leaves f f' : stmt_exec AddRecent f = Some f' ->
  has_recents f' /\ (present f -> present f') /\ f_queries f' = f_queries f /\ (has_runtimes f -> has_runtimes f').
Proof.
  unfold has_recents, has_runtimes, present. cbn. destruct (f_stats f) as [t|] eqn:E; [|done]. cbn. destruct (st_recent t); [done|]. intros [= <-]. cbn.
  split; [by eexists|]. split; [intuition eauto|]. split; [done|]. intros (x & [= <-] & Hx). by eexists.
Qed.
Lemma add_runtime_leaves f f' : stmt_exec AddRuntime f = Some f' ->
  has_runtimes f' /\ (present f -> present f') /\ f_queries f' = f_queries f /\ (has_recents f -> has_recents f').
Proof.
  unfold has_recents, has_runtimes, present. cbn. destruct (f_stats f) as [t|] eqn:E; [|done]. cbn. destruct (st_runtime t); [done|]. intros [= <-]. cbn.
  split; [by eexists|]. split; [intuition eauto|]. split; [done|]. intros (x & [= <-] & Hx). by eexists.
Qed.
Lemma rebuild_leaves f f' : stmt_exec RebuildQueries f = Some f' ->
  full_queries f' /\ (present f -> present f') /\ f_stats f' = f_stats f.
Proof.
  unfold full_queries, present. cbn. destruct (f_queries f) as [t|] eqn:E; [|done]. intros [= <-]. cbn.
  split; [by eexists|]. split; [intuition eauto|done].
Qed.

(** The three steps together: the file is complete for its version. *)
Lemma migrate_safe from f : sound f0 f -> present f -> claims f = Some from ->
  safe (migrate_schema from) (fun r f' => match r with inl _ => complete f' /\ present f' /\ claims f' = claims f | inr _ => True end) f.
Proof.
  intros Hf Hp Hc. unfold migrate_schema. apply holds_await.
  generalize (holds_and_inv _ _ _ _ (migrate_step_safe (from <? 2) (has_column (lit "log_events_dropped_recent")) AddRecent has_recents f Hf eq_refl
    ltac:(intros Q He Hb; apply (has_column_safe _ has_recents); [done|intros t Et; rewrite column_names_recent; by exists t|done|done])
    ltac:(intros f' E; destruct (add_recent_leaves _ _ E) as (? & ? & _); done))).
  apply holds_weaken; [done|]. intros [[]|e] f1 (H1 & D1); [|done]. destruct D1 as (C1 & P1 & R1 & S1). apply holds_await.
  generalize (holds_and_inv _ _ _ _ (migrate_step_safe (from <? 3) (event QueriesKnow) RebuildQueries full_queries f1 H1 eq_refl
    ltac:(intros Q He Hb; by apply queries_know_safe) ltac:(intros f' E; destruct (rebuild_leaves _ _ E) as (? & ? & _); done))).
  apply holds_weaken; [done|]. intros [[]|e] f2 (H2 & D2); [|done]. destruct D2 as (C2 & P2 & R2 & S2).
  generalize (holds_and_inv _ _ _ _ (migrate_step_safe (from <? 4) (has_column (lit "runtime_json")) AddRuntime has_runtimes f2 H2 eq_refl
    ltac:(intros Q He Hb; apply (has_column_safe _ has_runtimes); [done|intros t Et; rewrite column_names_runtime; by exists t|done|done])
    ltac:(intros f' E; destruct (add_runtime_leaves _ _ E) as (? & ? & _); done))).
  apply holds_weaken; [done|]. intros [[]|e] f3 (H3 & D3); [|done]. destruct D3 as (C3 & P3 & R3 & S3).
  pose proof (P3 (P2 (P1 Hp))) as Hp3. split; [|split; [done|congruence]].
  destruct H3 as ((Hs & Hq) & _). rewrite C3, C2, C1, Hc in Hs, Hq. destruct Hp3 as (_ & (q & Eq) & (t & Et) & Hh & Hd).
  assert (Hq3 : from < 3 -> full_queries f3).
  { intros Hlt. destruct (R2 (proj2 (Z.ltb_lt _ _) Hlt)) as (x & Ex & Hx). exists x. split; [|done].
    destruct S3 as [->|E]; [done|]. by rewrite (proj1 (proj2 (proj2 (add_runtime_leaves _ _ E)))). }
  assert (Hr3 : from < 2 -> has_recents f3).
  { intros Hlt. assert (Hr2 : has_recents f2).
    { destruct S2 as [->|E]; [by apply R1, Z.ltb_lt|]. destruct (R1 (proj2 (Z.ltb_lt _ _) Hlt)) as (x & Ex & Hx). exists x.
      by rewrite (proj2 (proj2 (rebuild_leaves _ _ E))). }
    destruct S3 as [->|E]; [done|]. by apply (add_runtime_leaves _ _ E). }
  destruct (Hs t Et) as (Hs1 & Hs2). split; [|split; [|done]].
  - exists q. split; [done|]. destruct (qt_rewritten q) eqn:Er; [done|]. destruct (Hq q Eq Er) as (v & [= <-] & Hv).
    destruct (Hq3 Hv) as (x & Ex & Hx). rewrite Eq in Ex. congruence.
  - exists t. split; [done|]. split.
    + destruct (st_recent t) eqn:Er; [done|]. destruct (Hs1 eq_refl) as (v & [= <-] & Hv).
      destruct (Hr3 Hv) as (x & Ex & Hx). rewrite Et in Ex. congruence.
    + destruct (st_runtime t) eqn:Er; [done|]. destruct (Hs2 eq_refl) as (v & [= <-] & Hv).
      destruct (R3 (proj2 (Z.ltb_lt _ _) Hv)) as (x & Ex & Hx). rewrite Et in Ex. congruence.
Qed.

(** A file whose version allows nothing to be missing. *)
Lemma honest_complete f : sound f0 f -> present f -> (forall n, n <= 4 -> ~ older (claims f) n) -> complete f.
Proof.
  intros ((Hs & Hq) & _) (_ & (q & Eq) & (t & Et) & Hh & Hd) Hn. destruct (Hs t Et) as (H1 & H2). specialize (Hq q Eq).
  split; [exists q; split; [done|]|split; [exists t; split; [done|split]|done]];
    [destruct (qt_rewritten q)|destruct (st_recent t)|destruct (st_runtime t)]; try done.
  - destruct (Hn 3); [lia|]. by apply Hq.
  - destruct (Hn 2); [lia|]. by apply H1.
  - destruct (Hn 4); [lia|]. by apply H2.
Qed.

Lemma stamp_current f : complete f -> current (with_meta f (Some (to_string SCHEMA_VERSION))).
Proof. intros Hc. split; [apply stamp_claims; unfold SCHEMA_VERSION, u32_max; lia|exact Hc]. Qed.

Definition too_new (f : DbFile) : Prop := exists n, claims f = Some n /\ SCHEMA_VERSION < n.

Lemma version_read f v : mjoin (f_meta f) = Some v -> claims f = Some (default 0 (parse_uint u32_max v)).
Proof. unfold claims. by intros ->. Qed.
Lemma version_missing f : mjoin (f_meta f) = None -> claims f = None.
Proof. unfold claims. by intros ->. Qed.

Lemma ensure_safe f : sound f0 f -> present f ->
  safe ensure_schema_version (fun r f' => match r with inl _ => current f' /\ ~ too_new f | inr _ => True end) f.
Proof.
  intros Hf Hp. unfold ensure_schema_version. apply holds_event; [done|]. intros o. rewrite looks_same by done. cbn [sexec fst].
  assert (Hnone : safe (err_into Db.Sql (event (Execute (InsertVersion (to_string SCHEMA_VERSION)))))
      (fun r f' => match r with inl _ => current f' /\ ~ too_new f | inr _ => True end) f).
  { apply holds_err_into, holds_last; [done|]. intros o'. cbn. destruct (so_fail o'); [done|]. destruct (f_meta f) as [[v|]|] eqn:Em; [done| |done].
    cbn [fst snd map_err]. assert (Hn : claims f = None) by (apply version_missing; by rewrite Em).
    assert (Hc : complete f) by (apply honest_complete; [done|done|]; rewrite Hn; by intros n _ (v & ? & _)).
    split; [by apply stamp_sound|]. split; [by apply stamp_current|]. unfold too_new. rewrite Hn. by intros (n & ? & _). }
  destruct (so_fail o); [exact Hnone|]. change (m ← f_meta f; m) with (mjoin (f_meta f)).
  destruct (mjoin (f_meta f)) as [v|] eqn:Em; [|exact Hnone]. clear Hnone. apply version_read in Em. set (found := default 0 _) in *.
  destruct (Z.ltb_spec SCHEMA_VERSION found) as [Hgt|Hle]; [by apply holds_ret|].
  assert (Hnew : ~ too_new f) by (intros (n & En & Hn); rewrite Em in En; injection En as <-; lia).
  destruct (Z.ltb_spec found SCHEMA_VERSION) as [Hlt|Hge].
  - apply holds_await, holds_err_into. generalize (holds_and_inv _ _ _ _ (migrate_safe found f Hf Hp Em)).
    apply holds_weaken; [done|]. intros [[]|e] f1 (H1 & D1); [|done]. destruct D1 as (Hc1 & _). cbn [map_err].
    apply holds_err_into, holds_last; [done|]. intros o'. cbn. destruct (so_fail o'); [done|]. destruct (f_meta f1) as [m|]; [|done]. cbn.
    split; [by apply stamp_sound|]. split; [by apply stamp_current|done].
  - apply holds_ret; [done|]. split; [|done]. assert (E : found = SCHEMA_VERSION) by lia. split; [by rewrite Em, E|].
    apply honest_complete; [done|done|]. intros n Hn (x & Ex & Hx). rewrite Em in Ex. injection Ex as <-. unfold SCHEMA_VERSION in *. lia.
Qed.

Lemma open_safe path capacity f : sound f0 f ->
  safe (open_with_queue_capacity path capacity)
    (fun r f' => match r with inl w => w = writer_new capacity /\ current f' /\ ~ too_new f | inr _ => True end) f.
Proof.
  intros Hf. unfold open_with_queue_capacity.
  apply holds_await, holds_err_into, look_safe; [done|done|]. intros o. destruct (fst _) as [[]|e]; [|done]. cbn [map_err].
  apply holds_await, holds_err_into. generalize (holds_and_inv _ _ _ _ (init_safe f Hf)). apply holds_weaken; [done|].
  intros [[]|e] f' (_ & ->); [|done]. cbn [map_err].
  apply holds_await, holds_err_into. generalize (holds_and_inv _ _ _ _ (create_safe f Hf)). apply holds_weaken; [done|].
  intros [[]|e] f1 (H1 & D1); [|done]. destruct D1 as (Hp & Hc). cbn [map_err].
  apply holds_await. generalize (holds_and_inv _ _ _ _ (ensure_safe f1 H1 Hp)). apply holds_weaken; [done|].
  intros [[]|e] f2 (H2 & D2); [|done]. destruct D2 as (Hcur & Hn). unfold too_new in Hn. rewrite Hc in Hn. cbn beta iota.
  apply holds_await, holds_err_into, look_safe; [done|done|]. intros o'. destruct (fst _) as [[]|e]; [|done]. cbn [map_err].
  by apply holds_ret.
Qed.
End Stages.

(** ** The undisturbed opening *)

Lemma tables_of_file t : tables_of (file_of t) = t.
Proof. by destruct t as [? [] ? ? ? ? ? ?]. Qed.

(** Nothing fails. *)
Definition fine : SOracle := mkSOracle None [].
Notation runs_to p f r := (Proc.perform sexec fine p f = Some r).

Lemma create_runs f : runs_to create_schema f (inl tt, file_of (tables_of f)).
Proof.
  destruct f as [m q h s d i j]. destruct m, q as [[]|], h, s as [[]|], d as [[]|]; reflexivity.
Qed.

(** A migration step on tables. *)
Lemma migrate_step_runs due has s t t' has_it :
  Proc.perform sexec fine has (file_of t) = Some (inl has_it, file_of t) ->
  (has_it = false -> stmt_exec s (file_of t) = Some (file_of t')) -> (has_it = true -> t' = t) ->
  runs_to (migrate_step due has s) (file_of t) (inl tt, file_of (if due then t' else t)).
Proof.
  intros Hh Hs Ht. unfold migrate_step. destruct due; [|done]. rewrite perform_await, Hh. destruct has_it; [by rewrite Ht|].
  cbn. by rewrite Hs.
Qed.

Lemma add_recent_exec t : has_recent (t_shape t) = false -> stmt_exec AddRecent (file_of t) = Some (file_of (add_recent t)).
Proof. destruct t as [v [r1 r2 r3] q n h [s|] d nd]; cbn; intros ->; reflexivity. Qed.
Lemma add_runtime_exec t : has_runtime (t_shape t) = false -> stmt_exec AddRuntime (file_of t) = Some (file_of (add_runtime t)).
Proof. destruct t as [v [r1 r2 r3] q n h [s|] d nd]; cbn; intros ->; reflexivity. Qed.
Lemma rebuild_exec t : knows_rewritten (t_shape t) = false -> stmt_exec RebuildQueries (file_of t) = Some (file_of (rebuild_queries t)).
Proof. destruct t as [v [r1 r2 r3] q n h s d nd]; cbn; intros ->; reflexivity. Qed.

Lemma has_column_runs name t :
  runs_to (has_column name) (file_of t)
    (inl (existsb (str_eqb name) (column_names (mkStatsTable (has_recent (t_shape t)) (has_runtime (t_shape t)) (t_stats t)))), file_of t).
Proof. unfold has_column. rewrite perform_await. done. Qed.

Lemma migrate_runs t from : runs_to (migrate_schema from) (file_of t) (inl tt, file_of (migrated t from)).
Proof.
  unfold migrate_schema, migrated. rewrite perform_await.
  rewrite (migrate_step_runs _ _ _ t (add_recent t) (has_recent (t_shape t))).
  2: by rewrite has_column_runs, column_names_recent.
  2: by apply add_recent_exec. 2: intros E; unfold add_recent; by rewrite E.
  set (t1 := if from <? 2 then add_recent t else t). rewrite perform_await.
  rewrite (migrate_step_runs _ _ _ t1 (rebuild_queries t1) (knows_rewritten (t_shape t1))); [|done|by apply rebuild_exec|intros E; unfold rebuild_queries; by rewrite E].
  set (t2 := if from <? 3 then rebuild_queries t1 else t1).
  rewrite (migrate_step_runs _ _ _ t2 (add_runtime t2) (has_runtime (t_shape t2))); [done| |by apply add_runtime_exec|intros E; unfold add_runtime; by rewrite E].
  by rewrite has_column_runs, column_names_runtime.
Qed.

Lemma ensure_runs t :
  runs_to ensure_schema_version (file_of t)
    match versioned t with inl t' => (inl tt, file_of t') | inr e => (inr e, file_of t) end.
Proof.
  unfold ensure_schema_version, versioned. rewrite perform_bind. cbn [Proc.perform event sexec fst snd fine so_fail file_of f_meta mbind option_bind].
  destruct (t_version t) as [v|] eqn:Ev.
  - destruct (SCHEMA_VERSION <? _); [done|]. destruct (_ <? SCHEMA_VERSION); [|done].
    rewrite perform_await, perform_err_into, migrate_runs. cbn [map_err]. rewrite perform_err_into. done.
  - rewrite perform_err_into. cbn. by rewrite Ev.
Qed.

Lemma open_runs path capacity f :
  runs_to (open_with_queue_capacity path capacity) f
    match versioned (tables_of f) with
    | inl t => (inl (writer_new capacity), file_of t)
    | inr e => (inr e, file_of (tables_of f))
    end.
Proof.
  unfold open_with_queue_capacity. rewrite perform_await, perform_err_into.
  cbn [Proc.perform event sexec fine so_fail fst snd map_err]. rewrite perform_await, perform_err_into.
  change (Proc.perform sexec fine init_connection f) with (Some (inl tt : unit + list Z, f)). cbn [map_err].
  rewrite perform_await, perform_err_into, create_runs. cbn [map_err]. rewrite perform_await, ensure_runs.
  by destruct (versioned (tables_of f)).
Qed.

Lemma versioned_refuses t e : versioned t = inr e -> exists n, e = SchemaTooNew n SCHEMA_VERSION /\ claims (file_of t) = Some n /\ SCHEMA_VERSION < n.
Proof.
  unfold versioned, claims, file_of. cbn. destruct (t_version t) as [v|]; [|done]. destruct (Z.ltb_spec SCHEMA_VERSION (default 0 (parse_uint u32_max v))); [|by destruct (_ <? _)].
  intros [= <-]. eexists. split; [done|]. split; [done|]. done.
Qed.

Lemma claims_file_of f : claims (file_of (tables_of f)) = claims f.
Proof. done. Qed.

(** ** Properties *)

(** An opening that may stop anywhere: it failed, or the machine did. *)
Definition attempt (f f' : DbFile) : Prop := exists path capacity, Proc.reaches sexec (open_with_queue_capacity path capacity) f f'.

Lemma attempts_sound f0 f : sound f0 f0 -> rtc attempt f0 f -> sound f0 f.
Proof.
  intros H0 Hr. assert (Hgen : forall a b, rtc attempt a b -> sound f0 a -> sound f0 b); [|by apply (Hgen f0 f)].
  clear Hr f. intros a b. induction 1 as [a|a b c (path & capacity & Hab) Hr IH]; intros Ha; [done|]. apply IH.
  by apply (holds_reaches _ _ _ _ _ (open_safe f0 path capacity a Ha)).
Qed.

(** C37: opening survives crashes. Take a file whose tables lack only what
    its version says they lack, let any number of openings fail or be cut
    off at any statement, and open what is left: every row, the heartbeat,
    the divergences and the published counters are there, unchanged and in
    order; if no statement fails now the opening ends, either with every
    table and column of version 4, the version row saying so, ids not
    reused, and an empty queue for the writer, or, for a file of a newer
    version only, with the refusal that names both versions. *)
Theorem open_survives_crashes path capacity f0 f :
  honest f0 -> fresh_ids (f_queries f0) -> rtc attempt f0 f ->
  honest f /\ carries f0 f
  /\ match Proc.perform sexec fine (open_with_queue_capacity path capacity) f with
     | Some (inl w, f') => w = writer_new capacity /\ current f' /\ fresh_ids (f_queries f') /\ carries f0 f'
     | Some (inr e, f') => carries f0 f' /\ exists n, e = SchemaTooNew n SCHEMA_VERSION /\ claims f = Some n /\ SCHEMA_VERSION < n
     | None => False
     end.
Proof.
  intros Hh Hi Hr. assert (Hs : sound f0 f) by (apply attempts_sound; [split; [done|]; split; [done|apply carries_refl]|done]).
  split; [apply Hs|]. split; [apply Hs|]. pose proof (open_safe f0 path capacity f Hs) as Ho. pose proof (open_runs path capacity f) as Hp.
  destruct (versioned (tables_of f)) as [t|e] eqn:Ev; rewrite Hp; destruct (perform_holds _ _ _ _ _ _ _ Ho Hp) as ((_ & Hf' & Hc') & Hq).
  - destruct Hq as (Hw & Hcur & _). done.
  - split; [done|]. exact (versioned_refuses (tables_of f) e Ev).
Qed.

(** The statements of [Db::open] come to what the rest of the library
    takes opening to be: on every file, new, old or half made, an
    undisturbed run ends, and with the tables [db_open] gives, or with its
    error; a file that does not exist becomes that of [db_open None]. *)
Theorem open_refines path capacity f :
  Proc.perform sexec fine (open_with_queue_capacity path capacity) f
  = Some match db_open (Some (tables_of f)) with
         | inl t => (inl (writer_new capacity), file_of t)
         | inr e => (inr e, file_of (tables_of f))
         end
  /\ db_open None = db_open (Some (tables_of file_new)) /\ (forall t, tables_of (file_of t) = t).
Proof. split; [apply open_runs|]. split; [done|apply tables_of_file]. Qed.

(** ** Examples *)

(** A version 2 file with a logged query. *)
Definition old_row : QueryRow :=
  mkQueryRow 7 100 (lit "192.168.1.10") (lit "example.com") 1 (lit "blocked") None (Some 0) (lit "synth") 3 12.
Definition old_file : DbFile :=
  mkDbFile (Some (Some (lit "2"))) (Some (mkQueries false [old_row] 8)) (Some None)
    (Some (mkStatsTable true false (Some (mkDaemonStats 90 1 0 (lit "{}") [])))) (Some ([], 1)) true true.
(** The crash came after the rebuild, before the version was stamped. *)
Definition half_migrated : DbFile := default old_file (stmt_exec RebuildQueries old_file).

Lemma open_survives_crashes_witness :
  match Proc.perform sexec fine (open_with_queue_capacity (lit "/db") 4096) half_migrated with
  | Some (inl w, f') => current f' /\ carries old_file f'
  | _ => False
  end.
Proof.
  assert (Hh : honest old_file).
  { split; intros t [= <-]; [split; [intros [=]|]|]; intros _; exists 2; (split; [vm_compute; reflexivity|lia]). }
  assert (Hi : fresh_ids (f_queries old_file)) by (intros t [= <-]; repeat constructor).
  assert (Hr : rtc attempt old_file half_migrated).
  { apply rtc_once. exists (lit "/db"), 4096. do 15 (right; exists fine). left. vm_compute. reflexivity. }
  destruct (open_survives_crashes (lit "/db") 4096 old_file half_migrated Hh Hi Hr) as (_ & _ & Ho).
  assert (E : match Proc.perform sexec fine (open_with_queue_capacity (lit "/db") 4096) half_migrated with Some (inl _, _) => True | _ => False end)
    by (vm_compute; exact I).
  destruct (Proc.perform sexec fine (open_with_queue_capacity (lit "/db") 4096) half_migrated) as [[[w|e] f']|]; [|destruct E..].
  destruct Ho as (_ & Hc & _ & Hk). by split.
Defined.

(** The premise matters: an older binary that crashed between creating its
    tables and writing the version row leaves old tables without a
    version; opening stamps them as current without migrating. *)
Definition unversioned_file : DbFile :=
  mkDbFile (Some None) (Some (mkQueries false [] 1)) (Some None) (Some (mkStatsTable false false None)) (Some ([], 1)) true true.

Example unversioned_left_half_shaped :
  match Proc.perform sexec fine (db_open_file (lit "/db")) unversioned_file with
  | Some (inl _, f') => claims f' = Some SCHEMA_VERSION /\ ~ current f'
  | _ => False
  end.
Proof.
  assert (E : match Proc.perform sexec fine (db_open_file (lit "/db")) unversioned_file with
    Some (inl _, f') => claims f' = Some SCHEMA_VERSION /\ qt_rewritten <$> f_queries f' = Some false | _ => False end) by (by vm_compute).
  destruct (Proc.perform _ _ _ _) as [[[w|e] f']|]; [|done..]. destruct E as (Hc & Hq). split; [done|]. intros (_ & (t & Et & Ht) & _).
  rewrite Et in Hq. cbn in Hq. congruence.
Qed.
