(* ===== verification/Pipeline.v ===== *)
(** * Pipeline: the shared state of the server and its atomic operations ([crates/core/src/server.rs])

    Everything the tasks of the server share ([Pipeline], the broadcast
    channels of the single-flight lookups) and the events of its
    asynchronous code: one event per mutex section, atomic counter, channel
    operation or await. [exec] is the meaning of an event; what the outside
    decides (the clock, the upstream's answer, the reference resolver's
    datagram) is an [Oracle]. *)
From S2P Require Import Prelude Text Time IpAddr FilterTypes Engine Dns Cache FailCache SafeSearch Shadow Db Proc.

(** [ipnet::IpNet] with [contains]. *)
Class IpNetOps := {
  IpNet : Type;
  net_contains : IpNet -> IpAddr -> bool
}.

(** Hard cap on queries being handled at once. *)
Definition MAX_IN_FLIGHT_QUERIES : Z := 512.

Section Pipeline.
Context `{HickoryOps} `{HashIter} `{IpNetOps}.
Notation kid := (list Z * Z * Z)%type.

(** Everything that decides an answer, swapped as one value. *)
Record Policy := mkPolicy {
  pol_engine : Engine;
  pol_safesearch : SafeSearch;
  pol_allow : list IpNet
}.

(** ** Broadcast channels (tokio, capacity 1)

    The messages sent, the senders alive, and for a receiver the number of
    messages sent before it subscribed. *)
Definition Chan := nat.
Record Channel := mkChannel { ch_sent : list (option Message); ch_senders : nat }.
Record Receiver := mkReceiver { rx_chan : Chan; rx_from : nat }.

Inductive RecvResult := RecvOk (v : option Message) | RecvErr.

(** [rx.recv()]: [None] while nothing was sent and a sender is alive. *)
Definition recv (c : Channel) (from : nat) : option RecvResult :=
  match ch_sent c !! from with
  | Some v => if (S from <? length (ch_sent c))%nat then Some RecvErr (* Lagged *) else Some (RecvOk v)
  | None => if (ch_senders c =? 0)%nat then Some RecvErr (* Closed *) else None
  end.

(** ** The pipeline *)
Record Pipeline := mkPipeline {
  p_policy : Policy;
  p_cache : Inner;
  p_writer : DbWriter;
  p_in_flight : Z;
  p_refreshing : gset kid;
  p_lookups : gmap kid Chan;
  p_shadow : option Shadow;
  p_failures : gmap kid Failure;
  p_channels : gmap Chan Channel;
  p_next_chan : Chan
}.

(** [Pipeline::from_policy] *)
Definition from_policy (policy : Policy) (cache : Inner) (writer : DbWriter) : Pipeline :=
  mkPipeline policy cache writer 0 ∅ ∅ None fc_new ∅ 0%nat.

Definition pipeline_new (engine : Engine) (cache : Inner) (ss : SafeSearch) (writer : DbWriter) (allow : list IpNet) : Pipeline :=
  from_policy (mkPolicy engine ss allow) cache writer.

Definition set_policy (p : Pipeline) (x : Policy) : Pipeline :=
  mkPipeline x (p_cache p) (p_writer p) (p_in_flight p) (p_refreshing p) (p_lookups p) (p_shadow p) (p_failures p) (p_channels p) (p_next_chan p).
Definition set_cache (p : Pipeline) (x : Inner) : Pipeline :=
  mkPipeline (p_policy p) x (p_writer p) (p_in_flight p) (p_refreshing p) (p_lookups p) (p_shadow p) (p_failures p) (p_channels p) (p_next_chan p).
Definition set_writer (p : Pipeline) (x : DbWriter) : Pipeline :=
  mkPipeline (p_policy p) (p_cache p) x (p_in_flight p) (p_refreshing p) (p_lookups p) (p_shadow p) (p_failures p) (p_channels p) (p_next_chan p).
Definition set_in_flight (p : Pipeline) (x : Z) : Pipeline :=
  mkPipeline (p_policy p) (p_cache p) (p_writer p) x (p_refreshing p) (p_lookups p) (p_shadow p) (p_failures p) (p_channels p) (p_next_chan p).
Definition set_refreshing (p : Pipeline) (x : gset kid) : Pipeline :=
  mkPipeline (p_policy p) (p_cache p) (p_writer p) (p_in_flight p) x (p_lookups p) (p_shadow p) (p_failures p) (p_channels p) (p_next_chan p).
Definition set_lookups (p : Pipeline) (x : gmap kid Chan) : Pipeline :=
  mkPipeline (p_policy p) (p_cache p) (p_writer p) (p_in_flight p) (p_refreshing p) x (p_shadow p) (p_failures p) (p_channels p) (p_next_chan p).
Definition set_shadow_state (p : Pipeline) (x : option Shadow) : Pipeline :=
  mkPipeline (p_policy p) (p_cache p) (p_writer p) (p_in_flight p) (p_refreshing p) (p_lookups p) x (p_failures p) (p_channels p) (p_next_chan p).
Definition set_failures (p : Pipeline) (x : gmap kid Failure) : Pipeline :=
  mkPipeline (p_policy p) (p_cache p) (p_writer p) (p_in_flight p) (p_refreshing p) (p_lookups p) (p_shadow p) x (p_channels p) (p_next_chan p).
Definition set_channels (p : Pipeline) (x : gmap Chan Channel) (n : Chan) : Pipeline :=
  mkPipeline (p_policy p) (p_cache p) (p_writer p) (p_in_flight p) (p_refreshing p) (p_lookups p) (p_shadow p) (p_failures p) x n.

(** [set_shadow], [policy], [install], [swap_policy], [swap_engine],
    [in_flight], [log_events_dropped]. *)
Definition set_shadow (p : Pipeline) : Pipeline := set_shadow_state p (Some shadow_new).
Definition policy (p : Pipeline) : Policy := p_policy p.
Definition install (p : Pipeline) (x : Policy) : Pipeline := set_policy p x.
Definition swap_policy (p : Pipeline) (ss : SafeSearch) (allow : list IpNet) : Pipeline :=
  install p (mkPolicy (pol_engine (policy p)) ss allow).
Definition swap_engine (p : Pipeline) (e : Engine) : Pipeline :=
  install p (mkPolicy e (pol_safesearch (policy p)) (pol_allow (policy p))).
Definition in_flight (p : Pipeline) : Z := p_in_flight p.
Definition log_events_dropped (p : Pipeline) : Z := dropped (p_writer p).

(** ** Spawned tasks *)
Inductive Task :=
| TLeader (request : Message) (qname : list Z) (key : CacheKey) (now : Instant) (tx : Chan)
| TRefresh (request : Message) (key : CacheKey)
| TCompare (request ours : Message) (ours_blocked : bool) (qname : list Z) (qtype : Z).

(** What the upstream's future comes to: an answer, an error, or a panic
    of the task that awaits it. *)
Inductive Resolved := Answered (m : Message) | NoUpstream | Panicked.

(** ** Events *)
Inductive Ev : Type -> Type :=
(* clocks *)
| InstantNow : Ev Instant
| UnixNow : Ev Z
(* the in-flight counter *)
| FetchAdd : Ev Z
| FetchSub : Ev unit
(* the policy, the cache, the failure cache *)
| LoadPolicy : Ev Policy
| CacheGet (key : CacheKey) (now : Instant) : Ev Lookup
| CacheInsert (key : CacheKey) (m : Message) (now : Instant) : Ev unit
| FailHeld (key : CacheKey) (now : Instant) : Ev (option Duration)
| FailRecord (key : CacheKey) (now : Instant) : Ev Duration
| FailClear (key : CacheKey) : Ev unit
(* the single-flight map and its channels *)
| JoinLookup (key : CacheKey) : Ev (Receiver * option Chan)
| RemoveLookup (key : CacheKey) : Ev unit
| Send (tx : Chan) (v : option Message) : Ev unit
| DropSender (tx : Chan) : Ev unit
| Recv (rx : Receiver) : Ev RecvResult
(* the refresh set *)
| RefreshInsert (key : CacheKey) : Ev bool
| RefreshRemove (key : CacheKey) : Ev unit
(* the upstream, the log, the shadow reference *)
| Resolve (q : Message) : Ev Resolved
| Log (e : LogEvent) : Ev bool
| ShadowOn : Ev bool
| TryAcquire : Ev bool
| Release : Ev unit
| ReferenceExchange (bytes : list Z) : Ev (option (list Z))
(* tokio::spawn *)
| SpawnTask (t : Task) : Ev unit.

(** ** What the outside decides *)
Record Oracle := mkOracle {
  or_instant : Instant;
  or_unix : Z;
  or_resolved : Resolved;
  or_reference : option (list Z)
}.

(** The locked block of [resolve_shared]: subscribe to the lookup in
    flight, or open one (the map keeps a clone of the sender). *)
Definition join_lookup (p : Pipeline) (key : CacheKey) : (Receiver * option Chan) * Pipeline :=
  match p_lookups p !! key_id key with
  | Some c => ((mkReceiver c (length (ch_sent (default (mkChannel [] 0) (p_channels p !! c)))), None), p)
  | None =>
      let c := p_next_chan p in
      ((mkReceiver c 0, Some c),
       set_channels (set_lookups p (<[key_id key := c]> (p_lookups p)))
         (<[c := mkChannel [] 2]> (p_channels p)) (S c))
  end.

Definition drop_sender (p : Pipeline) (c : Chan) : Pipeline :=
  set_channels p (alter (fun ch => mkChannel (ch_sent ch) (pred (ch_senders ch))) c (p_channels p)) (p_next_chan p).

(** [RemoveOnDrop]: the entry goes, and with it the map's sender. *)
Definition remove_lookup (p : Pipeline) (key : CacheKey) : Pipeline :=
  match p_lookups p !! key_id key with
  | Some c => drop_sender (set_lookups p (delete (key_id key) (p_lookups p))) c
  | None => p
  end.

Definition send (p : Pipeline) (c : Chan) (v : option Message) : Pipeline :=
  set_channels p (alter (fun ch => mkChannel (ch_sent ch ++ [v]) (ch_senders ch)) c (p_channels p)) (p_next_chan p).

(** The meaning of an event: [None] while it cannot happen (a [recv] that
    has to wait). *)
Definition exec (o : Oracle) {B} (e : Ev B) (p : Pipeline) : option (B * Pipeline) :=
  match e in Ev B return option (B * Pipeline) with
  | InstantNow => Some (or_instant o, p)
  | UnixNow => Some (or_unix o, p)
  | FetchAdd => Some (p_in_flight p, set_in_flight p (p_in_flight p + 1))
  | FetchSub => Some (tt, set_in_flight p (p_in_flight p - 1))
  | LoadPolicy => Some (p_policy p, p)
  | CacheGet key now => '(l, c) ← get (p_cache p) key now; Some (l, set_cache p c)
  | CacheInsert key m now => c ← Cache.insert (p_cache p) key m now; Some (tt, set_cache p c)
  | FailHeld key now => Some (held (p_failures p) key now, p)
  | FailRecord key now => Some (fst (record (p_failures p) key now), set_failures p (snd (record (p_failures p) key now)))
  | FailClear key => Some (tt, set_failures p (clear (p_failures p) key))
  | JoinLookup key => Some (join_lookup p key)
  | RemoveLookup key => Some (tt, remove_lookup p key)
  | Send tx v => Some (tt, send p tx v)
  | DropSender tx => Some (tt, drop_sender p tx)
  | Recv rx => ch ← p_channels p !! rx_chan rx; r ← recv ch (rx_from rx); Some (r, p)
  | RefreshInsert key =>
      Some (negb (bool_decide (key_id key ∈ p_refreshing p)), set_refreshing p ({[ key_id key ]} ∪ p_refreshing p))
  | RefreshRemove key => Some (tt, set_refreshing p (p_refreshing p ∖ {[ key_id key ]}))
  | Resolve q => Some (or_resolved o, p)
  | Log ev => Some (fst (log (p_writer p) ev), set_writer p (snd (log (p_writer p) ev)))
  | ShadowOn => Some (bool_decide (is_Some (p_shadow p)), p)
  | TryAcquire =>
      match s ← p_shadow p; try_acquire s with
      | Some s => Some (true, set_shadow_state p (Some s))
      | None => Some (false, p)
      end
  | Release => Some (tt, set_shadow_state p (release <$> p_shadow p))
  | ReferenceExchange bytes => Some (or_reference o, p)
  | SpawnTask t => Some (tt, p)
  end.

(** The task an event spawns. *)
Definition spawned {B} (e : Ev B) : list Task := match e with SpawnTask t => [t] | _ => [] end.
End Pipeline.
