(* ===== verification/Server.v ===== *)
(** * Server: the request pipeline ([crates/core/src/server.rs])

    The response constructors, [handle_at] and the functions it calls, and
    the tasks it spawns, as trees of the events of Pipeline: the code of
    the source between two awaits or locks is the code between two events.
    The comparison task of shadow.rs is here too, since it runs on the same
    runtime. A task that dies unwinds: its drop guards run, which is the
    [Panicked] branch of the await it dies in. *)
From S2P Require Import Prelude Text Time IpAddr FilterTypes Engine Dns Cache FailCache SafeSearch Shadow Db Proc Pipeline.

(** Synthetic SOA fields for blocked answers. *)
Definition BLOCK_SOA_MNAME : list Z := lit "sumidero.invalid.".
Definition BLOCK_SOA_RNAME : list Z := lit "nobody.sumidero.invalid.".
Definition BLOCK_SOA_TTL : Z := 300.
Definition SAFESEARCH_CNAME_TTL : Z := 300.

(** [normalize_qname]: lowercase, strip one trailing dot. *)
Definition normalize_qname (name : list Z) : list Z :=
  let lower := to_ascii_lowercase name in
  default lower (strip_suffix [c_dot] lower).

Section Server.
Context `{HickoryOps} `{HashIter} `{IpNetOps} `{RcodeDisplay}.
Notation Async := (Proc Ev).

Definition client_allowed (allow : list IpNet) (client : IpAddr) : bool :=
  existsb (fun net => net_contains net client) allow.

(** ** Responses *)
Definition client_wants_dnssec (request : Message) : bool :=
  match edns request with Some e => edns_dnssec_ok e | None => false end.

Definition apply_edns (resp request : Message) : Message :=
  match edns request with
  | None => set_edns resp None
  | Some _ =>
      let e := default (edns_set_max_payload edns_new 1232) (edns resp) in
      set_edns resp (Some (edns_set_dnssec_ok e (client_wants_dnssec request)))
  end.

Definition response_skeleton (request : Message) : Message :=
  let resp := message_new (msg_id (metadata request)) MResponse OpQuery in
  let resp := fold_left add_query (queries request) resp in
  let resp := set_meta resp (with_rd (recursion_desired (metadata request))) in
  let resp := set_meta resp (with_ra true) in
  apply_edns resp request.

(** [synth_block_response]: NXDOMAIN and a synthetic SOA; [None] is the
    panic of an invalid static name. *)
Definition synth_block_response (request : Message) : option Message :=
  let resp := set_rcode (response_skeleton request) NXDomain in
  mname ← name_from_ascii BLOCK_SOA_MNAME;
  rname ← name_from_ascii BLOCK_SOA_RNAME;
  let soa := mkSoa mname rname 1 3600 900 604800 BLOCK_SOA_TTL in
  Some (add_authority resp (record_from_rdata mname BLOCK_SOA_TTL (RSOA soa))).

Definition synth_refused (request : Message) : Message := set_rcode (response_skeleton request) Refused.
Definition synth_servfail (request : Message) : Message := set_rcode (response_skeleton request) ServFail.
Definition synth_formerr (request : Message) : Message := set_rcode (response_skeleton request) FormErr.

(** [restamp]: adopt a cached or upstream message as the answer. *)
Definition restamp (msg request : Message) : Message :=
  let msg := set_meta msg (with_id (msg_id (metadata request))) in
  let msg := set_meta msg (with_type MResponse) in
  let msg := set_meta msg (with_rd (recursion_desired (metadata request))) in
  let msg := set_meta msg (with_ra true) in
  let msg := match queries msg with [] => fold_left add_query (queries request) msg | _ => msg end in
  let msg := maybe_strip_dnssec msg (client_wants_dnssec request) in
  apply_edns msg request.

(** ** The log *)
Definition new_log (ts : Z) (client : IpAddr) (qname : list Z) (qtype : Z) (source : ResponseSource) : QueryRecord :=
  mkQueryRecord ts client qname qtype Allowed None None source 0 0.

Definition log_verdict (l : QueryRecord) (v : VerdictKind) (rule : option (list Z)) (lst : option Z) : QueryRecord :=
  mkQueryRecord (q_ts l) (q_client l) (q_qname l) (q_qtype l) v rule lst (q_source l) (q_rcode l) (q_duration_us l).
Definition log_source (l : QueryRecord) (s : ResponseSource) : QueryRecord :=
  mkQueryRecord (q_ts l) (q_client l) (q_qname l) (q_qtype l) (q_verdict l) (q_rule l) (q_list l) s (q_rcode l) (q_duration_us l).
Definition log_stamp (l : QueryRecord) (rc duration_us : Z) : QueryRecord :=
  mkQueryRecord (q_ts l) (q_client l) (q_qname l) (q_qtype l) (q_verdict l) (q_rule l) (q_list l) (q_source l) rc duration_us.

(** [finish]: stamp code and duration, enqueue. *)
Definition finish (l : QueryRecord) (resp : Message) (started : Instant) : Async unit :=
  now ← event InstantNow;
  let elapsed := duration_since now started in
  let l := log_stamp l (rcode resp) (default u32_max (try_from u32_max (as_micros elapsed))) in
  _ ← event (Log (LQuery l));
  Ret tt.

(** ** CNAME cloaking: the first target the engine blocks. [None] is a
    panic of the engine. *)
Fixpoint blocked_cname_target (engine : Engine) (records : list DnsRecord) : option (option (list Z * Z * list Z)) :=
  match records with
  | [] => Some None
  | r :: records =>
      match r_data r with
      | RCNAME target =>
          let target := normalize_qname (name_to_ascii target) in
          v ← verdict engine target;
          match v with
          | VBlock l rule => Some (Some (target, l, mr_text rule))
          | VExcept _ _ | VNoMatch => blocked_cname_target engine records
          end
      | _ => blocked_cname_target engine records
      end
  end.

(** ** Filing an upstream answer *)
Definition settle (key : CacheKey) (answer : Message) (now : Instant) : Async unit :=
  if rcode answer =? ServFail then
    _ ← event (FailRecord key now);
    Ret tt
  else
    _ ← event (FailClear key);
    event (CacheInsert key answer now).

(** The leader task of [resolve_shared]. *)
Definition leader (req : Message) (qname : list Z) (key : CacheKey) (now : Instant) (tx : Chan) : Async unit :=
  r ← event (Resolve req);
  match r with
  | Panicked =>
      _ ← event (RemoveLookup key);
      event (DropSender tx)
  | _ =>
      answer ← match r with
               | Answered answer => _ ← settle key answer now; Ret (Some answer)
               | _ => _ ← event (FailRecord key now); Ret None
               end;
      _ ← event (RemoveLookup key);
      _ ← event (Send tx answer);
      event (DropSender tx)
  end.

(** The refresh task of [spawn_refresh]. *)
Definition refresh (request : Message) (key : CacheKey) : Async unit :=
  now ← event InstantNow;
  h ← event (FailHeld key now);
  match h with
  | Some _ => event (RefreshRemove key)
  | None =>
      r ← event (Resolve request);
      _ ← match r with
          | Answered answer => settle key answer now
          | NoUpstream => _ ← event (FailRecord key now); Ret tt
          | Panicked => Ret tt
          end;
      event (RefreshRemove key)
  end.

(** [Shadow::reference_query]: the datagram is cut to the 4096-byte buffer. *)
Definition reference_query (request : Message) : Async (option Message) :=
  match to_vec request with
  | None => Ret None
  | Some bytes =>
      reply ← event (ReferenceExchange bytes);
      Ret (buf ← reply; from_vec (take 4096 buf))
  end.

(** The comparison task of [Shadow::spawn_compare]. *)
Definition compare_task (request ours : Message) (ours_blocked : bool) (qname : list Z) (qtype : Z) : Async unit :=
  t ← reference_query request;
  match t with
  | None => event Release
  | Some theirs =>
      match classify ours ours_blocked theirs with
      | Some (ours_desc, theirs_desc, class) =>
          ts ← event UnixNow;
          _ ← event (Log (LDivergence (mkDivergence ts qname qtype ours_desc theirs_desc class)));
          event Release
      | None => event Release
      end
  end.

Definition task_body (t : Task) : Async unit :=
  match t with
  | TLeader req qname key now tx => leader req qname key now tx
  | TRefresh req key => refresh req key
  | TCompare req ours blocked qname qtype => compare_task req ours blocked qname qtype
  end.

(** ** Resolution *)

Definition spawn_compare (request ours : Message) (ours_blocked : bool) (qname : list Z) (qtype : Z) : Async unit :=
  ok ← event TryAcquire;
  if (ok : bool) then event (SpawnTask (TCompare request ours ours_blocked qname qtype)) else Ret tt.

Definition shadow_tap (request resp : Message) (blocked : bool) (qname : list Z) (qtype : Z) : Async unit :=
  sh ← event ShadowOn;
  if (sh : bool) then spawn_compare request resp blocked qname qtype else Ret tt.

Definition spawn_refresh (request : Message) (key : CacheKey) : Async unit :=
  inserted ← event (RefreshInsert key);
  if (inserted : bool) then event (SpawnTask (TRefresh request key)) else Ret tt.

Definition resolve_shared (request : Message) (qname : list Z) (key : CacheKey) (now : Instant)
  : Async (Message * ResponseSource) :=
  joined ← event (JoinLookup key);
  let '(rx, lead) := joined in
  _ ← match lead with
      | Some tx => event (SpawnTask (TLeader request qname key now tx))
      | None => Ret tt
      end;
  r ← event (Recv rx);
  match r with
  | RecvOk (Some answer) => Ret (restamp answer request, SUpstream)
  | RecvOk None | RecvErr => Ret (synth_servfail request, Failed)
  end.

Definition resolve_cached (request : Message) (qname : list Z) (qtype : Z) (now : Instant)
  : Async (Message * ResponseSource) :=
  match name_from_ascii qname with
  | None => Ret (synth_formerr request, Synth)
  | Some name =>
      let key := mkKey name qtype (match queries request with q :: _ => q_class q | [] => CLASS_IN end) in
      l ← event (CacheGet key now);
      match l with
      | Fresh cached => Ret (restamp cached request, SCache)
      | Stale cached => _ ← spawn_refresh request key; Ret (restamp cached request, SStale)
      | Miss =>
          h ← event (FailHeld key now);
          match h with
          | Some _ => Ret (synth_servfail request, FailureCached)
          | None => resolve_shared request qname key now
          end
      end
  end.

(** [answer_safesearch]: the CNAME and the endpoint's records. *)
Definition answer_safesearch (request : Message) (qname : list Z) (qtype : Z) (target : list Z) (now : Instant) : Async Message :=
  let resp := set_rcode (response_skeleton request) NoError in
  match name_from_ascii (qname ++ [c_dot]), name_from_ascii (target ++ [c_dot]) with
  | Some qname_name, Some target_name =>
      let resp := add_answer resp (record_from_rdata qname_name SAFESEARCH_CNAME_TTL (RCNAME target_name)) in
      let target_query := message_new (msg_id (metadata request)) MQuery OpQuery in
      let target_query := add_query target_query (mkQuery target_name qtype CLASS_IN) in
      let target_query := set_meta target_query (with_rd true) in
      r ← resolve_cached target_query target qtype now;
      let '(target_resp, _) := r in
      if rcode target_resp =? NoError then Ret (fold_left add_answer (answers target_resp) resp)
      else Ret (set_rcode resp (rcode target_resp))
  | _, _ => Ret (set_rcode resp ServFail)
  end.

Definition shed_overload (request : Message) (client : IpAddr) (ts : Z) (started : Instant) : Async Message :=
  let resp := synth_servfail request in
  let l := new_log ts client
             (match queries request with q :: _ => normalize_qname (name_to_ascii (q_name q)) | [] => [] end)
             (match queries request with q :: _ => q_type q | [] => 0 end) Failed in
  _ ← finish l resp started;
  Ret resp.

(** A blocked name: log it, answer it, mirror it. *)
Definition block (request : Message) (l : QueryRecord) (started : Instant) (qname : list Z) (qtype : Z) : Async Message :=
  resp ← expect (synth_block_response request);
  _ ← finish l resp started;
  _ ← shadow_tap request resp true qname qtype;
  Ret resp.

(** From the filter verdict on: safe search, then cache and upstream, then
    the CNAME check. *)
Definition answer_unblocked (pol : Policy) (request : Message) (l : QueryRecord) (started : Instant)
    (qname : list Z) (qtype : Z) (now : Instant) : Async Message :=
  match SafeSearch.rewrite (pol_safesearch pol) qname with
  | Some target =>
      let l := log_verdict l Rewritten (Some (lit "safe-search -> " ++ target)) (q_list l) in
      resp ← answer_safesearch request qname qtype target now;
      _ ← finish l resp started;
      Ret resp
  | None =>
      r ← resolve_cached request qname qtype now;
      let '(resp, source) := r in
      let l := log_source l source in
      cloaked ← (if bool_decide (q_verdict l = Excepted) then Ret None
                 else expect (blocked_cname_target (pol_engine pol) (answers resp)));
      match cloaked with
      | Some (target, lst, rule) =>
          let l := log_verdict l Blocked (Some (rule ++ lit " (CNAME target " ++ target ++ lit ")")) (Some lst) in
          block request l started qname qtype
      | None =>
          _ ← finish l resp started;
          _ ← shadow_tap request resp false qname qtype;
          Ret resp
      end
  end.

(** The checks of an admitted query: allowlist, ANY, filter verdict. *)
Definition answer_query (request : Message) (query : Query) (client : IpAddr) (ts : Z) (started now : Instant) : Async Message :=
  let qname := normalize_qname (name_to_ascii (q_name query)) in
  let qtype := q_type query in
  let l := new_log ts client qname qtype Synth in
  pol ← event LoadPolicy;
  if negb (client_allowed (pol_allow pol) client) then
    _ ← finish l (synth_refused request) started;
    Ret (synth_refused request)
  else if qtype =? TYPE_ANY then
    _ ← finish l (synth_refused request) started;
    Ret (synth_refused request)
  else
    v ← expect (verdict (pol_engine pol) qname);
    match v with
    | VBlock lst rule => block request (log_verdict l Blocked (Some (mr_text rule)) (Some lst)) started qname qtype
    | VExcept lst rule =>
        answer_unblocked pol request (log_verdict l Excepted (Some (mr_text rule)) (Some lst)) started qname qtype now
    | VNoMatch => answer_unblocked pol request l started qname qtype now
    end.

(** What [handle_at] does between taking the in-flight guard and dropping
    it. *)
Definition handle_guarded (previously_in_flight : Z) (request : Message) (client : IpAddr) (now : Instant) : Async Message :=
  started ← event InstantNow;
  ts ← event UnixNow;
  if MAX_IN_FLIGHT_QUERIES <=? previously_in_flight then shed_overload request client ts started
  else match queries request with
       | [] =>
           let resp := synth_formerr request in
           _ ← finish (new_log ts client [] 0 Synth) resp started;
           Ret resp
       | query :: _ => answer_query request query client ts started now
       end.

Definition handle_at (request : Message) (client : IpAddr) (now : Instant) : Async Message :=
  previously_in_flight ← event FetchAdd;
  resp ← handle_guarded previously_in_flight request client now;
  _ ← event FetchSub;
  Ret resp.

Definition handle (request : Message) (client : IpAddr) : Async Message :=
  now ← event InstantNow;
  handle_at request client now.
End Server.
