(* ===== verification/ServerSpec.v ===== *)
(** * ServerSpec: what one query does, whatever its environment answers

    Facts about the trees of Server, for every answer the events can get:
    the shape of a reply, the policy decision with its log record, the
    CNAME check, the order of resolution. *)
From S2P Require Import Prelude Text Time IpAddr FilterTypes Engine Dns Cache FailCache SafeSearch Shadow Db Proc Pipeline Server.

(** ** Projections of a trace *)
Section Traces.
Context `{HickoryOps} `{HashIter} `{IpNetOps}.

Definition obs_policy (o : Obs Ev) : option Policy :=
  match o_event o in Ev B return B -> option Policy with LoadPolicy => fun b => Some b | _ => fun _ => None end (o_answer o).
Definition obs_previous (o : Obs Ev) : option Z :=
  match o_event o in Ev B return B -> option Z with FetchAdd => fun b => Some b | _ => fun _ => None end (o_answer o).
Definition obs_log (o : Obs Ev) : option QueryRecord :=
  match o_event o with Log (LQuery q) => Some q | _ => None end.

(** Events that concern the resolution of a name: the cache, the failure
    cache, the lookups, the refreshes and the upstream. *)
Definition resolving {B} (e : Ev B) : bool :=
  match e with
  | CacheGet _ _ | CacheInsert _ _ _ | FailHeld _ _ | FailRecord _ _ | FailClear _
  | JoinLookup _ | RemoveLookup _ | Send _ _ | DropSender _ | Recv _
  | RefreshInsert _ | RefreshRemove _ | Resolve _ => true
  | SpawnTask (TLeader _ _ _ _ _) | SpawnTask (TRefresh _ _) => true
  | _ => false
  end.

Definition policies (tr : list (Obs Ev)) : list Policy := project obs_policy tr.
Definition previous (tr : list (Obs Ev)) : list Z := project obs_previous tr.
Definition logs (tr : list (Obs Ev)) : list QueryRecord := project obs_log tr.
Definition resolution (tr : list (Obs Ev)) : list (Obs Ev) := select (fun o => resolving (o_event o)) tr.

(** The trace of code that only resolves. *)
Definition only_resolves (tr : list (Obs Ev)) : Prop := every (fun o => resolving (o_event o) = true) tr.

Lemma only_resolves_projections tr :
  only_resolves tr -> policies tr = [] /\ previous tr = [] /\ logs tr = [] /\ resolution tr = tr.
Proof.
  unfold policies, previous, logs, resolution.
  induction tr as [|[B e b] tr IH]; [done|]. cbn. intros (Ho & Htr). destruct (IH Htr) as (-> & -> & -> & ->).
  rewrite Ho. by destruct e.
Qed.

Lemma policies_app t u : policies (t ++ u) = policies t ++ policies u.
Proof. apply project_app. Qed.
Lemma previous_app t u : previous (t ++ u) = previous t ++ previous u.
Proof. apply project_app. Qed.
Lemma logs_app t u : logs (t ++ u) = logs t ++ logs u.
Proof. apply project_app. Qed.
Lemma resolution_app t u : resolution (t ++ u) = resolution t ++ resolution u.
Proof. apply select_app. Qed.

(** The trace of bookkeeping: a log record and what the shadow does. *)
Definition side_trace (tr : list (Obs Ev)) (l : list QueryRecord) : Prop :=
  policies tr = [] /\ previous tr = [] /\ logs tr = l /\ resolution tr = [].
End Traces.

(** ** Replies *)
Section Replies.
Context `{HickoryOps} `{HashIter} `{IpNetOps} `{RcodeDisplay}.

(** A reply carries the request's id and RD bit, is a response with RA set,
    has a question if the request had one, and carries an OPT record exactly
    if the request did, with the request's DO bit. *)
Definition reply_ok (request resp : Message) : Prop :=
  msg_id (metadata resp) = msg_id (metadata request)
  /\ message_type (metadata resp) = MResponse
  /\ recursion_desired (metadata resp) = recursion_desired (metadata request)
  /\ recursion_available (metadata resp) = true
  /\ (queries request <> [] -> queries resp <> [])
  /\ match edns request with
     | None => edns resp = None
     | Some e => exists e', edns resp = Some e' /\ edns_dnssec_ok e' = edns_dnssec_ok e
     end.

Lemma fold_add_query qs m :
  fold_left add_query qs m
  = mkMessage (metadata m) (Dns.queries m ++ qs) (answers m) (authorities m) (additionals m) (edns m).
Proof.
  revert m. induction qs as [|q qs IH]; intros m; cbn [fold_left]; [rewrite app_nil_r; by destruct m|].
  rewrite IH. cbn. by rewrite <- app_assoc.
Qed.

Lemma apply_edns_ok request m :
  match edns request with
  | None => edns (apply_edns m request) = None
  | Some e => exists e', edns (apply_edns m request) = Some e' /\ edns_dnssec_ok e' = edns_dnssec_ok e
  end.
Proof.
  unfold apply_edns, client_wants_dnssec. destruct (edns request) as [e|]; [|done]. cbn. eexists. split; [reflexivity|done].
Qed.

Lemma apply_edns_rest request m :
  metadata (apply_edns m request) = metadata m /\ Dns.queries (apply_edns m request) = Dns.queries m
  /\ answers (apply_edns m request) = answers m.
Proof. unfold apply_edns. by destruct (edns request). Qed.

Lemma response_skeleton_ok request : reply_ok request (response_skeleton request).
Proof.
  unfold response_skeleton. set (m := set_meta _ _) at 1.
  destruct (apply_edns_rest request m) as (Em & Eq & _). pose proof (apply_edns_ok request m) as Ee.
  unfold reply_ok. rewrite Em, Eq. subst m. rewrite fold_add_query in *. cbn in *. split_and!; done.
Qed.

Lemma skeleton_answers request : answers (response_skeleton request) = [].
Proof.
  unfold response_skeleton. destruct (apply_edns_rest request) with (m := set_meta (set_meta (fold_left add_query (Dns.queries request)
    (message_new (msg_id (metadata request)) MResponse OpQuery)) (with_rd (recursion_desired (metadata request)))) (with_ra true))
    as (_ & _ & ->). by rewrite fold_add_query.
Qed.

Lemma restamp_ok request m : reply_ok request (restamp m request).
Proof.
  unfold restamp. set (m1 := match Dns.queries _ with [] => _ | _ => _ end).
  set (m2 := maybe_strip_dnssec m1 (client_wants_dnssec request)).
  destruct (apply_edns_rest request m2) as (Em & Eq & _). pose proof (apply_edns_ok request m2) as Ee.
  destruct (maybe_strip_meta m1 (client_wants_dnssec request)) as (Sm & Sq & _). fold m2 in Sm, Sq.
  unfold reply_ok. rewrite Em, Eq, Sm, Sq. split_and!; try exact Ee; subst m1; cbn.
  1-4: by destruct (Dns.queries m); [rewrite fold_add_query|].
  destruct (Dns.queries m) as [|q qs] eqn:E; [rewrite fold_add_query; cbn; by rewrite E|intros _; cbn; by rewrite E].
Qed.

Lemma reply_ok_rcode request m rc : reply_ok request m -> reply_ok request (set_rcode m rc).
Proof. done. Qed.
Lemma reply_ok_answer request m r : reply_ok request m -> reply_ok request (add_answer m r).
Proof. done. Qed.
Lemma reply_ok_authority request m r : reply_ok request m -> reply_ok request (add_authority m r).
Proof. done. Qed.
Lemma reply_ok_answers request m rs : reply_ok request m -> reply_ok request (fold_left add_answer rs m).
Proof. revert m. induction rs as [|r rs IH]; intros m Hm; [done|]. cbn. apply IH. by apply reply_ok_answer. Qed.

Lemma servfail_ok request : reply_ok request (synth_servfail request).
Proof. apply reply_ok_rcode, response_skeleton_ok. Qed.
Lemma refused_ok request : reply_ok request (synth_refused request).
Proof. apply reply_ok_rcode, response_skeleton_ok. Qed.
Lemma formerr_ok request : reply_ok request (synth_formerr request).
Proof. apply reply_ok_rcode, response_skeleton_ok. Qed.

Lemma block_reply_ok request m : synth_block_response request = Some m -> reply_ok request m /\ answers m = [].
Proof.
  unfold synth_block_response. intros Hm. inv_bind.
  split; [apply reply_ok_authority, reply_ok_rcode, response_skeleton_ok|]. cbn. apply skeleton_answers.
Qed.
End Replies.
#[export] Hint Resolve servfail_ok refused_ok formerr_ok response_skeleton_ok restamp_ok reply_ok_rcode reply_ok_answer reply_ok_authority reply_ok_answers : rust.

(** ** Results of the handler *)
Section Results.
Context `{HickoryOps} `{HashIter} `{IpNetOps} `{RcodeDisplay}.

Lemma resolve_shared_ok request qname key now :
  all_results (fun r => reply_ok request (fst r)) (resolve_shared request qname key now).
Proof.
  unfold resolve_shared. apply all_results_seq. intros [rx lead]. apply all_results_seq. intros _.
  apply all_results_seq. intros [[answer|]|]; cbn; auto with rust.
Qed.

Lemma resolve_cached_ok request qname qtype now :
  all_results (fun r => reply_ok request (fst r)) (resolve_cached request qname qtype now).
Proof.
  unfold resolve_cached. destruct (name_from_ascii qname) as [name|]; [|cbn; auto with rust].
  apply all_results_seq. intros [m|m|]; [cbn; auto with rust|apply all_results_seq; intros _; cbn; auto with rust|].
  apply all_results_seq. intros [h|]; [cbn; auto with rust|]. apply resolve_shared_ok.
Qed.

Lemma answer_safesearch_ok request qname qtype target now :
  all_results (reply_ok request) (answer_safesearch request qname qtype target now).
Proof.
  unfold answer_safesearch.
  destruct (name_from_ascii (qname ++ _)) as [n|]; [|cbn; auto with rust].
  destruct (name_from_ascii (target ++ _)) as [t|]; [|cbn; auto with rust].
  apply all_results_seq. intros [tr src]. destruct (_ =? _); cbn; auto with rust.
Qed.

Lemma block_ok request l started qname qtype : all_results (reply_ok request) (block request l started qname qtype).
Proof.
  unfold block. eapply (all_results_bind _ (reply_ok request)).
  - destruct (synth_block_response request) as [m|] eqn:E; cbn; [|done]. by apply block_reply_ok in E as [? _].
  - intros m Hm. apply all_results_seq. intros _. apply all_results_seq. by intros _.
Qed.

Lemma answer_unblocked_ok pol request l started qname qtype now :
  all_results (reply_ok request) (answer_unblocked pol request l started qname qtype now).
Proof.
  unfold answer_unblocked. destruct (SafeSearch.rewrite _ _) as [target|].
  - eapply all_results_bind; [apply answer_safesearch_ok|]. intros m Hm. apply all_results_seq. by intros _.
  - eapply all_results_bind; [apply resolve_cached_ok|]. intros [m src] Hm. apply all_results_seq.
    intros [[[t lst] rule]|]; [apply block_ok|]. apply all_results_seq. intros _. apply all_results_seq. by intros _.
Qed.

Lemma answer_query_ok request query client ts started now :
  all_results (reply_ok request) (answer_query request query client ts started now).
Proof.
  unfold answer_query. apply all_results_seq. intros pol.
  assert (Href : all_results (reply_ok request)
    (_ ← finish (new_log ts client (normalize_qname (name_to_ascii (q_name query))) (q_type query) Synth) (synth_refused request) started;
     Ret (synth_refused request))) by (apply all_results_seq; intros _; cbn; auto with rust).
  destruct (negb _); [done|]. destruct (_ =? _); [done|].
  apply all_results_seq. intros [|lst rule|lst rule]; [apply answer_unblocked_ok|apply block_ok|apply answer_unblocked_ok].
Qed.

Lemma handle_guarded_ok prev request client now :
  all_results (reply_ok request) (handle_guarded prev request client now).
Proof.
  unfold handle_guarded. apply all_results_seq. intros started. apply all_results_seq. intros ts.
  destruct (_ <=? _).
  - unfold shed_overload. apply all_results_seq. intros _. cbn. auto with rust.
  - destruct (Dns.queries request) as [|q qs]; [|apply answer_query_ok].
    apply all_results_seq. intros _. cbn. auto with rust.
Qed.

Lemma handle_at_ok request client now : all_results (reply_ok request) (handle_at request client now).
Proof.
  unfold handle_at. apply all_results_seq. intros prev. eapply all_results_bind; [apply handle_guarded_ok|].
  intros resp Hresp. by apply all_results_seq.
Qed.
End Results.

(** Close the projections of a trace made of parts. *)
Ltac projections :=
  cbn [app]; rewrite ?app_nil_r, ?policies_app, ?previous_app, ?logs_app, ?resolution_app;
  repeat match goal with
  | E : policies ?t = _ |- context [policies ?t] => rewrite E
  | E : previous ?t = _ |- context [previous ?t] => rewrite E
  | E : logs ?t = _ |- context [logs ?t] => rewrite E
  | E : resolution ?t = _ |- context [resolution ?t] => rewrite E
  end; cbn [app]; rewrite ?app_nil_r.

(** ** Traces of the handler *)
Section Runs.
Context `{HickoryOps} `{HashIter} `{IpNetOps} `{RcodeDisplay}.

Lemma finish_runs l resp started tr u :
  runs (finish l resp started) tr u ->
  exists d, side_trace tr [log_stamp l (rcode resp) d] /\ 0 <= d <= u32_max.
Proof.
  unfold finish. intros Hr. cbn in Hr. destruct Hr as (t & tr1 & -> & ok & tr2 & -> & -> & _).
  eexists. split; [split_and!; reflexivity|].
  destruct (try_from _ _) as [d|] eqn:E; cbn; [|unfold u32_max; lia]. apply try_from_inv in E as (-> & E). unfold id. lia.
Qed.

Lemma shadow_tap_runs request resp b qname qtype tr u :
  runs (shadow_tap request resp b qname qtype) tr u -> side_trace tr [].
Proof.
  unfold shadow_tap, spawn_compare. intros Hr. cbn in Hr. destruct Hr as ([] & tr1 & -> & Hr).
  - cbn in Hr. destruct Hr as ([] & tr2 & -> & Hr); cbn in Hr.
    + destruct Hr as (v & tr3 & -> & -> & _). done.
    + by destruct Hr as (-> & _).
  - cbn in Hr. by destruct Hr as (-> & _).
Qed.

Definition resolving_code {A} (p : Proc Ev A) : Prop := all_events (fun B e => resolving e = true) p.

Lemma resolve_cached_resolves request qname qtype now : resolving_code (resolve_cached request qname qtype now).
Proof.
  unfold resolving_code, resolve_cached. destruct (name_from_ascii qname) as [name|]; [|done].
  cbn. split; [done|]. intros [m|m|]; cbn.
  - done.
  - split; [done|]. intros []; cbn; [|done]. split; [done|]. done.
  - split; [done|]. intros [h|]; cbn; [done|]. split; [done|]. intros [rx [tx|]]; cbn.
    + split; [done|]. intros _. split; [done|]. by intros [[a|]|].
    + split; [done|]. by intros [[a|]|].
Qed.

Lemma answer_safesearch_resolves request qname qtype target now :
  resolving_code (answer_safesearch request qname qtype target now).
Proof.
  unfold resolving_code, answer_safesearch.
  destruct (name_from_ascii (qname ++ _)) as [n|]; [|done]. destruct (name_from_ascii (target ++ _)) as [t|]; [|done].
  apply all_events_bind; [apply resolve_cached_resolves|]. intros [r src]. by destruct (_ =? _).
Qed.

Lemma resolving_runs {A} (p : Proc Ev A) tr a : resolving_code p -> runs p tr a -> only_resolves tr.
Proof. intros Hp Hr. exact (runs_events _ _ _ _ Hp Hr). Qed.

Lemma expect_runs {A} (o : option A) tr a : runs (Ev := Ev) (expect o) tr a -> o = Some a /\ tr = [].
Proof. destruct o as [x|]; cbn; [|done]. by intros (-> & ->). Qed.

Lemma block_runs request l started qname qtype tr resp :
  runs (block request l started qname qtype) tr resp ->
  synth_block_response request = Some resp
  /\ exists d, side_trace tr [log_stamp l (rcode resp) d] /\ 0 <= d <= u32_max.
Proof.
  unfold block. intros Hr. apply runs_bind_inv in Hr as (t1 & t2 & m & -> & Hm & Hr).
  apply expect_runs in Hm as (Hm & ->). apply runs_bind_inv in Hr as (t3 & t4 & [] & -> & Hf & Hr).
  apply finish_runs in Hf as (d & (F1 & F2 & F3 & F4) & Hd).
  apply runs_bind_inv in Hr as (t5 & t6 & [] & -> & Hs & Hr). apply shadow_tap_runs in Hs as (S1 & S2 & S3 & S4).
  destruct Hr as (-> & <-). split; [done|]. exists d. split; [|done]. rewrite app_nil_r. cbn [app].
  split_and!; rewrite ?policies_app, ?previous_app, ?logs_app, ?resolution_app, ?F1, ?F2, ?F3, ?F4, ?S1, ?S2, ?S3, ?S4; done.
Qed.

(** *** The decision

    [resolved_as]: what answers a name that the filter lets through. [rs]
    is the part of the trace that resolves, [log] the record logged. *)
Definition resolved_as (pol : Policy) (request : Message) (qname : list Z) (qtype : Z) (now : Instant)
    (l : QueryRecord) (rs : list (Obs Ev)) (log : QueryRecord) (resp : Message) : Prop :=
  match SafeSearch.rewrite (pol_safesearch pol) qname with
  | Some target =>
      log = log_verdict l Rewritten (Some (lit "safe-search -> " ++ target)) (q_list l)
      /\ runs (answer_safesearch request qname qtype target now) rs resp
  | None =>
      exists resp0 source, runs (resolve_cached request qname qtype now) rs (resp0, source)
      /\ if bool_decide (q_verdict l = Excepted) then resp = resp0 /\ log = log_source l source
         else exists c, blocked_cname_target (pol_engine pol) (answers resp0) = Some c
           /\ match c with
              | None => resp = resp0 /\ log = log_source l source
              | Some (target, lst, rule) =>
                  synth_block_response request = Some resp
                  /\ log = log_verdict (log_source l source) Blocked
                             (Some (rule ++ lit " (CNAME target " ++ target ++ lit ")")) (Some lst)
              end
  end.

(** What the policy makes of an admitted query. *)
Definition decided_as (pol : Policy) (request : Message) (query : Query) (client : IpAddr) (now : Instant)
    (l : QueryRecord) (rs : list (Obs Ev)) (log : QueryRecord) (resp : Message) : Prop :=
  let qname := normalize_qname (name_to_ascii (q_name query)) in
  if negb (client_allowed (pol_allow pol) client) || (q_type query =? TYPE_ANY)
  then resp = synth_refused request /\ rs = [] /\ log = l
  else match verdict (pol_engine pol) qname with
       | None => False
       | Some (VBlock lst rule) =>
           synth_block_response request = Some resp /\ rs = []
           /\ log = log_verdict l Blocked (Some (mr_text rule)) (Some lst)
       | Some (VExcept lst rule) =>
           resolved_as pol request qname (q_type query) now
             (log_verdict l Excepted (Some (mr_text rule)) (Some lst)) rs log resp
       | Some VNoMatch => resolved_as pol request qname (q_type query) now l rs log resp
       end.

Lemma answer_unblocked_runs pol request l started qname qtype now tr resp :
  runs (answer_unblocked pol request l started qname qtype now) tr resp ->
  policies tr = [] /\ previous tr = []
  /\ exists log d, logs tr = [log_stamp log (rcode resp) d] /\ 0 <= d <= u32_max
    /\ resolved_as pol request qname qtype now l (resolution tr) log resp.
Proof.
  unfold answer_unblocked, resolved_as. destruct (SafeSearch.rewrite _ _) as [target|]; intros Hr.
  - apply runs_bind_inv in Hr as (t1 & t2 & m & -> & Hm & Hr).
    pose proof (resolving_runs _ _ _ (answer_safesearch_resolves _ _ _ _ _) Hm) as Ho.
    apply only_resolves_projections in Ho as (P1 & P2 & P3 & P4).
    apply runs_bind_inv in Hr as (t3 & t4 & [] & -> & Hf & Hr). apply finish_runs in Hf as (d & (F1 & F2 & F3 & F4) & Hd).
    destruct Hr as (-> & <-). split; [by projections|]. split; [by projections|].
    eexists _, d. split; [by projections|]. split; [done|]. split; [reflexivity|]. by projections.
  - apply runs_bind_inv in Hr as (t1 & t2 & [m src] & -> & Hm & Hr).
    pose proof (resolving_runs _ _ _ (resolve_cached_resolves _ _ _ _) Hm) as Ho.
    apply only_resolves_projections in Ho as (P1 & P2 & P3 & P4).
    apply runs_bind_inv in Hr as (t3 & t4 & c & -> & Hc & Hr).
    assert (Hcloak : t3 = [] /\ if bool_decide (q_verdict l = Excepted) then c = None
      else blocked_cname_target (pol_engine pol) (answers m) = Some c).
    { cbn [q_verdict log_source] in Hc. destruct (bool_decide _); [by destruct Hc as (-> & ->)|].
      by apply expect_runs in Hc as (? & ->). }
    clear Hc. destruct Hcloak as (-> & Hc). destruct c as [[[target lst] rule]|].
    + apply block_runs in Hr as (Hb & d & (F1 & F2 & F3 & F4) & Hd).
      split; [by projections|]. split; [by projections|].
      eexists _, d. split; [by projections|]. split; [done|].
      exists m, src. split; [by projections|]. destruct (bool_decide _); [done|]. by eexists.
    + apply runs_bind_inv in Hr as (t5 & t6 & [] & -> & Hf & Hr). apply finish_runs in Hf as (d & (F1 & F2 & F3 & F4) & Hd).
      apply runs_bind_inv in Hr as (t7 & t8 & [] & -> & Hs & Hr). apply shadow_tap_runs in Hs as (S1 & S2 & S3 & S4).
      destruct Hr as (-> & <-).
      split; [by projections|]. split; [by projections|].
      eexists _, d. split; [by projections|]. split; [done|].
      exists m, src. split; [by projections|]. destruct (bool_decide _); [done|]. by exists None.
Qed.

Lemma answer_query_runs request query client ts started now tr resp :
  runs (answer_query request query client ts started now) tr resp ->
  exists pol log d, policies tr = [pol] /\ previous tr = []
    /\ logs tr = [log_stamp log (rcode resp) d] /\ 0 <= d <= u32_max
    /\ decided_as pol request query client now
         (new_log ts client (normalize_qname (name_to_ascii (q_name query))) (q_type query) Synth)
         (resolution tr) log resp.
Proof.
  unfold answer_query, decided_as. intros Hr. set (l0 := new_log _ _ _ _ _) in *.
  apply runs_bind_inv in Hr as (t1 & t2 & pol & -> & Hp & Hr).
  assert (Hload : policies t1 = [pol] /\ previous t1 = [] /\ logs t1 = [] /\ resolution t1 = [])
    by (by destruct Hp as (b & t0 & -> & -> & ->)).
  clear Hp. destruct Hload as (L1 & L2 & L3 & L4). exists pol.
  assert (Hrefused : forall t, runs (_ ← finish l0 (synth_refused request) started; Ret (synth_refused request)) t resp ->
    resp = synth_refused request /\ exists d, side_trace t [log_stamp l0 (rcode resp) d] /\ 0 <= d <= u32_max).
  { intros t Ht. apply runs_bind_inv in Ht as (t3 & t4 & [] & -> & Hf & Ht). apply finish_runs in Hf as (d & Hs & Hd).
    destruct Ht as (-> & <-). split; [done|]. exists d. by rewrite app_nil_r. }
  destruct (negb _); cbn [orb].
  { apply Hrefused in Hr as (-> & d & (F1 & F2 & F3 & F4) & Hd). exists l0, d. split_and!; projections; first [done|lia]. }
  destruct (q_type query =? TYPE_ANY).
  { apply Hrefused in Hr as (-> & d & (F1 & F2 & F3 & F4) & Hd). exists l0, d. split_and!; projections; first [done|lia]. }
  apply runs_bind_inv in Hr as (t3 & t4 & v & -> & Hv & Hr). apply expect_runs in Hv as (-> & ->).
  destruct v as [|lst rule|lst rule].
  - apply answer_unblocked_runs in Hr as (U1 & U2 & log & d & U3 & Hd & Hres). exists log, d. split_and!; projections; first [done|lia].
  - apply block_runs in Hr as (Hb & d & (F1 & F2 & F3 & F4) & Hd). eexists _, d. split_and!; projections; first [done|lia].
  - apply answer_unblocked_runs in Hr as (U1 & U2 & log & d & U3 & Hd & Hres). exists log, d. split_and!; projections; first [done|lia].
Qed.
End Runs.

(** ** The whole handler *)
Section Handler.
Context `{HickoryOps} `{HashIter} `{IpNetOps} `{RcodeDisplay}.

(** What one query comes to, from its trace [tr] and its answer [resp]. *)
Definition handled_as (request : Message) (client : IpAddr) (now : Instant) (tr : list (Obs Ev)) (resp : Message) : Prop :=
  exists prev log d,
    previous tr = [prev] /\ logs tr = [log_stamp log (rcode resp) d] /\ 0 <= d <= u32_max
    /\ if MAX_IN_FLIGHT_QUERIES <=? prev
       then policies tr = [] /\ resolution tr = [] /\ resp = synth_servfail request
            /\ q_source log = Failed /\ q_verdict log = Allowed
       else match queries request with
            | [] => policies tr = [] /\ resolution tr = [] /\ resp = synth_formerr request
                    /\ exists ts, log = new_log ts client [] 0 Synth
            | query :: _ => exists pol ts, policies tr = [pol]
                /\ decided_as pol request query client now
                     (new_log ts client (normalize_qname (name_to_ascii (q_name query))) (q_type query) Synth)
                     (resolution tr) log resp
            end.

Lemma handle_guarded_runs prev request client now tr resp :
  runs (handle_guarded prev request client now) tr resp ->
  previous tr = []
  /\ exists log d, logs tr = [log_stamp log (rcode resp) d] /\ 0 <= d <= u32_max
    /\ if MAX_IN_FLIGHT_QUERIES <=? prev
       then policies tr = [] /\ resolution tr = [] /\ resp = synth_servfail request
            /\ q_source log = Failed /\ q_verdict log = Allowed
       else match queries request with
            | [] => policies tr = [] /\ resolution tr = [] /\ resp = synth_formerr request
                    /\ exists ts, log = new_log ts client [] 0 Synth
            | query :: _ => exists pol ts, policies tr = [pol]
                /\ decided_as pol request query client now
                     (new_log ts client (normalize_qname (name_to_ascii (q_name query))) (q_type query) Synth)
                     (resolution tr) log resp
            end.
Proof.
  unfold handle_guarded. intros Hr.
  apply runs_bind_inv in Hr as (t1 & t2 & started & -> & G1 & Hr).
  apply runs_bind_inv in Hr as (t3 & t4 & ts & -> & G3 & Hr).
  assert (Hclock : side_trace t1 [] /\ side_trace t3 [])
    by (destruct G1 as (b1 & u1 & -> & -> & ->), G3 as (b3 & u3 & -> & -> & ->); done).
  clear G1 G3. destruct Hclock as ((A1 & A2 & A3 & A4) & (B1 & B2 & B3 & B4)).
  destruct (MAX_IN_FLIGHT_QUERIES <=? prev); [|destruct (Dns.queries request) as [|q qs]].
  - unfold shed_overload in Hr. apply runs_bind_inv in Hr as (t5 & t6 & [] & -> & Hf & Hr).
    apply finish_runs in Hf as (d & (F1 & F2 & F3 & F4) & Hd). destruct Hr as (-> & <-).
    split; [by projections|]. eexists _, d. split; [by projections|]. split; [done|].
    split; [by projections|]. split; [by projections|done].
  - apply runs_bind_inv in Hr as (t5 & t6 & [] & -> & Hf & Hr).
    apply finish_runs in Hf as (d & (F1 & F2 & F3 & F4) & Hd). destruct Hr as (-> & <-).
    split; [by projections|]. eexists _, d. split; [by projections|]. split; [done|].
    split; [by projections|]. split; [by projections|]. split; [done|]. by exists ts.
  - apply answer_query_runs in Hr as (pol & log & d & Q1 & Q2 & Q3 & Hd & Q4).
    split; [by projections|]. exists log, d. split; [by projections|]. split; [done|].
    exists pol, ts. split; [by projections|]. by projections.
Qed.

Lemma handle_at_runs request client now tr resp :
  runs (handle_at request client now) tr resp -> handled_as request client now tr resp /\ reply_ok request resp.
Proof.
  unfold handle_at. intros Hr.
  apply runs_bind_inv in Hr as (t1 & t2 & prev & -> & G1 & Hr).
  apply runs_bind_inv in Hr as (t3 & t4 & r & -> & Hg & Hr).
  apply runs_bind_inv in Hr as (t5 & t6 & [] & -> & G5 & Hr). destruct Hr as (-> & ->).
  pose proof (runs_result _ _ _ _ (handle_guarded_ok prev request client now) Hg) as Hok. split; [|done].
  assert (A1 : policies t1 = [] /\ previous t1 = [prev] /\ logs t1 = [] /\ resolution t1 = [])
    by (by destruct G1 as (b & u & -> & -> & ->)).
  assert (A5 : side_trace t5 []) by (by destruct G5 as (b & u & -> & -> & ->)).
  clear G1 G5. destruct A1 as (A1 & A2 & A3 & A4), A5 as (B1 & B2 & B3 & B4).
  apply handle_guarded_runs in Hg as (P2 & log & d & P3 & Hd & Hg).
  exists prev, log, d. split; [by projections|]. split; [by projections|]. split; [done|].
  rewrite ?policies_app, ?resolution_app, A1, A4, B1, B4, !app_nil_r. exact Hg.
Qed.

(** ** CNAME targets *)
Lemma blocked_cname_none e records :
  blocked_cname_target e records = Some None ->
  forall r target lst rule, r ∈ records -> r_data r = RCNAME target ->
    verdict e (normalize_qname (name_to_ascii target)) <> Some (VBlock lst rule).
Proof.
  induction records as [|x records IH]; cbn [blocked_cname_target]; intros Hb r target lst rule Hr Hd.
  { by apply elem_of_nil in Hr. }
  apply elem_of_cons in Hr as [->|Hr].
  - rewrite Hd in Hb. cbn zeta in Hb. destruct (verdict e _) as [[]|]; cbn in Hb; congruence.
  - destruct (r_data x); try (by eapply IH). destruct (verdict e _) as [[]|]; cbn in Hb; try done; by eapply IH.
Qed.

(** ** Resolution *)

(** What a trace shows of a resolution: whether the cache answered, whether
    a hold-down answered, whether a lookup was joined, refreshes started. *)
Definition obs_lookup (o : Obs Ev) : option Lookup :=
  match o_event o in Ev B return B -> option Lookup with CacheGet _ _ => fun b => Some b | _ => fun _ => None end (o_answer o).
Definition obs_held (o : Obs Ev) : option (option Duration) :=
  match o_event o in Ev B return B -> option (option Duration) with FailHeld _ _ => fun b => Some b | _ => fun _ => None end (o_answer o).
Definition obs_recv (o : Obs Ev) : option RecvResult :=
  match o_event o in Ev B return B -> option RecvResult with Recv _ => fun b => Some b | _ => fun _ => None end (o_answer o).
Definition obs_leads (o : Obs Ev) : option (option Chan) :=
  match o_event o in Ev B return B -> option (option Chan) with JoinLookup _ => fun b => Some (snd b) | _ => fun _ => None end (o_answer o).
Definition obs_spawn (o : Obs Ev) : option Task :=
  match o_event o with SpawnTask t => Some t | _ => None end.
Definition obs_inserted (o : Obs Ev) : option bool :=
  match o_event o in Ev B return B -> option bool with RefreshInsert _ => fun b => Some b | _ => fun _ => None end (o_answer o).

Definition key_of (request : Message) (name : Name) (qtype : Z) : CacheKey :=
  mkKey name qtype (match queries request with q :: _ => q_class q | [] => CLASS_IN end).
End Handler.

(** ** The question of a reply *)
Section Questions.
Context `{HickoryOps} `{HashIter} `{IpNetOps} `{RcodeDisplay}.

(** The message a resolution adopts as its answer: the cache's, or the one
    a shared lookup published. *)
Definition obs_adopted (o : Obs Ev) : option Message :=
  match o_event o in Ev B return B -> option Message with
  | CacheGet _ _ => fun b => match b with Fresh m | Stale m => Some m | Miss => None end
  | Recv _ => fun b => match b with RecvOk a => a | RecvErr => None end
  | _ => fun _ => None
  end (o_answer o).
Definition adopted (tr : list (Obs Ev)) : list Message := project obs_adopted tr.

(** For a search host: the records of the endpoint are passed on as they
    were resolved, whatever its CNAMEs lead to; only the endpoint's code can
    keep them back. *)
Lemma safesearch_skips_cname_check request qname qtype target now tr resp name target_name :
  name_from_ascii (qname ++ [c_dot]) = Some name -> name_from_ascii (target ++ [c_dot]) = Some target_name ->
  runs (answer_safesearch request qname qtype target now) tr resp ->
  exists target_query tresp source,
    queries target_query = [mkQuery target_name qtype CLASS_IN]
    /\ runs (resolve_cached target_query target qtype now) tr (tresp, source)
    /\ answers resp = record_from_rdata name SAFESEARCH_CNAME_TTL (RCNAME target_name)
                        :: (if rcode tresp =? NoError then answers tresp else []).
Proof.
  intros Hn Ht. unfold answer_safesearch. rewrite Hn, Ht. cbn zeta. set (q := set_meta _ (with_rd true)). intros Hr.
  apply runs_bind_inv in Hr as (t1 & t2 & [tresp src] & -> & Hr & Hb). exists q, tresp, src. split; [done|].
  assert (E : forall rs m, answers (fold_left add_answer rs m) = answers m ++ rs).
  { intros rs. induction rs as [|x rs IH]; intros m; cbn [fold_left]; [by rewrite app_nil_r|]. rewrite IH. cbn. by rewrite <- app_assoc. }
  destruct (_ =? _); destruct Hb as (-> & <-); rewrite app_nil_r; (split; [done|]); rewrite ?E; cbn; by rewrite skeleton_answers.
Qed.

(** The request's question, or the one an adopted message came with. *)
Definition question_of (request : Message) (tr : list (Obs Ev)) (resp : Message) : Prop :=
  queries resp = queries request \/ exists m, m ∈ adopted tr /\ queries m <> [] /\ queries resp = queries m.

Lemma adopted_resolution tr : adopted (resolution tr) = adopted tr.
Proof. induction tr as [|[B e b] tr IH]; [done|]. unfold adopted, resolution in *. cbn. destruct e; cbn; rewrite ?IH; try done. by destruct t. Qed.

Lemma skeleton_queries request : queries (response_skeleton request) = queries request.
Proof.
  unfold response_skeleton. set (m := set_meta _ _) at 1. destruct (apply_edns_rest request m) as (_ & -> & _).
  subst m. by rewrite fold_add_query.
Qed.

Lemma block_queries request m : synth_block_response request = Some m -> queries m = queries request.
Proof. unfold synth_block_response. intros Hm. inv_bind. apply skeleton_queries. Qed.

Lemma restamp_queries m request : queries (restamp m request) = match queries m with [] => queries request | qs => qs end.
Proof.
  unfold restamp. set (m1 := match Dns.queries _ with [] => _ | _ => _ end).
  set (m2 := maybe_strip_dnssec m1 (client_wants_dnssec request)). destruct (apply_edns_rest request m2) as (_ & -> & _).
  destruct (maybe_strip_meta m1 (client_wants_dnssec request)) as (_ & Sq & _). fold m2 in Sq. rewrite Sq. subst m1. cbn.
  destruct (Dns.queries m) eqn:E; [rewrite fold_add_query; cbn; by rewrite E|by cbn].
Qed.

Lemma restamp_question m request tr : m ∈ adopted tr -> question_of request tr (restamp m request).
Proof.
  intros Hm. unfold question_of. rewrite restamp_queries. destruct (queries m) eqn:E; [by left|]. right. exists m. by rewrite E.
Qed.

Lemma resolve_cached_question request qname qtype now tr resp source :
  runs (resolve_cached request qname qtype now) tr (resp, source) -> question_of request tr resp.
Proof.
  unfold resolve_cached. destruct (name_from_ascii qname) as [name|]; [|intros (-> & [= <- <-]); left; apply skeleton_queries].
  intros (l & t1 & -> & Hr). cbn in Hr. destruct l as [m|m|].
  - destruct Hr as (-> & [= <- <-]). apply restamp_question. by left.
  - assert (E : resp = restamp m request) by (destruct Hr as ([] & t2 & -> & Hr); [destruct Hr as (u & t3 & -> & -> & [= <- <-])|destruct Hr as (-> & [= <- <-])]; done).
    subst resp. apply restamp_question. by left.
  - destruct Hr as (h & t2 & -> & Hr). cbn in Hr. destruct h as [h|]; [destruct Hr as (-> & [= <- <-]); left; apply skeleton_queries|].
    destruct Hr as ([rx lead] & t3 & -> & Hr). apply runs_bind_inv in Hr as (t4 & t5 & [] & -> & _ & Hr).
    destruct Hr as (r & t6 & -> & Hr). destruct r as [[m|]|]; destruct Hr as (-> & [= <- <-]); try (left; apply skeleton_queries).
    apply restamp_question. unfold adopted. cbn. rewrite project_app. apply elem_of_app. right. by left.
Qed.

Lemma safesearch_question request qname qtype target now tr resp :
  runs (answer_safesearch request qname qtype target now) tr resp -> queries resp = queries request.
Proof.
  intros Hr. refine (runs_result (fun m => queries m = queries request) _ _ _ _ Hr). unfold answer_safesearch.
  destruct (name_from_ascii (qname ++ _)) as [n|]; [|apply skeleton_queries]. destruct (name_from_ascii (target ++ _)) as [t|]; [|apply skeleton_queries].
  apply all_results_seq. intros [tresp src]. destruct (_ =? _); cbn [all_results]; [|apply skeleton_queries].
  generalize (answers tresp). intros rs. set (m0 := add_answer _ _). assert (E : queries m0 = queries request) by apply skeleton_queries.
  revert E. generalize m0. induction rs as [|x rs IH]; intros m Hm; [done|]. by apply IH.
Qed.

Lemma handled_question request client now tr resp : handled_as request client now tr resp -> question_of request tr resp.
Proof.
  intros (prev & log & d & _ & _ & _ & Hd). destruct (_ <=? prev); [left; destruct Hd as (_ & _ & -> & _); apply skeleton_queries|].
  destruct (queries request) as [|q qs] eqn:Eq; [left; destruct Hd as (_ & _ & -> & _); apply skeleton_queries|].
  destruct Hd as (pol & ts & _ & Hd). unfold decided_as in Hd. destruct (_ || _); [left; destruct Hd as (-> & _); apply skeleton_queries|].
  assert (Hres : forall qname l, resolved_as pol request qname (q_type q) now l (resolution tr) log resp -> question_of request tr resp).
  { intros qname l. unfold resolved_as. destruct (SafeSearch.rewrite _ _) as [target|]; [intros (_ & Hr); left; by apply safesearch_question in Hr|].
    intros (resp0 & src & Hr & Hc). apply resolve_cached_question in Hr. unfold question_of in Hr. rewrite adopted_resolution in Hr.
    destruct (bool_decide _); [by destruct Hc as (-> & _)|]. destruct Hc as ([[[t l'] u]|] & _ & Hc); [|by destruct Hc as (-> & _)].
    left. destruct Hc as (Hb & _). by apply block_queries. }
  destruct (verdict _ _) as [[|l' r'|l' r']|]; [by eapply Hres| |by eapply Hres|done]. left. destruct Hd as (Hb & _). by apply block_queries.
Qed.
End Questions.

(** ** Properties *)
Section Properties.
Context `{HickoryOps} `{HashIter} `{IpNetOps} `{RcodeDisplay}.


(** C15: every reply fits its request: same id, a response, RD echoed, RA
    set, an OPT record exactly if the request had one and then with the
    client's DO bit. Its question is the request's, letter by letter, unless
    the message adopted as the answer came with a question of its own,
    which is then kept. Only what an upstream sent can: the cache's
    messages have none ([get_has_no_question]). *)
Theorem replies_fit_requests request client now tr resp :
  runs (handle_at request client now) tr resp ->
  msg_id (metadata resp) = msg_id (metadata request)
  /\ message_type (metadata resp) = MResponse
  /\ recursion_desired (metadata resp) = recursion_desired (metadata request)
  /\ recursion_available (metadata resp) = true
  /\ (queries request <> [] -> queries resp <> [])
  /\ question_of request tr resp
  /\ (edns request = None <-> edns resp = None)
  /\ client_wants_dnssec resp = client_wants_dnssec request.
Proof.
  intros Hr. apply handle_at_runs in Hr as [Hh (G1' & G2' & G3 & G4 & G5 & G6)]. apply handled_question in Hh.
  split_and!; try done; unfold client_wants_dnssec; destruct (edns request) as [e|].
  - destruct G6 as (e' & -> & _). done.
  - done.
  - destruct G6 as (e' & -> & ->). done.
  - by rewrite G6.
Qed.

(** C10: no tracker hides behind a first-party alias: unless an exception
    covers the queried name or safe search rewrites it, no CNAME of the
    reply leads to a name the policy's engine blocks. *)
Theorem no_cloaked_tracker request client now tr resp pol query rest :
  runs (handle_at request client now) tr resp -> policies tr = [pol] -> queries request = query :: rest ->
  let qname := normalize_qname (name_to_ascii (q_name query)) in
  (forall lst rule, verdict (pol_engine pol) qname <> Some (VExcept lst rule)) ->
  SafeSearch.rewrite (pol_safesearch pol) qname = None ->
  forall r target lst rule, r ∈ answers resp -> r_data r = RCNAME target ->
    verdict (pol_engine pol) (normalize_qname (name_to_ascii target)) <> Some (VBlock lst rule).
Proof.
  intros Hr Hpol Hq qname Hne Hss r target lst rule Hin.
  apply handle_at_runs in Hr as [(prev & log & d & _ & _ & _ & Hd) _]. rewrite Hpol, Hq in Hd.
  destruct (_ <=? prev); [by destruct Hd as (? & _)|].
  destruct Hd as (pol' & ts & [= <-] & Hd). unfold decided_as in Hd. cbn zeta in Hd. fold qname in Hd.
  destruct (_ || _).
  { destruct Hd as (-> & _). cbn in Hin. rewrite skeleton_answers in Hin. by apply elem_of_nil in Hin. }
  destruct (verdict (pol_engine pol) qname) as [[|l' r'|l' r']|] eqn:Ev; [| |by destruct (Hne l' r')|done].
  - unfold resolved_as in Hd. rewrite Hss in Hd. destruct Hd as (resp0 & src & _ & c & Hc & Hd).
    destruct c as [[[t l] u]|]; [destruct Hd as (Hb & _)|destruct Hd as (-> & _)].
    + apply block_reply_ok in Hb as (_ & Ha). rewrite Ha in Hin. by apply elem_of_nil in Hin.
    + by eapply blocked_cname_none.
  - destruct Hd as (Hb & _). apply block_reply_ok in Hb as (_ & Ha). rewrite Ha in Hin. by apply elem_of_nil in Hin.
Qed.

(** C16: resolution goes cache, hold-down, shared lookup. A fresh entry
    answers alone; a stale one answers and starts a refresh only if none
    runs for the key; a miss under a hold-down is SERVFAIL without asking
    anyone; any other miss joins the lookup of its key, starting it only if
    there is none, and returns what that lookup publishes (SERVFAIL when it
    failed or died). *)
Theorem resolution_order request qname qtype now tr resp source name :
  name_from_ascii qname = Some name ->
  runs (resolve_cached request qname qtype now) tr (resp, source) ->
  let key := key_of request name qtype in
  exists l, project obs_lookup tr = [l] /\
  match l with
  | Fresh m => source = SCache /\ resp = restamp m request /\ len tr = 1
  | Stale m => source = SStale /\ resp = restamp m request /\
      exists inserted, project obs_inserted tr = [inserted]
        /\ project obs_spawn tr = (if (inserted : bool) then [TRefresh request key] else [])
  | Miss => exists h, project obs_held tr = [h] /\
      match h with
      | Some _ => source = FailureCached /\ resp = synth_servfail request /\ len tr = 2
      | None => exists lead r, project obs_leads tr = [lead] /\ project obs_recv tr = [r]
          /\ project obs_spawn tr = (match lead with Some tx => [TLeader request qname key now tx] | None => [] end)
          /\ match r with
             | RecvOk (Some m) => source = SUpstream /\ resp = restamp m request
             | _ => source = Failed /\ resp = synth_servfail request
             end
      end
  end.
Proof.
  intros Hn Hr key. unfold resolve_cached in Hr. rewrite Hn in Hr. fold (key_of request name qtype) in Hr. fold key in Hr.
  destruct Hr as (l & t1 & -> & Hr). exists l. cbn in Hr. destruct l as [m|m|].
  - destruct Hr as (-> & [= <- <-]). done.
  - destruct Hr as (ins & t2 & -> & Hr). cbn in Hr. destruct ins; cbn in Hr.
    + destruct Hr as (u & t3 & -> & -> & [= <- <-]). split; [done|]. split; [done|]. split; [done|]. by exists true.
    + destruct Hr as (-> & [= <- <-]). split; [done|]. split; [done|]. split; [done|]. by exists false.
  - destruct Hr as (h & t2 & -> & Hr). cbn in Hr. destruct h as [h|].
    + destruct Hr as (-> & [= <- <-]). split; [done|]. by exists (Some h).
    + cbn in Hr. destruct Hr as ([rx lead] & t3 & -> & Hr). cbn in Hr. destruct lead as [tx|]; cbn in Hr.
      * destruct Hr as (u & t4 & -> & r & t5 & -> & Hr).
        destruct r as [[m|]|]; destruct Hr as (-> & [= <- <-]);
          (split; [done|]; exists None; split; [done|]; by eexists _, _).
      * destruct Hr as (r & t5 & -> & Hr).
        destruct r as [[m|]|]; destruct Hr as (-> & [= <- <-]);
          (split; [done|]; exists None; split; [done|]; by eexists _, _).
Qed.
End Properties.
