(* ===== verification/Serving.v ===== *)
(** * Serving: what goes over the sockets ([crates/core/src/server.rs], sockets)

    The size of a UDP answer, the length-prefixed framing of a TCP
    connection and the cap on connections. The wire form of a message is
    Hickory's; a read or write that fails or times out ends the
    connection. *)
From S2P Require Import Prelude Text Time IpAddr FilterTypes Engine Dns Cache FailCache SafeSearch Proc Shadow Db Pipeline Server.

Definition MAX_TCP_CONNECTIONS : Z := 128.

Section Serving.
Context `{HickoryOps} `{HashIter} `{IpNetOps}.

(** ** UDP *)
Definition udp_payload_limit (request : Message) : Z := Z.max 512 (Z.min 1232 (max_payload request)).

(** The datagram sent for [response], if any. *)
Definition udp_reply (request response : Message) : option (list Z) :=
  let max := udp_payload_limit request in
  match to_vec response with
  | Some bytes => if len bytes <=? max then Some bytes else to_vec (truncate response)
  | None => None
  end.

(** One turn of the UDP task: a datagram that does not parse is dropped. *)
Definition udp_request (datagram : list Z) : option Message := from_vec datagram.

(** ** TCP *)
Definition from_be_bytes (b : list Z) : Z := match b with [hi; lo] => hi * 256 + lo | _ => 0 end.
Definition to_be_bytes (n : Z) : list Z := [n / 256; n mod 256].

(** [read_exact] of [n] bytes from what the peer sends before it closes or
    stays idle. *)
Definition read_exact (n : Z) (input : list Z) : option (list Z * list Z) :=
  if n <=? len input then Some (take (Z.to_nat n) input, drop (Z.to_nat n) input) else None.

Definition frame (bytes : list Z) : option (list Z) :=
  n ← try_from u16_max (len bytes); Some (to_be_bytes n ++ bytes).

(** The loop of [serve_tcp_conn], from its [i]-th query: [handle] is what
    the pipeline answers, [writes i] whether the peer takes that answer.
    What is written; the fuel bounds the queries. *)
Fixpoint serve_tcp_conn (fuel : nat) (handle : nat -> Message -> Message) (writes : nat -> bool) (i : nat) (input : list Z) : list Z :=
  match fuel with
  | O => []
  | S fuel =>
      match read_exact 2 input with
      | None => []
      | Some (lenbuf, input) =>
          match read_exact (from_be_bytes lenbuf) input with
          | None => []
          | Some (buf, input) =>
              match from_vec buf with
              | None => []
              | Some request =>
                  match to_vec (handle i request) with
                  | None => []
                  | Some bytes =>
                      match frame bytes with
                      | None => []
                      | Some framed =>
                          if writes i then framed ++ serve_tcp_conn fuel handle writes (S i) input else []
                      end
                  end
              end
          end
      end
  end.

(** ** The accept loop

    The connections open, each with its peer; a permit each. *)
Inductive Accepted := Stranger | Full | Served.

Definition accept (p : Pipeline) (open : list IpAddr) (peer : IpAddr) : Accepted * list IpAddr :=
  if negb (client_allowed (pol_allow (policy p)) peer) then (Stranger, open)
  else if len open <? MAX_TCP_CONNECTIONS then (Served, peer :: open)
  else (Full, open).

(** Connections come and go; queries and reloads change the pipeline. *)
Inductive conns : list IpAddr -> Prop :=
| no_conns : conns []
| conn_accept p open peer : conns open -> conns (snd (accept p open peer))
| conn_close pre peer post : conns (pre ++ peer :: post) -> conns (pre ++ post).
End Serving.
