(* ===== verification/ServingSpec.v ===== *)
(** * ServingSpec: bounded answers, framed in order *)
From S2P Require Import Prelude Text Time IpAddr FilterTypes Engine Dns Cache CacheSpec FailCache SafeSearch Proc Shadow Db Pipeline Server Serving.

Section Spec.
Context `{HickoryOps} `{HashIter} `{IpNetOps}.

(** A UDP answer is bounded whatever size the client advertises: the
    limit lies between 512 and 1232 bytes and is the client's own size
    within them; an answer that fits is sent as it is, a larger one only
    as its truncated form, so a datagram beyond the limit would have to be
    a truncated message that size by itself. *)
Theorem udp_answers_bounded request response :
  512 <= udp_payload_limit request <= 1232
  /\ (512 <= max_payload request <= 1232 -> udp_payload_limit request = max_payload request)
  /\ match to_vec response with
     | Some bytes => udp_reply request response =
         if bool_decide (len bytes <= udp_payload_limit request) then Some bytes else to_vec (truncate response)
     | None => udp_reply request response = None
     end
  /\ forall sent, udp_reply request response = Some sent ->
       len sent <= udp_payload_limit request \/ to_vec (truncate response) = Some sent.
Proof.
  unfold udp_reply. assert (Hl : 512 <= udp_payload_limit request <= 1232) by (unfold udp_payload_limit; lia).
  split; [done|]. split; [unfold udp_payload_limit; lia|]. destruct (to_vec response) as [bytes|]; [|done].
  destruct (Z.leb_spec (len bytes) (udp_payload_limit request)).
  - rewrite bool_decide_true by done. split; [done|]. intros sent [= <-]. by left.
  - rewrite bool_decide_false by lia. split; [done|]. intros sent Hs. by right.
Qed.

(** ** TCP *)

Lemma read_exact_app a b : read_exact (len a) (a ++ b) = Some (a, b).
Proof.
  unfold read_exact. rewrite len_app. pose proof (len_nonneg b). rewrite (proj2 (Z.leb_le _ _)) by lia.
  unfold len. rewrite Nat2Z.id, take_app_length, drop_app_length. done.
Qed.

Lemma be_bytes_roundtrip n : 0 <= n <= u16_max -> from_be_bytes (to_be_bytes n) = n.
Proof. unfold from_be_bytes, to_be_bytes. intros Hn. pose proof (Z.div_mod n 256). lia. Qed.

Lemma frame_bytes bytes framed :
  frame bytes = Some framed -> framed = to_be_bytes (len bytes) ++ bytes /\ 0 <= len bytes <= u16_max.
Proof.
  unfold frame. intros Hf. apply bind_Some in Hf as (n & Hn & Hf). apply try_from_inv in Hn as (-> & Hr). by injection Hf as <-.
Qed.

(** Reading one frame back. *)
Lemma read_frame bytes framed rest :
  frame bytes = Some framed ->
  read_exact 2 (framed ++ rest) = Some (to_be_bytes (len bytes), bytes ++ rest)
  /\ read_exact (from_be_bytes (to_be_bytes (len bytes))) (bytes ++ rest) = Some (bytes, rest).
Proof.
  intros Hf. apply frame_bytes in Hf as (-> & Hr). rewrite <- app_assoc. split.
  - apply (read_exact_app (to_be_bytes (len bytes))).
  - rewrite be_bytes_roundtrip by done. apply read_exact_app.
Qed.

(** Queries as a client frames them. *)
Definition framed_as (ms : list Message) (stream : list Z) : Prop :=
  exists frames, stream = concat frames /\ Forall2 (fun m f => exists bytes, to_vec m = Some bytes /\ frame bytes = Some f) ms frames.

(** The answers to the queries from the [i]-th on. *)
Fixpoint answers_from (handle : nat -> Message -> Message) (i : nat) (requests : list Message) : list Message :=
  match requests with [] => [] | r :: requests => handle i r :: answers_from handle (S i) requests end.

Lemma serve_tcp_conn_frames handle requests : forall fuel i stream answers,
  (forall m bytes, to_vec m = Some bytes -> m ∈ requests -> from_vec bytes = Some m) ->
  (length requests < fuel)%nat ->
  framed_as requests stream -> framed_as (answers_from handle i requests) answers ->
  serve_tcp_conn fuel handle (fun _ => true) i stream = answers.
Proof.
  induction requests as [|r requests IH]; intros fuel i stream answers Hrt Hf (fs & -> & Hfs) (ans & -> & Hans); (destruct fuel as [|fuel]; [cbn in Hf; lia|]).
  - apply Forall2_nil_inv_l in Hfs as ->. apply Forall2_nil_inv_l in Hans as ->. done.
  - apply Forall2_cons_inv_l in Hfs as (f & fs' & (bytes & Hb & Hfr) & Hfs & ->).
    apply Forall2_cons_inv_l in Hans as (a & ans' & (abytes & Ha & Hafr) & Hans & ->).
    destruct (read_frame bytes f (concat fs') Hfr) as (R1 & R2). cbn [serve_tcp_conn concat]. rewrite R1, R2.
    rewrite (Hrt r bytes Hb) by (by left). rewrite Ha, Hafr. f_equal.
    apply IH; [intros m b Hm Hin; apply (Hrt m b Hm); by right|cbn in Hf; lia|by exists fs'|by exists ans'].
Qed.

(** A TCP connection answers every query, once and in order: for a
    client that frames its queries one after the other, without waiting for
    the answers, the bytes that come back are exactly the frames of the
    pipeline's answers; reading them with the same framing gives each
    answer's bytes back. *)
Theorem tcp_answers_in_order handle requests stream answers :
  (forall m bytes, to_vec m = Some bytes -> m ∈ requests -> from_vec bytes = Some m) ->
  framed_as requests stream -> framed_as (answers_from handle 0 requests) answers ->
  serve_tcp_conn (S (length requests)) handle (fun _ => true) 0 stream = answers
  /\ forall bytes framed rest, frame bytes = Some framed ->
       exists body, read_exact 2 (framed ++ rest) = Some (to_be_bytes (len bytes), body)
         /\ read_exact (from_be_bytes (to_be_bytes (len bytes))) body = Some (bytes, rest).
Proof.
  intros Hrt Hs Ha. split; [apply (serve_tcp_conn_frames handle requests); [done|lia|done|done]|]. intros bytes framed rest Hf.
  exists (bytes ++ rest). by apply read_frame.
Qed.

(** Strangers get no connection and the household a bounded number: at
    any time at most 128 are open, and one is opened only for a peer the
    allowlist in force contains and while one is free. *)
Theorem tcp_connections_bounded open :
  conns open ->
  len open <= MAX_TCP_CONNECTIONS
  /\ forall p peer, let '(r, open') := accept p open peer in
       (r = Served <-> client_allowed (pol_allow (policy p)) peer = true /\ len open < MAX_TCP_CONNECTIONS)
       /\ (r <> Served -> open' = open).
Proof.
  intros Hc. split.
  - induction Hc as [|p open peer Hc IH|pre peer post Hc IH].
    + unfold len, MAX_TCP_CONNECTIONS. cbn. lia.
    + unfold accept. destruct (negb _); [done|]. destruct (Z.ltb_spec (len open) MAX_TCP_CONNECTIONS); cbn [snd]; [rewrite len_cons; lia|done].
    + rewrite len_app, len_cons in IH. rewrite len_app. lia.
  - intros p peer. unfold accept. destruct (client_allowed _ _); cbn [negb].
    + destruct (Z.ltb_spec (len open) MAX_TCP_CONNECTIONS); (split; [split; [|]|]; try done). intros (_ & Hl). lia.
    + split; [split; [done|by intros (HF & _)]|done].
Qed.
End Spec.

(** ** Witnesses *)
#[local] Existing Instance text_names.
#[local] Existing Instance map_order.
#[local] Instance one_net : IpNetOps := {| IpNet := IpAddr; net_contains := fun a b => bool_decide (a = b) |}.

(** A wire that carries the id of a query. *)
Definition id_to_vec (m : Message) : option (list Z) := Some [msg_id (metadata m)].
Lemma id_to_vec_bound m w : id_to_vec m = Some w -> len w <= u16_max.
Proof. intros [= <-]. unfold len, u16_max. cbn. lia. Qed.
Lemma id_strip_meta (m : Message) (b : bool) : metadata m = metadata m /\ queries m = queries m /\ edns m = edns m.
Proof. done. Qed.

#[local] Instance id_wire : HickoryOps := {|
  to_vec := id_to_vec;
  to_vec_bound := id_to_vec_bound;
  from_vec := fun b => match b with [n] => Some (message_new n MQuery OpQuery) | _ => None end;
  maybe_strip_dnssec := fun m _ => m;
  maybe_strip_meta := id_strip_meta;
  truncate := fun m => m;
  max_payload := fun _ => 4096
|}.

Definition id_query (n : Z) : Message := message_new n MQuery OpQuery.
Definition id_handle (i : nat) (m : Message) : Message := message_new (100 + msg_id (metadata m)) MResponse OpQuery.

Lemma tcp_answers_in_order_witness :
  serve_tcp_conn 3 id_handle (fun _ => true) 0 [0; 1; 7; 0; 1; 9] = [0; 1; 107; 0; 1; 109].
Proof.
  refine (proj1 (tcp_answers_in_order id_handle [id_query 7; id_query 9] [0; 1; 7; 0; 1; 9] [0; 1; 107; 0; 1; 109] _ _ _)).
  - intros m bytes Hb Hm. injection Hb as <-. apply elem_of_cons in Hm as [->|Hm]; [reflexivity|].
    apply list_elem_of_singleton in Hm as ->. reflexivity.
  - exists [[0; 1; 7]; [0; 1; 9]]. split; [reflexivity|]. repeat constructor; eexists; (split; [reflexivity|vm_compute; reflexivity]).
  - exists [[0; 1; 107]; [0; 1; 109]]. split; [reflexivity|]. repeat constructor; eexists; (split; [reflexivity|vm_compute; reflexivity]).
Defined.

Definition local_peer : IpAddr := V4 [127; 0; 0; 1].
Definition local_pipeline : Pipeline :=
  from_policy (mkPolicy engine_default (mkSafeSearch 0) [local_peer]) (mkInner ∅ [] 0 0 0 0 0 0 0) (writer_new 1).

Lemma tcp_connections_bounded_witness : conns [local_peer] /\ len [local_peer] <= MAX_TCP_CONNECTIONS.
Proof.
  assert (Hc : conns [local_peer]) by exact (conn_accept local_pipeline [] local_peer no_conns).
  split; [exact Hc|]. exact (proj1 (tcp_connections_bounded [local_peer] Hc)).
Defined.
