(* ===== verification/Upstream.v ===== *)
(** * Upstream: the encrypted upstream pool ([crates/core/src/upstream.rs])

    URL parsing and connection factories, start-up in rounds, the
    reconnecting upstream (its connection state, its repair task, one send)
    and the race of [UpstreamPool::resolve]. The asynchronous code of one
    upstream is a tree of events over its shared state; [uexec] is the
    meaning of an event. Sockets, TLS and the [url] crate are the class
    [UpstreamOps]. *)
From S2P Require Import Prelude Text Time Num IpAddr Dns Shadow Proc.

(** The [url] crate, certificates and what a dialled connection is. *)
Class UpstreamOps := {
  Url : Type;
  url_parse : list Z -> Url + list Z;
  url_scheme : Url -> list Z;
  url_host_str : Url -> option (list Z);
  url_port : Url -> option Z;
  url_path : Url -> list Z;
  Certificate : Type;
  ClientConfig : Type;
  (* the web PKI plus these roots, or why one cannot be used *)
  root_config : list Certificate -> ClientConfig + list Z;
  Transport : Type;
  duration_debug : Duration -> list Z
}.

(** ** Errors *)
Inductive UpstreamError :=
| UnsupportedUrl (u : list Z)
| Init (msg : list Z)
| AllFailed (errs : list (list Z)).

(** [Display for Error]. *)
Definition error_text (e : UpstreamError) : list Z :=
  match e with
  | UnsupportedUrl u => lit "unsupported upstream URL: " ++ u
  | Init msg => lit "upstream pool init failed: " ++ msg
  | AllFailed errs => lit "all upstreams failed:" ++ concat (map (fun e => [c_nl] ++ lit "  - " ++ e) errs)
  end.

(** How a send failed: the connection is dead, or this query only. *)
Inductive SendError := Fatal (e : list Z) | QueryError (e : list Z).

(** hickory's [NetError] (non-exhaustive), with its [Display]. *)
Inductive NetErrorKind := EDns | EProto | EQueryCaseMismatch | EMsg (msg : list Z) | EOther.
Record NetError := mkNetError { ne_kind : NetErrorKind; ne_text : list Z }.

Definition HTTP_STATUS_ERROR_PREFIX : list Z := lit "http unsuccessful code: ".

Definition classify_net_error (err : NetError) : SendError :=
  match ne_kind err with
  | EDns | EProto | EQueryCaseMismatch => QueryError (ne_text err)
  | EMsg msg =>
      if match strip_prefix HTTP_STATUS_ERROR_PREFIX msg with
         | Some status => starts_with (lit "4") status
         | None => false
         end
      then QueryError (ne_text err) else Fatal (ne_text err)
  | EOther => Fatal (ne_text err)
  end.

(** ** Times *)
Definition MIN_RECONNECT_BACKOFF : Duration := from_millis 500.
Definition MAX_RECONNECT_BACKOFF : Duration := from_secs 30.
Definition MAX_PROBATION : Duration := from_secs 5.
Definition DEFAULT_CONNECT_BUDGET : Duration := from_secs 30.
Definition INIT_RETRY_BACKOFF_START : Duration := from_millis 500.
Definition INIT_RETRY_BACKOFF_MAX : Duration := from_secs 5.

Definition duration_to_millis (d : Duration) : Z := default u64_max (try_from u64_max (as_millis d)).

Section Upstream.
Context `{HickoryOps} `{UpstreamOps} `{RcodeDisplay}.

Record UpstreamConfig := mkUpstreamConfig {
  urls : list (list Z);
  bootstrap_ips : list IpAddr;
  timeout_ms : Z;
  extra_roots : list Certificate;
  connect_budget : Duration
}.

(** ** Upstream URLs *)
Inductive UpstreamKind :=
| Https (host : list Z) (port : Z) (path : list Z)
| Quic (host : list Z) (port : Z).

Definition kind_host (k : UpstreamKind) : list Z := match k with Https host _ _ | Quic host _ => host end.
Definition kind_port (k : UpstreamKind) : Z := match k with Https _ port _ | Quic _ port => port end.

(** [url.host_str().filter(|h| !h.is_empty())] *)
Definition nonempty_host (url : Url) : option (list Z) :=
  match url_host_str url with
  | Some h => if bool_decide (h = []) then None else Some h
  | None => None
  end.

Definition parse_upstream_url (raw : list Z) : UpstreamKind + UpstreamError :=
  match url_parse raw with
  | inr e => inr (UnsupportedUrl (raw ++ lit ": " ++ e))
  | inl url =>
      let scheme := url_scheme url in
      if str_eqb scheme (lit "https") then
        match nonempty_host url with
        | None => inr (UnsupportedUrl (raw ++ lit ": missing host"))
        | Some host =>
            let port := default 443 (url_port url) in
            let path := url_path url in
            if bool_decide (path = []) || str_eqb path (lit "/")
            then inr (UnsupportedUrl (raw ++ lit ": https URL must include a path (e.g. /dns-query)"))
            else inl (Https host port path)
        end
      else if str_eqb scheme (lit "quic") then
        match nonempty_host url with
        | None => inr (UnsupportedUrl (raw ++ lit ": missing host"))
        | Some host => inl (Quic host (default 853 (url_port url)))
        end
      else inr (UnsupportedUrl (raw ++ lit ": unsupported scheme '" ++ scheme ++ lit "' (expected https or quic)"))
  end.

(** ** Connections *)

(** What the bootstrap resolver and the network answer. *)
Inductive LookupOutcome := BuilderError (e : list Z) | LookupError (e : list Z) | Addresses (ips : list IpAddr).
Record Net := mkNet {
  net_lookup : list Z -> list IpAddr -> LookupOutcome;
  net_dial : UpstreamKind -> IpAddr -> Z -> ClientConfig -> Transport + list Z
}.

(** The loop of [bootstrap_resolve]: the first IPv4 address, else the first. *)
Fixpoint pick_address (v4 first : option IpAddr) (ips : list IpAddr) : option IpAddr :=
  match ips with
  | [] => match v4 with Some ip => Some ip | None => first end
  | ip :: rest =>
      let first := match first with None => Some ip | Some _ => first end in
      if is_ipv4 ip then Some ip else pick_address v4 first rest
  end.

Definition bootstrap_resolve (net : Net) (host : list Z) (servers : list IpAddr) : IpAddr + UpstreamError :=
  match parse_ip host with
  | Some ip => inl ip
  | None =>
      match servers with
      | [] => inr (Init (lit "bootstrap_ips is empty and upstream hostname requires resolution"))
      | _ =>
          match net_lookup net host servers with
          | BuilderError e => inr (Init (lit "bootstrap resolver build failed: " ++ e))
          | LookupError e => inr (Init (lit "bootstrap resolution of '" ++ host ++ lit "' failed: " ++ e))
          | Addresses ips =>
              match pick_address None None ips with
              | Some ip => inl ip
              | None => inr (Init (lit "bootstrap resolution of '" ++ host ++ lit "' returned no addresses"))
              end
          end
      end
  end.

Definition build_transport (net : Net) (kind : UpstreamKind) (resolved_ip : IpAddr) (tls : ClientConfig) : Transport + UpstreamError :=
  match kind with
  | Https host port path =>
      match net_dial net kind resolved_ip port tls with
      | inl t => inl t
      | inr e => inr (Init (lit "DoH exchange to " ++ host ++ lit ":" ++ to_string port ++ lit " failed: " ++ e))
      end
  | Quic host port =>
      match net_dial net kind resolved_ip port tls with
      | inl t => inl t
      | inr e => inr (Init (lit "DoQ stream to " ++ host ++ lit ":" ++ to_string port ++ lit " failed: " ++ e))
      end
  end.

Record NetworkFactory := mkFactory {
  f_kind : UpstreamKind;
  f_bootstrap_ips : list IpAddr;
  f_url : list Z;
  f_tls : ClientConfig
}.

(** [NetworkFactory::build], [NetworkFactory::label]. *)
Definition build (net : Net) (f : NetworkFactory) : Transport + UpstreamError :=
  match bootstrap_resolve net (kind_host (f_kind f)) (f_bootstrap_ips f) with
  | inr e => inr e
  | inl ip => build_transport net (f_kind f) ip (f_tls f)
  end.
Definition label (f : NetworkFactory) : list Z := f_url f.

(** ** Factories *)
Definition build_rustls_client_config (roots : list Certificate) : ClientConfig + UpstreamError :=
  match root_config roots with
  | inl tls => inl tls
  | inr e => inr (Init (lit "tls.extra_roots: unusable certificate: " ++ e))
  end.

Definition needs_bootstrap (cfg : UpstreamConfig) (kind : UpstreamKind) : bool :=
  bool_decide (bootstrap_ips cfg = []) && match parse_ip (kind_host kind) with Some _ => false | None => true end.

Fixpoint factories_loop (cfg : UpstreamConfig) (tls : ClientConfig) (raws : list (list Z)) (acc : list NetworkFactory)
  : list NetworkFactory + UpstreamError :=
  match raws with
  | [] => inl acc
  | raw_url :: raws =>
      match parse_upstream_url raw_url with
      | inr e => inr e
      | inl kind =>
          if needs_bootstrap cfg kind
          then inr (Init (lit "bootstrap_ips is empty and upstream '" ++ raw_url ++ lit "' requires resolution"))
          else factories_loop cfg tls raws (acc ++ [mkFactory kind (bootstrap_ips cfg) raw_url tls])
      end
  end.
Definition factories (cfg : UpstreamConfig) (tls : ClientConfig) : list NetworkFactory + UpstreamError :=
  factories_loop cfg tls (urls cfg) [].

(** ** One upstream *)
Inductive ConnState :=
| Down (retry_at : Instant) (last_error : list Z)
| Connecting
| Connected (generation : Z) (transport : Transport) (probation_until : option Instant).

Definition state_name (s : ConnState) : list Z :=
  match s with Down _ _ => lit "down" | Connecting => lit "connecting" | Connected _ _ _ => lit "connected" end.
Definition is_connecting (s : ConnState) : bool := match s with Connecting => true | _ => false end.

(** [ReconnectingUpstream]: the connection state behind its mutex, and the
    atomic counters. *)
Record Upstream := mkUpstream {
  u_factory : NetworkFactory;
  u_state : ConnState;
  u_builds : Z;
  u_backoff_ms : Z;
  u_repair_done : Z;
  u_build_timeout : Duration;
  u_queries : Z;
  u_failures : Z;
  u_reconnects : Z;
  u_consecutive_failures : Z;
  u_last_success_ts : Z
}.

Definition upstream_new (f : NetworkFactory) (initial : ConnState) (build_timeout : Duration) : Upstream :=
  mkUpstream f initial (match initial with Connected _ _ _ => 1 | _ => 0 end)
    (duration_to_millis MIN_RECONNECT_BACKOFF) 0 build_timeout 0 0 0 0 0.

Definition set_state (u : Upstream) (s : ConnState) : Upstream :=
  mkUpstream (u_factory u) s (u_builds u) (u_backoff_ms u) (u_repair_done u) (u_build_timeout u) (u_queries u)
    (u_failures u) (u_reconnects u) (u_consecutive_failures u) (u_last_success_ts u).
Definition set_builds (u : Upstream) (n : Z) : Upstream :=
  mkUpstream (u_factory u) (u_state u) n (u_backoff_ms u) (u_repair_done u) (u_build_timeout u) (u_queries u)
    (u_failures u) (u_reconnects u) (u_consecutive_failures u) (u_last_success_ts u).
Definition set_backoff (u : Upstream) (ms : Z) : Upstream :=
  mkUpstream (u_factory u) (u_state u) (u_builds u) ms (u_repair_done u) (u_build_timeout u) (u_queries u)
    (u_failures u) (u_reconnects u) (u_consecutive_failures u) (u_last_success_ts u).
Definition set_done (u : Upstream) (n : Z) : Upstream :=
  mkUpstream (u_factory u) (u_state u) (u_builds u) (u_backoff_ms u) n (u_build_timeout u) (u_queries u)
    (u_failures u) (u_reconnects u) (u_consecutive_failures u) (u_last_success_ts u).
(** The health counters: queries, failures, reconnects, consecutive
    failures, last success. *)
Definition set_counts (u : Upstream) (q f r c : Z) (t : Z) : Upstream :=
  mkUpstream (u_factory u) (u_state u) (u_builds u) (u_backoff_ms u) (u_repair_done u) (u_build_timeout u) q f r c t.

(** ** Events of one upstream

    One event per mutex section, atomic access, clock reading or await. *)
Inductive BuildAnswer := BuildDone (r : Transport + UpstreamError) | BuildTimedOut | BuildDropped.
Inductive SendAnswer := Replied (r : Message + NetError) | SendTimedOut.
Inductive Acquired :=
| Usable (generation : Z) (transport : Transport)
| NotDue (retry_at : Instant) (last_error : list Z)
| Pending.

Inductive UEv : Type -> Type :=
| Now : UEv Instant
| UnixNow : UEv Z
(* the connection state *)
| StartConnecting : UEv bool
| ReadState : UEv Acquired
| Install (generation : Z) (t : Transport) (probation_until : Instant) : UEv unit
| BuildFailed (retry_at : Instant) (err : list Z) : UEv unit
| AbandonConnecting : UEv unit
| DropConnection (generation : Z) (why : list Z) : UEv bool
| Prove : UEv unit
(* atomics *)
| NextBuild : UEv Z
| LoadBackoff : UEv Duration
| StoreBackoff (ms : Z) : UEv unit
| AddReconnect : UEv unit
| AddQuery : UEv unit
| AddFailure : UEv unit
| AddConsecutive : UEv unit
| ResetConsecutive : UEv unit
| StoreLastSuccess (ts : Z) : UEv unit
(* the watch channel [repair_done] *)
| NotifyDone : UEv unit
| Subscribe : UEv Z
| Changed (seen : Z) (deadline : Instant) : UEv bool
(* the network, and the detached repair *)
| Build : UEv BuildAnswer
| SendQuery (t : Transport) (msg : Message) (deadline : Instant) : UEv SendAnswer
| SpawnRepair : UEv unit.

(** What the outside decides at one event. *)
Inductive BuildOutcome := Ends (net : Net) | TimesOut | Dropped.
Record UOracle := mkUOracle {
  uo_now : Instant;
  uo_unix : Z;
  uo_build : BuildOutcome;
  uo_sent : SendAnswer
}.

(** [trigger_repair]'s section. *)
Definition start_connecting (u : Upstream) (now : Instant) : bool * Upstream :=
  match u_state u with
  | Down retry_at _ => if retry_at <=? now then (true, set_state u Connecting) else (false, u)
  | _ => (false, u)
  end.

(** [acquire]'s section. *)
Definition read_state (u : Upstream) (now : Instant) : Acquired :=
  match u_state u with
  | Connected generation t _ => Usable generation t
  | Down retry_at last_error => if now <? retry_at then NotDue retry_at last_error else Pending
  | Connecting => Pending
  end.

(** The section of the guard [Concluded]. *)
Definition abandon_connecting (u : Upstream) (now : Instant) : Upstream :=
  if is_connecting (u_state u) then set_state u (Down now (lit "connection build abandoned")) else u.

(** [invalidate]'s section. *)
Definition drop_connection (u : Upstream) (generation : Z) (why : list Z) (now : Instant) : bool * Upstream :=
  match u_state u with
  | Connected current t probation_until =>
      if current =? generation then (true, set_state u (Down (default now probation_until) why)) else (false, u)
  | _ => (false, u)
  end.

(** [record_success]'s section. *)
Definition prove (u : Upstream) : Upstream :=
  match u_state u with Connected g t _ => set_state u (Connected g t None) | _ => u end.

(** The meaning of an event: [None] while it has to wait. *)
Definition uexec (o : UOracle) {B} (e : UEv B) (u : Upstream) : option (B * Upstream) :=
  match e in UEv B return option (B * Upstream) with
  | Now => Some (uo_now o, u)
  | UnixNow => Some (uo_unix o, u)
  | StartConnecting => Some (start_connecting u (uo_now o))
  | ReadState => Some (read_state u (uo_now o), u)
  | Install g t probation => Some (tt, set_state u (Connected g t (Some probation)))
  | BuildFailed retry_at err => Some (tt, set_state u (Down retry_at err))
  | AbandonConnecting => Some (tt, abandon_connecting u (uo_now o))
  | DropConnection g why => Some (drop_connection u g why (uo_now o))
  | Prove => Some (tt, prove u)
  | NextBuild => Some (u_builds u, set_builds u (u_builds u + 1))
  | LoadBackoff => Some (from_millis (u_backoff_ms u), u)
  | StoreBackoff ms => Some (tt, set_backoff u ms)
  | AddReconnect => Some (tt, set_counts u (u_queries u) (u_failures u) (u_reconnects u + 1) (u_consecutive_failures u) (u_last_success_ts u))
  | AddQuery => Some (tt, set_counts u (u_queries u + 1) (u_failures u) (u_reconnects u) (u_consecutive_failures u) (u_last_success_ts u))
  | AddFailure => Some (tt, set_counts u (u_queries u) (u_failures u + 1) (u_reconnects u) (u_consecutive_failures u) (u_last_success_ts u))
  | AddConsecutive => Some (tt, set_counts u (u_queries u) (u_failures u) (u_reconnects u) (u_consecutive_failures u + 1) (u_last_success_ts u))
  | ResetConsecutive => Some (tt, set_counts u (u_queries u) (u_failures u) (u_reconnects u) 0 (u_last_success_ts u))
  | StoreLastSuccess ts => Some (tt, set_counts u (u_queries u) (u_failures u) (u_reconnects u) (u_consecutive_failures u) ts)
  | NotifyDone => Some (tt, set_done u (u_repair_done u + 1))
  | Subscribe => Some (u_repair_done u, u)
  | Changed seen deadline =>
      if seen <? u_repair_done u then Some (true, u)
      else if deadline <=? uo_now o then Some (false, u) else None
  | Build =>
      Some (match uo_build o with
            | Ends net => BuildDone (build net (u_factory u))
            | TimesOut => BuildTimedOut
            | Dropped => BuildDropped
            end, u)
  | SendQuery _ _ _ => Some (uo_sent o, u)
  | SpawnRepair => Some (tt, u)
  end.

(** ** The code of one upstream *)
Notation Async := (Proc UEv).

Definition trigger_repair : Async unit :=
  due ← event StartConnecting;
  if due : bool then event SpawnRepair else Ret tt.

(** The drop of [Concluded]: runs however the repair ends. *)
Definition concluded : Async unit :=
  _ ← event AbandonConnecting;
  event NotifyDone.

Definition repair : Async unit :=
  answer ← event Build;
  match answer with
  | BuildDropped => concluded
  | BuildDone (inl transport) =>
      backoff ← event LoadBackoff;
      builds ← event NextBuild;
      now ← event Now;
      _ ← event (Install (builds + 1) transport (now + Z.min backoff MAX_PROBATION));
      _ ← event (StoreBackoff (duration_to_millis (Z.min (backoff * 2) MAX_PROBATION)));
      _ ← event AddReconnect;
      concluded
  | BuildDone (inr _) | BuildTimedOut =>
      let err := match answer with BuildDone (inr err) => error_text err | _ => lit "connection build timed out" end in
      backoff ← event LoadBackoff;
      now ← event Now;
      _ ← event (BuildFailed (now + backoff) err);
      _ ← event (StoreBackoff (duration_to_millis (Z.min (backoff * 2) MAX_RECONNECT_BACKOFF)));
      concluded
  end.

(** The loop of [acquire]: one round more than the repairs that conclude
    while it runs is fuel enough; [UpstreamPace] bounds them. *)
Fixpoint acquire (fuel : nat) (f : NetworkFactory) (deadline : Instant) : Async ((Z * Transport) + list Z) :=
  match fuel with
  | O => Panic
  | S fuel =>
      seen ← event Subscribe;
      state ← event ReadState;
      match state with
      | Usable generation transport => Ret (inl (generation, transport))
      | NotDue retry_at last_error =>
          now ← event Now;
          Ret (inr (label f ++ lit ": down, next connection attempt in "
                    ++ to_string (duration_to_millis (Z.max 0 (retry_at - now)))
                    ++ lit " ms (last error: " ++ last_error ++ lit ")"))
      | Pending =>
          _ ← trigger_repair;
          changed ← event (Changed seen deadline);
          if changed : bool then acquire fuel f deadline
          else Ret (inr (label f ++ lit ": timed out waiting for a connection"))
      end
  end.

Definition invalidate (generation : Z) (why : list Z) : Async unit :=
  dropped ← event (DropConnection generation why);
  if dropped : bool then trigger_repair else Ret tt.

(** [ExchangeTransport::send_query] within the deadline: [None] is the timeout. *)
Definition send_query (t : Transport) (msg : Message) (deadline : Instant) : Async (option (Message + SendError)) :=
  answer ← event (SendQuery t msg deadline);
  Ret (match answer with
       | Replied (inl response) => Some (inl response)
       | Replied (inr e) => Some (inr (classify_net_error e))
       | SendTimedOut => None
       end).

Definition record_success : Async unit :=
  _ ← event ResetConsecutive;
  now ← event UnixNow;
  _ ← event (StoreLastSuccess now);
  _ ← event (StoreBackoff (duration_to_millis MIN_RECONNECT_BACKOFF));
  event Prove.

Definition record_failure (err : list Z) : Async (list Z) :=
  _ ← event AddFailure;
  _ ← event AddConsecutive;
  Ret err.

(** The answers no client can use. *)
Definition unusable (rc : Z) : bool := (rc =? ServFail) || (rc =? Refused) || (rc =? NotImp).

Definition judge (f : NetworkFactory) (response : Message) : Async (Message + list Z) :=
  if unusable (rcode response) then
    err ← record_failure (label f ++ lit ": upstream answered " ++ rcode_display (rcode response));
    Ret (inr err)
  else
    _ ← record_success;
    Ret (inl response).

(** [send]'s second attempt, on the replacement of a dead connection. *)
Definition send_again (fuel : nat) (f : NetworkFactory) (msg : Message) (deadline : Instant) (first_err : list Z)
  : Async (Message + list Z) :=
  let after err := first_err ++ lit "; after reconnect: " ++ err in
  got ← acquire fuel f deadline;
  match got with
  | inr err => err ← record_failure (first_err ++ lit "; " ++ err); Ret (inr err)
  | inl (generation, fresh) =>
      answer ← send_query fresh msg deadline;
      match answer with
      | Some (inl response) =>
          judged ← judge f response;
          Ret (match judged with inl response => inl response | inr err => inr (after err) end)
      | Some (inr (QueryError err)) => err ← record_failure (after err); Ret (inr err)
      | Some (inr (Fatal err)) =>
          _ ← invalidate generation err;
          err ← record_failure (after err);
          Ret (inr err)
      | None =>
          _ ← invalidate generation (lit "query timed out on this connection");
          err ← record_failure (after (label f ++ lit ": timed out"));
          Ret (inr err)
      end
  end.

Definition send (fuel : nat) (f : NetworkFactory) (msg : Message) (deadline : Instant) : Async (Message + list Z) :=
  _ ← event AddQuery;
  got ← acquire fuel f deadline;
  match got with
  | inr err => err ← record_failure err; Ret (inr err)
  | inl (generation, transport) =>
      answer ← send_query transport msg deadline;
      match answer with
      | Some (inl response) => judge f response
      | Some (inr (QueryError err)) => err ← record_failure err; Ret (inr err)
      | Some (inr (Fatal first_err)) =>
          _ ← invalidate generation first_err;
          send_again fuel f msg deadline first_err
      | None =>
          _ ← invalidate generation (lit "query timed out on this connection");
          err ← record_failure (label f ++ lit ": timed out");
          Ret (inr err)
      end
  end.

(** ** Health *)
Record UpstreamHealth := mkUpstreamHealth {
  h_url : list Z;
  h_state : list Z;
  h_connected : bool;
  h_last_error : option (list Z);
  h_last_success_secs_ago : option Z;
  h_queries : Z;
  h_failures : Z;
  h_reconnects : Z;
  h_consecutive_failures : Z
}.

(** [ReconnectingUpstream::health] at Unix time [now] (an [i64]: the
    subtraction saturates). *)
Definition upstream_health (u : Upstream) (now : Z) : UpstreamHealth :=
  let last := u_last_success_ts u in
  let state := state_name (u_state u) in
  mkUpstreamHealth (label (u_factory u)) state (str_eqb state (lit "connected"))
    (match u_state u with Down _ last_error => Some last_error | _ => None end)
    (if 0 <? last then Some (Z.max (Z.max (- i64_max - 1) (Z.min i64_max (now - last))) 0) else None)
    (u_queries u) (u_failures u) (u_reconnects u) (u_consecutive_failures u).

(** ** The pool *)
Record UpstreamPool := mkPool {
  pl_upstreams : list Upstream;
  pl_timeout : Duration;
  pl_resolved : Z;
  pl_all_failed_total : Z;
  pl_consecutive_all_failed : Z
}.

Record PoolHealth := mkPoolHealth {
  ph_upstreams : list UpstreamHealth;
  ph_resolved : Z;
  ph_all_failed_total : Z;
  ph_consecutive_all_failed : Z
}.
Definition pool_health (p : UpstreamPool) (now : Z) : PoolHealth :=
  mkPoolHealth (map (fun u => upstream_health u now) (pl_upstreams p)) (pl_resolved p) (pl_all_failed_total p)
    (pl_consecutive_all_failed p).

(** ** Resolving

    The message every leg sends; then the results of the legs, taken in the
    order they arrive (each leg sends its own once, and the channel holds
    one per leg). *)
Definition outgoing (query : Message) : Message :=
  let msg := set_meta query (with_rd true) in
  set_edns msg (Some (edns_set_dnssec_ok (default edns_new (edns msg)) true)).

Definition leg_deadline (p : UpstreamPool) (now : Instant) : Instant := now + pl_timeout p.

Definition pool_resolved (p : UpstreamPool) : UpstreamPool :=
  mkPool (pl_upstreams p) (pl_timeout p) (pl_resolved p + 1) (pl_all_failed_total p) 0.
Definition pool_all_failed (p : UpstreamPool) : UpstreamPool :=
  mkPool (pl_upstreams p) (pl_timeout p) (pl_resolved p) (pl_all_failed_total p + 1) (pl_consecutive_all_failed p + 1).

Fixpoint recv_loop (p : UpstreamPool) (original_id : Z) (arrivals : list (Message + list Z)) (errors : list (list Z))
  : (Message + UpstreamError) * UpstreamPool :=
  match arrivals with
  | [] => (inr (AllFailed errors), pool_all_failed p)
  | inl response :: _ => (inl (set_meta response (with_id original_id)), pool_resolved p)
  | inr e :: arrivals => recv_loop p original_id arrivals (errors ++ [e])
  end.

Definition resolve (p : UpstreamPool) (query : Message) (arrivals : list (Message + list Z)) : (Message + UpstreamError) * UpstreamPool :=
  recv_loop p (msg_id (metadata query)) arrivals [].

(** The legs of one resolve: an upstream and the code of its task. *)
Definition legs (fuel : nat) (p : UpstreamPool) (query : Message) (now : Instant) : list (Upstream * Async (Message + list Z)) :=
  map (fun u => (u, send fuel (u_factory u) (outgoing query) (leg_deadline p now))) (pl_upstreams p).

(** ** Start-up

    What the outside does to one round: how late the loop wakes for it, how
    long each factory's build would take and what network it meets ([None]:
    it never ends), and how long after its last attempt the loop reads the
    clock again. *)
Record Round := mkRound {
  rd_late : Duration;
  rd_build : nat -> option (Duration * Net);
  rd_lag : Duration
}.

(** How long an attempt may take in a round that starts at [start]:
    [(Instant::now() + timeout).min(deadline)]; a build that is ready at
    once is taken even past the deadline. *)
Definition round_cut (timeout : Duration) (deadline start : Instant) : Duration :=
  Z.max 0 (Z.min (start + timeout) deadline - start).

(** [timeout_at(round_deadline, factory.build())]: what it yields, and how
    long it takes. *)
Definition attempt (r : Round) (cut : Duration) (i : nat) (f : NetworkFactory) : (Transport + list Z) * Duration :=
  match rd_build r i with
  | Some (took, net) =>
      if took <=? cut then (match build net f with inl t => inl t | inr e => inr (error_text e) end, took)
      else (inr (lit "connection timed out"), cut)
  | None => (inr (lit "connection timed out"), cut)
  end.

(** The factories still down are tried, all at once; the results fill
    [built] and [errors], and the slowest decides how long it takes. *)
Fixpoint run_round (r : Round) (cut : Duration) (i : nat) (fs : list NetworkFactory) (built : list (option Transport)) (errors : list (list Z))
  : list (option Transport) * list (list Z) * Duration :=
  match fs, built, errors with
  | f :: fs, b :: built, e :: errors =>
      let '(bs, es, took) := run_round r cut (S i) fs built errors in
      match b with
      | Some t => (Some t :: bs, e :: es, took)
      | None =>
          let '(result, mine) := attempt r cut i f in
          match result with
          | inl t => (Some t :: bs, e :: es, Z.max mine took)
          | inr err => (None :: bs, (label f ++ lit ": " ++ err) :: es, Z.max mine took)
          end
      end
  | _, _, _ => ([], [], 0)
  end.

Fixpoint live (built : list (option Transport)) : nat :=
  match built with [] => 0 | Some _ :: b => S (live b) | None :: b => live b end.

(** [errors.join("; ")] *)
Fixpoint join_errors (errors : list (list Z)) : list Z :=
  match errors with [] => [] | [e] => e | e :: es => e ++ lit "; " ++ join_errors es end.

Inductive Started := Live (built : list (option Transport)) (errors : list (list Z)) (at_ : Instant) | GaveUp (err : UpstreamError) (at_ : Instant).

(** The loop of [UpstreamPool::new], at its head at [now]: [rounds] yields
    the rounds as time goes on; [None] when the fuel runs out. *)
Fixpoint connect_loop (fuel : nat) (rounds : nat -> Round) (n : nat) (now : Instant) (fs : list NetworkFactory) (timeout budget : Duration)
  (deadline : Instant) (built : list (option Transport)) (errors : list (list Z)) (backoff : Duration) : option Started :=
  match fuel with
  | O => None
  | S fuel =>
      let r := rounds n in
      let start := now + rd_late r in
      let '(built, errors, took) := run_round r (round_cut timeout deadline start) 0 fs built errors in
      let check := start + took + rd_lag r in
      if (0 <? live built)%nat then Some (Live built errors check)
      else if deadline <=? check + backoff
      then Some (GaveUp (Init (lit "no upstream could be connected within " ++ duration_debug budget
                   ++ lit "; giving up (the process will exit and systemd will restart it): " ++ join_errors errors)) check)
      else connect_loop fuel rounds (S n) (check + backoff) fs timeout budget deadline built errors (Z.min (backoff * 2) INIT_RETRY_BACKOFF_MAX)
  end.

(** A factory with its transport becomes an upstream. *)
Fixpoint assemble (fs : list NetworkFactory) (built : list (option Transport)) (errors : list (list Z)) (now : Instant) (timeout : Duration) : list Upstream :=
  match fs, built, errors with
  | f :: fs, b :: built, e :: errors =>
      upstream_new f (match b with Some t => Connected 1 t None | None => Down now e end) timeout
      :: assemble fs built errors now timeout
  | _, _, _ => []
  end.

(** [UpstreamPool::new], started at [now]: what it returns, and when. *)
Definition pool_new (fuel : nat) (rounds : nat -> Round) (cfg : UpstreamConfig) (now : Instant)
  : option ((UpstreamPool + UpstreamError) * Instant) :=
  if bool_decide (urls cfg = []) then Some (inr (Init (lit "no upstream URLs configured")), now)
  else if timeout_ms cfg =? 0 then Some (inr (Init (lit "timeout_ms must be > 0")), now)
  else
    let timeout := from_millis (timeout_ms cfg) in
    match build_rustls_client_config (extra_roots cfg) with
    | inr e => Some (inr e, now)
    | inl tls =>
        match factories cfg tls with
        | inr e => Some (inr e, now)
        | inl fs =>
            let deadline := now + connect_budget cfg in
            match connect_loop fuel rounds 0 now fs timeout (connect_budget cfg) deadline (map (fun _ => None) fs) (map (fun _ => []) fs)
                    INIT_RETRY_BACKOFF_START with
            | None => None
            | Some (GaveUp e at_) => Some (inr e, at_)
            | Some (Live built errors at_) => Some (inl (mkPool (assemble fs built errors at_ timeout) timeout 0 0 0), at_)
            end
        end
    end.
End Upstream.
