(* ===== verification/Config.v ===== *)
(** * Config: the configuration ([crates/core/src/config.rs])

    The typed configuration, the effective list set, and every rule of
    validation. TOML, SHA-256 and PEM files are the class [ConfigOps]; a
    path is its text. *)
From S2P Require Import Prelude Text IpAddr Cache SafeSearch Num Pipeline Result.

Section Types.
Context `{IpNetOps}.

Record SocketAddr := mkSocketAddr { sa_ip : IpAddr; sa_port : Z }.

Record ServerConfig := mkServerConfig { bind_addrs : list SocketAddr; allow : list IpNet }.

Inductive Profile := Minimal | Balanced | Strict.

Record ListSource := mkListSource {
  ls_name : list Z;
  ls_url : option (list Z);
  ls_path : option (list Z)
}.

Record FilteringConfig := mkFilteringConfig {
  profile : option Profile;
  lists : list ListSource;
  list_dir : list Z
}.

Record UpstreamsConfig := mkUpstreamsConfig {
  servers : list (list Z);
  bootstrap : list IpAddr;
  up_timeout_ms : Z
}.

Record DatabaseConfig := mkDatabaseConfig { db_path : list Z }.

Record SafeSearchConfig := mkSafeSearchConfig { ss_on : bool; ss_providers : list (list Z) }.

Record TlsConfig := mkTlsConfig { tls_extra_roots : list (list Z) }.

Record CacheConfig := mkCacheConfig { max_entries : Z; serve_stale_secs : Z }.

Record Config := mkConfig {
  server : ServerConfig;
  filtering : FilteringConfig;
  upstreams : UpstreamsConfig;
  database : DatabaseConfig;
  safe_search : SafeSearchConfig;
  tls : TlsConfig;
  cache : CacheConfig
}.
End Types.

#[export] Instance SocketAddr_eq_dec : EqDecision SocketAddr.
Proof. solve_decision. Defined.
#[export] Instance ListSource_eq_dec : EqDecision ListSource.
Proof. solve_decision. Defined.
#[export] Instance UpstreamsConfig_eq_dec : EqDecision UpstreamsConfig.
Proof. solve_decision. Defined.
#[export] Instance DatabaseConfig_eq_dec : EqDecision DatabaseConfig.
Proof. solve_decision. Defined.
#[export] Instance SafeSearchConfig_eq_dec : EqDecision SafeSearchConfig.
Proof. solve_decision. Defined.
#[export] Instance TlsConfig_eq_dec : EqDecision TlsConfig.
Proof. solve_decision. Defined.
#[export] Instance CacheConfig_eq_dec : EqDecision CacheConfig.
Proof. solve_decision. Defined.

Inductive ConfigError :=
| Read (path source : list Z)
| Parse (path source : list Z)
| Invalid (msg : list Z).

(** [Display] of [ConfigError]. *)
Definition config_error_text (e : ConfigError) : list Z :=
  match e with
  | Read path source => lit "cannot read " ++ path ++ lit ": " ++ source
  | Parse path source => lit "cannot parse " ++ path ++ lit ": " ++ source
  | Invalid msg => lit "invalid config: " ++ msg
  end.

(** The [toml], [serde], [sha2] and [rustls] crates. *)
Class ConfigOps `{IpNetOps} := {
  toml_from_str : list Z -> Config + list Z;
  toml_to_string : Config -> option (list Z);
  sha256 : list Z -> list Z;
  Cert : Type;
  (* the certificates of a PEM file *)
  pem_file : list Z -> list Cert + list Z
}.

(** [Path::is_absolute] (Unix). *)
Definition is_absolute (path : list Z) : bool := starts_with [c_slash] path.

(** ** Sections *)
Definition default_max_entries : Z := 16384.
Definition default_serve_stale_secs : Z := DEFAULT_SERVE_STALE_SECS.
Definition cache_default : CacheConfig := mkCacheConfig default_max_entries default_serve_stale_secs.
Definition cache_is_default (c : CacheConfig) : bool := bool_decide (c = cache_default).

Definition cache_validate (c : CacheConfig) : unit + ConfigError :=
  let? _ := ensure (negb (max_entries c =? 0)) (Invalid (lit "cache.max_entries must be at least 1")) in
  ensure (negb (MAX_SERVE_STALE_SECS <? serve_stale_secs c))
    (Invalid (lit "cache.serve_stale_secs: " ++ to_string (serve_stale_secs c) ++ lit " exceeds the RFC 8767 bound of "
              ++ to_string MAX_SERVE_STALE_SECS ++ lit " (3 days)")).

Definition tls_is_default (t : TlsConfig) : bool := bool_decide (tls_extra_roots t = []).

(** [find(|p| !p.is_absolute())] *)
Definition tls_validate (t : TlsConfig) : unit + ConfigError :=
  match List.find (fun p => negb (is_absolute p)) (tls_extra_roots t) with
  | Some path => inr (Invalid (lit "tls.extra_roots: " ++ path ++ lit " must be absolute"))
  | None => inl tt
  end.

Definition is_default_safe_search (s : SafeSearchConfig) : bool := negb (ss_on s) && bool_decide (ss_providers s = []).

(** [Display] of the safe-search [ConfigError]. *)
Definition provider_error (e : SafeSearchError) : list Z :=
  match e with
  | UnknownProvider p =>
      lit "unknown safe-search provider " ++ [34] ++ p ++ [34] ++ lit "; supported: google, youtube, bing, duckduckgo"
  end.

(** ** Profiles *)
Definition hagezi_light : ListSource :=
  mkListSource (lit "hagezi-light") (Some (lit "https://raw.githubusercontent.com/hagezi/dns-blocklists/main/adblock/light.txt")) None.
Definition hagezi_pro : ListSource :=
  mkListSource (lit "hagezi-pro") (Some (lit "https://raw.githubusercontent.com/hagezi/dns-blocklists/main/adblock/pro.txt")) None.
Definition hagezi_tif : ListSource :=
  mkListSource (lit "hagezi-tif") (Some (lit "https://raw.githubusercontent.com/hagezi/dns-blocklists/main/adblock/tif.txt")) None.

Definition profile_lists (p : Profile) : list ListSource :=
  match p with
  | Minimal => [hagezi_light]
  | Balanced => [hagezi_pro]
  | Strict => [hagezi_pro; hagezi_tif]
  end.

(** [result[pos] = extra] at the first entry of that name, else [push]. *)
Fixpoint override (result : list ListSource) (extra : ListSource) : list ListSource :=
  match result with
  | [] => [extra]
  | l :: rest => if str_eqb (ls_name l) (ls_name extra) then extra :: rest else l :: override rest extra
  end.

(** ** Hex *)
Definition hex_digit (d : Z) : Z := if d <? 10 then 48 + d else 87 + d.
Definition hex_encode (bytes : list Z) : list Z := concat (map (fun b => [hex_digit (b / 16); hex_digit (b mod 16)]) bytes).

Section Config.
Context `{ConfigOps}.

Definition effective_lists (c : Config) : list ListSource :=
  fold_left override (lists (filtering c)) (match profile (filtering c) with Some p => profile_lists p | None => [] end).

(** The upstream schemes. *)
Definition server_scheme_ok (s : list Z) : bool := starts_with (lit "https://") s || starts_with (lit "quic://") s.

(** The loop over [filtering.lists] with its set of seen names. *)
Fixpoint validate_names (seen : list (list Z)) (ls : list ListSource) : unit + ConfigError :=
  match ls with
  | [] => inl tt
  | l :: rest =>
      if bool_decide (ls_name l = []) then inr (Invalid (lit "filtering.lists: a list has an empty name"))
      else if bool_decide (ls_name l ∈ seen)
      then inr (Invalid (lit "filtering.lists: duplicate list name '" ++ ls_name l ++ lit "'"))
      else validate_names (ls_name l :: seen) rest
  end.

(** The body of the loop over the effective lists. *)
Definition validate_source (l : ListSource) : unit + ConfigError :=
  let? _ := ensure (negb (bool_decide (ls_url l = None) && bool_decide (ls_path l = None)))
        (Invalid (lit "filtering.lists: '" ++ ls_name l ++ lit "' has neither url nor path")) in
  let? _ := match ls_url l with
      | Some url => ensure (starts_with (lit "https://") url)
          (Invalid (lit "filtering.lists: '" ++ ls_name l ++ lit "' url '" ++ url ++ lit "' must use https://"))
      | None => inl tt
      end in
  match ls_path l with
  | Some path => ensure (is_absolute path)
      (Invalid (lit "filtering.lists: '" ++ ls_name l ++ lit "' path " ++ path ++ lit " must be absolute"))
  | None => inl tt
  end.

Definition validate (c : Config) : unit + ConfigError :=
  let? _ := ensure (negb (bool_decide (bind_addrs (server c) = []))) (Invalid (lit "server.bind: must not be empty")) in
  let? _ := ensure (negb (len (allow (server c)) =? 0)) (Invalid (lit "server.allow: must not be empty")) in
  let? _ := ensure (negb (bool_decide (servers (upstreams c) = []))) (Invalid (lit "upstreams.servers: must not be empty")) in
  let? _ := for_each (fun s => ensure (server_scheme_ok s)
        (Invalid (lit "upstreams.servers: " ++ s ++ lit ": must use https:// or quic:// scheme"))) (servers (upstreams c)) in
  let? _ := ensure (negb (bool_decide (bootstrap (upstreams c) = []))) (Invalid (lit "upstreams.bootstrap: must not be empty")) in
  let? _ := ensure ((100 <=? up_timeout_ms (upstreams c)) && (up_timeout_ms (upstreams c) <=? 30000))
        (Invalid (lit "upstreams.timeout_ms: " ++ to_string (up_timeout_ms (upstreams c)) ++ lit " is not in 100..=30000")) in
  let? _ := ensure (is_absolute (db_path (database c))) (Invalid (lit "database.path: " ++ db_path (database c) ++ lit " must be absolute")) in
  let? _ := ensure (is_absolute (list_dir (filtering c)))
        (Invalid (lit "filtering.list_dir: " ++ list_dir (filtering c) ++ lit " must be absolute")) in
  let? _ := tls_validate (tls c) in
  let? _ := cache_validate (cache c) in
  let? _ := match validate_providers (ss_providers (safe_search c)) with
      | Some e => inr (Invalid (lit "safe_search.providers: " ++ provider_error e))
      | None => inl tt
      end in
  let effective := effective_lists c in
  let? _ := ensure (negb (bool_decide (effective = [])))
        (Invalid (lit "filtering: must have at least one list (set profile or lists)")) in
  let? _ := validate_names [] (lists (filtering c)) in
  for_each validate_source effective.

(** ** Loading *)
Definition from_toml (text origin : list Z) : Config + ConfigError :=
  match toml_from_str text with
  | inr e => inr (Parse origin e)
  | inl config => let? _ := validate config in inl config
  end.

(** [file] is what reading the path gives. *)
Definition config_load (file : list Z + list Z) (path : list Z) : Config + ConfigError :=
  match file with
  | inr e => inr (Read path e)
  | inl text => from_toml text path
  end.

(** [Config::hash]: panics when the config does not serialize. *)
Definition config_hash (c : Config) : option (list Z) :=
  canonical ← toml_to_string c; Some (hex_encode (sha256 canonical)).

Fixpoint read_roots (paths : list (list Z)) (out : list Cert) : list Cert + ConfigError :=
  match paths with
  | [] => inl out
  | path :: paths =>
      match pem_file path with
      | inr e => inr (Invalid (lit "tls.extra_roots: " ++ path ++ lit ": " ++ e))
      | inl certs =>
          if len certs =? 0 then inr (Invalid (lit "tls.extra_roots: " ++ path ++ lit ": no certificate found"))
          else read_roots paths (out ++ certs)
      end
  end.
Definition read_extra_roots (t : TlsConfig) : list Cert + ConfigError := read_roots (tls_extra_roots t) [].
Definition extra_roots (c : Config) : list Cert + ConfigError := read_extra_roots (tls c).
End Config.
