(* ===== verification/UpstreamSpec.v ===== *)
(** * UpstreamSpec: what the upstream pool promises

    The trace of one send (which connections it used, which it condemned,
    what it counted), the race of a resolve and the alert counters, the
    reconnect schedule, and start-up. *)
From S2P Require Import Prelude Text Time Num IpAddr Dns Shadow Proc Upstream.

Section Send.
Context `{HickoryOps} `{UpstreamOps} `{RcodeDisplay}.

(** What a trace of one upstream shows. *)
Inductive Note :=
| NUse (generation : Z) (t : Transport)
| NSend (t : Transport) (msg : Message) (deadline : Instant) (answer : SendAnswer)
| NDrop (generation : Z)
| NQuery | NFailure | NConsecutive | NReset | NSuccess | NBackoff (ms : Z) | NProve.

Definition note (o : Obs UEv) : option Note :=
  match o_event o in UEv B return B -> option Note with
  | ReadState => fun b => match b with Usable g t => Some (NUse g t) | _ => None end
  | SendQuery t msg deadline => fun b => Some (NSend t msg deadline b)
  | DropConnection g _ => fun _ => Some (NDrop g)
  | AddQuery => fun _ => Some NQuery
  | AddFailure => fun _ => Some NFailure
  | AddConsecutive => fun _ => Some NConsecutive
  | ResetConsecutive => fun _ => Some NReset
  | StoreLastSuccess _ => fun _ => Some NSuccess
  | StoreBackoff ms => fun _ => Some (NBackoff ms)
  | Prove => fun _ => Some NProve
  | _ => fun _ => None
  end (o_answer o).

(** The notes of a piece of code: every run shows notes and a result in [P]. *)
Definition shows {A} (P : list Note -> A -> Prop) (p : Proc UEv A) : Prop :=
  forall tr a, runs p tr a -> P (project note tr) a.

Lemma shows_ret {A} (P : list Note -> A -> Prop) a : P [] a -> shows P (Ret a).
Proof. intros HP tr a' (-> & <-). done. Qed.

Lemma shows_panic {A} (P : list Note -> A -> Prop) : shows P Panic.
Proof. by intros tr a Hr. Qed.

Lemma shows_event {B C} (P : list Note -> C -> Prop) (e : UEv B) (f : B -> Proc UEv C) :
  (forall b, shows (fun ns c => P (match note (mkObs _ e b) with Some n => n :: ns | None => ns end) c) (f b)) ->
  shows P (event e ≫= f).
Proof.
  intros Hf tr a (b & tr' & -> & Hr). specialize (Hf b tr' a Hr). cbn [project] in *. by destruct (note _).
Qed.

Lemma shows_last {B} (P : list Note -> B -> Prop) (e : UEv B) :
  (forall b, P (match note (mkObs _ e b) with Some n => [n] | None => [] end) b) -> shows P (event e).
Proof. intros Hf tr a (b & tr' & -> & (-> & <-)). specialize (Hf b). cbn [project]. by destruct (note _). Qed.

Lemma shows_bind {A C} (P : list Note -> C -> Prop) (Q : list Note -> A -> Prop) p (f : A -> Proc UEv C) :
  shows Q p -> (forall ns a, Q ns a -> shows (fun ns' c => P (ns ++ ns') c) (f a)) -> shows P (p ≫= f).
Proof.
  intros Hp Hf tr c Hr. apply runs_bind_inv in Hr as (tr1 & tr2 & a & -> & H1' & H2').
  rewrite project_app. by apply (Hf _ a (Hp _ _ H1')).
Qed.

Lemma shows_weaken {A} (P Q : list Note -> A -> Prop) p : (forall ns a, Q ns a -> P ns a) -> shows Q p -> shows P p.
Proof. intros HQ Hp tr a Hr. by apply HQ, Hp. Qed.

Lemma trigger_repair_shows : shows (fun ns _ => ns = []) trigger_repair.
Proof. apply shows_event. intros []; [by apply shows_last|by apply shows_ret]. Qed.

Lemma acquire_shows fuel f deadline :
  shows (fun ns r => match r with inl (g, t) => ns = [NUse g t] | inr _ => ns = [] end) (acquire fuel f deadline).
Proof.
  induction fuel as [|fuel IH]; [apply shows_panic|]. apply shows_event. intros seen. apply shows_event.
  intros [g t|retry_at err|]; cbn [note o_event o_answer].
  - by apply shows_ret.
  - apply shows_event. intros now. by apply shows_ret.
  - eapply shows_bind; [apply trigger_repair_shows|]. cbn beta. intros ns [] ->. apply shows_event.
    intros []; [exact IH|by apply shows_ret].
Qed.

Lemma invalidate_shows g why : shows (fun ns _ => ns = [NDrop g]) (invalidate g why).
Proof.
  apply shows_event. intros []; [|by apply shows_ret].
  eapply shows_weaken; [|apply trigger_repair_shows]. by intros ns [] ->.
Qed.

(** ** One send *)

(** The answers that condemn a connection. *)
Definition fatal (e : NetError) : bool := match classify_net_error e with Fatal _ => true | QueryError _ => false end.
Definition breaks (a : SendAnswer) : bool :=
  match a with Replied (inl _) => false | Replied (inr e) => fatal e | SendTimedOut => true end.

(** One use of a connection: its answer, and its condemnation if it broke. *)
Definition one_use (msg : Message) (deadline : Instant) (u : Z * Transport * SendAnswer) : list Note :=
  let '(g, t, a) := u in [NUse g t; NSend t msg deadline a] ++ (if breaks a then [NDrop g] else []).

(** What is counted at the end. *)
Definition counted (r : Message + list Z) : list Note :=
  match r with
  | inl _ => [NReset; NSuccess; NBackoff 500; NProve]
  | inr _ => [NFailure; NConsecutive]
  end.

Definition usable_answer (a : SendAnswer) : option Message :=
  match a with Replied (inl m) => if unusable (rcode m) then None else Some m | _ => None end.

(** The result of the last use decides. *)
Definition decided_by (uses : list (Z * Transport * SendAnswer)) (r : Message + list Z) : Prop :=
  match r with
  | inl m => exists u, last uses = Some u /\ usable_answer (snd u) = Some m
  | inr _ => forall u, last uses = Some u -> usable_answer (snd u) = None
  end.

Definition sent_as (msg : Message) (deadline : Instant) (ns : list Note) (r : Message + list Z) : Prop :=
  exists uses, ns = NQuery :: concat (map (one_use msg deadline) uses) ++ counted r
    /\ decided_by uses r
    /\ (length uses <= 2)%nat
    /\ (forall u v, uses = [u; v] -> exists e, snd u = Replied (inr e) /\ fatal e = true).

Lemma record_failure_shows err : shows (fun ns r => ns = counted (inr err) /\ r = err) (record_failure err).
Proof. apply shows_event. intros []. apply shows_event. intros []. by apply shows_ret. Qed.

Lemma judge_shows f m :
  shows (fun ns r => ns = counted r /\ match r with inl m' => m' = m /\ unusable (rcode m) = false | inr _ => unusable (rcode m) = true end)
    (judge f m).
Proof.
  unfold judge. destruct (unusable (rcode m)) eqn:E.
  - eapply shows_bind; [apply record_failure_shows|]. cbn beta. intros ns e (-> & ->). by apply shows_ret.
  - eapply (shows_bind _ (fun ns _ => ns = counted (inl m))).
    + do 4 (apply shows_event; intros ?). by apply shows_last.
    + cbn beta. intros ns _ ->. by apply shows_ret.
Qed.

(** A failure, after the uses so far. *)
Lemma fail_shows {P : list Note -> Message + list Z -> Prop} err :
  P (counted (inr err)) (inr err) -> shows P (err ← record_failure err; Ret (inr err)).
Proof.
  intros HP. eapply shows_bind; [apply record_failure_shows|]. cbn beta. intros ns e (-> & ->). by apply shows_ret.
Qed.

Lemma invalidate_fail_shows {P : list Note -> Message + list Z -> Prop} g why err :
  P (NDrop g :: counted (inr err)) (inr err) ->
  shows P (_ ← invalidate g why; err ← record_failure err; Ret (inr err)).
Proof. intros HP. eapply shows_bind; [apply invalidate_shows|]. cbn beta. intros ns [] ->. by apply fail_shows. Qed.

(** What the code makes of an answer. *)
Definition answered (a : SendAnswer) : option (Message + SendError) :=
  match a with
  | Replied (inl m) => Some (inl m)
  | Replied (inr e) => Some (inr (classify_net_error e))
  | SendTimedOut => None
  end.

Lemma send_query_shows t msg deadline :
  shows (fun ns r => exists a, ns = [NSend t msg deadline a] /\ r = answered a) (send_query t msg deadline).
Proof. apply shows_event. intros a. apply shows_ret. by exists a. Qed.

Lemma send_again_shows fuel f msg deadline first_err :
  shows (fun ns r => exists uses, ns = concat (map (one_use msg deadline) uses) ++ counted r
           /\ decided_by uses r /\ (length uses <= 1)%nat) (send_again fuel f msg deadline first_err).
Proof.
  unfold send_again. eapply shows_bind; [apply acquire_shows|]. intros ns [[g t]|err] ->.
  2:{ apply fail_shows. exists []. split; [done|]. split; [by intros u|cbn; lia]. }
  eapply shows_bind; [apply send_query_shows|].
  intros ns r (a & -> & ->). destruct a as [[m|e]|]; cbn [answered].
  - eapply shows_bind; [apply judge_shows|]. intros ns r (-> & Hr). apply shows_ret. exists [(g, t, Replied (inl m))].
    destruct r as [m'|err].
    + destruct Hr as (-> & Hu). split; [done|]. split; [|cbn; lia]. exists (g, t, Replied (inl m)). cbn. by rewrite Hu.
    + split; [done|]. split; [|cbn; lia]. intros u [= <-]. cbn. by rewrite Hr.
  - destruct (classify_net_error e) eqn:E.
    + apply invalidate_fail_shows. exists [(g, t, Replied (inr e))]. unfold one_use, breaks, fatal. cbn. rewrite E.
      split; [done|]. split; [|lia]. by intros u [= <-].
    + apply fail_shows. exists [(g, t, Replied (inr e))]. unfold one_use, breaks, fatal. cbn. rewrite E.
      split; [done|]. split; [|lia]. by intros u [= <-].
  - apply invalidate_fail_shows. exists [(g, t, SendTimedOut)]. cbn. split; [done|]. split; [|lia]. by intros u [= <-].
Qed.

Lemma send_shows fuel f msg deadline : shows (sent_as msg deadline) (send fuel f msg deadline).
Proof.
  apply shows_event. intros []. eapply shows_bind; [apply acquire_shows|]. intros ns [[g t]|err] ->.
  2:{ apply fail_shows. exists []. split; [done|]. split; [by intros u|]. split; [cbn; lia|done]. }
  eapply shows_bind; [apply send_query_shows|]. intros ns r (a & -> & ->). destruct a as [[m|e]|]; cbn [answered].
  - eapply shows_weaken; [|apply judge_shows]. intros ns r (-> & Hr). exists [(g, t, Replied (inl m))].
    split; [done|]. split; [|split; [cbn; lia|done]]. destruct r as [m'|err].
    + destruct Hr as (-> & Hu). exists (g, t, Replied (inl m)). cbn. by rewrite Hu.
    + intros u [= <-]. cbn. by rewrite Hr.
  - destruct (classify_net_error e) as [first_err|err] eqn:E.
    + eapply shows_bind; [apply invalidate_shows|]. intros ns [] ->.
      eapply shows_weaken; [|apply send_again_shows]. intros ns r (uses & -> & Hd & Hl).
      assert (Hf : fatal e = true) by (unfold fatal; by rewrite E).
      exists ((g, t, Replied (inr e)) :: uses). cbn [map concat one_use breaks]. rewrite Hf.
      split; [done|]. split; [|split; [cbn; lia|]].
      * destruct uses as [|u [|? ?]]; cbn in Hl; [|exact Hd|lia]. destruct r as [m|err].
        -- by destruct Hd as (? & ? & ?).
        -- by intros u [= <-].
      * intros u v [= <- _]. by exists e.
    + apply fail_shows. exists [(g, t, Replied (inr e))]. unfold one_use, breaks, fatal. cbn. rewrite E.
      split; [done|]. split; [|split; [cbn; lia|done]]. by intros u [= <-].
  - apply invalidate_fail_shows. exists [(g, t, SendTimedOut)]. split; [done|]. split; [|split; [cbn; lia|done]].
    by intros u [= <-].
Qed.
End Send.

(** ** Reconnecting *)
Section Reconnect.
Context `{HickoryOps} `{UpstreamOps} `{RcodeDisplay}.

(** A task run alone, the outside answering [o] at every event. *)
Fixpoint ualone (o : UOracle) {A} (p : Proc UEv A) (u : Upstream) : option (A * Upstream) :=
  match p with
  | Ret a => Some (a, u)
  | Panic => None
  | Vis e k => match uexec o e u with Some (b, u') => ualone o (k b) u' | None => None end
  end.

(** One attempt to reconnect at [o]: [trigger_repair], and the repair it
    spawned. *)
Definition reconnect (o : UOracle) (u : Upstream) : Upstream :=
  match ualone o trigger_repair u with
  | Some (_, u') =>
      if is_connecting (u_state u') then match ualone o repair u' with Some (_, u'') => u'' | None => u' end else u'
  | None => u
  end.

(** The waits of a failing upstream: 0.5 s, doubled, at most 30 s. *)
Definition ladder (k : nat) : Z := Z.min (500 * 2 ^ Z.of_nat k) 30000.

(** What a build comes to. *)
Definition built_by (o : UOracle) (f : NetworkFactory) : option (Transport + UpstreamError) :=
  match uo_build o with Ends net => Some (build net f) | TimesOut => Some (inr (Init [])) | Dropped => None end.
Definition build_fails (o : UOracle) (f : NetworkFactory) : Prop := exists e, built_by o f = Some (inr e).

Definition down_since (u : Upstream) (o : UOracle) : Prop := exists r e, u_state u = Down r e /\ r <= uo_now o.

(** Attempts that are due and fail, one after the other. *)
Fixpoint outage (u : Upstream) (os : list UOracle) : Prop :=
  match os with
  | [] => True
  | o :: os => down_since u o /\ build_fails o (u_factory u) /\ outage (reconnect o u) os
  end.

Lemma millis_back d : 0 <= d <= u64_max -> duration_to_millis (from_millis d) = d.
Proof.
  intros Hd. unfold duration_to_millis, as_millis, from_millis, ns_per_ms. rewrite Z.div_mul by done.
  by rewrite try_from_Some.
Qed.

Lemma millis_next b top : 0 <= b <= u64_max -> 0 <= top <= u64_max ->
  duration_to_millis (Z.min (from_millis b * 2) (from_millis top)) = Z.min (b * 2) top.
Proof.
  intros Hb Ht. replace (Z.min (from_millis b * 2) (from_millis top)) with (from_millis (Z.min (b * 2) top)).
  - apply millis_back. lia.
  - unfold from_millis, ns_per_ms. lia.
Qed.

Lemma consts_millis : MAX_RECONNECT_BACKOFF = from_millis 30000 /\ MAX_PROBATION = from_millis 5000
  /\ duration_to_millis MIN_RECONNECT_BACKOFF = 500.
Proof. zcompute. Qed.

Lemma reconnect_fails o u :
  down_since u o -> build_fails o (u_factory u) -> 0 <= u_backoff_ms u <= u64_max ->
  (exists e, u_state (reconnect o u) = Down (uo_now o + from_millis (u_backoff_ms u)) e)
  /\ u_backoff_ms (reconnect o u) = Z.min (u_backoff_ms u * 2) 30000
  /\ u_repair_done (reconnect o u) = u_repair_done u + 1
  /\ u_builds (reconnect o u) = u_builds u /\ u_factory (reconnect o u) = u_factory u.
Proof.
  intros (r & e & Hs & Hr) (err & Hb) Hback. destruct consts_millis as (C1 & C2 & C3).
  assert (Hms : duration_to_millis (Z.min (from_millis (u_backoff_ms u) * 2) MAX_RECONNECT_BACKOFF) = Z.min (u_backoff_ms u * 2) 30000)
    by (rewrite C1; apply millis_next; [done|zcompute]).
  unfold reconnect, built_by in *. cbn. unfold start_connecting. rewrite Hs. zguard. cbn. destruct (uo_build o); cbn; [|..]; try done;
    [injection Hb as ->|]; cbn; rewrite Hms; (split; [by eexists|done]).
Qed.

Lemma reconnect_succeeds o u t :
  down_since u o -> built_by o (u_factory u) = Some (inl t) -> 0 <= u_backoff_ms u <= u64_max ->
  u_state (reconnect o u)
    = Connected (u_builds u + 1) t (Some (uo_now o + from_millis (Z.min (u_backoff_ms u) 5000)))
  /\ u_backoff_ms (reconnect o u) = Z.min (u_backoff_ms u * 2) 5000
  /\ u_repair_done (reconnect o u) = u_repair_done u + 1
  /\ u_builds (reconnect o u) = u_builds u + 1.
Proof.
  intros (r & e & Hs & Hr) Hb Hback. destruct consts_millis as (C1 & C2 & C3).
  assert (Hms : duration_to_millis (Z.min (from_millis (u_backoff_ms u) * 2) MAX_PROBATION) = Z.min (u_backoff_ms u * 2) 5000)
    by (rewrite C2; apply millis_next; [done|zcompute]).
  assert (Hp : Z.min (from_millis (u_backoff_ms u)) MAX_PROBATION = from_millis (Z.min (u_backoff_ms u) 5000))
    by (rewrite C2; unfold from_millis, ns_per_ms; lia).
  unfold reconnect, built_by in *. cbn. unfold start_connecting. rewrite Hs. zguard. cbn.
  destruct (uo_build o); cbn; try done. injection Hb as ->. cbn. by rewrite Hms, Hp.
Qed.

Lemma ladder_next k : Z.min (ladder k * 2) 30000 = ladder (S k).
Proof. unfold ladder. rewrite Nat2Z.inj_succ, Z.pow_succ_r by lia. lia. Qed.

Lemma ladder_range k : 500 <= ladder k <= 30000.
Proof. unfold ladder. pose proof (Z.pow_pos_nonneg 2 (Z.of_nat k) ltac:(lia) ltac:(lia)). lia. Qed.

Lemma ladder_u64 k : 0 <= ladder k <= u64_max.
Proof. pose proof (ladder_range k). unfold u64_max. lia. Qed.

Lemma outage_ladder os u k :
  outage u os -> u_backoff_ms u = ladder k ->
  let u' := fold_left (fun u o => reconnect o u) os u in
  u_backoff_ms u' = ladder (k + length os) /\ u_builds u' = u_builds u /\ u_factory u' = u_factory u
  /\ u_repair_done u' = u_repair_done u + len os
  /\ forall o, last os = Some o -> exists e, u_state u' = Down (uo_now o + from_millis (ladder (k + pred (length os)))) e.
Proof.
  revert u k. induction os as [|o os IH]; intros u k; cbn [outage fold_left length].
  { intros _ Hk. rewrite Nat.add_0_r. autorewrite with len. split; [done|]. split; [done|]. split; [done|]. split; [lia|done]. }
  intros (Hd & Hf & Ho) Hk. destruct (reconnect_fails o u Hd Hf) as ((e & Hs) & Hb & Hr & Hn & Hfac).
  { rewrite Hk. apply ladder_u64. }
  rewrite Hk, ladder_next in Hb. destruct (IH _ _ Ho Hb) as (I1 & I2 & I3 & I4 & I5). cbn zeta. rewrite I1, I2, I3, I4, Hr, Hn, Hfac.
  autorewrite with len. rewrite Nat.add_succ_r. split; [done|]. split; [done|]. split; [done|]. split; [lia|].
  intros o' Hlast. destruct os as [|o2 os].
  - injection Hlast as <-. exists e. cbn. by rewrite Nat.add_0_r, Hs, Hk.
  - destruct (I5 o' Hlast) as (e' & He'). exists e'. rewrite He'. cbn [length pred]. by rewrite Nat.add_succ_r.
Qed.
End Reconnect.

(** ** The pool *)
Section Pool.
Context `{HickoryOps} `{UpstreamOps} `{RcodeDisplay}.

Definition answered_one (arrivals : list (Message + list Z)) : bool :=
  existsb (fun r => match r with inl _ => true | inr _ => false end) arrivals.

Lemma recv_loop_spec p i arrivals errs :
  (exists failed m later, arrivals = map inr failed ++ inl m :: later /\ answered_one arrivals = true
     /\ recv_loop p i arrivals errs = (inl (set_meta m (with_id i)), pool_resolved p))
  \/ (exists failed, arrivals = map inr failed /\ answered_one arrivals = false
        /\ recv_loop p i arrivals errs = (inr (AllFailed (errs ++ failed)), pool_all_failed p)).
Proof.
  revert errs. induction arrivals as [|[m|e] arrivals IH]; intros errs; cbn [recv_loop].
  - right. exists []. by rewrite app_nil_r.
  - left. by exists [], m, arrivals.
  - destruct (IH (errs ++ [e])) as [(failed & m & later & -> & Ha & ->)|(failed & -> & Ha & ->)].
    + left. by exists (e :: failed), m, later.
    + right. exists (e :: failed). by rewrite <- app_assoc.
Qed.

(** A history of resolves: the query and the arrivals of each. *)
Definition resolve_all (p : UpstreamPool) (hist : list (Message * list (Message + list Z))) : UpstreamPool :=
  fold_left (fun p h => snd (resolve p (fst h) (snd h))) hist p.

(** The queries since the last one answered. *)
Fixpoint unanswered (hist : list (Message * list (Message + list Z))) (n : Z) : Z :=
  match hist with
  | [] => n
  | (_, arrivals) :: hist => unanswered hist (if answered_one arrivals then 0 else n + 1)
  end.
Definition count_answered (b : bool) (hist : list (Message * list (Message + list Z))) : Z :=
  len (List.filter (fun h => Bool.eqb (answered_one (snd h)) b) hist).

Lemma resolve_all_spec hist p :
  pl_upstreams (resolve_all p hist) = pl_upstreams p
  /\ pl_resolved (resolve_all p hist) = pl_resolved p + count_answered true hist
  /\ pl_all_failed_total (resolve_all p hist) = pl_all_failed_total p + count_answered false hist
  /\ pl_consecutive_all_failed (resolve_all p hist) = unanswered hist (pl_consecutive_all_failed p).
Proof.
  unfold count_answered. revert p. induction hist as [|[q a] hist IH]; intros p; [cbn; unfold len; cbn; repeat split; lia|].
  unfold resolve_all in *. cbn [fold_left fst snd unanswered]. destruct (IH (snd (resolve p q a))) as (-> & -> & -> & ->).
  unfold resolve. cbn [List.filter snd].
  destruct (recv_loop_spec p (msg_id (metadata q)) a []) as [(f & m & l & _ & -> & ->)|(f & _ & -> & ->)];
    cbn [snd Bool.eqb]; rewrite len_cons; cbn; repeat split; lia.
Qed.

Lemma unanswered_split hist n :
  exists before since, hist = before ++ since /\ Forall (fun h => answered_one (snd h) = false) since
    /\ unanswered hist n = (if bool_decide (before = []) then n else 0) + len since
    /\ (forall h, last before = Some h -> answered_one (snd h) = true).
Proof.
  revert n. induction hist as [|[q a] hist IH]; intros n; cbn [unanswered].
  { exists [], []. split; [done|]. split; [constructor|]. split; [unfold len; cbn; lia|done]. }
  destruct (answered_one a) eqn:Ea; destruct (IH (if answered_one a then 0 else n + 1)) as (b & s & -> & Hs & Hn & Hl);
    rewrite Ea in Hn; rewrite Hn.
  - exists ((q, a) :: b), s. split; [done|]. split; [done|]. split; [by destruct b|].
    intros h Hh. destruct b; [by injection Hh as <-|by apply Hl].
  - destruct b as [|x b].
    + exists [], ((q, a) :: s). split; [done|]. split; [by constructor|]. split; [|done].
      cbn. autorewrite with len. lia.
    + exists ((q, a) :: x :: b), s. split; [done|]. split; [done|]. split; [done|]. exact Hl.
Qed.

(** ** Start-up *)

Definition backoff_at (n : nat) : Duration := Nat.iter n (fun b => Z.min (b * 2) INIT_RETRY_BACKOFF_MAX) INIT_RETRY_BACKOFF_START.

(** The loop wakes for a round, and reads the clock after it, at most
    [slack] late. *)
Definition timely (slack : Duration) (rounds : nat -> Round) : Prop :=
  forall n, 0 <= rd_late (rounds n) <= slack /\ 0 <= rd_lag (rounds n) <= slack.

(** How long a round takes from nothing connected. *)
Fixpoint round_took (r : Round) (cut : Duration) (i : nat) (fs : list NetworkFactory) : Duration :=
  match fs with [] => 0 | f :: fs => Z.max (snd (attempt r cut i f)) (round_took r cut (S i) fs) end.

Definition all_fail (r : Round) (cut : Duration) (fs : list NetworkFactory) : Prop :=
  forall i f, fs !! i = Some f -> exists e, fst (attempt r cut i f) = inr e.

Lemma round_took_range r cut i fs : 0 <= cut -> 0 <= round_took r cut i fs <= cut.
Proof.
  intros Hc. revert i. induction fs as [|f fs IH]; intros i; cbn [round_took]; [lia|]. specialize (IH (S i)).
  assert (snd (attempt r cut i f) <= cut); [|lia].
  unfold attempt. destruct (rd_build r i) as [[took net]|]; [|cbn; lia]. destruct (Z.leb_spec took cut); cbn; lia.
Qed.

Lemma backoff_at_range n : INIT_RETRY_BACKOFF_START <= backoff_at n <= INIT_RETRY_BACKOFF_MAX.
Proof.
  unfold backoff_at. change INIT_RETRY_BACKOFF_START with 500000000. change INIT_RETRY_BACKOFF_MAX with 5000000000.
  induction n as [|n IH]; [cbn [Nat.iter nat_rect]; lia|]. rewrite Nat.iter_succ. lia.
Qed.

(** A round from nothing connected. *)
Lemma run_round_spec r cut fs i built errors :
  built = map (fun _ => None) fs -> length errors = length fs ->
  let '(bs, es, took) := run_round r cut i fs built errors in
  length bs = length fs /\ length es = length fs /\ took = round_took r cut i fs
  /\ (forall j f, fs !! j = Some f ->
        bs !! j = Some (match fst (attempt r cut (i + j) f) with inl t => Some t | inr _ => None end)
        /\ forall e, fst (attempt r cut (i + j) f) = inr e -> es !! j = Some (label f ++ lit ": " ++ e)).
Proof.
  revert i built errors. induction fs as [|f fs IH]; intros i built errors ->; intros Hl; cbn [run_round map]; [by destruct errors|].
  destruct errors as [|e errors]; [done|]. injection Hl as Hl. specialize (IH (S i) _ errors eq_refl Hl).
  destruct (run_round r cut (S i) fs _ errors) as [[bs es] took]. destruct IH as (I1 & I2 & -> & I3). cbn [round_took].
  destruct (attempt r cut i f) as [[t|err] mine] eqn:Ea; cbn [fst snd length]; (split; [by rewrite I1|]; split; [by rewrite I2|]; split; [done|]);
    intros [|j] f' Hj; cbn in Hj |- *; rewrite ?Nat.add_0_r, ?Nat.add_succ_r.
  all: try (injection Hj as <-; rewrite Ea; split; [done|]; intros ? [= <-]; done).
  all: by apply (I3 j f').
Qed.

Lemma live_none built : live built = 0%nat <-> forall j b, built !! j = Some b -> b = None.
Proof.
  induction built as [|b built IH]; cbn; [by split|]. destruct b as [t|].
  - split; [done|]. intros Hall. by specialize (Hall 0%nat _ eq_refl).
  - rewrite IH. split.
    + intros Hall [|j] b Hj; [by injection Hj as <-|by apply (Hall j)].
    + intros Hall j b Hj. by apply (Hall (S j)).
Qed.

Lemma live_round_none r cut fs errors :
  length errors = length fs ->
  live (fst (fst (run_round r cut 0 fs (map (fun _ => None) fs) errors))) = 0%nat <-> all_fail r cut fs.
Proof.
  intros Hl. pose proof (run_round_spec r cut fs 0 _ errors eq_refl Hl) as Hr.
  destruct (run_round r cut 0 fs _ errors) as [[bs es] took]. destruct Hr as (I1 & I2 & _ & I3). cbn [fst]. rewrite live_none. split.
  - intros Hn i f Hf. destruct (I3 i f Hf) as (Hb & _). specialize (Hn _ _ Hb). cbn in Hn.
    destruct (fst (attempt r cut i f)) as [t|e]; [done|by exists e].
  - intros Ha j b Hj. destruct (fs !! j) as [f|] eqn:Ef.
    + destruct (I3 j f Ef) as (Hb & _). destruct (Ha j f Ef) as (e & He). cbn in Hb. rewrite He in Hb. congruence.
    + apply lookup_lt_Some in Hj. apply lookup_ge_None in Ef. lia.
Qed.

Lemma all_none (built : list (option Transport)) n :
  length built = n -> live built = 0%nat -> built = replicate n None.
Proof. intros <-. induction built as [|[t|] built IH]; cbn; try done. intros Hl. by rewrite <- IH. Qed.

Lemma map_none (fs : list NetworkFactory) : map (fun _ => None) fs = replicate (length fs) (@None Transport).
Proof. induction fs as [|f fs IH]; cbn; [done|]. by rewrite IH. Qed.

(** ** The rounds on the clock *)
Section Rounds.
Variables (rounds : nat -> Round) (fs : list NetworkFactory) (timeout : Duration) (deadline now : Instant).

(** When round [n] checks the clock, its loop at its head at [head]. *)
Definition check_from (n : nat) (head : Instant) : Instant :=
  let start := head + rd_late (rounds n) in
  start + round_took (rounds n) (round_cut timeout deadline start) 0 fs + rd_lag (rounds n).
Fixpoint head_at (n : nat) : Instant := match n with O => now | S n => check_from n (head_at n) + backoff_at n end.
Definition check_at (n : nat) : Instant := check_from n (head_at n).
(** What its attempts may take. *)
Definition cut_at (n : nat) : Duration := round_cut timeout deadline (head_at n + rd_late (rounds n)).

Lemma check_at_range slack n : timely slack rounds -> head_at n <= check_at n <= Z.max (head_at n) deadline + 2 * slack.
Proof.
  intros Ht. destruct (Ht n) as (T1 & T2). unfold check_at, check_from.
  pose proof (round_took_range (rounds n) (round_cut timeout deadline (head_at n + rd_late (rounds n))) 0 fs) as Hr.
  unfold round_cut in *. lia.
Qed.

Lemma head_at_from slack n : timely slack rounds -> now <= head_at n.
Proof.
  intros Ht. induction n as [|n IH]; cbn [head_at]; [lia|]. pose proof (check_at_range slack n Ht) as Hc. unfold check_at in Hc.
  pose proof (backoff_at_range n) as Hb. change INIT_RETRY_BACKOFF_START with 500000000 in Hb. lia.
Qed.

(** The loop from round [n] on, nothing being connected yet: some round
    [m] ends it. *)
Lemma connect_loop_spec slack fuel n budget errors :
  timely slack rounds -> length errors = length fs ->
  deadline - head_at n <= Z.of_nat fuel * INIT_RETRY_BACKOFF_START ->
  exists m errs, (n <= m)%nat /\ length errs = length fs
    /\ (forall k, (n <= k < m)%nat -> all_fail (rounds k) (cut_at k) fs /\ check_at k + backoff_at k < deadline)
    /\ ((~ all_fail (rounds m) (cut_at m) fs
           /\ connect_loop (S fuel) rounds n (head_at n) fs timeout budget deadline (map (fun _ => None) fs) errors (backoff_at n)
              = Some (let '(bs, es, _) := run_round (rounds m) (cut_at m) 0 fs (map (fun _ => None) fs) errs in Live bs es (check_at m)))
        \/ (all_fail (rounds m) (cut_at m) fs /\ deadline <= check_at m + backoff_at m
           /\ exists msg, connect_loop (S fuel) rounds n (head_at n) fs timeout budget deadline (map (fun _ => None) fs) errors (backoff_at n)
                = Some (GaveUp (Init msg) (check_at m)))).
Proof.
  intros Ht Hl. revert n errors Hl. induction fuel as [|fuel IH]; intros n errors Hl Hfuel;
    pose proof (live_round_none (rounds n) (cut_at n) fs errors Hl) as Hlive;
    pose proof (run_round_spec (rounds n) (cut_at n) fs 0 _ errors eq_refl Hl) as Hround;
    pose proof (check_at_range slack n Ht) as Hc; pose proof (backoff_at_range n) as Hb;
    destruct (run_round (rounds n) (cut_at n) 0 fs (map (fun _ => None) fs) errors) as [[bs es] took] eqn:Er; cbn [fst] in Hlive;
    destruct Hround as (L1 & L2 & Htook & _);
    assert (Hcheck : head_at n + rd_late (rounds n) + took + rd_lag (rounds n) = check_at n) by (by rewrite Htook).
  all: destruct (decide (live bs = 0%nat)) as [Hz|Hz];
    [|exists n, errors; split; [lia|]; split; [done|]; split; [lia|]; left; split; [tauto|];
      cbn [connect_loop]; cbn zeta; change (round_cut timeout deadline (head_at n + rd_late (rounds n))) with (cut_at n); rewrite Er; cbn zeta; rewrite Hcheck; by destruct (live bs)].
  all: destruct (decide (deadline <= check_at n + backoff_at n)) as [Hd|Hd];
    [exists n, errors; split; [lia|]; split; [done|]; split; [lia|]; right; split; [tauto|]; split; [done|];
      cbn [connect_loop]; cbn zeta; change (round_cut timeout deadline (head_at n + rd_late (rounds n))) with (cut_at n); rewrite Er; cbn zeta; rewrite Hz, Hcheck; cbn [Nat.ltb Nat.leb]; zguard; by eexists|].
  - unfold INIT_RETRY_BACKOFF_START, from_millis, ns_per_ms in *. lia.
  - destruct (IH (S n) es) as (m & errs & Hm & Hle & Hall & Hend); [lia|cbn [head_at]; change (check_from n (head_at n)) with (check_at n); lia|].
    exists m, errs. split; [lia|]. split; [done|]. split.
    { intros k Hk. destruct (decide (k = n)) as [->|]; [split; [tauto|lia]|]. apply Hall. lia. }
    assert (Hstep : forall x, connect_loop (S fuel) rounds (S n) (head_at (S n)) fs timeout budget deadline (map (fun _ => None) fs) es (backoff_at (S n)) = x ->
      connect_loop (S (S fuel)) rounds n (head_at n) fs timeout budget deadline (map (fun _ => None) fs) errors (backoff_at n) = x).
    { intros x <-. remember (S fuel) as fuel' eqn:Ef. cbn [connect_loop]. cbn zeta. change (round_cut timeout deadline (head_at n + rd_late (rounds n))) with (cut_at n).
      rewrite Er. cbn zeta. rewrite Hz, Hcheck. cbn [Nat.ltb Nat.leb]. zguard. rewrite map_none, (all_none bs (length fs)) by done. done. }
    destruct Hend as [(Hne & Heq)|(Hf & Hdl & msg & Heq)]; [left|right; split; [done|]; split; [done|]; exists msg].
    + split; [done|]. by apply Hstep.
    + by apply Hstep.
Qed.
End Rounds.

(** The upstream a factory becomes after round [r]. *)
Definition joined (r : Round) (cut : Duration) (at_ : Instant) (timeout : Duration) (i : nat) (f : NetworkFactory) : Upstream :=
  upstream_new f
    (match fst (attempt r cut i f) with inl t => Connected 1 t None | inr e => Down at_ (label f ++ lit ": " ++ e) end) timeout.

Lemma assemble_spec fs built errors at_ timeout :
  length built = length fs -> length errors = length fs ->
  length (assemble fs built errors at_ timeout) = length fs
  /\ forall i f b e, fs !! i = Some f -> built !! i = Some b -> errors !! i = Some e ->
       assemble fs built errors at_ timeout !! i
       = Some (upstream_new f (match b with Some t => Connected 1 t None | None => Down at_ e end) timeout).
Proof.
  revert built errors. induction fs as [|f fs IH]; intros [|b built] [|e errors]; cbn [assemble length]; try done.
  intros [= Hb] [= He]. destruct (IH built errors Hb He) as (IHl & IHi). split; [by rewrite IHl|].
  intros [|i] f' b' e' Hf Hb' He'; [injection Hf as ->; injection Hb' as ->; injection He' as ->; done|by apply (IHi i)].
Qed.

Lemma round_assembles r cut fs errors at_ timeout :
  length errors = length fs ->
  let '(bs, es, _) := run_round r cut 0 fs (map (fun _ => None) fs) errors in
  length (assemble fs bs es at_ timeout) = length fs
  /\ forall i f, fs !! i = Some f -> assemble fs bs es at_ timeout !! i = Some (joined r cut at_ timeout i f).
Proof.
  intros Hl. pose proof (run_round_spec r cut fs 0 _ errors eq_refl Hl) as Hr.
  destruct (run_round r cut 0 fs _ errors) as [[bs es] took]. destruct Hr as (L1 & L2 & _ & Hi).
  destruct (assemble_spec fs bs es at_ timeout L1 L2) as (Hlen & Ha). split; [done|]. intros i f Hf.
  destruct (Hi i f Hf) as (Hb & He). destruct (lookup_lt_is_Some_2 es i) as (e & Hes).
  { rewrite L2. by eapply lookup_lt_Some. }
  rewrite (Ha i f _ e Hf Hb Hes). unfold joined. change (0 + i)%nat with i in *. destruct (fst (attempt r cut i f)) as [t|err]; [done|].
  specialize (He err eq_refl). rewrite Hes in He. by apply Some_inj in He as ->.
Qed.

Lemma factories_loop_spec cfg tls raws acc fs :
  factories_loop cfg tls raws acc = inl fs ->
  exists new, fs = acc ++ new
    /\ Forall2 (fun raw f => f_url f = raw /\ parse_upstream_url raw = inl (f_kind f) /\ f_bootstrap_ips f = bootstrap_ips cfg
                 /\ needs_bootstrap cfg (f_kind f) = false) raws new.
Proof.
  revert acc. induction raws as [|raw raws IH]; intros acc; cbn [factories_loop].
  { intros [= <-]. exists []. rewrite app_nil_r. by split. }
  destruct (parse_upstream_url raw) as [kind|] eqn:Ep; [|done]. destruct (needs_bootstrap cfg kind) eqn:En; [done|].
  intros Hf. apply IH in Hf as (new & -> & Hall). exists (mkFactory kind (bootstrap_ips cfg) raw tls :: new).
  rewrite <- app_assoc. split; [done|]. by constructor.
Qed.
End Pool.

(** ** Properties *)
Section Properties.
Context `{HickoryOps} `{UpstreamOps} `{RcodeDisplay}.

(** One query through one upstream, on every path of [send]: it is
    counted once; it uses at most two connections, the second only after
    the first died; a connection is condemned exactly when it died or hung
    under this query, never for an answer; every use sends this message
    with this deadline; the result is the last connection's answer, if its
    code is one a client can use, and only then is the connection proven,
    the backoff reset and the success recorded; otherwise one failure is
    counted. *)
Theorem send_outcome fuel f msg deadline tr r :
  runs (send fuel f msg deadline) tr r -> sent_as msg deadline (project note tr) r.
Proof. apply send_shows. Qed.

(** C23: a resolve forwards the client's query with RD and DO set and
    nothing else changed; it answers with the first usable answer in order
    of arrival, under the client's id, as soon as it is there; it fails
    only when every upstream has, with all their errors. Whether it
    succeeds does not depend on the order of arrival. *)
Theorem resolve_first_answer p query results arrivals :
  arrivals ≡ₚ results ->
  match fst (resolve p query arrivals) with
  | inl reply => exists failed m later, arrivals = map inr failed ++ inl m :: later
      /\ reply = set_meta m (with_id (msg_id (metadata query))) /\ inl m ∈ results
  | inr e => exists failed, results ≡ₚ map inr failed /\ arrivals = map inr failed /\ e = AllFailed failed
  end
  /\ (metadata (outgoing query) = with_rd true (metadata query) /\ queries (outgoing query) = queries query
      /\ exists e, edns (outgoing query) = Some e /\ edns_dnssec_ok e = true
           /\ edns_max_payload e = edns_max_payload (default edns_new (edns query))).
Proof.
  intros Hp. split.
  - unfold resolve. destruct (recv_loop_spec p (msg_id (metadata query)) arrivals []) as [(failed & m & later & Ha & _ & ->)|(failed & Ha & _ & ->)].
    + exists failed, m, later. split; [done|]. split; [done|]. rewrite <- Hp, Ha. apply elem_of_app. right. by left.
    + exists failed. split; [by rewrite <- Hp, Ha|]. by split.
  - split; [done|]. split; [done|]. eexists. split; [reflexivity|]. by split.
Qed.

(** The alert signal. After any history of resolves on a new pool,
    [consecutive_all_failed] is the number of queries since the last one
    some upstream answered, [resolved] and [all_failed_total] count the
    answered and the failed ones, and the health report shows them. *)
Theorem pool_counts_unanswered us timeout hist now :
  let h := pool_health (resolve_all (mkPool us timeout 0 0 0) hist) now in
  (exists before since, hist = before ++ since
     /\ Forall (fun q => answered_one (snd q) = false) since
     /\ (forall q, last before = Some q -> answered_one (snd q) = true)
     /\ ph_consecutive_all_failed h = len since)
  /\ ph_resolved h = count_answered true hist
  /\ ph_all_failed_total h = count_answered false hist
  /\ ph_resolved h + ph_all_failed_total h = len hist.
Proof.
  cbn zeta. destruct (resolve_all_spec hist (mkPool us timeout 0 0 0)) as (_ & Hr & Ha & Hc).
  unfold pool_health. cbn [ph_consecutive_all_failed ph_resolved ph_all_failed_total]. rewrite Hr, Ha, Hc. cbn.
  split; [|split; [lia|split; [lia|]]].
  - destruct (unanswered_split hist 0) as (b & s & -> & Hs & Hn & Hl). exists b, s. split; [done|]. split; [done|].
    split; [done|]. rewrite Hn. by destruct (bool_decide _).
  - unfold count_answered. induction hist as [|[q a] hist IH]; [done|].
    destruct (resolve_all_spec hist (mkPool us timeout 0 0 0)) as (_ & Hr' & Ha' & Hc').
    specialize (IH Hr' Ha' Hc'). cbn [List.filter snd]. destruct (answered_one a); cbn [Bool.eqb];
      rewrite ?len_cons in *; lia.
Qed.

(** The reconnect schedule. From an upstream just started, [k] failed
    attempts in a row, each made once it was due, leave a wait of
    min(0.5 s * 2^k, 30 s), and the upstream down until the last attempt's
    wait is over; an attempt that is not due does nothing; a build that
    then succeeds is connected under a new generation, on a probation of at
    most 5 s. *)
Theorem reconnect_schedule f err started timeout os o t :
  let u := fold_left (fun u o => reconnect o u) os (upstream_new f (Down started err) timeout) in
  outage (upstream_new f (Down started err) timeout) os ->
  u_backoff_ms u = ladder (length os)
  /\ (forall o', last os = Some o' -> exists e, u_state u = Down (uo_now o' + from_millis (ladder (pred (length os)))) e)
  /\ u_repair_done u = len os
  /\ ((forall r e, u_state u = Down r e -> uo_now o < r) -> reconnect o u = u)
  /\ (down_since u o -> built_by o (u_factory u) = Some (inl t) ->
        u_state (reconnect o u) = Connected 1 t (Some (uo_now o + from_millis (Z.min (ladder (length os)) 5000)))
        /\ u_backoff_ms (reconnect o u) <= 5000).
Proof.
  cbn zeta. intros Ho. destruct (outage_ladder os _ 0 Ho) as (I1 & I2 & I3 & I4 & I5); [apply consts_millis|].
  cbn [Nat.add] in *. set (u := fold_left _ _ _) in *. split; [done|]. split; [done|].
  split; [rewrite I4; cbn; lia|]. split.
  - intros Hn. unfold reconnect. cbn. unfold start_connecting. destruct (u_state u) as [r e| |g t' p] eqn:Es; cbn; rewrite ?Es; try done.
    + specialize (Hn r e eq_refl). zguard. cbn. by rewrite Es.
    + exfalso. clear -Ho I1 I5 Es. destruct (last os) as [o'|] eqn:El.
      * destruct (I5 o' eq_refl) as (e & He). congruence.
      * apply last_None in El as ->. done.
  - intros Hd Hb. destruct (reconnect_succeeds o u t Hd Hb) as (Hs & Hm & _ & _); [rewrite I1; apply ladder_u64|].
    rewrite Hs, Hm, I1, I2. cbn. split; [done|]. lia.
Qed.

(** C24: start-up decides in time. If the loop wakes for its rounds and
    reads the clock after them at most [slack] late, [pool_new] returns,
    and no later than its budget and twice the slack after its start:
    either the configuration is refused at once; or some round is the first
    in which an upstream connects within what is left of its timeout and of
    the budget, and the pool has one upstream per URL, in order, each
    connected or down as that round left it; or every upstream failed in
    every round, and the last one ended too late for another: the wait
    before it would have reached the deadline, which no earlier wait did. *)
Theorem startup_decides cfg rounds now fuel slack :
  timely slack rounds -> 0 <= connect_budget cfg <= Z.of_nat fuel * INIT_RETRY_BACKOFF_START ->
  let timeout := from_millis (timeout_ms cfg) in
  let deadline := now + connect_budget cfg in
  match pool_new (S fuel) rounds cfg now with
  | None => False
  | Some (inl pool, at_) => exists tls fs m, factories cfg tls = inl fs
      /\ Forall2 (fun raw f => f_url f = raw /\ parse_upstream_url raw = inl (f_kind f)) (urls cfg) fs
      /\ let cut := cut_at rounds fs timeout deadline now in
      (forall k, (k < m)%nat -> all_fail (rounds k) (cut k) fs) /\ ~ all_fail (rounds m) (cut m) fs
      /\ at_ = check_at rounds fs timeout deadline now m /\ now <= at_ <= deadline + 2 * slack
      /\ length (pl_upstreams pool) = length fs
      /\ forall i f, fs !! i = Some f -> pl_upstreams pool !! i = Some (joined (rounds m) (cut m) at_ timeout i f)
  | Some (inr e, at_) =>
      (at_ = now /\ (urls cfg = [] \/ timeout_ms cfg = 0 \/ build_rustls_client_config (extra_roots cfg) = inr e
                     \/ exists tls, factories cfg tls = inr e))
      \/ exists tls fs m, factories cfg tls = inl fs
           /\ (forall k, (k <= m)%nat -> all_fail (rounds k) (cut_at rounds fs timeout deadline now k) fs)
           /\ at_ = check_at rounds fs timeout deadline now m /\ now <= at_ <= deadline + 2 * slack
           /\ deadline <= at_ + backoff_at m
           /\ forall k, (k < m)%nat -> check_at rounds fs timeout deadline now k + backoff_at k < deadline
  end.
Proof.
  intros Ht Hfuel. cbn zeta. unfold pool_new. destruct (bool_decide (urls cfg = [])) eqn:Eu; [apply bool_decide_eq_true in Eu; by auto|].
  destruct (timeout_ms cfg =? 0) eqn:Et; [bool_to_prop; by auto|].
  destruct (build_rustls_client_config (extra_roots cfg)) as [tls|e] eqn:Er; [|by left; split; [done|]; right; right; left].
  destruct (factories cfg tls) as [fs|e] eqn:Ef; [|left; split; [done|]; right; right; right; by exists tls].
  assert (Hl : length (map (fun _ : NetworkFactory => @nil Z) fs) = length fs) by apply length_map.
  set (timeout := from_millis (timeout_ms cfg)). set (deadline := now + connect_budget cfg).
  destruct (connect_loop_spec rounds fs timeout deadline now slack fuel 0 (connect_budget cfg) _ Ht Hl)
    as (m & errs & _ & He & Hall & Hend); [cbn [head_at]; lia|].
  assert (Hat : now <= check_at rounds fs timeout deadline now m <= deadline + 2 * slack).
  { pose proof (check_at_range rounds fs timeout deadline now slack m Ht) as Hc.
    assert (Hh : now <= head_at rounds fs timeout deadline now m <= deadline); [|lia].
    destruct m as [|m]; [cbn [head_at]; lia|]. split; [|destruct (Hall m); [lia|]; cbn [head_at]; by apply Z.lt_le_incl].
    by apply (head_at_from _ _ _ _ _ slack). }
  change (backoff_at 0) with INIT_RETRY_BACKOFF_START in Hend. change (head_at _ _ _ _ now 0) with now in Hend.
  destruct Hend as [(Hne & ->)|(Hf & Hd & msg & ->)].
  - pose proof (round_assembles (rounds m) (cut_at rounds fs timeout deadline now m) fs errs (check_at rounds fs timeout deadline now m) timeout He) as Ha.
    destruct (run_round (rounds m) _ 0 fs _ errs) as [[bs es] took]. destruct Ha as (Hlen & Hi). exists tls, fs, m. split; [done|].
    split; [apply factories_loop_spec in Ef as (new & -> & Hnew); cbn; eapply Forall2_impl; [exact Hnew|]; cbn; tauto|].
    split; [intros k Hk; apply Hall; lia|]. do 2 (split; [done|]). split; [exact Hat|]. by split.
  - right. exists tls, fs, m. split; [done|]. split; [|split; [done|]; split; [exact Hat|]; split; [done|]].
    + intros k Hk. destruct (decide (k = m)) as [->|]; [done|]. apply Hall. lia.
    + intros k Hk. apply Hall. lia.
Qed.
End Properties.
