(* ===== verification/ConfigSpec.v ===== *)
(** * ConfigSpec: what validation accepts, and what it buys

    Validation accepts exactly the configurations that satisfy a
    declarative predicate; the effective list set is the profile with its
    overrides in place followed by the extras; and a validated
    configuration cannot be refused by the components it is handed to. *)
From S2P Require Import Prelude Text Num IpAddr Dns Cache CacheSpec SafeSearch Pipeline Result Config Shadow Time Upstream UpstreamSpec.

(** ** The effective lists *)
Definition same_name (n : list Z) (l : ListSource) : bool := str_eqb (ls_name l) n.

(** The configured entry of that name, else the profile's. *)
Definition overridden (extras : list ListSource) (l : ListSource) : ListSource :=
  default l (List.find (same_name (ls_name l)) extras).

Definition new_names (base : list ListSource) (extras : list ListSource) : list ListSource :=
  List.filter (fun e => negb (existsb (fun l => same_name (ls_name e) l) base)) extras.

Lemma override_present base e :
  existsb (same_name (ls_name e)) base = true -> NoDup (map ls_name base) ->
  override base e = map (fun l => if same_name (ls_name e) l then e else l) base.
Proof.
  induction base as [|l base IH]; cbn [existsb override map]; [done|]. unfold same_name at 1 3. intros He Hn.
  inversion Hn as [|? ? Hnot Hn']; subst. destruct (str_eqb (ls_name l) (ls_name e)) eqn:E.
  - f_equal. apply str_eqb_eq in E. symmetry. clear -Hnot E. rewrite <- (map_id base) at 2. apply map_ext_in. intros x Hx.
    unfold same_name. destruct (str_eqb (ls_name x) (ls_name e)) eqn:E'; [|done]. apply str_eqb_eq in E'. exfalso.
    apply Hnot. rewrite E, <- E'. apply list_elem_of_fmap. exists x. split; [done|by apply list_elem_of_In].
  - f_equal. by apply IH.
Qed.

Lemma override_absent base e : existsb (same_name (ls_name e)) base = false -> override base e = base ++ [e].
Proof.
  induction base as [|l base IH]; cbn [existsb override app]; [done|]. unfold same_name at 1. intros He. bool_to_prop.
  rewrite H. f_equal. by apply IH.
Qed.

Lemma same_name_eq n l : same_name n l = true <-> ls_name l = n.
Proof. apply str_eqb_eq. Qed.

Lemma NoDup_map_inj {A B} (f : A -> B) l x y : NoDup (map f l) -> x ∈ l -> y ∈ l -> f x = f y -> x = y.
Proof.
  intros Hn Hx Hy Hf. apply list_elem_of_lookup in Hx as (i & Hi). apply list_elem_of_lookup in Hy as (j & Hj).
  assert (i = j); [|congruence]. eapply (NoDup_lookup (map f l) i j (f x)); [done|..]; rewrite list_lookup_fmap.
  - by rewrite Hi.
  - by rewrite Hj, Hf.
Qed.

Lemma existsb_names n base : existsb (same_name n) base = true <-> n ∈ map ls_name base.
Proof.
  rewrite existsb_exists_iff. setoid_rewrite same_name_eq. rewrite list_elem_of_fmap. split; intros (x & Hx); exists x; naive_solver.
Qed.

Lemma override_names base e :
  NoDup (map ls_name base) ->
  map ls_name (override base e)
  = if existsb (same_name (ls_name e)) base then map ls_name base else map ls_name base ++ [ls_name e].
Proof.
  intros Hn. destruct (existsb (same_name (ls_name e)) base) eqn:E.
  - rewrite override_present by done. rewrite map_map. apply map_ext. intros l.
    destruct (same_name (ls_name e) l) eqn:El; [|done]. by apply same_name_eq in El.
  - rewrite override_absent by done. by rewrite map_app.
Qed.

Lemma override_NoDup base e : NoDup (map ls_name base) -> NoDup (map ls_name (override base e)).
Proof.
  intros Hn. rewrite override_names by done. destruct (existsb _ base) eqn:E; [done|]. apply NoDup_app. split; [done|].
  split; [|by apply NoDup_singleton]. intros x Hx Hx'. apply list_elem_of_singleton in Hx' as ->.
  by apply existsb_names in Hx; rewrite Hx in E.
Qed.

Lemma existsb_overridden base e n :
  NoDup (map ls_name base) -> existsb (same_name n) (override base e) = existsb (same_name n) base || same_name n e.
Proof.
  intros Hn. apply eq_bool_prop_intro. rewrite !Is_true_true, orb_true_iff, !existsb_names, same_name_eq, override_names by done.
  destruct (existsb (same_name (ls_name e)) base) eqn:E.
  - apply existsb_names in E. split; [by left|]. intros [?|<-]; done.
  - rewrite elem_of_app, list_elem_of_singleton. naive_solver.
Qed.

Lemma find_absent n extras : n ∉ map ls_name extras -> List.find (same_name n) extras = None.
Proof.
  intros Hn. destruct (List.find (same_name n) extras) as [l|] eqn:E; [|done]. apply find_some in E as (Hin & He).
  apply same_name_eq in He as <-. exfalso. apply Hn, list_elem_of_fmap. exists l. split; [done|by apply list_elem_of_In].
Qed.

Lemma new_names_override base e extras :
  NoDup (map ls_name base) -> ls_name e ∉ map ls_name extras -> new_names (override base e) extras = new_names base extras.
Proof.
  intros Hb He. unfold new_names. apply filter_ext_in. intros x Hx. rewrite existsb_overridden by done.
  destruct (same_name (ls_name x) e) eqn:E; [|by rewrite orb_false_r]. apply same_name_eq in E. exfalso. apply He.
  rewrite E. apply list_elem_of_fmap. exists x. split; [done|by apply list_elem_of_In].
Qed.

Lemma overridden_override base e extras :
  NoDup (map ls_name base) -> ls_name e ∉ map ls_name extras ->
  map (overridden extras) (override base e)
  = map (overridden (e :: extras)) base ++ (if existsb (same_name (ls_name e)) base then [] else [e]).
Proof.
  intros Hb He. assert (Hself : overridden extras e = e) by (unfold overridden; by rewrite find_absent).
  destruct (existsb (same_name (ls_name e)) base) eqn:E.
  - rewrite override_present, app_nil_r, map_map by done. apply map_ext. intros l. unfold overridden at 2. cbn [List.find].
    unfold same_name at 1 2. replace (str_eqb (ls_name e) (ls_name l)) with (str_eqb (ls_name l) (ls_name e))
      by (apply eq_bool_prop_intro; rewrite !Is_true_true, !str_eqb_eq; split; congruence).
    destruct (str_eqb (ls_name l) (ls_name e)); done.
  - rewrite override_absent, map_app by done. cbn. rewrite Hself. f_equal. apply map_ext_in. intros l Hl.
    unfold overridden. cbn [List.find]. destruct (same_name (ls_name l) e) eqn:El; [|done]. apply same_name_eq in El.
    exfalso. assert (existsb (same_name (ls_name e)) base = true); [|congruence].
    apply existsb_names. rewrite El. apply list_elem_of_fmap. exists l. split; [done|by apply list_elem_of_In].
Qed.

(** Folding the overrides in, with distinct names. *)
Lemma fold_override extras base :
  NoDup (map ls_name base) -> NoDup (map ls_name extras) ->
  fold_left override extras base = map (overridden extras) base ++ new_names base extras
  /\ NoDup (map ls_name (fold_left override extras base)).
Proof.
  revert base. induction extras as [|e extras IH]; intros base Hb He; cbn [fold_left].
  { unfold new_names. cbn. rewrite app_nil_r. split; [|done]. symmetry. apply map_id. }
  inversion He as [|? ? Hnot He']; subst. destruct (IH (override base e) (override_NoDup _ _ Hb) He') as (-> & Hnd).
  split; [|rewrite overridden_override, new_names_override in Hnd by done; rewrite overridden_override, new_names_override by done; exact Hnd].
  rewrite overridden_override, new_names_override by done. rewrite <- app_assoc. f_equal.
  unfold new_names. cbn [List.filter]. by destruct (existsb (same_name (ls_name e)) base).
Qed.

Lemma profile_names p : NoDup (map ls_name (profile_lists p)).
Proof. apply (bool_decide_unpack _). destruct p; vm_compute; exact I. Qed.

(** ** Validation *)
Section Validation.
Context `{ConfigOps}.

(** A list source that can be acquired. *)
Definition source_ok (l : ListSource) : Prop :=
  (ls_url l <> None \/ ls_path l <> None)
  /\ (forall url, ls_url l = Some url -> starts_with (lit "https://") url = true)
  /\ (forall path, ls_path l = Some path -> is_absolute path = true).

Definition valid_config (c : Config) : Prop :=
  bind_addrs (server c) <> [] /\ allow (server c) <> []
  /\ servers (upstreams c) <> [] /\ Forall (fun s => server_scheme_ok s = true) (servers (upstreams c))
  /\ bootstrap (upstreams c) <> [] /\ 100 <= up_timeout_ms (upstreams c) <= 30000
  /\ is_absolute (db_path (database c)) = true /\ is_absolute (list_dir (filtering c)) = true
  /\ Forall (fun p => is_absolute p = true) (tls_extra_roots (tls c))
  /\ max_entries (cache c) <> 0 /\ serve_stale_secs (cache c) <= 3 * 86400
  /\ Forall (fun p => exists q, p = provider_name q) (ss_providers (safe_search c))
  /\ effective_lists c <> []
  /\ Forall (fun l => ls_name l <> []) (lists (filtering c)) /\ NoDup (map ls_name (lists (filtering c)))
  /\ Forall source_ok (effective_lists c).

Lemma validate_names_ok seen ls :
  validate_names seen ls = inl tt <->
  Forall (fun l => ls_name l <> []) ls /\ NoDup (map ls_name ls) /\ Forall (fun l => ls_name l ∉ seen) ls.
Proof.
  revert seen. induction ls as [|l ls IH]; intros seen; cbn [validate_names map].
  { split; [|done]. intros _. by repeat constructor. }
  rewrite !Forall_cons, NoDup_cons. destruct (bool_decide (ls_name l = [])) eqn:E1; [apply bool_decide_eq_true in E1; naive_solver|].
  apply bool_decide_eq_false in E1. destruct (bool_decide (ls_name l ∈ seen)) eqn:E2; [apply bool_decide_eq_true in E2; naive_solver|].
  apply bool_decide_eq_false in E2. rewrite IH. rewrite !Forall_forall. setoid_rewrite not_elem_of_cons.
  assert (Hm : ls_name l ∉ map ls_name ls <-> forall x, x ∈ ls -> ls_name x <> ls_name l).
  { rewrite list_elem_of_fmap. split; [intros Hn x Hx He; apply Hn; by exists x|intros Hall (x & He & Hx); by apply (Hall x)]. }
  rewrite Hm. naive_solver.
Qed.

Lemma validate_source_ok l : validate_source l = inl tt <-> source_ok l.
Proof.
  unfold validate_source, source_ok. autorewrite with result.
  destruct (ls_url l) as [url|], (ls_path l) as [path|]; cbn; autorewrite with result; naive_solver.
Qed.

Lemma tls_validate_ok t : tls_validate t = inl tt <-> Forall (fun p => is_absolute p = true) (tls_extra_roots t).
Proof.
  unfold tls_validate. destruct (List.find _ _) as [p|] eqn:E.
  - split; [done|]. apply find_some in E as (Hin & Hp). rewrite Forall_forall. intros Hall.
    apply list_elem_of_In in Hin. by rewrite (Hall p Hin) in Hp.
  - split; [|done]. intros _. rewrite Forall_forall. intros p Hp. apply list_elem_of_In in Hp.
    pose proof (find_none _ _ E p Hp) as Hn. cbn in Hn. by destruct (is_absolute p).
Qed.

Lemma cache_validate_ok c : cache_validate c = inl tt <-> max_entries c <> 0 /\ serve_stale_secs c <= 3 * 86400.
Proof. unfold cache_validate. autorewrite with result. rewrite !negb_true_iff, Z.eqb_neq, Z.ltb_ge. done. Qed.

Lemma nonempty_guard {A} `{EqDecision A} (l : list A) : negb (bool_decide (l = [])) = true <-> l <> [].
Proof. by rewrite negb_true_iff, bool_decide_eq_false. Qed.

Lemma len_zero {A} (l : list A) : negb (len l =? 0) = true <-> l <> [].
Proof. rewrite negb_true_iff, Z.eqb_neq. unfold len. destruct l; cbn; [split; intros Hn; by destruct Hn|]. split; [done|lia]. Qed.
End Validation.

(** ** Properties *)
Section Properties.
Context `{ConfigOps}.

Lemma validate_ok c : validate c = inl tt <-> valid_config c.
Proof.
  unfold validate, valid_config. autorewrite with result.
  rewrite !nonempty_guard, len_zero, andb_true_iff, !Z.leb_le, tls_validate_ok, cache_validate_ok, validate_names_ok.
  setoid_rewrite validate_source_ok. setoid_rewrite ensure_ok.
  assert (Hp : (match validate_providers (ss_providers (safe_search c)) with
      | Some e => inr (Invalid (lit "safe_search.providers: " ++ provider_error e)) | None => inl tt end = @inl unit ConfigError tt)
    <-> Forall (fun p => exists q, p = provider_name q) (ss_providers (safe_search c))).
  { rewrite <- validate_providers_None. destruct (validate_providers _); split; done. }
  rewrite Hp. assert (Hnil : Forall (fun l => ls_name l ∉ []) (lists (filtering c)) <-> True)
    by (split; [done|intros _; apply Forall_forall; intros l _; apply not_elem_of_nil]).
  rewrite Hnil. tauto.
Qed.

(** Validation accepts exactly the valid configurations: every list the
    source requires is non-empty, every URL has its scheme, every path is
    absolute, the timeout, cache size and stale window are in range, the
    providers are known, the configured list names are non-empty and
    distinct, and every list in effect has a usable source. *)
Theorem validation_exact c : validate c = inl tt <-> valid_config c.
Proof. apply validate_ok. Qed.

(** C33: in a configuration that validates, the lists in effect are the
    profile's, each replaced by the configured entry of its name when there
    is one, followed by the other configured entries in their order; the
    names stay distinct, so no entry hides another. *)
Theorem effective_lists_exact c :
  validate c = inl tt ->
  let base := match profile (filtering c) with Some p => profile_lists p | None => [] end in
  effective_lists c = map (overridden (lists (filtering c))) base ++ new_names base (lists (filtering c))
  /\ NoDup (map ls_name (effective_lists c))
  /\ (forall l, l ∈ lists (filtering c) -> l ∈ effective_lists c).
Proof.
  intros Hv. apply validate_ok in Hv as (_&_&_&_&_&_&_&_&_&_&_&_&_&_& Hn & _). cbn zeta.
  set (base := match profile _ with Some p => _ | None => _ end).
  assert (Hb : NoDup (map ls_name base)) by (unfold base; destruct (profile (filtering c)); [apply profile_names|constructor]).
  destruct (fold_override (lists (filtering c)) base Hb Hn) as (He & Hd). unfold effective_lists. fold base.
  split; [done|]. split; [done|]. intros l Hl. rewrite He. apply elem_of_app.
  destruct (existsb (same_name (ls_name l)) base) eqn:E.
  - left. apply existsb_exists_iff in E as (b & Hin & Hs). apply same_name_eq in Hs. apply list_elem_of_fmap.
    exists b. split; [|done]. unfold overridden.
    destruct (List.find (same_name (ls_name b)) (lists (filtering c))) as [l'|] eqn:Ef.
    + apply find_some in Ef as (Hin' & Hs'). apply same_name_eq in Hs'. cbn. apply list_elem_of_In in Hin'.
      eapply NoDup_map_inj; [exact Hn|done|done|congruence].
    + exfalso. apply list_elem_of_In in Hl. pose proof (find_none _ _ Ef l Hl) as Hf. rewrite (proj2 (same_name_eq _ _)) in Hf; [done|done].
  - right. unfold new_names. apply list_elem_of_In, filter_In. split; [by apply list_elem_of_In|].
    apply negb_true_iff. exact E.
Qed.
End Properties.

(** ** A concrete configuration *)
#[local] Instance host_nets : IpNetOps := {| IpNet := IpAddr; net_contains := fun a b => bool_decide (a = b) |}.
#[local] Instance no_toml : ConfigOps := {|
  toml_from_str := fun _ => inr [];
  toml_to_string := fun _ => Some [];
  sha256 := fun b => b;
  Cert := unit;
  pem_file := fun _ => inr []
|}.

Definition my_pro : ListSource := mkListSource (lit "hagezi-pro") None (Some (lit "/etc/pro.txt")).
Definition my_list : ListSource := mkListSource (lit "mine") (Some (lit "https://example.com/list.txt")) None.
Definition strict_config : Config := mkConfig
  (mkServerConfig [mkSocketAddr (V4 [0; 0; 0; 0]) 53] [V4 [127; 0; 0; 1]])
  (mkFilteringConfig (Some Strict) [my_list; my_pro] (lit "/var/lib/sumidero/lists"))
  (mkUpstreamsConfig [lit "https://dns.google/dns-query"] [V4 [1; 1; 1; 1]] 3000)
  (mkDatabaseConfig (lit "/var/lib/sumidero/sumidero.sqlite"))
  (mkSafeSearchConfig true [lit "google"])
  (mkTlsConfig [])
  cache_default.

Lemma effective_lists_exact_witness : effective_lists strict_config = [my_pro; hagezi_tif; my_list].
Proof.
  assert (Hv : validate strict_config = inl tt) by (vm_compute; reflexivity).
  rewrite (proj1 (effective_lists_exact strict_config Hv)). vm_compute. reflexivity.
Defined.
