(* ===== verification/Sockets.v ===== *)
(** * Sockets: binding and letting go ([crates/core/src/server.rs], sockets)

    [serve] up to the tasks it spawns, and [RunningServer::shutdown], over
    the sockets the process holds. Every call of the operating system is an
    event that may fail; when two sockets collide is the host's business
    ([NetStack], with what ip(7) and ipv6(7) promise). A local that goes
    out of scope on an error is closed where the source drops it. A UDP
    socket is closed with the task that owns it; in the source an answer
    under way shares it, and keeps it a moment longer. What the socket tasks
    do with their sockets is in [Serving] and [Node]. *)
From S2P Require Import Prelude Text IpAddr Dns Cache SafeSearch Proc Result Shadow Db Pipeline Config.

Inductive Proto := Tcp | Udp.
#[export] Instance Proto_eq_dec : EqDecision Proto.
Proof. solve_decision. Defined.

Definition proto_name (p : Proto) : list Z := match p with Tcp => lit "tcp" | Udp => lit "udp" end.

Record Socket := mkSocket {
  so_proto : Proto;
  so_ipv6 : bool;                    (* the domain *)
  so_only_v6 : bool;
  so_reuse_address : bool;
  so_addr : option SocketAddr;       (* bound *)
  so_listening : bool;
  so_nonblocking : bool
}.

Definition is_ipv6 (a : SocketAddr) : bool := negb (is_ipv4 (sa_ip a)).

(** Addresses of one family overlap when they are equal or one of them is
    the wildcard. *)
Definition overlap (a b : IpAddr) : bool := bool_decide (a = b) || is_unspecified a || is_unspecified b.

(** What two bound sockets can dispute: protocol, port and address; across
    the families only an IPv6 socket that also takes IPv4. *)
Definition contend (s t : Socket) : bool :=
  match so_addr s, so_addr t with
  | Some a, Some b =>
      bool_decide (so_proto s = so_proto t) && (sa_port a =? sa_port b)
      && (if Bool.eqb (so_ipv6 s) (so_ipv6 t) then overlap (sa_ip a) (sa_ip b)
          else negb (if so_ipv6 s then so_only_v6 s else so_only_v6 t))
  | _, _ => false
  end.

(** Whether the host refuses to bind the first while the second is bound. *)
Class NetStack := {
  in_use : Socket -> Socket -> bool;
  in_use_contend : forall s t, in_use s t = true -> contend s t = true
}.

(** ** The process's sockets *)
Definition Fd := nat.

(** A spawned socket task and the socket it owns. *)
Record SocketTask := mkSocketTask { st_proto : Proto; st_fd : Fd }.

(** The [watch] channel: not created, with its sender alive and the value
    last sent, or without a sender. *)
Inductive Watch := NoWatch | Watching (told : bool) | SenderGone.

Record Net := mkNet {
  n_others : list Socket;            (* of other processes *)
  n_socks : gmap Fd Socket;
  n_next : Fd;
  n_tasks : list SocketTask;         (* running *)
  n_watch : Watch
}.

Definition set_socks (n : Net) (x : gmap Fd Socket) : Net := mkNet (n_others n) x (n_next n) (n_tasks n) (n_watch n).
Definition set_tasks (n : Net) (x : list SocketTask) : Net := mkNet (n_others n) (n_socks n) (n_next n) x (n_watch n).
Definition set_watch (n : Net) (x : Watch) : Net := mkNet (n_others n) (n_socks n) (n_next n) (n_tasks n) x.
Definition on_socket (n : Net) (fd : Fd) (f : Socket -> Socket) : Net := set_socks n (alter f fd (n_socks n)).
Definition close (n : Net) (fd : Fd) : Net := set_socks n (delete fd (n_socks n)).

(** ** Calls *)
Inductive NEv : Type -> Type :=
| NewSocket (ipv6 : bool) (ty : Proto) : NEv (Fd + list Z)
| SetOnlyV6 (fd : Fd) : NEv (unit + list Z)
| SetReuseAddress (fd : Fd) : NEv (unit + list Z)
| Bind (fd : Fd) (addr : SocketAddr) : NEv (unit + list Z)
| Listen (fd : Fd) (backlog : Z) : NEv (unit + list Z)
| SetNonblocking (fd : Fd) : NEv (unit + list Z)
| FromStd (fd : Fd) : NEv (unit + list Z)              (* the runtime's own socket *)
| LocalAddr (fd : Fd) : NEv (SocketAddr + list Z)
| Close (fd : Fd) : NEv unit
| WatchNew : NEv unit
| WatchSend (v : bool) : NEv unit
| WatchDrop : NEv unit                                 (* the sender *)
| SpawnSocketTask (t : SocketTask) : NEv unit
| AbortJoin (t : SocketTask) : NEv unit.               (* task.abort(); task.await *)

(** At one call: whether it fails by itself, the port the host picks for
    port 0 (never 0), and its text for a taken address. *)
Record NOracle := mkNOracle { no_fail : option (list Z); no_port : Z; no_taken : list Z }.

Definition called {A} (o : NOracle) (n : Net) (ok : A) (f : Net) : (A + list Z) * Net :=
  match no_fail o with Some e => (inr e, n) | None => (inl ok, f) end.

Definition bound_at (s : Socket) (a : SocketAddr) : Socket :=
  mkSocket (so_proto s) (so_ipv6 s) (so_only_v6 s) (so_reuse_address s) (Some a) (so_listening s) (so_nonblocking s).
Definition chosen_port (o : NOracle) (a : SocketAddr) : SocketAddr :=
  if sa_port a =? 0 then mkSocketAddr (sa_ip a) (Z.max 1 (no_port o)) else a.

Section Sockets.
Context `{NetStack}.

(** Every socket but [fd], of this process or another. *)
Definition taken (n : Net) (fd : Fd) (s : Socket) : bool :=
  existsb (in_use s) (n_others n) || existsb (fun x => in_use s (snd x)) (map_to_list (delete fd (n_socks n))).

Definition nexec (o : NOracle) (B : Type) (e : NEv B) (n : Net) : B * Net :=
  match e in NEv B return B * Net with
  | NewSocket ipv6 ty =>
      called o n (n_next n)
        (mkNet (n_others n) (<[n_next n := mkSocket ty ipv6 false false None false false]> (n_socks n)) (S (n_next n)) (n_tasks n) (n_watch n))
  | SetOnlyV6 fd =>
      called o n tt (on_socket n fd (fun s => mkSocket (so_proto s) (so_ipv6 s) true (so_reuse_address s) (so_addr s) (so_listening s) (so_nonblocking s)))
  | SetReuseAddress fd =>
      called o n tt (on_socket n fd (fun s => mkSocket (so_proto s) (so_ipv6 s) (so_only_v6 s) true (so_addr s) (so_listening s) (so_nonblocking s)))
  | Bind fd addr =>
      let addr := chosen_port o addr in
      match n_socks n !! fd with
      | Some s => if taken n fd (bound_at s addr) then (inr (no_taken o), n) else called o n tt (on_socket n fd (fun s => bound_at s addr))
      | None => (inr [], n)
      end
  | Listen fd _ =>
      called o n tt (on_socket n fd (fun s => mkSocket (so_proto s) (so_ipv6 s) (so_only_v6 s) (so_reuse_address s) (so_addr s) true (so_nonblocking s)))
  | SetNonblocking fd =>
      called o n tt (on_socket n fd (fun s => mkSocket (so_proto s) (so_ipv6 s) (so_only_v6 s) (so_reuse_address s) (so_addr s) (so_listening s) true))
  | FromStd fd => called o n tt n
  | LocalAddr fd =>
      (match no_fail o, s ← n_socks n !! fd; so_addr s with
       | Some e, _ => inr e
       | None, Some a => inl a
       | None, None => inr []
       end, n)
  | Close fd => (tt, close n fd)
  | WatchNew => (tt, set_watch n (Watching false))
  | WatchSend v => (tt, set_watch n (Watching v))
  | WatchDrop => (tt, set_watch n SenderGone)
  | SpawnSocketTask t => (tt, set_tasks n (n_tasks n ++ [t]))
  | AbortJoin t => (tt, close (set_tasks n (List.filter (fun u => negb (Nat.eqb (st_fd t) (st_fd u))) (n_tasks n))) (st_fd t))
  end.

(** The [rx.changed()] branch of the socket tasks: told to stop, or the
    sender is gone. All of them end, and their sockets close. *)
Definition tasks_end (n : Net) : Net :=
  match n_watch n with
  | Watching true | SenderGone => set_tasks (foldl (fun n t => close n (st_fd t)) n (n_tasks n)) []
  | _ => n
  end.
End Sockets.

(** ** The code *)
Section Serve.
Context `{IpDisplay}.
Notation Io := (Proc NEv).

(** A socket that goes out of scope when what follows fails. *)
Definition or_close {A} (fd : Fd) (p : Io (A + list Z)) : Io (A + list Z) :=
  r ← p;
  match r with
  | inl a => Ret (inl a)
  | inr e => _ ← event (Close fd); Ret (inr e)
  end.

Definition bind_error (addr : SocketAddr) (proto err : list Z) : list Z :=
  lit "cannot bind " ++ proto ++ lit " " ++ socket_addr_to_string (sa_ip addr) (sa_port addr) ++ lit ": " ++ err.

Definition new_socket (addr : SocketAddr) (ty : Proto) : Io (Fd + list Z) :=
  await? fd := err_into (bind_error addr (proto_name ty)) (event (NewSocket (is_ipv6 addr) ty)) in
  or_close fd
    (await? _ := (if is_ipv6 addr then err_into (bind_error addr (proto_name ty)) (event (SetOnlyV6 fd)) else Ret (inl tt)) in
     Ret (inl fd)).

Definition bind_tcp (addr : SocketAddr) : Io (Fd + list Z) :=
  await? fd := new_socket addr Tcp in
  or_close fd
    (await? _ := err_into (bind_error addr (lit "tcp")) (event (SetReuseAddress fd)) in
     await? _ := err_into (bind_error addr (lit "tcp")) (event (Bind fd addr)) in
     await? _ := err_into (bind_error addr (lit "tcp")) (event (Listen fd 1024)) in
     await? _ := err_into (bind_error addr (lit "tcp")) (event (SetNonblocking fd)) in
     await? _ := err_into (bind_error addr (lit "tcp")) (event (FromStd fd)) in
     Ret (inl fd)).

Definition bind_udp (addr : SocketAddr) : Io (Fd + list Z) :=
  await? fd := new_socket addr Udp in
  or_close fd
    (await? _ := err_into (bind_error addr (lit "udp")) (event (Bind fd addr)) in
     await? _ := err_into (bind_error addr (lit "udp")) (event (SetNonblocking fd)) in
     await? _ := err_into (bind_error addr (lit "udp")) (event (FromStd fd)) in
     Ret (inl fd)).

Record RunningServer := mkRunningServer {
  udp_addrs : list SocketAddr;
  tcp_addrs : list SocketAddr;
  rs_tasks : list SocketTask
}.

(** One configured address: TCP first, then UDP on its port. *)
Definition bind_pair (bind : SocketAddr) : Io ((Fd * Fd * SocketAddr * SocketAddr) + list Z) :=
  await? tcp := bind_tcp bind in
  or_close tcp
    (await? tcp_addr := event (LocalAddr tcp) in
     await? udp := bind_udp (mkSocketAddr (sa_ip bind) (sa_port tcp_addr)) in
     or_close udp
       (await? udp_addr := event (LocalAddr udp) in
        await? tcp_addr := event (LocalAddr tcp) in
        Ret (inl (tcp, udp, tcp_addr, udp_addr)))).

(** The loop over the configured addresses. *)
Fixpoint bind_all (binds : list SocketAddr) (s : RunningServer) : Io (RunningServer + list Z) :=
  match binds with
  | [] => Ret (inl s)
  | bind :: binds =>
      await? p := bind_pair bind in
      let '(tcp, udp, tcp_addr, udp_addr) := p in
      _ ← event (SpawnSocketTask (mkSocketTask Udp udp));
      _ ← event (SpawnSocketTask (mkSocketTask Tcp tcp));
      bind_all binds
        (mkRunningServer (udp_addrs s ++ [udp_addr]) (tcp_addrs s ++ [tcp_addr])
           (rs_tasks s ++ [mkSocketTask Udp udp; mkSocketTask Tcp tcp]))
  end.

(** [serve]: on an error the watch's sender goes with the rest. *)
Definition serve (binds : list SocketAddr) : Io (RunningServer + list Z) :=
  _ ← event WatchNew;
  r ← bind_all binds (mkRunningServer [] [] []);
  match r with
  | inl s => Ret (inl s)
  | inr e => _ ← event WatchDrop; Ret (inr e)
  end.

(** [RunningServer::shutdown] *)
Fixpoint abort_all (tasks : list SocketTask) : Io unit :=
  match tasks with
  | [] => Ret tt
  | t :: tasks => _ ← event (AbortJoin t); abort_all tasks
  end.
Definition shutdown (s : RunningServer) : Io unit :=
  _ ← event (WatchSend true);
  abort_all (rs_tasks s).
End Serve.
