(* ===== verification/Starter.v ===== *)
(** * Starter: the starter configuration ([starter_config] of [crates/core/src/config.rs])

    The commented text [init] writes, and that the daemon accepts it: what
    the text says, read as TOML, validates and puts exactly the lists of
    its profile in force. *)
From S2P Require Import Prelude Text IpAddr Cache SafeSearch Pipeline Result Config.

(** A text with an apostrophe for every double quote. *)
Definition quoted (s : string) : list Z := map (fun c => if c =? 39 then 34 else c) (lit s).

Definition profile_name (p : Profile) : list Z :=
  match p with Minimal => lit "minimal" | Balanced => lit "balanced" | Strict => lit "strict" end.

Definition starter_head : list Z := quoted "# sumidero configuration
# Generated for profile: ".
Definition starter_middle : list Z := quoted "
# See DESIGN.md for details.

[server]
# Sockets to bind (v4 + v6).
bind = ['0.0.0.0:53', '[::]:53']
# Client networks allowed to query; everything else is refused.
allow = ['192.168.0.0/16', '127.0.0.0/8', '::1/128']

[filtering]
# Base profile: minimal, balanced, or strict.
# Each profile expands to a curated set of blocklists (hagezi tiers).
profile = '".
Definition starter_tail : list Z := quoted "'
# Additional or overriding lists:
# [[filtering.lists]]
# name = 'my-custom-list'
# url = 'https://example.com/list.txt'
# Directory for downloaded list copies (must be absolute).
list_dir = '/var/lib/sumidero/lists'

[upstreams]
# DoH / DoQ upstream resolvers, queried in parallel.
servers = [
  'https://dns.cloudflare.com/dns-query',
  'https://dns.google/dns-query',
]
# Plain IPs for bootstrapping upstream hostname resolution.
bootstrap = ['1.1.1.1', '9.9.9.9']
# Per-attempt timeout in milliseconds (100..=30000).
timeout_ms = 3000

[database]
# SQLite file for query log and stats (must be absolute).
path = '/var/lib/sumidero/sumidero.sqlite'

# Answer cache. Freshness always follows the published TTLs.
# [cache]
# max_entries = 16384
# How long past its TTL an answer may be served (TTL 30) while it is
# refreshed; 0 disables serving stale, at most 259200 (3 days).
# serve_stale_secs = 43200
".

Definition starter_config (p : Profile) : list Z :=
  starter_head ++ profile_name p ++ starter_middle ++ profile_name p ++ starter_tail.

Section Starter.
Context `{ConfigOps}.

(** What the uncommented lines say; [nets] are the three networks. *)
Definition starter_value (p : Profile) (nets : list IpNet) : Config := mkConfig
  (mkServerConfig [mkSocketAddr (V4 [0; 0; 0; 0]) 53; mkSocketAddr (V6 [0; 0; 0; 0; 0; 0; 0; 0]) 53] nets)
  (mkFilteringConfig (Some p) [] (lit "/var/lib/sumidero/lists"))
  (mkUpstreamsConfig [lit "https://dns.cloudflare.com/dns-query"; lit "https://dns.google/dns-query"]
     [V4 [1; 1; 1; 1]; V4 [9; 9; 9; 9]] 3000)
  (mkDatabaseConfig (lit "/var/lib/sumidero/sumidero.sqlite"))
  (mkSafeSearchConfig false []) (mkTlsConfig []) cache_default.

(** The TOML reader reads the text as what it says. *)
Definition reads_starter (p : Profile) (nets : list IpNet) : Prop :=
  toml_from_str (starter_config p) = inl (starter_value p nets) /\ length nets = 3%nat.

Lemma starter_valid p nets : length nets = 3%nat -> validate (starter_value p nets) = inl tt.
Proof. destruct nets as [|a [|b [|c []]]]; try done. intros _. by destruct p. Qed.

Lemma starter_accepted p nets origin : reads_starter p nets -> from_toml (starter_config p) origin = inl (starter_value p nets).
Proof. intros (Ht & Hn). unfold from_toml. rewrite Ht, starter_valid by done. done. Qed.

Lemma starter_lists p nets : effective_lists (starter_value p nets) = profile_lists p.
Proof. done. Qed.
End Starter.

(** The text is ASCII and names the profile where the file is read. *)
Example starter_ascii : forallb (fun p => forallb (fun c => (0 <=? c) && (c <? 128)) (starter_config p)) [Minimal; Balanced; Strict] = true.
Proof. vm_compute. reflexivity. Qed.
