(* ===== verification/SocketsSpec.v ===== *)
(** * SocketsSpec: all addresses or none

    [serve] ends with both sockets of every configured address, on one
    port and with the tasks that own them, or with nothing left behind;
    an IPv6 socket never takes IPv4, so that addresses which do not overlap
    never get in each other's way. *)
From S2P Require Import Prelude Text IpAddr Dns Cache SafeSearch Proc Result Shadow Db Pipeline Config ConfigSpec Starter Sockets.

Section Spec.
Context `{NetStack} `{IpDisplay}.

(** The world's answers are [f o]: every one of them, or only some. *)
Context {O : Type} (f : O -> NOracle).
Notation run := (fun o => nexec (f o)).
Notation holds := (Proc.holds run).
Definition quiet : Prop := forall o, no_fail (f o) = None.

(** ** States *)

(** Fresh descriptors are fresh. *)
Definition wf (n : Net) : Prop := forall fd, is_Some (n_socks n !! fd) -> (fd < n_next n)%nat.

(** A bound IPv6 socket takes no IPv4. *)
Definition socket_ok (s : Socket) : Prop := is_Some (so_addr s) -> so_only_v6 s = so_ipv6 s.
Definition six_only (n : Net) : Prop := wf n /\ forall fd s, n_socks n !! fd = Some s -> socket_ok s.

(** [n] with one more socket. *)
Definition held (n : Net) (s : Socket) : Net := mkNet (n_others n) (<[n_next n := s]> (n_socks n)) (S (n_next n)) (n_tasks n) (n_watch n).
(** [n] again, but for the descriptors used up. *)
Definition back (n n' : Net) : Prop :=
  n_others n' = n_others n /\ n_socks n' = n_socks n /\ (n_next n <= n_next n')%nat /\ n_tasks n' = n_tasks n /\ n_watch n' = n_watch n.

Definition tcp_socket (a : SocketAddr) : Socket := mkSocket Tcp (is_ipv6 a) (is_ipv6 a) true (Some a) true true.
Definition udp_socket (a : SocketAddr) : Socket := mkSocket Udp (is_ipv6 a) (is_ipv6 a) false (Some a) false true.
(** As they are when they bind. *)
Definition binding (p : Proto) (a : SocketAddr) : Socket := mkSocket p (is_ipv6 a) (is_ipv6 a) (bool_decide (p = Tcp)) (Some a) false false.

(** The address asked for; the port only when it was 0. *)
Definition answers_to (asked got : SocketAddr) : Prop :=
  sa_ip got = sa_ip asked /\ sa_port got <> 0 /\ (sa_port asked <> 0 -> got = asked).
(** Some socket keeps [s] from its address. *)
Definition occupied (n : Net) (s : Socket) : bool :=
  existsb (in_use s) (n_others n) || existsb (fun x => in_use s (snd x)) (map_to_list (n_socks n)).

(** [n] with one more socket, whatever became of it. *)
Definition still (n n' : Net) : Prop := exists s, back (held n s) n'.

Lemma wf_fresh n : wf n -> n_socks n !! n_next n = None.
Proof. intros Hw. destruct (n_socks n !! n_next n) as [s|] eqn:E; [|done]. assert (Hl : (n_next n < n_next n)%nat) by (apply Hw; by exists s). lia. Qed.

Lemma held_wf n s : wf n -> wf (held n s).
Proof.
  intros Hw fd. cbn. destruct (decide (fd = n_next n)) as [->|Hn]; [lia|]. rewrite lookup_insert_ne by done. intros Hi. specialize (Hw fd Hi). lia.
Qed.
Lemma held_six n s : six_only n -> socket_ok s -> six_only (held n s).
Proof.
  intros (Hw & Hs) Hok. split; [by apply held_wf|]. intros fd x. cbn. destruct (decide (fd = n_next n)) as [->|Hn].
  - rewrite lookup_insert_eq. by intros [= <-].
  - rewrite lookup_insert_ne by done. apply Hs.
Qed.
Lemma back_refl n : back n n.
Proof. by repeat split. Qed.
Lemma back_six n n' : six_only n -> back n n' -> six_only n'.
Proof. intros (Hw & Hs) (_ & E & Hl & _). unfold six_only, wf. rewrite E. split; [|done]. intros fd Hi. specialize (Hw fd Hi). lia. Qed.
Lemma still_held n s : still n (held n s).
Proof. exists s. apply back_refl. Qed.
Lemma still_close n n' : wf n -> still n n' -> back n (close n' (n_next n)).
Proof.
  intros Hw (s & E1 & E2 & E3 & E4 & E5). cbn in *. split; [done|]. split; [|split; [cbn; lia|done]]. cbn. rewrite E2, delete_insert_id; [done|by apply wf_fresh].
Qed.
Lemma held_socket n s : n_socks (held n s) !! n_next n = Some s.
Proof. cbn. by rewrite lookup_insert_eq. Qed.
Lemma on_held n s g : on_socket (held n s) (n_next n) g = held n (g s).
Proof. unfold on_socket, held, set_socks. cbn. by rewrite alter_insert_eq. Qed.
Lemma taken_held n s x : wf n -> taken (held n s) (n_next n) x = occupied n x.
Proof. intros Hw. unfold taken, occupied. cbn. rewrite delete_insert_id; [done|by apply wf_fresh]. Qed.

(** ** Calls on the socket just made *)

(** A call that, when nothing fails, makes the socket [g' s]. *)
Definition plain_call (e : NEv (unit + list Z)) (n : Net) (g' : Socket -> Socket) : Prop :=
  forall o s, nexec o _ e (held n s) = called o (held n s) tt (held n (g' s)).

Lemma holds_plain (I : Net -> Prop) n s (e : NEv (unit + list Z)) (g : list Z -> list Z) g' Q :
  plain_call e n g' -> I (held n s) -> I (held n (g' s)) -> Q (inl tt) (held n (g' s)) ->
  (forall err, ~ quiet -> Q (inr (g err)) (held n s)) ->
  holds I (err_into g (event e)) Q (held n s).
Proof.
  intros Hp Hi Hi' Hok Herr. apply holds_err_into, holds_last; [done|]. intros o. rewrite Hp. unfold called.
  destruct (no_fail (f o)) as [err|] eqn:E; cbn; [|done]. split; [done|]. apply Herr. intros Hq. by rewrite Hq in E.
Qed.

Lemma plain_on n (e : NEv (unit + list Z)) g : (forall o m, nexec o _ e m = called o m tt (on_socket m (n_next n) g)) -> plain_call e n g.
Proof. intros He o s. by rewrite He, on_held. Qed.

(** [or_close] gives a socket back. *)
Lemma holds_or_close {A} (I : Net -> Prop) n s (p : Proc NEv (A + list Z)) Q :
  wf n -> (forall n', I n' -> I (close n' (n_next n))) ->
  holds I p (fun r n' => match r with inl a => Q (inl a) n' | inr e => still n n' /\ (forall n'', back n n'' -> Q (inr e) n'') end) (held n s) ->
  holds I (or_close (n_next n) p) Q (held n s).
Proof.
  intros Hw Hc Hp. apply holds_bind. apply holds_and_inv in Hp. revert Hp. apply holds_weaken; [done|].
  intros [a|e] n' (Hi & Hq); [by apply holds_ret|]. destruct Hq as (Hb & Hq). apply holds_event; [done|]. intros o. cbn [nexec fst snd].
  apply holds_ret; [by apply Hc|]. apply Hq. by apply still_close.
Qed.
Lemma close_six fd n : six_only n -> six_only (close n fd).
Proof.
  intros (Hw & Hs). split.
  - intros x. cbn. rewrite lookup_delete_is_Some. intros (_ & Hx). by apply Hw.
  - intros x s. cbn. rewrite lookup_delete_Some. intros (_ & Hx). by eapply Hs.
Qed.

(** ** One socket *)

(** The error names protocol and address; without failing calls the address
    was taken. *)
Definition bind_failed (p : Proto) (addr : SocketAddr) (n : Net) (e : list Z) : Prop :=
  (exists err, e = bind_error addr (proto_name p) err) /\ (quiet -> sa_port addr <> 0 -> occupied n (binding p addr) = true).

(** What binding one address of protocol [p] comes to. *)
Definition bound_as (p : Proto) (mk : SocketAddr -> Socket) (addr : SocketAddr) (n : Net) (r : Fd + list Z) (n' : Net) : Prop :=
  match r with
  | inl fd => fd = n_next n /\ exists a, n' = held n (mk a) /\ answers_to addr a
  | inr e => back n n' /\ bind_failed p addr n e
  end.

Lemma new_socket_holds addr ty n :
  six_only n ->
  holds six_only (new_socket addr ty)
    (fun r n' => match r with
                 | inl fd => fd = n_next n /\ n' = held n (mkSocket ty (is_ipv6 addr) (is_ipv6 addr) false None false false)
                 | inr e => back n n' /\ (exists err, e = bind_error addr (proto_name ty) err) /\ ~ quiet
                 end) n.
Proof.
  intros Hn. pose proof (proj1 Hn) as Hw. set (s := mkSocket ty (is_ipv6 addr) false false None false false).
  assert (Hs : six_only (held n s)) by (by apply held_six; [|intros []]).
  apply holds_await, holds_err_into, holds_last; [done|]. intros o. cbn [nexec]. unfold called. fold s. fold (held n s).
  destruct (no_fail (f o)) as [err|] eqn:E; cbn [fst snd map_err].
  { assert (Hnq : ~ quiet) by (intros Hq; by rewrite Hq in E). split; [done|]. split; [done|]. split; [by apply back_refl|]. split; [by exists err|done]. }
  split; [exact Hs|].
  apply holds_or_close; [done|intros n'; apply close_six|]. apply holds_await. unfold s in *. destruct (is_ipv6 addr) eqn:E6.
  - eapply holds_plain; [apply plain_on; intros; reflexivity|done|by apply held_six; [|intros []]| |].
    + apply holds_ret; [by apply held_six; [|intros []]|done].
    + intros err Hq. split; [done|]. split; [apply still_held|]. intros n'' Hb. split; [done|]. split; [by exists err|done].
  - apply holds_ret; [done|]. by apply holds_ret.
Qed.

Lemma chosen_answers o addr : answers_to addr (chosen_port o addr).
Proof. unfold answers_to, chosen_port. destruct (Z.eqb_spec (sa_port addr) 0); cbn; (split; [done|]; split; [lia|done]). Qed.

Lemma holds_bind_call n s addr (g : list Z -> list Z) Q :
  six_only n -> so_only_v6 s = so_ipv6 s ->
  (forall a, answers_to addr a -> Q (inl tt) (held n (bound_at s a))) ->
  (forall err, (quiet -> sa_port addr <> 0 -> occupied n (bound_at s addr) = true) -> Q (inr (g err)) (held n s)) ->
  holds six_only (err_into g (event (Bind (n_next n) addr))) Q (held n s).
Proof.
  intros Hn Hs Hok Herr. assert (Hi : forall a, six_only (held n (bound_at s a))) by (intros a; apply held_six; [done|by intros _]).
  assert (Hi0 : six_only (held n s)) by (apply held_six; [done|by intros _]).
  apply holds_err_into, holds_last; [done|]. intros o. cbn [nexec]. rewrite held_socket, taken_held by apply Hn.
  pose proof (chosen_answers (f o) addr) as Ha. destruct (occupied n (bound_at s (chosen_port (f o) addr))) eqn:Eo.
  - cbn [fst snd map_err]. split; [done|]. apply Herr. intros _ Hp. destruct Ha as (_ & _ & Ha). by rewrite Ha in Eo.
  - unfold called. destruct (no_fail (f o)) as [err|] eqn:E; cbn [fst snd map_err].
    + split; [done|]. apply Herr. intros Hq. by rewrite Hq in E.
    + rewrite on_held. split; [done|]. by apply Hok.
Qed.

(** The other calls on the socket. *)
Lemma holds_plain_try p n s (e : NEv (unit + list Z)) addr t g' {A} (k : Proc NEv (A + list Z)) (R : A + list Z -> Net -> Prop) :
  t = proto_name p -> plain_call e n g' -> six_only (held n s) -> six_only (held n (g' s)) ->
  (forall err, bind_failed p addr n err -> R (inr err) (held n s)) ->
  holds six_only k R (held n (g' s)) ->
  holds six_only (await? _ := err_into (bind_error addr t) (event e) in k) R (held n s).
Proof.
  intros -> Hp Hi Hi' He Hk. apply holds_await. eapply holds_plain; [exact Hp|done|done|done|]. intros err Hq. split; [done|].
  apply He. split; [by exists err|by intros Hq'].
Qed.

(** After [new_socket]. *)
Lemma bind_holds addr p mk n (k : Fd -> Proc NEv (Fd + list Z)) :
  six_only n ->
  holds six_only (k (n_next n))
    (fun r n' => match r with
                 | inl fd => bound_as p mk addr n (inl fd) n'
                 | inr e => still n n' /\ bind_failed p addr n e
                 end) (held n (mkSocket p (is_ipv6 addr) (is_ipv6 addr) false None false false)) ->
  holds six_only (await? fd := new_socket addr p in or_close fd (k fd)) (bound_as p mk addr n) n.
Proof.
  intros Hn Hk. apply holds_await. pose proof (new_socket_holds addr p n Hn) as Hs. apply holds_and_inv in Hs. revert Hs.
  apply holds_weaken; [done|]. intros [fd|e] n' (Hi & Hq).
  - destruct Hq as (-> & ->). apply holds_or_close; [apply Hn|intros m; apply close_six|]. revert Hk. apply holds_weaken; [done|].
    intros [fd|e] m; [done|]. intros (Hb & He). split; [done|]. by intros n'' Hb'.
  - split; [done|]. destruct Hq as (Hb & He & Hq). by split.
Qed.


Lemma unbound_ok p v6 r : socket_ok (mkSocket p v6 v6 r None false false).
Proof. by intros []. Qed.
Lemma same_ok p v6 r a l b : socket_ok (mkSocket p v6 v6 r a l b).
Proof. by intros _. Qed.

Ltac call p := eapply (holds_plain_try p);
  [reflexivity|first [apply plain_on; intros; reflexivity|by intros o s; instantiate (1 := fun s => s)]
  |by apply held_six; [|apply same_ok]|by apply held_six; [|apply same_ok]
  |intros err He; split; [apply still_held|exact He]|cbn [so_proto so_ipv6 so_only_v6 so_reuse_address so_addr so_listening so_nonblocking bound_at]].
Ltac call_bind := apply holds_await, holds_bind_call;
  [done|done| |intros err Ho; split; [by apply held_six; [|apply same_ok]|split; [apply still_held|split; [by exists err|exact Ho]]]].

Lemma answers_family addr a : answers_to addr a -> is_ipv6 addr = is_ipv6 a.
Proof. unfold is_ipv6. by intros (-> & _). Qed.

Lemma bind_tcp_holds addr n : six_only n -> holds six_only (bind_tcp addr) (bound_as Tcp tcp_socket addr n) n.
Proof.
  intros Hn. apply (bind_holds addr Tcp tcp_socket n (fun fd => _)); [done|]. call Tcp. call_bind. intros a Ha.
  rewrite (answers_family _ _ Ha). do 3 call Tcp. apply holds_ret; [by apply held_six; [|apply same_ok]|]. split; [done|]. by exists a.
Qed.

Lemma bind_udp_holds addr n : six_only n -> holds six_only (bind_udp addr) (bound_as Udp udp_socket addr n) n.
Proof.
  intros Hn. apply (bind_holds addr Udp udp_socket n (fun fd => _)); [done|]. call_bind. intros a Ha.
  rewrite (answers_family _ _ Ha). do 2 call Udp. apply holds_ret; [by apply held_six; [|apply same_ok]|]. split; [done|]. by exists a.
Qed.

(** ** One address *)
Lemma occupied_app n s l :
  occupied n s = false -> Forall (fun x => contend s x = false) l ->
  forall n', n_others n' = n_others n -> (forall fd x, n_socks n' !! fd = Some x -> n_socks n !! fd = Some x \/ x ∈ l) -> occupied n' s = false.
Proof.
  unfold occupied. intros Ho Hl n' -> Hs. apply orb_false_iff in Ho as (H1 & H2). rewrite H1. cbn [orb].
  destruct (existsb _ (map_to_list (n_socks n'))) eqn:E; [|done]. apply existsb_exists in E as ([fd x] & Hin & Hx). cbn in Hx.
  apply list_elem_of_In, elem_of_map_to_list in Hin. destruct (Hs fd x Hin) as [Hin'|Hin'].
  - rewrite <- H2. symmetry. apply existsb_exists. exists (fd, x). split; [by apply list_elem_of_In, elem_of_map_to_list|done].
  - apply in_use_contend in Hx. rewrite Forall_forall in Hl. by rewrite (Hl x Hin') in Hx.
Qed.

(** The sockets of an address and the tasks that own them. *)
Definition with_pair (n : Net) (a : SocketAddr) : Net := held (held n (tcp_socket a)) (udp_socket a).

Definition pair_as (bind : SocketAddr) (n : Net) (r : (Fd * Fd * SocketAddr * SocketAddr) + list Z) (n' : Net) : Prop :=
  match r with
  | inl (tcp, udp, tcp_addr, udp_addr) =>
      tcp = n_next n /\ udp = S (n_next n) /\ tcp_addr = udp_addr /\ answers_to bind tcp_addr /\ n' = with_pair n tcp_addr
  | inr e => back n n' /\ (quiet -> sa_port bind <> 0 -> occupied n (binding Tcp bind) = true \/ occupied n (binding Udp bind) = true)
  end.

Lemma local_addr_holds fd s a (Q : SocketAddr + list Z -> Net -> Prop) m :
  n_socks m !! fd = Some s -> so_addr s = Some a -> six_only m ->
  Q (inl a) m -> (forall e, ~ quiet -> Q (inr e) m) -> holds six_only (event (LocalAddr fd)) Q m.
Proof.
  intros Hfd Hs Hm Hok He. apply holds_last; [done|]. intros o. cbn [nexec fst snd]. split; [done|]. rewrite Hfd. cbn [mbind option_bind].
  rewrite Hs. destruct (no_fail (f o)) eqn:E; [apply He; intros Hq; by rewrite Hq in E|done].
Qed.

Lemma bind_pair_holds bind n : six_only n -> holds six_only (bind_pair bind) (pair_as bind n) n.
Proof.
  intros Hn. apply holds_await. pose proof (bind_tcp_holds bind n Hn) as Ht. apply holds_and_inv in Ht. revert Ht.
  apply holds_weaken; [done|]. intros [tcp|e] n' (Hi & Ht).
  2:{ destruct Ht as (Hb & _ & Hq). split; [done|]. split; [done|]. intros Hq1 Hp. left. by apply Hq. }
  destruct Ht as (-> & a & -> & Ha). apply holds_or_close; [apply Hn|intros m; apply close_six|].
  set (n1 := held n (tcp_socket a)) in *. assert (Hfresh : n_socks n !! n_next n = None) by apply wf_fresh, Hn.
  apply holds_await. eapply local_addr_holds; [apply held_socket|reflexivity|exact Hi| |].
  2:{ intros e Hq. split; [done|]. split; [apply still_held|]. intros n'' Hb. split; [done|]. intros Hq1. by destruct Hq. }
  assert (Eu : mkSocketAddr (sa_ip bind) (sa_port a) = a) by (destruct a, Ha as (E & _); cbn in *; by rewrite E). rewrite Eu. clear Eu.
  apply holds_await. pose proof (bind_udp_holds a n1 Hi) as Hu. apply holds_and_inv in Hu. revert Hu.
  apply holds_weaken; [done|]. intros [udp|e] n' (Hi' & Hu).
  2:{ destruct Hu as (Hb & _ & Hq). split; [done|]. split; [by exists (tcp_socket a)|]. intros n'' Hb'. split; [done|]. intros Hq1 Hp.
      destruct Ha as (Eip & Hp' & Ha). specialize (Ha Hp). subst a. specialize (Hq Hq1 Hp). right.
      destruct (occupied n (binding Udp bind)) eqn:Eo; [done|]. rewrite <- Hq. symmetry.
      apply (occupied_app n _ [tcp_socket bind]); [done|by repeat constructor|done|]. intros fd x. cbn. rewrite lookup_insert_Some.
      intros [(_ & <-)|(_ & Hx)]; [right; by left|by left]. }
  destruct Hu as (-> & b & -> & Hb). assert (b = a) as -> by (apply Hb, Ha).
  apply holds_or_close; [apply Hi|intros m; apply close_six|].
  assert (Hlater : forall m, back n1 m -> still n m) by (intros m Hm; by exists (tcp_socket a)).
  apply holds_await. eapply local_addr_holds; [apply held_socket|reflexivity|exact Hi'| |].
  2:{ intros e Hq. split; [done|]. split; [apply still_held|]. intros n'' Hb''. split; [by apply Hlater|]. intros n3 Hb3. split; [done|]. intros Hq1. by destruct Hq. }
  apply holds_await. eapply (local_addr_holds _ (tcp_socket a)); [|reflexivity|exact Hi'| |].
  - cbn. rewrite lookup_insert_ne by lia. by rewrite lookup_insert_eq.
  - apply holds_ret; [done|]. by split_and!.
  - intros e Hq. split; [done|]. split; [apply still_held|]. intros n'' Hb''. split; [by apply Hlater|]. intros n3 Hb3. split; [done|]. intros Hq1. by destruct Hq.
Qed.

(** ** All addresses *)
Definition pair_tasks (n : Net) : list SocketTask := [mkSocketTask Udp (S (n_next n)); mkSocketTask Tcp (n_next n)].
Definition serving_pair (n : Net) (a : SocketAddr) : Net := set_tasks (with_pair n a) (n_tasks n ++ pair_tasks n).
Fixpoint serving (n : Net) (l : list SocketAddr) : Net :=
  match l with [] => n | a :: l => serving (serving_pair n a) l end.
Fixpoint all_tasks (n : Net) (l : list SocketAddr) : list SocketTask :=
  match l with [] => [] | a :: l => pair_tasks n ++ all_tasks (serving_pair n a) l end.

Definition refused (n : Net) (b : SocketAddr) : Prop := occupied n (binding Tcp b) = true \/ occupied n (binding Udp b) = true.

(** Part of the way: the addresses served so far. *)
Definition stopped (binds : list SocketAddr) (n m : Net) : Prop :=
  exists l b rest k, binds = l ++ b :: rest /\ Forall2 answers_to l k /\ back (serving n k) m
    /\ (quiet -> sa_port b <> 0 -> refused (serving n k) b).

Lemma serving_pair_six n a : six_only n -> six_only (serving_pair n a).
Proof.
  intros Hn. assert (Hh : six_only (with_pair n a)) by (apply held_six; [apply held_six; [done|apply same_ok]|apply same_ok]). exact Hh.
Qed.

Lemma bind_all_holds binds : forall n s, six_only n ->
  holds six_only (bind_all binds s)
    (fun r m => match r with
                | inl s' => exists k, Forall2 answers_to binds k /\ m = serving n k
                    /\ s' = mkRunningServer (udp_addrs s ++ k) (tcp_addrs s ++ k) (rs_tasks s ++ all_tasks n k)
                | inr e => stopped binds n m
                end) n.
Proof.
  induction binds as [|b binds IH]; intros n s Hn; cbn [bind_all].
  { apply holds_ret; [done|]. exists []. split; [done|]. split; [done|]. destruct s. cbn. by rewrite !app_nil_r. }
  apply holds_await. pose proof (bind_pair_holds b n Hn) as Hp. apply holds_and_inv in Hp. revert Hp.
  apply holds_weaken; [done|]. intros [[[[tcp udp] ta] ua]|e] n' (Hi & Hp).
  2:{ destruct Hp as (Hb & Hq). split; [done|]. exists [], b, binds, []. split; [done|]. split; [constructor|]. split; [done|exact Hq]. }
  destruct Hp as (-> & -> & <- & Ha & ->).
  apply holds_event; [done|]. intros o. cbn [nexec fst snd]. apply holds_event; [exact Hi|]. intros o'. cbn [nexec fst snd].
  assert (E : set_tasks (set_tasks (with_pair n ta) (n_tasks (with_pair n ta) ++ [mkSocketTask Udp (S (n_next n))]))
    (n_tasks (set_tasks (with_pair n ta) (n_tasks (with_pair n ta) ++ [mkSocketTask Udp (S (n_next n))])) ++ [mkSocketTask Tcp (n_next n)])
    = serving_pair n ta) by (unfold serving_pair, pair_tasks, set_tasks; cbn; by rewrite <- app_assoc).
  rewrite E. clear E. eapply holds_weaken; [done| |apply IH, serving_pair_six, Hn]. intros [s'|e] m.
  - intros (k & Hk & -> & ->). exists (ta :: k). split; [by constructor|]. split; [done|]. cbn. by rewrite <- !app_assoc.
  - intros (l & b' & rest & k & -> & Hk & Hb & Hq). exists (b :: l), b', rest, (ta :: k). split; [done|]. split; [by constructor|]. by split.
Qed.

(** ** Letting go *)
Lemma serving_below n l fd : (fd < n_next n)%nat -> n_socks (serving n l) !! fd = n_socks n !! fd.
Proof.
  revert n. induction l as [|a l IH]; intros n Hlt; cbn [serving]; [done|]. rewrite IH by (cbn; lia). cbn.
  by rewrite !lookup_insert_ne by lia.
Qed.
Lemma serving_above n l fd : wf n -> (n_next n <= fd)%nat -> is_Some (n_socks (serving n l) !! fd) -> fd ∈ map st_fd (all_tasks n l).
Proof.
  revert n. induction l as [|a l IH]; intros n Hw Hle Hi; cbn [serving all_tasks] in *.
  { specialize (Hw fd Hi). lia. }
  rewrite map_app, elem_of_app. destruct (decide (fd = n_next n)) as [->|H1]; [left; right; by left|].
  destruct (decide (fd = S (n_next n))) as [->|H2]; [left; by left|]. right. apply IH; [|cbn; lia|done].
  apply (held_wf (held n (tcp_socket a))), held_wf, Hw.
Qed.
Lemma serving_others n l : n_others (serving n l) = n_others n /\ n_watch (serving n l) = n_watch n /\ n_tasks (serving n l) = n_tasks n ++ all_tasks n l.
Proof.
  revert n. induction l as [|a l IH]; intros n; cbn [serving all_tasks]; [by rewrite app_nil_r|]. destruct (IH (serving_pair n a)) as (-> & -> & ->).
  cbn. by rewrite <- app_assoc.
Qed.
Lemma all_tasks_above n l : Forall (fun t => (n_next n <= st_fd t)%nat) (all_tasks n l).
Proof.
  revert n. induction l as [|a l IH]; intros n; cbn [all_tasks]; [done|]. constructor; [cbn; lia|]. constructor; [cbn; lia|].
  eapply Forall_impl; [apply IH|]. cbn. lia.
Qed.

Lemma closes_socks ts : forall n, n_socks (foldl (fun n t => close n (st_fd t)) n ts) = foldl (fun m t => delete (st_fd t) m) (n_socks n) ts.
Proof. induction ts as [|t ts IH]; intros n; cbn; [done|]. by rewrite IH. Qed.
Lemma deletes_lookup ts fd : forall m : gmap Fd Socket,
  foldl (fun m t => delete (st_fd t) m) m ts !! fd = if decide (fd ∈ map st_fd ts) then None else m !! fd.
Proof.
  induction ts as [|t ts IH]; intros m; [done|]. change (foldl (fun m t => delete (st_fd t) m) m (t :: ts)) with (foldl (fun m t => delete (st_fd t) m) (delete (st_fd t) m) ts).
  rewrite IH. cbn [map]. destruct (decide (fd ∈ map st_fd ts)) as [Hin|Hin].
  - rewrite decide_True by by right. done.
  - destruct (decide (fd = st_fd t)) as [->|Hne].
    + rewrite lookup_delete_eq, decide_True by by left. done.
    + rewrite lookup_delete_ne by done. rewrite decide_False; [done|]. rewrite elem_of_cons. tauto.
Qed.

Lemma serving_freed n l m : wf n -> n_socks m = n_socks (serving n l) -> foldl (fun m t => delete (st_fd t) m) (n_socks m) (all_tasks n l) = n_socks n.
Proof.
  intros Hw E. apply map_eq. intros fd. rewrite deletes_lookup, E. destruct (decide (n_next n <= fd)%nat) as [Hle|Hlt].
  - assert (Hnone : n_socks n !! fd = None) by (destruct (n_socks n !! fd) eqn:E'; [|done]; assert (Hl : (fd < n_next n)%nat) by (apply Hw; by eexists); lia).
    rewrite Hnone. destruct (decide (fd ∈ map st_fd (all_tasks n l))) as [|Hno]; [done|]. destruct (n_socks (serving n l) !! fd) eqn:E'; [|done].
    destruct Hno. by apply serving_above; [..|eexists].
  - rewrite decide_False; [apply serving_below; lia|]. intros Hin. apply list_elem_of_In, in_map_iff in Hin as (t & <- & Ht). apply list_elem_of_In in Ht.
    pose proof (all_tasks_above n l) as Ha. rewrite Forall_forall in Ha. specialize (Ha t Ht). lia.
Qed.

Lemma abort_all_holds ts : forall m, six_only m ->
  holds six_only (abort_all ts)
    (fun _ m' => n_socks m' = foldl (fun m t => delete (st_fd t) m) (n_socks m) ts
       /\ forall t, t ∈ n_tasks m' -> t ∈ n_tasks m /\ t ∉ ts) m.
Proof.
  induction ts as [|t ts IH]; intros m Hm; cbn [abort_all].
  { apply holds_ret; [done|]. split; [done|]. intros t Ht. split; [done|by apply not_elem_of_nil]. }
  apply holds_event; [done|]. intros o. cbn [nexec fst snd]. eapply holds_weaken; [done| |apply IH; by apply close_six].
  intros _ m' (E & Ht). split; [done|]. intros u Hu. destruct (Ht u Hu) as (H1 & H2). cbn in H1.
  apply list_elem_of_In, filter_In in H1 as (H1 & H3). apply list_elem_of_In in H1. split; [done|]. rewrite elem_of_cons. intros [->|Hin]; [|done].
  by rewrite Nat.eqb_refl in H3.
Qed.

Lemma serve_holds binds n : six_only n ->
  holds six_only (serve binds)
    (fun r m => match r with
                | inl s => exists k, Forall2 answers_to binds k /\ m = serving (set_watch n (Watching false)) k
                    /\ s = mkRunningServer k k (all_tasks (set_watch n (Watching false)) k)
                | inr e => exists m0, stopped binds (set_watch n (Watching false)) m0 /\ m = set_watch m0 SenderGone
                end) n.
Proof.
  intros Hn. apply holds_event; [done|]. intros o. cbn [nexec fst snd]. apply holds_bind.
  assert (Hn' : six_only (set_watch n (Watching false))) by exact Hn.
  pose proof (bind_all_holds binds _ (mkRunningServer [] [] []) Hn') as Hb. apply holds_and_inv in Hb. revert Hb.
  apply holds_weaken; [done|]. intros [s|e] m (Hi & Hq); [by apply holds_ret|].
  apply holds_event; [done|]. intros o'. cbn [nexec fst snd]. apply holds_ret; [exact Hi|]. by exists m.
Qed.
End Spec.

(** ** Properties *)

(** Two configured addresses that cannot both be bound. *)
Definition clash (a b : SocketAddr) : bool :=
  (sa_port a =? sa_port b) && Bool.eqb (is_ipv6 a) (is_ipv6 b) && overlap (sa_ip a) (sa_ip b).
(** The world when no call fails by itself. *)
Definition undisturbed (q : Z * list Z) : NOracle := mkNOracle None (fst q) (snd q).
(** No other process is in the way of [b]. *)
Definition free_for (n : Net) (b : SocketAddr) : Prop :=
  Forall (fun s => contend (binding Tcp b) s = false /\ contend (binding Udp b) s = false) (n_others n).

Section Properties.
Context `{NetStack} `{IpDisplay}.

(** C38: [serve] binds every address or lets go of everything. Whatever the
    host answers: on success each configured address, in order, has its
    TCP and UDP socket on one port (the one asked for, unless it was 0),
    listening, owned by the two tasks spawned for it, and a later
    [shutdown] closes exactly these again; on an error the sockets not yet
    handed to a task are closed, and the tasks already spawned see their
    watch's sender gone and end, which leaves the process's sockets as they
    were. At no moment does a bound IPv6 socket take IPv4. *)
Theorem serve_all_or_nothing binds n :
  six_only n -> n_tasks n = [] ->
  Proc.holds nexec six_only (serve binds)
    (fun r m => match r with
                | inl s => tcp_addrs s = udp_addrs s /\ Forall2 answers_to binds (tcp_addrs s)
                    /\ m = serving (set_watch n (Watching false)) (tcp_addrs s)
                    /\ n_tasks m = rs_tasks s /\ length (rs_tasks s) = (2 * length binds)%nat
                    /\ Proc.holds nexec six_only (shutdown s) (fun _ m' => n_socks m' = n_socks n /\ n_tasks m' = []) m
                | inr _ => n_socks (tasks_end m) = n_socks n /\ n_tasks (tasks_end m) = []
                end) n.
Proof.
  intros Hn Ht. set (n1 := set_watch n (Watching false)). pose proof (serve_holds (fun o => o) binds n Hn) as Hs. apply holds_and_inv in Hs. revert Hs.
  apply holds_weaken; [done|]. intros [s|e] m (Hi & Hq).
  - destruct Hq as (k & Hk & -> & ->). cbn [tcp_addrs udp_addrs rs_tasks]. destruct (serving_others n1 k) as (_ & _ & E). fold n1 in Hi |- *.
    change (n_tasks n1) with (n_tasks n) in E. rewrite Ht in E. split; [done|]. split; [done|]. split; [done|]. split; [done|]. split.
    + rewrite (Forall2_length _ _ _ Hk). clear. generalize n1. induction k as [|a k IH]; intros n2; cbn [all_tasks length]; [done|].
      rewrite length_app, IH. cbn. lia.
    + apply holds_event; [done|]. intros o. cbn [nexec fst snd].
      eapply holds_weaken; [done| |apply (abort_all_holds (fun o => o)); exact Hi]. intros _ m' (E1 & E2). split.
      * rewrite E1. by apply (serving_freed n1 k); [apply Hn|].
      * destruct (n_tasks m') as [|t ts]; [done|]. destruct (E2 t) as (H1 & H2); [by left|]. cbn in H1. by rewrite E in H1.
  - destruct Hq as (m0 & (l & b & rest & k & _ & _ & (_ & E2 & _ & E4 & _) & _) & ->). unfold tasks_end. cbn [n_watch set_watch].
    split; [|done]. change (n_socks (foldl (fun n t => close n (st_fd t)) (set_watch m0 SenderGone) (n_tasks m0)) = n_socks n).
    rewrite closes_socks. change (n_socks (set_watch m0 SenderGone)) with (n_socks m0). rewrite E4. destruct (serving_others n1 k) as (_ & _ & E).
    fold n1. rewrite E. change (n_tasks n1) with (n_tasks n). rewrite Ht. by apply (serving_freed n1 k); [apply Hn|].
Qed.

Lemma serving_sockets l : forall n fd x, n_socks (serving n l) !! fd = Some x ->
  n_socks n !! fd = Some x \/ exists a, a ∈ l /\ (x = tcp_socket a \/ x = udp_socket a).
Proof.
  induction l as [|a l IH]; intros n fd x; cbn [serving]; [by left|]. intros Hx. destruct (IH _ _ _ Hx) as [Hl|(b & Hb & E)].
  - cbn in Hl. rewrite !lookup_insert_Some in Hl. destruct Hl as [(_ & <-)|(_ & [(_ & <-)|(_ & Hl)])]; [| |by left]; right; exists a; (split; [by left|auto]).
  - right. exists b. split; [by right|done].
Qed.

Lemma contend_clash p b a s : s = tcp_socket a \/ s = udp_socket a -> clash b a = false -> contend (binding p b) s = false.
Proof.
  intros Hs Hc. unfold contend, binding. assert (E : so_addr s = Some a /\ so_ipv6 s = is_ipv6 a /\ so_only_v6 s = is_ipv6 a) by (by destruct Hs as [-> | ->]).
  destruct E as (-> & -> & ->). cbn [so_addr so_proto so_ipv6 so_only_v6]. unfold clash in Hc.
  destruct (sa_port b =? sa_port a); [|by rewrite andb_false_r]. rewrite andb_true_r. cbn [andb] in Hc.
  destruct (is_ipv6 b), (is_ipv6 a); cbn in *; rewrite ?Hc; by rewrite ?andb_false_r.
Qed.

Lemma not_occupied n l b p :
  n_socks n = ∅ -> free_for n b -> Forall (fun a => clash b a = false) l -> occupied (serving n l) (binding p b) = false.
Proof.
  intros Hn Hf Hl. unfold occupied. destruct (serving_others n l) as (-> & _ & _). apply orb_false_iff. split.
  - destruct (existsb _ _) eqn:E; [|done]. apply existsb_exists in E as (s & Hin & Hs). apply list_elem_of_In in Hin. apply in_use_contend in Hs.
    unfold free_for in Hf. rewrite Forall_forall in Hf. destruct (Hf s Hin). destruct p; congruence.
  - destruct (existsb _ _) eqn:E; [|done]. apply existsb_exists in E as ([fd s] & Hin & Hs). apply list_elem_of_In, elem_of_map_to_list in Hin.
    apply in_use_contend in Hs. cbn [snd] in Hs. apply serving_sockets in Hin as [Hin|(a & Ha & Ea)]; [by rewrite Hn in Hin|].
    rewrite Forall_forall in Hl. by rewrite (contend_clash p b a s Ea (Hl a Ha)) in Hs.
Qed.

Lemma answers_exact l k : Forall (fun b => sa_port b <> 0) l -> Forall2 answers_to l k -> k = l.
Proof. intros Hp Hk. induction Hk as [|b a l k (_ & _ & E) Hk IH]; [done|]. inversion Hp; subst. f_equal; auto. Qed.

Lemma ordered_before {A} (R : A -> A -> Prop) l b rest : ForallOrdPairs R (l ++ b :: rest) -> Forall (fun a => R a b) l.
Proof.
  induction l as [|a l IH]; cbn; intros Hf; inversion Hf as [|? ? Ha Hr]; subst; constructor; [|by apply IH].
  rewrite Forall_forall in Ha. apply Ha. apply elem_of_app. right. by left.
Qed.

(** Addresses that do not overlap are all served. When no call fails
    by itself, no other process is in the way and no two configured
    addresses name the same port with overlapping addresses of one family,
    [serve] succeeds and reports exactly the configured addresses, for UDP
    and for TCP. (The wildcards of both families on port 53, which the
    starter configuration and [migrate] write, are such addresses.) *)
Theorem disjoint_addresses_served binds n :
  six_only n -> n_socks n = ∅ ->
  Forall (fun b => sa_port b <> 0) binds -> Forall (free_for n) binds ->
  ForallOrdPairs (fun a b => clash b a = false) binds ->
  Proc.holds (fun q => nexec (undisturbed q)) six_only (serve binds)
    (fun r _ => exists s, r = inl s /\ tcp_addrs s = binds /\ udp_addrs s = binds) n.
Proof.
  intros Hn He Hp Hf Hd. generalize (serve_holds undisturbed binds n Hn). apply holds_weaken; [done|]. intros [s|e] m.
  - intros (k & Hk & _ & ->). rewrite (answers_exact _ _ Hp Hk). by eexists.
  - intros (m0 & (l & b & rest & k & -> & Hk & _ & Hr) & _). exfalso. apply Forall_app in Hp as (Hp & Hpb). apply Forall_app in Hf as (_ & Hfb).
    rewrite (answers_exact _ _ Hp Hk) in Hr. inversion Hpb; inversion Hfb; subst. apply ordered_before in Hd.
    destruct Hr as [Hr|Hr]; [done|done| |]; rewrite not_occupied in Hr; done.
Qed.
End Properties.

(** The starter's addresses, and that [V6ONLY] is what keeps them apart. *)
Definition wildcards : list SocketAddr := [mkSocketAddr (V4 [0; 0; 0; 0]) 53; mkSocketAddr (V6 [0; 0; 0; 0; 0; 0; 0; 0]) 53].
Lemma wildcards_of_starter `{ConfigOps} p nets : bind_addrs (server (starter_value p nets)) = wildcards.
Proof. done. Qed.
Example wildcards_apart : ForallOrdPairs (fun a b => clash b a = false) wildcards.
Proof. repeat constructor. Qed.
Example dual_stack_contends :
  contend (tcp_socket (mkSocketAddr (V4 [0; 0; 0; 0]) 53))
    (mkSocket Tcp true false true (Some (mkSocketAddr (V6 [0; 0; 0; 0; 0; 0; 0; 0]) 53)) true true) = true.
Proof. reflexivity. Qed.

(** ** Witnesses: a host that refuses whatever contends. *)
#[local] Instance strict_host : NetStack := {| in_use := contend; in_use_contend := fun s t E => E |}.
#[local] Instance no_text : IpDisplay := {| ip_to_string := fun _ => [] |}.
Definition net_new : Net := mkNet [] ∅ 0%nat [] NoWatch.

Lemma net_new_six : six_only net_new.
Proof. split; [|done]. intros fd (s & Hs). cbn in Hs. by rewrite lookup_empty in Hs. Qed.

(** The port is taken by another resolver: the error names it. *)
Example port_taken :
  match Proc.perform nexec (mkNOracle None 0 (lit "in use")) (serve wildcards) (mkNet [udp_socket (mkSocketAddr (V4 [127; 0; 0; 53]) 53)] ∅ 0%nat [] NoWatch) with
  | Some (inr e, m) => e = lit "cannot bind udp :53: in use" /\ n_socks m = ∅
  | _ => False
  end.
Proof. vm_compute. split; reflexivity. Qed.

Lemma serve_all_or_nothing_witness :
  Proc.holds nexec six_only (serve wildcards)
    (fun r m => match r with inl s => length (rs_tasks s) = 4%nat | inr _ => n_socks (tasks_end m) = ∅ end) net_new.
Proof.
  refine (holds_weaken _ _ _ _ _ _ (fun s Hs => Hs) _ (serve_all_or_nothing wildcards net_new net_new_six eq_refl)).
  intros [s|e] m Hq; [exact (proj1 (proj2 (proj2 (proj2 (proj2 Hq)))))|exact (proj1 Hq)].
Defined.

Lemma disjoint_addresses_served_witness :
  Proc.holds (fun q => nexec (undisturbed q)) six_only (serve wildcards)
    (fun r _ => exists s, r = inl s /\ tcp_addrs s = wildcards /\ udp_addrs s = wildcards) net_new.
Proof.
  apply (disjoint_addresses_served wildcards net_new net_new_six eq_refl).
  - repeat constructor; discriminate.
  - repeat constructor.
  - apply wildcards_apart.
Defined.
