(* ===== verification/Lists.v ===== *)
(** * Lists: acquiring blocklists ([crates/core/src/lists.rs])

    Downloads with revalidation, stored copies and seeds, and the load that
    compiles them. File and network operations are events over a [Disk];
    [lexec] is their meaning, any of them failing when the [LOracle] says
    so (a failed write leaves what it wrote so far). The HTTP client is an
    answer of the oracle. *)
From S2P Require Import Prelude Text Time Num IpAddr FilterTypes Parse Engine Dns Cache SafeSearch Proc Shadow Pipeline Result Config Upstream.

(** Hickory's name errors, and the [Display] of an HTTP status ([404 Not
    Found]). *)
Class ListsOps := {
  name_error : list Z -> list Z;
  status_display : Z -> list Z
}.

Definition MAX_LIST_BYTES : Z := 64 * 1024 * 1024.
Definition CONNECT_TIMEOUT : Duration := from_secs 10.
Definition READ_TIMEOUT : Duration := from_secs 30.
Definition REQUEST_TIMEOUT : Duration := from_mins 3.

Inductive ListError :=
| Unavailable (name url reason : list Z)
| ReadList (name path source : list Z)
| NoSource (name : list Z)
| ListDir (path : list Z)
| ListDirCreate (path source : list Z)
| Client (e : list Z).

Definition list_error_text (e : ListError) : list Z :=
  match e with
  | Unavailable name url reason =>
      lit "list " ++ name ++ lit ": cannot fetch " ++ url ++ lit " and no stored copy exists: " ++ reason
  | ReadList name path source => lit "list " ++ name ++ lit ": cannot read " ++ path ++ lit ": " ++ source
  | NoSource name => lit "list " ++ name ++ lit ": has neither url nor path"
  | ListDir path => lit "list_dir " ++ path ++ lit " does not exist or is not writable"
  | ListDirCreate path source => lit "list_dir " ++ path ++ lit " could not be created: " ++ source
  | Client e => lit "cannot build the list HTTP client: " ++ e
  end.

Inductive ListOrigin :=
| Downloaded
| NotModified
| StoredAfterFetchFailure (reason : list Z)
| SeedAfterFetchFailure (reason : list Z)
| LocalFile
| StoredOffline
| SeedOffline.

Definition origin_as_str (o : ListOrigin) : list Z :=
  match o with
  | Downloaded => lit "downloaded"
  | NotModified => lit "not_modified"
  | StoredAfterFetchFailure _ => lit "stored_after_fetch_failure"
  | SeedAfterFetchFailure _ => lit "seed_after_fetch_failure"
  | LocalFile => lit "local_file"
  | StoredOffline => lit "stored_offline"
  | SeedOffline => lit "seed_offline"
  end.
Definition fetch_failed (o : ListOrigin) : bool :=
  match o with StoredAfterFetchFailure _ | SeedAfterFetchFailure _ => true | _ => false end.

Record ListReport := mkListReport {
  lr_name : list Z;
  lr_origin : ListOrigin;
  lr_rules : Z;
  lr_issues : Z;
  verified_age_secs : option Z
}.

Record LoadedLists := mkLoaded {
  ll_engine : Engine;
  ll_names : list (list Z);
  ll_hash : list Z;
  ll_issues : list (list Z * LineIssue);
  ll_reports : list ListReport
}.
Definition total_rules (l : LoadedLists) : Z := foldr (fun r n => lr_rules r + n) 0 (ll_reports l).

Record Acquired := mkAcquired { ac_text : list Z; ac_origin : ListOrigin; ac_age : option Z }.

(** ** Paths *)

(** [dir.join(rest)]: an absolute [rest] replaces [dir]. *)
Definition path_join (dir rest : list Z) : list Z :=
  if starts_with [c_slash] rest then rest
  else if ends_with [c_slash] dir || bool_decide (dir = []) then dir ++ rest else dir ++ [c_slash] ++ rest.

(** [path.with_extension("tmp")]: after the last dot of the file name, but
    not a leading one. *)
Definition with_extension_tmp (path : list Z) : list Z :=
  let cut := match rfind c_slash path with Some i => S i | None => 0%nat end in
  let file := drop cut path in
  let stem := match rfind c_dot file with Some (S i) => take (S i) file | _ => file end in
  take cut path ++ stem ++ lit ".tmp".

Definition stored_path_of (list_dir name : list Z) : list Z := path_join list_dir (name ++ lit ".txt").
Definition etag_path_of (list_dir name : list Z) : list Z := path_join list_dir (name ++ lit ".etag").

(** ** The disk and the network *)
Record File := mkFile { fl_bytes : list Z; fl_mtime : Instant }.
Record Disk := mkDisk { dk_files : gmap (list Z) File; dk_dirs : gset (list Z) }.

Record Response := mkResponse {
  rs_status : Z;
  rs_length : option Z;
  rs_etag : option (list Z);
  rs_chunks : list (list Z + list Z)   (* the body as it arrives, or why it stops *)
}.

Inductive LEv : Type -> Type :=
| IsDir (p : list Z) : LEv bool
| CreateDirAll (p : list Z) : LEv (unit + list Z)
| IsFile (p : list Z) : LEv bool
| ReadToString (p : list Z) : LEv (list Z + list Z)
| WriteFile (p bytes : list Z) : LEv (unit + list Z)
| RenameFile (a b : list Z) : LEv (unit + list Z)
| RemoveFile (p : list Z) : LEv (unit + list Z)
| Modified (p : list Z) : LEv (option Instant)
| TouchNow (p : list Z) : LEv (unit + list Z)
| SystemNow : LEv Instant
| HttpGet (url : list Z) (if_none_match : option (list Z)) : LEv (Response + list Z).

(** At one event: the clock, whether the operation fails (and how much a
    failing write wrote), what the server answers. *)
Record LOracle := mkLOracle {
  lo_now : Instant;
  lo_fail : option (list Z);
  lo_wrote : nat;
  lo_http : Response + list Z
}.

Definition put_file (d : Disk) (p bytes : list Z) (now : Instant) : Disk :=
  mkDisk (<[p := mkFile bytes now]> (dk_files d)) (dk_dirs d).

Definition lexec (o : LOracle) {B} (e : LEv B) (d : Disk) : B * Disk :=
  match e in LEv B return B * Disk with
  | IsDir p => (bool_decide (p ∈ dk_dirs d), d)
  | CreateDirAll p =>
      match lo_fail o with
      | Some err => (inr err, d)
      | None => (inl tt, mkDisk (dk_files d) ({[ p ]} ∪ dk_dirs d))
      end
  | IsFile p => (bool_decide (is_Some (dk_files d !! p)), d)
  | ReadToString p =>
      match lo_fail o, dk_files d !! p with
      | Some err, _ => (inr err, d)
      | None, None => (inr (lit "No such file or directory"), d)
      | None, Some f =>
          (if utf8_valid (fl_bytes f) then inl (fl_bytes f) else inr (lit "stream did not contain valid UTF-8"), d)
      end
  | WriteFile p bytes =>
      match lo_fail o with
      | Some err => (inr err, put_file d p (take (lo_wrote o) bytes) (lo_now o))
      | None => (inl tt, put_file d p bytes (lo_now o))
      end
  | RenameFile a b =>
      match lo_fail o, dk_files d !! a with
      | Some err, _ => (inr err, d)
      | None, None => (inr (lit "No such file or directory"), d)
      | None, Some f => (inl tt, mkDisk (<[b := f]> (delete a (dk_files d))) (dk_dirs d))
      end
  | RemoveFile p =>
      match lo_fail o with
      | Some err => (inr err, d)
      | None => (if decide (is_Some (dk_files d !! p)) then inl tt else inr (lit "No such file or directory"),
                 mkDisk (delete p (dk_files d)) (dk_dirs d))
      end
  | Modified p => (match lo_fail o with Some _ => None | None => fl_mtime <$> dk_files d !! p end, d)
  | TouchNow p =>
      match lo_fail o, dk_files d !! p with
      | Some err, _ => (inr err, d)
      | None, None => (inr (lit "No such file or directory"), d)
      | None, Some f => (inl tt, put_file d p (fl_bytes f) (lo_now o))
      end
  | SystemNow => (lo_now o, d)
  | HttpGet _ _ => (lo_http o, d)
  end.

Notation Io := (Proc LEv).

(** ** Files *)
Definition read_list (name path : list Z) : Io (list Z + ListError) :=
  text ← event (ReadToString path);
  Ret (map_err (ReadList name path) text).

(** Seconds since [path] was last modified. *)
Definition age_of (path : list Z) : Io (option Z) :=
  modified ← event (Modified path);
  match modified with
  | None => Ret None
  | Some m => now ← event SystemNow; Ret (Some (as_secs (duration_since now m)))
  end.

Definition write_atomic (path bytes : list Z) : Io (unit + list Z) :=
  let tmp := with_extension_tmp path in
  written ← event (WriteFile tmp bytes);
  match written with
  | inr e => Ret (inr e)
  | inl _ => event (RenameFile tmp path)
  end.

(** ** Fetching *)
Definition is_success (status : Z) : bool := (200 <=? status) && (status <=? 299).

(** The chunks into the body, bounded. *)
Fixpoint read_body (chunks : list (list Z + list Z)) (body : list Z) : list Z + list Z :=
  match chunks with
  | [] => inl body
  | inr e :: _ => inr e
  | inl chunk :: chunks =>
      if MAX_LIST_BYTES <? len body + len chunk
      then inr (lit "body larger than " ++ to_string MAX_LIST_BYTES ++ lit " bytes")
      else read_body chunks (body ++ chunk)
  end.

Section Lists.
Context `{ConfigOps} `{ListsOps} `{UnstableSort}.

Definition body_text (body : list Z) : list Z := match from_utf8 body with Some text => text | None => from_utf8_lossy body end.

(** The [If-None-Match] of a request. *)
Definition request_etag (stored_path etag_path : list Z) : Io (option (list Z)) :=
  stored ← event (IsFile stored_path);
  if stored : bool then
    etag ← event (ReadToString etag_path);
    Ret (match etag with
         | inl etag => if bool_decide (trim etag = []) then None else Some (trim etag)
         | inr _ => None
         end)
  else Ret None.

(** A body that holds rules goes to disk, then its ETag. *)
Definition store_body (text : list Z) (etag : option (list Z)) (stored_path etag_path : list Z) : Io unit :=
  written ← write_atomic stored_path text;
  match written with
  | inl _ =>
      match etag with
      | Some etag =>
          tagged ← write_atomic etag_path etag;
          match tagged with
          | inl _ => Ret tt
          | inr _ => _ ← event (RemoveFile etag_path); Ret tt
          end
      | None => _ ← event (RemoveFile etag_path); Ret tt
      end
  | inr _ => _ ← event (RemoveFile etag_path); Ret tt
  end.

Definition fetch_with_etag (url stored_path etag_path : list Z) : Io (Acquired + list Z) :=
  etag ← request_etag stored_path etag_path;
  response ← event (HttpGet url etag);
  match response with
  | inr e => Ret (inr e)
  | inl response =>
      if rs_status response =? 304 then
        text ← event (ReadToString stored_path);
        match text with
        | inr e => Ret (inr (lit "304 but the stored copy is unreadable: " ++ e))
        | inl text => _ ← event (TouchNow stored_path); Ret (inl (mkAcquired text NotModified (Some 0)))
        end
      else if negb (is_success (rs_status response)) then Ret (inr (lit "HTTP " ++ status_display (rs_status response)))
      else if match rs_length response with Some n => MAX_LIST_BYTES <? n | None => false end
      then Ret (inr (lit "body larger than " ++ to_string MAX_LIST_BYTES ++ lit " bytes"))
      else
        match read_body (rs_chunks response) [] with
        | inr e => Ret (inr e)
        | inl body =>
            let text := body_text body in
            let counts := count_rules text in
            if lc_rules counts =? 0
            then Ret (inr (lit "body holds no rules (" ++ to_string (lc_issues counts) ++ lit " rejected lines): refusing to store it"))
            else
              _ ← store_body text (rs_etag response) stored_path etag_path;
              Ret (inl (mkAcquired text Downloaded (Some 0)))
        end
  end.

(** ** Acquiring one list *)

(** [source.path.as_ref().filter(|p| p.is_file())] *)
Definition seed_of (source : ListSource) : Io (option (list Z)) :=
  match ls_path source with
  | None => Ret None
  | Some path => found ← event (IsFile path); Ret (if found : bool then Some path else None)
  end.

(** The text of [path] under an origin, or the read error. *)
Definition acquired_from (name path : list Z) (origin : ListOrigin) (age : Io (option Z)) : Io (Acquired + ListError) :=
  text ← read_list name path;
  match text with
  | inr e => Ret (inr e)
  | inl text => a ← age; Ret (inl (mkAcquired text origin a))
  end.

(** The stored copy, else the seed, else [reason]. *)
Definition stored_or_seed (name url stored_path : list Z) (seed : option (list Z)) (stored_origin seed_origin : ListOrigin)
  (reason : list Z) : Io (Acquired + ListError) :=
  stored ← event (IsFile stored_path);
  if stored : bool then acquired_from name stored_path stored_origin (age_of stored_path)
  else match seed with
       | Some seed => acquired_from name seed seed_origin (Ret None)
       | None => Ret (inr (Unavailable name url reason))
       end.

(** [online]: a fetcher was given. *)
Definition acquire_list (source : ListSource) (list_dir : list Z) (online : bool) : Io (Acquired + ListError) :=
  let name := ls_name source in
  match ls_url source with
  | None =>
      match ls_path source with
      | None => Ret (inr (NoSource name))
      | Some path => acquired_from name path LocalFile (Ret None)
      end
  | Some url =>
      let stored_path := stored_path_of list_dir name in
      let etag_path := etag_path_of list_dir name in
      seed ← seed_of source;
      if online then
        fetched ← fetch_with_etag url stored_path etag_path;
        match fetched with
        | inl acquired => Ret (inl acquired)
        | inr reason =>
            stored_or_seed name url stored_path seed (StoredAfterFetchFailure reason) (SeedAfterFetchFailure reason) reason
        end
      else stored_or_seed name url stored_path seed StoredOffline SeedOffline (lit "offline load and no stored copy")
  end.

(** ** Loading *)
Record Building := mkBuilding {
  bl_builder : Engine;
  bl_hashed : list Z;      (* what the hasher was fed *)
  bl_names : list (list Z);
  bl_issues : list (list Z * LineIssue);
  bl_reports : list ListReport
}.
Definition building_new : Building := mkBuilding engine_default [] [] [] [].

(** The body of the loop, once the list is acquired: a panic while
    compiling propagates. *)
Definition compile (b : Building) (name : list Z) (a : Acquired) : option Building :=
  '(added, builder) ← add_list_text (bl_builder b) (ac_text a);
  Some (mkBuilding builder (bl_hashed b ++ ac_text a) (bl_names b ++ [name])
    (bl_issues b ++ map (pair name) (added_issues added))
    (bl_reports b ++ [mkListReport name (ac_origin a) (added_rules added) (len (added_issues added)) (ac_age a)])).

Fixpoint load_loop (sources : list ListSource) (list_dir : list Z) (online : bool) (b : Building) : Io (Building + ListError) :=
  match sources with
  | [] => Ret (inl b)
  | source :: sources =>
      acquired ← acquire_list source list_dir online;
      match acquired with
      | inr e => Ret (inr e)
      | inl a => b ← expect (compile b (ls_name source) a); load_loop sources list_dir online b
      end
  end.

(** The checks on [list_dir]; offline loads create and write nothing. *)
Definition check_list_dir (list_dir : list Z) (online : bool) : Io (unit + ListError) :=
  created ← (if online then
               is_dir ← event (IsDir list_dir);
               if is_dir : bool then Ret (inl tt) else event (CreateDirAll list_dir)
             else Ret (inl tt));
  match created with
  | inr e => Ret (inr (ListDirCreate list_dir e))
  | inl _ =>
      is_dir ← event (IsDir list_dir);
      if negb is_dir then Ret (inr (ListDir list_dir))
      else if online then
        let probe := path_join list_dir (lit ".sumidero-probe") in
        written ← event (WriteFile probe []);
        match written with
        | inr _ => Ret (inr (ListDir list_dir))
        | inl _ => _ ← event (RemoveFile probe); Ret (inl tt)
        end
      else Ret (inl tt)
  end.

Definition load (sources : list ListSource) (list_dir : list Z) (online : bool) : Io (LoadedLists + ListError) :=
  checked ← check_list_dir list_dir online;
  match checked with
  | inr e => Ret (inr e)
  | inl _ =>
      built ← load_loop sources list_dir online building_new;
      match built with
      | inr e => Ret (inr e)
      | inl b =>
          engine ← expect (finish (bl_builder b));
          Ret (inl (mkLoaded engine (bl_names b) (hex_encode (sha256 (bl_hashed b))) (bl_issues b) (bl_reports b)))
      end
  end.
End Lists.

(** ** Resolving list hosts through the upstreams *)
Section Resolver.
Context `{HickoryOps} `{ListsOps} `{RcodeDisplay}.

Definition TYPE_A : Z := 1.
Definition TYPE_AAAA : Z := 28.
Definition qtype_text (qtype : Z) : list Z := if qtype =? TYPE_A then lit "A" else lit "AAAA".

(** [trim_end_matches('.')] *)
Fixpoint trim_start_dots (s : list Z) : list Z :=
  match s with c :: r => if c =? c_dot then trim_start_dots r else s | [] => [] end.
Definition trim_end_dots (s : list Z) : list Z := reverse (trim_start_dots (reverse s)).

Fixpoint addresses (records : list DnsRecord) : list IpAddr :=
  match records with
  | [] => []
  | r :: records =>
      match r_data r with
      | RA o => V4 o :: addresses records
      | RAAAA g => V6 g :: addresses records
      | _ => addresses records
      end
  end.

(** [ask] is [pool.resolve]. *)
Definition lookup (ask : Message -> Message + UpstreamError) (host : list Z) (qtype : Z) : list IpAddr + list Z :=
  match name_from_ascii (trim_end_dots host ++ lit ".") with
  | None => inr (host ++ lit ": " ++ name_error host)
  | Some name =>
      let query := set_meta (add_query (message_new 0 MQuery OpQuery) (mkQuery name qtype CLASS_IN)) (with_rd true) in
      match ask query with
      | inr e => inr (error_text e)
      | inl answer =>
          if negb (rcode answer =? NoError) then inr (qtype_text qtype ++ lit " " ++ rcode_display (rcode answer))
          else inl (addresses (answers answer))
      end
  end.

(** [UpstreamResolver::resolve]: A then AAAA, port 0. *)
Definition resolve_host (ask : Message -> Message + UpstreamError) (host : list Z) : list SocketAddr + list Z :=
  let v4 := lookup ask host TYPE_A in
  let v6 := lookup ask host TYPE_AAAA in
  let addrs := concat (map (fun r => match r with inl ips => map (fun ip => mkSocketAddr ip 0) ips | inr _ => [] end) [v4; v6]) in
  let errors := concat (map (fun r => match r with inl _ => [] | inr e => [e] end) [v4; v6]) in
  if bool_decide (addrs = []) then
    inr (host ++ lit ": not resolvable through the upstreams: "
         ++ (if bool_decide (errors = []) then lit "no A/AAAA records" else join_errors errors))
  else inl addrs.
End Resolver.
