(* ===== verification/ListsSpec.v ===== *)
(** * ListsSpec: what a list load promises

    [holds] follows the code from a disk through every outcome of every
    operation: an invariant of all the disks on the way (a crash may stop
    at any of them) and what is true at the end. With it: a fetch never
    loses the last good copy, offline loads write nothing, what one list's
    content comes from, and that a load compiles exactly what it acquired. *)
From S2P Require Import Prelude Text Time Num IpAddr FilterTypes Parse ParseSpec Engine Dns Cache SafeSearch Proc Shadow Pipeline Result Config Upstream Lists.

Notation holds := (Proc.holds (@lexec)).

(** Only reads. *)
Definition reads_only {B} (e : LEv B) : bool :=
  match e with CreateDirAll _ | WriteFile _ _ | RenameFile _ _ | RemoveFile _ | TouchNow _ => false | _ => true end.

Lemma lexec_reads o {B} (e : LEv B) d : reads_only e = true -> snd (lexec o e d) = d.
Proof. destruct e; cbn; try done; intros _. destruct (lo_fail o), (dk_files d !! p); done. Qed.

(** Code that only reads leaves the disk as it is. *)
Lemma holds_reads {A} (p : Proc LEv A) d :
  all_events (fun B e => reads_only e = true) p -> holds (fun d' => d' = d) p (fun _ d' => d' = d) d.
Proof.
  induction p as [a|B e k IH|]; cbn; [done| |done]. intros (He & Hk). split; [done|]. intros o. rewrite lexec_reads by done. by apply IH.
Qed.

(** ** Paths *)
Lemma with_extension_suffix p : exists x, with_extension_tmp p = x ++ lit ".tmp".
Proof. unfold with_extension_tmp. eexists. by rewrite app_assoc. Qed.

Lemma path_join_suffix d n s : exists x, path_join d (n ++ s) = x ++ s.
Proof.
  unfold path_join. destruct (starts_with _ _); [by exists n|].
  destruct (_ || _); [exists (d ++ n)|exists (d ++ [c_slash] ++ n)]; by rewrite <- ?app_assoc.
Qed.

Lemma suffix_differ (a b s t : list Z) : head (reverse s) <> head (reverse t) -> s <> [] -> t <> [] -> a ++ s <> b ++ t.
Proof.
  intros Hh Hs Ht He. apply (f_equal reverse) in He. rewrite !reverse_app in He.
  destruct (reverse s) as [|x s'] eqn:Es; [by apply Hs; rewrite <- (reverse_involutive s), Es|].
  destruct (reverse t) as [|y t'] eqn:Et; [by apply Ht; rewrite <- (reverse_involutive t), Et|].
  cbn in He, Hh. congruence.
Qed.

Lemma paths_differ list_dir name q :
  let stored := stored_path_of list_dir name in
  let etag := etag_path_of list_dir name in
  stored <> etag /\ with_extension_tmp q <> stored /\ with_extension_tmp q <> etag.
Proof.
  cbn zeta. unfold stored_path_of, etag_path_of. destruct (with_extension_suffix q) as (a & ->).
  destruct (path_join_suffix list_dir name (lit ".txt")) as (b & ->). destruct (path_join_suffix list_dir name (lit ".etag")) as (c & ->).
  split; [|split]; apply suffix_differ; vm_compute; try done; intros HF; discriminate HF.
Qed.

(** ** Fetching *)
Section Fetch.
Context `{ConfigOps} `{ListsOps} `{UnstableSort}.

Definition content (d : Disk) (p : list Z) : option (list Z) := fl_bytes <$> dk_files d !! p.

(** A text worth storing. *)
Definition has_rules (text : list Z) : Prop := lc_rules (count_rules text) <> 0.

(** Between [d0] and [d], a fetch of this list: the stored copy is the old
    one or a complete body with rules, and nothing else has changed but
    the list's ETag and its temporary files. *)
Definition fetch_keeps (stored_path etag_path : list Z) (d0 d : Disk) : Prop :=
  (content d stored_path = content d0 stored_path \/ exists text, has_rules text /\ content d stored_path = Some text)
  /\ (forall p, p <> stored_path -> p <> etag_path -> p <> with_extension_tmp stored_path -> p <> with_extension_tmp etag_path ->
       dk_files d !! p = dk_files d0 !! p)
  /\ dk_dirs d = dk_dirs d0.

(** How a fetch ends. *)
Definition fetched_as (stored_path : list Z) (d0 : Disk) (r : Acquired + list Z) (d : Disk) : Prop :=
  match r with
  | inl a =>
      ac_age a = Some 0
      /\ match ac_origin a with
         | Downloaded => has_rules (ac_text a)
             /\ (content d stored_path = Some (ac_text a) \/ content d stored_path = content d0 stored_path)
         | NotModified => content d0 stored_path = Some (ac_text a) /\ content d stored_path = Some (ac_text a)
         | _ => False
         end
  | inr _ => content d stored_path = content d0 stored_path
  end.

Context (stored_path etag_path : list Z).
Context (Hse : stored_path <> etag_path).
Context (Hts : forall q, with_extension_tmp q <> stored_path).
Notation keeps := (fetch_keeps stored_path etag_path).

Lemma keeps_refl d : keeps d d.
Proof. split; [by left|done]. Qed.

(** A change of a file that is not the stored copy. *)
Lemma keeps_other d0 d files :
  keeps d0 d ->
  (forall p, p <> etag_path -> p <> with_extension_tmp stored_path -> p <> with_extension_tmp etag_path -> files !! p = dk_files d !! p) ->
  keeps d0 (mkDisk files (dk_dirs d)).
Proof.
  intros (Hs & Ho & Hd) Hf. split; [|split; [|done]].
  - unfold content in *. cbn. rewrite Hf; [done|done|apply not_eq_sym, Hts|apply not_eq_sym, Hts].
  - intros p H1' H2' H3' H4'. cbn. rewrite Hf by done. by apply Ho.
Qed.

Lemma keeps_put d0 d p bytes now :
  keeps d0 d -> p = etag_path \/ p = with_extension_tmp stored_path \/ p = with_extension_tmp etag_path ->
  keeps d0 (put_file d p bytes now).
Proof. intros Hk Hp. apply keeps_other; [done|]. intros q ???. rewrite lookup_insert_ne; [done|]. naive_solver. Qed.

Lemma keeps_delete d0 d p :
  keeps d0 d -> p = etag_path \/ p = with_extension_tmp stored_path \/ p = with_extension_tmp etag_path ->
  keeps d0 (mkDisk (delete p (dk_files d)) (dk_dirs d)).
Proof. intros Hk Hp. apply keeps_other; [done|]. intros q ???. rewrite lookup_delete_ne; [done|]. naive_solver. Qed.

(** The atomic replacement of the stored copy. *)
Lemma write_stored d0 d text :
  keeps d0 d -> has_rules text -> content d stored_path = content d0 stored_path ->
  holds (keeps d0) (write_atomic stored_path text)
    (fun r d' => match r with inl _ => content d' stored_path = Some text | inr _ => content d' stored_path = content d0 stored_path end) d.
Proof.
  intros Hk Hr Hc. unfold write_atomic. apply holds_event; [done|]. intros o. cbn [lexec]. destruct (lo_fail o) as [err|]; cbn.
  - split; [apply keeps_put; auto|]. unfold content in *. cbn. by rewrite lookup_insert_ne.
  - assert (Hk' : keeps d0 (put_file d (with_extension_tmp stored_path) text (lo_now o))) by (apply keeps_put; auto).
    split; [done|]. intros o'. destruct (lo_fail o') as [err|]; cbn.
    + split; [done|]. unfold content in *. cbn. by rewrite lookup_insert_ne.
    + rewrite lookup_insert_eq. cbn. assert (Hs : forall m, content (mkDisk (<[stored_path := mkFile text (lo_now o)]> m) (dk_dirs d)) stored_path = Some text)
        by (intros m; unfold content; cbn; by rewrite lookup_insert_eq).
      split; [|apply Hs]. destruct Hk' as (_ & Ho & Hd). split; [right; exists text; split; [done|apply Hs]|]. split; [|done].
      intros p P1 P2 P3 P4. cbn. rewrite lookup_insert_ne, lookup_delete_ne by done. apply (Ho p P1 P2 P3 P4).
Qed.

(** The stored copy settled at [c], everything else kept. *)
Definition settled (c : option (list Z)) (d0 d : Disk) : Prop := keeps d0 d /\ content d stored_path = c.

Lemma settled_put c d0 d p bytes now :
  settled c d0 d -> p = etag_path \/ p = with_extension_tmp stored_path \/ p = with_extension_tmp etag_path ->
  settled c d0 (put_file d p bytes now).
Proof.
  intros (Hk & Hc) Hp. split; [by apply keeps_put|]. unfold content in *. cbn.
  rewrite lookup_insert_ne; [done|]. pose proof (Hts stored_path). pose proof (Hts etag_path). naive_solver.
Qed.

Lemma settled_delete c d0 d p :
  settled c d0 d -> p = etag_path \/ p = with_extension_tmp stored_path \/ p = with_extension_tmp etag_path ->
  settled c d0 (mkDisk (delete p (dk_files d)) (dk_dirs d)).
Proof.
  intros (Hk & Hc) Hp. split; [by apply keeps_delete|]. unfold content in *. cbn.
  rewrite lookup_delete_ne; [done|]. pose proof (Hts stored_path). pose proof (Hts etag_path). naive_solver.
Qed.

Lemma remove_etag c d0 d :
  settled c d0 d -> holds (keeps d0) (_ ← event (RemoveFile etag_path); Ret tt) (fun _ d' => settled c d0 d') d.
Proof.
  intros Hs. apply holds_event; [apply Hs|]. intros o.
  assert (Hs' : settled c d0 (snd (lexec o (RemoveFile etag_path) d)))
    by (cbn; destruct (lo_fail o); [done|apply settled_delete; auto]).
  apply holds_ret; [apply Hs'|done].
Qed.

Lemma write_etag c d0 d bytes :
  settled c d0 d -> holds (keeps d0) (write_atomic etag_path bytes) (fun _ d' => settled c d0 d') d.
Proof.
  intros Hs. unfold write_atomic. apply holds_event; [apply Hs|]. intros o. cbn [lexec]. destruct (lo_fail o) as [err|]; cbn [fst snd].
  - assert (Hp : settled c d0 (put_file d (with_extension_tmp etag_path) (take (lo_wrote o) bytes) (lo_now o))) by (apply settled_put; auto).
    apply holds_ret; [apply Hp|done].
  - assert (Hp : settled c d0 (put_file d (with_extension_tmp etag_path) bytes (lo_now o))) by (apply settled_put; auto).
    apply holds_last; [apply Hp|]. intros o'. cbn. destruct (lo_fail o'); cbn; [split; [apply Hp|done]|].
    rewrite lookup_insert_eq. cbn.
    pose proof (settled_put c d0 _ etag_path bytes (lo_now o) (settled_delete c d0 _ (with_extension_tmp etag_path) Hp ltac:(auto)) ltac:(auto)) as Hq.
    split; [apply Hq|exact Hq].
Qed.

Lemma store_body_keeps d0 d text etag :
  settled (content d0 stored_path) d0 d -> has_rules text ->
  holds (keeps d0) (store_body text etag stored_path etag_path)
    (fun _ d' => content d' stored_path = Some text \/ content d' stored_path = content d0 stored_path) d.
Proof.
  intros (Hk & Hc) Hr. unfold store_body. apply holds_bind.
  assert (Hw : holds (keeps d0) (write_atomic stored_path text)
    (fun r d' => keeps d0 d' /\ match r with inl _ => content d' stored_path = Some text | inr _ => content d' stored_path = content d0 stored_path end) d).
  { apply holds_and_inv. by apply write_stored. }
  revert Hw. apply holds_weaken; [done|]. intros [[]|e] d' (Hk' & Hc').
  - assert (Hs : settled (Some text) d0 d') by done. destruct etag as [etag|].
    + apply holds_bind. generalize (write_etag _ _ _ etag Hs). apply holds_weaken; [done|]. intros [[]|e] d2 Hs2.
      * apply holds_ret; [apply Hs2|]. left. apply Hs2.
      * generalize (remove_etag _ _ _ Hs2). apply holds_weaken; [done|]. intros _ d3 Hs3. left. apply Hs3.
    + generalize (remove_etag _ _ _ Hs). apply holds_weaken; [done|]. intros _ d3 Hs3. left. apply Hs3.
  - assert (Hs : settled (content d0 stored_path) d0 d') by done.
    generalize (remove_etag _ _ _ Hs). apply holds_weaken; [done|]. intros _ d3 Hs3. right. apply Hs3.
Qed.

(** Reading the stored copy. *)
Lemma read_file o p d :
  match fst (lexec o (ReadToString p) d) with inl text => content d p = Some text | inr _ => True end.
Proof.
  unfold content. cbn. destruct (lo_fail o); [done|]. destruct (dk_files d !! p) as [f|]; [|done]. by destruct (utf8_valid _).
Qed.

Lemma fetch_holds url d0 :
  holds (keeps d0) (fetch_with_etag url stored_path etag_path) (fetched_as stored_path d0) d0.
Proof.
  unfold fetch_with_etag. pose proof (keeps_refl d0) as Hk. apply holds_bind.
  assert (Hr : holds (fun d => d = d0) (request_etag stored_path etag_path) (fun _ d => d = d0) d0).
  { apply holds_reads. cbn. split; [done|]. intros []; cbn; [split; [done|]|done]. by intros []. }
  revert Hr. apply holds_weaken; [by intros ? ->|]. intros etag ? ->.
  apply holds_event; [done|]. intros o. cbn [lexec fst snd]. destruct (lo_http o) as [response|e]; [|by apply holds_ret].
  destruct (rs_status response =? 304).
  - apply holds_event; [done|]. intros o'. rewrite lexec_reads by done. pose proof (read_file o' stored_path d0) as Hc.
    destruct (fst (lexec o' _ d0)) as [text|e]; [|by apply holds_ret].
    apply holds_event; [done|]. intros o2. cbn. unfold content in Hc. destruct (lo_fail o2), (dk_files d0 !! stored_path) as [f|] eqn:Ef; cbn; try discriminate Hc.
    + split; [done|]. unfold content. rewrite Ef. done.
    + injection Hc as <-. assert (Hs : content (put_file d0 stored_path (fl_bytes f) (lo_now o2)) stored_path = content d0 stored_path)
        by (unfold content; cbn; by rewrite lookup_insert_eq, Ef).
      split; [|split; [done|]; unfold content; cbn; by rewrite lookup_insert_eq, Ef].
      split; [by left|]. split; [|done]. intros p P1 P2 P3 P4. cbn. by rewrite lookup_insert_ne.
  - destruct (negb _); [by apply holds_ret|]. destruct (match rs_length response with Some n => _ | None => _ end); [by apply holds_ret|].
    destruct (read_body _ _) as [body|e]; [|by apply holds_ret].
    destruct (lc_rules _ =? 0) eqn:Er; [by apply holds_ret|]. assert (Hr : has_rules (body_text body)) by (unfold has_rules; lia).
    apply holds_bind. generalize (holds_and_inv _ _ _ _ (store_body_keeps d0 d0 (body_text body) (rs_etag response) (conj Hk eq_refl) Hr)).
    apply holds_weaken; [done|]. intros _ d (Hkd & Hc). apply holds_ret; [done|]. done.
Qed.
End Fetch.

(** ** Acquiring *)

(** Where the content of one list comes from, between the disk [d0] before
    and [d] after: the cases of [ListOrigin] and of the errors. *)
Definition acquired_as (source : ListSource) (list_dir : list Z) (online : bool) (d0 : Disk) (r : Acquired + ListError) (d : Disk) : Prop :=
  let stored := stored_path_of list_dir (ls_name source) in
  let from_seed text := exists path, ls_path source = Some path /\ content d path = Some text in
  match r with
  | inl a =>
      match ac_origin a with
      | Downloaded | NotModified => online = true /\ fetched_as stored d0 (inl a) d
      | StoredAfterFetchFailure _ => online = true /\ content d0 stored = Some (ac_text a)
      | StoredOffline => online = false /\ content d0 stored = Some (ac_text a)
      | SeedAfterFetchFailure _ => online = true /\ content d0 stored = None /\ from_seed (ac_text a)
      | SeedOffline => online = false /\ content d0 stored = None /\ from_seed (ac_text a)
      | LocalFile => ls_url source = None /\ from_seed (ac_text a)
      end
  | inr (NoSource n) => n = ls_name source /\ ls_url source = None /\ ls_path source = None
  | inr (Unavailable n url _) =>
      n = ls_name source /\ ls_url source = Some url /\ content d0 stored = None
      /\ forall path, ls_path source = Some path -> content d0 path = None
  | inr (ReadList n path _) =>
      n = ls_name source /\ (ls_path source = Some path \/ path = stored /\ is_Some (content d stored))
  | inr _ => False
  end.

(** What may be on disk while a list is acquired. *)
Definition disk_rule (online : bool) (stored etag : list Z) (d0 d : Disk) : Prop :=
  if online then fetch_keeps stored etag d0 d else d = d0.

Section Acquire.
Context `{ConfigOps} `{ListsOps} `{UnstableSort}.

Lemma acquired_from_holds name path origin age I Q d :
  I d -> all_events (fun B e => reads_only e = true) age ->
  (forall e, Q (inr (ReadList name path e)) d) ->
  (forall text a, content d path = Some text -> Q (inl (mkAcquired text origin a)) d) ->
  holds I (acquired_from name path origin age) Q d.
Proof.
  intros Hi Hage He Ht. unfold acquired_from, read_list. apply holds_event; [done|]. intros o.
  rewrite lexec_reads by done. pose proof (read_file o path d) as Hc. destruct (fst (lexec o _ d)) as [text|e]; cbn -[holds].
  - apply holds_bind. generalize (holds_reads age d Hage). apply holds_weaken; [by intros ? ->|]. intros a ? ->.
    apply holds_ret; [done|]. by apply Ht.
  - apply holds_ret; [done|]. apply He.
Qed.

Lemma age_of_reads path : all_events (fun B (e : LEv B) => reads_only e = true) (age_of path).
Proof. cbn. split; [done|]. intros []; cbn; [|done]. split; [done|]. by intros []. Qed.

Lemma content_file d p : content d p = None <-> dk_files d !! p = None.
Proof. unfold content. by destruct (dk_files d !! p). Qed.

Lemma acquire_holds source list_dir online d0 :
  holds (disk_rule online (stored_path_of list_dir (ls_name source)) (etag_path_of list_dir (ls_name source)) d0)
    (acquire_list source list_dir online) (acquired_as source list_dir online d0) d0.
Proof.
  set (stored := stored_path_of list_dir (ls_name source)). set (etag := etag_path_of list_dir (ls_name source)).
  assert (Hi : disk_rule online stored etag d0 d0) by (destruct online; [apply keeps_refl|done]).
  unfold acquire_list. destruct (ls_url source) as [url|] eqn:Eu.
  2: { destruct (ls_path source) as [path|] eqn:Ep; [|apply holds_ret; [done|]; cbn; tauto].
    apply acquired_from_holds; [done|done| |]; cbn; [intros _; rewrite Ep; split; [done|by left]|].
    intros text _ Hc. split; [done|]. by exists path. }
  apply holds_bind.
  assert (Hs : holds (fun d => d = d0) (seed_of source)
    (fun seed d => d = d0 /\ match seed with Some p => ls_path source = Some p | None => forall p, ls_path source = Some p -> content d0 p = None end) d0).
  { unfold seed_of. destruct (ls_path source) as [p|]; [|split; [done|]; split; [done|]; by intros ? HF]. split; [done|]. intros o. cbn.
    destruct (dk_files d0 !! p) as [f|] eqn:Ef; cbn; (split; [done|]; split; [done|]); [done|]. intros ? [= <-]. by apply content_file. }
  revert Hs. apply holds_weaken; [by intros ? ->|]. intros seed ? (-> & Hseed). fold stored etag.
  assert (Hfall : forall d so sn reason, disk_rule online stored etag d0 d -> content d stored = content d0 stored ->
    (forall text a, acquired_as source list_dir online d0 (inl (mkAcquired text so a)) d <-> content d0 stored = Some text) ->
    (forall text a, acquired_as source list_dir online d0 (inl (mkAcquired text sn a)) d
       <-> content d0 stored = None /\ exists path, ls_path source = Some path /\ content d path = Some text) ->
    holds (disk_rule online stored etag d0) (stored_or_seed (ls_name source) url stored seed so sn reason)
      (acquired_as source list_dir online d0) d).
  { intros d so sn reason Hd Hsame Hso Hsn. unfold stored_or_seed. apply holds_event; [done|]. intros o. cbn [lexec fst snd].
    destruct (dk_files d !! stored) as [f|] eqn:Ef.
    - rewrite bool_decide_true by done. apply acquired_from_holds; [done|apply age_of_reads| |].
      + intros e. cbn. split; [done|]. right. split; [done|]. fold stored. unfold content. rewrite Ef. done.
      + intros text a Hc. apply Hso. by rewrite <- Hsame.
    - rewrite bool_decide_false by (intros (? & HF); discriminate HF).
      assert (Hn : content d0 stored = None) by (rewrite <- Hsame; by apply content_file).
      destruct seed as [path|].
      + apply acquired_from_holds; [done|done| |].
        * intros e. cbn. split; [done|]. by left.
        * intros text a Hc. apply Hsn. split; [done|]. by exists path.
      + apply holds_ret; [done|]. cbn. rewrite Eu. done. }
  destruct online.
  - destruct (paths_differ list_dir (ls_name source) stored) as (Hse & _ & _).
    apply holds_bind. generalize (holds_and_inv _ _ _ _ (fetch_holds stored etag Hse
      (fun q => proj1 (proj2 (paths_differ list_dir (ls_name source) q))) url d0)).
    apply holds_weaken; [done|]. intros [a|reason] d (Hk & Hf).
    + apply holds_ret; [done|]. cbn in Hf |- *. destruct Hf as (Ha & Hf). destruct (ac_origin a) eqn:Eo; try done; (split; [done|]; cbn; by rewrite ?Eo).
    + apply Hfall; [done|done| |]; intros text a; cbn; naive_solver.
  - apply Hfall; [done|done| |]; intros text a; cbn; naive_solver.
Qed.
End Acquire.

(** ** What the server said

    The same operations, the requests and their answers kept in order. *)
Definition Exchange : Type := list Z * option (list Z) * (Response + list Z).
Definition asks {B} (e : LEv B) : B -> list Exchange :=
  match e in LEv B return B -> list Exchange with HttpGet url tag => fun answer => [(url, tag, answer)] | _ => fun _ => [] end.
Definition lexec_logged (o : LOracle) {B} (e : LEv B) (s : Disk * list Exchange) : B * (Disk * list Exchange) :=
  let '(b, d) := lexec o e (fst s) in (b, (d, snd s ++ asks e b)).
Notation holds_logged := (Proc.holds (@lexec_logged)).

Definition quiet {B} (e : LEv B) : bool := match e with HttpGet _ _ => false | _ => true end.

Lemma lexec_logged_eq o {B} (e : LEv B) d log :
  lexec_logged o e (d, log) = (fst (lexec o e d), (snd (lexec o e d), log ++ asks e (fst (lexec o e d)))).
Proof. unfold lexec_logged. cbn [fst snd]. by destruct (lexec o e d). Qed.

(** What holds of the disk holds with the log beside it. *)
Lemma holds_logged_disk {A} I (p : Proc LEv A) Q d log :
  holds I p Q d -> holds_logged (fun s => I (fst s)) p (fun a s => Q a (fst s)) (d, log).
Proof.
  revert d log. induction p as [a|B e k IH|]; intros d log; cbn; [done| |done]. intros (Hi & Hk). split; [done|].
  intros o. rewrite lexec_logged_eq. apply IH, Hk.
Qed.

(** Code that asks nothing leaves the log alone. *)
Lemma holds_logged_quiet {A} (P : A -> Prop) (p : Proc LEv A) d log :
  all_events (fun B e => quiet e = true) p -> all_results P p ->
  holds_logged (fun _ => True) p (fun a s => snd s = log /\ P a) (d, log).
Proof.
  revert d. induction p as [a|B e k IH|]; intros d; cbn; [by split| |done]. intros (He & Hk) Hp. split; [done|].
  intros o. rewrite lexec_logged_eq. replace (asks e _) with (@nil Exchange) by (by destruct e). rewrite app_nil_r. by apply IH.
Qed.

Section Served.
Context `{ConfigOps} `{ListsOps} `{UnstableSort}.

(** An answer delivers a text: it is a success, neither declared nor found
    larger than [MAX_LIST_BYTES], its body arrives whole, and holds rules. *)
Definition delivers (answer : Response + list Z) (text : list Z) : Prop :=
  exists response chunks, answer = inl response
    /\ 200 <= rs_status response <= 299
    /\ (forall n, rs_length response = Some n -> n <= MAX_LIST_BYTES)
    /\ rs_chunks response = map inl chunks /\ len (concat chunks) <= MAX_LIST_BYTES
    /\ text = body_text (concat chunks) /\ has_rules text.

(** An answer that brings no text: a transport error is the reason itself. *)
Definition brings_nothing (answer : Response + list Z) (reason : list Z) : Prop :=
  (forall text, ~ delivers answer text) /\ forall e, answer = inr e -> reason = e.

(** A request is conditional only on the stored ETag of a stored copy. *)
Definition conditional_on (stored_path etag_path : list Z) (d : Disk) (tag : option (list Z)) : Prop :=
  forall t, tag = Some t -> is_Some (content d stored_path) /\ exists raw, content d etag_path = Some raw /\ t = trim raw /\ t <> [].

Definition replied (answer : Response + list Z) (r : Acquired + list Z) : Prop :=
  match r with
  | inl a =>
      match ac_origin a with
      | Downloaded => delivers answer (ac_text a)
      | NotModified => exists response, answer = inl response /\ rs_status response = 304
      | _ => False
      end
  | inr reason => brings_nothing answer reason
  end.

(** What one acquisition asks, and what its result owes to the answer. *)
Definition served (source : ListSource) (list_dir : list Z) (online : bool) (d0 : Disk) (r : Acquired + ListError) (log : list Exchange) : Prop :=
  match ls_url source, online with
  | Some url, true => exists tag answer, log = [(url, tag, answer)]
      /\ conditional_on (stored_path_of list_dir (ls_name source)) (etag_path_of list_dir (ls_name source)) d0 tag
      /\ match r with
         | inl a =>
             match ac_origin a with
             | Downloaded | NotModified => replied answer (inl a)
             | StoredAfterFetchFailure reason | SeedAfterFetchFailure reason => brings_nothing answer reason
             | _ => False
             end
         | inr (Unavailable _ _ reason) => brings_nothing answer reason
         | inr (ReadList _ _ _) => exists reason, brings_nothing answer reason
         | inr _ => False
         end
  | _, _ => log = [] /\ match r with
                       | inl a => ac_origin a = LocalFile \/ ac_origin a = StoredOffline \/ ac_origin a = SeedOffline
                       | inr _ => True
                       end
  end.

Lemma read_body_spec chunks body text :
  len body <= MAX_LIST_BYTES ->
  read_body chunks body = inl text <-> exists cs, chunks = map inl cs /\ text = body ++ concat cs /\ len text <= MAX_LIST_BYTES.
Proof.
  revert body. induction chunks as [|[c|e] chunks IH]; intros body Hb; cbn [read_body].
  - split; [intros [= <-]; exists []; by rewrite app_nil_r|]. intros ([|? ?] & Hc & -> & _); [by rewrite app_nil_r|done].
  - assert (Hsnoc : len (body ++ c) = len body + len c) by (unfold len; rewrite length_app; lia).
    destruct (Z.ltb_spec MAX_LIST_BYTES (len body + len c)) as [Hlt|Hle].
    + split; [done|]. intros ([|c' cs] & Hc & -> & Hl); [done|]. injection Hc as <- _. cbn [concat] in Hl.
      rewrite app_assoc in Hl. unfold len in *. rewrite length_app in Hl. lia.
    + rewrite IH by lia. split.
      * intros (cs & -> & -> & Hl). exists (c :: cs). cbn [map concat]. by rewrite app_assoc.
      * intros ([|c' cs] & Hc & -> & Hl); [done|]. injection Hc as <- Hc. exists cs. cbn [concat] in *. by rewrite app_assoc in *.
  - split; [done|]. intros ([|? ?] & Hc & _); done.
Qed.

Lemma quiet_write_atomic path bytes : all_events (fun B (e : LEv B) => quiet e = true) (write_atomic path bytes).
Proof. cbn. split; [done|]. by intros []. Qed.

Lemma quiet_store_body text tag stored etag : all_events (fun B (e : LEv B) => quiet e = true) (store_body text tag stored etag).
Proof.
  unfold store_body. apply all_events_bind; [apply quiet_write_atomic|]. intros [[]|e]; [|by split].
  destruct tag; [|by split]. apply all_events_bind; [apply quiet_write_atomic|]. by intros [[]|e]; [|split].
Qed.

Lemma request_etag_from stored etag d0 :
  holds (fun d => d = d0) (request_etag stored etag) (fun tag d => d = d0 /\ conditional_on stored etag d0 tag) d0.
Proof.
  unfold request_etag. apply holds_event; [done|]. intros o. cbn [lexec fst snd].
  destruct (dk_files d0 !! stored) as [f|] eqn:Ef; [|by apply holds_ret].
  rewrite bool_decide_true by done. apply holds_event; [done|]. intros o'. rewrite lexec_reads by done.
  pose proof (read_file o' etag d0) as Hc. destruct (fst (lexec o' _ d0)) as [raw|e]; (apply holds_ret; [done|]); (split; [done|]); [|done].
  intros t. case_bool_decide as Et; [done|]. intros [= <-]. split; [unfold content; by rewrite Ef|]. by exists raw.
Qed.

Lemma quiet_request_etag stored etag : all_events (fun B (e : LEv B) => quiet e = true) (request_etag stored etag).
Proof. cbn. split; [done|]. intros []; cbn; [split; [done|]|done]. by intros []. Qed.

(** An answer that is not a success, is too long, stops, or holds nothing. *)
Lemma undelivered response reason :
  (forall chunks, 200 <= rs_status response <= 299 -> (forall n, rs_length response = Some n -> n <= MAX_LIST_BYTES) ->
     read_body (rs_chunks response) [] = inl (concat chunks) -> ~ has_rules (body_text (concat chunks))) ->
  brings_nothing (inl response) reason.
Proof.
  intros Hno. split; [|done]. intros text (response' & chunks & Hr & Hs & Hl & Hc & Hb & -> & Ht). injection Hr as <-.
  eapply Hno; [done|done| |exact Ht]. apply read_body_spec; [done|]. by exists chunks.
Qed.

Lemma fetch_served url stored etag d0 log :
  holds_logged (fun _ => True) (fetch_with_etag url stored etag)
    (fun r s => exists tag answer, snd s = log ++ [(url, tag, answer)] /\ conditional_on stored etag d0 tag /\ replied answer r) (d0, log).
Proof.
  unfold fetch_with_etag. apply holds_bind.
  generalize (holds_and _ _ _ _ _ _ (holds_logged_disk _ _ _ d0 log (request_etag_from stored etag d0))
    (holds_logged_quiet (fun _ => True) _ d0 log (quiet_request_etag stored etag) (all_results_true _))).
  apply holds_weaken; [done|]. intros tag [d log'] ((Hd & Hcond) & Hlog & _). cbn [fst snd] in Hd, Hlog. subst d log'.
  apply holds_event; [done|]. intros o. rewrite lexec_logged_eq. cbn [fst snd lexec asks]. set (answer := lo_http o).
  match goal with |- Proc.holds _ _ ?p _ _ => assert (Hp : all_events (fun B (e : LEv B) => quiet e = true) p /\ all_results (replied answer) p) end.
  { destruct answer as [response|e]; [|by split; [|split; [intros ? (? & ? & ? & _)|intros ? [= <-]]]].
    destruct (Z.eqb_spec (rs_status response) 304) as [E|E].
    - assert (Hno : forall reason, brings_nothing (inl response) reason) by (intros reason; apply undelivered; lia).
      split; [cbn; split; [done|]; by intros []|]. cbn. intros [text|e]; cbn; [|apply Hno]. intros _. by exists response.
    - unfold is_success. destruct (Z.leb_spec 200 (rs_status response)); [destruct (Z.leb_spec (rs_status response) 299)|]; cbn [andb negb];
        [|by split; [|apply undelivered; lia]..].
      destruct (match rs_length response with Some n => _ | None => _ end) eqn:El.
      { split; [done|]. apply undelivered. intros chunks _ Hl. destruct (rs_length response) as [n|]; [|done]. specialize (Hl n eq_refl). lia. }
      destruct (read_body (rs_chunks response) []) as [body|e] eqn:Eb; [|by split; [|apply undelivered; intros chunks _ _; rewrite Eb]].
      destruct (lc_rules (count_rules (body_text body)) =? 0) eqn:Er.
      { split; [done|]. apply undelivered. intros chunks _ _. rewrite Eb. intros [= <-]. unfold has_rules. lia. }
      split; [apply all_events_bind; [apply quiet_store_body|done]|]. apply all_results_seq. intros _. cbn.
      apply read_body_spec in Eb as (chunks & Hc & -> & Hb); [|done]. exists response, chunks. split; [done|]. split; [lia|].
      split; [intros n Hn; rewrite Hn in El; lia|]. split; [done|]. split; [done|]. split; [done|]. by apply Z.eqb_neq in Er. }
  generalize (holds_logged_quiet (replied answer) _ d0 (log ++ [(url, tag, answer)]) (proj1 Hp) (proj2 Hp)).
  apply holds_weaken; [done|]. intros r s (Hl & Hr). by exists tag, answer.
Qed.

Lemma quiet_acquired_from name path origin age :
  all_events (fun B (e : LEv B) => quiet e = true) age -> all_events (fun B (e : LEv B) => quiet e = true) (acquired_from name path origin age).
Proof. intros Ha. unfold acquired_from. cbn. split; [done|]. intros [text|e]; cbn; [|done]. by apply all_events_bind. Qed.

Lemma acquired_from_results name path origin age :
  all_results (fun r => match r with inl a => ac_origin a = origin | inr e => exists source, e = ReadList name path source end)
    (acquired_from name path origin age).
Proof. unfold acquired_from. cbn. intros [text|e]; cbn; [|by exists e]. apply all_results_seq. by intros a. Qed.

(** What a fallback gives. *)
Definition fell_back (so sn : ListOrigin) (reason : list Z) (r : Acquired + ListError) : Prop :=
  match r with
  | inl a => ac_origin a = so \/ ac_origin a = sn
  | inr (Unavailable _ _ why) => why = reason
  | inr (ReadList _ _ _) => True
  | inr _ => False
  end.

Lemma stored_or_seed_quiet name url stored seed so sn reason :
  all_events (fun B (e : LEv B) => quiet e = true) (stored_or_seed name url stored seed so sn reason)
  /\ all_results (fell_back so sn reason) (stored_or_seed name url stored seed so sn reason).
Proof.
  assert (Hweak : forall path origin age, origin = so \/ origin = sn ->
    all_results (fell_back so sn reason) (acquired_from name path origin age)).
  { intros path origin age Ho. eapply all_results_impl; [|apply acquired_from_results]. intros [a|e]; [intros <-; exact Ho|by intros (? & ->)]. }
  unfold stored_or_seed. split; cbn -[acquired_from].
  - split; [done|]. intros [|]; [apply quiet_acquired_from; cbn; split; [done|]; intros []; cbn; [split; [done|]|done]; by intros|].
    destruct seed; [by apply quiet_acquired_from|done].
  - intros [|]; [apply Hweak; by left|]. destruct seed; [apply Hweak; by right|done].
Qed.

Lemma seed_quiet source : all_events (fun B (e : LEv B) => quiet e = true) (seed_of source).
Proof. unfold seed_of. destruct (ls_path source); [|done]. by cbn. Qed.

Lemma acquire_served source list_dir online d0 :
  holds_logged (fun _ => True) (acquire_list source list_dir online)
    (fun r s => served source list_dir online d0 r (snd s)) (d0, []).
Proof.
  unfold acquire_list, served. destruct (ls_url source) as [url|].
  2: { apply (holds_weaken (fun _ => True) _ _ (fun r s => snd s = [] /\ match r with inl a => ac_origin a = LocalFile | inr _ => True end));
         [done|intros r s (Hl & Hr); split; [done|]; destruct r; auto|].
       destruct (ls_path source) as [path|]; [|by split].
       apply holds_logged_quiet; [by apply quiet_acquired_from|].
       eapply all_results_impl; [|apply acquired_from_results]. by intros [a|e]. }
  set (stored := stored_path_of _ _). set (etag := etag_path_of _ _). apply holds_bind.
  assert (Hseed : holds (fun _ => True) (seed_of source) (fun _ d => d = d0) d0).
  { generalize (holds_reads (seed_of source) d0). unfold seed_of. destruct (ls_path source); intros Hr; [|by split].
    eapply holds_weaken; [| |apply Hr; by split]; done. }
  generalize (holds_and _ _ _ _ _ _ (holds_logged_disk _ _ _ d0 [] Hseed)
    (holds_logged_quiet (fun _ => True) _ d0 [] (seed_quiet source) (all_results_true _))).
  apply holds_weaken; [done|]. intros seed [d log'] (Hd & Hlog & _). cbn [fst snd] in Hd, Hlog. subst d log'. destruct online.
  - apply holds_bind. generalize (fetch_served url stored etag d0 []). apply holds_weaken; [done|].
    intros r [d log'] (tag & answer & Hl & Hc & Hr). cbn [snd app] in Hl. subst log'. destruct r as [a|reason].
    + apply holds_ret; [done|]. exists tag, answer. split; [done|]. split; [done|]. cbn in Hr |- *. destruct (ac_origin a); try done.
    + destruct (stored_or_seed_quiet (ls_name source) url stored seed (StoredAfterFetchFailure reason) (SeedAfterFetchFailure reason) reason) as (Hq & Hf).
      generalize (holds_logged_quiet _ _ d [(url, tag, answer)] Hq Hf). apply holds_weaken; [done|].
      intros r s (-> & Hb). exists tag, answer. split; [done|]. split; [done|]. cbn in Hr. destruct r as [a|e]; cbn in Hb.
      * by destruct Hb as [-> | ->].
      * destruct e; try done; [by subst|by exists reason].
  - destruct (stored_or_seed_quiet (ls_name source) url stored seed StoredOffline SeedOffline (lit "offline load and no stored copy")) as (Hq & Hf).
    generalize (holds_logged_quiet _ _ d0 [] Hq Hf). apply holds_weaken; [done|]. intros r s (-> & Hb). split; [done|].
    destruct r; [cbn in Hb; auto|done].
Qed.
End Served.

(** ** Loading *)

(** [l] is what the acquired texts compile to: the engine of the texts in
    order, the hash of their concatenation, one report per list with the
    counts of its own parse. *)
Definition report_of (source : ListSource) (a : Acquired) : ListReport :=
  mkListReport (ls_name source) (ac_origin a) (len (pl_rules (parse_list (ac_text a))))
    (len (pl_issues (parse_list (ac_text a)))) (ac_age a).
Definition issues_in (source : ListSource) (a : Acquired) : list (list Z * LineIssue) :=
  map (pair (ls_name source)) (pl_issues (parse_list (ac_text a))).

(** No stored copy of this directory is ever torn or emptied: each is as it
    was or a complete text with rules. *)
Definition copies_intact (list_dir : list Z) (d0 d : Disk) : Prop :=
  forall name, content d (stored_path_of list_dir name) = content d0 (stored_path_of list_dir name)
    \/ exists text, has_rules text /\ content d (stored_path_of list_dir name) = Some text.

Definition load_rule (online : bool) (list_dir : list Z) (d0 d : Disk) : Prop :=
  if online then copies_intact list_dir d0 d else d = d0.

(** A list acquired at some moment of the load. *)
Definition acquired_within (list_dir : list Z) (online : bool) (d0 : Disk) (source : ListSource) (a : Acquired) : Prop :=
  exists d1 d2, acquired_as source list_dir online d1 (inl a) d2
    /\ load_rule online list_dir d0 d1 /\ load_rule online list_dir d0 d2.

Section Load.
Context `{ConfigOps} `{ListsOps} `{UnstableSort}.

Record compiled (sources : list ListSource) (acqs : list Acquired) (l : LoadedLists) : Prop := {
  c_engine : build_texts (map ac_text acqs) = Some (ll_engine l);
  c_names : ll_names l = map ls_name sources;
  c_hash : ll_hash l = hex_encode (sha256 (concat (map ac_text acqs)));
  c_reports : ll_reports l = zip_with report_of sources acqs;
  c_issues : ll_issues l = concat (zip_with issues_in sources acqs)
}.

Lemma copies_intact_refl dir d : copies_intact dir d d.
Proof. intros name. by left. Qed.

Lemma copies_intact_step dir name d0 d1 d :
  copies_intact dir d0 d1 -> fetch_keeps (stored_path_of dir name) (etag_path_of dir name) d1 d -> copies_intact dir d0 d.
Proof.
  intros Hc (Hs & Ho & _) other. destruct (decide (stored_path_of dir other = stored_path_of dir name)) as [E|E].
  - destruct Hs as [Hs|Hs]; [rewrite E, Hs, <- E; apply Hc|right; by rewrite E].
  - unfold content. rewrite Ho; [apply Hc|done| | |].
    + unfold stored_path_of, etag_path_of. destruct (path_join_suffix dir other (lit ".txt")) as (b & ->).
      destruct (path_join_suffix dir name (lit ".etag")) as (c & ->). apply suffix_differ; vm_compute; intros HF; discriminate HF.
    + apply not_eq_sym, (paths_differ dir other).
    + apply not_eq_sym, (paths_differ dir other).
Qed.

Lemma load_rule_step online dir name d0 d1 d :
  load_rule online dir d0 d1 -> disk_rule online (stored_path_of dir name) (etag_path_of dir name) d1 d -> load_rule online dir d0 d.
Proof. destruct online; cbn; [apply copies_intact_step|by intros -> ->]. Qed.

(** Streaming counts and hands out what [parse_list] does. *)
Lemma add_list_text_added e text added e' :
  add_list_text e text = Some (added, e') ->
  added_rules added = len (pl_rules (parse_list text)) /\ added_issues added = pl_issues (parse_list text).
Proof.
  unfold add_list_text. destruct (begin_list e) as [[i e1]|]; [|done]. cbn [mbind option_bind]. rewrite streamed_spec.
  assert (Hf : forall rs (st : Z * option Engine), fst (fold_left add_text_sink rs st) = fst st + len rs).
  { induction rs as [|r rs IH]; intros st; cbn [fold_left]; [unfold len; cbn; lia|]. rewrite IH, len_cons. cbn. lia. }
  specialize (Hf (refs_of text) (0, Some e1)). destruct (fold_left _ _ _) as [n [e2|]]; cbn; [|done]. cbn in Hf.
  intros [= <- <-]. cbn. rewrite refs_of_parse_list, parse_list_eq in *. cbn in *. rewrite Hf. split; [|done].
  unfold len. by rewrite length_map.
Qed.

(** The loop from a partial build [b] of the lists [done_s], [done_a]. *)
Definition partial (sources : list ListSource) (acqs : list Acquired) (b : Building) : Prop :=
  fold_left (fun e t => e ← e; '(_, e) ← add_list_text e t; Some e) (map ac_text acqs) (Some engine_default) = Some (bl_builder b)
  /\ bl_names b = map ls_name sources /\ bl_hashed b = concat (map ac_text acqs)
  /\ bl_reports b = zip_with report_of sources acqs /\ bl_issues b = concat (zip_with issues_in sources acqs)
  /\ length sources = length acqs.

Lemma partial_snoc sources acqs b source a b' :
  partial sources acqs b -> compile b (ls_name source) a = Some b' -> partial (sources ++ [source]) (acqs ++ [a]) b'.
Proof.
  intros (Hb & Hn & Hh & Hr & Hi & Hl). unfold compile. destruct (add_list_text (bl_builder b) (ac_text a)) as [[added e]|] eqn:E; [|done].
  cbn. intros [= <-]. destruct (add_list_text_added _ _ _ _ E) as (Ha & Hai). unfold partial. cbn.
  rewrite !map_app, fold_left_app, Hb. cbn. rewrite E. cbn. rewrite Hn, Hh, Hr, Hi, !zip_with_app, !concat_app by done. cbn.
  rewrite !length_app, Hl, !app_nil_r. unfold report_of at 2, issues_in at 2. by rewrite Ha, Hai.
Qed.

Lemma all2_snoc {A B : Type} (P : A -> B -> Prop) l k a b : all2 P l k -> P a b -> all2 P (l ++ [a]) (k ++ [b]).
Proof. intros Hl Hp. by apply all2_app. Qed.

Lemma load_loop_holds list_dir online d0 sources : forall done_s done_a b d,
  partial done_s done_a b -> all2 (acquired_within list_dir online d0) done_s done_a -> load_rule online list_dir d0 d ->
  holds (load_rule online list_dir d0) (load_loop sources list_dir online b)
    (fun r _ => match r with
       | inl b => exists acqs, partial (done_s ++ sources) acqs b /\ all2 (acquired_within list_dir online d0) (done_s ++ sources) acqs
       | inr _ => True end) d.
Proof.
  induction sources as [|source sources IH]; intros done_s done_a b d Hp Ha Hd; cbn [load_loop].
  { apply holds_ret; [done|]. exists done_a. by rewrite app_nil_r. }
  apply holds_bind.
  generalize (holds_and_inv _ _ _ _ (acquire_holds source list_dir online d)).
  apply holds_weaken; [intros d'; by apply load_rule_step|]. intros [a|e] d' (Hk & Hq).
  2: { apply holds_ret; [by apply (load_rule_step _ _ _ _ _ _ Hd Hk)|done]. }
  pose proof (load_rule_step _ _ _ _ _ _ Hd Hk) as Hd'. apply holds_expect; [done|]. intros b' Hb'.
  replace (done_s ++ source :: sources) with ((done_s ++ [source]) ++ sources) by (by rewrite <- app_assoc).
  apply (IH _ (done_a ++ [a])); [by eapply partial_snoc| |done]. apply all2_snoc; [done|]. by exists d, d'.
Qed.

Lemma check_list_dir_holds list_dir online d0 :
  holds (load_rule online list_dir d0) (check_list_dir list_dir online)
    (fun r d => load_rule online list_dir d0 d /\ (online = false -> r = inl tt -> list_dir ∈ dk_dirs d0)) d0.
Proof.
  assert (Hsame : forall d d' : Disk, (forall name, dk_files d' !! stored_path_of list_dir name = dk_files d !! stored_path_of list_dir name) ->
    copies_intact list_dir d0 d -> copies_intact list_dir d0 d').
  { intros d d' Hs Hc name. unfold content. rewrite Hs. apply Hc. }
  assert (Hprobe : forall name, stored_path_of list_dir name <> path_join list_dir (lit ".sumidero-probe")).
  { intros name. unfold stored_path_of. destruct (path_join_suffix list_dir name (lit ".txt")) as (b & ->).
    destruct (path_join_suffix list_dir [] (lit ".sumidero-probe")) as (c & Hc). cbn [app] in Hc. rewrite Hc.
    apply suffix_differ; vm_compute; intros HF; discriminate HF. }
  unfold check_list_dir. destruct online; cbn [load_rule].
  - apply holds_bind.
    assert (Hc : holds (copies_intact list_dir d0)
      (is_dir ← event (IsDir list_dir); if is_dir : bool then Ret (inl tt) else event (CreateDirAll list_dir)) (fun _ => copies_intact list_dir d0) d0).
    { pose proof (copies_intact_refl list_dir d0) as Hr. apply holds_event; [done|]. intros o. cbn [lexec fst snd].
      destruct (bool_decide _); [by apply holds_ret|]. apply holds_last; [done|]. intros o'. cbn. by destruct (lo_fail o'). }
    revert Hc. apply holds_weaken; [done|]. intros [u|e] d Hd; [|by apply holds_ret].
    apply holds_event; [done|]. intros o. cbn [lexec fst snd]. destruct (negb _); [by apply holds_ret|].
    apply holds_event; [done|]. intros o'. cbn [lexec].
    assert (Hw : forall bytes, copies_intact list_dir d0 (put_file d (path_join list_dir (lit ".sumidero-probe")) bytes (lo_now o'))).
    { intros bytes. apply (Hsame d); [|done]. intros name. cbn [put_file dk_files]. rewrite lookup_insert_ne; [done|]. apply not_eq_sym, Hprobe. }
    destruct (lo_fail o'); cbn [fst snd]; [apply holds_ret; [apply Hw|split; [apply Hw|done]]|].
    apply holds_event; [apply Hw|]. intros o2.
    assert (Hd2 : copies_intact list_dir d0 (snd (lexec o2 (RemoveFile (path_join list_dir (lit ".sumidero-probe"))) (put_file d (path_join list_dir (lit ".sumidero-probe")) [] (lo_now o'))))).
    { cbn [lexec]. destruct (lo_fail o2); [apply Hw|]. eapply Hsame; [|apply (Hw [])]. intros name. cbn [snd dk_files].
      rewrite lookup_delete_ne; [done|]. apply not_eq_sym, Hprobe. }
    by apply holds_ret.
  - apply holds_bind, holds_ret; [done|]. apply holds_event; [done|]. intros o. cbn [lexec fst snd].
    destruct (bool_decide _) eqn:Ed; cbn [negb]; (apply holds_ret; [done|]); (split; [done|]); [|by intros].
    intros _ _. by apply bool_decide_eq_true in Ed.
Qed.

Lemma load_holds sources list_dir online d0 :
  holds (load_rule online list_dir d0) (load sources list_dir online)
    (fun r d => match r with
       | inl l => exists acqs, all2 (acquired_within list_dir online d0) sources acqs /\ compiled sources acqs l
       | inr _ => True end) d0.
Proof.
  unfold load. apply holds_bind. generalize (check_list_dir_holds list_dir online d0). apply holds_weaken; [done|].
  intros [[]|e] d (Hd & _); [|by apply holds_ret]. apply holds_bind.
  assert (Hp : partial [] [] building_new) by done.
  generalize (holds_and_inv _ _ _ _ (load_loop_holds list_dir online d0 sources [] [] building_new d Hp I Hd)).
  apply holds_weaken; [done|]. intros [b|e] d' (Hd' & Hb); [|by apply holds_ret]. apply holds_expect; [done|]. intros engine He.
  apply holds_ret; [done|]. destruct Hb as (acqs & (Hf & Hn & Hh & Hr & Hi & _) & Ha). exists acqs. split; [done|].
  cbn in *. split; cbn; try done; [unfold build_texts; by rewrite Hf|by rewrite Hh].
Qed.

(** C14: where a list's text comes from, at every failure and crash point of
    acquiring it. An online list with an URL is asked for once, the request
    conditional only on the stored ETag of a stored copy. If the answer
    delivers a text (a success within [MAX_LIST_BYTES], declared or
    counted, whose body arrives whole and holds rules), that text is the
    list's; if the server confirms the copy (304), the copy; if the answer
    brings nothing, the stored copy as it was before, only when there is
    none the local seed, and the list is unavailable only when there is
    neither. A list without an URL is its file; that and an offline load
    ask nothing. Whatever happens, the stored copy is as before or a
    complete body with rules, nothing but this list's own files changes,
    and offline nothing changes. *)
Theorem acquire_falls_back source list_dir online d0 :
  Proc.holds (@lexec_logged)
    (fun s => disk_rule online (stored_path_of list_dir (ls_name source)) (etag_path_of list_dir (ls_name source)) d0 (fst s))
    (acquire_list source list_dir online)
    (fun r s => acquired_as source list_dir online d0 r (fst s) /\ served source list_dir online d0 r (snd s)) (d0, []).
Proof.
  generalize (holds_and _ _ _ _ _ _ (holds_logged_disk _ _ _ d0 [] (acquire_holds source list_dir online d0)) (acquire_served source list_dir online d0)).
  apply holds_weaken; [by intros s (? & _)|done].
Qed.

(** C11: a load that succeeds compiles exactly the texts it acquired, one per
    source in order, each of them from where [acquired_as] says: the engine
    is the build of the texts, the hash is that of their concatenation, and
    the reports count the rules and issues of each text. At any failure or
    crash point of an online load no stored copy of the directory is torn
    or lost; an offline load changes nothing on disk. *)
Theorem load_compiles_what_it_acquired sources list_dir online d0 :
  holds (load_rule online list_dir d0) (load sources list_dir online)
    (fun r d => match r with
       | inl l => exists acqs, all2 (acquired_within list_dir online d0) sources acqs /\ compiled sources acqs l
       | inr _ => True end) d0.
Proof. apply load_holds. Qed.
End Load.
