(* ===== verification/Daemon.v ===== *)
(** * Daemon: the daemon's lifecycle ([crates/core/src/daemon.rs])

    Start-up, the refresher task, the signal and heartbeat loop, and the
    shutdown, over the state they share: the disk of the lists, the
    pipeline, the runtime report, the database, the reload channel.
    [dexec] is the meaning of an event; the clocks, the signals and
    whether an operation of the system fails come from a [DOracle]. *)
From S2P Require Import Prelude Text Time Num IpAddr FilterTypes Parse Engine Dns Cache FailCache SafeSearch Proc Shadow Db Pipeline Result Config Upstream Lists.

Definition STALE_LIST_SECS : Z := 3 * 86400.
Definition REFRESH_EVERY : Duration := from_secs (24 * 3600).
Definition RETRY_AFTER_FETCH_FAILURE : Duration := from_secs 3600.
Definition DRAIN : Duration := from_secs 2.

Inductive Trigger := Startup | Signal | Timer.

Record ReloadOutcome := mkOutcome {
  ro_ts : Z;
  ro_trigger : Trigger;
  ro_ok : bool;
  ro_error : option (list Z);
  ro_duration_ms : Z
}.

Record RuntimeReport := mkReport {
  lists_loaded_ts : Z;
  rr_lists : list ListReport;
  rr_lists_hash : list Z;
  applied_config_hash : list Z;
  last_reload : option ReloadOutcome;
  pending_restart : list (list Z);
  next_refresh_ts : Z
}.
Definition report_default : RuntimeReport := mkReport 0 [] [] [] None [] 0.

(** ** Degradation *)
Record Degraded := mkDegraded { dg_reason : list Z; dg_detail : list Z; dg_next : list Z }.

Fixpoint join_comma (l : list (list Z)) : list Z :=
  match l with [] => [] | [s] => s | s :: l => s ++ lit ", " ++ join_comma l end.

(** The reasons of one list. *)
Definition list_reasons (since_load : Z) (l : ListReport) : list Degraded :=
  match lr_origin l with
  | StoredAfterFetchFailure reason | SeedAfterFetchFailure reason =>
      [mkDegraded (lit "list_fetch_failed") (lr_name l ++ lit ": " ++ reason)
         (lit "the last good copy is in use; the refresher retries hourly")]
  | _ => []
  end
  ++ match verified_age_secs l with
     | Some age =>
         let age := age + since_load in
         if STALE_LIST_SECS <? age
         then [mkDegraded (lit "list_stale") (lr_name l ++ lit ": content last confirmed " ++ to_string (age / 3600) ++ lit " h ago")
                 (lit "check the list URL; `sumidero reload` retries now")]
         else []
     | None => []
     end.

(** The ages add as [u64]s far below the limit. *)
Definition degraded_reasons (runtime : RuntimeReport) (consecutive_all_failed log_events_dropped_recent now : Z) : list Degraded :=
  (if 0 <? consecutive_all_failed
   then [mkDegraded (lit "cannot_resolve") (to_string consecutive_all_failed ++ lit " consecutive queries found no upstream")
           (lit "check the WAN link and `sumidero status --json` upstreams")]
   else [])
  ++ (if 0 <? log_events_dropped_recent
      then [mkDegraded (lit "log_events_dropped") (to_string log_events_dropped_recent ++ lit " query-log events dropped since the last sample")
              (lit "the SQLite writer cannot keep up; check disk latency")]
      else [])
  ++ concat (map (list_reasons (default 0 (try_from u64_max (now - lists_loaded_ts runtime)))) (rr_lists runtime))
  ++ (match last_reload runtime with
      | Some last =>
          if ro_ok last then []
          else [mkDegraded (lit "reload_failed") (default [] (ro_error last))
                  (lit "the previous lists and policy are still in force; fix the cause and reload")]
      | None => []
      end)
  ++ (if bool_decide (pending_restart runtime = []) then []
      else [mkDegraded (lit "pending_restart") (join_comma (pending_restart runtime)) (lit "systemctl restart sumidero")]).

Inductive CoreError :=
| ConfigE (e : ConfigError)
| ListsE (e : ListError)
| DbE (e : DbError)
| UpstreamE (e : UpstreamError)
| SafeSearchE (e : SafeSearchError)
| IoE (e : list Z).

(** [serde_json] on the two reports, and the certificate type shared by
    [config.rs] and [upstream.rs]. *)
Class DaemonOps `{ConfigOps} `{UpstreamOps} := {
  report_json : RuntimeReport -> list Z + list Z;
  report_of_json : list Z -> RuntimeReport + list Z;
  health_json : PoolHealth -> list Z + list Z;
  certificate : Cert -> Certificate
}.

Section Daemon.
Context `{HickoryOps} `{HashIter} `{ConfigOps} `{ListsOps} `{UnstableSort} `{UpstreamOps} `{RcodeDisplay} `{!DaemonOps}.

Definition restart_only_changes (started new : Config) : list (list Z) :=
  (if bool_decide (bind_addrs (server started) = bind_addrs (server new)) then [] else [lit "server.bind"])
  ++ (if bool_decide (upstreams started = upstreams new) then [] else [lit "upstreams"])
  ++ (if bool_decide (database started = database new) then [] else [lit "database"])
  ++ (if bool_decide (tls started = tls new) then [] else [lit "tls"])
  ++ (if bool_decide (cache started = cache new) then [] else [lit "cache"]).

Definition next_refresh (loaded : LoadedLists) : Duration :=
  if existsb (fun r => fetch_failed (lr_origin r)) (ll_reports loaded) then RETRY_AFTER_FETCH_FAILURE else REFRESH_EVERY.

(** ** The shared state *)
Record Daemon := mkDaemon {
  dm_disk : Disk;
  dm_pool : option UpstreamPool;
  dm_pipeline : option Pipeline;
  dm_report : RuntimeReport;
  dm_db : option Tables;           (* the database file *)
  dm_queue : option Config;        (* the reload channel, of capacity 1 *)
  dm_sender : bool;                (* the signal loop still holds its sender *)
  dm_serving : bool
}.

Definition set_disk (d : Daemon) (x : Disk) : Daemon :=
  mkDaemon x (dm_pool d) (dm_pipeline d) (dm_report d) (dm_db d) (dm_queue d) (dm_sender d) (dm_serving d).
Definition set_pool (d : Daemon) (x : UpstreamPool) : Daemon :=
  mkDaemon (dm_disk d) (Some x) (dm_pipeline d) (dm_report d) (dm_db d) (dm_queue d) (dm_sender d) (dm_serving d).
Definition set_pipeline (d : Daemon) (x : Pipeline) : Daemon :=
  mkDaemon (dm_disk d) (dm_pool d) (Some x) (dm_report d) (dm_db d) (dm_queue d) (dm_sender d) (dm_serving d).
Definition set_report (d : Daemon) (x : RuntimeReport) : Daemon :=
  mkDaemon (dm_disk d) (dm_pool d) (dm_pipeline d) x (dm_db d) (dm_queue d) (dm_sender d) (dm_serving d).
Definition set_db (d : Daemon) (x : Tables) : Daemon :=
  mkDaemon (dm_disk d) (dm_pool d) (dm_pipeline d) (dm_report d) (Some x) (dm_queue d) (dm_sender d) (dm_serving d).
Definition set_queue (d : Daemon) (x : option Config) : Daemon :=
  mkDaemon (dm_disk d) (dm_pool d) (dm_pipeline d) (dm_report d) (dm_db d) x (dm_sender d) (dm_serving d).
Definition set_serving (d : Daemon) : Daemon :=
  mkDaemon (dm_disk d) (dm_pool d) (dm_pipeline d) (dm_report d) (dm_db d) (dm_queue d) (dm_sender d) true.

(** What the refresher's [select!] wakes up to. *)
Inductive Turn := Closed | Reload (c : Config) | TimerFired.

Inductive DEv : Type -> Type :=
| DDisk {B} (e : LEv B) : DEv B
| DConfigFile : DEv (list Z + list Z)                 (* reading the config file *)
| DCertificates (c : Config) : DEv (list Cert + ConfigError)
| DDbOpen (path : list Z) : DEv (unit + DbError)
| DPoolNew (c : UpstreamConfig) : DEv (unit + UpstreamError)
| DFetcherNew : DEv (unit + ListError)
| DShare (p : Pipeline) : DEv unit                    (* the pipeline goes into its [Arc] *)
| DServe (addrs : list SocketAddr) : DEv (unit + list Z)
| DInstall (p : Policy) : DEv unit
| DSnapshot : DEv RuntimeReport
| DReport (f : RuntimeReport -> RuntimeReport) : DEv unit   (* under its mutex *)
| DUnix : DEv Z
| DInstant : DEv Instant
| DPid : DEv Z
| DHealth : DEv PoolHealth
| DDropped : DEv Z
| DInFlight : DEv Z
| DWriteRuntime (ts : Z) (json : list Z) : DEv (unit + list Z)
| DWriteHeartbeat (h : Heartbeat) : DEv (unit + list Z)
| DWriteStats (s : DaemonStats) : DEv (unit + list Z)
| DSweep (now : Z) : DEv (Z + list Z)
| DSelect (deadline : Instant) : DEv Turn
| DTrySend (c : Config) : DEv bool
| DSleep (t : Duration) : DEv unit
| DFlush : DEv unit.

Record DOracle := mkDOracle {
  do_unix : Z;
  do_now : Instant;
  do_pid : Z;
  do_list : LOracle;
  do_config : list Z + list Z;
  do_fail : option (list Z);         (* the operation fails *)
  do_timer : bool;                   (* [select!] takes the timer *)
  do_fuel : nat;
  do_rounds : nat -> Round;
  do_writer : DbWriter               (* a fresh writer handle *)
}.

(** A write of the database that may fail. *)
Definition db_write (o : DOracle) (d : Daemon) (f : Tables -> Tables) : option ((unit + list Z) * Daemon) :=
  match dm_db d, do_fail o with
  | None, _ => None
  | Some _, Some err => Some (inr err, d)
  | Some t, None => Some (inl tt, set_db d (f t))
  end.

(** [None]: not now (an await that has to wait). *)
Definition dexec (o : DOracle) {B} (e : DEv B) (d : Daemon) : option (B * Daemon) :=
  match e in DEv B return option (B * Daemon) with
  | DDisk e => let '(b, x) := lexec (do_list o) e (dm_disk d) in Some (b, set_disk d x)
  | DConfigFile => Some (do_config o, d)
  | DCertificates c => Some (Config.extra_roots c, d)
  | DDbOpen path =>
      match do_fail o, db_open (dm_db d) with
      | Some err, _ => Some (inr (OpenFailed path err), d)
      | None, inl t => Some (inl tt, set_db d t)
      | None, inr e => Some (inr e, d)
      end
  | DPoolNew c =>
      match pool_new (do_fuel o) (do_rounds o) c (do_now o) with
      | None => None
      | Some (inl p, _) => Some (inl tt, set_pool d p)
      | Some (inr e, _) => Some (inr e, d)
      end
  | DFetcherNew => Some (match do_fail o with Some err => inr (Client err) | None => inl tt end, d)
  | DShare p => Some (tt, set_pipeline d p)
  | DServe addrs => match do_fail o with Some err => Some (inr err, d) | None => Some (inl tt, set_serving d) end
  | DInstall p => x ← dm_pipeline d; Some (tt, set_pipeline d (install x p))
  | DSnapshot => Some (dm_report d, d)
  | DReport f => Some (tt, set_report d (f (dm_report d)))
  | DUnix => Some (do_unix o, d)
  | DInstant => Some (do_now o, d)
  | DPid => Some (do_pid o, d)
  | DHealth => p ← dm_pool d; Some (pool_health p (do_unix o), d)
  | DDropped => p ← dm_pipeline d; Some (log_events_dropped p, d)
  | DInFlight => p ← dm_pipeline d; Some (in_flight p, d)
  | DWriteRuntime ts json => db_write o d (fun t => write_runtime t ts json)
  | DWriteHeartbeat h => db_write o d (fun t => write_heartbeat t h)
  | DWriteStats s => db_write o d (fun t => write_daemon_stats t s)
  | DSweep now =>
      match dm_db d, do_fail o with
      | None, _ => None
      | Some _, Some err => Some (inr err, d)
      | Some t, None => let '(n, t) := retention_sweep t now in Some (inl n, set_db d t)
      end
  | DSelect deadline =>
      if do_timer o then if deadline <=? do_now o then Some (TimerFired, d) else None
      else match dm_queue d with
           | Some c => Some (Reload c, set_queue d None)
           | None => if dm_sender d then None else Some (Closed, d)
           end
  | DTrySend c => match dm_queue d with Some _ => Some (false, d) | None => Some (true, set_queue d (Some c)) end
  | DSleep _ => Some (tt, d)
  | DFlush => Some (tt, d)
  end.

Notation Async := (Proc DEv).

(** List code inside the daemon. *)
Fixpoint lift {A} (p : Proc LEv A) : Async A :=
  match p with
  | Ret a => Ret a
  | Panic => Panic
  | Vis e k => Vis (DDisk e) (fun b => lift (k b))
  end.

(** ** Policies *)

(** [std::mem::take(&mut loaded.engine)] leaves the empty engine. *)
Definition take_engine (l : LoadedLists) : LoadedLists :=
  mkLoaded engine_default (ll_names l) (ll_hash l) (ll_issues l) (ll_reports l).

Definition build_policy (config : Config) (online : bool) : Async ((Policy * LoadedLists) + CoreError) :=
  match ss_new (ss_on (safe_search config)) (Config.ss_providers (safe_search config)) with
  | inr e => Ret (inr (SafeSearchE e))
  | inl safesearch =>
      loaded ← lift (load (effective_lists config) (list_dir (filtering config)) online);
      match loaded with
      | inr e => Ret (inr (ListsE e))
      | inl loaded =>
          Ret (inl (mkPolicy (ll_engine loaded) safesearch (allow (server config)), take_engine loaded))
      end
  end.

Definition outcome (trigger : Trigger) (started : Instant) (result : unit + list Z) : Async ReloadOutcome :=
  ts ← event DUnix;
  now ← event DInstant;
  Ret (mkOutcome ts trigger (match result with inl _ => true | inr _ => false end)
         (match result with inl _ => None | inr e => Some e end)
         (default u64_max (try_from u64_max (as_millis (duration_since now started))))).

(** ** Reports *)
Definition publish_runtime : Async unit :=
  report ← event DSnapshot;
  match report_json report with
  | inr _ => Ret tt
  | inl json =>
      ts ← event DUnix;
      _ ← event (DWriteRuntime ts json);
      Ret tt
  end.

Definition heartbeat_row (started_ts : Z) (report : RuntimeReport) : Async (unit + list Z) :=
  pid ← event DPid;
  ts ← event DUnix;
  event (DWriteHeartbeat (mkHeartbeat pid started_ts ts (applied_config_hash report) (rr_lists_hash report))).

(** [publish_stats]: the drop count of this sample is the next one's base. *)
Definition publish_stats (report : RuntimeReport) (dropped_at_last_sample : Z) : Async Z :=
  health ← event DHealth;
  dropped_total ← event DDropped;
  let dropped_recent := Z.max 0 (dropped_total - dropped_at_last_sample) in
  match health_json health, report_json report with
  | inl upstreams_json, inl runtime_json =>
      ts ← event DUnix;
      _ ← event (DWriteStats (mkDaemonStats ts dropped_total dropped_recent upstreams_json runtime_json));
      Ret dropped_total
  | _, _ => Ret dropped_total
  end.

(** ** The refresher *)
Record Refresher := mkRefresher {
  started_with : Config;
  current : Config;
  rf_started_ts : Z;
  rf_deadline : Instant
}.

Definition with_loaded (loaded : LoadedLists) (ts : Z) (hash : list Z) (pending : list (list Z)) (last : ReloadOutcome)
  (r : RuntimeReport) : RuntimeReport :=
  mkReport ts (ll_reports loaded) (ll_hash loaded) hash (Some last) pending (next_refresh_ts r).
Definition with_last_reload (last : ReloadOutcome) (r : RuntimeReport) : RuntimeReport :=
  mkReport (lists_loaded_ts r) (rr_lists r) (rr_lists_hash r) (applied_config_hash r) (Some last) (pending_restart r) (next_refresh_ts r).
Definition with_next_refresh (ts : Z) (r : RuntimeReport) : RuntimeReport :=
  mkReport (lists_loaded_ts r) (rr_lists r) (rr_lists_hash r) (applied_config_hash r) (last_reload r) (pending_restart r) ts.

Definition core_error_text (e : CoreError) : list Z :=
  match e with
  | ConfigE e => lit "configuration: " ++ config_error_text e
  | ListsE e => lit "blocklists: " ++ list_error_text e
  | DbE e => lit "database: " ++ db_error_text e
  | UpstreamE e => lit "upstreams: " ++ error_text e
  | SafeSearchE e => lit "safe-search: " ++ provider_error e
  | IoE e => lit "server: " ++ e
  end.

(** The policy is built and installed, or the failure recorded; the
    configuration in force and the wait. *)
Definition refresh (r : Refresher) (trigger : Trigger) (config : Config) : Async (Config * Duration) :=
  started ← event DInstant;
  result ← build_policy config true;
  match result with
  | inl (policy, loaded) =>
      _ ← event (DInstall policy);
      let wait := next_refresh loaded in
      ts ← event DUnix;
      hash ← expect (config_hash config);
      last ← outcome trigger started (inl tt);
      _ ← event (DReport (with_loaded loaded ts hash (restart_only_changes (started_with r) config) last));
      Ret (config, wait)
  | inr err =>
      last ← outcome trigger started (inr (core_error_text err));
      _ ← event (DReport (with_last_reload last));
      Ret (current r, RETRY_AFTER_FETCH_FAILURE)
  end.

(** One iteration of [Refresher::run] once it knows its trigger. *)
Definition refresher_pass (r : Refresher) (trigger : Trigger) (config : Config) : Async (option Refresher) :=
  '(config, wait) ← refresh r trigger config;
  now ← event DInstant;
  ts ← event DUnix;
  _ ← event (DReport (with_next_refresh (ts + default i64_max (try_from i64_max (as_secs wait)))));
  _ ← publish_runtime;
  report ← event DSnapshot;
  _ ← heartbeat_row (rf_started_ts r) report;
  Ret (Some (mkRefresher (started_with r) config (rf_started_ts r) (now + wait))).

(** One iteration; [None] when the channel closes. *)
Definition refresher_turn (r : Refresher) : Async (option Refresher) :=
  turn ← event (DSelect (rf_deadline r));
  match turn with
  | Closed => Ret None
  | Reload new => refresher_pass r Signal new
  | TimerFired => refresher_pass r Timer (current r)
  end.

(** [n] iterations of the loop of [Refresher::run]. *)
Fixpoint refresher_run (n : nat) (r : Refresher) : Async (option Refresher) :=
  match n with
  | O => Ret (Some r)
  | S n =>
      next ← refresher_turn r;
      match next with Some r => refresher_run n r | None => Ret None end
  end.

(** ** The signal and heartbeat loop *)
Inductive Wake := Terminate | Hangup | HeartbeatTick | RetentionTick.

(** SIGHUP: the new config is queued, or refused and reported. *)
Definition on_sighup (config_path : list Z) : Async unit :=
  file ← event DConfigFile;
  match config_load file config_path with
  | inl new => _ ← event (DTrySend new); Ret tt
  | inr err =>
      ts ← event DUnix;
      _ ← event (DReport (with_last_reload (mkOutcome ts Signal false (Some (lit "config: " ++ config_error_text err)) 0)));
      publish_runtime
  end.

Definition on_heartbeat (started_ts dropped_at_last_sample : Z) : Async Z :=
  report ← event DSnapshot;
  _ ← heartbeat_row started_ts report;
  publish_stats report dropped_at_last_sample.

Definition on_retention : Async unit :=
  now ← event DUnix;
  _ ← event (DSweep now);
  Ret tt.

(** One turn: the new drop base, [None] when the loop breaks. *)
Definition signal_turn (config_path : list Z) (started_ts dropped_at_last_sample : Z) (w : Wake) : Async (option Z) :=
  match w with
  | Terminate => Ret None
  | Hangup => _ ← on_sighup config_path; Ret (Some dropped_at_last_sample)
  | HeartbeatTick => n ← on_heartbeat started_ts dropped_at_last_sample; Ret (Some n)
  | RetentionTick => _ ← on_retention; Ret (Some dropped_at_last_sample)
  end.

(** ** Start-up and shutdown *)

(** Stored copies first; the network only when a list has none. *)
Definition first_policy (config : Config) : Async (((Policy * LoadedLists) * Duration) + CoreError) :=
  stored ← build_policy config false;
  match stored with
  | inl built => Ret (inl (built, 0))
  | inr _ =>
      built ← build_policy config true;
      match built with
      | inl built => Ret (inl (built, next_refresh (snd built)))
      | inr e => Ret (inr e)
      end
  end.

(** From the policy to the bound sockets. *)
Definition serve_policy (config : Config) (started_ts : Z) (started : Instant) (policy : Policy) (loaded : LoadedLists)
  (refresh_in : Duration) (shadow : bool) (writer : DbWriter) : Async ((Refresher * Z) + CoreError) :=
  ts ← event DUnix;
  hash ← expect (config_hash config);
  last ← outcome Startup started (inl tt);
  ts_last ← event DUnix;
  _ ← event (DReport (fun _ => mkReport ts (ll_reports loaded) (ll_hash loaded) hash (Some last) []
                                 (ts_last + default 0 (try_from i64_max (as_secs refresh_in)))));
  cache ← expect (with_limits (max_entries (cache config)) DEFAULT_MAX_BYTES (serve_stale_secs (cache config)));
  let pipeline := from_policy policy cache writer in
  _ ← event (DShare (if shadow then set_shadow pipeline else pipeline));
  report ← event DSnapshot;
  written ← heartbeat_row started_ts report;
  match written with
  | inr e => Ret (inr (DbE (Sql e)))
  | inl _ =>
      report ← event DSnapshot;
      dropped ← publish_stats report 0;
      bound ← event (DServe (bind_addrs (server config)));
      match bound with
      | inr e => Ret (inr (IoE e))
      | inl _ =>
          now ← event DInstant;
          Ret (inl (mkRefresher config config started_ts (now + refresh_in), dropped))
      end
  end.

Definition pool_config (config : Config) (extra_roots : list Cert) : UpstreamConfig :=
  mkUpstreamConfig (servers (upstreams config)) (bootstrap (upstreams config)) (up_timeout_ms (upstreams config))
    (map certificate extra_roots) DEFAULT_CONNECT_BUDGET.

(** [run] up to its loop. *)
Definition startup (config_path : list Z) (shadow : bool) (writer : DbWriter) : Async ((Refresher * Z) + CoreError) :=
  file ← event DConfigFile;
  match config_load file config_path with
  | inr e => Ret (inr (ConfigE e))
  | inl config =>
      opened ← event (DDbOpen (db_path (database config)));
      match opened with
      | inr e => Ret (inr (DbE e))
      | inl _ =>
          started_ts ← event DUnix;
          roots ← event (DCertificates config);
          match roots with
          | inr e => Ret (inr (ConfigE e))
          | inl extra_roots =>
              pool ← event (DPoolNew (pool_config config extra_roots));
              match pool with
              | inr e => Ret (inr (UpstreamE e))
              | inl _ =>
                  fetcher ← event DFetcherNew;
                  match fetcher with
                  | inr e => Ret (inr (ListsE e))
                  | inl _ =>
                      started ← event DInstant;
                      built ← first_policy config;
                      match built with
                      | inr e => Ret (inr e)
                      | inl ((policy, loaded), refresh_in) =>
                          serve_policy config started_ts started policy loaded refresh_in shadow writer
                      end
                  end
              end
          end
      end
  end.

(** The drain: queries in flight may finish for up to [DRAIN]. *)
Definition DRAIN_POLL : Duration := from_millis 20.
Fixpoint drain_loop (fuel : nat) (deadline : Instant) : Async bool :=
  match fuel with
  | O => Ret false
  | S fuel =>
      n ← event DInFlight;
      if 0 <? n then
        now ← event DInstant;
        if now <? deadline then _ ← event (DSleep DRAIN_POLL); drain_loop fuel deadline else Ret true
      else Ret true
  end.
Definition drain (fuel : nat) : Async bool :=
  now ← event DInstant;
  done ← drain_loop fuel (now + DRAIN);
  _ ← event DFlush;
  Ret done.
End Daemon.
