(* ===== verification/DaemonSpec.v ===== *)
(** * DaemonSpec: the daemon never serves unfiltered and reports what is in force

    [under] follows one task while the others interfere: before each of
    its events the state may change as [R] allows. What every other task
    may do to the refresher is [outside]; the signal loop keeps to it. *)
From S2P Require Import Prelude Text Time Num IpAddr FilterTypes Parse ParseSpec Engine Dns Cache FailCache SafeSearch Proc Shadow Db Pipeline Result Config ConfigSpec Upstream Lists ListsSpec Daemon.

Section Spec.
Context `{HickoryOps} `{HashIter} `{ConfigOps} `{ListsOps} `{UnstableSort} `{UpstreamOps} `{RcodeDisplay} `{!DaemonOps}.
Notation Async := (Proc DEv).

Fixpoint under (R : Daemon -> Daemon -> Prop) (I : Daemon -> Prop) {A} (p : Async A) (Q : A -> Daemon -> Prop) (d : Daemon) : Prop :=
  forall d', R d d' -> I d' /\ match p with
    | Ret a => Q a d'
    | Panic => True
    | Vis e k => forall o b d2, dexec o e d' = Some (b, d2) -> under R I (k b) Q d2
    end.

(** ** Interference *)

(** The report but for its last reload. *)
Definition same_report (r r' : RuntimeReport) : Prop :=
  lists_loaded_ts r' = lists_loaded_ts r /\ rr_lists r' = rr_lists r /\ rr_lists_hash r' = rr_lists_hash r
  /\ applied_config_hash r' = applied_config_hash r /\ pending_restart r' = pending_restart r
  /\ next_refresh_ts r' = next_refresh_ts r.

Definition policy_of (d : Daemon) : option Policy := p_policy <$> dm_pipeline d.

(** What other tasks do meanwhile: queries and their spawned tasks change
    the pipeline but not its policy, the signal loop sets the last reload,
    writes the database and queues a config; nobody else edits the list
    directory. *)
Definition outside (d d' : Daemon) : Prop :=
  dm_disk d' = dm_disk d /\ policy_of d' = policy_of d /\ same_report (dm_report d) (dm_report d')
  /\ dm_serving d' = dm_serving d.

Lemma outside_refl d : outside d d.
Proof. by repeat split. Qed.

Lemma outside_trans a b c : outside a b -> outside b c -> outside a c.
Proof. unfold outside, same_report. intuition congruence. Qed.

Notation during I := (under outside I).

Definition stable (F : Daemon -> Prop) : Prop := forall d d', F d -> outside d d' -> F d'.

Lemma under_later I {A} (p : Async A) Q d : (forall d', outside d d' -> during I p Q d') -> during I p Q d.
Proof. intros Hp. destruct p; intros d' Hd'; apply (Hp d' Hd'), outside_refl. Qed.

Lemma under_bind I {A C} (p : Async A) (f : A -> Async C) Q d :
  during I p (fun a d => during I (f a) Q d) d -> during I (p ≫= f) Q d.
Proof.
  revert d. induction p as [a|B e k IH|]; intros d Hp; [|intros d' Hd'..].
  - apply under_later. intros d' Hd'. apply (Hp d' Hd').
  - destruct (Hp d' Hd') as (Hi & Hk). split; [done|]. intros o b d2 He. apply IH. by apply (Hk o).
  - split; [by apply Hp|done].
Qed.

Lemma under_ret (I : Daemon -> Prop) {A} (a : A) (Q : A -> Daemon -> Prop) d :
  (forall d', outside d d' -> I d' /\ Q a d') -> during I (Ret a) Q d.
Proof. done. Qed.

Lemma under_event (I : Daemon -> Prop) {B C} (e : DEv B) (f : B -> Async C) Q d :
  (forall d', outside d d' -> I d' /\ forall o b d2, dexec o e d' = Some (b, d2) -> during I (f b) Q d2) ->
  during I (event e ≫= f) Q d.
Proof. intros Hk d' Hd'. apply (Hk d' Hd'). Qed.

(** Events that change neither lists, policy, report nor sockets. *)
Definition harmless {B} (e : DEv B) : bool :=
  match e with DDisk _ | DShare _ | DServe _ | DInstall _ | DReport _ => false | _ => true end.

Lemma db_write_outside o d f b d2 : db_write o d f = Some (b, d2) -> outside d d2.
Proof. unfold db_write. destruct (dm_db d), (do_fail o); intros [= <- <-] || intros [=]; repeat split. Qed.

Lemma harmless_outside o {B} (e : DEv B) d b d2 : harmless e = true -> dexec o e d = Some (b, d2) -> outside d d2.
Proof.
  destruct e; cbn [harmless dexec]; try discriminate; intros _; try (by intros [= <- <-]; apply outside_refl); try apply db_write_outside.
  - destruct (do_fail o); [intros [= <- <-]; repeat split|]. destruct (db_open _); intros [= <- <-]; repeat split.
  - destruct (pool_new _ _ _ _) as [[[p|e] at_]|]; intros [= <- <-] || intros [=]; repeat split.
  - destruct (dm_pool d); cbn; intros [= <- <-] || intros [=]; repeat split.
  - destruct (dm_pipeline d); cbn; intros [= <- <-] || intros [=]; repeat split.
  - destruct (dm_pipeline d); cbn; intros [= <- <-] || intros [=]; repeat split.
  - destruct (dm_db d), (do_fail o); try (intros [=]; done); [intros [= <- <-]; repeat split|].
    destruct (retention_sweep _ _). intros [= <- <-]; repeat split.
  - destruct (do_timer o); [destruct (_ <=? _); intros [= <- <-] || intros [=]; repeat split|].
    destruct (dm_queue d); [intros [= <- <-]; repeat split|]. destruct (dm_sender d); intros [= <- <-] || intros [=]; repeat split.
  - destruct (dm_queue d); intros [= <- <-]; repeat split.
Qed.

Lemma under_read (I F : Daemon -> Prop) {B C} (e : DEv B) (f : B -> Async C) Q d :
  harmless e = true -> stable F -> (forall d, F d -> I d) -> F d ->
  (forall b d, F d -> during I (f b) Q d) -> during I (event e ≫= f) Q d.
Proof.
  intros He Hs Hi Hd Hf. apply under_event. intros d' Hd'. pose proof (Hs _ _ Hd Hd') as HF. split; [by apply Hi|].
  intros o b d2 Hb. apply Hf, (Hs d' _ HF). by apply (harmless_outside o e d' b).
Qed.

Lemma under_read_last (I F : Daemon -> Prop) {B} (e : DEv B) d :
  harmless e = true -> stable F -> (forall d, F d -> I d) -> F d -> during I (event e) (fun _ d' => F d') d.
Proof.
  intros He Hs Hi Hd d' Hd'. pose proof (Hs _ _ Hd Hd') as HF. split; [by apply Hi|]. intros o b d2 Hb d3 Hd3.
  pose proof (Hs _ _ (Hs _ _ HF (harmless_outside o e d' b d2 He Hb)) Hd3). auto.
Qed.

Lemma under_expect (I F : Daemon -> Prop) {A C} (o : option A) (f : A -> Async C) Q d :
  stable F -> (forall d, F d -> I d) -> F d -> (forall a, o = Some a -> during I (f a) Q d) -> during I (expect o ≫= f) Q d.
Proof.
  intros Hs Hi Hd Hf. destruct o as [a|]; [by apply Hf|]. intros d' Hd'. split; [|done]. by apply Hi, (Hs d).
Qed.

Lemma under_weaken (I J : Daemon -> Prop) {A} (p : Async A) (Q R : A -> Daemon -> Prop) d :
  (forall d, I d -> J d) -> (forall a d, Q a d -> R a d) -> during I p Q d -> during J p R d.
Proof.
  intros HI HQ. revert d. induction p as [a|B e k IH|]; intros d; cbn; intros Hp d' Hd'; destruct (Hp d' Hd') as (Hi & Hq);
    (split; [by apply HI|]); [by apply HQ| |done]. intros o b d2 He. by apply IH, (Hq o).
Qed.

(** List code inside the daemon: what [holds] of it on the disk. *)
Lemma under_lift (I F : Daemon -> Prop) {A} (p : Proc LEv A) J Q0 d :
  stable F -> (forall d, F d -> I d) -> (forall d x, F d -> F (set_disk d x)) -> F d ->
  holds J p Q0 (dm_disk d) -> during I (lift p) (fun a d' => F d' /\ Q0 a (dm_disk d')) d.
Proof.
  intros Hs Hi Hset. revert d. induction p as [a|B e k IH|]; intros d HF Hp; cbn; intros d' Hd';
    pose proof (Hs _ _ HF Hd') as HF'; (split; [by apply Hi|]); cbn in Hp; [| |done]; destruct Hp as (_ & Hp).
  - by rewrite (proj1 Hd').
  - intros o b d2. destruct (lexec (do_list o) e (dm_disk d')) as [b' x] eqn:E. intros [= -> <-].
    apply IH; [by apply Hset|]. rewrite (proj1 Hd') in E. specialize (Hp (do_list o)). rewrite E in Hp. exact Hp.
Qed.

(** ** What is in force *)

(** [policy] is what [config] says, its engine compiled from one acquired
    text per effective list. *)
Definition policy_from (config : Config) (policy : Policy) (l : LoadedLists) : Prop :=
  (exists acqs, compiled (effective_lists config) acqs l)
  /\ pol_engine policy = ll_engine l
  /\ ss_new (ss_on (safe_search config)) (Config.ss_providers (safe_search config)) = inl (pol_safesearch policy)
  /\ pol_allow policy = allow (server config).

(** The policy in force was built whole from one configuration. *)
Definition whole (d : Daemon) : Prop := exists config policy l, policy_of d = Some policy /\ policy_from config policy l.

(** The report tells what is in force. *)
Definition truthful (started config : Config) (d : Daemon) : Prop :=
  exists policy l, policy_of d = Some policy /\ policy_from config policy l
    /\ rr_lists (dm_report d) = ll_reports l /\ rr_lists_hash (dm_report d) = ll_hash l
    /\ config_hash config = Some (applied_config_hash (dm_report d))
    /\ pending_restart (dm_report d) = restart_only_changes started config.

Lemma truthful_stable started config : stable (truthful started config).
Proof.
  intros d d' (policy & l & Hp & Hf & Hl & Hh & Hc & Hr) (_ & Ep & (_ & R2 & R3 & R4 & R5 & _) & _).
  exists policy, l. rewrite Ep, R2, R3, R4, R5. done.
Qed.

Lemma truthful_whole started config d : truthful started config d -> whole d.
Proof. intros (policy & l & Hp & Hf & _). by exists config, policy, l. Qed.

Lemma whole_stable : stable whole.
Proof. intros d d' (c & policy & l & Hp & Hf) (_ & Ep & _). exists c, policy, l. by rewrite Ep. Qed.

(** ** Building *)
Lemma build_policy_holds (I F : Daemon -> Prop) config online d :
  stable F -> (forall d, F d -> I d) -> (forall d x, F d -> F (set_disk d x)) -> F d ->
  during I (build_policy config online)
    (fun r d' => F d' /\ match r with inl (policy, loaded) => exists l, policy_from config policy l /\ loaded = take_engine l | inr _ => True end) d.
Proof.
  intros Hs Hi Hset HF. unfold build_policy. destruct (ss_new _ _) as [ss|e] eqn:Ess.
  2: { apply under_ret. intros d' Hd'. pose proof (Hs _ _ HF Hd'). auto. }
  apply under_bind. generalize (under_lift I F _ _ _ d Hs Hi Hset HF (load_holds (effective_lists config) (list_dir (filtering config)) online (dm_disk d))).
  apply under_weaken; [done|]. intros [l|e] d' (HF' & Hl); (apply under_ret; intros d2 Hd2; pose proof (Hs _ _ HF' Hd2); split; [by apply Hi|]; split; [done|]); [|done].
  destruct Hl as (acqs & _ & Hc). exists l. split; [|done]. split; [by exists acqs|]. done.
Qed.

(** Code that only performs harmless events keeps every stable fact. *)
Lemma under_harmless (I F : Daemon -> Prop) {A} (p : Async A) d :
  all_events (fun B e => harmless e = true) p -> stable F -> (forall d, F d -> I d) -> F d -> during I p (fun _ d' => F d') d.
Proof.
  intros Hp Hs Hi. revert d. induction p as [a|B e k IH|]; intros d HF d' Hd'; pose proof (Hs _ _ HF Hd') as HF'; (split; [by apply Hi|]); [done| |done].
  intros o b d2 Hb. destruct Hp as (He & Hp). apply IH; [by apply Hp|]. apply (Hs d' _ HF'). by apply (harmless_outside o e d' b).
Qed.

Lemma outcome_harmless trigger started result : all_events (fun B (e : DEv B) => harmless e = true) (outcome trigger started result).
Proof. by cbn. Qed.

Lemma heartbeat_row_harmless ts report : all_events (fun B (e : DEv B) => harmless e = true) (heartbeat_row ts report).
Proof. by cbn. Qed.

Lemma publish_runtime_harmless : all_events (fun B (e : DEv B) => harmless e = true) publish_runtime.
Proof. cbn. split; [done|]. intros r. by destruct (report_json r). Qed.

Lemma publish_stats_harmless report n : all_events (fun B (e : DEv B) => harmless e = true) (publish_stats report n).
Proof. cbn. split; [done|]. intros h. split; [done|]. intros m. by destruct (health_json h), (report_json report). Qed.

(** Sequencing after harmless code. *)
Lemma under_after (I F : Daemon -> Prop) {A C} (p : Async A) (f : A -> Async C) Q d :
  all_events (fun B e => harmless e = true) p -> stable F -> (forall d, F d -> I d) -> F d ->
  (forall a d, F d -> during I (f a) Q d) -> during I (p ≫= f) Q d.
Proof.
  intros Hp Hs Hi Hd Hf. apply under_bind. generalize (under_harmless I F p d Hp Hs Hi Hd). apply under_weaken; [done|]. auto.
Qed.

(** ** The refresher *)

Lemma with_last_outside last d : outside d (set_report d (with_last_reload last (dm_report d))).
Proof. by repeat split. Qed.

(** Unchanged since [d0], the disk apart. *)
Definition unchanged (d0 d : Daemon) : Prop := policy_of d = policy_of d0 /\ same_report (dm_report d0) (dm_report d).

Lemma unchanged_stable d0 : stable (unchanged d0).
Proof. intros d d' (Hp & Hr) (_ & Ep & Er & _). split; [congruence|]. unfold same_report in *. intuition congruence. Qed.

Lemma unchanged_truthful started config d0 d : unchanged d0 d -> truthful started config d0 -> truthful started config d.
Proof.
  intros (Ep & (_ & R2 & R3 & R4 & R5 & _)) (policy & l & Hp & Hf & Hl & Hh & Hc & Hr). exists policy, l.
  rewrite Ep, R2, R3, R4, R5. done.
Qed.

(** The policy is the one of [d0], or whole from [config]. *)
Definition old_or_new (config : Config) (d0 d : Daemon) : Prop :=
  policy_of d = policy_of d0 \/ exists policy l, policy_of d = Some policy /\ policy_from config policy l.

Definition refreshed (r : Refresher) (config : Config) (d0 : Daemon) (x : Config * Duration) (d : Daemon) : Prop :=
  x = (current r, RETRY_AFTER_FETCH_FAILURE) /\ unchanged d0 d
  \/ fst x = config /\ truthful (started_with r) config d.

Lemma refresh_holds r trigger config d :
  during (old_or_new config d) (refresh r trigger config) (refreshed r config d) d.
Proof.
  set (F := unchanged d). assert (Hu : F d) by (repeat split). pose proof (unchanged_stable d : stable F) as Hs.
  assert (HI : forall d', F d' -> old_or_new config d d') by (intros d' Hd'; left; apply Hd').
  unfold refresh. apply (under_read _ F); [done..|]. intros started d1 H1'.
  apply under_bind. generalize (build_policy_holds _ F config true d1 Hs HI (fun _ _ h => h) H1').
  apply under_weaken; [done|]. intros [[policy loaded]|err] d2 (H2' & Hb).
  - destruct Hb as (l & Hf & ->). apply under_event. intros d3 Hd3. split; [by apply HI, (Hs d2)|].
    intros o [] d4 He. cbn [dexec] in He. destruct (dm_pipeline d3) as [p|] eqn:Ep; cbn in He; [|done]. injection He as <-.
    set (G := fun d' => policy_of d' = Some policy).
    assert (HGs : stable G) by (intros x y Hx (_ & E & _); unfold G in *; congruence).
    assert (HGI : forall d', G d' -> old_or_new config d d') by (intros d' Hd'; right; by exists policy, l).
    assert (HG : G (set_pipeline d3 (install p policy))) by done. revert HG. generalize (set_pipeline d3 (install p policy)). intros d5 HG.
    apply (under_read _ G); [done..|]. intros ts d6 K6. apply (under_expect _ G); [done..|]. intros hash Hh.
    apply (under_after _ G); [apply outcome_harmless|done..|]. intros last d7 K7. apply under_event. intros d8 Hd8.
    pose proof (HGs _ _ K7 Hd8) as K8. split; [by apply HGI|]. intros o2 [] d9 [= <-].
    apply under_ret. intros d10 Hd10.
    assert (Htr : truthful (started_with r) config d10).
    { apply (truthful_stable (started_with r) config _ d10) in Hd10; [done|]. exists policy, l. cbn. by split. }
    destruct Htr as (policy2 & l2 & Hp2 & Hf2 & Hr2). split; [right; by exists policy2, l2|]. right. split; [done|]. by exists policy2, l2.
  - apply (under_after _ F); [apply outcome_harmless|done..|]. intros last d3 H3'.
    apply under_event. intros d4 Hd4. pose proof (Hs _ _ H3' Hd4) as H4'. split; [by apply HI|].
    intros o [] d5 [= <-]. pose proof (Hs _ _ H4' (with_last_outside last d4)) as H5'.
    apply under_ret. intros d6 Hd6. pose proof (Hs _ _ H5' Hd6) as H6'. split; [by apply HI|]. by left.
Qed.

Lemma refresh_truthful r trigger config d :
  truthful (started_with r) (current r) d ->
  during whole (refresh r trigger config) (fun x d' => truthful (started_with r) (fst x) d') d.
Proof.
  intros Ht. generalize (refresh_holds r trigger config d). apply under_weaken.
  - intros d' [E|(policy & l & Hp & Hf)]; [|by exists config, policy, l]. destruct (truthful_whole _ _ _ Ht) as (c & policy & l & Hp & Hf).
    exists c, policy, l. by rewrite E.
  - intros x d' [(-> & Hu)|(-> & Htr)]; [|done]. by apply (unchanged_truthful _ _ d).
Qed.

(** The rest of a turn: clocks, the next refresh, the publications. *)
Lemma next_refresh_keeps started config d ts :
  truthful started config d -> truthful started config (set_report d (with_next_refresh ts (dm_report d))).
Proof. intros (policy & l & H'). by exists policy, l. Qed.

(** What one turn of the refresher guarantees from [d]. *)
Definition turn_post (r : Refresher) (o : option Refresher) (d : Daemon) : Prop :=
  match o with
  | Some r' => truthful (started_with r') (current r') d /\ started_with r' = started_with r
  | None => truthful (started_with r) (current r) d
  end.

Lemma refresher_pass_holds r trigger config d :
  truthful (started_with r) (current r) d -> during whole (refresher_pass r trigger config) (turn_post r) d.
Proof.
  intros Ht. unfold refresher_pass. apply under_bind. generalize (refresh_truthful r trigger config d Ht).
  apply under_weaken; [done|]. intros (c & wait) d2 K2. cbn [fst] in K2. set (F := truthful (started_with r) c).
  pose proof (truthful_stable (started_with r) c : stable F) as Hs. pose proof (truthful_whole (started_with r) c) as HI.
  apply (under_read _ F); [done..|]. intros now d3 K3. apply (under_read _ F); [done..|]. intros ts d4 K4.
  apply under_event. intros d5 Hd5. pose proof (Hs _ _ K4 Hd5) as K5. split; [by apply HI|]. intros o [] d6 [= <-].
  apply (under_after _ F); [apply publish_runtime_harmless|done|done|by apply next_refresh_keeps|]. intros _ d7 K7.
  apply (under_read _ F); [done..|]. intros report d8 K8. apply (under_after _ F); [apply heartbeat_row_harmless|done..|].
  intros _ d9 K9. apply under_ret. intros d10 Hd10. pose proof (Hs _ _ K9 Hd10). split; [by apply HI|]. done.
Qed.

Lemma refresher_turn_holds r d :
  truthful (started_with r) (current r) d -> during whole (refresher_turn r) (turn_post r) d.
Proof.
  intros Ht. unfold refresher_turn. pose proof (truthful_stable (started_with r) (current r)) as Hs.
  apply (under_read _ (truthful (started_with r) (current r))); [done|done|apply truthful_whole|done|]. intros [|c|] d1 K1.
  - apply under_ret. intros d' Hd'. pose proof (Hs _ _ K1 Hd'). split; [by eapply truthful_whole|done].
  - by apply refresher_pass_holds.
  - by apply refresher_pass_holds.
Qed.

Lemma refresher_run_holds n : forall r d,
  truthful (started_with r) (current r) d ->
  during whole (refresher_run n r)
    (fun o d' => match o with Some r' => truthful (started_with r) (current r') d' /\ started_with r' = started_with r
                 | None => exists config, truthful (started_with r) config d' end) d.
Proof.
  induction n as [|n IH]; intros r d Ht; cbn [refresher_run].
  - apply under_ret. intros d' Hd'. pose proof (truthful_stable _ _ _ _ Ht Hd'). split; [by eapply truthful_whole|done].
  - apply under_bind. generalize (refresher_turn_holds r d Ht). apply under_weaken; [done|]. intros [r'|] d' Hp; cbn [turn_post] in Hp.
    + destruct Hp as (Hp & Es). generalize (IH r' d' Hp). apply under_weaken; [done|]. intros [r2|] d2 Hq; rewrite Es in Hq; [|done].
      exact Hq.
    + apply under_ret. intros d2 Hd2. pose proof (truthful_stable _ _ _ _ Hp Hd2) as Hp2. split; [by eapply truthful_whole|]. by exists (current r).
Qed.

(** ** The other tasks *)

(** Every event of the code does at most what [R] allows. *)
Definition keeps_to (R : Daemon -> Daemon -> Prop) {A} (p : Async A) : Prop :=
  all_events (fun B e => forall o d b d', dexec o e d = Some (b, d') -> R d d') p.

Lemma harmless_keeps {A} (p : Async A) : all_events (fun B (e : DEv B) => harmless e = true) p -> keeps_to outside p.
Proof.
  unfold keeps_to. induction p as [a|B e k IH|]; cbn; [done| |done]. intros (He & Hk). split; [|intros b; by apply IH].
  intros o d b d' Hb. by apply (harmless_outside o e d b).
Qed.

Lemma signal_turn_keeps path ts n w : keeps_to outside (signal_turn path ts n w).
Proof.
  assert (Hbind : forall A C (p : Async A) (f : A -> Async C), keeps_to outside p -> (forall a, keeps_to outside (f a)) -> keeps_to outside (p ≫= f))
    by (intros A C p f; apply all_events_bind).
  destruct w; cbn [signal_turn]; [done| | |].
  - apply Hbind; [|done]. unfold on_sighup. apply Hbind; [by apply harmless_keeps|]. intros file.
    destruct (config_load file path) as [new|err]; [by apply harmless_keeps|].
    apply Hbind; [by apply harmless_keeps|]. intros t. apply Hbind; [|intros []; apply harmless_keeps, publish_runtime_harmless].
    split; [|done]. intros o d [] d' [= <-]. apply with_last_outside.
  - apply Hbind; [|done]. apply Hbind; [by apply harmless_keeps|]. intros report.
    apply Hbind; [apply harmless_keeps, heartbeat_row_harmless|]. intros _. apply harmless_keeps, publish_stats_harmless.
  - by apply harmless_keeps.
Qed.

(** ** Start-up *)

(** A daemon that serves has a whole policy in force and reports it. *)
Definition filtered (d : Daemon) : Prop := dm_serving d = true -> exists config, truthful config config d.
Definition idle (d : Daemon) : Prop := dm_serving d = false.

Lemma idle_stable : stable idle.
Proof. intros d d' Hd (_ & _ & _ & E). unfold idle. by rewrite E. Qed.

Lemma idle_filtered d : idle d -> filtered d.
Proof. intros Hd Hs. unfold idle in Hd. congruence. Qed.

Lemma first_policy_holds config d :
  idle d ->
  during filtered (first_policy config)
    (fun r d' => idle d' /\ match r with inl ((policy, loaded), _) => exists l, policy_from config policy l /\ loaded = take_engine l | inr _ => True end) d.
Proof.
  intros Hd. unfold first_policy. apply under_bind.
  generalize (build_policy_holds filtered idle config false d idle_stable idle_filtered (fun _ _ h => h) Hd).
  apply under_weaken; [done|]. intros [(policy & loaded)|e] d1 (K1 & Hb).
  { apply under_ret. intros d2 Hd2. pose proof (idle_stable _ _ K1 Hd2). split; [by apply idle_filtered|done]. }
  apply under_bind. generalize (build_policy_holds filtered idle config true d1 idle_stable idle_filtered (fun _ _ h => h) K1).
  apply under_weaken; [done|]. intros [(policy & loaded)|e2] d2 (K2 & Hb2);
    (apply under_ret; intros d3 Hd3; pose proof (idle_stable _ _ K2 Hd3); split; [by apply idle_filtered|done]).
Qed.

Lemma restart_only_same c : restart_only_changes c c = [].
Proof. unfold restart_only_changes. by rewrite !bool_decide_true by done. Qed.

(** How start-up ends. *)
Definition startup_post (r : (Refresher * Z) + CoreError) (d : Daemon) : Prop :=
  match r with
  | inl (r, _) => dm_serving d = true /\ truthful (started_with r) (current r) d
  | inr _ => dm_serving d = false
  end.

Lemma idle_fail (e : CoreError) d : idle d -> during filtered (Ret (inr e)) startup_post d.
Proof. intros Hd. apply under_ret. intros d' Hd'. pose proof (idle_stable _ _ Hd Hd'). split; [by apply idle_filtered|done]. Qed.

Lemma serve_policy_holds config started_ts started policy l refresh_in shadow writer d :
  idle d -> policy_from config policy l ->
  during filtered (serve_policy config started_ts started policy (take_engine l) refresh_in shadow writer) startup_post d.
Proof.
  intros Hd Hf. unfold serve_policy. apply (under_read _ idle); [done|apply idle_stable|apply idle_filtered|done|]. intros ts d1 K1.
  apply (under_expect _ idle); [apply idle_stable|apply idle_filtered|done|]. intros hash Hh.
  apply (under_after _ idle); [apply outcome_harmless|apply idle_stable|apply idle_filtered|done|]. intros last d2' K2'.
  apply (under_read _ idle); [done|apply idle_stable|apply idle_filtered|done|]. intros ts_last d2 K2.
  apply under_event. intros d3 Hd3. pose proof (idle_stable _ _ K2 Hd3) as K3. split; [by apply idle_filtered|]. intros o [] d4 [= <-].
  match goal with |- context [set_report d3 ?r] => set (report := r) end.
  set (F := fun d' => idle d' /\ same_report report (dm_report d')).
  assert (HF : F (set_report d3 report)) by (by repeat split). revert HF. generalize (set_report d3 report). intros d5 K5.
  assert (HFs : stable F) by (intros x y (X1 & X2) (_ & _ & E & E'); split; [unfold idle in *; congruence|unfold same_report in *; intuition congruence]).
  assert (HFi : forall x, F x -> filtered x) by (intros x (Hx & _); by apply idle_filtered).
  apply (under_expect _ F); [done..|]. intros cache _.
  apply under_event. intros d6 Hd6. pose proof (HFs _ _ K5 Hd6) as K6. split; [by apply HFi|]. intros o2 [] d7 [= <-].
  set (G := fun d' => idle d' /\ truthful config config d').
  assert (HGs : stable G) by (intros x y (X1 & X2) X3; split; [by apply (idle_stable x)|by apply (truthful_stable _ _ x)]).
  assert (HGi : forall x, G x -> filtered x) by (intros x (Hx & _); by apply idle_filtered).
  assert (K7 : G (set_pipeline d6 (if shadow then set_shadow (from_policy policy cache writer) else from_policy policy cache writer))).
  { destruct K6 as (X1 & (_ & R2 & R3 & R4 & R5 & _)). split; [done|]. exists policy, l.
    cbn [set_pipeline dm_report]. rewrite R2, R3, R4, R5. subst report. cbn. rewrite restart_only_same.
    split; [by destruct shadow|]. done. }
  revert K7. generalize (set_pipeline d6 (if shadow then set_shadow (from_policy policy cache writer) else from_policy policy cache writer)).
  intros d8 K8. apply (under_read _ G); [done..|]. intros snap d9 K9.
  apply (under_after _ G); [apply heartbeat_row_harmless|done..|]. intros [[]|e] d10 K10; [|apply idle_fail, K10].
  apply (under_read _ G); [done..|]. intros snap2 d11 K11.
  apply (under_after _ G); [apply publish_stats_harmless|done..|]. intros dropped d12 K12.
  apply under_event. intros d13 Hd13. pose proof (HGs _ _ K12 Hd13) as K13. split; [by apply HGi|]. intros o3 bound d14.
  cbn [dexec]. destruct (do_fail o3) as [err|]; intros [= <- <-]; [apply idle_fail, K13|].
  set (S := fun d' => dm_serving d' = true /\ truthful config config d').
  assert (HSs : stable S) by (intros x y (X1 & X2) X3; split; [rewrite (proj2 (proj2 (proj2 X3))); done|by apply (truthful_stable _ _ x)]).
  assert (HSi : forall x, S x -> filtered x) by (intros x (_ & Hx) _; by exists config).
  apply (under_read _ S); [done|done|done|split; [done|]|]. { destruct K13 as (_ & (policy' & l' & Hr)). by exists policy', l'. }
  intros now d15 K15. apply under_ret. intros d16 Hd16. pose proof (HSs _ _ K15 Hd16). split; [by apply HSi|done].
Qed.

Lemma startup_holds path shadow writer d :
  idle d -> during filtered (startup path shadow writer) startup_post d.
Proof.
  intros Hd. unfold startup.
  assert (Hread : forall B (e : DEv B) (f : B -> Async _) d, harmless e = true -> idle d ->
    (forall b d, idle d -> during filtered (f b) startup_post d) -> during filtered (event e ≫= f) startup_post d)
    by (intros; apply (under_read _ idle); auto using idle_stable, idle_filtered).
  apply Hread; [done..|]. intros file d1 K1. destruct (config_load file path) as [config|e]; [|by apply idle_fail].
  apply Hread; [done..|]. intros [[]|e] d2 K2; [|by apply idle_fail].
  apply Hread; [done..|]. intros ts d3 K3. apply Hread; [done..|]. intros [roots|e] d4 K4; [|by apply idle_fail].
  apply Hread; [done..|]. intros [[]|e] d5 K5; [|by apply idle_fail].
  apply Hread; [done..|]. intros [[]|e] d6 K6; [|by apply idle_fail].
  apply Hread; [done..|]. intros started d7 K7. apply under_bind.
  generalize (first_policy_holds config d7 K7). apply under_weaken; [done|].
  intros [((policy & loaded) & refresh_in)|e] d8 (K8 & Hb); [|by apply idle_fail]. destruct Hb as (l & Hf & ->).
  by apply serve_policy_holds.
Qed.

(** ** Properties *)

(** The process before [run], on a machine with these lists and database. *)
Definition daemon_initial (disk : Disk) (db : option Tables) : Daemon :=
  mkDaemon disk None None report_default db None true false.

(** [run]'s start-up followed by [n] turns of its refresher. *)
Definition lifetime (n : nat) (path : list Z) (shadow : bool) (writer : DbWriter) : Async (option Refresher) :=
  started ← startup path shadow writer;
  match started with
  | inl (r, _) => refresher_run n r
  | inr _ => Ret None
  end.

(** A serving daemon answers with a policy built whole from one config. *)
Definition never_unfiltered (d : Daemon) : Prop := dm_serving d = true -> whole d.

Lemma never_unfiltered_whole d : whole d -> never_unfiltered d.
Proof. by intros Hw _. Qed.

(** C6: the daemon never serves unfiltered, and reports what it serves.
    Whatever fails on the way (the config, the database, a list, a write)
    and whatever the other tasks do meanwhile, from the moment the sockets
    are bound the policy in force is at every point one built whole from
    one configuration, its engine compiled from one acquired text per
    effective list; after start-up and after every turn of the refresher,
    successful or not, the runtime report names the lists, the hash, the
    configuration and the pending restart settings of exactly that policy.
    Every turn of the signal loop keeps to what the refresher allows. *)
Theorem daemon_never_unfiltered n path shadow writer disk db :
  under outside never_unfiltered (lifetime n path shadow writer)
    (fun o d => match o with Some r => truthful (started_with r) (current r) d | None => never_unfiltered d end)
    (daemon_initial disk db)
  /\ forall started_ts dropped w, keeps_to outside (signal_turn path started_ts dropped w).
Proof.
  split; [|intros; apply signal_turn_keeps]. apply under_bind.
  generalize (startup_holds path shadow writer (daemon_initial disk db) eq_refl). apply under_weaken.
  { intros d Hf Hs. destruct (Hf Hs) as (c & Ht). by eapply truthful_whole. }
  intros [(r & dropped)|e] d Hp.
  - destruct Hp as (_ & Ht). generalize (refresher_run_holds n r d Ht). apply under_weaken; [apply never_unfiltered_whole|].
    intros [r'|] d' Hq; [by destruct Hq as (Ht' & ->)|]. destruct Hq as (c & Hc). apply never_unfiltered_whole. by eapply truthful_whole.
  - apply under_ret. intros d' Hd'. pose proof (idle_stable _ _ Hp Hd') as Hi.
    assert (never_unfiltered d') by (intros Hs; unfold idle in Hi; congruence). done.
Qed.

(** C12: a reload replaces everything or nothing. Whatever fails, at every
    point the policy in force is the previous one or one built whole from
    the new configuration; when the reload fails, policy, current
    configuration and report (but for its last reload) are the previous
    ones and the next attempt is within the hour; when it succeeds, the new
    policy is in force and the report is about it. *)
Theorem reload_all_or_nothing r trigger config d :
  under outside (old_or_new config d) (refresh r trigger config) (refreshed r config d) d.
Proof. apply refresh_holds. Qed.

(** ** Shutdown *)

(** The clock: it never runs backwards, and a sleep takes its time. *)
Definition answered (t : Instant) {B} (e : DEv B) (b : B) (t' : Instant) : Prop :=
  t <= t' /\ match e in DEv B return B -> Prop with
             | DInstant => fun b => b = t'
             | DSleep s => fun _ => t + s <= t'
             | _ => fun _ => True
             end b.

(** The code ends, whatever the answers, and [Q] of its result. *)
Fixpoint ends {A} (Q : A -> Instant -> Prop) (p : Async A) (t : Instant) : Prop :=
  match p with
  | Ret a => Q a t
  | Panic => False
  | Vis e k => forall b t', answered t e b t' -> ends Q (k b) t'
  end.

Lemma ends_event {B C} (Q : C -> Instant -> Prop) (e : DEv B) (f : B -> Async C) t :
  (forall b t', answered t e b t' -> ends Q (f b) t') -> ends Q (event e ≫= f) t.
Proof. done. Qed.

Lemma drain_loop_ends fuel deadline (Q : bool -> Instant -> Prop) : forall t,
  (0 < fuel)%nat -> deadline - t <= (Z.of_nat fuel - 1) * DRAIN_POLL -> (forall t', t <= t' -> Q true t') -> ends Q (drain_loop fuel deadline) t.
Proof.
  induction fuel as [|fuel IH]; intros t Hp Hf HQ; [lia|]. cbn [drain_loop]. apply ends_event. intros n t1 (Ht1 & _).
  destruct (0 <? n); [|apply HQ; lia]. apply ends_event. intros now t2 (Ht2 & ->). destruct (t2 <? deadline) eqn:Ed; [|apply HQ; lia].
  apply Z.ltb_lt in Ed. apply ends_event. intros [] t3 (Ht3 & Hs).
  assert (0 < DRAIN_POLL) by (unfold DRAIN_POLL, from_millis, ns_per_ms; lia).
  apply IH; [destruct fuel; lia|lia|]. intros t' Ht'. apply HQ. lia.
Qed.

Lemma ends_bind {A C} (Q : C -> Instant -> Prop) (p : Async A) (f : A -> Async C) t :
  ends (fun a t => ends Q (f a) t) p t -> ends Q (p ≫= f) t.
Proof.
  revert t. induction p as [a|B e k IH|]; intros t Hp; [done| |done]. intros b t' Ha. by apply IH, Hp.
Qed.

(** Shutdown ends: 101 polls of the drain loop are enough, whatever the
    queries in flight do, as the deadline is two seconds ahead and every
    poll sleeps 20 ms; the flush comes last. *)
Theorem drain_terminates t : ends (fun done _ => done = true) (drain 101) t.
Proof.
  unfold drain. apply ends_event. intros now t1 (_ & ->). apply ends_bind, drain_loop_ends; [lia|unfold DRAIN, DRAIN_POLL, from_secs, from_millis, ns_per_sec, ns_per_ms; lia|].
  intros t2 _ [] t3 _. done.
Qed.

(** ** Degradation *)
Lemma or_iff (P Q P' Q' : Prop) : (P <-> P') -> (Q <-> Q') -> (P \/ Q <-> P' \/ Q').
Proof. tauto. Qed.

Definition reason_in (reason : list Z) (l : list Degraded) : Prop := exists x, x ∈ l /\ dg_reason x = reason.

Lemma reason_in_app reason l k : reason_in reason (l ++ k) <-> reason_in reason l \/ reason_in reason k.
Proof.
  unfold reason_in. split.
  - intros (x & Hx & Hr). apply elem_of_app in Hx as [Hx|Hx]; [left|right]; by exists x.
  - intros [(x & Hx & Hr)|(x & Hx & Hr)]; exists x; (split; [apply elem_of_app; auto|done]).
Qed.

Lemma reason_in_if reason (b : bool) x :
  reason_in reason (if b then [x] else []) <-> b = true /\ dg_reason x = reason.
Proof.
  unfold reason_in. destruct b.
  - split; [intros (y & Hy & <-); by apply list_elem_of_singleton in Hy as ->|intros (_ & Hr); exists x; by split; [apply list_elem_of_singleton|]].
  - split; [by intros (y & Hy & _); apply elem_of_nil in Hy|by intros (? & _)].
Qed.

Lemma reason_in_concat {A} reason (f : A -> list Degraded) l :
  reason_in reason (concat (map f l)) <-> exists x, x ∈ l /\ reason_in reason (f x).
Proof.
  unfold reason_in. induction l as [|a l IH]; cbn.
  - split; [by intros (y & Hy & _); apply elem_of_nil in Hy|by intros (y & Hy & _); apply elem_of_nil in Hy].
  - split.
    + intros (x & Hx & Hr). apply elem_of_app in Hx as [Hx|Hx]; [exists a; split; [by left|by exists x]|].
      destruct (proj1 IH) as (b & Hb & Hb'); [by exists x|]. exists b. split; [by right|done].
    + intros (b & Hb & (x & Hx & Hr)). apply elem_of_cons in Hb as [->|Hb].
      * exists x. split; [apply elem_of_app; by left|done].
      * destruct (proj2 IH) as (y & Hy & Hy'); [by exists b; split; [|exists x]|]. exists y. split; [apply elem_of_app; by right|done].
Qed.

(** The seconds since the lists were loaded; 0 if the clock went back. *)
Definition since_load (runtime : RuntimeReport) (now : Z) : Z := Z.max 0 (now - lists_loaded_ts runtime).

Definition reason_codes : list (list Z) :=
  [lit "cannot_resolve"; lit "log_events_dropped"; lit "list_fetch_failed"; lit "list_stale"; lit "reload_failed"; lit "pending_restart"].

(** One reason present or not: its code decides. *)
Lemma reason_one reason (b : bool) code detail next :
  reason_in reason (if b then [mkDegraded code detail next] else []) <-> b = true /\ reason = code.
Proof. rewrite reason_in_if. cbn. split; intros (? & ?); auto. Qed.

(** The reasons of the lists. *)
Lemma list_reasons_parts reason sl l :
  reason_in reason (list_reasons sl l) <->
  fetch_failed (lr_origin l) = true /\ reason = lit "list_fetch_failed"
  \/ (exists age, verified_age_secs l = Some age /\ STALE_LIST_SECS < age + sl) /\ reason = lit "list_stale".
Proof.
  unfold list_reasons. rewrite reason_in_app. apply or_iff.
  - unfold fetch_failed. destruct (lr_origin l); try (rewrite (reason_one reason false [] [] []); split; intros (? & ?); done);
      exact (reason_one reason true _ _ _).
  - destruct (verified_age_secs l) as [age|].
    + cbn zeta. rewrite reason_one, Z.ltb_lt. split.
      * intros (Hl & Hr). split; [by exists age|done].
      * intros ((a & [= <-] & Hl) & Hr). done.
    + rewrite (reason_one reason false [] [] []). split; [by intros (? & _)|by intros ((a & ? & _) & _)].
Qed.

Lemma degraded_reasons_parts reason runtime failed dropped now :
  now - lists_loaded_ts runtime <= u64_max ->
  reason_in reason (degraded_reasons runtime failed dropped now) <->
  0 < failed /\ reason = lit "cannot_resolve"
  \/ 0 < dropped /\ reason = lit "log_events_dropped"
  \/ (exists l, l ∈ rr_lists runtime /\ reason_in reason (list_reasons (since_load runtime now) l))
  \/ (exists last, last_reload runtime = Some last /\ ro_ok last = false) /\ reason = lit "reload_failed"
  \/ pending_restart runtime <> [] /\ reason = lit "pending_restart".
Proof.
  intros Hn. assert (Es : default 0 (try_from u64_max (now - lists_loaded_ts runtime)) = since_load runtime now).
  { unfold since_load. destruct (Z.le_gt_cases 0 (now - lists_loaded_ts runtime)).
    - rewrite try_from_Some by lia. cbn. lia.
    - destruct (try_from _ _) as [m|] eqn:E; cbn; [apply try_from_inv in E; lia|lia]. }
  unfold degraded_reasons. rewrite Es, !reason_in_app. repeat apply or_iff.
  - rewrite reason_one, Z.ltb_lt. done.
  - rewrite reason_one, Z.ltb_lt. done.
  - apply reason_in_concat.
  - destruct (last_reload runtime) as [last|].
    + destruct (ro_ok last) eqn:Eo.
      * rewrite (reason_one reason false [] [] []). split; [by intros (? & _)|]. intros ((l & [= <-] & El) & _). congruence.
      * rewrite (reason_one reason true). split; [intros (_ & Hr); split; [by exists last|done]|by intros (_ & Hr)].
    + rewrite (reason_one reason false [] [] []). split; [by intros (? & _)|by intros ((a & ? & _) & _)].
  - case_bool_decide.
    + rewrite (reason_one reason false [] [] []). split; [by intros (? & _)|by intros (? & _)].
    + rewrite (reason_one reason true). split; [by intros (_ & ->)|by intros (_ & ->)].
Qed.

(** Distinct codes. *)
Ltac other_codes := repeat match goal with
  | H : _ /\ lit _ = lit _ |- _ => destruct H as [? H]
  | H : lit ?a = lit ?b |- _ => first [constr_eq a b; clear H | exfalso; vm_compute in H; discriminate H]
  end.

(** The operator sees exactly what is wrong: each of the six reasons is
    reported if and only if its condition holds, nothing else is, and a
    daemon with none of them reports nothing. *)
Theorem degraded_reasons_exact runtime failed dropped now :
  now - lists_loaded_ts runtime <= u64_max ->
  let out := degraded_reasons runtime failed dropped now in
  (reason_in (lit "cannot_resolve") out <-> 0 < failed)
  /\ (reason_in (lit "log_events_dropped") out <-> 0 < dropped)
  /\ (reason_in (lit "list_fetch_failed") out <-> exists l, l ∈ rr_lists runtime /\ fetch_failed (lr_origin l) = true)
  /\ (reason_in (lit "list_stale") out <-> exists l age, l ∈ rr_lists runtime /\ verified_age_secs l = Some age
        /\ STALE_LIST_SECS < age + since_load runtime now)
  /\ (reason_in (lit "reload_failed") out <-> exists last, last_reload runtime = Some last /\ ro_ok last = false)
  /\ (reason_in (lit "pending_restart") out <-> pending_restart runtime <> [])
  /\ forall x, x ∈ out -> dg_reason x ∈ reason_codes.
Proof.
  intros Hn. cbn zeta. repeat split.
  all: try (intros Hr; apply degraded_reasons_parts in Hr as [Hr|[Hr|[(l & Hl & [Hr|Hr]%list_reasons_parts)|[Hr|Hr]]]]; [..|done]; other_codes; eauto; fail).
  - intros Hf. apply degraded_reasons_parts; auto.
  - intros Hd. apply degraded_reasons_parts; auto.
  - intros (l & Hl & Hf). apply degraded_reasons_parts; [done|]. right. right. left. exists l. split; [done|]. apply list_reasons_parts. auto.
  - intros Hr. apply degraded_reasons_parts in Hr as [Hr|[Hr|[(l & Hl & [Hr|Hr]%list_reasons_parts)|[Hr|Hr]]]]; [..|done]; other_codes.
    match goal with Ha : exists _, _ |- _ => destruct Ha as (age & Ha & Hs) end. by exists l, age.
  - intros (l & age & Hl & Ha & Hs). apply degraded_reasons_parts; [done|]. right. right. left. exists l. split; [done|].
    apply list_reasons_parts. right. split; [by exists age|done].
  - intros Hl. apply degraded_reasons_parts; auto 6.
  - intros Hp. apply degraded_reasons_parts; auto 6.
  - intros x Hx. assert (Hr : reason_in (dg_reason x) (degraded_reasons runtime failed dropped now)) by (by exists x).
    apply degraded_reasons_parts in Hr; [|done]. unfold reason_codes. rewrite !elem_of_cons.
    destruct Hr as [(_ & ->)|[(_ & ->)|[(l & Hl & [(_ & ->)|(_ & ->)]%list_reasons_parts)|[(_ & ->)|(_ & ->)]]]]; auto 7.
Qed.
(** ** A validated configuration is enough *)
Lemma all_results_lift {A} (P : A -> Prop) (p : Proc LEv A) : all_results P p -> all_results P (lift p).
Proof. induction p as [a|B e k IH|]; cbn; auto. Qed.

Definition not_no_source {A} (r : A + ListError) : Prop := match r with inr (NoSource _) => False | _ => True end.

Lemma acquired_from_result name path origin age : all_results not_no_source (acquired_from name path origin age).
Proof.
  unfold acquired_from, read_list. apply all_results_bind with (fun r => match r with inr (ReadList _ _ _) | inl _ => True | _ => False end).
  - intros [text|e]; done.
  - intros [text|[]]; try done. intros _. by apply all_results_seq.
Qed.

Lemma acquire_result source list_dir online : source_ok source -> all_results not_no_source (acquire_list source list_dir online).
Proof.
  intros ([Hu|Hp] & _); unfold acquire_list; destruct (ls_url source) as [url|]; try done.
  1, 2: apply all_results_seq; intros seed;
    assert (Hf : forall so sn reason, all_results not_no_source (stored_or_seed (ls_name source) url (stored_path_of list_dir (ls_name source)) seed so sn reason))
      by (intros so sn reason; apply all_results_seq; intros []; [apply acquired_from_result|destruct seed; [apply acquired_from_result|done]]);
    destruct online; [apply all_results_seq; intros [a|reason]; [done|apply Hf]|apply Hf].
  destruct (ls_path source); [apply acquired_from_result|done].
Qed.

Lemma load_result sources list_dir online : Forall source_ok sources -> all_results not_no_source (load sources list_dir online).
Proof.
  intros Hs. unfold load. apply all_results_bind with not_no_source.
  { unfold check_list_dir. apply all_results_seq. intros [u|e]; [|done]. apply all_results_seq. intros []; cbn [negb]; [|done].
    destruct online; [|done]. apply all_results_seq. intros [u'|e]; [by apply all_results_seq|done]. }
  intros [u|e] He; [|exact He]. apply all_results_bind with not_no_source.
  - generalize building_new. induction Hs as [|source sources Hok Hs IH]; intros b; cbn [load_loop]; [done|].
    apply all_results_bind with not_no_source; [by apply acquire_result|]. intros [a|e] He'; [|exact He'].
    apply all_results_seq. intros b'. apply IH.
  - intros [b|e] He'; [|exact He']. by apply all_results_seq.
Qed.

(** The URLs an upstream can be made of: of HTTPS with a host and a path, or
    of QUIC with a host. *)
Definition usable_url (raw : list Z) : bool :=
  match url_parse raw with
  | inr _ => false
  | inl url =>
      bool_decide (is_Some (nonempty_host url))
      && if str_eqb (url_scheme url) (lit "https") then negb (bool_decide (url_path url = []) || str_eqb (url_path url) (lit "/"))
         else str_eqb (url_scheme url) (lit "quic")
  end.

(** What the pool says of the others. *)
Definition url_refusal (raw : list Z) (e : UpstreamError) : Prop :=
  match url_parse raw with
  | inr err => e = UnsupportedUrl (raw ++ lit ": " ++ err)
  | inl url =>
      let https := str_eqb (url_scheme url) (lit "https") in
      let quic := str_eqb (url_scheme url) (lit "quic") in
      e = UnsupportedUrl
            (raw ++ if negb (https || quic) then lit ": unsupported scheme '" ++ url_scheme url ++ lit "' (expected https or quic)"
                    else if bool_decide (nonempty_host url = None) then lit ": missing host"
                    else lit ": https URL must include a path (e.g. /dns-query)")
  end.

Lemma parse_upstream_url_usable raw :
  match parse_upstream_url raw with inl _ => usable_url raw = true | inr e => usable_url raw = false /\ url_refusal raw e end.
Proof.
  unfold parse_upstream_url, usable_url, url_refusal. destruct (url_parse raw) as [url|err]; [|done].
  destruct (str_eqb (url_scheme url) (lit "https")), (str_eqb (url_scheme url) (lit "quic")), (nonempty_host url) as [host|]; try done;
    by destruct (bool_decide (url_path url = []) || str_eqb (url_path url) (lit "/")).
Qed.

(** The first server that is no usable URL decides. *)
Definition factories_of (raws : list (list Z)) (r : list NetworkFactory + UpstreamError) : Prop :=
  match r with
  | inl fs => Forall (fun raw => usable_url raw = true) raws /\ map f_url fs = raws
  | inr e => exists pre raw post, raws = pre ++ raw :: post /\ Forall (fun raw => usable_url raw = true) pre /\ usable_url raw = false /\ url_refusal raw e
  end.

Lemma factories_loop_decides cfg tls raws acc :
  bootstrap_ips cfg <> [] ->
  match factories_loop cfg tls raws acc with
  | inl fs => exists fs', fs = acc ++ fs' /\ factories_of raws (inl fs')
  | inr e => factories_of raws (inr e)
  end.
Proof.
  intros Hb. revert acc. induction raws as [|raw raws IH]; intros acc; cbn [factories_loop]; [exists []; by rewrite app_nil_r|].
  pose proof (parse_upstream_url_usable raw) as Hu. destruct (parse_upstream_url raw) as [kind|e]; [|by exists [], raw, raws].
  unfold needs_bootstrap. rewrite bool_decide_false by done. cbn [andb].
  set (f := mkFactory kind (bootstrap_ips cfg) raw tls). specialize (IH (acc ++ [f])).
  destruct (factories_loop cfg tls raws (acc ++ [f])) as [fs|e].
  - destruct IH as (fs' & -> & Hall & Hm). exists (f :: fs'). split; [by rewrite <- app_assoc|]. split; [by constructor|]. cbn. by rewrite Hm.
  - destruct IH as (pre & raw' & post & -> & Hp & Hr). exists (raw :: pre), raw', post. split; [done|]. split; [by constructor|done].
Qed.

(** C34: what validation promises the components: with a configuration that
    validates, the cache is constructed (its assertions hold), safe search
    is never refused, no list is without a source at any point of a load,
    and the upstream pool gets one factory per server exactly when every
    server is an HTTPS URL with a host and a path or a QUIC URL with a
    host. Validation does not promise that: it looks at the first letters
    of a server only, and the pool refuses the first one that does not
    parse, has no host, has no path ([https_without_path]) or another
    scheme, with that reason. *)
Theorem valid_config_accepted c :
  validate c = inl tt -> 0 <= max_entries (cache c) ->
  (exists x, with_limits (max_entries (cache c)) DEFAULT_MAX_BYTES (serve_stale_secs (cache c)) = Some x)
  /\ (forall online, all_results (fun r => match r with inr (SafeSearchE _) | inr (ListsE (NoSource _)) => False | _ => True end) (build_policy c online))
  /\ (forall roots, urls (pool_config c roots) <> [] /\ 100 <= timeout_ms (pool_config c roots) <= 30000
       /\ forall tls, factories_of (servers (upstreams c)) (factories (pool_config c roots) tls)).
Proof.
  intros Hv Hm. apply validate_ok in Hv as (_ & _ & Hs & _ & Hb & Ht & _ & _ & _ & Hc & _ & Hp & _ & _ & _ & Hl).
  split; [|split].
  - unfold with_limits, assert. rewrite (proj2 (Z.ltb_lt 0 (max_entries (cache c)))) by lia. cbn. eauto.
  - intros online. unfold build_policy, ss_new. rewrite (proj2 (validate_providers_None _) Hp).
    assert (Hload : all_results not_no_source (lift (load (effective_lists c) (list_dir (filtering c)) online)))
      by (by apply all_results_lift, load_result).
    destruct (negb _); [|destruct (Config.ss_providers _)];
      (apply all_results_bind with not_no_source; [exact Hload|]; intros [loaded|e] He; [done|destruct e; done]).
  - intros roots. split; [done|]. split; [done|]. intros tls. unfold factories.
    pose proof (factories_loop_decides (pool_config c roots) tls (urls (pool_config c roots)) [] Hb) as Hf.
    destruct (factories_loop _ _ _ _) as [fs|e]; [|done]. by destruct Hf as (fs' & -> & Hf).
Qed.
End Spec.

(** The first day of a list that no longer downloads. *)
Definition failing_report : RuntimeReport :=
  mkReport 1000000 [mkListReport (lit "oisd") (StoredAfterFetchFailure (lit "dns")) 10 0 (Some (2 * 86400))] [] [] None [] 0.
Lemma degraded_reasons_exact_witness :
  reason_in (lit "list_fetch_failed") (degraded_reasons failing_report 0 0 1086401)
  /\ reason_in (lit "list_stale") (degraded_reasons failing_report 0 0 1086401).
Proof.
  destruct (degraded_reasons_exact failing_report 0 0 1086401 ltac:(vm_compute; discriminate)) as (_ & _ & Hf & Hs & _).
  split; [apply Hf|apply Hs].
  - exists (mkListReport (lit "oisd") (StoredAfterFetchFailure (lit "dns")) 10 0 (Some (2 * 86400))). split; [by left|reflexivity].
  - exists (mkListReport (lit "oisd") (StoredAfterFetchFailure (lit "dns")) 10 0 (Some (2 * 86400))), (2 * 86400).
    split; [by left|]. split; [reflexivity|]. vm_compute. reflexivity.
Defined.

