(* ===== verification/Cli.v ===== *)
(** * Cli: the commands ([crates/cli/src])

    The output envelope and the commands that report on or steer the
    daemon: [status], [reload], [explain], [check]. A command is a function
    of the machine it runs on (the config file, the database file, the
    clock; the disk of the lists as events) to what it prints, its exit
    code and the machine it leaves: opening the database runs every
    statement of [Db::open] on the file, creating it if need be. *)
From S2P Require Import Prelude Text Time Num IpAddr FilterTypes Parse Engine Dns Cache SafeSearch Proc Shadow Db Schema Pipeline Result Config Upstream Lists Daemon.

Definition SCHEMA : list Z := lit "v1".
Definition HEARTBEAT_FRESH_SECS : Z := 150.
Definition i32_max : Z := 2147483647.

(** ** JSON values *)
Inductive Value :=
| Null
| Bool (b : bool)
| Number (n : Z)
| Str (s : list Z)
| Array (l : list Value)
| Object (fields : list (list Z * Value)).

(** [value["key"]]: [Null] when there is none. *)
Fixpoint field (key : list Z) (fields : list (list Z * Value)) : Value :=
  match fields with
  | [] => Null
  | (k, v) :: fields => if str_eqb k key then v else field key fields
  end.
Definition get (v : Value) (key : list Z) : Value := match v with Object fields => field key fields | _ => Null end.
Definition as_u64 (v : Value) : option Z := match v with Number n => try_from u64_max n | _ => None end.
Definition as_str (v : Value) : option (list Z) := match v with Str s => Some s | _ => None end.
Definition as_array (v : Value) : option (list Value) := match v with Array l => Some l | _ => None end.

(** [Map::insert] *)
Fixpoint insert_field (key : list Z) (x : Value) (fields : list (list Z * Value)) : list (list Z * Value) :=
  match fields with
  | [] => [(key, x)]
  | (k, v) :: fields => if str_eqb k key then (key, x) :: fields else (k, v) :: insert_field key x fields
  end.
Definition keys (v : Value) : list (list Z) := match v with Object fields => map fst fields | _ => [] end.

Definition opt_str (o : option (list Z)) : Value := match o with Some s => Str s | None => Null end.

(** ** [Debug] of strings

    ASCII as the standard library escapes it; how a character beyond ASCII
    prints is read off the Unicode tables. *)
Definition hex_lower (n : Z) : list Z := if n <? 16 then [hex_digit n] else [hex_digit (n / 16); hex_digit (n mod 16)].
Definition escape_ascii (b : Z) : list Z :=
  if b =? 0 then lit "\0"
  else if b =? 9 then lit "\t"
  else if b =? 10 then lit "\n"
  else if b =? 13 then lit "\r"
  else if b =? 34 then [92; 34]
  else if b =? 92 then [92; 92]
  else if (b <? 32) || (b =? 127) then lit "\u{" ++ hex_lower b ++ lit "}"
  else [b].

(** [serde_json], the derived serializations, the Unicode tables, and the
    text of a conversion error. *)
Class CliOps := {
  value_from_str : list Z -> Value + list Z;
  value_display : Value -> list Z;
  lists_value : list ListReport -> Value;
  outcome_value : option ReloadOutcome -> Value;
  escape_char : list Z -> list Z;
  (* rusqlite on a row it cannot convert *)
  row_error : QueryRow -> list Z
}.

Record Output := mkOutput { o_stdout : list Z; o_stderr : list Z; o_code : Z }.

#[export] Instance ReloadOutcome_eq_dec : EqDecision ReloadOutcome.
Proof. assert (EqDecision Trigger) by solve_decision. solve_decision. Defined.

Section Cli.
Context `{DaemonOps} `{CliOps}.

Definition flush_char (cur : list Z) : list Z := if bool_decide (cur = []) then [] else escape_char cur.
Fixpoint debug_go (cur s : list Z) : list Z :=
  match s with
  | [] => flush_char cur
  | b :: s =>
      if b <? 128 then flush_char cur ++ escape_ascii b ++ debug_go [] s
      else if cont b then debug_go (cur ++ [b]) s
      else flush_char cur ++ debug_go [b] s
  end.
Definition debug_str (s : list Z) : list Z := [34] ++ debug_go [] s ++ [34].

(** ** The envelope ([output.rs]): [None] is a panic *)
Definition emit_code (json_mode : bool) (command : list Z) (payload : Value) (human : list Z) (code : Z) : option Output :=
  if json_mode then
    match payload with
    | Object fields =>
        let fields := insert_field (lit "command") (Str command) (insert_field (lit "schema") (Str SCHEMA) fields) in
        Some (mkOutput (value_display (Object fields) ++ [c_nl]) [] code)
    | _ => None
    end
  else Some (mkOutput (if bool_decide (human = []) then [] else human ++ [c_nl]) [] code).
Definition emit (json_mode : bool) (command : list Z) (payload : Value) (human : list Z) : option Output :=
  emit_code json_mode command payload human 0.
Definition fail (json_mode : bool) (command message : list Z) (code : Z) : option Output :=
  Some (if json_mode
        then mkOutput (value_display (Object [(lit "schema", Str SCHEMA); (lit "command", Str command); (lit "error", Str message)]) ++ [c_nl]) [] code
        else mkOutput [] (lit "error: " ++ message ++ [c_nl]) code).

(** ** The machine a command runs on *)
Record Machine := mkMachine {
  m_config : list Z + list Z;         (* the config file *)
  m_db : option DbFile;               (* the database file, if there is one *)
  m_open : nat -> nat -> SOracle;     (* what happens to the j-th operation of the i-th opening *)
  m_sql : nat -> option (list Z);     (* the i-th read of it fails *)
  m_now : Z
}.
Definition with_db_file (m : Machine) (f : option DbFile) : Machine := mkMachine (m_config m) f (m_open m) (m_sql m) (m_now m).

Definition load_config (m : Machine) (path : list Z) : Config + list Z := map_err config_error_text (config_load (m_config m) path).

(** [Db::open], the [i]-th of the command: the file is there once the
    connection is, with whatever the statements did to it, even when one of
    them fails. (Nothing in it panics: [open_db_runs].) *)
Definition open_db (m : Machine) (i : nat) (cfg : Config) : (Tables + list Z) * Machine :=
  let path := db_path (database cfg) in
  match Proc.perform_each sexec (m_open m i) 0 (db_open_file path) (default file_new (m_db m)) with
  | Some (opened, f) =>
      (match opened with inl _ => inl (tables_of f) | inr e => inr (db_error_text e) end,
       with_db_file m (match so_fail (m_open m i 0%nat) with Some _ => m_db m | None => Some f end))
  | None => (inr [], m)
  end.
Definition query {A} (m : Machine) (i : nat) (a : A) : A + list Z :=
  match m_sql m i with Some e => inr (db_error_text (Db.Sql e)) | None => inl a end.

(** ** [status] *)
Definition upstream_line (entry : Value) : list Z :=
  let last := match as_u64 (get entry (lit "last_success_secs_ago")) with
              | None => lit "never answered"
              | Some s => lit "last answer " ++ to_string s ++ lit "s ago"
              end in
  [c_nl] ++ lit "upstream " ++ default (lit "?") (as_str (get entry (lit "url"))) ++ lit " (" ++ last ++ lit ", "
  ++ value_display (get entry (lit "queries")) ++ lit " queries, " ++ value_display (get entry (lit "failures")) ++ lit " failures, "
  ++ value_display (get entry (lit "reconnects")) ++ lit " reconnects)".

Definition running_text (hb : Heartbeat) (age : list Z) (pool upstreams dropped dropped_recent : Value) : list Z :=
  lit "running: pid " ++ to_string (hb_pid hb) ++ lit " (heartbeat " ++ age ++ lit "s ago)" ++ [c_nl]
  ++ lit "config " ++ hb_config_hash hb ++ [c_nl] ++ lit "lists  " ++ hb_lists_hash hb
  ++ match as_array upstreams with Some l => concat (map upstream_line l) | None => [] end
  ++ match as_u64 (get pool (lit "consecutive_all_failed")) with
     | Some stuck =>
         if 0 <? stuck
         then [c_nl] ++ lit "ERROR: every upstream is failing (" ++ to_string stuck ++ lit " consecutive queries unanswered)" else []
     | None => []
     end
  ++ (let note := match as_u64 dropped with
                  | Some total =>
                      if 0 <? total then [c_nl] ++ lit "note: " ++ to_string total ++ lit " query-log events dropped since start" else []
                  | None => []
                  end in
      match as_u64 dropped_recent with
      | Some count =>
          if 0 <? count
          then [c_nl] ++ lit "WARNING: " ++ to_string count ++ lit " query-log events dropped since the last sample" else note
      | None => note
      end).

Definition list_line (l : ListReport) : list Z :=
  let confirmed := match verified_age_secs l with Some s => lit ", confirmed " ++ to_string (s / 3600) ++ lit " h ago" | None => [] end in
  [c_nl] ++ lit "list " ++ lr_name l ++ lit " (" ++ origin_as_str (lr_origin l) ++ lit ", " ++ to_string (lr_rules l) ++ lit " rules" ++ confirmed ++ lit ")".
Definition reason_line (r : Degraded) : list Z :=
  [c_nl] ++ lit "DEGRADED " ++ dg_reason r ++ lit ": " ++ dg_detail r ++ lit " (next: " ++ dg_next r ++ lit ")".
Definition runtime_text (runtime : RuntimeReport) (reasons : list Degraded) : list Z :=
  concat (map list_line (rr_lists runtime)) ++ concat (map reason_line reasons).

(** [to_string] of an [i64]. *)
Definition signed_to_string (n : Z) : list Z := if n <? 0 then c_hyphen :: to_string (- n) else to_string n.

Definition never_ran : Value :=
  Object (
    [(lit "running", Bool false); (lit "degraded", Bool false); (lit "degraded_reasons", Array [])]
    ++ map (fun k => (k, Null))
         [lit "lists"; lit "last_reload"; lit "pending_restart"; lit "next_refresh_ts"; lit "pid"; lit "started_ts"; lit "updated_ts";
          lit "heartbeat_age_secs"; lit "config_hash"; lit "lists_hash"; lit "log_events_dropped"; lit "log_events_dropped_recent";
          lit "upstreams"; lit "queries_resolved"; lit "queries_all_upstreams_failed"; lit "consecutive_all_upstreams_failed"]).

Definition reason_value (r : Degraded) : Value :=
  Object [(lit "reason", Str (dg_reason r)); (lit "detail", Str (dg_detail r)); (lit "next", Str (dg_next r))].

Definition status_payload (hb : Heartbeat) (age : Z) (running : bool) (reasons : list Degraded) (runtime : RuntimeReport)
  (pool upstreams dropped dropped_recent : Value) : Value :=
  Object
    [(lit "running", Bool running); (lit "degraded", Bool (negb (len reasons =? 0)));
     (lit "degraded_reasons", Array (map reason_value reasons)); (lit "lists", lists_value (rr_lists runtime));
     (lit "last_reload", outcome_value (last_reload runtime)); (lit "pending_restart", Array (map Str (pending_restart runtime)));
     (lit "next_refresh_ts", Number (next_refresh_ts runtime)); (lit "pid", Number (hb_pid hb));
     (lit "started_ts", Number (hb_started_ts hb)); (lit "updated_ts", Number (hb_updated_ts hb));
     (lit "heartbeat_age_secs", Number age); (lit "config_hash", Str (hb_config_hash hb)); (lit "lists_hash", Str (hb_lists_hash hb));
     (lit "log_events_dropped", dropped); (lit "log_events_dropped_recent", dropped_recent); (lit "upstreams", upstreams);
     (lit "queries_resolved", get pool (lit "resolved")); (lit "queries_all_upstreams_failed", get pool (lit "all_failed_total"));
     (lit "consecutive_all_upstreams_failed", get pool (lit "consecutive_all_failed"))].

(** From the rows read to the payload, the text and the exit code. *)
Definition status_of (hb : option Heartbeat) (stats : option DaemonStats) (now : Z) : Value * list Z * Z :=
  let pool := match stats with Some s => match value_from_str (ds_upstreams_json s) with inl v => v | inr _ => Null end | None => Null end in
  let upstreams := get pool (lit "upstreams") in
  let dropped := match stats with Some s => Number (ds_log_events_dropped s) | None => Null end in
  let dropped_recent := match stats with Some s => Number (ds_log_events_dropped_recent s) | None => Null end in
  let runtime := default report_default (s ← stats; ok (report_of_json (ds_runtime_json s))) in
  match hb with
  | Some hb =>
      let age := now - hb_updated_ts hb in
      let running := age <=? HEARTBEAT_FRESH_SECS in
      let reasons := if running
                     then degraded_reasons runtime (default 0 (as_u64 (get pool (lit "consecutive_all_failed"))))
                            (default 0 (as_u64 dropped_recent)) now
                     else [] in
      let degraded := negb (len reasons =? 0) in
      let human := if running
                   then running_text hb (signed_to_string age) pool upstreams dropped dropped_recent ++ runtime_text runtime reasons
                   else lit "NOT running: last heartbeat " ++ signed_to_string age ++ lit "s ago (pid was " ++ to_string (hb_pid hb) ++ lit ")" in
      (status_payload hb age running reasons runtime pool upstreams dropped dropped_recent, human,
       match running, degraded with true, false => 0 | true, true => 7 | false, _ => 5 end)
  | None => (never_ran, lit "NOT running: no heartbeat recorded", 5)
  end.

Definition status_run (m : Machine) (path : list Z) (json : bool) : option Output * Machine :=
  match load_config m path with
  | inr e => (fail json (lit "status") e 1, m)
  | inl cfg =>
      let '(db, m) := open_db m 0 cfg in
      (match db with
       | inr e => fail json (lit "status") e 1
       | inl db =>
           match query m 0 (heartbeat db) with
           | inr e => fail json (lit "status") e 1
           | inl hb =>
               match query m 1 (daemon_stats db) with
               | inr e => fail json (lit "status") e 1
               | inl stats =>
                   let '(payload, human, code) := status_of hb stats (m_now m) in
                   emit_code json (lit "status") payload human code
               end
           end
       end, m)
  end.

(** ** [reload] *)
Definition is_signal (t : Trigger) : bool := match t with Signal => true | _ => false end.

(** [db] is [None] when the read fails. *)
Definition last_signal_reload (db : option Tables) : option ReloadOutcome :=
  db ← db;
  stats ← daemon_stats db;
  runtime ← ok (report_of_json (ds_runtime_json stats));
  o ← last_reload runtime;
  if is_signal (ro_trigger o) then Some o else None.

Definition POLL : Duration := from_millis 250.

(** The polls: when the loop looks at the clock, and what the database
    holds after the sleep. [None] when the fuel runs out. *)
Fixpoint reload_wait (fuel : nat) (i : nat) (deadline : Instant) (polls : nat -> Instant * option Tables) (before : option ReloadOutcome)
  : option (option ReloadOutcome) :=
  match fuel with
  | O => None
  | S fuel =>
      let '(now, db) := polls i in
      if now <? deadline then
        match last_signal_reload db with
        | None => reload_wait fuel (S i) deadline polls before
        | Some outcome =>
            if bool_decide (Some outcome = before) then reload_wait fuel (S i) deadline polls before else Some (Some outcome)
        end
      else Some None
  end.

Definition reload_payload (pid : Z) (outcome : option ReloadOutcome) : Value :=
  Object [(lit "signalled_pid", Number pid); (lit "outcome", outcome_value outcome)].

(** What the wait comes to. *)
Definition reload_report (json : bool) (pid wait_secs : Z) (waited : option ReloadOutcome) : option Output :=
  match waited with
  | Some outcome =>
      if ro_ok outcome
      then emit json (lit "reload") (reload_payload pid waited)
             (lit "reload applied by pid " ++ to_string pid ++ lit " in " ++ to_string (ro_duration_ms outcome) ++ lit " ms")
      else emit_code json (lit "reload") (reload_payload pid waited)
             (lit "reload FAILED, previous lists and policy still in force: " ++ default [] (ro_error outcome)) 1
  | None =>
      emit_code json (lit "reload") (reload_payload pid None)
        (lit "signalled pid " ++ to_string pid ++ lit ", but it reported no outcome within " ++ to_string wait_secs
         ++ lit "s; check `sumidero status`") 8
  end.

(** [Instant::now() + Duration::from_secs(wait_secs)]: an [Instant] counts
    its seconds in an [i64], and the sum panics beyond ([None]). *)
Definition instant_add (start : Instant) (secs : Z) : option Instant :=
  if (start + from_secs secs) / ns_per_sec <=? i64_max then Some (start + from_secs secs) else None.

(** [kill] fails with its text; the outer [None] is out of fuel. *)
Definition reload_run (fuel : nat) (m : Machine) (path : list Z) (json : bool) (wait_secs : Z) (kill : option (list Z)) (start : Instant)
  (polls : nat -> Instant * option Tables) : option (option Output * Machine) :=
  let error m e code := Some (fail json (lit "reload") e code, m) in
  match load_config m path with
  | inr e => error m e 1
  | inl cfg =>
      let '(db, m) := open_db m 0 cfg in
      match (let? db := db in query m 0 (heartbeat db)) with
      | inr e => error m e 1
      | inl None => error m (lit "daemon not running (no heartbeat)") 5
      | inl (Some hb) =>
          let age := m_now m - hb_updated_ts hb in
          if HEARTBEAT_FRESH_SECS <? age
          then error m (lit "daemon not running (heartbeat " ++ signed_to_string age ++ lit "s old)") 5
          else if i32_max <? hb_pid hb then error m (lit "heartbeat pid out of range") 1
          else
            let '(db, m) := open_db m 1 cfg in
            match db with
            | inr e => error m e 1
            | inl db =>
                let before := last_signal_reload (match m_sql m 1 with Some _ => None | None => Some db end) in
                match kill with
                | Some e => error m (lit "cannot signal pid " ++ to_string (hb_pid hb) ++ lit ": " ++ e) 1
                | None =>
                    if wait_secs =? 0
                    then Some (emit json (lit "reload") (reload_payload (hb_pid hb) None) (lit "reload signalled to pid " ++ to_string (hb_pid hb)), m)
                    else
                      match instant_add start wait_secs with
                      | None => Some (None, m)
                      | Some deadline =>
                          waited ← reload_wait fuel 0 deadline polls before;
                          Some (reload_report json (hb_pid hb) wait_secs waited, m)
                      end
                end
            end
      end
  end.

(** ** [explain] *)
Definition plausible_byte (b : Z) : bool :=
  is_ascii_alphanumeric b || (b =? c_hyphen) || (b =? c_underscore) || (b =? c_dot) || (b =? c_star).
Definition plausible_domain (domain : list Z) : bool :=
  negb (bool_decide (domain = [])) && (len domain <=? 254) && forallb plausible_byte domain.
End Cli.

Section Offline.
Context `{DaemonOps} `{CliOps} `{ListsOps} `{UnstableSort}.
Notation Io := (Proc LEv).

(** The verdict's name, rule, list and exit code. *)
Definition verdict_parts (v : Verdict) : list Z * option (list Z) * option Z * Z :=
  match v with
  | VNoMatch => (lit "no-match", None, None, 0)
  | VBlock l rule => (lit "blocked", Some (mr_text rule), Some l, 3)
  | VExcept l rule => (lit "excepted", Some (mr_text rule), Some l, 4)
  end.

Definition stale_text : list Z :=
  lit "list hash differs from the daemon's heartbeat: the daemon may be filtering with a different rule set than this verdict".

(** [daemon_hash] comes from the heartbeat, if it can be read. *)
Definition explained (json : bool) (domain : list Z) (loaded : LoadedLists) (daemon_hash : option (list Z)) (v : Verdict) : option Output :=
  let hash_match := (fun h => str_eqb h (ll_hash loaded)) <$> daemon_hash in
  let stale_warning := match hash_match with Some false => Some stale_text | _ => None end in
  let '(verdict_str, rule, list_, code) := verdict_parts v in
  list_name ← match list_ with
              | None => Some None
              | Some l => n ← ll_names loaded !! Z.to_nat l; Some (Some n)
              end;
  let payload := Object
    [(lit "domain", Str domain); (lit "verdict", Str verdict_str); (lit "rule", opt_str rule); (lit "list", opt_str list_name);
     (lit "lists_hash", Str (ll_hash loaded)); (lit "daemon_lists_hash", opt_str daemon_hash);
     (lit "hash_match", match hash_match with Some b => Bool b | None => Null end); (lit "warning", opt_str stale_warning)] in
  let human := match rule, list_name with
               | Some rule, Some l => domain ++ lit ": " ++ verdict_str ++ lit " by `" ++ rule ++ lit "` (list " ++ l ++ lit ")"
               | _, _ => domain ++ lit ": " ++ verdict_str
               end in
  let human := match stale_warning with Some w => human ++ [c_nl] ++ lit "warning: " ++ w | None => human end in
  emit_code json (lit "explain") payload human code.

(** [ok] of the heartbeat's list hash. *)
Definition daemon_lists_hash (m : Machine) (db : Tables + list Z) : option (list Z) :=
  db ← ok db;
  hb ← ok (query m 0 (heartbeat db));
  hb_lists_hash <$> hb.

(** The command prints [fst r] on a machine it leaves as [snd r]. *)
Definition ends_with_machine (r : option Output * Machine) : Io (Output * Machine) := out ← expect (fst r); Ret (out, snd r).

(** [runtime]: building the async runtime fails. *)
Definition explain_run (m : Machine) (path : list Z) (json : bool) (runtime : option (list Z)) (domain : list Z) : Io (Output * Machine) :=
  let error e code := ends_with_machine (fail json (lit "explain") e code, m) in
  if negb (plausible_domain domain)
  then error (debug_str domain ++ lit " is not a plausible DNS name") 2
  else
    match load_config m path, runtime with
    | inr e, _ => error e 1
    | inl _, Some e => error e 1
    | inl cfg, None =>
        loaded ← load (effective_lists cfg) (list_dir (filtering cfg)) false;
        match loaded with
        | inr e => error (list_error_text e) 1
        | inl loaded =>
            let '(db, m) := open_db m 0 cfg in
            let daemon_hash := daemon_lists_hash m db in
            v ← expect (verdict (ll_engine loaded) domain);
            ends_with_machine (explained json domain loaded daemon_hash v, m)
        end
    end.

(** ** [check] *)
Record CheckReport := mkCheckReport {
  ck_lists : list (list Z);
  ck_rule_counts : list Z;
  ck_issues : Z;
  ck_lists_hash : list Z;
  ck_config_hash : list Z
}.

Definition check_validate (m : Machine) (path : list Z) (runtime : option (list Z)) : Io (CheckReport + list Z) :=
  match load_config m path, runtime with
  | inr e, _ => Ret (inr e)
  | inl _, Some e => Ret (inr e)
  | inl cfg, None =>
      loaded ← load (effective_lists cfg) (list_dir (filtering cfg)) false;
      match loaded with
      | inr e => Ret (inr (list_error_text e))
      | inl loaded =>
          hash ← expect (config_hash cfg);
          Ret (inl (mkCheckReport (ll_names loaded) (map lr_rules (ll_reports loaded)) (len (ll_issues loaded)) (ll_hash loaded) hash))
      end
  end.

Definition check_run (m : Machine) (path : list Z) (json : bool) (runtime : option (list Z)) : Io Output :=
  checked ← check_validate m path runtime;
  match checked with
  | inl report =>
      let total := foldr Z.add 0 (ck_rule_counts report) in
      let payload := Object
        [(lit "valid", Bool true); (lit "lists", Array (map Str (ck_lists report))); (lit "rule_counts", Array (map Number (ck_rule_counts report)));
         (lit "total_rules", Number total); (lit "parse_issues", Number (ck_issues report)); (lit "lists_hash", Str (ck_lists_hash report));
         (lit "config_hash", Str (ck_config_hash report))] in
      expect (emit json (lit "check") payload
        (lit "config OK: " ++ to_string (len (ck_lists report)) ++ lit " lists, " ++ to_string total ++ lit " rules, "
         ++ to_string (ck_issues report) ++ lit " parse issues"))
  | inr e => expect (fail json (lit "check") e 1)
  end.
End Offline.
