(* ===== verification/CliSpec.v ===== *)
(** * CliSpec: exit codes that mean something

    [status] against what the daemon publishes, the wait of [reload], what
    opening the database does to it, and [explain] against the matcher. *)
From S2P Require Import Prelude Text Time Num IpAddr FilterTypes Parse Engine Dns Cache SafeSearch Proc Shadow Db Schema SchemaSpec Pipeline Result Config Upstream Lists ListsSpec Daemon DaemonSpec Cli.

(** ** [status] *)
Section Status.
Context `{DaemonOps} `{CliOps}.

Definition status_keys : list (list Z) := keys never_ran.

(** What the last published stats say, as [status] reads them. *)
Definition read_pool (stats : option DaemonStats) : Value :=
  match stats with Some s => match value_from_str (ds_upstreams_json s) with inl v => v | inr _ => Null end | None => Null end.
Definition read_runtime (stats : option DaemonStats) : RuntimeReport :=
  default report_default (s ← stats; ok (report_of_json (ds_runtime_json s))).
Definition read_dropped (stats : option DaemonStats) : Z :=
  default 0 (s ← stats; try_from u64_max (ds_log_events_dropped_recent s)).
Definition read_failed (stats : option DaemonStats) : Z := default 0 (as_u64 (get (read_pool stats) (lit "consecutive_all_failed"))).

Definition status_reasons (stats : option DaemonStats) (now : Z) : list Degraded :=
  degraded_reasons (read_runtime stats) (read_failed stats) (read_dropped stats) now.

Definition fresh (hb : option Heartbeat) (now : Z) : bool :=
  match hb with Some hb => now - hb_updated_ts hb <=? HEARTBEAT_FRESH_SECS | None => false end.

Lemma status_code hb stats now :
  snd (status_of hb stats now) = if fresh hb now then if len (status_reasons stats now) =? 0 then 0 else 7 else 5.
Proof.
  unfold status_of, fresh. destruct hb as [hb|]; [|done]. cbn [snd].
  assert (E : default 0 (as_u64 match stats with Some s => Number (ds_log_events_dropped_recent s) | None => Null end) = read_dropped stats)
    by (unfold read_dropped; by destruct stats). rewrite E.
  fold (read_pool stats) (read_runtime stats) (read_failed stats) (status_reasons stats now).
  destruct (_ <=? _); [|done]. by destruct (len (status_reasons stats now) =? 0).
Qed.

Lemma status_payload_keys hb stats now : keys (fst (fst (status_of hb stats now))) = status_keys.
Proof. unfold status_of. by destruct hb. Qed.

(** What the daemon leaves in the database: its heartbeat row, its counters
    and its report. *)
Definition published (t : Tables) (hb : Heartbeat) (ts dropped recent : Z) (health report : list Z) : Tables :=
  write_daemon_stats (write_heartbeat t hb) (mkDaemonStats ts dropped recent health report).

Lemma cast_roundtrip n : 0 <= n <= u64_max -> cast_unsigned (cast_signed n) = n.
Proof.
  unfold cast_unsigned, cast_signed. intros Hn. destruct (Z.leb_spec n i64_max).
  - by rewrite (proj2 (Z.leb_le 0 n)) by lia.
  - destruct (Z.leb_spec 0 (n - (u64_max + 1))); [unfold u64_max in *; lia|lia].
Qed.

(** C32: [status] has exactly the codes 0, 5 and 7, and the same JSON fields
    whether the daemon runs, died or never ran. Over a database in which
    the daemon published its heartbeat, its report and its counters, the
    code is 5 exactly when the heartbeat is more than 150 s old, else 0 or
    7 by whether the daemon's own report, its failing upstreams and its
    recent drops give a reason. *)
Theorem status_reports_daemon t hb ts dropped recent health report pool runtime now :
  0 <= hb_pid hb <= u32_max -> 0 <= recent <= u64_max ->
  value_from_str health = inl pool -> report_of_json report = inl runtime ->
  let out := status_of (heartbeat (published t hb ts dropped recent health report)) (daemon_stats (published t hb ts dropped recent health report)) now in
  keys (fst (fst out)) = keys (fst (fst (status_of None None now)))
  /\ snd out = if HEARTBEAT_FRESH_SECS <? now - hb_updated_ts hb then 5
              else if bool_decide (degraded_reasons runtime (default 0 (as_u64 (get pool (lit "consecutive_all_failed")))) recent now = []) then 0 else 7.
Proof.
  intros Hp Hr Hv Hj. cbn zeta. split; [by rewrite !status_payload_keys|]. rewrite status_code.
  unfold published, heartbeat, daemon_stats, write_daemon_stats, write_heartbeat. cbn [t_heartbeat t_stats set_stats set_heartbeat fmap option_fmap option_map].
  unfold fresh. cbn [hb_updated_ts]. rewrite Z.ltb_antisym. destruct (now - hb_updated_ts hb <=? HEARTBEAT_FRESH_SECS); cbn [negb]; [|done].
  assert (E : forall l : list Degraded, (if len l =? 0 then 0 else 7) = if bool_decide (l = []) then 0 else 7).
  { intros [|x l]; [done|]. rewrite len_cons, bool_decide_false by done. pose proof (len_nonneg l). by rewrite (proj2 (Z.eqb_neq _ 0)) by lia. }
  rewrite E. unfold status_reasons, read_runtime, read_failed, read_dropped, read_pool. cbn [ds_upstreams_json ds_runtime_json ds_log_events_dropped_recent mbind option_bind].
  rewrite Hv, Hj, cast_roundtrip, try_from_Some by done. done.
Qed.
End Status.

(** ** [reload] *)
Section Reload.
Context `{DaemonOps} `{CliOps}.

(** The clock of the polls: each comes at least [POLL] after the last. *)
Definition poll_clock (start : Instant) (polls : nat -> Instant * option Tables) : Prop :=
  start <= fst (polls 0%nat) /\ forall i, fst (polls i) + POLL <= fst (polls (S i)).

(** The outcome a poll shows that was not there before. *)
Definition news (before : option ReloadOutcome) (db : option Tables) : option ReloadOutcome :=
  o ← last_signal_reload db; if bool_decide (Some o = before) then None else Some o.

Lemma poll_time start polls i : poll_clock start polls -> start + Z.of_nat i * POLL <= fst (polls i).
Proof. intros (Hz & Hs). induction i as [|i IH]; [lia|]. pose proof (Hs i). lia. Qed.

(** What the wait gives, from its poll [i] on. *)
Definition waits (deadline : Instant) (polls : nat -> Instant * option Tables) (before : option ReloadOutcome) (i : nat)
  (r : option ReloadOutcome) : Prop :=
  exists j, (i <= j)%nat
    /\ (forall k, (i <= k < j)%nat -> fst (polls k) < deadline /\ news before (snd (polls k)) = None)
    /\ match r with
       | Some o => fst (polls j) < deadline /\ news before (snd (polls j)) = Some o
       | None => deadline <= fst (polls j)
       end.

Lemma reload_wait_spec fuel start deadline polls before : forall i,
  poll_clock start polls -> deadline <= start + (Z.of_nat (i + fuel) - 1) * POLL -> (0 < fuel)%nat ->
  exists r, reload_wait fuel i deadline polls before = Some r /\ waits deadline polls before i r.
Proof.
  induction fuel as [|fuel IH]; intros i Hc Hd Hf; [lia|]. cbn [reload_wait].
  pose proof (poll_time start polls i Hc) as Ht. assert (Hp : 0 < POLL) by (unfold POLL, from_millis, ns_per_ms; lia).
  destruct (polls i) as [now db] eqn:Ei. destruct (Z.ltb_spec now deadline) as [Hn|Hn].
  2: { exists None. split; [done|]. exists i. split; [lia|]. split; [intros k Hk; lia|]. by rewrite Ei. }
  assert (Hgo : news before db = None -> exists r, reload_wait fuel (S i) deadline polls before = Some r /\ waits deadline polls before i r).
  { intros Hnews. destruct (IH (S i) Hc) as (r & Hr & (j & Hj & Hq & Hj')).
    - replace (S i + fuel)%nat with (i + S fuel)%nat by lia. done.
    - destruct fuel; [|lia]. exfalso. cbn [fst] in Ht. replace (i + 1)%nat with (S i) in Hd by lia. nia.
    - exists r. split; [done|]. exists j. split; [lia|]. split; [|done]. intros k Hk.
      destruct (Nat.eq_dec k i) as [->|]; [|apply Hq; lia]. rewrite Ei. done. }
  unfold news in Hgo. destruct (last_signal_reload db) as [o|] eqn:El; [|by apply Hgo]. cbn [mbind option_bind] in Hgo.
  destruct (bool_decide (Some o = before)) eqn:Eb; [by apply Hgo|].
  exists (Some o). split; [done|]. exists i. split; [lia|]. split; [intros k Hk; lia|]. rewrite Ei. split; [done|]. cbn [snd]. unfold news.
  rewrite El. cbn. by rewrite Eb.
Qed.

End Reload.

(** ** Opening the database *)
Section Opening.
Context `{DaemonOps} `{CliOps}.

(** Nothing in [Db::open] panics: a machine always has an outcome. *)
Lemma err_into_no_panic {Ev : Type -> Type} {A B C} (f : B -> C) (p : Proc Ev (A + B)) : no_panic p -> no_panic (err_into f p).
Proof. intros Hp. apply no_panic_bind; [done|]. by intros [a|b]. Qed.

Lemma await_no_panic {Ev : Type -> Type} {A B C} (p : Proc Ev (A + B)) (f : A -> Proc Ev (C + B)) :
  no_panic p -> (forall a, no_panic (f a)) -> no_panic (await? a := p in f a).
Proof. intros Hp Hf. apply no_panic_bind; [done|]. intros [a|b]; [apply Hf|done]. Qed.

Lemma execute_batch_no_panic l : no_panic (execute_batch l).
Proof. induction l as [|s l IH]; [done|]. apply await_no_panic; [done|]. by intros _. Qed.

Lemma migrate_step_no_panic due has s : no_panic has -> no_panic (migrate_step due has s).
Proof. intros Hh. unfold migrate_step. destruct due; [|done]. apply await_no_panic; [done|]. by intros []. Qed.

Lemma ensure_no_panic : no_panic ensure_schema_version.
Proof.
  apply no_panic_bind; [done|]. intros [v|]; [|by apply err_into_no_panic]. cbv zeta.
  destruct (SCHEMA_VERSION <? default 0 (parse_uint u32_max v)); [done|]. destruct (default 0 (parse_uint u32_max v) <? SCHEMA_VERSION); [|done].
  apply await_no_panic; [|intros _; by apply err_into_no_panic]. apply err_into_no_panic.
  repeat (apply await_no_panic; [|intros _]); apply migrate_step_no_panic; try done; (apply await_no_panic; [done|]); done.
Qed.

Lemma db_open_no_panic path : no_panic (db_open_file path).
Proof.
  unfold db_open_file, open_with_queue_capacity. repeat (apply await_no_panic; [|intros _]); [..|done].
  - by apply err_into_no_panic.
  - apply err_into_no_panic. repeat (apply await_no_panic; [done|intros _]). done.
  - apply err_into_no_panic, execute_batch_no_panic.
  - apply ensure_no_panic.
  - by apply err_into_no_panic.
Qed.

Lemma open_db_runs (m : Machine) i path : is_Some (Proc.perform_each sexec (m_open m i) 0 (db_open_file path) (default file_new (m_db m))).
Proof. apply perform_each_total, db_open_no_panic. Qed.

(** What opening may have done to the database: nothing, or the file is
    there (created if need be) with all the rows it had and no other, its
    tables up to its version. *)
Definition opens (f0 f : option DbFile) : Prop :=
  f = f0
  \/ exists f', f = Some f' /\ (honest (default file_new f0) -> fresh_ids (f_queries (default file_new f0)) -> sound (default file_new f0) f').

Definition only_opened (m m' : Machine) : Prop :=
  opens (m_db m) (m_db m') /\ m' = with_db_file m (m_db m').

Lemma with_db_file_same m : with_db_file m (m_db m) = m.
Proof. by destruct m. Qed.

Lemma only_opened_refl m : only_opened m m.
Proof. split; [by left|by rewrite with_db_file_same]. Qed.

Lemma open_db_only_opens m i cfg : only_opened m (snd (open_db m i cfg)).
Proof.
  unfold open_db. destruct (open_db_runs m i (db_path (database cfg))) as ([opened f] & Hr). rewrite Hr. cbn [snd].
  split; [|done]. cbn [with_db_file m_db]. destruct (so_fail _); [by left|]. right. exists f. split; [done|]. intros Hh Hi.
  assert (Hs : sound (default file_new (m_db m)) (default file_new (m_db m))) by (split; [done|]; split; [done|apply carries_refl]).
  by apply (perform_each_holds _ _ _ _ _ _ _ _ (open_safe _ (db_path (database cfg)) WRITER_QUEUE_CAPACITY _ Hs) Hr).
Qed.
End Opening.

(** ** [explain] *)
Section Explain.
Context `{DaemonOps} `{CliOps} `{ListsOps} `{UnstableSort}.

(** What [explain] answers about a plausible name. *)
Definition explained_as (cfg : Config) (domain : list Z) (d0 : Disk) (out : Output) : Prop :=
  exists acqs e v,
    all2 (acquired_within (list_dir (filtering cfg)) false d0) (effective_lists cfg) acqs
    /\ build_texts (map ac_text acqs) = Some e /\ verdict e domain = Some v /\ o_code out = snd (verdict_parts v).

End Explain.
