(* ===== verification/Migrate.v ===== *)
(** * Migrate: converting an AdGuard Home configuration ([crates/cli/src/commands/migrate.rs])

    The mapping from [AdGuardHome.yaml] to a configuration text, with a
    warning for what cannot be carried over. The YAML parser is a
    parameter; the generated text goes through [from_toml]. *)
From S2P Require Import Prelude Text Time Num IpAddr FilterTypes Parse Engine Dns Cache SafeSearch Proc Shadow Db Pipeline Result Config Upstream Lists Daemon Cli.

(** ** The parts of the YAML that are read *)
Record AghDns := mkAghDns {
  bind_hosts : list (list Z);
  port : Z;
  upstream_dns : list (list Z);
  fallback_dns : list (list Z);
  bootstrap_dns : list IpAddr;
  upstream_timeout : list Z;
  allowed_clients : list (list Z);
  blocked_hosts : list (list Z);
  ratelimit : Z
}.
Definition agh_dns_default : AghDns := mkAghDns [lit "0.0.0.0"] 53 [] [] [] (lit "5s") [] [] 0.

Record AghFilter := mkAghFilter { f_enabled : bool; f_url : list Z; f_name : list Z }.

Record AghSafeSearch := mkAghSafeSearch {
  agh_ss_enabled : bool;
  google : bool; youtube : bool; bing : bool; duckduckgo : bool;
  ecosia : bool; pixabay : bool; yandex : bool
}.

Record Agh := mkAgh {
  dns : AghDns;
  agh_filters : list AghFilter;
  user_rules : list (list Z);
  agh_safe_search : AghSafeSearch;
  dhcp_enabled : bool;
  tls_enabled : bool
}.

Class MigrateOps := { yaml_from_str : list Z -> Agh + list Z }.

Record Migration := mkMigration {
  mg_toml : list Z;
  mg_warnings : list (list Z);
  mg_user_rules : option (list Z)
}.

(** ** Names *)

(** One character each: a byte that continues one is dropped. *)
Fixpoint slug_chars (s : list Z) : list Z :=
  match s with
  | [] => []
  | b :: s => if cont b then slug_chars s else (if is_ascii_alphanumeric b then b else c_hyphen) :: slug_chars s
  end.

(** [s.replace("--", "-")] *)
Fixpoint replace_double (s : list Z) : list Z :=
  match s with
  | a :: ((b :: r) as t) => if (a =? c_hyphen) && (b =? c_hyphen) then c_hyphen :: replace_double r else a :: replace_double t
  | _ => s
  end.

(** [while s.contains("--")]; [None] when the fuel runs out. *)
Fixpoint collapse (fuel : nat) (s : list Z) : option (list Z) :=
  if contains [c_hyphen; c_hyphen] s then
    match fuel with O => None | S fuel => collapse fuel (replace_double s) end
  else Some s.

Fixpoint trim_start_hyphens (s : list Z) : list Z :=
  match s with c :: r => if c =? c_hyphen then trim_start_hyphens r else s | [] => [] end.
Definition trim_hyphens (s : list Z) : list Z := reverse (trim_start_hyphens (reverse (trim_start_hyphens s))).

Definition slug (fuel : nat) (name : list Z) : option (list Z) :=
  s ← collapse fuel (slug_chars (to_ascii_lowercase name));
  Some (trim_hyphens s).

(** The multiplication wraps in a release build. *)
Definition parse_go_duration_ms (s : list Z) : option Z :=
  match strip_suffix (lit "ms") s with
  | Some ms => parse_uint u64_max ms
  | None =>
      match strip_suffix (lit "s") s with
      | Some secs => v ← parse_uint u64_max secs; Some (v * 1000 mod (u64_max + 1))
      | None => None
      end
  end.

(** [while !used_names.insert(name)] *)
Fixpoint unique_name (fuel : nat) (used : list (list Z)) (base : list Z) (n : Z) (name : list Z) : option (list Z) :=
  if bool_decide (name ∈ used) then
    match fuel with
    | O => None
    | S fuel => unique_name fuel used base (n + 1) (base ++ [c_hyphen] ++ to_string n)
    end
  else Some name.

(** [lines.join("\n")] *)
Fixpoint join_with (sep : list Z) (l : list (list Z)) : list Z :=
  match l with [] => [] | [s] => s | s :: l => s ++ sep ++ join_with sep l end.

Section Migrate.
Context `{DaemonOps} `{CliOps} `{MigrateOps} `{IpDisplay}.

(** [Vec<String>] printed with [{:?}]. *)
Definition debug_list (l : list (list Z)) : list Z := lit "[" ++ join_with (lit ", ") (map debug_str l) ++ lit "]".

(** ** The sections of the YAML *)
Fixpoint binds (hosts : list (list Z)) (port : Z) : list (list Z) + list Z :=
  match hosts with
  | [] => inl []
  | host :: hosts =>
      match parse_ip host with
      | None => inr (lit "bind host " ++ host ++ lit ": invalid IP address syntax")
      | Some ip =>
          let? rest := binds hosts port in
          inl (socket_addr_to_string ip port
               :: (if bool_decide (ip = V4 [0; 0; 0; 0]) then [lit "[::]:" ++ to_string port] else []) ++ rest)
      end
  end.

(** [retain] with the set of those seen (after [dedup], which it subsumes). *)
Fixpoint retain_new (seen l : list (list Z)) : list (list Z) :=
  match l with
  | [] => []
  | b :: l => if bool_decide (b ∈ seen) then retain_new seen l else b :: retain_new (b :: seen) l
  end.
Fixpoint dedup (l : list (list Z)) : list (list Z) :=
  match l with
  | a :: ((b :: _) as t) => if str_eqb a b then dedup t else a :: dedup t
  | _ => l
  end.

Definition upstream_kept (u : list Z) : bool := starts_with (lit "https://") u || starts_with (lit "quic://") u.
Definition upstream_warning (u : list Z) : list Z :=
  lit "upstream " ++ u ++ lit " skipped: sumidero v1 supports only https:// (DoH) and quic:// (DoQ)".

Definition timeout_of (text : list Z) : Z * list (list Z) :=
  match parse_go_duration_ms text with
  | Some ms => (ms, [])
  | None => (5000, [lit "cannot parse upstream_timeout " ++ debug_str text ++ lit "; using 5000 ms"])
  end.

Definition default_nets : list (list Z) :=
  [lit "192.168.0.0/16"; lit "10.0.0.0/8"; lit "172.16.0.0/12"; lit "127.0.0.0/8"; lit "::1/128"].

(** One allowed client: a network, or a warning. *)
Definition client_net (client : list Z) : list Z + list Z :=
  if contains_char c_slash client then inl client
  else match parse_ip client with
       | Some (V4 _ as ip) => inl (ip_to_string ip ++ lit "/32")
       | Some (V6 _ as ip) => inl (ip_to_string ip ++ lit "/128")
       | None => inr (lit "allowed client " ++ debug_str client ++ lit " skipped: not an IP or CIDR (client IDs are not supported)")
       end.
Fixpoint oks {A B : Type} (l : list (A + B)) : list A := match l with [] => [] | inl a :: l => a :: oks l | inr _ :: l => oks l end.
Fixpoint errs {A B : Type} (l : list (A + B)) : list B := match l with [] => [] | inr b :: l => b :: errs l | inl _ :: l => errs l end.

Definition allowlist (clients : list (list Z)) : list (list Z) * list (list Z) :=
  let nets := map client_net clients in
  if bool_decide (clients = []) then
    (default_nets,
     [lit "allowed_clients is empty: AdGuard would answer everyone; sumidero requires an explicit allowlist — defaulting to RFC1918 + loopback, EDIT THIS"])
  else if bool_decide (oks nets = []) then
    (default_nets,
     errs nets ++ [lit "no allowed client survived the conversion; defaulting to RFC1918 + loopback, EDIT THIS"])
  else (oks nets, errs nets).

(** The loop over the filters, from index [i]: the lists, the warnings. *)
Fixpoint migrate_filters (i : Z) (used : list (list Z)) (fs : list AghFilter) : option (list (list Z * list Z) * list (list Z)) :=
  match fs with
  | [] => Some ([], [])
  | f :: fs =>
      if f_enabled f then
        s ← slug (length (f_name f)) (f_name f);
        let base := if bool_decide (s = []) then lit "list-" ++ to_string (i + 1) else s in
        name ← unique_name (length used) used base 2 base;
        '(lists, warnings) ← migrate_filters (i + 1) (name :: used) fs;
        Some ((name, f_url f) :: lists,
              (if bool_decide (name = base) then []
               else [lit "filter " ++ debug_str (f_name f) ++ lit " renamed to " ++ debug_str name ++ lit " to keep list names unique"])
              ++ warnings)
      else
        '(lists, warnings) ← migrate_filters (i + 1) used fs;
        Some (lists, (lit "disabled filter " ++ debug_str (f_name f) ++ lit " not migrated") :: warnings)
  end.

Definition user_rules_text (rules : list (list Z)) : option (list Z) :=
  if bool_decide (rules = []) then None
  else Some (lit "! migrated from AdGuardHome.yaml (user_rules + blocked_hosts)" ++ [c_nl] ++ join_with [c_nl] rules ++ [c_nl]).

Definition chosen (flags : list (bool * list Z)) : list (list Z) := map snd (List.filter fst flags).
Definition safe_search_of (ss : AghSafeSearch) : bool * list (list Z) * list (list Z) :=
  if agh_ss_enabled ss then
    let providers := chosen [(google ss, lit "google"); (youtube ss, lit "youtube"); (bing ss, lit "bing"); (duckduckgo ss, lit "duckduckgo")] in
    let unsupported := chosen [(ecosia ss, lit "ecosia"); (pixabay ss, lit "pixabay"); (yandex ss, lit "yandex")] in
    (negb (bool_decide (providers = [])), providers,
     map (fun name => lit "safe-search provider " ++ name ++ lit " is not supported in v1") unsupported
     ++ (if bool_decide (providers = []) then [lit "safe_search was enabled but no supported provider is active; disabled"] else []))
  else (false, [], []).

Definition scope_warnings (agh : Agh) : list (list Z) :=
  (if dhcp_enabled agh then [lit "DHCP is enabled in AdGuard but out of scope for sumidero"] else [])
  ++ (if tls_enabled agh then [lit "TLS serving (DoT/DoH server) is out of scope for sumidero v1"] else [])
  ++ (if 0 <? ratelimit (dns agh) then [lit "ratelimit has no equivalent in sumidero v1"] else [])
  ++ [lit "web UI, query-log settings, and statistics settings do not apply: sumidero's control plane is the config file + SQLite + CLI"].

(** ** The text *)
Definition line (s : list Z) : list Z := s ++ [c_nl].
Definition list_section (name url : list Z) : list Z :=
  [c_nl] ++ line (lit "[[filtering.lists]]") ++ line (lit "name = " ++ debug_str name) ++ line (lit "url = " ++ debug_str url).

Record Draft := mkDraft {
  dr_bind : list (list Z);
  dr_allow : list (list Z);
  dr_lists : list (list Z * list Z);
  dr_user_rules : option (list Z);
  dr_servers : list (list Z);
  dr_bootstrap : list IpAddr;
  dr_timeout_ms : Z;
  dr_safe_search : bool;
  dr_providers : list (list Z);
  dr_warnings : list (list Z)
}.

Definition bool_text (b : bool) : list Z := if b then lit "true" else lit "false".
Definition assemble (d : Draft) (list_dir db_path user_rules_path : list Z) : list Z :=
  line (lit "# sumidero config — generated by `sumidero migrate` from AdGuardHome.yaml")
  ++ concat (map (fun w => line (lit "# WARNING: " ++ w)) (dr_warnings d))
  ++ [c_nl] ++ line (lit "[server]")
  ++ line (lit "bind = " ++ debug_list (dr_bind d)) ++ line (lit "allow = " ++ debug_list (dr_allow d))
  ++ [c_nl] ++ line (lit "[filtering]") ++ line (lit "list_dir = " ++ debug_str list_dir)
  ++ concat (map (fun l => list_section (fst l) (snd l)) (dr_lists d))
  ++ (match dr_user_rules d with
      | Some _ => [c_nl] ++ line (lit "[[filtering.lists]]") ++ line (lit "name = " ++ [34] ++ lit "user-rules" ++ [34])
                  ++ line (lit "path = " ++ debug_str user_rules_path)
      | None => []
      end)
  ++ [c_nl] ++ line (lit "[upstreams]") ++ line (lit "servers = " ++ debug_list (dr_servers d))
  ++ line (lit "bootstrap = " ++ debug_list (map ip_to_string (dr_bootstrap d)))
  ++ line (lit "timeout_ms = " ++ to_string (dr_timeout_ms d))
  ++ [c_nl] ++ line (lit "[database]") ++ line (lit "path = " ++ debug_str db_path)
  ++ [c_nl] ++ line (lit "[safe_search]") ++ line (lit "enabled = " ++ bool_text (dr_safe_search d))
  ++ line (lit "providers = " ++ debug_list (dr_providers d)).

(** The mapping up to the text; the outer [None] is out of fuel. *)
Definition draft (agh : Agh) : option (Draft + list Z) :=
  let d := dns agh in
  match binds (bind_hosts d) (port d) with
  | inr e => Some (inr e)
  | inl bind =>
      let bind := retain_new [] (dedup bind) in
      let servers := List.filter upstream_kept (upstream_dns d) in
      let w_servers := map upstream_warning (List.filter (fun u => negb (upstream_kept u)) (upstream_dns d)) in
      if bool_decide (servers = []) then Some (inr (lit "no usable upstream (need at least one https:// or quic:// server)"))
      else
        let w_fallback := if bool_decide (fallback_dns d = []) then []
                          else [lit "fallback_dns has no equivalent: sumidero races all upstreams in parallel"] in
        if bool_decide (bootstrap_dns d = []) then Some (inr (lit "bootstrap_dns is empty; sumidero requires bootstrap IPs"))
        else
          let '(timeout_ms, w_timeout) := timeout_of (upstream_timeout d) in
          let '(allow, w_allow) := allowlist (allowed_clients d) in
          '(lists, w_lists) ← migrate_filters 0 [lit "user-rules"] (agh_filters agh);
          let rules := user_rules_text (user_rules agh ++ blocked_hosts d) in
          let '(enabled, providers, w_ss) := safe_search_of (agh_safe_search agh) in
          if bool_decide (lists = []) && bool_decide (rules = None)
          then Some (inr (lit "nothing to filter with: no enabled filters and no user rules in the AdGuard config; start from `sumidero init --profile` instead"))
          else Some (inl (mkDraft bind allow lists rules servers (bootstrap_dns d) timeout_ms enabled providers
                            (w_servers ++ w_fallback ++ w_timeout ++ w_allow ++ w_lists ++ w_ss ++ scope_warnings agh)))
  end.

Definition convert (yaml list_dir db_path user_rules_path : list Z) : option (Migration + list Z) :=
  match yaml_from_str yaml with
  | inr e => Some (inr (lit "cannot parse YAML: " ++ e))
  | inl agh =>
      d ← draft agh;
      Some (let? d := d in
            let toml := assemble d list_dir db_path user_rules_path in
            match from_toml toml (lit "<migrated>") with
            | inr e => inr (lit "generated config failed validation (bug): " ++ config_error_text e)
            | inl _ => inl (mkMigration toml (dr_warnings d) (dr_user_rules d))
            end)
  end.
End Migrate.
