(* ===== verification/MigrateSpec.v ===== *)
(** * MigrateSpec: a migration loses nothing silently

    The list names the migration makes up are usable and distinct, its
    loops end, and what it does not carry over it says. *)
From S2P Require Import Prelude Text Time Num IpAddr FilterTypes Parse Engine Dns Cache SafeSearch Proc Shadow Db Pipeline Result Config Upstream Lists Daemon Cli Migrate.

(** ** Slugs *)
Definition double : list Z := [c_hyphen; c_hyphen].
Definition slug_byte (b : Z) : Prop := is_ascii_lowercase b = true \/ is_ascii_digit b = true \/ b = c_hyphen.

Lemma contains_double a b r :
  contains double (a :: b :: r) = (a =? c_hyphen) && (b =? c_hyphen) || contains double (b :: r).
Proof.
  unfold double. cbn [contains]. f_equal. unfold starts_with. cbn [strip_prefix].
  rewrite (Z.eqb_sym a), (Z.eqb_sym b). destruct (c_hyphen =? a); [|done]. by destruct (c_hyphen =? b).
Qed.

Lemma contains_double_one a : contains double [a] = false.
Proof. unfold double, c_hyphen. cbn [contains]. unfold starts_with. cbn [strip_prefix]. by destruct (45 =? a). Qed.

(** Induction two bytes at a time, as [replace_double] goes. *)
Lemma two_bytes_ind (P : list Z -> Prop) :
  P [] -> (forall a, P [a]) -> (forall a b r, P r -> P (b :: r) -> P (a :: b :: r)) -> forall s, P s.
Proof.
  intros H0 H1 H2 s. enough (P s /\ forall a, P (a :: s)) by tauto. induction s as [|b s (IH & IHc)]; [auto|].
  split; [apply IHc|]. intros a. by apply H2.
Qed.

Lemma replace_double_length s :
  (length (replace_double s) <= length s)%nat /\ (contains double s = true -> (length (replace_double s) < length s)%nat).
Proof.
  induction s as [|a|a b r (IHr & _) (IHb & IHb')] using two_bytes_ind; [done|by rewrite contains_double_one|].
  rewrite contains_double. change (replace_double (a :: b :: r)) with
    (if (a =? c_hyphen) && (b =? c_hyphen) then c_hyphen :: replace_double r else a :: replace_double (b :: r)).
  destruct ((a =? c_hyphen) && (b =? c_hyphen)); cbn [length orb] in *; [split; [lia|intros; lia]|].
  split; [lia|]. intros Hc. specialize (IHb' Hc). lia.
Qed.

Lemma replace_double_bytes (P : Z -> Prop) s : P c_hyphen -> Forall P s -> Forall P (replace_double s).
Proof.
  intros Hh. induction s as [|a|a b r IHr IHb] using two_bytes_ind; [done|done|]. rewrite !Forall_cons. intros (Ha & Hb & Hr).
  change (replace_double (a :: b :: r)) with
    (if (a =? c_hyphen) && (b =? c_hyphen) then c_hyphen :: replace_double r else a :: replace_double (b :: r)).
  destruct (_ && _); apply Forall_cons; [auto|]. split; [done|]. apply IHb. by rewrite Forall_cons.
Qed.

Lemma collapse_ends fuel : forall s, (length s <= fuel)%nat ->
  exists r, collapse fuel s = Some r /\ contains double r = false /\ forall P : Z -> Prop, P c_hyphen -> Forall P s -> Forall P r.
Proof.
  induction fuel as [|fuel IH]; intros s Hl; cbn [collapse]; fold double; destruct (contains double s) eqn:Ec.
  - destruct s; [discriminate Ec|cbn in Hl; lia].
  - by exists s.
  - destruct (replace_double_length s) as (_ & Hd). specialize (Hd Ec).
    destruct (IH (replace_double s)) as (r & Hr & Hc & Hp); [lia|]. exists r. split; [done|]. split; [done|].
    intros P Hh Hs. apply Hp; [done|]. by apply replace_double_bytes.
  - by exists s.
Qed.

Lemma contains_double_tail a s : contains double (a :: s) = false -> contains double s = false.
Proof. destruct s as [|b r]; [done|]. rewrite contains_double. intros Hc. by apply orb_false_iff in Hc as (_ & ->). Qed.

(** Trimming leaves a suffix that does not start with a hyphen. *)
Lemma trim_start_hyphens_suffix s :
  (exists p, s = p ++ trim_start_hyphens s) /\ head (trim_start_hyphens s) <> Some c_hyphen.
Proof.
  induction s as [|a s ((p & Hp) & Hh)]; cbn [trim_start_hyphens]; [split; [by exists []|done]|].
  destruct (Z.eqb_spec a c_hyphen) as [->|Hn]; [|split; [by exists []|cbn; congruence]].
  split; [|done]. exists (c_hyphen :: p). cbn. by rewrite <- Hp.
Qed.

Lemma contains_double_app p s : contains double (p ++ s) = false -> contains double p = false /\ contains double s = false.
Proof.
  induction p as [|a p IH]; [done|]. intros Hc. cbn [app] in Hc. destruct (IH (contains_double_tail _ _ Hc)) as (H1 & H2).
  split; [|done]. destruct p as [|b p]; [apply contains_double_one|]. cbn [app] in Hc. rewrite contains_double in Hc |- *. rewrite H1.
  apply orb_false_iff in Hc as (-> & _). done.
Qed.

Lemma trim_hyphens_spec s :
  exists p q, s = p ++ trim_hyphens s ++ q
  /\ head (trim_hyphens s) <> Some c_hyphen /\ head (reverse (trim_hyphens s)) <> Some c_hyphen.
Proof.
  unfold trim_hyphens. set (t := trim_start_hyphens s).
  destruct (trim_start_hyphens_suffix s) as ((p & Hp) & Hh). fold t in Hp, Hh.
  destruct (trim_start_hyphens_suffix (reverse t)) as ((q & Hq) & Hh'). set (u := trim_start_hyphens (reverse t)) in *.
  assert (Et : t = reverse u ++ reverse q) by (rewrite <- reverse_app, <- Hq; by rewrite reverse_involutive).
  exists p, (reverse q). split; [by rewrite <- Et|]. split; [|by rewrite reverse_involutive].
  intros Hu. apply Hh. rewrite Et. destruct (reverse u); [discriminate Hu|done].
Qed.

Lemma slug_chars_bytes s : Forall slug_byte (slug_chars (to_ascii_lowercase s)).
Proof.
  induction s as [|b s IH]; [constructor|]. cbn [to_ascii_lowercase map slug_chars]. destruct (cont _); [done|].
  constructor; [|done]. destruct (is_ascii_alphanumeric (to_lower b)) eqn:E; [|by right; right].
  unfold is_ascii_alphanumeric, to_lower, slug_byte, is_ascii_uppercase, is_ascii_lowercase, is_ascii_digit in *.
  destruct ((65 <=? b) && (b <=? 90)) eqn:Eu; lia.
Qed.

Lemma slug_chars_length s : (length (slug_chars (to_ascii_lowercase s)) <= length s)%nat.
Proof. unfold to_ascii_lowercase. induction s as [|b s IH]; [done|]. cbn [map slug_chars length]. destruct (cont _); cbn [length]; lia. Qed.

(** What a slug looks like. *)
Definition slug_ok (s : list Z) : Prop :=
  Forall slug_byte s /\ contains double s = false
  /\ head s <> Some c_hyphen /\ head (reverse s) <> Some c_hyphen.

Lemma slug_total name : exists s, slug (length name) name = Some s /\ slug_ok s.
Proof.
  unfold slug. destruct (collapse_ends (length name) (slug_chars (to_ascii_lowercase name)) (slug_chars_length name)) as (r & -> & Hc & Hp).
  specialize (Hp slug_byte (or_intror (or_intror eq_refl)) (slug_chars_bytes name)). cbn. eexists. split; [done|].
  destruct (trim_hyphens_spec r) as (p & q & Hr & Hh & Hl). rewrite Hr in Hp, Hc.
  apply Forall_app in Hp as (_ & Hp). apply Forall_app in Hp as (Hp & _).
  apply contains_double_app in Hc as (_ & Hc). apply contains_double_app in Hc as (Hc & _). done.
Qed.

(** The slug of any name whatsoever is found ([while] ends within as
    many rounds as the name has bytes) and is a clean name: lower-case
    letters, digits and single hyphens, none at either end. *)
Theorem slug_terminates name : exists s, slug (length name) name = Some s /\ slug_ok s.
Proof. apply slug_total. Qed.

(** ** Unique names *)

(** The names tried: the base, then [base-2], [base-3], ... *)
Definition candidate (base : list Z) (n : Z) (k : nat) : list Z := base ++ [c_hyphen] ++ to_string (n + Z.of_nat k).

Lemma candidate_inj base n j k : 0 <= n -> candidate base n j = candidate base n k -> j = k.
Proof. unfold candidate. intros Hn He. apply app_inv_head in He. injection He as He. apply to_string_inj in He; lia. Qed.

(** The search either ends or has found [fuel] of its candidates taken. *)
Lemma unique_name_search used base fuel : forall n name,
  (exists r, unique_name fuel used base n name = Some r /\ r ∉ used /\ (r = name \/ exists k, r = candidate base n k))
  \/ name ∈ used /\ forall k, (k < fuel)%nat -> candidate base n k ∈ used.
Proof.
  induction fuel as [|fuel IH]; intros n name; cbn [unique_name]; case_bool_decide as Hin; try (left; exists name; by auto).
  - right. split; [done|]. intros k Hk. lia.
  - destruct (IH (n + 1) (base ++ [c_hyphen] ++ to_string n)) as [(r & Hr & Hn & Hc)|(H1 & H2)].
    + left. exists r. split; [done|]. split; [done|]. right. destruct Hc as [->|(k & ->)].
      * exists 0%nat. unfold candidate. by rewrite Z.add_0_r.
      * exists (S k). unfold candidate. do 3 f_equal. lia.
    + right. split; [done|]. intros [|k] Hk; [unfold candidate; by rewrite Z.add_0_r|].
      replace (candidate base n (S k)) with (candidate base (n + 1) k) by (unfold candidate; do 3 f_equal; lia). apply H2. lia.
Qed.

Lemma candidates_NoDup base n m : 0 <= n -> NoDup (map (candidate base n) (seq 0 m)).
Proof.
  intros Hn. apply NoDup_fmap_2_strong; [|apply NoDup_seq]. intros j k _ _. by apply candidate_inj.
Qed.

Lemma unique_name_total used base : base <> [] ->
  exists r, unique_name (length used) used base 2 base = Some r /\ r ∉ used /\ r <> [].
Proof.
  intros Hb. destruct (unique_name_search used base (length used) 2 base) as [(r & Hr & Hn & Hc)|(H1 & H2)].
  - exists r. split; [done|]. split; [done|]. destruct Hc as [->|(k & ->)]; [done|]. unfold candidate. by destruct base.
  - exfalso. set (tried := base :: map (candidate base 2) (seq 0 (length used))).
    assert (Hd : NoDup tried).
    { apply NoDup_cons. split; [|by apply candidates_NoDup]. intros Hin. apply list_elem_of_fmap in Hin as (k & Hk & _).
      apply (f_equal length) in Hk. unfold candidate in Hk. rewrite length_app in Hk. cbn in Hk. lia. }
    assert (Hs : tried ⊆ used).
    { intros x Hx. apply elem_of_cons in Hx as [->|Hx]; [done|]. apply list_elem_of_fmap in Hx as (k & -> & Hk).
      apply elem_of_seq in Hk. apply H2. lia. }
    pose proof (NoDup_submseteq _ _ Hd Hs) as Hm. apply submseteq_length in Hm. unfold tried in Hm. cbn in Hm. rewrite length_map, length_seq in Hm. lia.
Qed.

(** ** The filters *)
Section Spec.
Context `{DaemonOps} `{CliOps} `{MigrateOps} `{IpDisplay}.

Definition filter_warned (f : AghFilter) : list Z := lit "disabled filter " ++ debug_str (f_name f) ++ lit " not migrated".
Definition rename_warning (f : AghFilter) (name : list Z) : list Z :=
  lit "filter " ++ debug_str (f_name f) ++ lit " renamed to " ++ debug_str name ++ lit " to keep list names unique".

(** The name a filter would have: its slug, or its number. *)
Definition base_name (i : Z) (f : AghFilter) (base : list Z) : Prop :=
  exists s, slug (length (f_name f)) (f_name f) = Some s /\ base = if bool_decide (s = []) then lit "list-" ++ to_string (i + 1) else s.

(** The filters from number [i]: an enabled one is a list of its URL, under
    its own name or a new one with a warning; a disabled one has a warning. *)
Fixpoint carried (warnings : list (list Z)) (i : Z) (fs : list AghFilter) (lists : list (list Z * list Z)) : Prop :=
  match fs with
  | [] => lists = []
  | f :: fs =>
      if f_enabled f then
        exists name base rest, lists = (name, f_url f) :: rest /\ base_name i f base
          /\ (name = base \/ rename_warning f name ∈ warnings) /\ carried warnings (i + 1) fs rest
      else filter_warned f ∈ warnings /\ carried warnings (i + 1) fs lists
  end.

Lemma carried_more w w' i fs lists : (forall x, x ∈ w -> x ∈ w') -> carried w i fs lists -> carried w' i fs lists.
Proof.
  intros Hw. revert i lists. induction fs as [|f fs IH]; intros i lists; cbn [carried]; [done|]. destruct (f_enabled f).
  - intros (name & base & rest & -> & Hb & Hn & Hc). exists name, base, rest. split; [done|]. split; [done|]. split; [|by apply IH].
    destruct Hn as [Hn|Hn]; auto.
  - intros (Hf & Hc). auto.
Qed.

Lemma migrate_filters_total fs : forall i used,
  exists lists warnings, migrate_filters i used fs = Some (lists, warnings)
  /\ NoDup (map fst lists) /\ Forall (fun l => fst l ∉ used /\ fst l <> []) lists
  /\ map snd lists = map f_url (List.filter f_enabled fs)
  /\ carried warnings i fs lists.
Proof.
  induction fs as [|f fs IH]; intros i used; cbn [migrate_filters].
  { exists [], []. split; [done|]. split; [constructor|]. split; [constructor|]. by split. }
  destruct (f_enabled f) eqn:Ef.
  - destruct (slug_total (f_name f)) as (s & Hs & _). rewrite Hs. cbn [mbind option_bind].
    set (base := if bool_decide (s = []) then lit "list-" ++ to_string (i + 1) else s).
    assert (Hb : base <> []) by (unfold base; case_bool_decide; [by destruct (to_string (i + 1))|done]).
    destruct (unique_name_total used base Hb) as (name & -> & Hu & Hne). cbn [mbind option_bind].
    destruct (IH (i + 1) (name :: used)) as (lists & warnings & -> & Hd & Hf & Hl & Hw). cbn [mbind option_bind].
    eexists _, _. split; [done|]. split; [|split; [|split]].
    + cbn [map fst]. apply NoDup_cons. split; [|done]. intros Hin. apply list_elem_of_fmap in Hin as (l & -> & Hl').
      rewrite Forall_forall in Hf. destruct (Hf l Hl') as (Hnin & _). apply Hnin. by left.
    + constructor; [done|]. eapply Forall_impl; [exact Hf|]. cbn. intros l (Hnin & Hne'). split; [|done]. intros Hin. apply Hnin. by right.
    + cbn [map snd List.filter]. rewrite Ef. cbn [map]. by rewrite Hl.
    + cbn [carried]. rewrite Ef. exists name, base, lists. split; [done|]. split; [by exists s|].
      split; [|eapply carried_more; [|exact Hw]; intros x Hx; apply elem_of_app; by right].
      case_bool_decide as En; [by left|]. right. by left.
  - destruct (IH (i + 1) used) as (lists & warnings & -> & Hd & Hf & Hl & Hw). cbn [mbind option_bind].
    eexists _, _. split; [done|]. split; [done|]. split; [done|]. split; [cbn [List.filter]; by rewrite Ef|].
    cbn [carried]. rewrite Ef. split; [by left|]. eapply carried_more; [|exact Hw]. intros x Hx. by right.
Qed.

(** ** The whole migration *)

(** ** Binds *)
Definition v4_any : IpAddr := V4 [0; 0; 0; 0].
(** The sockets one bind host stands for. *)
Definition socket_of (host : list Z) (port : Z) (b : list Z) : Prop :=
  exists ip, parse_ip host = Some ip /\ (b = socket_addr_to_string ip port \/ ip = v4_any /\ b = lit "[::]:" ++ to_string port).

Lemma binds_spec hosts port bind : binds hosts port = inl bind -> forall b, b ∈ bind <-> exists host, host ∈ hosts /\ socket_of host port b.
Proof.
  revert bind. induction hosts as [|host hosts IH]; intros bind; cbn [binds].
  { intros [= <-] b. split; [intros Hb; by apply elem_of_nil in Hb|]. intros (h & Hh & _). by apply elem_of_nil in Hh. }
  destruct (parse_ip host) as [ip|] eqn:Ep; [|done]. destruct (binds hosts port) as [rest|e]; [|done]. cbn [try]. intros [= <-] b.
  rewrite elem_of_cons, elem_of_app, (IH rest eq_refl). split.
  - intros [->|[Hb|(h & Hh & Hs)]].
    + exists host. split; [by left|]. exists ip. auto.
    + case_bool_decide as E; [|by apply elem_of_nil in Hb]. apply list_elem_of_singleton in Hb as ->. exists host. split; [by left|]. exists ip. auto.
    + exists h. split; [by right|done].
  - intros (h & Hh & Hs). apply elem_of_cons in Hh as [->|Hh]; [|right; right; by exists h].
    destruct Hs as (ip' & Hip & Hs). rewrite Ep in Hip. injection Hip as <-. destruct Hs as [->|(-> & ->)]; [by left|right; left].
    by rewrite bool_decide_true, list_elem_of_singleton.
Qed.

Lemma dedup_elem l b : b ∈ dedup l <-> b ∈ l.
Proof.
  induction l as [|a l IH]; [done|]. destruct l as [|a' l]; [done|].
  change (dedup (a :: a' :: l)) with (if str_eqb a a' then dedup (a' :: l) else a :: dedup (a' :: l)).
  destruct (str_eqb a a') eqn:E; [apply str_eqb_eq in E as ->; rewrite IH, !elem_of_cons; tauto|]. by rewrite elem_of_cons, IH, (elem_of_cons _ _ a).
Qed.

Lemma retain_new_spec seen l :
  NoDup (retain_new seen l) /\ forall b, b ∈ retain_new seen l <-> b ∈ l /\ b ∉ seen.
Proof.
  revert seen. induction l as [|a l IH]; intros seen; cbn [retain_new].
  { split; [constructor|]. intros b. split; [intros Hb; by apply elem_of_nil in Hb|]. by intros (Hb & _). }
  case_bool_decide as Ha.
  - destruct (IH seen) as (Hd & Hb). split; [done|]. intros b. rewrite Hb, elem_of_cons. split; [tauto|]. intros ([->|?] & ?); tauto.
  - destruct (IH (a :: seen)) as (Hd & Hb). split.
    + apply NoDup_cons. split; [|done]. rewrite Hb, elem_of_cons. tauto.
    + intros b. rewrite !elem_of_cons, Hb, elem_of_cons. destruct (decide (b = a)) as [->|]; tauto.
Qed.

(** ** What is accounted for

    Each section the migration reads, carried over or in a warning. *)
Record accounted (agh : Agh) (d : Draft) : Prop := {
  ac_bind : NoDup (dr_bind d) /\ forall b, b ∈ dr_bind d <-> exists host, host ∈ bind_hosts (dns agh) /\ socket_of host (port (dns agh)) b;
  ac_servers : dr_servers d = List.filter upstream_kept (upstream_dns (dns agh))
    /\ forall u, u ∈ upstream_dns (dns agh) -> u ∈ dr_servers d \/ upstream_warning u ∈ dr_warnings d;
  ac_fallback : fallback_dns (dns agh) = []
    \/ lit "fallback_dns has no equivalent: sumidero races all upstreams in parallel" ∈ dr_warnings d;
  ac_bootstrap : dr_bootstrap d = bootstrap_dns (dns agh) /\ bootstrap_dns (dns agh) <> [];
  ac_timeout : match parse_go_duration_ms (upstream_timeout (dns agh)) with
    | Some ms => dr_timeout_ms d = ms
    | None => dr_timeout_ms d = 5000
        /\ lit "cannot parse upstream_timeout " ++ debug_str (upstream_timeout (dns agh)) ++ lit "; using 5000 ms" ∈ dr_warnings d
    end;
  ac_clients : forall c, c ∈ allowed_clients (dns agh) ->
    match client_net c with inl net => net ∈ dr_allow d | inr w => w ∈ dr_warnings d end;
  ac_allow : dr_allow d = oks (map client_net (allowed_clients (dns agh)))
    \/ (dr_allow d = default_nets /\ exists why, why ∈ dr_warnings d
         /\ why ∈ [lit "allowed_clients is empty: AdGuard would answer everyone; sumidero requires an explicit allowlist — defaulting to RFC1918 + loopback, EDIT THIS";
                    lit "no allowed client survived the conversion; defaulting to RFC1918 + loopback, EDIT THIS"]);
  ac_filters : carried (dr_warnings d) 0 (agh_filters agh) (dr_lists d);
  ac_rules : dr_user_rules d = user_rules_text (user_rules agh ++ blocked_hosts (dns agh));
  ac_providers : let ss := agh_safe_search agh in
    dr_providers d = (if agh_ss_enabled ss
                      then chosen [(google ss, lit "google"); (youtube ss, lit "youtube"); (bing ss, lit "bing"); (duckduckgo ss, lit "duckduckgo")]
                      else [])
    /\ (dr_safe_search d = true <-> dr_providers d <> [])
    /\ (agh_ss_enabled ss = true -> dr_providers d = [] ->
          lit "safe_search was enabled but no supported provider is active; disabled" ∈ dr_warnings d)
    /\ forall name, agh_ss_enabled ss = true ->
         name ∈ chosen [(ecosia ss, lit "ecosia"); (pixabay ss, lit "pixabay"); (yandex ss, lit "yandex")] ->
         lit "safe-search provider " ++ name ++ lit " is not supported in v1" ∈ dr_warnings d;
  ac_dhcp : dhcp_enabled agh = true -> lit "DHCP is enabled in AdGuard but out of scope for sumidero" ∈ dr_warnings d;
  ac_tls : tls_enabled agh = true -> lit "TLS serving (DoT/DoH server) is out of scope for sumidero v1" ∈ dr_warnings d;
  ac_ratelimit : 0 < ratelimit (dns agh) -> lit "ratelimit has no equivalent in sumidero v1" ∈ dr_warnings d
}.

(** The list names of the draft, the one of the user rules among them. *)
Definition names_usable (d : Draft) : Prop :=
  NoDup (lit "user-rules" :: map fst (dr_lists d)) /\ Forall (fun l => fst l <> []) (dr_lists d).

Lemma oks_errs_in {A B : Type} (l : list (A + B)) x : x ∈ l -> match x with inl a => a ∈ oks l | inr b => b ∈ errs l end.
Proof.
  induction l as [|y l IH]; intros Hx; [by apply elem_of_nil in Hx|]. apply elem_of_cons in Hx as [->|Hx].
  - destruct y; cbn; by left.
  - specialize (IH Hx). destruct x, y; cbn; try (by right); done.
Qed.

Lemma allowlist_accounts clients c :
  c ∈ clients -> match client_net c with inl net => net ∈ fst (allowlist clients) | inr w => w ∈ snd (allowlist clients) end.
Proof.
  intros Hc. unfold allowlist. rewrite bool_decide_false by (intros ->; by apply elem_of_nil in Hc).
  assert (Hin : client_net c ∈ map client_net clients) by (apply list_elem_of_fmap; by exists c).
  apply oks_errs_in in Hin. case_bool_decide as Ho; cbn [fst snd].
  - destruct (client_net c); [rewrite Ho in Hin; by apply elem_of_nil in Hin|]. apply elem_of_app. by left.
  - done.
Qed.

Lemma allowlist_defaults clients :
  fst (allowlist clients) = oks (map client_net clients)
  \/ (fst (allowlist clients) = default_nets /\ exists why, why ∈ snd (allowlist clients)
       /\ why ∈ [lit "allowed_clients is empty: AdGuard would answer everyone; sumidero requires an explicit allowlist — defaulting to RFC1918 + loopback, EDIT THIS";
                  lit "no allowed client survived the conversion; defaulting to RFC1918 + loopback, EDIT THIS"]).
Proof.
  unfold allowlist. case_bool_decide; [right; split; [done|]; eexists; split; by left|].
  case_bool_decide; [|by left]. right. split; [done|]. eexists. split; [apply elem_of_app; right; by left|]. right. by left.
Qed.

Lemma timeout_accounts text :
  match parse_go_duration_ms text with
  | Some ms => fst (timeout_of text) = ms
  | None => fst (timeout_of text) = 5000 /\ lit "cannot parse upstream_timeout " ++ debug_str text ++ lit "; using 5000 ms" ∈ snd (timeout_of text)
  end.
Proof. unfold timeout_of. destruct (parse_go_duration_ms text); [done|]. split; [done|by left]. Qed.

Lemma safe_search_accounts ss :
  let '(enabled, providers, warnings) := safe_search_of ss in
  providers = (if agh_ss_enabled ss
               then chosen [(google ss, lit "google"); (youtube ss, lit "youtube"); (bing ss, lit "bing"); (duckduckgo ss, lit "duckduckgo")] else [])
  /\ (enabled = true <-> providers <> [])
  /\ (agh_ss_enabled ss = true -> providers = [] -> lit "safe_search was enabled but no supported provider is active; disabled" ∈ warnings)
  /\ forall name, agh_ss_enabled ss = true ->
       name ∈ chosen [(ecosia ss, lit "ecosia"); (pixabay ss, lit "pixabay"); (yandex ss, lit "yandex")] ->
       lit "safe-search provider " ++ name ++ lit " is not supported in v1" ∈ warnings.
Proof.
  unfold safe_search_of. destruct (agh_ss_enabled ss); [|by split].
  set (providers := chosen _). split; [done|]. split; [rewrite negb_true_iff; by case_bool_decide|]. split.
  - intros _ Hp. rewrite (bool_decide_true (providers = [])) by done. apply elem_of_app. right. by left.
  - intros name _ Hin. apply elem_of_app. left. apply list_elem_of_fmap. by exists name.
Qed.

Lemma scope_accounts agh :
  (dhcp_enabled agh = true -> lit "DHCP is enabled in AdGuard but out of scope for sumidero" ∈ scope_warnings agh)
  /\ (tls_enabled agh = true -> lit "TLS serving (DoT/DoH server) is out of scope for sumidero v1" ∈ scope_warnings agh)
  /\ (0 < ratelimit (dns agh) -> lit "ratelimit has no equivalent in sumidero v1" ∈ scope_warnings agh).
Proof.
  unfold scope_warnings. rewrite !elem_of_app. split; [intros ->; left; by left|]. split; [intros ->; right; left; by left|].
  intros Hr. apply Z.ltb_lt in Hr. rewrite Hr. do 2 right. left. by left.
Qed.

Lemma draft_total agh :
  exists r, draft agh = Some r /\ match r with inl d => accounted agh d /\ names_usable d | inr _ => True end.
Proof.
  unfold draft. destruct (binds _ _) as [bind|e] eqn:Eb; [|by exists (inr e)].
  case_bool_decide; [by eexists|]. case_bool_decide as Hboot; [by eexists|].
  pose proof (timeout_accounts (upstream_timeout (dns agh))) as Ht. destruct (timeout_of _) as [timeout_ms w_timeout]. cbn [fst snd] in Ht.
  pose proof (allowlist_accounts (allowed_clients (dns agh))) as Ha. pose proof (allowlist_defaults (allowed_clients (dns agh))) as Ha'.
  destruct (allowlist (allowed_clients (dns agh))) as [allow w_allow]. cbn [fst snd] in Ha, Ha'.
  destruct (migrate_filters_total (agh_filters agh) 0 [lit "user-rules"]) as (lists & w_lists & -> & Hd & Hf & Hl & Hw).
  cbn [mbind option_bind]. pose proof (safe_search_accounts (agh_safe_search agh)) as Hss.
  destruct (safe_search_of _) as [[enabled providers] w_ss]. pose proof (scope_accounts agh) as Hsc.
  destruct (_ && _); [by eexists|]. eexists. split; [done|]. split.
  - destruct (retain_new_spec [] (dedup bind)) as (Hnd & Hbind). destruct Hss as (S1 & S2 & S3 & S4). destruct Hsc as (C1 & C2 & C3).
    split; cbn [dr_bind dr_servers dr_warnings dr_allow dr_lists dr_user_rules dr_bootstrap dr_timeout_ms dr_safe_search dr_providers].
    + split; [done|]. intros b. rewrite Hbind, dedup_elem, (binds_spec _ _ _ Eb). split; [tauto|]. intros ?. split; [done|apply not_elem_of_nil].
    + split; [done|]. intros u Hu. destruct (upstream_kept u) eqn:Ek.
      * left. apply list_elem_of_In, filter_In. by rewrite <- list_elem_of_In.
      * right. apply elem_of_app. left. apply list_elem_of_fmap. exists u. split; [done|].
        apply list_elem_of_In, filter_In. rewrite Ek. by rewrite <- list_elem_of_In.
    + case_bool_decide; [by left|right]. apply elem_of_app. right. apply elem_of_app. left. by left.
    + done.
    + destruct (parse_go_duration_ms _); [done|]. destruct Ht as (-> & Ht). split; [done|]. rewrite !elem_of_app. tauto.
    + intros c Hc. specialize (Ha c Hc). destruct (client_net c); [done|]. rewrite !elem_of_app. tauto.
    + destruct Ha' as [?|(-> & why & Hy & Hy')]; [by left|right]. split; [done|]. exists why. split; [rewrite !elem_of_app; tauto|done].
    + eapply carried_more; [|exact Hw]. intros x Hx. rewrite !elem_of_app. tauto.
    + done.
    + split; [done|]. split; [done|]. split.
      * intros He Hp. specialize (S3 He Hp). rewrite !elem_of_app. tauto.
      * intros name He Hn. specialize (S4 name He Hn). rewrite !elem_of_app. tauto.
    + intros He. specialize (C1 He). rewrite !elem_of_app. tauto.
    + intros He. specialize (C2 He). rewrite !elem_of_app. tauto.
    + intros He. specialize (C3 He). rewrite !elem_of_app. tauto.
  - cbn [names_usable dr_lists]. split.
    + apply NoDup_cons. split; [|done]. intros Hin. apply list_elem_of_fmap in Hin as (l & El & Hl'). rewrite Forall_forall in Hf.
      destruct (Hf l Hl') as (Hn & _). apply Hn. rewrite <- El. by left.
    + eapply Forall_impl; [exact Hf|]. cbn. tauto.
Qed.

End Spec.
