(* ===== verification/Commands.v ===== *)
(** * Commands: the remaining commands and [main] ([crates/cli/src])

    [log], [stats] and [shadow report] print what they read from the
    database, [init] and [migrate] write files, [serve] runs the daemon,
    and [main] picks the command. Commands that touch the disk are events
    over it; the argument parser's result is an argument. *)
From S2P Require Import Prelude Text Time Num IpAddr FilterTypes Parse Engine Dns Cache SafeSearch Proc Shadow Db Pipeline Result Config Starter Upstream Lists Daemon Cli Migrate.

Definition opt_num (o : option Z) : Value := match o with Some n => Number n | None => Null end.

(** ** Paths (Unix) *)

(** Trailing slashes and trailing [.] components go; the path reversed. *)
Fixpoint trim_path (r : list Z) : list Z :=
  match r with
  | c :: ((d :: r') as t) =>
      if c =? c_slash then trim_path t
      else if (c =? c_dot) && (d =? c_slash) then trim_path t
      else r
  | _ => r
  end.
Fixpoint drop_component (r : list Z) : list Z :=
  match r with [] => [] | c :: r' => if c =? c_slash then r else drop_component r' end.

(** [Path::parent] *)
Definition parent (path : list Z) : option (list Z) :=
  let r := trim_path (reverse path) in
  if bool_decide (r = []) || bool_decide (r = [c_slash]) then None
  else Some (reverse (trim_path (drop_component r))).

(** [path.components()] but for a root: empty and [.] components go. *)
Definition components (path : list Z) : list (list Z) :=
  List.filter (fun c => negb (bool_decide (c = []) || bool_decide (c = [c_dot]))) (split c_slash path).

(** [std::path::absolute]: [None] when the current directory is unknown or
    the path is empty. *)
Definition absolute (cwd : option (list Z)) (path : list Z) : option (list Z) :=
  if bool_decide (path = []) then None
  else
    base ← (if is_absolute path
            then Some (if starts_with [c_slash; c_slash] path && negb (starts_with [c_slash; c_slash; c_slash] path) then [c_slash; c_slash] else [c_slash])
            else cwd);
    let full := fold_left path_join (components path) base in
    Some (if ends_with [c_slash] path then path_join full [] else full).

Section Reads.
Context `{DaemonOps} `{CliOps} `{IpDisplay} `{SqlOrder}.

(** [load_config] then [open_db]. *)
Definition with_db {A} (m : Machine) (path : list Z) (f : Tables -> A + list Z) : (A + list Z) * Machine :=
  match load_config m path with
  | inr e => (inr e, m)
  | inl cfg =>
      let '(db, m) := open_db m 0 cfg in
      (let? db := db in f db, m)
  end.
Definition report {A} (json : bool) (command : list Z) (r : (A + list Z) * Machine) (f : A -> option Output) : option Output * Machine :=
  (match fst r with inr e => fail json command e 1 | inl a => f a end, snd r).

(** ** [log] *)
Definition log_entry (r : QueryRecord) : Value :=
  Object [(lit "ts", Number (q_ts r)); (lit "client", Str (ip_to_string (q_client r))); (lit "qname", Str (q_qname r));
          (lit "qtype", Number (q_qtype r)); (lit "verdict", Str (verdict_as_str (q_verdict r))); (lit "rule", opt_str (q_rule r));
          (lit "list", opt_num (q_list r)); (lit "source", Str (source_as_str (q_source r))); (lit "rcode", Number (q_rcode r));
          (lit "duration_us", Number (q_duration_us r))].
Definition log_line (r : QueryRecord) : list Z :=
  signed_to_string (q_ts r) ++ lit " " ++ ip_to_string (q_client r) ++ lit " " ++ q_qname r ++ lit " " ++ verdict_as_str (q_verdict r)
  ++ lit " (" ++ source_as_str (q_source r) ++ lit ", rcode " ++ to_string (q_rcode r) ++ lit ")".

(** The error of the first row that does not convert. *)
Definition read_queries (db : Tables) (limit : Z) : list QueryRecord + list Z :=
  match recent_queries db limit with
  | Some rows => inl rows
  | None =>
      inr (match List.find (fun r => negb (bool_decide (is_Some (row_to_query_record r)))) (take (Z.to_nat limit) (order_rows (t_queries db))) with
           | Some r => db_error_text (Sql (row_error r))
           | None => []
           end)
  end.

Definition log_run (m : Machine) (path : list Z) (json : bool) (limit : Z) : option Output * Machine :=
  report json (lit "log") (with_db m path (fun db => let? _ := query m 0 tt in read_queries db limit))
    (fun rows => emit json (lit "log") (Object [(lit "entries", Array (map log_entry rows))]) (join c_nl (map log_line rows))).

(** ** [stats] *)
Definition counted (r : list Z * Z) : Value := Array [Str (fst r); Number (snd r)].
Definition stats_payload (hours : Z) (s : Stats) : Value :=
  Object [(lit "window_hours", Number hours); (lit "total", Number (total s)); (lit "blocked", Number (blocked s));
          (lit "excepted", Number (excepted s)); (lit "rewritten", Number (rewritten s)); (lit "cache_hits", Number (cache_hits s));
          (lit "stale_hits", Number (stale_hits s)); (lit "upstream_failures", Number (upstream_failures s));
          (lit "failure_cached", Number (failure_cached s)); (lit "top_queried", Array (map counted (top_queried s)));
          (lit "top_blocked", Array (map counted (top_blocked s)))].
Definition stats_text (hours : Z) (s : Stats) : list Z :=
  lit "last " ++ to_string hours ++ lit "h: " ++ to_string (total s) ++ lit " queries, " ++ to_string (blocked s) ++ lit " blocked, "
  ++ to_string (excepted s) ++ lit " excepted, " ++ to_string (rewritten s) ++ lit " safe-search rewrites, "
  ++ to_string (cache_hits s) ++ lit " cache hits, " ++ to_string (stale_hits s) ++ lit " stale hits, "
  ++ to_string (upstream_failures s) ++ lit " upstream failures, " ++ to_string (failure_cached s) ++ lit " held failures".

Definition stats_run (m : Machine) (path : list Z) (json : bool) (hours : Z) : option Output * Machine :=
  report json (lit "stats") (with_db m path (fun db => query m 0 (stats db (m_now m - hours * 3600))))
    (fun s => emit json (lit "stats") (stats_payload hours s) (stats_text hours s)).

(** ** [shadow report] *)
Definition divergence_value (d : DivergenceRow) : Value :=
  Object [(lit "ts", Number (d_ts d)); (lit "qname", Str (d_qname d)); (lit "qtype", Number (d_qtype d)); (lit "ours", Str (d_ours d));
          (lit "theirs", Str (d_theirs d)); (lit "class", Str (d_class d))].
Definition unexpected (summary : list (list Z * Z)) : Z :=
  foldr (fun r n => snd r + n) 0 (List.filter (fun r => negb (str_eqb (fst r) (lit "expected"))) summary).
Definition shadow_text (hours : Z) (summary : list (list Z * Z)) : list Z :=
  lit "divergences in the last " ++ to_string hours ++ lit "h:" ++ (if bool_decide (summary = []) then lit " none" else [])
  ++ concat (map (fun r => [c_nl] ++ lit "  " ++ fst r ++ lit ": " ++ to_string (snd r)) summary)
  ++ [c_nl] ++ lit "unexpected total: " ++ to_string (unexpected summary).

Definition shadow_run (m : Machine) (path : list Z) (json : bool) (hours limit : Z) : option Output * Machine :=
  report json (lit "shadow-report")
    (with_db m path (fun db =>
       let? summary := query m 0 (divergence_summary db (m_now m - hours * 3600)) in
       let? recent := query m 1 (recent_divergences db limit) in
       inl (summary, recent)))
    (fun '(summary, recent) =>
       emit json (lit "shadow-report")
         (Object [(lit "window_hours", Number hours); (lit "summary", Array (map counted summary));
                  (lit "unexpected", Number (unexpected summary)); (lit "recent", Array (map divergence_value recent))])
         (shadow_text hours summary)).

(** ** [serve]: [served] is how the daemon ends, and the machine it leaves

    The tracing subscriber comes first and writes to stderr: [traced] is
    what it writes while the runtime is built, and while the daemon runs. *)
Definition with_stderr (text : list Z) (out : Output) : Output := mkOutput (o_stdout out) (text ++ o_stderr out) (o_code out).

Definition serve_run (m : Machine) (json : bool) (traced : list Z * list Z) (runtime : option (list Z))
  (served : (unit + CoreError) * Machine) : option Output * Machine :=
  match runtime with
  | Some e => (with_stderr (fst traced) <$> fail json (lit "serve") (lit "cannot start runtime: " ++ e) 1, m)
  | None =>
      (with_stderr (fst traced ++ snd traced) <$>
       match fst served with
       | inl _ => Some (mkOutput [] [] 0)
       | inr e => fail json (lit "serve") (core_error_text e) 1
       end, snd served)
  end.
End Reads.

(** ** Commands that write files *)
Section Writes.
Context `{DaemonOps} `{CliOps} `{MigrateOps} `{IpDisplay}.
Notation Io := (Proc LEv).

(** [Path::exists] *)
Definition exists_at (path : list Z) : Io bool :=
  f ← event (IsFile path);
  d ← event (IsDir path);
  Ret (f || d).

Definition exists_message (path : list Z) : list Z := path ++ lit " exists; pass --force to overwrite".
Definition cannot_write (path e : list Z) : list Z := lit "cannot write " ++ path ++ lit ": " ++ e.

(** ** [init] *)
Definition profile_of (name : list Z) : option Profile :=
  if str_eqb name (lit "minimal") then Some Minimal
  else if str_eqb name (lit "balanced") then Some Balanced
  else if str_eqb name (lit "strict") then Some Strict
  else None.

Definition init_run (config : list Z) (json : bool) (profile : list Z) (out : option (list Z)) (force : bool) : Io Output :=
  match profile_of profile with
  | None => expect (fail json (lit "init") (lit "unknown profile " ++ profile) 2)
  | Some profile =>
      let target := default config out in
      there ← exists_at target;
      if there && negb force then expect (fail json (lit "init") (exists_message target) 6)
      else
        written ← event (WriteFile target (starter_config profile));
        match written with
        | inr e => expect (fail json (lit "init") (cannot_write target e) 1)
        | inl _ =>
            expect (emit json (lit "init") (Object [(lit "written", Str target); (lit "profile", Str (profile_name profile))])
                      (lit "wrote " ++ target))
        end
  end.

(** ** [migrate] *)
Definition LIST_DIR : list Z := lit "/var/lib/sumidero/lists".
Definition DB_PATH : list Z := lit "/var/lib/sumidero/sumidero.sqlite".

(** Where the user rules go: next to the target. *)
Definition user_rules_at (cwd : option (list Z)) (target : list Z) : list Z :=
  let dir := match parent target with Some (c :: p) => c :: p | _ => lit "." end in
  let path := path_join dir (lit "user-rules.txt") in
  default path (absolute cwd path).

Definition migrate_text (target user_rules_path : list Z) (m : Migration) : list Z :=
  lit "wrote " ++ target ++ (match mg_user_rules m with Some _ => lit " and " ++ user_rules_path | None => [] end) ++ [c_nl]
  ++ to_string (len (mg_warnings m)) ++ lit " warnings:" ++ [c_nl] ++ lit "  " ++ join_with ([c_nl] ++ lit "  ") (mg_warnings m).

Definition migrate_done (json : bool) (target user_rules_path : list Z) (m : Migration) : option Output :=
  emit json (lit "migrate")
    (Object [(lit "written", Str target);
             (lit "user_rules", match mg_user_rules m with Some _ => Str user_rules_path | None => Null end);
             (lit "warnings", Array (map Str (mg_warnings m)))])
    (migrate_text target user_rules_path m).

(** The user rules, then the configuration. *)
Definition write_migration (target user_rules_path : list Z) (m : Migration) : Io (unit + list Z) :=
  await? _ := match mg_user_rules m with
              | Some rules => err_into (cannot_write user_rules_path) (event (WriteFile user_rules_path rules))
              | None => Ret (inl tt)
              end in
  err_into (cannot_write target) (event (WriteFile target (mg_toml m))).

Definition migrate_run (cwd : option (list Z)) (config : list Z) (json : bool) (input : list Z) (out : option (list Z)) (force : bool) : Io Output :=
  let target := default config out in
  there ← exists_at target;
  if there && negb force then expect (fail json (lit "migrate") (exists_message target) 6)
  else
    yaml ← event (ReadToString input);
    match yaml with
    | inr e => expect (fail json (lit "migrate") (lit "cannot read " ++ input ++ lit ": " ++ e) 1)
    | inl yaml =>
        let user_rules_path := user_rules_at cwd target in
        converted ← expect (convert yaml LIST_DIR DB_PATH user_rules_path);
        match converted with
        | inr e => expect (fail json (lit "migrate") e 1)
        | inl m =>
            written ← write_migration target user_rules_path m;
            match written with
            | inr e => expect (fail json (lit "migrate") e 1)
            | inl _ => expect (migrate_done json target user_rules_path m)
            end
        end
    end.
End Writes.

(** ** [main] *)
Inductive Command :=
| CServe (shadow : option SocketAddr)
| CStatus
| CLog (limit : Z)
| CStats (hours : Z)
| CExplain (domain : list Z)
| CCheck
| CReload (wait_secs : Z)
| CInit (profile : list Z) (out : option (list Z)) (force : bool)
| CShadowReport (hours limit : Z)
| CMigrate (input : list Z) (out : option (list Z)) (force : bool).

Record CliArgs := mkCliArgs { cl_config : list Z; cl_json : bool; cl_command : Command }.

(** What clap makes of the arguments: the command, or an error with its
    exit code, its text and what it prints by itself. *)
Record UsageError := mkUsageError { ue_code : Z; ue_text : list Z; ue_stdout : list Z; ue_stderr : list Z }.

Section Main.
Context `{DaemonOps} `{CliOps} `{ListsOps} `{UnstableSort} `{MigrateOps} `{IpDisplay} `{SqlOrder}.
Notation Io := (Proc LEv).

(** The world a command runs in. *)
Record World := mkWorld {
  wo_machine : Machine;
  wo_runtime : option (list Z);        (* no async runtime *)
  wo_traced : list Z * list Z;         (* the log of [serve] on stderr *)
  wo_served : option SocketAddr -> (unit + CoreError) * Machine;
  wo_kill : option (list Z);
  wo_start : Instant;
  wo_polls : nat -> Instant * option Tables;
  wo_cwd : option (list Z)
}.

(** Four polls a second and one more, see [reload_wait_terminates]. *)
Definition reload_fuel (wait_secs : Z) : nat := S (Z.to_nat (4 * wait_secs)).

(** The commands that leave the database alone. *)
Definition same_machine (m : Machine) (p : Io Output) : Io (Output * Machine) := out ← p; Ret (out, m).

Definition dispatch (w : World) (config : list Z) (json : bool) (c : Command) : Io (Output * Machine) :=
  let m := wo_machine w in
  match c with
  | CServe shadow => ends_with_machine (serve_run m json (wo_traced w) (wo_runtime w) (wo_served w shadow))
  | CStatus => ends_with_machine (status_run m config json)
  | CLog limit => ends_with_machine (log_run m config json limit)
  | CStats hours => ends_with_machine (stats_run m config json hours)
  | CExplain domain => explain_run m config json (wo_runtime w) domain
  | CCheck => same_machine m (check_run m config json (wo_runtime w))
  | CReload wait_secs =>
      ended ← expect (reload_run (reload_fuel wait_secs) m config json wait_secs (wo_kill w) (wo_start w) (wo_polls w));
      ends_with_machine ended
  | CInit profile out force => same_machine m (init_run config json profile out force)
  | CShadowReport hours limit => ends_with_machine (shadow_run m config json hours limit)
  | CMigrate input out force => same_machine m (migrate_run (wo_cwd w) config json input out force)
  end.

(** [args] are the program's arguments, [parsed] what clap says. *)
Definition main (w : World) (args : list (list Z)) (parsed : CliArgs + UsageError) : Io (Output * Machine) :=
  match parsed with
  | inl cli => dispatch w (cl_config cli) (cl_json cli) (cl_command cli)
  | inr e =>
      let code := default 2 (try_from u8_max (ue_code e)) in
      Ret (if (ue_code e =? 2) && existsb (str_eqb (lit "--json")) args
           then mkOutput (value_display (Object [(lit "schema", Str SCHEMA); (lit "command", Str (lit "usage")); (lit "error", Str (ue_text e))]) ++ [c_nl])
                  [] code
           else mkOutput (ue_stdout e) (ue_stderr e) code, wo_machine w)
  end.
End Main.
