(* ===== verification/CommandsSpec.v ===== *)
(** * CommandsSpec: exit codes, envelopes and files of the command line

    Every command keeps to its exit codes and its envelope; [init] and
    [migrate] never touch an existing target unasked, nor any other file
    but the user rules of [migrate]; what [log] and [stats] print is what
    was logged. *)
From S2P Require Import Prelude Text Time Num IpAddr FilterTypes Parse Engine Dns Cache SafeSearch Proc Shadow Db DbSpec StatsSpec Schema Pipeline Result Config Starter Upstream Lists ListsSpec Daemon Cli CliSpec Migrate MigrateSpec Commands.

(** A code among those listed. *)
Ltac code := apply list_elem_of_In; cbn; auto 6.

(** ** The envelope *)
Section Contract.
Context `{DaemonOps} `{CliOps} `{ListsOps} `{UnstableSort} `{MigrateOps} `{IpDisplay} `{SqlOrder}.

Definition command_name (c : Command) : list Z :=
  match c with
  | CServe _ => lit "serve" | CStatus => lit "status" | CLog _ => lit "log" | CStats _ => lit "stats" | CExplain _ => lit "explain"
  | CCheck => lit "check" | CReload _ => lit "reload" | CInit _ _ _ => lit "init" | CShadowReport _ _ => lit "shadow-report"
  | CMigrate _ _ _ => lit "migrate"
  end.

(** The codes the table of [main.rs] gives each command. *)
Definition exit_codes (c : Command) : list Z :=
  match c with
  | CServe _ | CLog _ | CStats _ | CCheck | CShadowReport _ _ => [0; 1]
  | CStatus => [0; 1; 5; 7]
  | CExplain _ => [0; 1; 2; 3; 4]
  | CReload _ => [0; 1; 5; 8]
  | CInit _ _ _ => [0; 1; 2; 6]
  | CMigrate _ _ _ => [0; 1; 6]
  end.

(** With [--json]: one object on stdout with the schema and the command,
    and nothing else; without: the text on stdout or an error on stderr. *)
Definition enveloped (json : bool) (name : list Z) (out : Output) : Prop :=
  if json then
    exists fields, o_stdout out = value_display (Object fields) ++ [c_nl] /\ o_stderr out = []
      /\ field (lit "schema") fields = Str SCHEMA /\ field (lit "command") fields = Str name
  else o_stderr out = [] \/ (o_stdout out = [] /\ exists msg, o_stderr out = lit "error: " ++ msg ++ [c_nl]).

(** What the command itself prints; [serve]'s tracing subscriber logs to
    stderr before that. *)
Definition prints (traced : list Z * list Z) (c : Command) (json : bool) (out : Output) : Prop :=
  match c with
  | CServe _ =>
      exists log own, (log = fst traced \/ log = fst traced ++ snd traced) /\ out = with_stderr log own
        /\ (enveloped json (command_name c) own \/ own = mkOutput [] [] 0)
  | _ => enveloped json (command_name c) out
  end.

Definition kept (traced : list Z * list Z) (c : Command) (json : bool) (out : Output) : Prop :=
  o_code out ∈ exit_codes c /\ prints traced c json out.

Lemma field_insert_same key x fields : field key (insert_field key x fields) = x.
Proof.
  assert (E : str_eqb key key = true) by (by apply str_eqb_eq).
  induction fields as [|[k v] fields IH]; cbn [insert_field field]; [by rewrite E|].
  destruct (str_eqb k key) eqn:Ek; cbn [field]; [by rewrite E|]. by rewrite Ek.
Qed.
Lemma field_insert_other key key' x fields : str_eqb key' key = false -> field key (insert_field key' x fields) = field key fields.
Proof.
  intros Hne. induction fields as [|[k v] fields IH]; cbn [insert_field field]; [by rewrite Hne|].
  destruct (str_eqb k key') eqn:Ek; cbn [field].
  - apply str_eqb_eq in Ek as ->. by rewrite Hne.
  - by rewrite IH.
Qed.

Lemma fail_enveloped json name e code out : fail json name e code = Some out -> o_code out = code /\ enveloped json name out.
Proof.
  unfold fail, enveloped. destruct json; intros [= <-]; (split; [done|]); cbn.
  - eexists. split; [done|]. done.
  - right. split; [done|]. by exists e.
Qed.

Lemma emit_enveloped json name payload human code out :
  emit_code json name payload human code = Some out -> o_code out = code /\ enveloped json name out.
Proof.
  unfold emit_code, enveloped. destruct json.
  - destruct payload; try done. intros [= <-]. split; [done|]. eexists. split; [done|]. split; [done|].
    rewrite field_insert_other by done. by rewrite !field_insert_same.
  - intros [= <-]. split; [done|]. by left.
Qed.

(** A command that prints: it returns, with one of [codes]. *)
Definition speaks (json : bool) (name : list Z) (codes : list Z) (o : option Output) : Prop :=
  exists out, o = Some out /\ o_code out ∈ codes /\ enveloped json name out.

Lemma fail_speaks json name e code codes : code ∈ codes -> speaks json name codes (fail json name e code).
Proof. intros Hc. eexists. split; [done|]. destruct (fail_enveloped json name e code _ eq_refl) as (-> & He). done. Qed.

Lemma emit_speaks json name fields human code codes : code ∈ codes -> speaks json name codes (emit_code json name (Object fields) human code).
Proof.
  intros Hc. destruct (emit_code json name (Object fields) human code) as [out|] eqn:E; [|by destruct json].
  destruct (emit_enveloped _ _ _ _ _ _ E) as (<- & He). by exists out.
Qed.

Lemma report_speaks {A} json name codes (r : (A + list Z) * Machine) f :
  1 ∈ codes -> (forall a, speaks json name codes (f a)) -> speaks json name codes (fst (report json name r f)).
Proof. intros Hin Hf. destruct r as [[a|e] m]; [apply Hf|by apply fail_speaks]. Qed.

(** ** The commands that only print *)

Lemma log_speaks m path json limit : speaks json (lit "log") [0; 1] (fst (log_run m path json limit)).
Proof. apply report_speaks; [code|]. intros rows. apply emit_speaks. code. Qed.
Lemma stats_speaks m path json hours : speaks json (lit "stats") [0; 1] (fst (stats_run m path json hours)).
Proof. apply report_speaks; [code|]. intros rows. apply emit_speaks. code. Qed.
Lemma shadow_speaks m path json hours limit : speaks json (lit "shadow-report") [0; 1] (fst (shadow_run m path json hours limit)).
Proof. apply report_speaks; [code|]. intros [summary recent]. apply emit_speaks. code. Qed.

Lemma status_object hb stats now : exists fields human code, status_of hb stats now = (Object fields, human, code) /\ code ∈ [0; 5; 7].
Proof.
  pose proof (status_code hb stats now) as Hc. destruct (status_of hb stats now) as [[payload human] code'] eqn:E. cbn [snd] in Hc.
  assert (Hp : exists fields, payload = Object fields).
  { unfold status_of in E. destruct hb; injection E as <- _ _; [unfold status_payload|unfold never_ran]; by eexists. }
  destruct Hp as (fields & ->). exists fields, human, code'. split; [done|]. rewrite Hc.
  destruct (fresh hb now); [destruct (_ =? 0)|]; code.
Qed.

Lemma status_speaks m path json : speaks json (lit "status") [0; 1; 5; 7] (fst (status_run m path json)).
Proof.
  unfold status_run. destruct (load_config m path) as [cfg|e]; [|apply fail_speaks; code].
  destruct (open_db m 0 cfg) as [[db|e] m']; cbn [fst]; [|apply fail_speaks; code].
  destruct (query m' 0 _); [|apply fail_speaks; code]. destruct (query m' 1 _); [|apply fail_speaks; code].
  destruct (status_object o o0 (m_now m')) as (fields & human & code' & -> & Hc). apply emit_speaks.
  rewrite !elem_of_cons in *. tauto.
Qed.

Lemma reload_report_speaks json pid wait_secs r : speaks json (lit "reload") [0; 1; 5; 8] (reload_report json pid wait_secs r).
Proof. unfold reload_report, reload_payload. destruct r as [o|]; [destruct (ro_ok o)|]; apply emit_speaks; code. Qed.

(** [reload] speaks, or its deadline is beyond the clock and it panics, or
    the fuel of its wait runs out. *)
Lemma reload_ends (P : option (option Output * Machine) -> Prop) fuel m path json wait_secs kill start polls :
  (forall o m', speaks json (lit "reload") [0; 1; 5; 8] o -> P (Some (o, m'))) ->
  (forall m', instant_add start wait_secs = None -> P (Some (None, m'))) ->
  (forall deadline before, instant_add start wait_secs = Some deadline -> 0 <> wait_secs ->
     reload_wait fuel 0 deadline polls before = None -> P None) ->
  P (reload_run fuel m path json wait_secs kill start polls).
Proof.
  intros Hs Hp Hf. unfold reload_run. destruct (load_config m path) as [cfg|e]; [|apply Hs, fail_speaks; code].
  destruct (open_db m 0 cfg) as [db m1]. destruct (try _ _) as [[hb|]|e]; [|apply Hs, fail_speaks; code..].
  destruct (_ <? _); [apply Hs, fail_speaks; code|]. destruct (_ <? _); [apply Hs, fail_speaks; code|].
  destruct (open_db m1 1 cfg) as [[db2|e] m2]; [|apply Hs, fail_speaks; code].
  destruct kill; [apply Hs, fail_speaks; code|]. destruct (Z.eqb_spec wait_secs 0) as [_|Hne]; [apply Hs, emit_speaks; code|].
  destruct (instant_add start wait_secs) as [deadline|] eqn:Ed; [|by apply Hp].
  destruct (reload_wait _ _ _ _ _) as [r|] eqn:Er; [apply Hs, reload_report_speaks|]. by apply (Hf deadline _ eq_refl (not_eq_sym Hne) Er).
Qed.

(** ** The commands over the disk *)
Lemma fail_holds (I : Disk -> Prop) json name e code (Q : Output -> Disk -> Prop) d :
  I d -> (forall out, o_code out = code -> enveloped json name out -> Q out d) -> Proc.holds (@lexec) I (expect (fail json name e code)) Q d.
Proof. intros Hi Hq. destruct (fail_enveloped json name e code _ eq_refl) as (Hc & He). apply holds_ret; [done|]. by apply Hq. Qed.

Lemma emit_holds (I : Disk -> Prop) json name payload human code (Q : Output -> Disk -> Prop) d :
  I d -> (forall out, o_code out = code -> enveloped json name out -> Q out d) -> Proc.holds (@lexec) I (expect (emit_code json name payload human code)) Q d.
Proof.
  intros Hi Hq. destruct (emit_code _ _ _ _ _) as [out|] eqn:E; [|done]. apply emit_enveloped in E as (Hc & He). apply holds_ret; [done|]. by apply Hq.
Qed.

(** Whatever the disk, [p] ends with what the command may print. *)
Definition keeps (traced : list Z * list Z) (c : Command) (json : bool) (p : Proc LEv (Output * Machine)) : Prop :=
  forall d, Proc.holds (@lexec) (fun _ => True) p (fun r _ => kept traced c json (fst r)) d.

Definition serves (c : Command) : bool := match c with CServe _ => true | _ => false end.

Lemma kept_enveloped traced c json out : serves c = false -> o_code out ∈ exit_codes c -> enveloped json (command_name c) out -> kept traced c json out.
Proof. intros Hc Ho He. split; [done|]. by destruct c. Qed.

(** A command that speaks keeps the contract, and does not panic. *)
Lemma speaks_keeps traced c json (r : option Output * Machine) :
  serves c = false -> speaks json (command_name c) (exit_codes c) (fst r) ->
  keeps traced c json (ends_with_machine r) /\ no_panic (ends_with_machine r).
Proof.
  intros Hc (out & E & Ho & He). unfold ends_with_machine. rewrite E. split; [|done]. intros d. apply holds_ret; [done|]. by apply kept_enveloped.
Qed.

Lemma serve_keeps m traced shadow json runtime served :
  let r := ends_with_machine (serve_run m json traced runtime served) in keeps traced (CServe shadow) json r /\ no_panic r.
Proof.
  assert (Hout : forall log own m', log = fst traced \/ log = fst traced ++ snd traced ->
    o_code own ∈ [0; 1] -> enveloped json (lit "serve") own \/ own = mkOutput [] [] 0 ->
    let r := ends_with_machine (Some (with_stderr log own), m') in keeps traced (CServe shadow) json r /\ no_panic r).
  { intros log own m' Hl Hc Ho. split; [|done]. intros d. apply holds_ret; [done|]. split; [done|]. by exists log, own. }
  assert (Hfail : forall log m' e, log = fst traced \/ log = fst traced ++ snd traced ->
    let r := ends_with_machine (with_stderr log <$> fail json (lit "serve") e 1, m') in keeps traced (CServe shadow) json r /\ no_panic r).
  { intros log m' e Hl. destruct (fail_enveloped json (lit "serve") e 1 _ eq_refl) as (Hc & He). apply (Hout log _ m' Hl); [rewrite Hc; code|by left]. }
  unfold serve_run. destruct runtime; [apply Hfail; by left|]. destruct (fst served); [apply Hout; [by right|code|by right]|apply Hfail; by right].
Qed.

Lemma reads_holds {B} (e : LEv B) {A} (f : B -> Proc LEv A) (I : Disk -> Prop) Q d :
  reads_only e = true -> I d -> (forall b, Proc.holds (@lexec) I (f b) Q d) -> Proc.holds (@lexec) I (event e ≫= f) Q d.
Proof. intros He Hi Hf. apply holds_event; [done|]. intros o. rewrite lexec_reads by done. apply Hf. Qed.

Lemma exists_holds path {A} (f : bool -> Proc LEv A) (I : Disk -> Prop) Q d :
  I d -> Proc.holds (@lexec) I (f (bool_decide (is_Some (dk_files d !! path)) || bool_decide (path ∈ dk_dirs d))) Q d ->
  Proc.holds (@lexec) I (exists_at path ≫= f) Q d.
Proof. intros Hi Hf. apply holds_bind. unfold exists_at. split; [done|]. intros o. split; [done|]. intros o'. split; [done|]. exact Hf. Qed.
End Contract.

(** ** Writing files *)
Section Files.
Context `{DaemonOps} `{CliOps} `{MigrateOps} `{IpDisplay}.

(** [d'] differs from [d] in the files [ps] only. *)
Definition only_touches (ps : list (list Z)) (d d' : Disk) : Prop :=
  dk_dirs d' = dk_dirs d /\ forall p, p ∉ ps -> dk_files d' !! p = dk_files d !! p.

Lemma only_touches_refl ps d : only_touches ps d d.
Proof. done. Qed.
Lemma only_touches_put ps d d' p bytes now : p ∈ ps -> only_touches ps d d' -> only_touches ps d (put_file d' p bytes now).
Proof.
  intros Hp (Hd & Hf). split; [done|]. intros q Hq. cbn. rewrite lookup_insert_ne; [by apply Hf|]. by intros ->.
Qed.

(** A file written, or not and then only this one is in doubt. *)
Lemma write_holds p bytes ps d0 d {A} (f : unit + list Z -> Proc LEv A) Q :
  p ∈ ps -> only_touches ps d0 d ->
  (forall e d', only_touches ps d0 d' -> Proc.holds (@lexec) (only_touches ps d0) (f (inr e)) Q d') ->
  (forall d', only_touches ps d0 d' -> (forall q, content d' q = if bool_decide (q = p) then Some bytes else content d q) ->
     Proc.holds (@lexec) (only_touches ps d0) (f (inl tt)) Q d') ->
  Proc.holds (@lexec) (only_touches ps d0) (event (WriteFile p bytes) ≫= f) Q d.
Proof.
  intros Hp Hd He Hok. apply holds_event; [done|]. intros o. cbn [lexec]. destruct (lo_fail o) as [err|]; cbn [fst snd].
  - apply He. by apply only_touches_put.
  - apply Hok; [by apply only_touches_put|]. intros q. unfold content. cbn. case_bool_decide as Eq.
    + by rewrite Eq, lookup_insert_eq.
    + by rewrite lookup_insert_ne.
Qed.

(** The target is there and must not be replaced. *)
Definition refused (d : Disk) (target : list Z) (force : bool) : bool :=
  (bool_decide (is_Some (dk_files d !! target)) || bool_decide (target ∈ dk_dirs d)) && negb force.

(** How [init] ends. *)
Definition init_ends (config : list Z) (json : bool) (profile : list Z) (out : option (list Z)) (force : bool) (d0 : Disk) (o : Output) (d : Disk) : Prop :=
  let target := default config out in
  match profile_of profile with
  | None => o_code o = 2 /\ d = d0
  | Some p =>
      if refused d0 target force then o_code o = 6 /\ d = d0
      else o_code o = 1 \/ o_code o = 0 /\ content d target = Some (starter_config p)
  end.

Lemma init_holds config json profile out force d0 :
  Proc.holds (@lexec) (only_touches [default config out] d0) (init_run config json profile out force)
    (fun o d => (enveloped json (lit "init") o /\ o_code o ∈ [0; 1; 2; 6]) /\ init_ends config json profile out force d0 o d) d0.
Proof.
  unfold init_run, init_ends. set (target := default config out).
  destruct (profile_of profile) as [p|]; [|apply fail_holds; [done|]; intros o Hc He; split; [split; [done|rewrite Hc; code]|done]].
  apply exists_holds; [done|]. unfold refused. destruct (_ && _); [apply fail_holds; [done|]; intros o Hc He; split; [split; [done|rewrite Hc; code]|done]|].
  apply write_holds; [by left|done| |].
  - intros e d Hd. apply fail_holds; [done|]. intros o Hc He. split; [split; [done|rewrite Hc; code]|by left].
  - intros d Hd Hw. apply emit_holds; [done|]. intros o Hc He. split; [split; [done|rewrite Hc; code]|].
    right. split; [done|]. rewrite Hw, bool_decide_true by done. done.
Qed.

(** A converted configuration loads, wherever it is read from. *)
Lemma convert_loads yaml list_dir db_path user_rules_path m origin :
  convert yaml list_dir db_path user_rules_path = Some (inl m) -> exists config, from_toml (mg_toml m) origin = inl config.
Proof.
  unfold convert. destruct (yaml_from_str yaml) as [agh|e]; [|done]. intros Hc. apply bind_Some in Hc as ([d|e] & _ & Hc); cbn [try] in Hc; [|done].
  destruct (from_toml _ (lit "<migrated>")) as [config|e] eqn:Et; [|done]. injection Hc as <-. exists config. cbn [mg_toml].
  unfold from_toml in *. destruct (toml_from_str _); [|done]. by destruct (validate c).
Qed.

(** What a finished migration left: the target, and next to it the user
    rules, unless the target itself has their name. *)
Definition migrated_to (target user_rules_path : list Z) (m : Migration) (d0 d : Disk) : Prop :=
  content d target = Some (mg_toml m)
  /\ (user_rules_path <> target -> content d user_rules_path =
        match mg_user_rules m with Some rules => Some rules | None => content d0 user_rules_path end).

Definition migrate_ends (cwd : option (list Z)) (config : list Z) (json : bool) (input : list Z) (out : option (list Z)) (force : bool) (d0 : Disk)
  (o : Output) (d : Disk) : Prop :=
  let target := default config out in
  let user_rules_path := user_rules_at cwd target in
  if refused d0 target force then o_code o = 6 /\ d = d0
  else
    (o_code o = 1 /\ (d = d0 \/ exists yaml m, content d0 input = Some yaml /\ convert yaml LIST_DIR DB_PATH user_rules_path = Some (inl m)))
    \/ (o_code o = 0 /\ exists yaml m,
          content d0 input = Some yaml /\ convert yaml LIST_DIR DB_PATH user_rules_path = Some (inl m)
          /\ migrated_to target user_rules_path m d0 d /\ exists cfg, config_load (inl (mg_toml m)) target = inl cfg).

Lemma write_migration_holds target user_rules_path m d0 :
  Proc.holds (@lexec) (only_touches [target; user_rules_path] d0) (write_migration target user_rules_path m)
    (fun r d => match r with inl _ => migrated_to target user_rules_path m d0 d | inr _ => True end) d0.
Proof.
  unfold write_migration. apply holds_await.
  assert (Hrules : Proc.holds (@lexec) (only_touches [target; user_rules_path] d0)
      (match mg_user_rules m with
       | Some rules => err_into (cannot_write user_rules_path) (event (WriteFile user_rules_path rules))
       | None => Ret (inl tt)
       end)
      (fun r d => match r with
                  | inl _ => only_touches [target; user_rules_path] d0 d /\ content d user_rules_path =
                      match mg_user_rules m with Some rules => Some rules | None => content d0 user_rules_path end
                  | inr _ => only_touches [target; user_rules_path] d0 d end) d0).
  { destruct (mg_user_rules m) as [rules|]; [|by apply holds_ret]. apply (write_holds user_rules_path rules _ d0); [right; left|done| |].
    - intros e d Hd. by apply holds_ret.
    - intros d Hd Hw. apply holds_ret; [done|]. split; [done|]. by rewrite Hw, bool_decide_true. }
  revert Hrules. apply holds_weaken; [done|]. intros [[]|e] d Hd; [|done]. destruct Hd as (Hd & Hr).
  apply (write_holds target (mg_toml m) _ d0); [left|done| |].
  - intros e d' Hd'. by apply holds_ret.
  - intros d' Hd' Hw. apply holds_ret; [done|]. split; [by rewrite Hw, bool_decide_true|]. intros Hne. by rewrite Hw, bool_decide_false.
Qed.

Lemma migrate_holds cwd config json input out force d0 :
  Proc.holds (@lexec) (only_touches [default config out; user_rules_at cwd (default config out)] d0) (migrate_run cwd config json input out force)
    (fun o d => (enveloped json (lit "migrate") o /\ o_code o ∈ [0; 1; 6]) /\ migrate_ends cwd config json input out force d0 o d) d0.
Proof.
  unfold migrate_run, migrate_ends. set (target := default config out). set (rules_at := user_rules_at cwd target).
  apply exists_holds; [done|]. unfold refused.
  destruct (_ && _); [apply fail_holds; [done|]; intros o Hc He; split; [split; [done|rewrite Hc; code]|done]|].
  apply holds_event; [done|]. intros o0. rewrite lexec_reads by done. pose proof (read_file o0 input d0) as Hread.
  destruct (fst (lexec o0 (ReadToString input) d0)) as [yaml|e].
  2: { apply fail_holds; [done|]. intros o Hc He. split; [split; [done|rewrite Hc; code]|]. left. split; [done|by left]. }
  apply holds_expect; [done|]. intros [m|e] Hm.
  2: { apply fail_holds; [done|]. intros o Hc He. split; [split; [done|rewrite Hc; code]|]. left. split; [done|by left]. }
  apply holds_bind. generalize (holds_and_inv _ _ _ _ (write_migration_holds target rules_at m d0)).
  apply holds_weaken; [done|]. intros [[]|e] d (Hi & Hd).
  - apply emit_holds; [done|]. intros o Hc He. split; [split; [done|rewrite Hc; code]|]. right. split; [done|]. exists yaml, m.
    split; [done|]. split; [done|]. split; [done|]. cbn [config_load]. by apply (convert_loads _ _ _ _ _ _ Hm).
  - apply fail_holds; [done|]. intros o Hc He. split; [split; [done|rewrite Hc; code]|]. left. split; [done|]. right. by exists yaml, m.
Qed.
End Files.

(** ** Properties *)
Section Properties.
Context `{DaemonOps} `{CliOps} `{ListsOps} `{UnstableSort} `{MigrateOps} `{IpDisplay} `{SqlOrder}.

Lemma holds_true_load sources list_dir online d : Proc.holds (@lexec) (fun _ => True) (load sources list_dir online) (fun _ _ => True) d.
Proof. generalize (load_holds sources list_dir online d). by apply holds_weaken. Qed.

Lemma explained_speaks json domain loaded daemon_hash v :
  explained json domain loaded daemon_hash v = None \/ speaks json (lit "explain") [0; 1; 2; 3; 4] (explained json domain loaded daemon_hash v).
Proof.
  unfold explained. destruct (verdict_parts v) as [[[s rule] l] c] eqn:Ev. destruct (match l with None => _ | Some _ => _ end) as [name|]; [right|by left].
  cbn [mbind option_bind]. apply emit_speaks. destruct v; injection Ev as <- <- <- <-; code.
Qed.

Lemma explain_kept m path json runtime domain traced d :
  Proc.holds (@lexec) (fun _ => True) (explain_run m path json runtime domain) (fun r _ => kept traced (CExplain domain) json (fst r)) d.
Proof.
  assert (Hfail : forall e code m', code ∈ [0; 1; 2; 3; 4] -> forall d, Proc.holds (@lexec) (fun _ => True)
      (ends_with_machine (fail json (lit "explain") e code, m')) (fun r _ => kept traced (CExplain domain) json (fst r)) d)
    by (intros e code m' Hc d'; apply speaks_keeps; [done|]; by apply fail_speaks).
  unfold explain_run. destruct (negb _); [apply Hfail; code|]. destruct (load_config m path) as [cfg|e]; [|apply Hfail; code].
  destruct runtime; [apply Hfail; code|]. apply holds_bind. generalize (holds_true_load (effective_lists cfg) (list_dir (filtering cfg)) false d).
  apply holds_weaken; [done|]. intros [loaded|e] d' _; [|apply Hfail; code]. destruct (open_db m 0 cfg) as [db m'].
  apply holds_expect; [done|]. intros v _. destruct (explained_speaks json domain loaded (daemon_lists_hash m' db) v) as [E|Ho].
  - by unfold ends_with_machine; rewrite E.
  - by apply speaks_keeps.
Qed.

Lemma check_kept m path json runtime traced d :
  Proc.holds (@lexec) (fun _ => True) (check_run m path json runtime) (fun out _ => kept traced CCheck json out) d.
Proof.
  unfold check_run. apply holds_bind.
  assert (Hv : Proc.holds (@lexec) (fun _ => True) (check_validate m path runtime) (fun _ _ => True) d).
  { unfold check_validate. destruct (load_config m path) as [cfg|e]; [|done]. destruct runtime; [done|]. apply holds_bind.
    generalize (holds_true_load (effective_lists cfg) (list_dir (filtering cfg)) false d). apply holds_weaken; [done|].
    intros [loaded|e] d' _; [|done]. by apply holds_expect. }
  revert Hv. apply holds_weaken; [done|]. intros [report|e] d' _.
  - apply emit_holds; [done|]. intros out Ho He. split; [rewrite Ho; code|done].
  - apply fail_holds; [done|]. intros out Ho He. split; [rewrite Ho; code|done].
Qed.

(** A command over files, on the machine it leaves alone. *)
Lemma same_machine_keeps m traced c json (p : Proc LEv Output) d :
  Proc.holds (@lexec) (fun _ => True) p (fun out _ => kept traced c json out) d ->
  Proc.holds (@lexec) (fun _ => True) (same_machine m p) (fun r _ => kept traced c json (fst r)) d.
Proof. intros Hp. apply holds_bind. revert Hp. apply holds_weaken; [done|]. intros out d' Hk. by apply holds_ret. Qed.

Lemma exists_no_panic {A} path (f : bool -> Proc LEv A) : (forall b, no_panic (f b)) -> no_panic (exists_at path ≫= f).
Proof. intros Hf. by apply no_panic_bind. Qed.

Lemma expect_no_panic {A C} (o : option A) (f : A -> Proc LEv C) : is_Some o -> (forall a, no_panic (f a)) -> no_panic (expect o ≫= f).
Proof. intros (a & ->) Hf. apply Hf. Qed.

Lemma fail_no_panic json name e code : no_panic (Ev := LEv) (expect (fail json name e code)).
Proof. done. Qed.
Lemma emit_no_panic json name fields human : no_panic (Ev := LEv) (expect (emit json name (Object fields) human)).
Proof. by destruct json. Qed.

Lemma init_no_panic config json profile out force : no_panic (init_run config json profile out force).
Proof.
  unfold init_run. destruct (profile_of profile); [|done]. apply exists_no_panic. intros there. destruct (_ && _); [done|].
  intros [[]|e]; [apply emit_no_panic|apply fail_no_panic].
Qed.

Lemma migrate_no_panic cwd config json input out force : no_panic (migrate_run cwd config json input out force).
Proof.
  unfold migrate_run. apply exists_no_panic. intros there. destruct (_ && _); [done|]. intros [yaml|e]; [|done].
  apply expect_no_panic.
  - unfold convert. destruct (yaml_from_str yaml) as [agh|e]; [|by eexists]. destruct (draft_total agh) as (r & -> & _). by eexists.
  - intros [m|e]; [|done]. apply no_panic_bind.
    + unfold write_migration. apply no_panic_bind; [destruct (mg_user_rules m); done|]. by intros [[]|e].
    + intros [[]|e]; [apply emit_no_panic|done].
Qed.

Lemma same_machine_no_panic m (p : Proc LEv Output) : no_panic p -> no_panic (same_machine m p).
Proof. intros Hp. by apply no_panic_bind. Qed.

(** The deadline of [reload] is an instant the clock has. *)
Definition clock_reaches (start : Instant) (wait_secs : Z) : Prop := (start + from_secs wait_secs) / ns_per_sec <= i64_max.

Lemma reload_contract w config json wait_secs :
  keeps (wo_traced w) (CReload wait_secs) json (dispatch w config json (CReload wait_secs))
  /\ (poll_clock (wo_start w) (wo_polls w) -> 0 <= wait_secs -> clock_reaches (wo_start w) wait_secs ->
      no_panic (dispatch w config json (CReload wait_secs))).
Proof.
  cbn [dispatch]. apply reload_ends.
  - intros o m' Ho. destruct (speaks_keeps (wo_traced w) (CReload wait_secs) json (o, m') eq_refl Ho) as (Hk & Hn). by split.
  - intros m' Hp. split; [done|]. intros _ _ Hr. revert Hp. unfold instant_add. rewrite (proj2 (Z.leb_le _ _)); [done|exact Hr].
  - intros deadline before Hd Hne Hw. split; [done|]. intros Hc Hs _. exfalso. revert Hd. unfold instant_add. destruct (_ <=? _); [|done]. intros [= <-].
    destruct (reload_wait_spec (reload_fuel wait_secs) (wo_start w) (wo_start w + from_secs wait_secs) (wo_polls w) before 0 Hc) as (r & Hr & _).
    + unfold reload_fuel, from_secs, POLL, from_millis, ns_per_sec, ns_per_ms. lia.
    + unfold reload_fuel. lia.
    + congruence.
Qed.


(** A wait the clock cannot count to, over a running daemon: [reload] has
    signalled it, and panics. *)
Lemma reload_overflow_panics fuel m m1 m2 path cfg db db2 hb json wait_secs start polls :
  load_config m path = inl cfg -> open_db m 0 cfg = (inl db, m1) -> query m1 0 (heartbeat db) = inl (Some hb) ->
  m_now m1 - hb_updated_ts hb <= HEARTBEAT_FRESH_SECS -> hb_pid hb <= i32_max -> open_db m1 1 cfg = (inl db2, m2) ->
  0 < wait_secs -> ~ clock_reaches start wait_secs ->
  reload_run fuel m path json wait_secs None start polls = Some (None, m2).
Proof.
  intros Hc Ho Hq Ha Hpid Ho2 Hw Hover. unfold reload_run. rewrite Hc, Ho. cbn [try]. rewrite Hq.
  rewrite (proj2 (Z.ltb_ge _ _)) by done. rewrite (proj2 (Z.ltb_ge _ _)) by done. rewrite Ho2.
  rewrite (proj2 (Z.eqb_neq _ _)) by lia. unfold instant_add. by rewrite (proj2 (Z.leb_gt _ _)) by (unfold clock_reaches in Hover; lia).
Qed.

(** C40: [init] and [migrate] write what they say and nothing else. At every
    moment, crash or not, only the target (and for [migrate] the user-rules
    file beside it) may differ from before; an existing target without
    [--force] is refused with 6 and the disk is as it was, as it is when
    nothing can be converted; on success the target holds exactly the
    starter text of the profile, or the migrated configuration, which the
    daemon's loader accepts. Only the target is guarded: [migrate]
    overwrites an existing [user-rules.txt] beside it without being asked. *)
Theorem files_written_as_said cwd config json profile input out force d0 :
  let target := default config out in
  Proc.holds (@lexec) (only_touches [target] d0) (init_run config json profile out force)
    (fun o d => init_ends config json profile out force d0 o d) d0
  /\ Proc.holds (@lexec) (only_touches [target; user_rules_at cwd target] d0) (migrate_run cwd config json input out force)
       (fun o d => migrate_ends cwd config json input out force d0 o d) d0.
Proof.
  intros target. split.
  - generalize (init_holds config json profile out force d0). apply holds_weaken; [done|]. intros o d Hq. apply Hq.
  - generalize (migrate_holds cwd config json input out force d0). apply holds_weaken; [done|]. intros o d Hq. apply Hq.
Qed.

Lemma with_db_reads {A} (f : Tables -> A + list Z) m path cfg t :
  load_config m path = inl cfg -> fst (open_db m 0 cfg) = inl t -> fst (with_db m path f) = f t.
Proof. intros Hc Ho. unfold with_db. rewrite Hc. destruct (open_db m 0 cfg) as [db m']. cbn [fst] in *. by rewrite Ho. Qed.

(** C36: the command line shows the log as it was written. Over a readable
    database holding the records [qs], [log] prints the records
    themselves, newest first, the later logged first among equal times, at
    most [limit]; [stats] prints the exact counters of the records since
    its window began (there is no upper end) and the ten names queried and
    blocked most. *)
Theorem cli_shows_log m path cfg t qs limit hours :
  load_config m path = inl cfg -> fst (open_db m 0 cfg) = inl (logged t qs) -> m_sql m 0 = None ->
  t_queries t = [] -> Forall record_ok qs -> len qs <= u64_max ->
  (exists ps, ps ≡ₚ place qs /\ StronglySorted later ps
     /\ let shown := map (fun p => clamp_list (snd p)) (take (Z.to_nat limit) ps) in
        forall json, fst (log_run m path json limit)
          = emit json (lit "log") (Object [(lit "entries", Array (map log_entry shown))]) (join c_nl (map log_line shown)))
  /\ exists s, (forall json, fst (stats_run m path json hours) = emit json (lit "stats") (stats_payload hours s) (stats_text hours s))
     /\ counts_log (m_now m - hours * 3600) qs s
     /\ top_of 10 (map q_qname (in_window (m_now m - hours * 3600) qs)) (top_queried s)
     /\ top_of 10 (map q_qname (List.filter (fun q => bool_decide (q_verdict q = Blocked)) (in_window (m_now m - hours * 3600) qs))) (top_blocked s).
Proof.
  intros Hc Ho Hs Ht Hok Hl. split.
  - destruct (recent_queries_newest_first t qs limit Ht Hok) as (ps & Hp & Hsorted & Hr). exists ps. split; [done|]. split; [done|].
    intros shown json. unfold log_run, report. cbn [fst]. rewrite (with_db_reads _ m path cfg _ Hc Ho). unfold read_queries, query. rewrite Hs. cbn [try]. by rewrite Hr.
  - exists (stats (logged t qs) (m_now m - hours * 3600)). split; [|by apply stats_reported].
    intros json. unfold stats_run, report. cbn [fst]. rewrite (with_db_reads _ m path cfg _ Hc Ho). unfold query. by rewrite Hs.
Qed.
End Properties.
