(* ===== verification/UpstreamBooks.v ===== *)
(** * UpstreamBooks: what the tasks of one upstream hold

    The queries using an upstream and the repairs they spawned, one event
    of one of them per step, the clock moving between steps. Every task is
    given what it holds (its query counted, its failure counted, a
    generation not yet installed, how far its build is, how often it may
    still condemn a connection); the code only does what its holdings
    allow, and over all tasks the holdings balance the counters of the
    upstream. *)
From S2P Require Import Prelude Text Time Num IpAddr Dns Shadow Proc Upstream UpstreamSpec.

Section System.
Context `{HickoryOps} `{UpstreamOps} `{RcodeDisplay}.
Notation Send := (Proc UEv (Message + list Z)).

Record System := mkSystem {
  y_up : Upstream;
  y_now : Instant;
  y_sends : list Send;
  y_repairs : list (Proc UEv unit);
  y_results : list (Message + list Z);
  y_started : nat;
  y_cancelled : nat;
  y_dropped : nat;                      (* builds dropped before they ended *)
  y_installed : list (Z * Transport)    (* every connection installed so far *)
}.

Definition uspawned {B} (e : UEv B) : list (Proc UEv unit) := match e with SpawnRepair => [repair] | _ => [] end.
Definition uinstalls {B} (e : UEv B) : list (Z * Transport) := match e with Install g t _ => [(g, t)] | _ => [] end.
Definition udrops {B} (e : UEv B) : B -> nat :=
  match e in UEv B return B -> nat with
  | Build => fun b => match b with BuildDropped => 1%nat | _ => 0%nat end
  | _ => fun _ => 0%nat
  end.

(** An await at which a query can be cancelled. *)
Definition interruptible {B} (e : UEv B) : bool := match e with SendQuery _ _ _ | Changed _ _ => true | _ => false end.

Inductive uwork : System -> System -> Prop :=
| uw_send o u u' now pre post B (e : UEv B) k b rs out n m d ins :
    now <= uo_now o -> uexec o e u = Some (b, u') ->
    uwork (mkSystem u now (pre ++ Vis e k :: post) rs out n m d ins)
          (mkSystem u' (uo_now o) (pre ++ k b :: post) (uspawned e ++ rs) out n m (udrops e b + d) (uinstalls e ++ ins))
| uw_sent u now pre post r rs out n m d ins :
    uwork (mkSystem u now (pre ++ Ret r :: post) rs out n m d ins)
          (mkSystem u now (pre ++ post) rs (r :: out) n m d ins)
| uw_repair o u u' now ss pre post B (e : UEv B) k b out n m d ins :
    now <= uo_now o -> uexec o e u = Some (b, u') ->
    uwork (mkSystem u now ss (pre ++ Vis e k :: post) out n m d ins)
          (mkSystem u' (uo_now o) ss (uspawned e ++ pre ++ k b :: post) out n m (udrops e b + d) (uinstalls e ++ ins))
| uw_repaired u now ss pre post out n m d ins :
    uwork (mkSystem u now ss (pre ++ Ret tt :: post) out n m d ins)
          (mkSystem u now ss (pre ++ post) out n m d ins).

(** A query begins (with fuel for [limit] concluded repairs), or its task
    is dropped at an await. *)
Inductive uoutside (limit : nat) : System -> System -> Prop :=
| uo_start u now ss rs out n m d ins msg deadline :
    uoutside limit (mkSystem u now ss rs out n m d ins)
      (mkSystem u now (send (S limit) (u_factory u) msg deadline :: ss) rs out (S n) m d ins)
| uo_cancel u now pre post B (e : UEv B) k rs out n m d ins :
    interruptible e = true ->
    uoutside limit (mkSystem u now (pre ++ Vis e k :: post) rs out n m d ins)
      (mkSystem u now (pre ++ post) rs out n (S m) d ins).

Definition ustep (limit : nat) (c c' : System) : Prop := uwork c c' \/ uoutside limit c c'.

Inductive usteps (R : System -> System -> Prop) : nat -> System -> System -> Prop :=
| us_nil c : usteps R 0 c c
| us_cons n c c' c'' : R c c' -> usteps R n c' c'' -> usteps R (S n) c c''.

(** A system as the pool starts it. *)
Definition system_new (f : NetworkFactory) (initial : ConnState) (timeout : Duration) (now : Instant) : System :=
  mkSystem (upstream_new f initial timeout) now [] [] [] 0 0 0
    (match initial with Connected g t _ => [(g, t)] | _ => [] end).

Definition starts_ok (initial : ConnState) : Prop :=
  match initial with Down _ _ => True | Connected g _ p => g = 1 /\ p = None | Connecting => False end.

Definition ureachable (limit : nat) (c0 c : System) : Prop := exists n, usteps (ustep limit) n c0 c.

(** ** What a task holds

    How far the build it owes is: it owes none; begun; the clock read after
    it failed or succeeded; its outcome published; dropped; the outcome
    settled, the waiters not yet told. *)
Inductive Stage := Idle | Begun | Clocked (t : Instant) | Published | Lost | Telling.

Record Held := mkHeld {
  h_stage : Stage;
  h_asked : bool;
  h_failed : bool;
  h_gen : option Z;
  h_drops : nat         (* connections it may still condemn *)
}.

(** The duty to conclude a build. *)
Definition h_guard (h : Held) : bool := match h_stage h with Idle | Telling => false | _ => true end.

Definition held_none : Held := mkHeld Idle false false None 0.
Definition held_new : Held := mkHeld Idle false false None 2.
Definition held_asked (k : nat) : Held := mkHeld Idle true false None k.
Definition held_failed (k : nat) : Held := mkHeld Idle true true None k.
Definition held_guard : Held := mkHeld Begun false false None 0.

Definition with_stage (h : Held) (s : Stage) : Held := mkHeld s (h_asked h) (h_failed h) (h_gen h) (h_drops h).
Definition with_gen (h : Held) (g : option Z) : Held := mkHeld (h_stage h) (h_asked h) (h_failed h) g (h_drops h).
Definition with_drops (h : Held) (k : nat) : Held := mkHeld (h_stage h) (h_asked h) (h_failed h) (h_gen h) k.

(** What performing [e] does to the holdings; [None]: not allowed. *)
Definition uspend (h : Held) {B} (e : UEv B) : B -> option Held :=
  match e in UEv B return B -> option Held with
  | StartConnecting => fun b =>
      if (b : bool) then match h_stage h with Idle => Some (with_stage h Begun) | _ => None end else Some h
  | SpawnRepair => fun _ => match h_stage h with Begun => Some (with_stage h Idle) | _ => None end
  | Build => fun b =>
      match b with
      | BuildDropped => match h_stage h with Begun => Some (with_stage h Lost) | _ => None end
      | _ => Some h
      end
  | Now => fun b => Some (match h_stage h with Begun => with_stage h (Clocked b) | _ => h end)
  | BuildFailed retry_at _ => fun _ =>
      match h_stage h with
      | Clocked t => if t + MIN_RECONNECT_BACKOFF <=? retry_at then Some (with_stage h Published) else None
      | _ => None
      end
  | Install g _ _ => fun _ =>
      match h_stage h with
      | Clocked _ => if bool_decide (h_gen h = Some g) then Some (with_gen (with_stage h Published) None) else None
      | _ => None
      end
  | AbandonConnecting => fun _ => match h_stage h with Published | Lost => Some (with_stage h Telling) | _ => None end
  | NotifyDone => fun _ => match h_stage h with Telling => Some (with_stage h Idle) | _ => None end
  | DropConnection _ _ => fun b =>
      if (b : bool) then match h_drops h with S k => Some (with_drops h k) | O => None end else Some h
  | AddQuery => fun _ => if h_asked h then None else Some (mkHeld (h_stage h) true (h_failed h) (h_gen h) (h_drops h))
  | AddFailure => fun _ => if h_failed h then None else Some (mkHeld (h_stage h) (h_asked h) true (h_gen h) (h_drops h))
  | NextBuild => fun b => match h_gen h with None => Some (with_gen h (Some (b + 1))) | Some _ => None end
  | _ => fun _ => Some h
  end.

Definition backoff_range (ms : Z) : Prop := 500 <= ms <= 30000.

(** What a task may do, and what it can be told, when [seen] repairs have
    concluded and at most [limit] ever will. *)
Definition umay (h : Held) {B} (e : UEv B) : Prop :=
  match e with
  | SendQuery _ _ _ | Changed _ _ => exists k, h = held_asked k
  | StoreBackoff ms => backoff_range ms
  | _ => True
  end.
Definition uanswer (limit seen : Z) {B} (e : UEv B) : B -> Prop :=
  match e in UEv B return B -> Prop with
  | Subscribe => fun b => seen <= b <= limit
  | Changed s _ => fun b => b = true -> s + 1 <= limit
  | LoadBackoff => fun b => exists ms, backoff_range ms /\ b = from_millis ms
  | _ => fun _ => True
  end.
Definition ulearn (seen : Z) {B} (e : UEv B) : B -> Z :=
  match e in UEv B return B -> Z with
  | Subscribe => fun b => b
  | Changed s _ => fun b => if (b : bool) then Z.max seen (s + 1) else seen
  | _ => fun _ => seen
  end.

Fixpoint uowns {A} (limit seen : Z) (h : Held) (p : Proc UEv A) (Q : Z -> Held -> A -> Prop) : Prop :=
  match p with
  | Ret a => Q seen h a
  | Panic => False
  | Vis e k => umay h e /\ forall b, uanswer limit seen e b ->
      match uspend h e b with Some h' => uowns limit (ulearn seen e b) h' (k b) Q | None => False end
  end.

Lemma uowns_mono {A} limit seen h (p : Proc UEv A) (Q Q' : Z -> Held -> A -> Prop) :
  (forall s h a, Q s h a -> Q' s h a) -> uowns limit seen h p Q -> uowns limit seen h p Q'.
Proof.
  intros HQ. revert seen h. induction p as [a|B e k IH|]; intros seen h; cbn [uowns]; [apply HQ| |done].
  intros (Hw & Hk). split; [done|]. intros b Hb. specialize (Hk b Hb). destruct (uspend h e b); [|done]. by apply IH.
Qed.

Lemma uowns_bind {A C} limit seen h (p : Proc UEv A) (f : A -> Proc UEv C) Q :
  uowns limit seen h p (fun s h a => uowns limit s h (f a) Q) -> uowns limit seen h (p ≫= f) Q.
Proof.
  revert seen h. induction p as [a|B e k IH|]; intros seen h; cbn [uowns]; [done| |done].
  intros (Hw & Hk). split; [done|]. intros b Hb. specialize (Hk b Hb). destruct (uspend h e b); [|done]. by apply IH.
Qed.

Lemma uowns_event {B C} limit seen h (e : UEv B) (f : B -> Proc UEv C) Q :
  umay h e ->
  (forall b, uanswer limit seen e b ->
     match uspend h e b with Some h' => uowns limit (ulearn seen e b) h' (f b) Q | None => False end) ->
  uowns limit seen h (event e ≫= f) Q.
Proof. intros Hw Hk. exact (conj Hw Hk). Qed.

Lemma uowns_last {B} limit seen h (e : UEv B) Q :
  umay h e ->
  (forall b, uanswer limit seen e b ->
     match uspend h e b with Some h' => Q (ulearn seen e b) h' b | None => False end) ->
  uowns limit seen h (event e) Q.
Proof. intros Hw Hk. exact (conj Hw Hk). Qed.

(** ** The code keeps its books *)
Lemma backoff_least ms : backoff_range ms -> MIN_RECONNECT_BACKOFF <= from_millis ms.
Proof. unfold backoff_range, MIN_RECONNECT_BACKOFF, from_millis, ns_per_ms. lia. Qed.

(** Once the outcome is published, or the build lost. *)
Lemma concluded_owns limit seen h :
  h = with_stage held_none Published \/ h = with_stage held_none Lost ->
  uowns limit seen h concluded (fun _ h _ => h = held_none).
Proof.
  intros Hh. apply uowns_event; [done|]. intros [] _. destruct Hh as [-> | ->]; cbn [uspend ulearn with_stage held_none h_stage];
    (apply uowns_last; [done|]; by intros [] _).
Qed.

Lemma repair_fails_owns limit seen err :
  uowns limit seen held_guard
    (backoff ← event LoadBackoff; now ← event Now; _ ← event (BuildFailed (now + backoff) err);
     _ ← event (StoreBackoff (duration_to_millis (Z.min (backoff * 2) MAX_RECONNECT_BACKOFF))); concluded)
    (fun _ h _ => h = held_none).
Proof.
  destruct consts_millis as (C1 & _).
  apply uowns_event; [done|]. intros b (ms & Hms & ->). cbn [uspend ulearn].
  apply uowns_event; [done|]. intros now _. cbn [uspend ulearn held_guard h_stage].
  apply uowns_event; [done|]. intros [] _. cbn [uspend with_stage h_stage]. pose proof (backoff_least ms Hms). zguard. cbn [ulearn].
  apply uowns_event.
  - cbn. unfold backoff_range in *. rewrite C1, millis_next by (unfold u64_max; lia). lia.
  - intros [] _. apply concluded_owns. by left.
Qed.

Lemma repair_owns limit seen : uowns limit seen held_guard repair (fun _ h _ => h = held_none).
Proof.
  destruct consts_millis as (_ & C2 & _).
  apply uowns_event; [done|]. intros answer _.
  destruct answer as [[t|e]| |]; cbn [uspend ulearn held_guard h_stage]; [|apply repair_fails_owns..|apply concluded_owns; by right].
  apply uowns_event; [done|]. intros b (ms & Hms & ->). cbn [uspend ulearn].
  apply uowns_event; [done|]. intros builds _. cbn [uspend ulearn held_guard h_gen].
  apply uowns_event; [done|]. intros now _. cbn [uspend ulearn with_gen h_stage].
  apply uowns_event; [done|]. intros [] _. cbn [uspend with_gen with_stage h_stage h_gen].
  rewrite bool_decide_eq_true_2 by done. cbn [ulearn].
  apply uowns_event.
  - cbn. unfold backoff_range in *. rewrite C2, millis_next by (unfold u64_max; lia). lia.
  - intros [] _. apply uowns_event; [done|]. intros [] _. apply concluded_owns. by left.
Qed.

Lemma trigger_owns limit seen k (Q : Z -> Held -> unit -> Prop) :
  Q seen (held_asked k) tt -> uowns limit seen (held_asked k) trigger_repair Q.
Proof.
  intros HQ. apply uowns_event; [done|]. intros [] _; cbn [uspend ulearn held_asked h_stage]; [|done].
  apply uowns_last; [done|]. by intros [] _.
Qed.

(** Fuel for every repair that can still conclude. *)
Lemma acquire_owns fuel limit seen k f deadline (Q : Z -> Held -> (Z * Transport) + list Z -> Prop) :
  seen <= limit -> limit - seen < Z.of_nat fuel ->
  (forall s r, seen <= s <= limit -> Q s (held_asked k) r) ->
  uowns limit seen (held_asked k) (acquire fuel f deadline) Q.
Proof.
  revert seen. induction fuel as [|fuel IH]; intros seen Hle Hf HQ; [lia|].
  apply uowns_event; [done|]. intros b Hb. cbn [uspend ulearn uanswer] in *.
  apply uowns_event; [done|]. intros [g t|r e|] _; cbn [uspend ulearn].
  - apply HQ. lia.
  - apply uowns_event; [done|]. intros now _. cbn [uspend ulearn held_asked h_stage]. apply HQ. lia.
  - apply uowns_bind, trigger_owns. apply uowns_event; [by exists k|]. intros [] Hc; cbn [uspend ulearn uanswer] in *.
    + specialize (Hc eq_refl). apply IH; [lia|lia|]. intros s r Hs. apply HQ. lia.
    + apply HQ. lia.
Qed.

(** Condemning a connection may use up one of its chances. *)
Lemma invalidate_owns limit seen k g why (Q : Z -> Held -> unit -> Prop) :
  (forall k', (k <= k')%nat -> Q seen (held_asked k') tt) -> uowns limit seen (held_asked (S k)) (invalidate g why) Q.
Proof.
  intros HQ. apply uowns_event; [done|].
  intros [] _; cbn [uspend ulearn held_asked h_drops]; [apply trigger_owns|]; apply HQ; lia.
Qed.

(** How a send ends: counted, and failed or not. *)
Definition ended (_ : Z) (h : Held) (r : Message + list Z) : Prop :=
  exists k, h = match r with inl _ => held_asked k | inr _ => held_failed k end.

Lemma failure_owns limit seen k err : uowns limit seen (held_asked k) (err ← record_failure err; Ret (inr err)) ended.
Proof. cbn. unfold ended. eauto. Qed.

Lemma success_owns limit seen k (Q : Z -> Held -> unit -> Prop) :
  Q seen (held_asked k) tt -> uowns limit seen (held_asked k) record_success Q.
Proof.
  intros HQ. unfold record_success. destruct consts_millis as (_ & _ & ->).
  do 3 (apply uowns_event; [done|]; intros ? _; cbn [uspend ulearn]).
  apply uowns_event; [cbn; unfold backoff_range; lia|]. intros [] _. apply uowns_last; [done|]. by intros [] _.
Qed.

Lemma judge_owns limit seen k f m : uowns limit seen (held_asked k) (judge f m) ended.
Proof.
  unfold judge. destruct (unusable (rcode m)); [apply failure_owns|]. apply uowns_bind, success_owns. by exists k.
Qed.

Lemma judged_owns limit seen k f m (g : list Z -> list Z) :
  uowns limit seen (held_asked k) (r ← judge f m; Ret (match r with inl m => inl m | inr e => inr (g e) end)) ended.
Proof. apply uowns_bind. eapply uowns_mono; [|apply judge_owns]. intros s h [m'|e] (k' & ->); by exists k'. Qed.

Lemma send_again_owns fuel limit seen k f msg deadline err :
  0 <= seen <= limit -> limit < Z.of_nat fuel ->
  uowns limit seen (held_asked (S k)) (send_again fuel f msg deadline err) ended.
Proof.
  intros Hs Hf. unfold send_again. apply uowns_bind, acquire_owns; [lia|lia|]. intros s r Hr.
  destruct r as [[g t]|e]; [|apply failure_owns]. apply uowns_bind, uowns_event; [by eexists|]. intros a _. cbn [uspend ulearn].
  destruct a as [[m|e]|]; cbn [uowns].
  - apply judged_owns.
  - destruct (classify_net_error e); [apply uowns_bind, invalidate_owns; intros k' _|]; apply failure_owns.
  - apply uowns_bind, invalidate_owns. intros k' _. apply failure_owns.
Qed.

Lemma send_owns limit seen f msg deadline :
  0 <= seen <= Z.of_nat limit ->
  uowns (Z.of_nat limit) seen held_new (send (S limit) f msg deadline) ended.
Proof.
  intros Hs. unfold send. apply uowns_event; [done|]. intros [] _. cbn [uspend ulearn held_new h_asked h_stage h_failed h_gen h_drops].
  apply uowns_bind, (acquire_owns _ _ _ 2); [lia|lia|]. intros s r Hr.
  destruct r as [[g t]|e]; [|apply failure_owns]. apply uowns_bind, uowns_event; [by eexists|]. intros a _. cbn [uspend ulearn].
  destruct a as [[m|e]|]; cbn [uowns].
  - apply judge_owns.
  - destruct (classify_net_error e); [|apply failure_owns]. apply uowns_bind, invalidate_owns. intros [|k'] Hk'; [lia|].
    apply send_again_owns; lia.
  - apply uowns_bind, invalidate_owns. intros k' _. apply failure_owns.
Qed.

(** ** The books *)
Definition holding (f : Held -> bool) (hs : list Held) : Z := len (List.filter f hs).
Definition is_err (r : Message + list Z) : bool := match r with inl _ => false | inr _ => true end.
Definition generations (hs : list Held) (ins : list (Z * Transport)) : list Z := map fst ins ++ omap h_gen hs.

Record books (u : Upstream) (hs : list Held) (out : list (Message + list Z)) (cancelled : nat) (ins : list (Z * Transport)) : Prop := {
  bk_guard : is_connecting (u_state u) = true -> 1 <= holding h_guard hs;
  bk_queries : u_queries u = len out + Z.of_nat cancelled + holding h_asked hs;
  bk_failures : u_failures u = len (List.filter is_err out) + holding h_failed hs;
  bk_backoff : backoff_range (u_backoff_ms u);
  bk_gens : NoDup (generations hs ins);
  bk_range : Forall (fun g => 1 <= g <= u_builds u) (generations hs ins) /\ 0 <= u_builds u;
  bk_current : forall g t p, u_state u = Connected g t p -> (g, t) ∈ ins
}.

Lemma holding_cons f h hs : holding f (h :: hs) = (if f h then 1 else 0) + holding f hs.
Proof. unfold holding. cbn [List.filter]. destruct (f h); rewrite ?len_cons; lia. Qed.

Lemma holding_nonneg f hs : 0 <= holding f hs.
Proof. apply len_nonneg. Qed.

Lemma holding_perm f hs hs' : hs ≡ₚ hs' -> holding f hs = holding f hs'.
Proof. induction 1; rewrite ?holding_cons; lia. Qed.

Lemma books_perm u hs hs' out m ins : hs ≡ₚ hs' -> books u hs out m ins -> books u hs' out m ins.
Proof.
  intros Hp [B1 B2 B3 B4 B5 B6 B7]. rewrite (holding_perm h_guard _ _ Hp) in B1. rewrite (holding_perm h_asked _ _ Hp) in B2.
  rewrite (holding_perm h_failed _ _ Hp) in B3.
  assert (Hg : generations hs ins ≡ₚ generations hs' ins) by (unfold generations; by rewrite Hp).
  rewrite Hg in B5. split; try done. by rewrite <- Hg.
Qed.

(** An event that changes none of what the books are about. *)
Lemma books_same u u' hs out m ins :
  books u hs out m ins -> u_state u' = u_state u -> u_queries u' = u_queries u -> u_failures u' = u_failures u ->
  u_builds u' = u_builds u -> backoff_range (u_backoff_ms u') -> books u' hs out m ins.
Proof. intros [B1 B2 B3 B4 B5 B6 B7] Hs Hq Hf Hb Hm. split; rewrite ?Hs, ?Hq, ?Hf, ?Hb; done. Qed.

(** A new connection state that is not [Connecting]. *)
Lemma books_state u hs out m ins s :
  books u hs out m ins -> is_connecting s = false -> (forall g t p, s = Connected g t p -> (g, t) ∈ ins) ->
  books (set_state u s) hs out m ins.
Proof. intros [B1 B2 B3 B4 B5 B6 B7] Hs Hc. split; cbn; try done. by rewrite Hs. Qed.

Lemma books_held u h h' hs out m ins :
  books u (h :: hs) out m ins -> h_asked h' = h_asked h -> h_failed h' = h_failed h -> h_gen h' = h_gen h ->
  (is_connecting (u_state u) = true -> h_guard h = true -> h_guard h' = true \/ 1 <= holding h_guard hs) ->
  books u (h' :: hs) out m ins.
Proof.
  intros [B1 B2 B3 B4 B5 B6 B7] Ha Hf Hg Hc. unfold generations in *. rewrite ?holding_cons in *. cbn [omap list_omap] in *.
  split; unfold generations; cbn [omap list_omap]; rewrite ?holding_cons, ?Ha, ?Hf, ?Hg; try done.
  intros Hs. specialize (B1 Hs). pose proof (holding_nonneg h_guard hs).
  destruct (h_guard h) eqn:E; [|destruct (h_guard h'); lia]. destruct (Hc Hs eq_refl) as [->|]; [lia|destruct (h_guard h'); lia].
Qed.

Lemma books_install u h hs out m ins g t p :
  books u (h :: hs) out m ins -> h_gen h = Some g ->
  books (set_state u (Connected g t p)) (with_gen (with_stage h Published) None :: hs) out m ((g, t) :: ins).
Proof.
  intros [B1 B2 B3 B4 B5 B6 B7] Hg. unfold generations in *. cbn in B5, B6. rewrite Hg in B5, B6.
  assert (Hp : map fst ins ++ g :: omap h_gen hs ≡ₚ g :: map fst ins ++ omap h_gen hs) by (symmetry; apply Permutation_middle).
  rewrite Hp in B5, B6. rewrite ?holding_cons in *. split; rewrite ?holding_cons; cbn; try done.
  intros g' t' p' [= <- <- _]. by left.
Qed.

Lemma books_next u h hs out m ins :
  books u (h :: hs) out m ins -> h_gen h = None ->
  books (set_builds u (u_builds u + 1)) (with_gen h (Some (u_builds u + 1)) :: hs) out m ins.
Proof.
  intros [B1 B2 B3 B4 B5 B6 B7] Hg. unfold generations in *. cbn in B5, B6. rewrite Hg in B5, B6. destruct B6 as (B6 & B8).
  assert (Hp : map fst ins ++ (u_builds u + 1) :: omap h_gen hs ≡ₚ (u_builds u + 1) :: map fst ins ++ omap h_gen hs)
    by (symmetry; apply Permutation_middle).
  rewrite ?holding_cons in *. split; rewrite ?holding_cons; cbn; unfold generations; cbn; rewrite ?Hp; try done.
  - constructor; [|done]. intros Hin. rewrite Forall_forall in B6. specialize (B6 _ Hin). lia.
  - split; [|lia]. constructor; [lia|]. eapply Forall_impl; [exact B6|]. cbn. lia.
Qed.

(** A build that goes on. *)
Lemma books_stage u h s hs out m ins :
  books u (h :: hs) out m ins -> h_guard (with_stage h s) = h_guard h -> books u (with_stage h s :: hs) out m ins.
Proof. intros Hb Hg. eapply books_held; [exact Hb|done..|]. intros _ E. left. by rewrite Hg. Qed.

Definition spawned_held {B} (e : UEv B) : list Held := map (fun _ => held_guard) (uspawned e).

(** Every event keeps the books. *)
Lemma uexec_books o {B} (e : UEv B) u b u' h h' hs out m ins :
  books u (h :: hs) out m ins -> uexec o e u = Some (b, u') -> umay h e -> uspend h e b = Some h' ->
  books u' (h' :: spawned_held e ++ hs) out m (uinstalls e ++ ins).
Proof.
  intros Hb Hx Hm Hs. destruct e; cbn in *; try (injection Hx as <- <-); try (injection Hs as <-); cbn; try exact Hb;
    try (by eapply books_same; [exact Hb|..]; try done; apply (bk_backoff _ _ _ _ _ Hb)).
  - (* Now *)
    destruct (h_stage h) eqn:E; try exact Hb. apply books_stage; [exact Hb|]. unfold h_guard. by rewrite E.
  - (* StartConnecting *)
    unfold start_connecting in Hx. destruct (u_state u) as [r er| |g t p] eqn:Es.
    + destruct (r <=? uo_now o); injection Hx as <- <-; [|by injection Hs as <-].
      destruct (h_stage h) eqn:Eg; try done. injection Hs as <-. destruct Hb as [B1 B2 B3 B4 B5 B6 B7].
      rewrite ?holding_cons in *. split; rewrite ?holding_cons; cbn; try done.
      intros _. pose proof (holding_nonneg h_guard hs). lia.
    + injection Hx as <- <-. by injection Hs as <-.
    + injection Hx as <- <-. by injection Hs as <-.
  - (* Install *)
    destruct (h_stage h); try done. destruct (bool_decide _) eqn:E; [|done]. apply bool_decide_eq_true in E. injection Hs as <-.
    by apply books_install.
  - (* BuildFailed *)
    destruct (h_stage h) eqn:E; try done. destruct (_ <=? _); [|done]. injection Hs as <-. apply books_stage; [by apply books_state|].
    unfold h_guard. by rewrite E.
  - (* AbandonConnecting *)
    assert (Hg : exists s, h' = with_stage h s) by (destruct (h_stage h); try done; injection Hs as <-; by eexists).
    destruct Hg as (s & ->). unfold abandon_connecting. destruct (is_connecting (u_state u)) eqn:Ec.
    + eapply books_held; [by apply books_state|done..].
    + eapply books_held; [exact Hb|done..|]. by rewrite Ec.
  - (* DropConnection *)
    assert (Hb' : books u (h' :: hs) out m ins).
    { eapply books_held; [exact Hb|..]; destruct b; try (destruct (h_drops h); [done|]); injection Hs as <-; try done; intros _ Hg; by left. }
    unfold drop_connection in Hx. destruct (u_state u) as [r er| |cur t p] eqn:Es; try (injection Hx as <- <-; exact Hb').
    destruct (cur =? generation); injection Hx as <- <-; [by apply books_state|exact Hb'].
  - (* Prove *)
    unfold prove. destruct (u_state u) as [r er| |g t p] eqn:Es; try exact Hb. apply books_state; [done|done|].
    intros g' t' p' [= <- <- _]. by eapply (bk_current _ _ _ _ _ Hb).
  - (* NextBuild *)
    destruct (h_gen h) eqn:E; [done|]. injection Hs as <-. by apply books_next.
  - (* AddQuery *)
    destruct (h_asked h) eqn:E; [done|]. injection Hs as <-. destruct Hb as [B1 B2 B3 B4 B5 B6 B7].
    rewrite ?holding_cons, ?E in *. split; rewrite ?holding_cons; cbn; try done. lia.
  - (* AddFailure *)
    destruct (h_failed h) eqn:E; [done|]. injection Hs as <-. destruct Hb as [B1 B2 B3 B4 B5 B6 B7].
    rewrite ?holding_cons, ?E in *. split; rewrite ?holding_cons; cbn; try done. lia.
  - (* NotifyDone *)
    destruct (h_stage h) eqn:E; try done. injection Hs as <-. apply books_stage; [by eapply books_same; [exact Hb|..]; try done; apply (bk_backoff _ _ _ _ _ Hb)|].
    unfold h_guard. by rewrite E.
  - (* Changed *)
    destruct (seen <? _); [|destruct (deadline <=? _)]; by simplify_eq.
  - (* Build *)
    destruct (uo_build o); try (by injection Hs as <-). destruct (h_stage h) eqn:E; try done. injection Hs as <-. apply books_stage; [exact Hb|].
    unfold h_guard. by rewrite E.
  - (* SpawnRepair *)
    destruct (h_stage h) eqn:E; try done. injection Hs as <-. destruct Hb as [B1 B2 B3 B4 B5 B6 B7].
    pose proof (holding_nonneg h_guard hs). rewrite ?holding_cons in *. split; rewrite ?holding_cons; cbn; try done; lia.
Qed.

(** What an event answers fits what the task counts on. *)
Lemma uexec_answer limit seen o {B} (e : UEv B) u b u' :
  uexec o e u = Some (b, u') -> backoff_range (u_backoff_ms u) -> seen <= u_repair_done u -> u_repair_done u <= limit ->
  uanswer limit seen e b /\ ulearn seen e b <= u_repair_done u' /\ u_repair_done u <= u_repair_done u' /\ seen <= ulearn seen e b.
Proof.
  intros Hx Hb Hs Hl.
  destruct e; cbn in *; try (injection Hx as <- <-); cbn in *; try (split; [done|lia]); try lia.
  - unfold start_connecting in Hx. destruct (u_state u) as [r ?| |]; [destruct (r <=? _)|..]; injection Hx as <- <-; cbn in *; lia.
  - unfold abandon_connecting in *. destruct (is_connecting _); cbn in *; lia.
  - unfold drop_connection in Hx. destruct (u_state u) as [r ?| |]; [..|destruct (_ =? _)]; injection Hx as <- <-; cbn in *; lia.
  - unfold prove in *. destruct (u_state u); cbn in *; lia.
  - split; [by eexists|lia].
  - destruct (Z.ltb_spec seen0 (u_repair_done u)); [|destruct (deadline <=? _); [|done]]; injection Hx as <- <-; (split; [|lia]).
    + intros _. lia.
    + done.
Qed.

(** ** How long a task can run *)
Definition repair_cost : nat := 9.
Definition uweight (B : Type) (e : UEv B) : nat := match uspawned e with [] => 0%nat | _ => S repair_cost end.
Definition send_cost (limit : nat) : nat := (30 * S limit + 40)%nat.

Lemma ubounded_event {B C} n (e : UEv B) (f : B -> Proc UEv C) :
  (S (uweight B e) <= n)%nat -> (forall b, bounded uweight (n - S (uweight B e)) (f b)) -> bounded uweight n (event e ≫= f).
Proof. intros Hle Hf. exact (conj Hle Hf). Qed.
Lemma ubounded_last {B} n (e : UEv B) : (S (uweight B e) <= n)%nat -> bounded uweight n (event e).
Proof. intros Hle. exact (conj Hle (fun _ => I)). Qed.
Lemma ubounded_then {A C} n m (p : Proc UEv A) (f : A -> Proc UEv C) :
  (n <= m)%nat -> bounded uweight n p -> (forall a, bounded uweight (m - n) (f a)) -> bounded uweight m (p ≫= f).
Proof. intros Hle Hp Hf. replace m with (n + (m - n))%nat by lia. by apply bounded_bind. Qed.
Ltac ubound := first [apply ubounded_event; [cbn; lia|] | apply ubounded_last; cbn; lia].

Lemma repair_bounded : bounded uweight repair_cost repair.
Proof.
  unfold repair, repair_cost, concluded. ubound. intros [[t|e]| |].
  - do 7 (ubound; intros ?). by ubound.
  - do 5 (ubound; intros ?). by ubound.
  - do 5 (ubound; intros ?). by ubound.
  - ubound. intros ?. by ubound.
Qed.

Lemma trigger_bounded n : (12 <= n)%nat -> bounded uweight n trigger_repair.
Proof. intros Hn. unfold trigger_repair. ubound. intros []; [|done]. apply ubounded_last. unfold uweight, repair_cost. cbn. lia. Qed.

Lemma acquire_bounded fuel f deadline n : (15 * fuel <= n)%nat -> bounded uweight n (acquire fuel f deadline).
Proof.
  revert n. induction fuel as [|fuel IH]; intros n Hn; [done|]. cbn [acquire]. ubound. intros seen. ubound. intros [g t|r e|]; [done| |].
  - ubound. done.
  - apply (ubounded_then 12); [cbn; lia|by apply trigger_bounded|]. intros _. ubound. intros []; [|done]. apply IH. cbn. lia.
Qed.

Lemma invalidate_bounded g why n : (13 <= n)%nat -> bounded uweight n (invalidate g why).
Proof. intros Hn. unfold invalidate. ubound. intros []; [apply trigger_bounded; cbn; lia|done]. Qed.

Lemma failure_bounded {A} err n (g : list Z -> A) : (2 <= n)%nat -> bounded uweight n (err ← record_failure err; Ret (g err)).
Proof. intros Hn. cbn. repeat split; lia. Qed.

Lemma judge_bounded f m n : (5 <= n)%nat -> bounded uweight n (judge f m).
Proof. intros Hn. unfold judge. destruct (unusable _); cbn; repeat split; lia. Qed.

Lemma send_again_bounded fuel f msg deadline err n :
  (15 * fuel + 16 <= n)%nat -> bounded uweight n (send_again fuel f msg deadline err).
Proof.
  intros Hn. unfold send_again. apply (ubounded_then (15 * fuel)); [lia|by apply acquire_bounded|].
  intros [[g t]|e]; [|apply failure_bounded; lia]. apply (ubounded_then 1); [lia|by ubound|].
  intros [[m|[e|e]]|].
  - apply (ubounded_then 5); [lia|by apply judge_bounded|done].
  - apply (ubounded_then 13); [lia|by apply invalidate_bounded|]. intros _. apply failure_bounded. lia.
  - apply failure_bounded. lia.
  - apply (ubounded_then 13); [lia|by apply invalidate_bounded|]. intros _. apply failure_bounded. lia.
Qed.

Lemma send_bounded limit f msg deadline : bounded uweight (send_cost limit) (send (S limit) f msg deadline).
Proof.
  unfold send_cost, send. ubound. intros _. apply (ubounded_then (15 * S limit)); [cbn; lia|by apply acquire_bounded|].
  intros [[g t]|e]; [|apply failure_bounded; cbn; lia]. apply (ubounded_then 1); [cbn; lia|by ubound|].
  intros [[m|[e|e]]|].
  - apply judge_bounded. cbn. lia.
  - apply (ubounded_then 13); [cbn; lia|by apply invalidate_bounded|]. intros _. apply send_again_bounded. cbn. lia.
  - apply failure_bounded. cbn. lia.
  - apply (ubounded_then 13); [cbn; lia|by apply invalidate_bounded|]. intros _. apply failure_bounded. cbn. lia.
Qed.
End System.
