(* ===== verification/UpstreamPace.v ===== *)
(** * UpstreamPace: how many builds an upstream can run in a span of time

    The backoff paces the builds: a build that fails leaves its upstream
    down for at least [MIN_RECONNECT_BACKOFF]. Time is cut into epochs of
    that length. In one epoch a build can only begin because a query
    condemned a connection, because a build was dropped, because a build
    that read the clock in an earlier epoch published its failure late, or
    because the guard of an overtaken build reset [Connecting]; [price]
    counts what these can still cause. So the builds begun so far plus the
    price of what may follow never exceed [repairs_within] of the epochs
    passed. *)
From S2P Require Import Prelude Text Time Num IpAddr Dns Shadow Proc Upstream UpstreamSpec UpstreamBooks.

(** ** The bound *)

(** What [b] causes can bring about while [z] builds run. *)
Definition brings (b z : Z) : Z := b * (z + b + 2).

Lemma brings_cause b z : 0 <= b -> 2 + z + brings b (z + 1) <= brings (b + 1) z.
Proof. unfold brings. nia. Qed.
Lemma brings_mono b b' z z' : 0 <= b <= b' -> 0 <= z <= z' -> brings b z <= brings b' z'.
Proof. unfold brings. intros Hb Hz. apply Z.mul_le_mono_nonneg; lia. Qed.
Lemma brings_nonneg b z : 0 <= b -> 0 <= z -> 0 <= brings b z.
Proof. unfold brings. nia. Qed.

(** [causes]: two per query, one per dropped build. *)
Fixpoint repairs_within (causes : Z) (epochs : nat) : Z :=
  match epochs with
  | O => 1 + brings causes 1
  | S n => let r := repairs_within causes n in r + (1 + r + brings (causes + r) (r + 1))
  end.
Definition causes_of (queries dropped : nat) : Z := 2 * Z.of_nat queries + Z.of_nat dropped.

Lemma repairs_within_pos c n : 0 <= c -> 0 < repairs_within c n.
Proof.
  intros Hc. induction n as [|n IH]; cbn [repairs_within].
  - pose proof (brings_nonneg c 1). lia.
  - pose proof (brings_nonneg (c + repairs_within c n) (repairs_within c n + 1)). lia.
Qed.

Lemma repairs_within_mono c n m : 0 <= c -> (n <= m)%nat -> repairs_within c n <= repairs_within c m.
Proof.
  intros Hc. induction 1 as [|m Hle IH]; [lia|]. cbn [repairs_within]. pose proof (repairs_within_pos c m Hc).
  pose proof (brings_nonneg (c + repairs_within c m) (repairs_within c m + 1)). lia.
Qed.

(** ** Epochs *)
Definition epoch (start now : Instant) : nat := Z.to_nat ((now - start) / MIN_RECONNECT_BACKOFF).
Definition epoch_end (start now : Instant) : Instant := start + (Z.of_nat (epoch start now) + 1) * MIN_RECONNECT_BACKOFF.

Lemma epoch_covers start now : start <= now -> epoch_end start now - MIN_RECONNECT_BACKOFF <= now < epoch_end start now.
Proof.
  intros Hs. unfold epoch_end, epoch. assert (Hp : 0 < MIN_RECONNECT_BACKOFF) by done.
  rewrite Z2Nat.id by (apply Z.div_pos; lia).
  pose proof (Z.div_mod (now - start) MIN_RECONNECT_BACKOFF). pose proof (Z.mod_pos_bound (now - start) MIN_RECONNECT_BACKOFF Hp). lia.
Qed.

Lemma epoch_mono start now now' : now <= now' -> (epoch start now <= epoch start now')%nat.
Proof.
  intros Hle. unfold epoch.
  pose proof (Z.div_le_mono (now - start) (now' - start) MIN_RECONNECT_BACKOFF eq_refl). lia.
Qed.

(** Fuel for every repair that can conclude in a span of time. *)
Definition fuel_for (queries dropped : nat) (span : Duration) : nat :=
  Z.to_nat (repairs_within (causes_of queries dropped) (epoch 0 span)).

(** ** What the tasks can cause *)
Definition tally (f : Held -> Z) (hs : list Held) : Z := foldr (fun h n => f h + n) 0 hs.

Definition h_owed (h : Held) : Z := match h_stage h with Idle => 0 | _ => 1 end.
Definition h_live (h : Held) : Z := if h_guard h then 1 else 0.
Definition h_ripe (h : Held) : Z := match h_stage h with Published => 1 | _ => 0 end.
(** Lasting causes, and failures that come late. *)
Definition h_cause (h : Held) : Z := Z.of_nat (h_drops h) + match h_stage h with Lost => 1 | _ => 0 end.
Definition h_late (ending : Instant) (h : Held) : Z :=
  match h_stage h with Clocked t => if t + MIN_RECONNECT_BACKOFF <? ending then 1 else 0 | _ => 0 end.

Lemma tally_cons f h hs : tally f (h :: hs) = f h + tally f hs.
Proof. done. Qed.
Lemma tally_nonneg f hs : (forall h, 0 <= f h) -> 0 <= tally f hs.
Proof. intros Hf. induction hs as [|h hs IH]; [done|]. rewrite tally_cons. specialize (Hf h). lia. Qed.
Lemma tally_le f g hs : (forall h, f h <= g h) -> tally f hs <= tally g hs.
Proof. intros Hf. induction hs as [|h hs IH]; [done|]. rewrite !tally_cons. specialize (Hf h). lia. Qed.
Lemma tally_perm f hs hs' : hs ≡ₚ hs' -> tally f hs = tally f hs'.
Proof. induction 1; rewrite ?tally_cons; lia. Qed.

Lemma holdings_range ending h :
  0 <= h_ripe h <= h_live h /\ h_live h <= h_owed h /\ 0 <= h_late ending h <= h_live h /\ 0 <= h_cause h /\ h_live h <= 1 /\ 0 <= h_owed h <= 1.
Proof.
  unfold h_ripe, h_live, h_owed, h_late, h_cause, h_guard. destruct (h_stage h); try destruct (_ <? _); lia.
Qed.

Lemma tallies_range ending hs :
  0 <= tally h_ripe hs <= tally h_live hs /\ tally h_live hs <= tally h_owed hs /\ 0 <= tally (h_late ending) hs <= tally h_live hs
  /\ 0 <= tally h_cause hs.
Proof.
  pose proof (holdings_range ending) as Hr.
  split_and!; try (apply tally_le; intros h; specialize (Hr h); lia); apply tally_nonneg; intros h; specialize (Hr h); lia.
Qed.

Section Pace.
Context `{HickoryOps} `{UpstreamOps} `{RcodeDisplay}.

(** The builds that may still begin in the epoch that ends at [ending]:
    [b] causes, [x] of the [z] running builds published. *)
Definition price (s : ConnState) (ending : Instant) (b x z : Z) : Z :=
  match s with
  | Connecting => x + brings b z
  | Down retry_at _ => if retry_at <? ending then 1 + x + brings b (z + 1) else brings b z
  | Connected _ _ _ => brings b z
  end.

Lemma price_top s ending b x z : 0 <= b -> 0 <= x <= z -> price s ending b x z <= 1 + x + brings b (z + 1).
Proof.
  intros Hb Hx. pose proof (brings_mono b b z (z + 1)). unfold price. destruct s; [destruct (_ <? _)|..]; lia.
Qed.
Lemma price_nonneg s ending b x z : 0 <= b -> 0 <= x <= z -> 0 <= price s ending b x z.
Proof.
  intros Hb Hx. pose proof (brings_nonneg b z). pose proof (brings_nonneg b (z + 1)). unfold price. destruct s; [destruct (_ <? _)|..]; lia.
Qed.
Lemma price_mono s s' ending b' b x' x z' z :
  s' = s -> 0 <= b' <= b -> 0 <= x' <= x -> 0 <= z' <= z -> price s' ending b' x' z' <= price s ending b x z.
Proof.
  intros -> Hb Hx Hz. pose proof (brings_mono b' b z' z). pose proof (brings_mono b' b (z' + 1) (z + 1)).
  unfold price. destruct s; [destruct (_ <? _)|..]; lia.
Qed.
(** Whatever the states, one cause pays for the change. *)
Lemma price_cause s s' ending b' b x' x z' z :
  0 <= b' -> b' + 1 <= b -> 0 <= x -> 0 <= x' <= z' -> z' <= z -> price s' ending b' x' z' <= price s ending b x z.
Proof.
  intros Hb Hb' Hx Hx' Hz. pose proof (brings_cause b' z' Hb). pose proof (price_top s' ending b' x' z' Hb Hx').
  pose proof (brings_mono (b' + 1) b z' z). pose proof (brings_mono b b z (z + 1)).
  assert (Hs : brings b z <= price s ending b x z) by (unfold price; destruct s; [destruct (_ <? _)|..]; lia). lia.
Qed.
(** A connection, or a wait that outlasts the epoch. *)
Lemma price_quiet s s' ending b' b x' x z' z :
  match s' with Connected _ _ _ => True | Down r _ => ending <= r | Connecting => False end ->
  0 <= b' <= b -> 0 <= x -> 0 <= z' <= z -> price s' ending b' x' z' <= price s ending b x z.
Proof.
  intros Hs Hb Hx Hz. pose proof (brings_mono b' b z' z). pose proof (brings_mono b' b z' (z + 1)). unfold price.
  destruct s'; [zguard|done|]; (destruct s; [destruct (_ <? _)|..]; lia).
Qed.
(** A published build's guard resets [Connecting]. *)
Lemma price_reset s s' ending b' b x' x z' z :
  s = Connecting -> is_connecting s' = false -> 0 <= b' <= b -> 0 <= x' -> x' + 1 <= x -> 0 <= z' -> z' + 1 <= z ->
  price s' ending b' x' z' <= price s ending b x z.
Proof.
  intros -> Hs Hb Hx Hx' Hz Hz'. pose proof (brings_mono b' b z' z). pose proof (brings_mono b' b (z' + 1) z). unfold price.
  destruct s'; [destruct (_ <? _)|done|]; lia.
Qed.
(** A build begins. *)
Lemma price_begin s s' ending b' b x' x z' z :
  s' = Connecting -> match s with Down r _ => r < ending | _ => False end ->
  0 <= b' <= b -> x' <= x -> 0 <= z' <= z + 1 -> 1 + price s' ending b' x' z' <= price s ending b x z.
Proof.
  intros -> Hs Hb Hx Hz. pose proof (brings_mono b' b z' (z + 1)). unfold price. destruct s; [zguard; lia|done|done].
Qed.

Definition spare (queries dropped started lost : nat) : Z :=
  2 * (Z.of_nat queries - Z.of_nat started) + (Z.of_nat dropped - Z.of_nat lost).

(** [queries] and [dropped] bound what is still to come. *)
Record paced (queries dropped : nat) (start : Instant) (u : Upstream) (now : Instant) (started lost : nat) (hs : list Held) : Prop := {
  pc_start : start <= now;
  pc_room : (started <= queries)%nat /\ (lost <= dropped)%nat;
  pc_causes : tally h_cause hs + spare queries dropped started lost <= causes_of queries dropped;
  pc_bound :
    u_repair_done u + tally h_owed hs
    + price (u_state u) (epoch_end start now)
        (tally h_cause hs + tally (h_late (epoch_end start now)) hs + spare queries dropped started lost)
        (tally h_ripe hs) (tally h_live hs)
    <= repairs_within (causes_of queries dropped) (epoch start now)
}.

Lemma spare_nonneg queries dropped started lost : (started <= queries)%nat -> (lost <= dropped)%nat -> 0 <= spare queries dropped started lost.
Proof. unfold spare. lia. Qed.

Lemma paced_perm q dr st u now n l hs hs' : hs ≡ₚ hs' -> paced q dr st u now n l hs -> paced q dr st u now n l hs'.
Proof.
  intros Hp [P1 P2 P3 P4]. split; try done; rewrite <- ?(tally_perm h_cause _ _ Hp), <- ?(tally_perm h_owed _ _ Hp),
    <- ?(tally_perm h_ripe _ _ Hp), <- ?(tally_perm h_live _ _ Hp); [done|].
  by rewrite <- (tally_perm (h_late (epoch_end st now)) _ _ Hp).
Qed.

Lemma paced_done q dr st u now n l hs : paced q dr st u now n l hs -> u_repair_done u <= repairs_within (causes_of q dr) (epoch st now).
Proof.
  intros [P1 (P2 & P2') P3 P4]. destruct (tallies_range (epoch_end st now) hs) as (R1 & R2 & R3 & R4).
  pose proof (spare_nonneg q dr n l P2 P2') as Hsp.
  pose proof (price_nonneg (u_state u) (epoch_end st now)
    (tally h_cause hs + tally (h_late (epoch_end st now)) hs + spare q dr n l) (tally h_ripe hs) (tally h_live hs)). lia.
Qed.

(** Time passes. *)
Lemma paced_tick q dr st u now now' n l hs :
  0 <= u_repair_done u -> now <= now' -> paced q dr st u now n l hs -> paced q dr st u now' n l hs.
Proof.
  intros Hd Hle [P1 (P2 & P2') P3 P4]. pose proof (epoch_mono st now now' Hle) as Hm.
  destruct (tallies_range (epoch_end st now) hs) as (R1 & R2 & R3 & R4).
  destruct (tallies_range (epoch_end st now') hs) as (_ & _ & R3' & _).
  pose proof (spare_nonneg q dr n l P2 P2') as Hsp.
  split; [lia|done|done|]. destruct (decide (epoch st now' = epoch st now)) as [He|He].
  { assert (Ee : epoch_end st now' = epoch_end st now) by (unfold epoch_end; by rewrite He). by rewrite He, Ee. }
  pose proof (repairs_within_mono (causes_of q dr) (S (epoch st now)) (epoch st now') ltac:(unfold causes_of; lia) ltac:(lia)) as Hw.
  cbn [repairs_within] in Hw. revert P4 Hw. set (r := repairs_within _ (epoch st now)). intros P4 Hw.
  pose proof (price_nonneg (u_state u) (epoch_end st now)
    (tally h_cause hs + tally (h_late (epoch_end st now)) hs + spare q dr n l) (tally h_ripe hs) (tally h_live hs)) as Hn.
  set (b' := tally h_cause hs + tally (h_late (epoch_end st now')) hs + spare q dr n l) in *.
  pose proof (price_top (u_state u) (epoch_end st now') b' (tally h_ripe hs) (tally h_live hs)) as Ht.
  pose proof (brings_mono b' (causes_of q dr + r) (tally h_live hs + 1) (r + 1)) as Hb. lia.
Qed.

(** One step of a task that does not move the clock: it is enough that the
    causes do not grow and the price covers what has begun. *)
Lemma paced_step q dr st u u' now n l l' hs hs' :
  paced q dr st u now n l hs -> (l' <= dr)%nat ->
  tally h_cause hs' + spare q dr n l' <= tally h_cause hs + spare q dr n l ->
  (let ending := epoch_end st now in
   u_repair_done u' + tally h_owed hs'
   + price (u_state u') ending (tally h_cause hs' + tally (h_late ending) hs' + spare q dr n l') (tally h_ripe hs') (tally h_live hs')
   <= u_repair_done u + tally h_owed hs
      + price (u_state u) ending (tally h_cause hs + tally (h_late ending) hs + spare q dr n l) (tally h_ripe hs) (tally h_live hs)) ->
  paced q dr st u' now n l' hs'.
Proof. intros [P1 (P2 & P2') P3 P4] Hl Hc Hp. split; [done|done|lia|]. cbn zeta in Hp. lia. Qed.

(** What an event that only counts leaves alone. *)
Lemma paced_same q dr st u u' now n l h h' hs :
  paced q dr st u now n l (h :: hs) -> u_state u' = u_state u -> u_repair_done u' = u_repair_done u ->
  h_stage h' = h_stage h -> h_drops h' = h_drops h -> paced q dr st u' now n l (h' :: hs).
Proof.
  intros Hp Hs Hd Hst Hdr. pose proof Hp as [_ (_ & Hl) _ _]. eapply paced_step; [exact Hp|done|..]; rewrite !tally_cons;
    cbn zeta; rewrite ?tally_cons, ?Hs, ?Hd; unfold h_cause, h_owed, h_live, h_guard, h_ripe, h_late; rewrite ?Hst, ?Hdr; lia.
Qed.

(** One event of one task: its holdings [h] before and after, those of the
    others kept as unknowns in their ranges, and what becomes of the price. *)
Ltac pace_open Hp st now hs :=
  eapply paced_step; [exact Hp|lia|..]; cbn zeta; rewrite !tally_cons;
  destruct (tallies_range (epoch_end st now) hs) as (? & ? & ? & ?);
  generalize dependent (tally h_cause hs); generalize dependent (tally h_owed hs); generalize dependent (tally h_live hs);
  generalize dependent (tally h_ripe hs); generalize dependent (tally (h_late (epoch_end st now)) hs); intros;
  unfold h_cause, h_owed, h_live, h_guard, h_ripe, h_late; cbn [with_stage with_gen with_drops h_stage h_drops].
Ltac pace_by L :=
  match goal with
  | |- _ + price ?s' ?E ?b' ?x' ?z' <= _ + price ?s ?E ?b ?x ?z =>
      let P := fresh "P" in pose proof (L s s' E b' b x' x z' z) as P;
      repeat match type of P with ?A -> _ => specialize (P ltac:(cbn; first [done|congruence|lia])) end; lia
  end.

Lemma uexec_paced q dr st o {B} (e : UEv B) u b u' h h' hs n l :
  paced q dr st u (uo_now o) n l (h :: hs) -> uexec o e u = Some (b, u') -> uspend h e b = Some h' ->
  (udrops e b + l <= dr)%nat ->
  paced q dr st u' (uo_now o) n (udrops e b + l) (h' :: spawned_held e ++ hs).
Proof.
  intros Hp Hx Hs Hl. pose proof Hp as [Hst (Hn & Hl0) _ _]. pose proof (epoch_covers st (uo_now o) Hst) as He.
  pose proof (spare_nonneg q dr n l Hn Hl0) as Hsp.
  destruct e; cbn in *; try (injection Hx as <- <-); try (injection Hs as <-); cbn; try exact Hp; try (by eapply paced_same; [exact Hp|..]).
  - (* Now *)
    destruct (h_stage h) eqn:E; try exact Hp. pace_open Hp st (uo_now o) hs; rewrite E; [lia|].
    zguard. pace_by price_mono.
  - (* StartConnecting *)
    unfold start_connecting in Hx. destruct (u_state u) as [r er| |g t p] eqn:Es; [|injection Hx as <- <-; by injection Hs as <-..].
    destruct (Z.leb_spec r (uo_now o)); injection Hx as <- <-; [|by injection Hs as <-].
    destruct (h_stage h) eqn:E; try done. injection Hs as <-. pace_open Hp st (uo_now o) hs; rewrite E; [lia|].
    rewrite Es. cbn [u_state set_state u_repair_done]. pace_by price_begin.
  - (* Install *)
    destruct (h_stage h) eqn:E; try done. destruct (bool_decide _); [|done]. injection Hs as <-.
    pace_open Hp st (uo_now o) hs; rewrite E; [lia|]. cbn [u_state set_state u_repair_done].
    destruct (_ <? _); pace_by price_quiet.
  - (* BuildFailed *)
    destruct (h_stage h) as [| |t| | |] eqn:E; try done. destruct (Z.leb_spec (t + MIN_RECONNECT_BACKOFF) retry_at); [|done]. injection Hs as <-.
    pace_open Hp st (uo_now o) hs; rewrite E; [lia|]. cbn [u_state set_state u_repair_done].
    destruct (Z.ltb_spec (t + MIN_RECONNECT_BACKOFF) (epoch_end st (uo_now o))); [pace_by price_cause|pace_by price_quiet].
  - (* AbandonConnecting *)
    unfold abandon_connecting. destruct (is_connecting (u_state u)) eqn:Ec.
    + destruct (h_stage h) eqn:E; try done; injection Hs as <-; pace_open Hp st (uo_now o) hs; rewrite E; try lia;
        cbn [u_state set_state u_repair_done]; destruct (u_state u); try done; [pace_by price_reset|pace_by price_cause].
    + destruct (h_stage h) eqn:E; try done; injection Hs as <-; pace_open Hp st (uo_now o) hs; rewrite E; try lia; pace_by price_mono.
  - (* DropConnection *)
    unfold drop_connection in Hx. destruct (u_state u) as [r er| |cur t p] eqn:Es;
      try (injection Hx as <- <-; by injection Hs as <-).
    destruct (cur =? generation); injection Hx as <- <-; [|by injection Hs as <-].
    destruct (h_drops h) as [|k] eqn:E; [done|]. injection Hs as <-. pace_open Hp st (uo_now o) hs; rewrite E; [lia|].
    cbn [u_state set_state u_repair_done]. destruct (h_stage h) as [| |t'| | |]; [..|destruct (_ <? _)| | |]; pace_by price_cause.
  - (* Prove *)
    unfold prove. destruct (u_state u) as [r er| |g t p] eqn:Es; [exact Hp..|].
    eapply paced_step; [exact Hp|lia..|]. cbn zeta. cbn [u_state set_state u_repair_done]. rewrite Es. unfold price. lia.
  - (* NextBuild *)
    destruct (h_gen h) eqn:E; [done|]. injection Hs as <-. by eapply paced_same.
  - (* AddQuery *)
    destruct (h_asked h) eqn:E; [done|]. injection Hs as <-. by eapply paced_same.
  - (* AddFailure *)
    destruct (h_failed h) eqn:E; [done|]. injection Hs as <-. by eapply paced_same.
  - (* NotifyDone *)
    destruct (h_stage h) eqn:E; try done. injection Hs as <-. pace_open Hp st (uo_now o) hs; rewrite E; [lia|].
    cbn [u_state set_done u_repair_done]. pace_by price_mono.
  - (* Changed *)
    destruct (seen <? _); [|destruct (deadline <=? _)]; by simplify_eq.
  - (* Build *)
    destruct (uo_build o); try (by injection Hs as <-). destruct (h_stage h) eqn:E; try done. injection Hs as <-.
    assert (Hsp' : spare q dr n (1 + l) = spare q dr n l - 1) by (unfold spare; lia).
    pace_open Hp st (uo_now o) hs; rewrite E, Hsp'; [lia|]. cbn in Hl. pose proof (spare_nonneg q dr n (1 + l) Hn Hl). pace_by price_mono.
  - (* SpawnRepair *)
    destruct (h_stage h) eqn:E; try done. injection Hs as <-.
    pace_open Hp st (uo_now o) hs; rewrite E; cbn [held_guard h_stage h_drops]; [lia|]. pace_by price_mono.
Qed.

(** A task that owes no build ends; a query begins; a fresh upstream. *)
Lemma paced_gone q dr st u now n l h hs : h_stage h = Idle -> paced q dr st u now n l (h :: hs) -> paced q dr st u now n l hs.
Proof.
  intros E Hp. pose proof Hp as [_ (Hn & Hl) _ _]. pose proof (spare_nonneg q dr n l Hn Hl).
  pace_open Hp st now hs; rewrite E; [lia|]. pace_by price_mono.
Qed.

Lemma paced_enter q dr st u now n l hs : (S n <= q)%nat -> paced q dr st u now n l hs -> paced q dr st u now (S n) l (held_new :: hs).
Proof.
  intros Hq [P1 (P2 & P2') P3 P4]. assert (Hsp : spare q dr n l = 2 + spare q dr (S n) l) by (unfold spare; lia).
  rewrite Hsp in P3, P4. split; [done|done|..]; rewrite !tally_cons; change (h_cause held_new) with 2;
    cbn -[epoch_end price brings repairs_within causes_of spare Z.add].
  - lia.
  - etrans; [|exact P4]. apply Z.add_le_mono; [lia|]. apply Z.eq_le_incl. f_equal; lia.
Qed.

Lemma paced_new q dr st f initial timeout : paced q dr st (upstream_new f initial timeout) st 0 0 [].
Proof.
  assert (Hs : spare q dr 0 0 = causes_of q dr) by (unfold spare, causes_of; lia).
  split; [lia|lia|cbn; lia|]. assert (He : epoch st st = 0%nat) by (unfold epoch; by rewrite Z.sub_diag). rewrite He.
  cbn [tally foldr upstream_new u_repair_done u_state repairs_within]. rewrite Hs, !Z.add_0_l.
  pose proof (price_top initial (epoch_end st st) (causes_of q dr) 0 0 ltac:(unfold causes_of; lia) ltac:(lia)) as Hp.
  change (0 + 1) with 1 in Hp. lia.
Qed.
End Pace.
