(* ===== verification/UpstreamLive.v ===== *)
(** * UpstreamLive: one upstream under concurrent queries

    The books of [UpstreamBooks] balance in every reachable state, and the
    backoff paces the repairs as [UpstreamPace] counts them; so the fuel a
    query is given covers every repair that can conclude in a span of time,
    every send is answered, no state is left [Connecting], the counters are
    exact and a generation names one connection. *)
From S2P Require Import Prelude Text Time Num IpAddr Dns Shadow Proc Upstream UpstreamSpec UpstreamBooks UpstreamPace.

Section System.
Context `{HickoryOps} `{UpstreamOps} `{RcodeDisplay}.

(** At most [queries] queries started, [dropped] builds dropped, by [till]. *)
Definition within (queries dropped : nat) (till : Instant) (c : System) : Prop :=
  (y_started c <= queries)%nat /\ (y_dropped c <= dropped)%nat /\ y_now c <= till.

Lemma uwork_within q dr till c c' : uwork c c' -> within q dr till c' -> within q dr till c /\ y_now c <= y_now c'.
Proof. unfold within. destruct 1; cbn; lia. Qed.

Lemma ustep_within limit q dr till c c' : ustep limit c c' -> within q dr till c' -> within q dr till c.
Proof. intros [Hw|Ho]; [intros Hc; by eapply uwork_within|]. unfold within. destruct Ho; cbn; lia. Qed.

Lemma usteps_within limit q dr till k c c' : usteps (ustep limit) k c c' -> within q dr till c' -> within q dr till c.
Proof. induction 1 as [|k c c1 c' Hs Hr IH]; [done|]. intros Hc. eapply ustep_within; [exact Hs|by apply IH]. Qed.

Lemma usteps_work_within q dr till k c c' : usteps uwork k c c' -> within q dr till c' -> within q dr till c.
Proof. induction 1 as [|k c c1 c' Hs Hr IH]; [done|]. intros Hc. eapply uwork_within; [exact Hs|by apply IH]. Qed.

(** ** The invariant *)
Record USlot := mkUSlot { us_seen : Z; us_held : Held; us_n : nat }.

Definition uthread_ok {A} (limit : nat) (version : Z) (Q : Z -> Held -> A -> Prop) (p : Proc UEv A) (s : USlot) : Prop :=
  uowns (Z.of_nat limit) (us_seen s) (us_held s) p Q /\ bounded uweight (us_n s) p /\ 0 <= us_seen s <= version.

Definition concluded_ok (_ : Z) (h : Held) (_ : unit) : Prop := h = held_none.
Definition uhelds (ss : list USlot) : list Held := map us_held ss.
Definition uwork_left (ss : list USlot) : nat := foldr (fun s n => S (us_n s) + n)%nat 0%nat ss.

Lemma uthread_later {A} limit v v' (Q : Z -> Held -> A -> Prop) p s : v <= v' -> uthread_ok limit v Q p s -> uthread_ok limit v' Q p s.
Proof. intros Hle (Ho & Hb & Hs). split; [done|]. split; [done|lia]. Qed.

Lemma uthreads_later {A} limit v v' (Q : Z -> Held -> A -> Prop) l ss :
  v <= v' -> all2 (uthread_ok limit v Q) l ss -> all2 (uthread_ok limit v' Q) l ss.
Proof. intros Hle. apply all2_impl. intros p s. by apply uthread_later. Qed.

(** The repair an event spawns. *)
Definition uslots_of {B} (e : UEv B) (v : Z) : list USlot := map (fun _ => mkUSlot v held_guard repair_cost) (uspawned e).

Lemma uspawned_ok limit v {B} (e : UEv B) :
  0 <= v ->
  all2 (uthread_ok limit v concluded_ok) (uspawned e) (uslots_of e v)
  /\ uhelds (uslots_of e v) = spawned_held e /\ (uwork_left (uslots_of e v) <= uweight B e)%nat.
Proof.
  intros Hv. assert (Hr : uthread_ok limit v concluded_ok repair (mkUSlot v held_guard repair_cost)).
  { split; [apply repair_owns|]. split; [apply repair_bounded|]. cbn. lia. }
  destruct e; cbn; repeat split; try done; try lia; apply Hr.
Qed.

Lemma uhelds_app a b : uhelds (a ++ b) = uhelds a ++ uhelds b.
Proof. apply map_app. Qed.
Lemma uwork_left_cons s b : uwork_left (s :: b) = (S (us_n s) + uwork_left b)%nat.
Proof. done. Qed.
#[local] Arguments uwork_left : simpl never.
Lemma uwork_left_app a b : uwork_left (a ++ b) = (uwork_left a + uwork_left b)%nat.
Proof. induction a as [|s a IH]; cbn [app]; [done|]. rewrite !uwork_left_cons, IH. lia. Qed.

(** The slot of one task brought to the front. *)
Lemma uhelds_front a s b c : uhelds (a ++ s :: b) ++ c ≡ₚ us_held s :: uhelds (a ++ b) ++ c.
Proof. rewrite !uhelds_app. cbn. rewrite <- !app_assoc. symmetry. apply Permutation_middle. Qed.
Lemma uhelds_front_r a s b c : c ++ uhelds (a ++ s :: b) ≡ₚ us_held s :: c ++ uhelds (a ++ b).
Proof. rewrite (Permutation_app_comm c), uhelds_front. by rewrite (Permutation_app_comm c). Qed.

(** ** Tasks that begin and end *)
Lemma books_finish u h hs out m ins r :
  books u (h :: hs) out m ins -> (exists k, h = match r with inl _ => held_asked k | inr _ => held_failed k end) ->
  books u hs (r :: out) m ins.
Proof.
  intros [B1 B2 B3 B4 B5 B6 B7] (k & ->). rewrite ?holding_cons in *. unfold generations in *.
  split; rewrite ?len_cons; destruct r; cbn in *; rewrite ?len_cons; try done; lia.
Qed.

Lemma books_gone u hs out m ins : books u (held_none :: hs) out m ins -> books u hs out m ins.
Proof. intros [B1 B2 B3 B4 B5 B6 B7]. rewrite ?holding_cons in *. split; done. Qed.

Lemma books_cancel u k hs out m ins : books u (held_asked k :: hs) out m ins -> books u hs out (S m) ins.
Proof. intros [B1 B2 B3 B4 B5 B6 B7]. rewrite ?holding_cons in *. cbn in *. split; try done. lia. Qed.

Lemma books_enter u hs out m ins : books u hs out m ins -> books u (held_new :: hs) out m ins.
Proof. intros [B1 B2 B3 B4 B5 B6 B7]. split; rewrite ?holding_cons; done. Qed.

Section Paced.
Variables (limit queries dropped : nat) (start till : Instant).

Definition upaced (c : System) (hs : list Held) : Prop :=
  paced queries dropped start (y_up c) (y_now c) (y_started c) (y_dropped c) hs.

Record uinv (c : System) (ss rs : list USlot) : Prop := {
  ui_sends : all2 (uthread_ok limit (u_repair_done (y_up c)) ended) (y_sends c) ss;
  ui_repairs : all2 (uthread_ok limit (u_repair_done (y_up c)) concluded_ok) (y_repairs c) rs;
  ui_books : books (y_up c) (uhelds ss ++ uhelds rs) (y_results c) (y_cancelled c) (y_installed c);
  ui_count : y_started c = (length (y_sends c) + length (y_results c) + y_cancelled c)%nat;
  ui_version : 0 <= u_repair_done (y_up c);
  ui_paced : upaced c (uhelds ss ++ uhelds rs)
}.

(** A task can always move, time passing. *)
Lemma uexec_enabled {B} (e : UEv B) u now : exists o b u', now <= uo_now o /\ uexec o e u = Some (b, u').
Proof.
  set (o := mkUOracle (Z.max now (match e with Changed _ d => d | _ => now end)) 0 TimesOut SendTimedOut).
  exists o. destruct e; cbn; try (eexists _, _; split; [lia|reflexivity]).
  - destruct (start_connecting u _) as [b u']. eexists _, _. split; [lia|reflexivity].
  - destruct (drop_connection u _ _ _) as [b u']. eexists _, _. split; [lia|reflexivity].
  - destruct (_ <? _); [eexists _, _; split; [lia|reflexivity]|]. zguard. eexists _, _. split; [lia|reflexivity].
Qed.

Lemma uprogress c ss rs : uinv c ss rs -> (y_sends c = [] /\ y_repairs c = []) \/ exists c', uwork c c'.
Proof.
  intros [Is Ir _ _ _ _]. destruct c as [u now sn rp out n m d ins]. cbn in *. destruct sn as [|p sn].
  - destruct rp as [|p rp]; [by left|right]. destruct rs as [|s rs]; [done|]. destruct Ir as ((Ho & _) & _).
    destruct p as [[]|B e k|]; [eexists; apply (uw_repaired u now [] [])| |done].
    destruct (uexec_enabled e u now) as (o & b & u' & Ht & Hx). eexists. by apply (uw_repair o u u' now [] [] rp B e k b out n m d ins).
  - right. destruct ss as [|s ss]; [done|]. destruct Is as ((Ho & _) & _).
    destruct p as [r|B e k|]; [eexists; apply (uw_sent u now [])| |done].
    destruct (uexec_enabled e u now) as (o & b & u' & Ht & Hx). eexists. by apply (uw_send o u u' now [] sn B e k b rp out n m d ins).
Qed.

(** At rest the books are closed. *)
Lemma urest c ss rs :
  uinv c ss rs -> y_sends c = [] -> y_repairs c = [] ->
  y_started c = (length (y_results c) + y_cancelled c)%nat /\ u_state (y_up c) <> Connecting
  /\ u_queries (y_up c) = Z.of_nat (y_started c) /\ u_failures (y_up c) = len (List.filter is_err (y_results c)).
Proof.
  intros [Is Ir [B1 B2 B3 _ _ _ _] Ic _ _] Hsn Hrp. rewrite Hsn in *. rewrite Hrp in *.
  destruct ss as [|? ?]; [|done]. destruct rs as [|? ?]; [|done]. cbn in *. unfold holding, len in *. cbn in *.
  split; [done|]. split; [intros Hc; rewrite Hc in B1; cbn in B1; specialize (B1 eq_refl); lia|]. split; lia.
Qed.
Hypothesis Hfuel : (fuel_for queries dropped (till - start)%Z <= limit)%nat.

(** The fuel covers what can conclude by [till]. *)
Lemma paced_limit u now n l hs : paced queries dropped start u now n l hs -> now <= till -> u_repair_done u <= Z.of_nat limit.
Proof.
  intros Hp Hle. pose proof (paced_done _ _ _ _ _ _ _ _ Hp) as Hd. pose proof Hfuel as Hf. unfold fuel_for in Hf.
  pose proof (repairs_within_mono (causes_of queries dropped) (epoch start now) (epoch start till) ltac:(unfold causes_of; lia)
    (epoch_mono _ _ _ Hle)) as Hm.
  assert (He : epoch 0 (till - start) = epoch start till) by (unfold epoch; f_equal; f_equal; lia). rewrite He in Hf. lia.
Qed.

(** One event of one task. *)
Lemma uthread_step {A} (Q : Z -> Held -> A -> Prop) o B (e : UEv B) (k : B -> Proc UEv A) u b u' s hs out m ins now n d :
  uthread_ok limit (u_repair_done u) Q (Vis e k) s -> books u (us_held s :: hs) out m ins ->
  paced queries dropped start u now n d (us_held s :: hs) ->
  now <= uo_now o -> uexec o e u = Some (b, u') -> now <= till -> (udrops e b + d <= dropped)%nat ->
  exists s', uthread_ok limit (u_repair_done u') Q (k b) s'
    /\ books u' (us_held s' :: spawned_held e ++ hs) out m (uinstalls e ++ ins)
    /\ paced queries dropped start u' (uo_now o) n (udrops e b + d) (us_held s' :: spawned_held e ++ hs)
    /\ (us_n s' + S (uweight B e) <= us_n s)%nat /\ u_repair_done u <= u_repair_done u'.
Proof.
  intros ((Hm & Hk) & (Hn & Hbd) & Hs) Hb Hp Ht Hx Hl Hd.
  destruct (uexec_answer (Z.of_nat limit) (us_seen s) o e u b u' Hx (bk_backoff _ _ _ _ _ Hb) (proj2 Hs) (paced_limit _ _ _ _ _ Hp Hl))
    as (Ha & Hlearn & Hmono & Hseen).
  specialize (Hk b Ha). destruct (uspend (us_held s) e b) as [h'|] eqn:Es; [|done].
  exists (mkUSlot (ulearn (us_seen s) e b) h' (us_n s - S (uweight B e))). split; [|split; [|split; [|split; [cbn; lia|done]]]].
  - split; [done|]. split; [apply Hbd|]. cbn. lia.
  - by eapply uexec_books.
  - eapply uexec_paced; [|exact Hx|exact Es|exact Hd]. eapply paced_tick; [lia|exact Ht|exact Hp].
Qed.

Lemma uwork_inv c c' ss rs :
  uinv c ss rs -> uwork c c' -> within queries dropped till c' ->
  exists ss' rs', uinv c' ss' rs'
    /\ (uwork_left ss' + uwork_left rs' < uwork_left ss + uwork_left rs)%nat.
Proof.
  intros [Is Ir Ib Ic Iv Ip] Hw Hl.
  destruct Hw as [o u u' now pre post B e k b rp out n m d ins Ht Hx|u now pre post r rp out n m d ins
    |o u u' now sn pre post B e k b out n m d ins Ht Hx|u now sn pre post out n m d ins]; destruct Hl as (Hl & Hl1 & Hl2); unfold upaced in *; cbn in *.
  - apply all2_middle in Is as (s1 & s & s2 & -> & I1 & Hth & I2). eapply books_perm in Ib; [|apply uhelds_front].
    eapply paced_perm in Ip; [|apply uhelds_front].
    destruct (uthread_step _ _ _ _ _ _ _ _ _ _ _ _ _ _ _ _ Hth Ib Ip Ht Hx ltac:(lia) Hl1) as (s' & Hth' & Hb' & Hp' & Hn & Hv).
    destruct (uspawned_ok limit (u_repair_done u') e) as (S1 & S2 & S3); [lia|].
    assert (Hperm : uhelds (s1 ++ s' :: s2) ++ uhelds (uslots_of e (u_repair_done u') ++ rs) ≡ₚ us_held s' :: spawned_held e ++ uhelds (s1 ++ s2) ++ uhelds rs).
    { rewrite uhelds_front, (uhelds_app (uslots_of _ _)), S2. constructor. rewrite !app_assoc. apply Permutation_app_tail, Permutation_app_comm. }
    exists (s1 ++ s' :: s2), (uslots_of e (u_repair_done u') ++ rs). split; [split; cbn|].
    + apply all2_app; [by eapply uthreads_later|]. split; [done|by eapply uthreads_later].
    + apply all2_app; [done|by eapply uthreads_later].
    + by eapply books_perm.
    + rewrite Ic, !length_middle. lia.
    + lia.
    + by eapply paced_perm.
    + rewrite !uwork_left_app, !uwork_left_cons. lia.
  - apply all2_middle in Is as (s1 & s & s2 & -> & I1 & (Hth & _) & I2). eapply books_perm in Ib; [|apply uhelds_front].
    eapply paced_perm in Ip; [|apply uhelds_front].
    exists (s1 ++ s2), rs. split; [split; cbn|].
    + by apply all2_app.
    + done.
    + by eapply books_finish.
    + rewrite Ic, !length_middle. lia.
    + lia.
    + eapply paced_gone; [|exact Ip]. destruct Hth as (k & ->). by destruct r.
    + rewrite !uwork_left_app, !uwork_left_cons. lia.
  - apply all2_middle in Ir as (s1 & s & s2 & -> & I1 & Hth & I2). eapply books_perm in Ib; [|apply uhelds_front_r].
    eapply paced_perm in Ip; [|apply uhelds_front_r].
    destruct (uthread_step _ _ _ _ _ _ _ _ _ _ _ _ _ _ _ _ Hth Ib Ip Ht Hx ltac:(lia) Hl1) as (s' & Hth' & Hb' & Hp' & Hn & Hv).
    destruct (uspawned_ok limit (u_repair_done u') e) as (S1 & S2 & S3); [lia|].
    assert (Hperm : uhelds ss ++ uhelds (uslots_of e (u_repair_done u') ++ s1 ++ s' :: s2) ≡ₚ us_held s' :: spawned_held e ++ uhelds ss ++ uhelds (s1 ++ s2)).
    { rewrite (uhelds_app (uslots_of _ _)), S2, app_assoc, uhelds_front_r. constructor. rewrite !app_assoc.
      apply Permutation_app_tail, Permutation_app_comm. }
    exists ss, (uslots_of e (u_repair_done u') ++ s1 ++ s' :: s2). split; [split; cbn|].
    + by eapply uthreads_later.
    + apply all2_app; [done|]. apply all2_app; [by eapply uthreads_later|]. split; [done|by eapply uthreads_later].
    + by eapply books_perm.
    + done.
    + lia.
    + by eapply paced_perm.
    + rewrite !uwork_left_app, !uwork_left_cons. lia.
  - apply all2_middle in Ir as (s1 & s & s2 & -> & I1 & (Hth & _) & I2). eapply books_perm in Ib; [|apply uhelds_front_r].
    eapply paced_perm in Ip; [|apply uhelds_front_r].
    cbn in Hth. unfold concluded_ok in Hth. rewrite Hth in Ib, Ip. exists ss, (s1 ++ s2). split; [split; cbn|].
    + done.
    + by apply all2_app.
    + by apply books_gone.
    + done.
    + lia.
    + eapply paced_gone; [|exact Ip]; done.
    + rewrite !uwork_left_app, !uwork_left_cons. lia.
Qed.

Lemma uoutside_inv c c' ss rs :
  uinv c ss rs -> uoutside limit c c' -> within queries dropped till c' -> exists ss' rs', uinv c' ss' rs'.
Proof.
  intros [Is Ir Ib Ic Iv Ip] Ho Hl.
  destruct Ho as [u now sn rp out n m d ins msg deadline|u now pre post B e k rp out n m d ins He]; destruct Hl as (Hl & Hl1 & Hl2); unfold upaced in *; cbn in *.
  - exists (mkUSlot (u_repair_done u) held_new (send_cost limit) :: ss), rs. pose proof (paced_limit _ _ _ _ _ Ip Hl2).
    split; cbn; try done.
    + split; [|done]. split; [apply send_owns; cbn; lia|]. split; [apply send_bounded|cbn; lia].
    + by apply books_enter.
    + by rewrite Ic.
    + by apply paced_enter.
  - apply all2_middle in Is as (s1 & s & s2 & -> & I1 & ((Hm & _) & _) & I2). eapply books_perm in Ib; [|apply uhelds_front].
    eapply paced_perm in Ip; [|apply uhelds_front].
    assert (Hh : exists k, us_held s = held_asked k) by (by destruct e). destruct Hh as (k' & Hh). rewrite Hh in Ib, Ip.
    exists (s1 ++ s2), rs. split; cbn; try done.
    + by apply all2_app.
    + by eapply books_cancel.
    + rewrite Ic, !length_middle. lia.
    + eapply paced_gone; [|exact Ip]; done.
Qed.

Lemma usystem_start f initial timeout :
  starts_ok initial -> uinv (system_new f initial timeout start) [] [].
Proof.
  intros Hs. split; cbn; try done; [|by apply paced_new]. destruct consts_millis as (_ & _ & C). destruct initial as [r e| |g t p]; [|done|].
  - split; cbn; rewrite ?C; try done; unfold backoff_range, generations; cbn; try lia; try by constructor.
  - destruct Hs as (-> & ->). split; cbn; rewrite ?C; try done; unfold backoff_range, generations; cbn; try lia.
    + constructor; [by apply not_elem_of_nil|constructor].
    + split; [by repeat constructor|lia].
    + intros g' t' p [= <- <- _]. by left.
Qed.

Lemma ureachable_inv f initial timeout c :
  starts_ok initial -> ureachable limit (system_new f initial timeout start) c -> within queries dropped till c ->
  exists ss rs, uinv c ss rs.
Proof.
  intros Hs (n & Hr). assert (Hi : exists ss rs, uinv (system_new f initial timeout start) ss rs)
    by (eexists _, _; by apply usystem_start).
  revert Hi. induction Hr as [c|n c c1 c' Hstep Hr IH]; [done|]. intros (ss & rs & Hi) Hl.
  apply IH; [|done]. pose proof (usteps_within _ _ _ _ _ _ _ Hr Hl) as Hl1. destruct Hstep as [Hw|Ho].
  - destruct (uwork_inv _ _ _ _ Hi Hw Hl1) as (ss' & rs' & Hi' & _). by exists ss', rs'.
  - by eapply uoutside_inv.
Qed.

Lemma usteps_work_inv k c c' ss rs :
  uinv c ss rs -> usteps uwork k c c' -> within queries dropped till c' ->
  exists ss' rs', uinv c' ss' rs' /\ (k + uwork_left ss' + uwork_left rs' <= uwork_left ss + uwork_left rs)%nat.
Proof.
  intros Hi Hs Hl. revert ss rs Hi. induction Hs as [c|k c c1 c' Hw Hs IH]; intros ss rs Hi; [exists ss, rs; split; [done|lia]|].
  destruct (uwork_inv _ _ _ _ Hi Hw) as (ss1 & rs1 & Hi1 & Hlt); [by eapply usteps_work_within|].
  destruct (IH Hl _ _ Hi1) as (ss' & rs' & Hi' & Hle). exists ss', rs'. split; [done|]. lia.
Qed.

End Paced.
End System.

(** ** Properties *)
Section Properties.
Context `{HickoryOps} `{UpstreamOps} `{RcodeDisplay}.

(** C9: no query is lost in an upstream. Take any span of time, any number
    of queries and of dropped builds, and the fuel the backoff justifies
    for them: a build that fails keeps its upstream down for half a second
    at least, so no more repairs than [repairs_within] can conclude. Then
    from any state reached in that span, whatever the interleaving of
    queries and repairs, whatever the network answers and whichever
    queries are cancelled: the work left is bounded; a schedule can go on
    until every query has returned and every repair has concluded, the
    loops never running out; and then the upstream is not left [Connecting]
    and its counters are exact: one query per query that returned or was
    cancelled, one failure per error returned. *)
Theorem every_send_answered limit queries dropped till f initial timeout start c :
  starts_ok initial -> (fuel_for queries dropped (till - start)%Z <= limit)%nat ->
  ureachable limit (system_new f initial timeout start) c -> within queries dropped till c ->
  u_repair_done (y_up c) <= repairs_within (causes_of queries dropped) (epoch start (y_now c))
  /\ (exists bound, forall k c', usteps uwork k c c' -> within queries dropped till c' -> (k <= bound)%nat)
  /\ forall k c', usteps uwork k c c' -> within queries dropped till c' ->
      (exists c'', uwork c' c'')
      \/ (y_sends c' = [] /\ y_repairs c' = []
          /\ y_started c' = (length (y_results c') + y_cancelled c')%nat
          /\ u_state (y_up c') <> Connecting
          /\ u_queries (y_up c') = Z.of_nat (y_started c')
          /\ u_failures (y_up c') = len (List.filter is_err (y_results c'))).
Proof.
  intros Hs Hf Hr Hl. destruct (ureachable_inv _ _ _ _ _ Hf _ _ _ _ Hs Hr Hl) as (ss & rs & Hi).
  split; [exact (paced_done _ _ _ _ _ _ _ _ (ui_paced _ _ _ _ _ _ _ Hi))|]. split.
  - exists (uwork_left ss + uwork_left rs)%nat. intros k c' Hk Hl'.
    destruct (usteps_work_inv _ _ _ _ _ Hf _ _ _ _ _ Hi Hk Hl') as (ss' & rs' & _ & Hle). lia.
  - intros k c' Hk Hl'. destruct (usteps_work_inv _ _ _ _ _ Hf _ _ _ _ _ Hi Hk Hl') as (ss' & rs' & Hi' & _).
    destruct (uprogress _ _ _ _ _ _ _ Hi') as [(Hsn & Hrp)|Hw]; [right|by left].
    split; [done|]. split; [done|]. exact (urest _ _ _ _ _ _ _ Hi' Hsn Hrp).
Qed.

(** The step from [c] to [c'] is the event [e] of one of its tasks. *)
Definition does (c : System) {B} (e : UEv B) (c' : System) : Prop :=
  exists o b, uexec o e (y_up c) = Some (b, y_up c')
    /\ ((exists pre k post, y_sends c = pre ++ Vis e k :: post /\ y_sends c' = pre ++ k b :: post)
        \/ (exists pre k post, y_repairs c = pre ++ Vis e k :: post /\ y_repairs c' = uspawned e ++ pre ++ k b :: post)).

(** The events that end the connection of generation [g]: its own
    condemnation, or a build that was still running putting its own
    outcome in place. *)
Definition ends_connection (g : Z) {B} (e : UEv B) : Prop :=
  match e with DropConnection g' _ => g' = g | Install g' _ _ => g' <> g | BuildFailed _ _ => True | _ => False end.

Lemma uexec_connected o {B} (e : UEv B) u b u' g t p :
  uexec o e u = Some (b, u') -> u_state u = Connected g t p -> (forall g' t' p', u_state u' = Connected g' t' p' -> g' = g -> uinstalls e = []) ->
  (exists p', u_state u' = Connected g t p' /\ (p' = p \/ p' = None)) \/ ends_connection g e.
Proof.
  intros Hx Hs Hi. destruct e; cbn in Hx; try (injection Hx as <- <-); try (left; exists p; rewrite ?Hs; cbn; by auto).
  - unfold start_connecting in Hx. rewrite Hs in Hx. injection Hx as <- <-. left. exists p. auto.
  - right. cbn. intros ->. by specialize (Hi _ _ _ eq_refl eq_refl).
  - by right.
  - unfold abandon_connecting. rewrite Hs. cbn. left. exists p. auto.
  - unfold drop_connection in Hx. rewrite Hs in Hx. destruct (Z.eqb_spec g generation) as [->|]; injection Hx as <- <-.
    + by right.
    + left. exists p. auto.
  - unfold prove. rewrite Hs. left. exists None. auto.
  - destruct (_ <? _); [|destruct (_ <=? _); [|done]]; injection Hx as <- <-; left; exists p; auto.
Qed.

(** A generation being installed is not one installed before. *)
Lemma install_fresh {A} limit (Q : Z -> Held -> A -> Prop) o B (e : UEv B) (k : B -> Proc UEv A) u b u' s hs out m ins g t p :
  uthread_ok limit (u_repair_done u) Q (Vis e k) s -> books u (us_held s :: hs) out m ins -> uexec o e u = Some (b, u') ->
  u_repair_done u <= Z.of_nat limit -> u_state u = Connected g t p ->
  (exists p', u_state u' = Connected g t p' /\ (p' = p \/ p' = None)) \/ ends_connection g e.
Proof.
  intros ((Hm & Hk) & _ & Hs) Hb Hx Hl Hst. eapply uexec_connected; [done|done|]. intros g' t' p' Hst' ->.
  destruct (uexec_answer (Z.of_nat limit) (us_seen s) o e u b u' Hx (bk_backoff _ _ _ _ _ Hb) (proj2 Hs) Hl) as (Ha & _).
  specialize (Hk b Ha). destruct (uspend (us_held s) e b) as [h'|] eqn:Es; [|done].
  destruct e; try done. cbn in Es, Hx. destruct (h_stage _); try done. destruct (bool_decide _) eqn:E; [|done]. apply bool_decide_eq_true in E.
  injection Hx as <- <-. cbn in Hst'. injection Hst' as -> _ _.
  pose proof (bk_gens _ _ _ _ _ Hb) as Hg. pose proof (bk_current _ _ _ _ _ Hb g t p Hst) as Hin.
  unfold generations in Hg. cbn in Hg. rewrite E in Hg. apply NoDup_app in Hg as (_ & Hd & _).
  exfalso. apply (Hd g); [|by left]. apply list_elem_of_fmap. by exists (g, t).
Qed.

(** C19: a stale failure is harmless. In every state an upstream reaches
    (the fuel as the backoff justifies it), each generation ever installed
    names one connection, the one in use among them, and the wait before
    the next build is between 0.5 s and 30 s. A step that takes the
    connection in use away is one of two: a task condemns that very
    generation, or a build that was still running puts its own outcome
    (another connection, or its failure) in place. So a query that failed
    on a connection already replaced takes nothing away. *)
Theorem stale_failure_harmless limit queries dropped till f initial timeout start c :
  starts_ok initial -> (fuel_for queries dropped (till - start)%Z <= limit)%nat ->
  ureachable limit (system_new f initial timeout start) c -> within queries dropped till c ->
  NoDup (map fst (y_installed c))
  /\ 500 <= u_backoff_ms (y_up c) <= 30000
  /\ forall g t p, u_state (y_up c) = Connected g t p -> (g, t) ∈ y_installed c
      /\ forall c', uwork c c' ->
           (exists p', u_state (y_up c') = Connected g t p' /\ (p' = p \/ p' = None))
           \/ exists B (e : UEv B), does c e c' /\ ends_connection g e.
Proof.
  intros Hs Hf Hr Hl. destruct (ureachable_inv _ _ _ _ _ Hf _ _ _ _ Hs Hr Hl) as (ss & rs & [Is Ir Ib Ic Iv Ip]).
  pose proof (paced_limit _ _ _ _ _ Hf _ _ _ _ _ Ip (proj2 (proj2 Hl))) as Hd.
  split; [pose proof (bk_gens _ _ _ _ _ Ib) as Hg; by apply NoDup_app in Hg as (? & _)|].
  split; [exact (bk_backoff _ _ _ _ _ Ib)|]. intros g t p Hst. split; [by eapply (bk_current _ _ _ _ _ Ib)|].
  intros c' Hw. destruct Hw as [o u u' now' pre post B e k b rp out n m d ins Ht Hx|u now' pre post r rp out n m d ins
    |o u u' now' sn pre post B e k b out n m d ins Ht Hx|u now' sn pre post out n m d ins]; cbn in *; [|left; exists p; auto| |left; exists p; auto].
  - apply all2_middle in Is as (s1 & s & s2 & -> & _ & Hth & _). eapply books_perm in Ib; [|apply uhelds_front].
    destruct (install_fresh _ _ _ _ _ _ _ _ _ _ _ _ _ _ _ _ _ Hth Ib Hx Hd Hst) as [?|He]; [by left|right].
    exists B, e. split; [|done]. exists o, b. split; [done|]. left. by exists pre, k, post.
  - apply all2_middle in Ir as (s1 & s & s2 & -> & _ & Hth & _). eapply books_perm in Ib; [|apply uhelds_front_r].
    destruct (install_fresh _ _ _ _ _ _ _ _ _ _ _ _ _ _ _ _ _ Hth Ib Hx Hd Hst) as [?|He]; [by left|right].
    exists B, e. split; [|done]. exists o, b. split; [done|]. right. by exists pre, k, post.
Qed.
End Properties.
