(* ===== verification/UpstreamRun.v ===== *)
(** * UpstreamRun: running the upstream model

    A scheduler that follows a script of moves, sound for the system of
    [UpstreamBooks], a concrete network, the witnesses of the upstream
    theorems, and a schedule in which two builds of one upstream overlap. *)
From S2P Require Import Prelude Text Time Num IpAddr Dns Shadow Proc Upstream UpstreamSpec UpstreamBooks UpstreamPace UpstreamLive.

Section Run.
Context `{HickoryOps} `{UpstreamOps} `{RcodeDisplay}.

Fixpoint pick {A : Type} (i : nat) (l : list A) : option (list A * A * list A) :=
  match l, i with
  | [], _ => None
  | x :: l, O => Some ([], x, l)
  | x :: l, S i => match pick i l with Some (pre, y, post) => Some (x :: pre, y, post) | None => None end
  end.

Lemma pick_Some {A : Type} i (l : list A) pre x post : pick i l = Some (pre, x, post) -> l = pre ++ x :: post.
Proof.
  revert i pre. induction l as [|y l IH]; intros [|i] pre; cbn [pick]; try done; [by intros [= <- <- <-]|].
  destruct (pick i l) as [[[pre' z] post']|] eqn:E; [|done]. intros [= <- <- <-]. cbn. f_equal. by apply (IH i).
Qed.

(** A query starts; one event of a query or of a repair; one of them ends. *)
Inductive Move :=
| MStart (msg : Message) (deadline : Instant)
| MSend (i : nat) (o : UOracle)
| MSent (i : nat)
| MRepair (i : nat) (o : UOracle)
| MRepaired (i : nat).

Definition move (limit : nat) (c : System) (m : Move) : option System :=
  match m with
  | MStart msg deadline =>
      Some (mkSystem (y_up c) (y_now c) (send (S limit) (u_factory (y_up c)) msg deadline :: y_sends c) (y_repairs c)
              (y_results c) (S (y_started c)) (y_cancelled c) (y_dropped c) (y_installed c))
  | MSend i o =>
      match pick i (y_sends c) with
      | Some (pre, Vis e k, post) =>
          match uexec o e (y_up c) with
          | Some (b, u') =>
              if y_now c <=? uo_now o
              then Some (mkSystem u' (uo_now o) (pre ++ k b :: post) (uspawned e ++ y_repairs c) (y_results c)
                           (y_started c) (y_cancelled c) (udrops e b + y_dropped c) (uinstalls e ++ y_installed c))
              else None
          | None => None
          end
      | _ => None
      end
  | MSent i =>
      match pick i (y_sends c) with
      | Some (pre, Ret r, post) =>
          Some (mkSystem (y_up c) (y_now c) (pre ++ post) (y_repairs c) (r :: y_results c) (y_started c) (y_cancelled c) (y_dropped c) (y_installed c))
      | _ => None
      end
  | MRepair i o =>
      match pick i (y_repairs c) with
      | Some (pre, Vis e k, post) =>
          match uexec o e (y_up c) with
          | Some (b, u') =>
              if y_now c <=? uo_now o
              then Some (mkSystem u' (uo_now o) (y_sends c) (uspawned e ++ pre ++ k b :: post) (y_results c)
                           (y_started c) (y_cancelled c) (udrops e b + y_dropped c) (uinstalls e ++ y_installed c))
              else None
          | None => None
          end
      | _ => None
      end
  | MRepaired i =>
      match pick i (y_repairs c) with
      | Some (pre, Ret tt, post) =>
          Some (mkSystem (y_up c) (y_now c) (y_sends c) (pre ++ post) (y_results c) (y_started c) (y_cancelled c) (y_dropped c) (y_installed c))
      | _ => None
      end
  end.

Fixpoint play (limit : nat) (ms : list Move) (c : System) : option System :=
  match ms with
  | [] => Some c
  | m :: ms => match move limit c m with Some c' => play limit ms c' | None => None end
  end.

Lemma move_step limit c m c' : move limit c m = Some c' -> ustep limit c c'.
Proof.
  destruct c as [u now sn rs out n m' d' ins]. destruct m as [msg d|i o|i|i o|i]; cbn.
  - intros [= <-]. right. constructor.
  - destruct (pick i sn) as [[[pre p] post]|] eqn:E; [|done]. apply pick_Some in E as ->. destruct p as [|B e k|]; try done.
    destruct (uexec o e u) as [[b u']|] eqn:Ex; [|done]. destruct (Z.leb_spec now (uo_now o)); [|done]. intros [= <-]. left. by constructor.
  - destruct (pick i sn) as [[[pre p] post]|] eqn:E; [|done]. apply pick_Some in E as ->. destruct p as [r|B e k|]; try done.
    intros [= <-]. left. constructor.
  - destruct (pick i rs) as [[[pre p] post]|] eqn:E; [|done]. apply pick_Some in E as ->. destruct p as [|B e k|]; try done.
    destruct (uexec o e u) as [[b u']|] eqn:Ex; [|done]. destruct (Z.leb_spec now (uo_now o)); [|done]. intros [= <-]. left. by constructor.
  - destruct (pick i rs) as [[[pre p] post]|] eqn:E; [|done]. apply pick_Some in E as ->. destruct p as [[]|B e k|]; try done.
    intros [= <-]. left. constructor.
Qed.

Lemma play_steps limit ms c c' : play limit ms c = Some c' -> usteps (ustep limit) (length ms) c c'.
Proof.
  revert c. induction ms as [|m ms IH]; intros c; cbn [play length]; [intros [= <-]; constructor|].
  destruct (move limit c m) as [c1|] eqn:E; [|done]. intros Hp. econstructor; [by eapply move_step|by apply IH].
Qed.

(** A repair that is awaiting its build. *)
Definition building (p : Proc UEv unit) : bool := match p with Vis Build _ => true | _ => false end.
End Run.

(** ** A concrete network *)
#[local] Existing Instance text_names.
#[local] Existing Instance text_ops.
#[local] Instance rcode_numbers : RcodeDisplay := {| rcode_display := to_string |}.

(** [scheme://host/path], no port. *)
Definition toy_url (raw : list Z) : (list Z * list Z * list Z) + list Z :=
  match find c_colon raw with
  | Some i =>
      let rest := drop (i + 3) raw in
      match find c_slash rest with
      | Some j => inl (take i raw, take j rest, drop j rest)
      | None => inl (take i raw, rest, [])
      end
  | None => inr (lit "relative URL without a base")
  end.

#[local] Instance toy_net : UpstreamOps := {|
  Url := list Z * list Z * list Z;
  url_parse := toy_url;
  url_scheme := fun u => fst (fst u);
  url_host_str := fun u => Some (snd (fst u));
  url_port := fun _ => None;
  url_path := fun u => snd u;
  Certificate := unit;
  ClientConfig := unit;
  root_config := fun _ => inl tt;
  Transport := Z;
  duration_debug := to_string
|}.

Definition toy_factory : NetworkFactory := mkFactory (Https (lit "9.9.9.9") 443 (lit "/dns-query")) [] (lit "https://9.9.9.9/dns-query") tt.
Definition dial_ok (t : Z) : Net := mkNet (fun _ _ => Addresses []) (fun _ _ _ _ => inl t).
Definition toy_query : Message := add_query (message_new 7 MQuery OpQuery) (mkQuery (lit "example.com.") 1 CLASS_IN).
Definition toy_reply : Message := message_new 0 MResponse OpQuery.
Definition dead : NetError := mkNetError EOther (lit "resource too busy").

(** What the outside answers when the network sends [a] and builds give [t]. *)
Definition at_time (now : Instant) (a : SendAnswer) : UOracle := mkUOracle now 1000 (Ends (dial_ok now)) a.
Definition hangs (now : Instant) : UOracle := at_time now (Replied (inr dead)).
Definition replies (now : Instant) : UOracle := at_time now (Replied (inl toy_reply)).

Definition toy_initial : ConnState := Connected 1 100 None.
Definition toy_system : System := system_new toy_factory toy_initial (from_secs 3) 0.

(** ** Overlapping builds

    A connection dies; the repair that replaces it is slow between
    installing the new connection and its final section; meanwhile the new
    connection answers once, then dies, and its own repair starts. The
    first repair's final section then finds [Connecting], takes it for its
    own and marks the upstream down, so the next query starts a third
    build while the second is still running. *)
Definition sends (n : nat) (i : nat) (o : UOracle) : list Move := replicate n (MSend i o).
Definition repairs (n : nat) (i : nat) (o : UOracle) : list Move := replicate n (MRepair i o).

Definition overlap_script : list Move :=
  [MStart toy_query 5000000000] ++ sends 7 0 (hangs 10)        (* A: the connection is dead; repair 1 *)
  ++ repairs 5 0 (replies 20)                                   (* repair 1 installs generation 2 *)
  ++ [MStart toy_query 5000000000] ++ sends 9 0 (replies 30) ++ [MSent 0]   (* B: answered, proven *)
  ++ [MStart toy_query 5000000000] ++ sends 7 0 (hangs 40)     (* C: it died again; repair 2 *)
  ++ repairs 3 1 (replies 50)                                   (* repair 1 concludes *)
  ++ [MStart toy_query 5000000000] ++ sends 5 0 (replies 60).  (* D: repair 3 *)

Definition overlapping : option System := play 89 overlap_script toy_system.

(** Two builds of one upstream run at once in a reachable state. *)
Lemma builds_can_overlap :
  exists c, ureachable 89 toy_system c
    /\ length (List.filter building (y_repairs c)) = 2%nat /\ is_connecting (u_state (y_up c)) = true.
Proof.
  assert (Hn : match overlapping with
    | Some c => (length (List.filter building (y_repairs c)) =? 2)%nat && is_connecting (u_state (y_up c)) | None => false end = true)
    by (vm_compute; reflexivity).
  unfold overlapping in Hn. destruct (play 89 overlap_script toy_system) as [c|] eqn:E; [|discriminate Hn].
  apply andb_true_iff in Hn as [N1 N2]. apply Nat.eqb_eq in N1. exists c. split; [|exact (conj N1 N2)].
  eexists. eapply play_steps. exact E.
Qed.

(** ** Witnesses *)
Definition settled_script : list Move :=
  [MStart toy_query 5000000000] ++ sends 7 0 (hangs 10) ++ repairs 9 0 (replies 20) ++ [MRepaired 0]
  ++ sends 8 0 (replies 30) ++ [MSent 0].

(** A query that lost its connection and was answered on the next. *)
Definition settled : option System := play 89 settled_script toy_system.

Example settled_answers :
  match settled with Some c => y_results c = [inl toy_reply] /\ u_reconnects (y_up c) = 1 | None => False end.
Proof. vm_compute. by split. Qed.

(** Four queries in the first half second: fuel for 89 repairs. *)
Lemma every_send_answered_witness :
  exists c, ureachable 89 toy_system c /\ y_started c = 4%nat /\ u_repair_done (y_up c) <= 89
    /\ exists bound, forall k c', usteps uwork k c c' -> within 4 0 400000000 c' -> (k <= bound)%nat.
Proof.
  assert (Hn : match overlapping with
    | Some c => (y_started c =? 4)%nat && (y_dropped c =? 0)%nat && (y_now c <=? 400000000) | None => false end = true) by (vm_compute; reflexivity).
  unfold overlapping in Hn. destruct (play 89 overlap_script toy_system) as [c|] eqn:E; [|discriminate Hn].
  apply andb_true_iff in Hn as [Hn N3]. apply andb_true_iff in Hn as [N1 N2].
  apply Nat.eqb_eq in N1. apply Nat.eqb_eq in N2. apply Z.leb_le in N3.
  assert (Hr : ureachable 89 toy_system c) by (eexists; eapply play_steps; exact E).
  assert (Hw : within 4 0 400000000 c) by (split; [rewrite N1; reflexivity|split; [rewrite N2; reflexivity|exact N3]]).
  destruct (every_send_answered 89 4 0 400000000 toy_factory toy_initial (from_secs 3) 0 c (conj eq_refl eq_refl) (le_n 89) Hr Hw)
    as (Hd & Hb & _).
  exists c. split; [exact Hr|]. split; [exact N1|]. split; [|exact Hb].
  etransitivity; [exact Hd|]. etransitivity; [apply (repairs_within_mono _ _ (epoch 0 400000000)); [zcompute|]|zcompute].
  apply (epoch_mono 0 (y_now c) 400000000). exact N3.
Defined.

Lemma stale_failure_harmless_witness :
  exists c, ureachable 89 toy_system c /\ length (y_installed c) = 2%nat /\ NoDup (map fst (y_installed c)).
Proof.
  assert (Hn : match settled with
    | Some c => (length (y_installed c) =? 2)%nat && (y_started c =? 1)%nat && (y_dropped c =? 0)%nat && (y_now c <=? 400000000)
    | None => false end = true) by (vm_compute; reflexivity).
  unfold settled in Hn. destruct (play 89 settled_script toy_system) as [c|] eqn:E; [|discriminate Hn].
  apply andb_true_iff in Hn as [Hn N4]. apply andb_true_iff in Hn as [Hn N3]. apply andb_true_iff in Hn as [N1 N2].
  apply Nat.eqb_eq in N1. apply Nat.eqb_eq in N2. apply Nat.eqb_eq in N3. apply Z.leb_le in N4.
  assert (Hr : ureachable 89 toy_system c) by (eexists; eapply play_steps; exact E).
  assert (Hw : within 4 0 400000000 c) by (split; [rewrite N2; repeat constructor|split; [rewrite N3; reflexivity|exact N4]]).
  exists c. split; [exact Hr|]. split; [exact N1|].
  exact (proj1 (stale_failure_harmless 89 4 0 400000000 toy_factory toy_initial (from_secs 3) 0 c (conj eq_refl eq_refl) (le_n 89) Hr Hw)).
Defined.

(** A send whose first connection is dead and whose second answers. *)
Definition conn_1 : Transport := 100.
Definition conn_2 : Transport := 200.
Definition reconnected_notes : list Note :=
  [NQuery; NUse 1 conn_1; NSend conn_1 toy_query 10 (Replied (inr dead)); NDrop 1;
   NUse 2 conn_2; NSend conn_2 toy_query 10 (Replied (inl toy_reply)); NReset; NSuccess; NBackoff 500; NProve].

Lemma send_outcome_witness :
  exists tr, sent_as toy_query 10 (project note tr) (inl toy_reply)
    /\ project note tr = reconnected_notes.
Proof.
  assert (Hr : exists tr, runs (send 1 toy_factory toy_query 10) tr (inl toy_reply)
    /\ project note tr = reconnected_notes).
  { eexists. split.
    - exists tt. eexists. split; [reflexivity|]. exists 0. eexists. split; [reflexivity|].
      exists (Usable 1 conn_1). eexists. split; [reflexivity|]. exists (Replied (inr dead)). eexists. split; [reflexivity|].
      exists true. eexists. split; [reflexivity|]. exists true. eexists. split; [reflexivity|]. exists tt. eexists. split; [reflexivity|].
      exists 0. eexists. split; [reflexivity|]. exists (Usable 2 conn_2). eexists. split; [reflexivity|].
      exists (Replied (inl toy_reply)). eexists. split; [reflexivity|].
      exists tt. eexists. split; [reflexivity|]. exists 1000. eexists. split; [reflexivity|].
      exists tt. eexists. split; [reflexivity|]. exists tt. eexists. split; [reflexivity|]. exists tt. eexists. split; [reflexivity|].
      split; reflexivity.
    - reflexivity. }
  destruct Hr as (tr & Hr & Hp). exists tr. split; [|exact Hp]. exact (send_outcome 1 toy_factory toy_query 10 tr (inl toy_reply) Hr).
Defined.

Lemma resolve_first_answer_witness :
  fst (resolve (mkPool [] 0 0 0 0) toy_query [inr (lit "down"); inl toy_reply]) = inl (set_meta toy_reply (with_id 7)).
Proof.
  pose proof (resolve_first_answer (mkPool [] 0 0 0 0) toy_query [inl toy_reply; inr (lit "down")] [inr (lit "down"); inl toy_reply]
    (perm_swap _ _ _)) as (Hd & _).
  destruct (fst (resolve (mkPool [] 0 0 0 0) toy_query [inr (lit "down"); inl toy_reply])) as [m|e] eqn:E; [|vm_compute in E; discriminate E].
  destruct Hd as (failed & m' & later & Ha & -> & _). destruct failed as [|x [|? ?]]; try discriminate Ha.
  injection Ha as _ <- _. reflexivity.
Defined.

Definition timeouts (t : Z) : UOracle := mkUOracle t 0 TimesOut SendTimedOut.

Lemma reconnect_schedule_witness :
  u_backoff_ms (fold_left (fun u o => reconnect o u) [timeouts 0; timeouts 600000000; timeouts 2000000000]
                  (upstream_new toy_factory (Down 0 []) 0)) = 4000.
Proof.
  refine (proj1 (reconnect_schedule toy_factory [] 0 0 [timeouts 0; timeouts 600000000; timeouts 2000000000] (timeouts 0) 1 _)).
  repeat (split; [eexists _, _; split; [reflexivity|zcompute]|split; [eexists; reflexivity|]]). exact I.
Defined.

Definition toy_config : UpstreamConfig :=
  mkUpstreamConfig [lit "https://9.9.9.9/dns-query"; lit "quic://dns.example"] [V4 [1; 1; 1; 1]] 3000 [] DEFAULT_CONNECT_BUDGET.

(** In the first round nothing answers before its deadline; in the second
    one upstream connects at once. *)
Definition toy_rounds (n : nat) : Round :=
  mkRound 1000 (fun i => if (0 <? n)%nat && (i =? 0)%nat then Some (20000000, dial_ok 5) else None) 1000.

Lemma startup_decides_witness :
  match pool_new 61 toy_rounds toy_config 0 with
  | Some (inl pool, at_) => length (pl_upstreams pool) = 2%nat /\ at_ <= 30000002000
  | _ => False
  end.
Proof.
  assert (Ht : timely 1000 toy_rounds) by (intros n; cbn [toy_rounds rd_late rd_lag]; lia).
  assert (Hb : 0 <= connect_budget toy_config <= Z.of_nat 60 * INIT_RETRY_BACKOFF_START) by (split; zcompute).
  pose proof (startup_decides toy_config toy_rounds 0 60 1000 Ht Hb) as Hs. cbn zeta in Hs.
  assert (Hr : match pool_new 61 toy_rounds toy_config 0 with Some (inl _, _) => true | _ => false end = true) by (vm_compute; reflexivity).
  destruct (pool_new 61 toy_rounds toy_config 0) as [[[pool|e] at_]|]; [|discriminate Hr|discriminate Hr].
  destruct Hs as (tls & fs & m & Hf & _ & _ & _ & _ & Hat & Hlen & _). rewrite Hlen. split; [|exact (proj2 Hat)].
  destruct tls. vm_compute in Hf. injection Hf as <-. reflexivity.
Defined.
