(* ===== verification/DaemonRun.v ===== *)
(** * DaemonRun: a daemon that starts

    A concrete machine (a stored blocklist, no database yet), the oracles
    of a whole start-up and of a failing and a succeeding reload, and what
    they come to; the witnesses that need them. *)
From S2P Require Import Prelude Text Time Num IpAddr FilterTypes Parse Engine KeyIndexSpec EngineSpec VerdictSpec Dns Cache CacheSpec FailCache SafeSearch Proc Shadow Db DbSpec StatsSpec Schema Pipeline Result Config ConfigSpec Upstream UpstreamRun Lists ListsSpec Daemon DaemonSpec Cli CliSpec Commands CommandsSpec.

(** [p] run against the oracles [o 0], [o 1], ... *)
Section Run.
Context `{HickoryOps} `{HashIter} `{ConfigOps} `{ListsOps} `{UnstableSort} `{UpstreamOps} `{RcodeDisplay} `{!DaemonOps}.
Fixpoint perform (o : nat -> DOracle) (n : nat) {A} (p : Proc DEv A) (d : Daemon) : option (A * Daemon * nat) :=
  match p with
  | Ret a => Some (a, d, n)
  | Panic => None
  | Vis e k => match dexec (o n) e d with Some (b, d) => perform o (S n) (k b) d | None => None end
  end.
End Run.

(** ** A machine *)
#[local] Existing Instance text_names.
#[local] Existing Instance text_ops.
#[local] Existing Instance map_order.
#[local] Existing Instance merge_sort_keys.
#[local] Existing Instance host_nets.
#[local] Existing Instance rcode_numbers.
#[local] Existing Instance toy_net.

Definition home_list : ListSource := mkListSource (lit "mine") (Some (lit "https://example.com/list.txt")) None.
Definition home_with (lists : list ListSource) : Config := mkConfig
  (mkServerConfig [mkSocketAddr (V4 [0; 0; 0; 0]) 53] [V4 [127; 0; 0; 1]])
  (mkFilteringConfig None lists (lit "/lists"))
  (mkUpstreamsConfig [lit "https://9.9.9.9/dns-query"] [V4 [1; 1; 1; 1]] 3000)
  (mkDatabaseConfig (lit "/db"))
  (mkSafeSearchConfig true [lit "google"])
  (mkTlsConfig [])
  (mkCacheConfig 16 3600).
Definition home_config : Config := home_with [home_list].
Definition other_config : Config := home_with [mkListSource (lit "never-fetched") (Some (lit "https://example.com/other.txt")) None].

#[local] Instance home_ops : ConfigOps := {|
  toml_from_str := fun text => if bool_decide (text = lit "other") then inl other_config else inl home_config;
  toml_to_string := fun c => Some (concat (map ls_name (lists (filtering c))));
  sha256 := fun b => take 8 b;
  Cert := unit;
  pem_file := fun _ => inr []
|}.
#[local] Instance home_lists : ListsOps := {| name_error := fun _ => []; status_display := to_string |}.
#[local] Instance home_json : DaemonOps := {|
  report_json := fun r => inl (rr_lists_hash r);
  report_of_json := fun text => inl (mkReport 0 [] text [] (Some (mkOutcome (len text) Signal true None 5)) [] 0);
  health_json := fun _ => inl (lit "{}");
  certificate := fun _ => tt
|}.

(** Its disk: the directory and a stored copy. *)
Definition home_disk : Disk :=
  mkDisk {[ lit "/lists/mine.txt" := mkFile (lit "||ads.com^") 0 ]} {[ lit "/lists" ]}.
Definition no_network : LOracle := mkLOracle 0 None 0 (inr (lit "connection refused")).
Definition home_oracle (_ : nat) : DOracle :=
  mkDOracle 1000 (from_secs 5) 42 no_network (inl (lit "home")) None false 61 toy_rounds (writer_new 64).

Definition booted : option (((Refresher * Z) + CoreError) * Daemon * nat) :=
  perform home_oracle 0 (startup (lit "/etc/sumidero.toml") false (writer_new 64)) (daemon_initial home_disk None).

(** It starts without the network, serves, and blocks what its list says. *)
Example home_boots :
  match booted with
  | Some (inl (r, _), d, _) =>
      dm_serving d = true /\ current r = home_config
      /\ (p ← dm_pipeline d; verdict (pol_engine (p_policy p)) (lit "x.ads.com.")) = Some (VBlock 0 (mkMatched Block (lit "||ads.com^") 1))
      /\ map lr_origin (rr_lists (dm_report d)) = [StoredOffline]
  | _ => False
  end.
Proof. vm_compute. repeat split. Qed.

(** A reload of a config whose list was never fetched fails: the policy and
    the lists of the report stay, the failure is reported, and the next
    attempt is in an hour. *)
Definition sighup_oracle (n : nat) : DOracle :=
  mkDOracle 2000 (from_secs 10) 42 no_network (inl (lit "other")) None false 61 toy_rounds (writer_new 64).
Definition reloaded : option (option Refresher * Daemon * nat) :=
  match booted with
  | Some (inl (r, n), d, _) =>
      '(_, d, _) ← perform sighup_oracle 0 (signal_turn (lit "/etc/sumidero.toml") 1000 n Hangup) d;
      perform sighup_oracle 0 (refresher_turn r) d
  | _ => None
  end.
Example failed_reload_reported :
  match reloaded with
  | Some (Some r, d, _) =>
      current r = home_config /\ map lr_name (rr_lists (dm_report d)) = [lit "mine"]
      /\ (ro_ok <$> last_reload (dm_report d)) = Some false /\ next_refresh_ts (dm_report d) = 5600
      /\ map dg_reason (degraded_reasons (dm_report d) 0 0 2000) = [lit "reload_failed"]
  | _ => False
  end.
Proof. vm_compute. repeat split. Qed.

Lemma valid_config_accepted_witness :
  (exists x, with_limits 16 DEFAULT_MAX_BYTES 3600 = Some x)
  /\ forall tls, factories_of [lit "https://9.9.9.9/dns-query"] (factories (pool_config home_config []) tls).
Proof.
  assert (Hv : validate home_config = inl tt) by (vm_compute; reflexivity).
  destruct (valid_config_accepted home_config Hv) as (Hc & _ & Hp); [zcompute|].
  split; [exact Hc|]. exact (proj2 (proj2 (Hp []))).
Defined.

(** A server without a path: valid, and refused by the pool. *)
Definition pathless_config : Config := mkConfig
  (server home_config) (filtering home_config)
  (mkUpstreamsConfig [lit "https://dns.google"] [V4 [1; 1; 1; 1]] 3000)
  (database home_config) (safe_search home_config) (tls home_config) (cache home_config).

Example https_without_path :
  validate pathless_config = inl tt
  /\ factories (pool_config pathless_config []) tt
     = inr (UnsupportedUrl (lit "https://dns.google: https URL must include a path (e.g. /dns-query)")).
Proof. vm_compute. split; reflexivity. Qed.

(** ** What the commands say about it *)
#[local] Instance home_values : CliOps := {|
  value_from_str := fun _ => inl (Object [(lit "consecutive_all_failed", Number 0)]);
  value_display := fun _ => [];
  lists_value := fun _ => Array [];
  outcome_value := fun _ => Null;
  escape_char := fun c => c;
  row_error := fun _ => []
|}.

Definition home_tables : Tables := match db_open None with inl t => t | inr _ => with_tables None end.
Definition home_heartbeat : Heartbeat := mkHeartbeat 42 1000 2000 (lit "config") (lit "lists").

Lemma status_reports_daemon_witness :
  snd (status_of (heartbeat (published home_tables home_heartbeat 2000 7 0 (lit "{}") (lit "r")))
         (daemon_stats (published home_tables home_heartbeat 2000 7 0 (lit "{}") (lit "r"))) 2100) = 0.
Proof.
  refine (eq_trans (proj2 (status_reports_daemon home_tables home_heartbeat 2000 7 0 (lit "{}") (lit "r")
    (Object [(lit "consecutive_all_failed", Number 0)]) (mkReport 0 [] (lit "r") [] (Some (mkOutcome 1 Signal true None 5)) [] 0) 2100 _ _ _ _)) _).
  - split; zcompute.
  - split; zcompute.
  - reflexivity.
  - reflexivity.
  - vm_compute. reflexivity.
Defined.

(** The outcome shows up at the third poll. *)
Definition home_polls (i : nat) : Instant * option Tables :=
  (Z.of_nat i * POLL, if (i <? 2)%nat then None else Some (published home_tables home_heartbeat 2000 7 0 (lit "{}") (lit "r"))).


Example reload_sees_outcome : reload_wait 9 0 (from_secs 2) home_polls None = Some (Some (mkOutcome 1 Signal true None 5)).
Proof. vm_compute. reflexivity. Qed.

(** The log read back. *)
#[local] Existing Instance insertion_order.
#[local] Existing Instance show_v4.
Definition home_log : list QueryRecord := [wit_record 5 Allowed; wit_record 9 Blocked].
Definition home_machine : Machine := mkMachine (inl (lit "home")) (Some (file_of (logged home_tables home_log))) (fun _ _ => mkSOracle None []) (fun _ => None) 10.

Lemma cli_shows_log_witness :
  exists ps, ps ≡ₚ place home_log
    /\ forall json, fst (log_run home_machine [] json 1)
         = emit json (lit "log") (Object [(lit "entries", Array (map log_entry (map (fun p => clamp_list (snd p)) (take 1 ps))))])
             (join c_nl (map log_line (map (fun p => clamp_list (snd p)) (take 1 ps)))).
Proof.
  assert (Hok : Forall record_ok home_log) by (constructor; [apply wit_record_ok|]; constructor; [apply wit_record_ok|constructor]).
  destruct (cli_shows_log home_machine [] home_config home_tables home_log 1 24) as [(ps & Hp & _ & Hr) _].
  - vm_compute. reflexivity.
  - vm_compute. reflexivity.
  - reflexivity.
  - vm_compute. reflexivity.
  - exact Hok.
  - zcompute.
  - exists ps. split; [exact Hp|exact Hr].
Defined.

(** [reload --wait-secs 18446744073709551615] against a running daemon: it
    is signalled, then the command panics. *)
Definition live_machine : Machine :=
  mkMachine (inl (lit "home")) (Some (file_of (write_heartbeat home_tables home_heartbeat))) (fun _ _ => mkSOracle None [])
    (fun _ => None) 2050.

Example reload_too_long_panics :
  fst <$> reload_run 1 live_machine [] false u64_max None 0 home_polls = Some None
  /\ option_map o_code (mjoin (fst <$> reload_run 9 live_machine [] false 2 None 0 home_polls)) = Some 0.
Proof. vm_compute. split; reflexivity. Qed.
