(* ===== verification/Scheduler.v ===== *)
(** * Scheduler: the server's tasks running together

    A configuration is the shared state, the queries being handled and the
    spawned tasks; a step lets one of them perform one event, so that every
    interleaving of the source's critical sections and awaits is a run.
    [work] is a step of the server itself; [outside] is a query arriving, a
    client going away, a policy being installed, the writer draining. *)
From S2P Require Import Prelude Text Time IpAddr FilterTypes Engine Dns Cache FailCache SafeSearch Shadow Db Proc Pipeline Server.

Section Scheduler.
Context `{HickoryOps} `{HashIter} `{IpNetOps} `{RcodeDisplay}.

(** A query being handled: the request and what is left of its handler. *)
Record Client := mkClient { cl_request : Message; cl_code : Proc Ev Message }.

Record Config := mkConfig {
  g_pipe : Pipeline;
  g_clients : list Client;
  g_tasks : list (Task * Proc Ev unit);     (* a task and what is left of it *)
  g_replies : list (Message * Message);     (* request and reply *)
  g_arrived : nat;
  g_cancelled : nat
}.

Definition config_new (p : Pipeline) : Config := mkConfig p [] [] [] 0 0.

Definition start_task (t : Task) : Task * Proc Ev unit := (t, task_body t).

Inductive work : Config -> Config -> Prop :=
| w_client o p p' pre post r B (e : Ev B) k b ts rs n m :
    exec o e p = Some (b, p') ->
    work (mkConfig p (pre ++ mkClient r (Vis e k) :: post) ts rs n m)
         (mkConfig p' (pre ++ mkClient r (k b) :: post) (map start_task (spawned e) ++ ts) rs n m)
| w_reply p pre post r resp ts rs n m :
    work (mkConfig p (pre ++ mkClient r (Ret resp) :: post) ts rs n m)
         (mkConfig p (pre ++ post) ts ((r, resp) :: rs) n m)
| w_task o p p' pre post t B (e : Ev B) k b cs rs n m :
    exec o e p = Some (b, p') ->
    work (mkConfig p cs (pre ++ (t, Vis e k) :: post) rs n m)
         (mkConfig p' cs (map start_task (spawned e) ++ pre ++ (t, k b) :: post) rs n m)
| w_task_done p pre post t cs rs n m :
    work (mkConfig p cs (pre ++ (t, Ret tt) :: post) rs n m) (mkConfig p cs (pre ++ post) rs n m).

(** A policy whose engine answers every name (what the builder makes, see
    VerdictSpec). *)
Definition policy_ok (pol : Policy) : Prop := forall name, exists v, verdict (pol_engine pol) name = Some v.

Inductive outside : Config -> Config -> Prop :=
| o_arrive p cs ts rs n m request client now :
    outside (mkConfig p cs ts rs n m)
            (mkConfig p (mkClient request (handle_at request client now) :: cs) ts rs (S n) m)
| o_cancel p pre post r rx k ts rs n m :
    (* a future is dropped only while it awaits; its in-flight guard drops with it *)
    outside (mkConfig p (pre ++ mkClient r (Vis (Recv rx) k) :: post) ts rs n m)
            (mkConfig (set_in_flight p (p_in_flight p - 1)) (pre ++ post) ts rs n (S m))
| o_install p pol cs ts rs n m :
    policy_ok pol ->
    outside (mkConfig p cs ts rs n m) (mkConfig (install p pol) cs ts rs n m)
| o_writer p w cs ts rs n m :
    outside (mkConfig p cs ts rs n m) (mkConfig (set_writer p w) cs ts rs n m).

(** Waiting for a channel, or for a network peer. *)
Definition waiting {A} (p : Proc Ev A) : bool :=
  match p with Vis (Recv _) _ => true | _ => false end.
Definition on_network {B} (e : Ev B) : bool :=
  match e with Resolve _ | ReferenceExchange _ => true | _ => false end.
Definition networking {A} (p : Proc Ev A) : bool :=
  match p with Vis e _ => on_network e | _ => false end.

Definition step (c c' : Config) : Prop := work c c' \/ outside c c'.

Inductive steps (R : Config -> Config -> Prop) : nat -> Config -> Config -> Prop :=
| steps_nil c : steps R 0 c c
| steps_cons n c c' c'' : R c c' -> steps R n c' c'' -> steps R (S n) c c''.

Lemma steps_trans (R : Config -> Config -> Prop) n m c c' c'' :
  steps R n c c' -> steps R m c' c'' -> steps R (n + m) c c''.
Proof. induction 1 as [|n c c1 c2 Hr Hs IH]; intros Hm; [done|]. cbn. econstructor; [exact Hr|by apply IH]. Qed.

(** Reachable from a new pipeline. *)
Definition reachable (p : Pipeline) (c : Config) : Prop := exists n, steps step n (config_new p) c.

(** ** Ownership

    What a task owes the shared state: its in-flight guard (of a query that
    is shed, or admitted), the leadership of a lookup, a channel's sender before and
    after it published, a key of the refresh set, a shadow permit. *)
Inductive Token :=
| TShed | TAdmit
| TLead (k : list Z * Z * Z) (c : Chan) | TTx (c : Chan) | TSent (c : Chan)
| TRef (k : list Z * Z * Z)
| TPermit.

#[export] Instance Token_eq_dec : EqDecision Token.
Proof. solve_decision. Defined.

Definition task_tokens (t : Task) : list Token :=
  match t with
  | TLeader _ _ key _ tx => [TLead (key_id key) tx]
  | TRefresh _ key => [TRef (key_id key)]
  | TCompare _ _ _ _ _ => [TPermit]
  end.

(** Tokens are given up in the order they were taken: the last one is at
    the head. [spend ts e b]: the tokens left after [e] answered [b];
    [None] when [e] needs a token that is not there. *)
Definition spend (ts : list Token) {B} (e : Ev B) : B -> option (list Token) :=
  match e in Ev B return B -> option (list Token) with
  | FetchAdd => fun b => match ts with
                         | [] => Some (if MAX_IN_FLIGHT_QUERIES <=? b then [TShed] else [TAdmit])
                         | _ => None end
  | FetchSub => fun _ => match ts with [TShed] | [TAdmit] => Some [] | _ => None end
  | JoinLookup key => fun b => match snd b with Some tx => Some (TLead (key_id key) tx :: ts) | None => Some ts end
  | RemoveLookup key => fun _ =>
      match ts with
      | TLead k c :: ts => if bool_decide (k = key_id key) then Some (TTx c :: ts) else None
      | _ => None
      end
  | Send tx _ => fun _ => match ts with TTx c :: ts => if bool_decide (c = tx) then Some (TSent c :: ts) else None | _ => None end
  | DropSender tx => fun _ =>
      match ts with
      | TTx c :: ts | TSent c :: ts => if bool_decide (c = tx) then Some ts else None
      | _ => None
      end
  | RefreshInsert key => fun b => Some (if (b : bool) then TRef (key_id key) :: ts else ts)
  | RefreshRemove key => fun _ =>
      match ts with TRef k :: ts => if bool_decide (k = key_id key) then Some ts else None | _ => None end
  | TryAcquire => fun b => Some (if (b : bool) then TPermit :: ts else ts)
  | Release => fun _ => match ts with TPermit :: ts => Some ts | _ => None end
  | SpawnTask t => fun _ =>
      match ts with
      | x :: ts => if bool_decide (task_tokens t = [x]) then Some ts else None
      | [] => None
      end
  | _ => fun _ => Some ts
  end.

(** The answers the shared state gives: a new receiver has missed nothing
    and hears the channel whose sender comes with it; a policy is total. *)
Definition answer_ok {B} (e : Ev B) : B -> Prop :=
  match e in Ev B return B -> Prop with
  | JoinLookup _ => fun b => rx_from (fst b) = 0%nat /\ (forall tx, snd b = Some tx -> tx = rx_chan (fst b))
  | LoadPolicy => fun b => policy_ok b
  | _ => fun _ => True
  end.

Definition learn {B} (e : Ev B) : B -> list Chan :=
  match e in Ev B return B -> list Chan with JoinLookup _ => fun b => [rx_chan (fst b)] | _ => fun _ => [] end.

(** An await is allowed on a channel heard of, to an admitted query that
    owes nothing else; a query that is not admitted yet may only be
    counted; whoever owes nothing has nothing left to do. *)
Definition may_act (rs : list Chan) (ts : list Token) {B} (e : Ev B) : Prop :=
  match e with
  | Recv rx => rx_chan rx ∈ rs /\ rx_from rx = 0%nat /\ ts = [TAdmit]
  | FetchAdd => True
  | _ => ts <> []
  end.

(** What a query holds rests on its in-flight guard. *)
Definition grounded (ts : list Token) : Prop := ts = [] \/ exists u x, ts = u ++ [x] /\ (x = TShed \/ x = TAdmit).

Lemma grounded_cons x ts : x <> TShed -> x <> TAdmit -> grounded (x :: ts) <-> ts <> [] /\ grounded ts.
Proof.
  intros Hs Ha. split.
  - intros [|(u & y & E & Hy)]; [done|]. destruct u as [|z u]; [injection E as -> ->; by destruct Hy|]. injection E as <- ->.
    split; [by destruct u|]. right. by exists u, y.
  - intros (Hne & [->|(u & y & -> & Hy)]); [done|]. right. by exists (x :: u), y.
Qed.

Lemma spend_grounded rs ts {B} (e : Ev B) b ts' :
  may_act rs ts e -> spend ts e b = Some ts' -> grounded ts -> grounded ts'.
Proof.
  intros Ha Hs Hg. destruct e; cbn in *; try (by injection Hs as <-).
  - destruct ts; [|done]. injection Hs as <-. right. exists []. destruct (_ <=? _); eexists; (split; [done|]); auto.
  - destruct ts as [|[] []]; try done; injection Hs as <-; by left.
  - destruct (snd b); injection Hs as <-; [|done]. by apply grounded_cons.
  - destruct ts as [|[] ts]; try done. destruct (bool_decide _); [|done]. injection Hs as <-. apply grounded_cons in Hg; [|done..]. by apply grounded_cons.
  - destruct ts as [|[] ts]; try done. destruct (bool_decide _); [|done]. injection Hs as <-. apply grounded_cons in Hg; [|done..]. by apply grounded_cons.
  - destruct ts as [|[] ts]; try done; (destruct (bool_decide _); [|done]); injection Hs as <-; by apply grounded_cons in Hg as (_ & Hg).
  - destruct b; injection Hs as <-; [|done]. by apply grounded_cons.
  - destruct ts as [|[] ts]; try done; (destruct (bool_decide _); [|done]); injection Hs as <-; by apply grounded_cons in Hg as (_ & Hg).
  - destruct b; injection Hs as <-; [|done]. by apply grounded_cons.
  - destruct ts as [|[] ts]; try done; injection Hs as <-; by apply grounded_cons in Hg as (_ & Hg).
  - destruct ts as [|x ts]; [done|]. destruct (bool_decide_reflect (task_tokens t = [x])) as [E|]; [|done]. injection Hs as <-.
    apply grounded_cons in Hg as (_ & Hg); [done|destruct t; injection E as <-; done..].
Qed.

(** [owns rs ts p Q]: run with the tokens [ts] and the channels [rs], [p]
    gives up exactly what it must, never panics, and ends in [Q]. *)
Fixpoint owns {A} (rs : list Chan) (ts : list Token) (p : Proc Ev A) (Q : list Chan -> list Token -> A -> Prop) : Prop :=
  match p with
  | Ret a => Q rs ts a
  | Panic => False
  | Vis e k => may_act rs ts e /\ forall b, answer_ok e b ->
      match spend ts e b with Some ts' => owns (learn e b ++ rs) ts' (k b) Q | None => False end
  end.

Definition owes_nothing {A} (rs : list Chan) (ts : list Token) (a : A) : Prop := ts = [].

Lemma owns_mono {A} rs ts (p : Proc Ev A) (Q Q' : list Chan -> list Token -> A -> Prop) :
  (forall rs ts a, Q rs ts a -> Q' rs ts a) -> owns rs ts p Q -> owns rs ts p Q'.
Proof.
  intros HQ. revert rs ts. induction p as [a|B e k IH|]; intros rs ts; cbn [owns]; [apply HQ| |done].
  intros (Hw & Hk). split; [done|]. intros b Hb. specialize (Hk b Hb). destruct (spend ts e b); [|done]. by apply IH.
Qed.

Lemma owns_bind {A C} rs ts (p : Proc Ev A) (f : A -> Proc Ev C) Q :
  owns rs ts p (fun rs ts a => owns rs ts (f a) Q) -> owns rs ts (bind f p) Q.
Proof.
  revert rs ts. induction p as [a|B e k IH|]; intros rs ts; cbn [owns bind]; [done| |done].
  intros (Hw & Hk). split; [done|]. intros b Hb. specialize (Hk b Hb). destruct (spend ts e b); [|done]. by apply IH.
Qed.

Lemma owns_event {B C} rs ts (e : Ev B) (f : B -> Proc Ev C) Q :
  may_act rs ts e ->
  (forall b, answer_ok e b ->
     match spend ts e b with Some ts' => owns (learn e b ++ rs) ts' (f b) Q | None => False end) ->
  owns rs ts (event e ≫= f) Q.
Proof. intros Hw Hk. exact (conj Hw Hk). Qed.

(** ** The code respects ownership *)
Lemma finish_owns rs ts l resp started (Q : list Chan -> list Token -> unit -> Prop) :
  ts <> [] -> Q rs ts tt -> owns rs ts (finish l resp started) Q.
Proof. intros Hne HQ. cbn. by repeat split. Qed.

Lemma shadow_tap_owns rs ts request resp b qname qtype (Q : list Chan -> list Token -> unit -> Prop) :
  ts <> [] -> Q rs ts tt -> owns rs ts (shadow_tap request resp b qname qtype) Q.
Proof.
  intros Hne HQ. unfold shadow_tap, spawn_compare. cbn. split; [done|]. intros [] _; cbn; [|done].
  split; [done|]. intros [] _; cbn; [|done]. split; [done|]. by intros [] _.
Qed.

Lemma expect_owns {A} rs ts (o : option A) a (Q : list Chan -> list Token -> A -> Prop) :
  o = Some a -> Q rs ts a -> owns rs ts (expect o) Q.
Proof. by intros ->. Qed.

Lemma resolve_cached_owns rs request qname qtype now (Q : list Chan -> list Token -> Message * ResponseSource -> Prop) :
  (forall rs r, Q rs [TAdmit] r) ->
  owns rs [TAdmit] (resolve_cached request qname qtype now) Q.
Proof.
  intros HQ. unfold resolve_cached. destruct (name_from_ascii qname) as [name|]; [|apply HQ].
  cbn. split; [done|]. intros [m|m|] _; cbn; [apply HQ| |].
  - split; [done|]. intros [] _; cbn; [|apply HQ]. split; [done|]. intros [] _. rewrite bool_decide_eq_true_2 by done. apply HQ.
  - split; [done|]. intros [h|] _; cbn; [apply HQ|]. split; [done|].
    intros [rx lead] (Hfrom & Htx). cbn [fst snd] in *. destruct lead as [tx|]; cbn.
    + split; [done|]. intros [] _. rewrite bool_decide_eq_true_2 by done. cbn.
      split; [split; [left|done]|]. intros [[m|]|] _; apply HQ.
    + split; [split; [left|done]|]. intros [[m|]|] _; apply HQ.
Qed.

Lemma answer_safesearch_owns rs request qname qtype target now (Q : list Chan -> list Token -> Message -> Prop) :
  (forall rs r, Q rs [TAdmit] r) ->
  owns rs [TAdmit] (answer_safesearch request qname qtype target now) Q.
Proof.
  intros HQ. unfold answer_safesearch.
  destruct (name_from_ascii (qname ++ _)) as [n|]; [|apply HQ]. destruct (name_from_ascii (target ++ _)) as [t|]; [|apply HQ].
  apply owns_bind, resolve_cached_owns. intros rs' [r src]. destruct (_ =? _); apply HQ.
Qed.

(** The static names of the block answer are valid. *)
Definition static_names_ok : Prop := is_Some (name_from_ascii BLOCK_SOA_MNAME) /\ is_Some (name_from_ascii BLOCK_SOA_RNAME).

Lemma block_owns rs ts request l started qname qtype (Q : list Chan -> list Token -> Message -> Prop) :
  static_names_ok -> ts <> [] -> (forall r, Q rs ts r) -> owns rs ts (block request l started qname qtype) Q.
Proof.
  intros ((m & Em) & (r & Er)) Hne HQ. unfold block. apply owns_bind.
  eapply expect_owns; [unfold synth_block_response; rewrite Em, Er; reflexivity|].
  apply owns_bind, finish_owns; [done|]. apply owns_bind, shadow_tap_owns; [done|apply HQ].
Qed.

Lemma blocked_cname_total pol records :
  policy_ok pol -> exists c, blocked_cname_target (pol_engine pol) records = Some c.
Proof.
  intros Hp. induction records as [|r records IH]; cbn [blocked_cname_target]; [by eexists|].
  destruct (r_data r); try done. destruct (Hp (normalize_qname (name_to_ascii n))) as (v & ->). cbn.
  by destruct v; [|eexists|].
Qed.

Lemma answer_unblocked_owns rs pol request l started qname qtype now (Q : list Chan -> list Token -> Message -> Prop) :
  static_names_ok -> policy_ok pol -> (forall rs r, Q rs [TAdmit] r) ->
  owns rs [TAdmit] (answer_unblocked pol request l started qname qtype now) Q.
Proof.
  intros Hn Hp HQ. unfold answer_unblocked. destruct (SafeSearch.rewrite _ _).
  - apply owns_bind, answer_safesearch_owns. intros rs' r. apply owns_bind, finish_owns; [done|apply HQ].
  - apply owns_bind, resolve_cached_owns. intros rs' [r src].
    destruct (blocked_cname_total pol (answers r) Hp) as (c & Hc). apply owns_bind.
    assert (Hrest : forall c, owns rs' [TAdmit]
      (match c with
       | Some (target, lst, rule) =>
           block request (log_verdict (log_source l src) Blocked (Some (rule ++ lit " (CNAME target " ++ target ++ lit ")")) (Some lst))
             started qname qtype
       | None => _ ← finish (log_source l src) r started; _ ← shadow_tap request r false qname qtype; Ret r
       end) Q).
    { intros [[[t i] rule]|]; [by apply block_owns|]. apply owns_bind, finish_owns; [done|]. apply owns_bind, shadow_tap_owns; [done|apply HQ]. }
    destruct (bool_decide _); [apply Hrest|]. eapply expect_owns; [exact Hc|apply Hrest].
Qed.

Lemma answer_query_owns rs request query client ts started now (Q : list Chan -> list Token -> Message -> Prop) :
  static_names_ok -> (forall rs r, Q rs [TAdmit] r) ->
  owns rs [TAdmit] (answer_query request query client ts started now) Q.
Proof.
  intros Hn HQ. unfold answer_query. apply owns_event; [done|]. intros pol Hp. cbn [spend learn app].
  destruct (negb _); [apply owns_bind, finish_owns; [done|apply HQ]|]. destruct (_ =? _); [apply owns_bind, finish_owns; [done|apply HQ]|].
  destruct (Hp (normalize_qname (name_to_ascii (q_name query)))) as (v & Hv).
  apply owns_bind. eapply expect_owns; [exact Hv|].
  by destruct v; [apply answer_unblocked_owns|apply block_owns|apply answer_unblocked_owns].
Qed.

Lemma handle_at_owns rs request client now :
  static_names_ok -> owns rs [] (handle_at request client now) owes_nothing.
Proof.
  intros Hn. unfold handle_at. apply owns_event; [done|]. intros prev _. cbn [spend learn app]. apply owns_bind.
  assert (Hend : forall rs ts r, ts = [TShed] \/ ts = [TAdmit] ->
    owns rs ts (_ ← event FetchSub; Ret r) (@owes_nothing Message))
    by (intros rs' ts r [->| ->]; cbn; split; done).
  unfold handle_guarded. apply owns_event; [by destruct (_ <=? _)|]. intros started _. cbn [spend learn app].
  apply owns_event; [by destruct (_ <=? _)|]. intros tstamp _. cbn [spend learn app].
  destruct (MAX_IN_FLIGHT_QUERIES <=? prev).
  - unfold shed_overload. apply owns_bind, finish_owns; [done|]. apply Hend. by left.
  - destruct (Dns.queries request).
    + apply owns_bind, finish_owns; [done|]. apply Hend. by right.
    + apply answer_query_owns; [done|]. intros rs' r. apply Hend. by right.
Qed.

Lemma settle_owns rs ts key m now (Q : list Chan -> list Token -> unit -> Prop) :
  ts <> [] -> Q rs ts tt -> owns rs ts (settle key m now) Q.
Proof.
  intros Hne HQ. unfold settle. destruct (_ =? _); cbn; [by repeat split|].
  split; [done|]. intros [] _. split; [done|]. by intros [] _.
Qed.

Lemma task_owns rs t : owns rs (task_tokens t) (task_body t) owes_nothing.
Proof.
  destruct t as [req qname key now tx|req key|req ours blocked qname qtype]; cbn [task_body task_tokens].
  - assert (Hend : forall v rs, owns rs [TLead (key_id key) tx]
      (_ ← event (RemoveLookup key); _ ← event (Send tx v); event (DropSender tx)) owes_nothing).
    { intros v rs'. cbn. split; [done|]. intros [] _. rewrite bool_decide_eq_true_2 by done. split; [done|]. intros [] _.
      rewrite bool_decide_eq_true_2 by done. split; [done|]. intros [] _. by rewrite bool_decide_eq_true_2. }
    unfold leader. apply owns_event; [done|]. intros [m| |] _; cbn [spend learn app].
    + apply owns_bind, owns_bind, settle_owns; [done|]. apply (Hend (Some m)).
    + apply owns_bind, owns_event; [done|]. intros d _. apply (Hend None).
    + cbn. split; [done|]. intros [] _. rewrite bool_decide_eq_true_2 by done. split; [done|]. intros [] _.
      by rewrite bool_decide_eq_true_2.
  - assert (Hend : forall rs, owns rs [TRef (key_id key)] (event (RefreshRemove key)) owes_nothing).
    { intros rs'. cbn. split; [done|]. intros [] _. by rewrite bool_decide_eq_true_2. }
    unfold refresh. apply owns_event; [done|]. intros now _. cbn [spend learn app].
    apply owns_event; [done|]. intros [h|] _; cbn [spend learn app]; [apply Hend|].
    apply owns_event; [done|]. intros [m| |] _; cbn [spend learn app].
    + apply owns_bind, settle_owns; [done|apply Hend].
    + apply owns_bind, owns_event; [done|]. intros d _. apply Hend.
    + apply owns_bind, Hend.
  - assert (Hend : forall rs, owns rs [TPermit] (event Release) owes_nothing)
      by (intros rs'; cbn; by split; [done|intros [] _]).
    unfold compare_task, reference_query. destruct (to_vec req) as [bytes|]; [|apply Hend].
    apply owns_bind, owns_event; [done|]. intros reply _. cbn [spend learn app owns mbind]. destruct (buf ← reply; from_vec (take 4096 buf)) as [theirs|]; [|apply Hend].
    destruct (classify ours blocked theirs) as [[[a b] c]|]; [|apply Hend].
    apply owns_event; [done|]. intros ts _. cbn [spend learn app]. apply owns_event; [done|]. intros ok _. apply Hend.
Qed.

(** While a task is on the network it holds what it was spawned with. *)
Fixpoint keeps {A} (own ts : list Token) (p : Proc Ev A) : Prop :=
  match p with
  | Vis e k => (on_network e = true -> ts = own) /\
      forall b, match spend ts e b with Some ts' => keeps own ts' (k b) | None => True end
  | _ => True
  end.

Lemma keeps_event {B C} own ts (e : Ev B) (f : B -> Proc Ev C) :
  (on_network e = true -> ts = own) ->
  (forall b, match spend ts e b with Some ts' => keeps own ts' (f b) | None => True end) ->
  keeps own ts (event e ≫= f).
Proof. intros He Hf. exact (conj He Hf). Qed.

(** No more network. *)
Fixpoint offline {A} (p : Proc Ev A) : Prop :=
  match p with Vis e k => on_network e = false /\ forall b, offline (k b) | _ => True end.

Lemma offline_keeps {A} own ts (p : Proc Ev A) : offline p -> keeps own ts p.
Proof.
  revert ts. induction p as [a|B e k IH|]; intros ts; cbn; [done| |done]. intros (He & Hk).
  split; [congruence|]. intros b. destruct (spend ts e b); [|done]. by apply IH.
Qed.

Lemma offline_event {B C} (e : Ev B) (f : B -> Proc Ev C) :
  on_network e = false -> (forall b, offline (f b)) -> offline (event e ≫= f).
Proof. intros He Hf. exact (conj He Hf). Qed.
Lemma offline_bind {A C} (p : Proc Ev A) (f : A -> Proc Ev C) :
  offline p -> (forall a, offline (f a)) -> offline (p ≫= f).
Proof.
  intros Hp Hf. induction p as [a|B e k IH|]; cbn in *; [done| |done]. destruct Hp as (He & Hk).
  split; [done|]. intros b. by apply IH.
Qed.
Lemma offline_last {B} (e : Ev B) : on_network e = false -> offline (event e).
Proof. intros He. exact (conj He (fun _ => I)). Qed.

Lemma settle_offline key m now : offline (settle key m now).
Proof. unfold settle. destruct (_ =? _); (apply offline_event; [done|]); intros b; [done|by apply offline_last]. Qed.

Lemma task_keeps t : keeps (task_tokens t) (task_tokens t) (task_body t).
Proof.
  destruct t as [req qname key now tx|req key|req ours blocked qname qtype]; cbn [task_body task_tokens].
  - assert (Hend : forall p : Proc Ev (option Message), offline p ->
      offline (answer ← p; _ ← event (RemoveLookup key); _ ← event (Send tx answer); event (DropSender tx))).
    { intros p Hp. apply offline_bind; [done|]. intros a. do 2 (apply offline_event; [done|]; intros _).
      by apply offline_last. }
    apply keeps_event; [done|]. intros r. cbn [spend]. apply offline_keeps. destruct r as [m| |].
    + apply (Hend (_ ← settle key m now; Ret (Some m))). apply offline_bind; [apply settle_offline|done].
    + apply (Hend (_ ← event (FailRecord key now); Ret None)). by apply offline_event.
    + apply offline_event; [done|]. intros _. by apply offline_last.
  - do 2 (apply keeps_event; [done|]; intros ?; cbn [spend]). destruct b0 as [h|]; [by apply offline_keeps, offline_last|].
    apply keeps_event; [done|]. intros r. cbn [spend]. apply offline_keeps, offline_bind; [|intros _; by apply offline_last].
    destruct r; [apply settle_offline|by apply offline_event|done].
  - unfold compare_task, reference_query. destruct (to_vec req) as [bytes|]; [|by apply offline_keeps, offline_last].
    cbn. split; [done|]. intros reply. destruct (buf ← reply; from_vec (take 4096 buf)) as [theirs|]; cbn; [|done].
    destruct (classify ours blocked theirs) as [[[a b] c]|]; [|done].
    apply offline_keeps. do 2 (apply offline_event; [done|]; intros ?). by apply offline_last.
Qed.
End Scheduler.
