(* ===== verification/Node.v ===== *)
(** * Node: the running daemon as one system

    The socket tasks and connections of [serve], the queries they hand to
    the pipeline with the tasks it spawns, the log's writer thread, and the
    end of [daemon::run] (stop the sockets, drain, flush), together: a step
    is one event of one of them. Erasing what is new here gives a
    configuration of [Scheduler]. [nd_received], [nd_answered], the trace
    of a query, [lg_ops] and [lg_sweeps] are history: nothing reads them. *)
From S2P Require Import Prelude Text Time IpAddr FilterTypes Engine Dns Cache FailCache SafeSearch Shadow Db DbSpec Proc Pipeline Server Serving Config Sockets Scheduler.

Section Node.
Context `{HickoryOps} `{HashIter} `{IpNetOps} `{RcodeDisplay} `{IpDisplay}.

(** ** Queries

    Where a query came from, and with it where its answer goes. *)
Inductive Origin := FromUdp (fd : Fd) (peer : SocketAddr) | FromTcp (conn : nat).

(** A query being handled: its trace so far and what is left of
    [handle_at]. *)
Record Handling := mkHandling {
  h_origin : Origin;
  h_client : IpAddr;
  h_now : Instant;
  h_request : Message;
  h_trace : list (Obs Ev);
  h_code : Proc Ev Message
}.
Definition begin (origin : Origin) (client : IpAddr) (now : Instant) (request : Message) : Handling :=
  mkHandling origin client now request [] (handle_at request client now).
Definition advance (h : Handling) (o : Obs Ev) (code : Proc Ev Message) : Handling :=
  mkHandling (h_origin h) (h_client h) (h_now h) (h_request h) (h_trace h ++ [o]) code.

(** A query that was answered. *)
Record Answer := mkAnswer { a_query : Handling; a_reply : Message }.

(** ** Sockets and connections *)

(** An open connection: its listener, what it sent and what of that is
    unread, the query being handled, what was written back; and the
    exchanges so far. *)
Record Conn := mkConn {
  cn_listener : Fd;
  cn_peer : IpAddr;
  cn_received : list Z;
  cn_unread : list Z;
  cn_asking : option Message;
  cn_written : list Z;
  cn_dialog : list (Message * Message)
}.
Definition conn_new (listener : Fd) (peer : IpAddr) : Conn := mkConn listener peer [] [] None [] [].

Record Io := mkIo {
  io_sockets : list SocketTask;                  (* socket tasks running *)
  io_conns : gmap nat Conn;
  io_next : nat;
  io_sent : list (Fd * SocketAddr * list Z)      (* datagrams sent, newest first *)
}.
Definition set_conns (io : Io) (x : gmap nat Conn) : Io := mkIo (io_sockets io) x (io_next io) (io_sent io).

(** The connections of one listener: its slots are its own. *)
Definition peers_of (io : Io) (listener : Fd) : list IpAddr :=
  map (fun c => cn_peer (snd c)) (List.filter (fun c => Nat.eqb (cn_listener (snd c)) listener) (map_to_list (io_conns io))).

(** [serve_tcp_conn] up to [pipeline.handle]: the next query and the bytes
    after it; [None] while bytes are missing. *)
Inductive ConnRead := Waiting | Garbage | NextQuery (request : Message) (rest : list Z).
Definition conn_read (input : list Z) : ConnRead :=
  match read_exact 2 input with
  | None => Waiting
  | Some (lenbuf, input) =>
      match read_exact (from_be_bytes lenbuf) input with
      | None => Waiting
      | Some (buf, rest) => match from_vec buf with Some request => NextQuery request rest | None => Garbage end
      end
  end.

(** The answer leaves: as a datagram, or written to the connection ([taken]
    if the peer takes it in time, else the connection is over). *)
Definition deliver (io : Io) (h : Handling) (resp : Message) (taken : bool) : Io :=
  match h_origin h with
  | FromUdp fd peer =>
      match udp_reply (h_request h) resp with
      | Some bytes => mkIo (io_sockets io) (io_conns io) (io_next io) ((fd, peer, bytes) :: io_sent io)
      | None => io
      end
  | FromTcp c =>
      match bytes ← to_vec resp; frame bytes with
      | Some framed =>
          if taken then
            set_conns io (alter (fun cn => mkConn (cn_listener cn) (cn_peer cn) (cn_received cn) (cn_unread cn) None
                                             (cn_written cn ++ framed) (cn_dialog cn ++ [(h_request h, resp)])) c (io_conns io))
          else set_conns io (delete c (io_conns io))
      | None => set_conns io (delete c (io_conns io))
      end
  end.

(** ** The log: the tables of the database, what was done to it, and the
    times of the retention sweeps *)
Record Logbook := mkLogbook { lg_tables : Tables; lg_ops : list LogOp; lg_sweeps : list Z }.
Definition set_rows (t : Tables) (h : option Heartbeat) (s : option DaemonStats) : Tables :=
  mkTables (t_version t) (t_shape t) (t_queries t) (t_next_query t) h s (t_divergences t) (t_next_divergence t).
Definition offer (lg : Logbook) {B} (e : Ev B) : Logbook :=
  match e with Log ev => mkLogbook (lg_tables lg) (lg_ops lg ++ [OpLog ev]) (lg_sweeps lg) | _ => lg end.

(** ** The daemon *)

(** [run] serves, waits for the queries in flight, waits for room for its
    flush, waits for the acknowledgement, has returned. *)
Inductive Phase := Running | Draining | FlushWait | Flushing (ack : nat) | Stopped.

Record Node := mkNode {
  nd_pipe : Pipeline;
  nd_handling : list Handling;
  nd_tasks : list (Task * Proc Ev unit);
  nd_io : Io;
  nd_log : Logbook;
  nd_phase : Phase;
  nd_received : list (Origin * Message);         (* queries read, newest first *)
  nd_answered : list Answer                      (* newest first *)
}.

(** What the daemon does by itself. *)
Inductive works : Node -> Node -> Prop :=
| k_handle o p p' pre post h B (e : Ev B) k b ts io lg ph rc an :
    ph <> Stopped -> h_code h = Vis e k -> exec o e p = Some (b, p') ->
    works (mkNode p (pre ++ h :: post) ts io lg ph rc an)
          (mkNode p' (pre ++ advance h (mkObs _ e b) (k b) :: post) (map start_task (spawned e) ++ ts) io (offer lg e) ph rc an)
| k_reply p pre post h resp taken ts io lg ph rc an :
    ph <> Stopped -> h_code h = Ret resp ->
    works (mkNode p (pre ++ h :: post) ts io lg ph rc an)
          (mkNode p (pre ++ post) ts (deliver io h resp taken) lg ph rc (mkAnswer h resp :: an))
| k_task o p p' pre post t B (e : Ev B) k b hs io lg ph rc an :
    ph <> Stopped -> exec o e p = Some (b, p') ->
    works (mkNode p hs (pre ++ (t, Vis e k) :: post) io lg ph rc an)
          (mkNode p' hs (map start_task (spawned e) ++ pre ++ (t, k b) :: post) io (offer lg e) ph rc an)
| k_task_done p pre post t hs io lg ph rc an :
    ph <> Stopped ->
    works (mkNode p hs (pre ++ (t, Ret tt) :: post) io lg ph rc an) (mkNode p hs (pre ++ post) io lg ph rc an).

Definition with_conn (io : Io) (c : nat) (f : Conn -> Conn) : Io := set_conns io (alter f c (io_conns io)).

(** What happens to it: datagrams, connections and their bytes, a new
    policy, a turn of the writer thread, a retention sweep, and the end. *)
Inductive happens : Node -> Node -> Prop :=
| x_datagram p hs ts io lg ph rc an fd peer bytes request now :
    ph <> Stopped -> mkSocketTask Udp fd ∈ io_sockets io -> udp_request bytes = Some request ->
    happens (mkNode p hs ts io lg ph rc an)
            (mkNode p (begin (FromUdp fd peer) (sa_ip peer) now request :: hs) ts io lg ph ((FromUdp fd peer, request) :: rc) an)
| x_accept p hs ts io lg ph rc an fd peer :
    ph <> Stopped -> mkSocketTask Tcp fd ∈ io_sockets io ->
    happens (mkNode p hs ts io lg ph rc an)
            (mkNode p hs ts
               (match fst (accept p (peers_of io fd) peer) with
                | Served => mkIo (io_sockets io) (<[io_next io := conn_new fd peer]> (io_conns io)) (S (io_next io)) (io_sent io)
                | Stranger | Full => io
                end) lg ph rc an)
| x_bytes p hs ts io lg ph rc an c bytes :
    happens (mkNode p hs ts io lg ph rc an)
            (mkNode p hs ts
               (with_conn io c (fun cn => mkConn (cn_listener cn) (cn_peer cn) (cn_received cn ++ bytes) (cn_unread cn ++ bytes)
                                            (cn_asking cn) (cn_written cn) (cn_dialog cn))) lg ph rc an)
| x_query p hs ts io lg ph rc an c cn request rest now :
    ph <> Stopped -> io_conns io !! c = Some cn -> cn_asking cn = None -> conn_read (cn_unread cn) = NextQuery request rest ->
    happens (mkNode p hs ts io lg ph rc an)
            (mkNode p (begin (FromTcp c) (cn_peer cn) now request :: hs) ts
               (with_conn io c (fun cn => mkConn (cn_listener cn) (cn_peer cn) (cn_received cn) rest
                                            (Some request) (cn_written cn) (cn_dialog cn)))
               lg ph ((FromTcp c, request) :: rc) an)
| x_hangup p hs ts io lg ph rc an c cn :
    (* idle for too long, closed by the peer, or garbage *)
    io_conns io !! c = Some cn -> cn_asking cn = None ->
    happens (mkNode p hs ts io lg ph rc an) (mkNode p hs ts (set_conns io (delete c (io_conns io))) lg ph rc an)
| x_install p pol hs ts io lg rc an :
    policy_ok pol ->
    happens (mkNode p hs ts io lg Running rc an) (mkNode (install p pol) hs ts io lg Running rc an)
| x_writer p hs ts io t ops sw ph rc an fails w t' ok acks :
    writer_turn fails (p_writer p) t = Some (w, t', ok, acks) ->
    happens (mkNode p hs ts io (mkLogbook t ops sw) ph rc an)
            (mkNode (set_writer p w) hs ts io (mkLogbook t' (ops ++ [OpTurn fails]) sw) ph rc an)
| x_sweep p hs ts io t ops sw rc an now :
    happens (mkNode p hs ts io (mkLogbook t ops sw) Running rc an)
            (mkNode p hs ts io (mkLogbook (snd (retention_sweep t now)) ops (now :: sw)) Running rc an)
| x_stop p hs ts io lg rc an :
    (* refresher.abort(); server.shutdown().await *)
    happens (mkNode p hs ts io lg Running rc an)
            (mkNode p hs ts (mkIo [] (io_conns io) (io_next io) (io_sent io)) lg Draining rc an)
| x_drained p hs ts io lg rc an now deadline :
    in_flight p = 0 \/ deadline <= (now : Instant) ->
    happens (mkNode p hs ts io lg Draining rc an) (mkNode p hs ts io lg FlushWait rc an)
| x_flush p hs ts io t ops sw rc an ack w :
    (* flush(): at once, or from its thread when there is room *)
    try_send (p_writer p) (MFlush ack) = Some w ->
    happens (mkNode p hs ts io (mkLogbook t ops sw) FlushWait rc an)
            (mkNode (set_writer p w) hs ts io (mkLogbook t (ops ++ [OpFlush ack]) sw) (Flushing ack) rc an)
| x_flushed p hs ts io lg rc an ack :
    (* acknowledged, or let go with its batch *)
    MFlush ack ∉ w_queue (p_writer p) ->
    happens (mkNode p hs ts io lg (Flushing ack) rc an) (mkNode p hs ts io lg Stopped rc an)
| x_rows p hs ts io t ops sw ph rc an h s :
    (* the heartbeat's and the counters' rows, of the refresher and the signal loop *)
    happens (mkNode p hs ts io (mkLogbook t ops sw) ph rc an) (mkNode p hs ts io (mkLogbook (set_rows t h s) ops sw) ph rc an).

Definition moves (x x' : Node) : Prop := works x x' \/ happens x x'.

(** The daemon as [serve] leaves it. *)
Definition node_new (p : Pipeline) (sockets : list SocketTask) (t : Tables) : Node :=
  mkNode p [] [] (mkIo sockets ∅ 0 []) (mkLogbook t [] []) Running [] [].

Inductive runs_to {S : Type} (R : S -> S -> Prop) : nat -> S -> S -> Prop :=
| runs_nil x : runs_to R O x x
| runs_cons n x x' x'' : R x x' -> runs_to R n x' x'' -> runs_to R (Nat.succ n) x x''.

Definition comes_to (p : Pipeline) (sockets : list SocketTask) (t : Tables) (x : Node) : Prop :=
  exists n, runs_to moves n (node_new p sockets t) x.

(** What [Scheduler] sees of it. *)
Definition client_of (h : Handling) : Client := mkClient (h_request h) (h_code h).
Definition core (x : Node) : Scheduler.Config :=
  mkConfig (nd_pipe x) (map client_of (nd_handling x)) (nd_tasks x)
    (map (fun a => (h_request (a_query a), a_reply a)) (nd_answered x)) (length (nd_received x)) 0.
End Node.
