(* ===== verification/SchedulerSpec.v ===== *)
(** * SchedulerSpec: no query is lost, whatever the interleaving

    The accounting invariant of a running server: every counter, map entry,
    set member, permit and channel sender is owed by exactly one task. From
    it: admission, single flight, refresh deduplication, and that the
    server never deadlocks and always drains. *)
From S2P Require Import Prelude Text Time IpAddr FilterTypes Engine Dns Cache CacheSpec FailCache SafeSearch Shadow Db Proc Pipeline Server ServerSpec Scheduler.

(** ** Counting tokens *)
Definition cnt (x : Token) (l : list Token) : nat := length (List.filter (fun y => bool_decide (y = x)) l).

Lemma cnt_nil x : cnt x [] = 0%nat.
Proof. done. Qed.
Lemma cnt_cons x y l : cnt x (y :: l) = ((if decide (y = x) then 1 else 0) + cnt x l)%nat.
Proof.
  unfold cnt. cbn [List.filter]. destruct (decide (y = x)).
  - by rewrite bool_decide_eq_true_2.
  - by rewrite bool_decide_eq_false_2.
Qed.
Lemma cnt_app x l k : cnt x (l ++ k) = (cnt x l + cnt x k)%nat.
Proof. unfold cnt. by rewrite List.filter_app, length_app. Qed.
Lemma cnt_pos x l : (0 < cnt x l)%nat -> x ∈ l.
Proof.
  induction l as [|y l IH]; [cbn; lia|]. rewrite cnt_cons. destruct (decide (y = x)) as [->|]; [by left|].
  intros Hc. right. by apply IH.
Qed.

#[global] Arguments cnt : simpl never.
#[global] Hint Rewrite cnt_nil cnt_cons cnt_app : cnt.

(** Decide the token equalities of a count, and finish by arithmetic. *)
Ltac decide_tokens :=
  autorewrite with cnt in *;
  repeat match goal with
  | |- context [decide (?a = ?b :> Token)] => destruct (decide (a = b)); try congruence
  | H : context [decide (?a = ?b :> Token)] |- _ => destruct (decide (a = b)); try congruence
  end.
Ltac count_tokens := unfold MAX_IN_FLIGHT_QUERIES in *; decide_tokens; try lia.

Section Accounts.
Context `{HickoryOps} `{HashIter} `{IpNetOps} `{RcodeDisplay}.

(** The protocol of one channel: in the map with two senders and nothing
    sent; out of it and not yet published; published; or abandoned. *)
Definition chan_ok (p : Pipeline) (n : Token -> nat) (c : Chan) : Prop :=
  match p_channels p !! c with
  | None => (p_next_chan p <= c)%nat /\ (forall k, p_lookups p !! k <> Some c)
            /\ n (TTx c) = 0%nat /\ n (TSent c) = 0%nat
  | Some ch => (c < p_next_chan p)%nat /\
      ((exists k, p_lookups p !! k = Some c /\ ch_sent ch = [] /\ ch_senders ch = 2%nat
          /\ n (TTx c) = 0%nat /\ n (TSent c) = 0%nat)
       \/ ((forall k, p_lookups p !! k <> Some c)
           /\ ((ch_sent ch = [] /\ ch_senders ch = 1%nat /\ n (TTx c) = 1%nat /\ n (TSent c) = 0%nat)
               \/ (length (ch_sent ch) = 1%nat /\ ch_senders ch = 1%nat /\ n (TTx c) = 0%nat /\ n (TSent c) = 1%nat)
               \/ ((length (ch_sent ch) <= 1)%nat /\ ch_senders ch = 0%nat /\ n (TTx c) = 0%nat /\ n (TSent c) = 0%nat))))
  end.

(** The shared state accounts for [n x] tokens [x] held by the tasks. *)
Record accounts (p : Pipeline) (n : Token -> nat) : Prop := {
  acc_flight : p_in_flight p = Z.of_nat (n TShed + n TAdmit);
  acc_admit : Z.of_nat (n TAdmit) <= MAX_IN_FLIGHT_QUERIES;
  acc_lead : forall k c, n (TLead k c) = if decide (p_lookups p !! k = Some c) then 1%nat else 0%nat;
  acc_inj : forall k k' c, p_lookups p !! k = Some c -> p_lookups p !! k' = Some c -> k = k';
  acc_ref : forall k, n (TRef k) = if decide (k ∈ p_refreshing p) then 1%nat else 0%nat;
  acc_permit : match p_shadow p with
               | None => n TPermit = 0%nat
               | Some s => sh_permits s + Z.of_nat (n TPermit) = MAX_INFLIGHT /\ 0 <= sh_permits s
               end;
  acc_chan : forall c, chan_ok p n c;
  acc_cache : exists a, stands_for (p_cache p) a;
  acc_policy : policy_ok (p_policy p)
}.

Lemma accounts_ext p n n' : (forall x, n x = n' x) -> accounts p n -> accounts p n'.
Proof.
  intros Hn [A1 A2 A3 A4 A5 A6 A7 A8 A9]. split; rewrite <- ?Hn; try done.
  - intros k c. by rewrite <- Hn.
  - intros k. by rewrite <- Hn.
  - intros c. specialize (A7 c). unfold chan_ok in *. by rewrite <- !Hn.
Qed.

(** Tokens in the tasks' hands: [held ts m] counts [ts] on top of [m]. *)
Definition hold (ts : list Token) (m : Token -> nat) : Token -> nat := fun x => (cnt x ts + m x)%nat.

(** The tokens an event passes to the task it spawns. *)
Definition passed {B} (e : Ev B) : list Token := concat (map task_tokens (spawned e)).

Lemma exec_answer o B (e : Ev B) p n b p' :
  accounts p n -> exec o e p = Some (b, p') -> answer_ok e b.
Proof.
  intros Hacc. destruct e; cbn [exec answer_ok]; try done.
  - intros [= <- <-]. apply Hacc.
  - unfold join_lookup. destruct (p_lookups p !! key_id key) as [c|] eqn:E; intros [= <- <-]; cbn.
    + pose proof (acc_chan _ _ Hacc c) as Hc. unfold chan_ok in Hc. destruct (p_channels p !! c) as [ch|]; cbn.
      * destruct Hc as (_ & [(k & _ & -> & _)|(Hno & _)]); [done|by destruct (Hno (key_id key))].
      * done.
    + split; [done|]. by intros tx [= <-].
Qed.

(** Updates that leave the lookups and the channels alone. *)
Lemma accounts_same_channels p p' n n' :
  accounts p n ->
  p_lookups p' = p_lookups p -> p_channels p' = p_channels p -> p_next_chan p' = p_next_chan p ->
  (forall k c, n' (TLead k c) = n (TLead k c)) -> (forall c, n' (TTx c) = n (TTx c)) -> (forall c, n' (TSent c) = n (TSent c)) ->
  p_in_flight p' = Z.of_nat (n' TShed + n' TAdmit) ->
  Z.of_nat (n' TAdmit) <= MAX_IN_FLIGHT_QUERIES ->
  (forall k, n' (TRef k) = if decide (k ∈ p_refreshing p') then 1%nat else 0%nat) ->
  match p_shadow p' with
  | None => n' TPermit = 0%nat
  | Some s => sh_permits s + Z.of_nat (n' TPermit) = MAX_INFLIGHT /\ 0 <= sh_permits s
  end ->
  (exists a, stands_for (p_cache p') a) -> policy_ok (p_policy p') ->
  accounts p' n'.
Proof.
  intros [_ _ A3 A4 _ _ A7 _ _] El Ec En Hl Ht Hs F1 F2 F5 F6 F8 F9.
  split; try done; rewrite ?El; try done.
  - intros k c. by rewrite Hl, A3.
  - intros c. specialize (A7 c). unfold chan_ok in *. by rewrite El, Ec, En, Ht, Hs.
Qed.

Lemma accounts_no_channels p p' ts ts' m :
  accounts p (hold ts m) ->
  (forall x, match x with TLead _ _ | TTx _ | TSent _ => cnt x ts' = cnt x ts | _ => True end) ->
  p_lookups p' = p_lookups p -> p_channels p' = p_channels p -> p_next_chan p' = p_next_chan p ->
  p_in_flight p' = Z.of_nat (hold ts' m TShed + hold ts' m TAdmit) ->
  Z.of_nat (hold ts' m TAdmit) <= MAX_IN_FLIGHT_QUERIES ->
  (forall k, hold ts' m (TRef k) = if decide (k ∈ p_refreshing p') then 1%nat else 0%nat) ->
  match p_shadow p' with
  | None => hold ts' m TPermit = 0%nat
  | Some s => sh_permits s + Z.of_nat (hold ts' m TPermit) = MAX_INFLIGHT /\ 0 <= sh_permits s
  end ->
  (exists a, stands_for (p_cache p') a) -> policy_ok (p_policy p') ->
  accounts p' (hold ts' m).
Proof.
  intros Hacc Hx. intros. eapply accounts_same_channels; try done.
  - intros k c. unfold hold. by rewrite (Hx (TLead k c)).
  - intros c. unfold hold. by rewrite (Hx (TTx c)).
  - intros c. unfold hold. by rewrite (Hx (TSent c)).
Qed.

(** *** The four channel events *)

(** Change of one channel [c] and of the tokens on it. *)
Lemma chan_other p p' n n' c c' :
  c' <> c -> p_channels p' !! c' = p_channels p !! c' -> p_next_chan p' = p_next_chan p ->
  (forall k, p_lookups p' !! k = Some c' <-> p_lookups p !! k = Some c') ->
  n' (TTx c') = n (TTx c') -> n' (TSent c') = n (TSent c') ->
  chan_ok p n c' -> chan_ok p' n' c'.
Proof.
  intros Hne Ec En Hl Ht Hs. unfold chan_ok. rewrite Ec, En, Ht, Hs.
  destruct (p_channels p !! c') as [ch|].
  - intros (Hlt & [(k & Hk & Hrest)|(Hno & Hrest)]); (split; [done|]).
    + left. exists k. split; [by apply Hl|done].
    + right. split; [|done]. intros k Hk. apply Hl in Hk. by destruct (Hno k).
  - intros (Hle & Hno & Hrest). split; [done|]. split; [|done]. intros k Hk. apply Hl in Hk. by destruct (Hno k).
Qed.

Lemma join_accounts p ts m key rx lead p' :
  accounts p (hold ts m) -> join_lookup p key = ((rx, lead), p') ->
  accounts p' (hold (match lead with Some tx => TLead (key_id key) tx :: ts | None => ts end) m)
  /\ (rx_chan rx < p_next_chan p')%nat /\ (p_next_chan p <= p_next_chan p')%nat.
Proof.
  intros Hacc. unfold join_lookup. destruct (p_lookups p !! key_id key) as [c|] eqn:E; intros [= <- <- <-].
  { split; [done|]. pose proof (acc_chan _ _ Hacc c) as Hc. unfold chan_ok in Hc. cbn [rx_chan].
    destruct (p_channels p !! c); [lia|]. destruct Hc as (_ & Hno & _). by destruct (Hno (key_id key)). }
  split; [|cbn; lia]. destruct Hacc as [A1 A2 A3 A4 A5 A6 A7 A8 A9]. set (c := p_next_chan p).
  assert (Hfresh : p_channels p !! c = None /\ (forall k, p_lookups p !! k <> Some c) /\ hold ts m (TTx c) = 0%nat /\ hold ts m (TSent c) = 0%nat).
  { specialize (A7 c). unfold chan_ok in A7. destruct (p_channels p !! c); [subst c; lia|]. tauto. }
  destruct Hfresh as (Hnone & Hno & Ht0 & Hs0).
  split; cbn [p_in_flight p_lookups p_refreshing p_shadow p_cache p_policy p_channels p_next_chan set_channels set_lookups];
    try done; unfold hold in *; try (autorewrite with cnt; rewrite !decide_False by done; done).
  - intros k c'. autorewrite with cnt. destruct (decide (key_id key = k)) as [<-|Hne].
    + rewrite lookup_insert_eq. specialize (A3 (key_id key) c'). rewrite E in A3. rewrite decide_False in A3 by done.
      destruct (decide (c = c')) as [<-|Hc]; [rewrite !decide_True by done|rewrite !decide_False by congruence]; lia.
    + rewrite lookup_insert_ne by done. rewrite decide_False by congruence. apply A3.
  - intros k k' c'. destruct (decide (key_id key = k)) as [<-|Hne], (decide (key_id key = k')) as [<-|Hne']; [done|..].
    + rewrite lookup_insert_eq, lookup_insert_ne by done. intros [= <-] Hk. by destruct (Hno k').
    + rewrite lookup_insert_eq, lookup_insert_ne by done. intros Hk [= <-]. by destruct (Hno k).
    + rewrite !lookup_insert_ne by done. apply A4.
  - intros c'. destruct (decide (c' = c)) as [->|Hne].
    + unfold chan_ok. cbn [p_channels p_next_chan p_lookups set_channels set_lookups drop_sender]. rewrite lookup_insert_eq. split; [lia|]. left. exists (key_id key). rewrite lookup_insert_eq.
      autorewrite with cnt. rewrite !decide_False by done. done.
    + specialize (A7 c'). unfold chan_ok in *. cbn [p_channels p_next_chan p_lookups set_channels set_lookups drop_sender]. rewrite lookup_insert_ne by done.
      autorewrite with cnt. rewrite !decide_False by done. cbn [Nat.add].
      assert (Hl : forall k, <[key_id key:=c]> (p_lookups p) !! k = Some c' <-> p_lookups p !! k = Some c').
      { intros k. destruct (decide (key_id key = k)) as [<-|Hk]; [|by rewrite lookup_insert_ne].
        rewrite lookup_insert_eq, E. split; congruence. }
      destruct (p_channels p !! c') as [ch|].
      * destruct A7 as (Hlt & [(k & Hk & Hrest)|(Hno' & Hrest)]); (split; [lia|]).
        -- left. exists k. split; [by apply Hl|done].
        -- right. split; [|done]. intros k Hk. apply Hl in Hk. by destruct (Hno' k).
      * destruct A7 as (Hle & Hno' & Hrest). split; [subst c; lia|]. split; [|done].
        intros k Hk. apply Hl in Hk. by destruct (Hno' k).
Qed.

Lemma remove_accounts p ts m key c :
  accounts p (hold (TLead (key_id key) c :: ts) m) ->
  accounts (remove_lookup p key) (hold (TTx c :: ts) m).
Proof.
  intros [A1 A2 A3 A4 A5 A6 A7 A8 A9]. unfold hold in *.
  assert (Hk : p_lookups p !! key_id key = Some c).
  { specialize (A3 (key_id key) c). autorewrite with cnt in A3. rewrite decide_True in A3 by done.
    destruct (decide (p_lookups p !! key_id key = Some c)); [done|lia]. }
  unfold remove_lookup. rewrite Hk.
  assert (Hl : forall k c', delete (key_id key) (p_lookups p) !! k = Some c' <-> p_lookups p !! k = Some c' /\ c' <> c).
  { intros k c'. destruct (decide (key_id key = k)) as [<-|Hne].
    - rewrite lookup_delete_eq, Hk. split; [done|]. intros ([= ->] & ?). done.
    - rewrite lookup_delete_ne by done. split; [|tauto]. intros Hk'. split; [done|]. intros ->. by apply Hne, (A4 _ _ c). }
  split; cbn [p_in_flight p_lookups p_refreshing p_shadow p_cache p_policy p_channels p_next_chan set_channels set_lookups drop_sender]; try done.
  - intros k c'. specialize (A3 k c'). autorewrite with cnt in *. rewrite (decide_False (P := TTx c = _)) by done.
    destruct (decide (TLead (key_id key) c = TLead k c')) as [[= <- <-]|Hne].
    + rewrite Hk, decide_True in A3 by done. rewrite decide_False; [lia|]. rewrite lookup_delete_eq. done.
    + destruct (decide (p_lookups p !! k = Some c')) as [Hk'|Hk'].
      * rewrite decide_True; [done|]. apply Hl. split; [done|]. intros ->. apply Hne. f_equal. by apply (A4 _ _ c).
      * rewrite decide_False; [done|]. intros Hd. by apply Hl in Hd as [? _].
  - intros k k' c' Hd Hd'. apply Hl in Hd as [Hd _], Hd' as [Hd' _]. by apply (A4 _ _ c').
  - intros c'. specialize (A7 c'). unfold chan_ok in *. cbn [p_channels p_next_chan p_lookups set_channels set_lookups drop_sender].
    destruct (decide (c' = c)) as [->|Hne].
    + rewrite lookup_alter_eq. destruct (p_channels p !! c) as [ch|]; cbn; [|by destruct A7 as (_ & Hno & _); destruct (Hno (key_id key))].
      destruct A7 as (Hlt & [(k & _ & Hsent & Hsend & Ht & Hs)|(Hno & _)]); [|by destruct (Hno (key_id key))].
      split; [done|]. right. split; [intros k' Hd; by apply Hl in Hd as [_ ?]|]. left.
      autorewrite with cnt in *. rewrite decide_False in Ht by done. rewrite decide_False in Hs by done. rewrite decide_True, decide_False by done.
      cbn. rewrite Hsend. split; [done|]. split; [done|]. lia.
    + rewrite lookup_alter_ne by done. autorewrite with cnt in *. rewrite !decide_False in A7 by done.
      rewrite !decide_False by congruence. cbn [Nat.add] in *.
      destruct (p_channels p !! c') as [ch|].
      * destruct A7 as (Hlt & [(k & Hk' & Hrest)|(Hno & Hrest)]); (split; [done|]).
        -- left. exists k. split; [by apply Hl|done].
        -- right. split; [|done]. intros k Hd. apply Hl in Hd as [Hd _]. by destruct (Hno k).
      * destruct A7 as (Hle & Hno & Hrest). split; [done|]. split; [|done]. intros k Hd. apply Hl in Hd as [Hd _]. by destruct (Hno k).
Qed.

(** A step of the holder of channel [c]'s sender. *)
Lemma sender_accounts p ts m tok tok' c f :
  (tok = TTx c \/ tok = TSent c) -> (tok' = [] \/ (tok = TTx c /\ tok' = [TSent c])) ->
  (forall ch, p_channels p !! c = Some ch ->
     match tok' with
     | [] => ch_senders ch = 1%nat -> ch_senders (f ch) = 0%nat /\ ch_sent (f ch) = ch_sent ch
     | _ => ch_sent ch = [] -> length (ch_sent (f ch)) = 1%nat /\ ch_senders (f ch) = ch_senders ch
     end) ->
  accounts p (hold (tok :: ts) m) ->
  accounts (set_channels p (alter f c (p_channels p)) (p_next_chan p)) (hold (tok' ++ ts) m).
Proof.
  intros Htok Htok' Hf [A1 A2 A3 A4 A5 A6 A7 A8 A9]. unfold hold in *.
  assert (Hsame : forall x, x <> TTx c -> x <> TSent c -> cnt x (tok' ++ ts) = cnt x (tok :: ts)).
  { intros x H1' H2'. destruct Htok as [-> | ->], Htok' as [->|(Ht & ->)]; cbn [app]; autorewrite with cnt;
      rewrite ?decide_False by congruence; done. }
  split; cbn [p_in_flight p_lookups p_refreshing p_shadow p_cache p_policy p_channels p_next_chan set_channels];
    rewrite ?Hsame by done; try done.
  - intros k c'. rewrite Hsame by done. apply A3.
  - intros k. rewrite Hsame by done. apply A5.
  - intros c'. destruct (decide (c' = c)) as [->|Hne].
    + specialize (A7 c). unfold chan_ok in *. cbn [p_channels p_next_chan p_lookups set_channels set_lookups drop_sender]. rewrite lookup_alter_eq.
      destruct (p_channels p !! c) as [ch|]; cbn; autorewrite with cnt in A7;
        [|destruct A7 as (_ & _ & Ht & Hs); destruct Htok as [-> | ->]; count_tokens].
      specialize (Hf ch eq_refl).
      destruct A7 as (Hlt & [(k & _ & _ & _ & Ht & Hs)|(Hno & Hst)]);
        [destruct Htok as [-> | ->]; count_tokens|].
      split; [done|]. right. split; [done|].
      destruct Htok as [-> | ->], Htok' as [->|(Ht & ->)]; try done; cbn [app]; decide_tokens; cbn [Nat.add] in *.
      * destruct Hst as [(S1 & S2 & S3 & S4)|[(S1 & S2 & S3 & S4)|(S1 & S2 & S3 & S4)]]; [|lia|lia].
        destruct (Hf S2) as (F1 & F2). right; right. rewrite F1, F2, S1. cbn. lia.
      * destruct Hst as [(S1 & S2 & S3 & S4)|[(S1 & S2 & S3 & S4)|(S1 & S2 & S3 & S4)]]; [|lia|lia].
        destruct (Hf S1) as (F1 & F2). right; left. rewrite F1, F2, S2. lia.
      * destruct Hst as [(S1 & S2 & S3 & S4)|[(S1 & S2 & S3 & S4)|(S1 & S2 & S3 & S4)]]; [lia| |lia].
        destruct (Hf S2) as (F1 & F2). right; right. rewrite F1, F2. lia.
    + eapply (chan_other p _ _ _ c); [done|cbn; by rewrite lookup_alter_ne|done|done|..|apply A7];
        (rewrite Hsame; [done|congruence|congruence]).
Qed.

(** *** Every event keeps the accounts *)

Lemma accounts_neutral p p' n :
  accounts p n ->
  p_in_flight p' = p_in_flight p -> p_refreshing p' = p_refreshing p -> p_lookups p' = p_lookups p ->
  p_shadow p' = p_shadow p -> p_channels p' = p_channels p -> p_next_chan p' = p_next_chan p ->
  (exists a, stands_for (p_cache p') a) -> policy_ok (p_policy p') -> accounts p' n.
Proof.
  intros Hacc E1 E2 E3 E4 E5 E6 E7 E8. pose proof Hacc as [A1 A2 A3 A4 A5 A6 A7 A8 A9].
  eapply accounts_same_channels; try done; rewrite ?E1, ?E2, ?E4; done.
Qed.

(** [e] keeps the accounts, whatever tokens it is run with. *)
Definition accounted {B} (e : Ev B) : Prop := forall o p b p' ts ts' m,
  accounts p (hold ts m) -> exec o e p = Some (b, p') -> spend ts e b = Some ts' -> accounts p' (hold (passed e ++ ts') m).

(** The counters and sets one event can change, one goal each. *)
Ltac same_channels Hacc :=
  pose proof Hacc as [A1 A2 A3 A4 A5 A6 A7 A8 A9]; eapply accounts_no_channels;
  [exact Hacc| |reflexivity|reflexivity|reflexivity| | | | |exact A8|exact A9]; unfold hold in *;
  cbn [p_in_flight p_refreshing p_shadow set_in_flight set_refreshing set_shadow_state sh_permits passed spawned map concat app] in *;
  [intros [| |k c|c|c|k|]; try done|..].

Lemma fetch_add_accounted : accounted FetchAdd.
Proof.
  intros o p b p' ts ts' m Hacc [= <- <-] Hsp. destruct ts as [|t ts]; [|done]. cbn [spend] in Hsp. injection Hsp as <-.
  rewrite (acc_flight _ _ Hacc). unfold MAX_IN_FLIGHT_QUERIES. same_channels Hacc; try (destruct (_ <=? _); count_tokens; fail).
  - destruct (Z.leb_spec 512 (Z.of_nat (cnt TShed [] + m TShed + (cnt TAdmit [] + m TAdmit))%nat)); count_tokens.
  - intros k. rewrite <- A5. destruct (_ <=? _); count_tokens.
  - destruct (_ <=? _), (p_shadow p); count_tokens.
Qed.

Lemma fetch_sub_accounted : accounted FetchSub.
Proof.
  intros o p b p' ts ts' m Hacc [= <- <-] Hsp.
  assert (Hts : (ts = [TShed] \/ ts = [TAdmit]) /\ ts' = []).
  { destruct ts as [|[] []]; try done; injection Hsp as <-; auto. }
  clear Hsp. destruct Hts as (Hts & ->). same_channels Hacc; try (destruct Hts as [-> | ->]; count_tokens; fail).
  - intros k. rewrite <- A5. destruct Hts as [-> | ->]; count_tokens.
  - destruct Hts as [-> | ->], (p_shadow p); count_tokens.
Qed.

Lemma refresh_insert_accounted key : accounted (RefreshInsert key).
Proof.
  intros o p b p' ts ts' m Hacc [= <- <-] Hsp. cbn [spend] in Hsp. injection Hsp as <-. pose proof (acc_ref _ _ Hacc (key_id key)) as Ak.
  destruct (bool_decide (key_id key ∈ p_refreshing p)) eqn:Ek; cbn [negb].
  { apply bool_decide_eq_true in Ek. eapply accounts_neutral; [exact Hacc|..]; try apply Hacc; try done.
    cbn. apply leibniz_equiv. set_solver. }
  apply bool_decide_eq_false in Ek. rewrite decide_False in Ak by done. same_channels Hacc; try (count_tokens; fail).
  - intros k. specialize (A5 k). autorewrite with cnt. destruct (decide (TRef (key_id key) = TRef k)) as [[= <-]|Hne].
    + rewrite decide_True by set_solver. lia.
    + cbn [Nat.add]. rewrite A5. apply decide_ext. set_solver.
  - destruct (p_shadow p); count_tokens.
Qed.

Lemma refresh_remove_accounted key : accounted (RefreshRemove key).
Proof.
  intros o p b p' ts ts' m Hacc [= <- <-] Hsp. cbn [spend] in Hsp. destruct ts as [|[| | | | |k|] ts]; try done.
  destruct (bool_decide (k = key_id key)) eqn:Ek; [|done]. apply bool_decide_eq_true in Ek as ->. injection Hsp as <-.
  same_channels Hacc; try (count_tokens; fail).
  - intros k. specialize (A5 k). autorewrite with cnt in A5. destruct (decide (TRef (key_id key) = TRef k)) as [[= <-]|Hne].
    + rewrite decide_False by set_solver. destruct (decide _) in A5; lia.
    + cbn [Nat.add] in A5. rewrite A5. apply decide_ext. set_solver.
  - destruct (p_shadow p); count_tokens.
Qed.

Lemma try_acquire_accounted : accounted TryAcquire.
Proof.
  intros o p b p' ts ts' m Hacc Hex Hsp. cbn [exec spend] in *. unfold try_acquire in Hex.
  destruct (p_shadow p) as [s|] eqn:Es; cbn in Hex; [|by injection Hex as <- <-; injection Hsp as <-].
  destruct (Z.ltb_spec 0 (sh_permits s)); injection Hex as <- <-; injection Hsp as <-; [|by destruct p].
  pose proof (acc_permit _ _ Hacc) as Ap. rewrite Es in Ap. same_channels Hacc; try (count_tokens; fail).
  - intros k. rewrite <- A5. count_tokens.
Qed.

Lemma release_accounted : accounted Release.
Proof.
  intros o p b p' ts ts' m Hacc [= <- <-] Hsp. destruct ts as [|[] ts]; try done. cbn [spend] in Hsp. injection Hsp as <-.
  same_channels Hacc; try (count_tokens; fail).
  - intros k. rewrite <- A5. count_tokens.
  - destruct (p_shadow p) as [s|]; cbn; count_tokens.
Qed.

Lemma cache_accounted p ts m c : accounts p (hold ts m) -> (exists a, stands_for c a) -> accounts (set_cache p c) (hold ts m).
Proof. intros Hacc Hc. eapply accounts_neutral; [exact Hacc|..]; try done. apply Hacc. Qed.

Lemma drop_sender_accounted tx : accounted (DropSender tx).
Proof.
  intros o p b p' ts ts' m Hacc [= <- <-] Hsp. cbn [spend] in Hsp.
  assert (Hts : exists tok, (tok = TTx tx \/ tok = TSent tx) /\ ts = tok :: ts').
  { destruct ts as [|[| | |c|c| |] ts]; try done;
      (destruct (bool_decide (c = tx)) eqn:Ec; [|done]; apply bool_decide_eq_true in Ec as ->; injection Hsp as <-);
      eexists; split; [by left|done|by right|done]. }
  destruct Hts as (tok & Htok & ->). apply (sender_accounts p ts' m tok []); [done|by left| |done].
  intros ch _ Hs. cbn. by rewrite Hs.
Qed.

Lemma send_accounted tx v : accounted (Send tx v).
Proof.
  intros o p b p' ts ts' m Hacc [= <- <-] Hsp. destruct ts as [|[| | |c| | |] ts]; try done. cbn [spend] in Hsp.
  destruct (bool_decide (c = tx)) eqn:Ec; [|done]. apply bool_decide_eq_true in Ec as ->. injection Hsp as <-.
  apply (sender_accounts p ts m (TTx tx) [TSent tx]); [by left|by right| |done].
  intros ch _ Hs. cbn. by rewrite Hs.
Qed.

Lemma remove_lookup_accounted key : accounted (RemoveLookup key).
Proof.
  intros o p b p' ts ts' m Hacc [= <- <-] Hsp. destruct ts as [|[| |k c| | | |] ts]; try done. cbn [spend] in Hsp.
  destruct (bool_decide (k = key_id key)) eqn:Ek; [|done]. apply bool_decide_eq_true in Ek as ->.
  injection Hsp as <-. by apply remove_accounts.
Qed.

Lemma join_lookup_accounted key : accounted (JoinLookup key).
Proof.
  intros o p [rx lead] p' ts ts' m Hacc Hex Hsp. cbn [exec spend snd] in *. injection Hex as Hj.
  apply (join_accounts p ts m) in Hj as (Hj & _); [|done]. destruct lead as [tx|]; injection Hsp as <-; exact Hj.
Qed.

Lemma spawn_accounted t : accounted (SpawnTask t).
Proof.
  intros o p b p' ts ts' m Hacc [= <- <-] Hsp. destruct ts as [|x ts]; [done|]. cbn [spend] in Hsp.
  destruct (bool_decide (task_tokens t = [x])) eqn:Et; [|done]. apply bool_decide_eq_true in Et. injection Hsp as <-.
  unfold passed. cbn [spawned map concat]. by rewrite Et.
Qed.

Lemma exec_accounts o B (e : Ev B) p b p' ts ts' m :
  accounts p (hold ts m) -> exec o e p = Some (b, p') -> spend ts e b = Some ts' ->
  accounts p' (hold (passed e ++ ts') m).
Proof.
  intros Hacc Hex Hsp. pose proof (acc_cache _ _ Hacc) as (a & Ha).
  destruct e; try (cbn in Hex; injection Hex as <- <-; cbn in Hsp; injection Hsp as <-;
    apply (accounts_neutral p); [exact Hacc|reflexivity..|apply Hacc|apply Hacc]).
  - by eapply fetch_add_accounted.
  - by eapply fetch_sub_accounted.
  - cbn in Hex, Hsp. destruct (get_stands_for _ _ key now Ha) as (s' & E & Hs'). rewrite E in Hex.
    injection Hex as <- <-. injection Hsp as <-. apply cache_accounted; [done|by eexists].
  - cbn in Hex, Hsp. destruct (insert_stands_for _ _ key m0 now Ha) as (s' & E & Hs'). rewrite E in Hex.
    injection Hex as <- <-. injection Hsp as <-. apply cache_accounted; [done|by eexists].
  - by eapply join_lookup_accounted.
  - by eapply remove_lookup_accounted.
  - by eapply send_accounted.
  - by eapply drop_sender_accounted.
  - cbn in Hex, Hsp. destruct (p_channels p !! rx_chan rx) as [ch|]; [|done]. cbn in Hex. destruct (recv ch (rx_from rx)); [|done].
    injection Hex as <- <-. injection Hsp as <-. exact Hacc.
  - by eapply refresh_insert_accounted.
  - by eapply refresh_remove_accounted.
  - by eapply try_acquire_accounted.
  - by eapply release_accounted.
  - by eapply spawn_accounted.
Qed.

Lemma exec_next_chan o B (e : Ev B) p b p' :
  exec o e p = Some (b, p') -> (p_next_chan p <= p_next_chan p')%nat.
Proof.
  destruct e; cbn [exec]; try (intros [= <- <-]; done).
  - destruct (get _ _ _) as [[l c]|]; [|done]. by intros [= <- <-].
  - destruct (Cache.insert _ _ _ _) as [c|]; [|done]. by intros [= <- <-].
  - unfold join_lookup. destruct (_ !! _); intros [= <- <-]; cbn; lia.
  - intros [= <- <-]. unfold remove_lookup. by destruct (_ !! _).
  - destruct (p_channels p !! _) as [ch|]; [|done]. cbn. destruct (recv _ _); [|done]. by intros [= <- <-].
  - destruct (s ← p_shadow p; try_acquire s); by intros [= <- <-].
Qed.

Lemma exec_learn o B (e : Ev B) p b p' n :
  accounts p n -> exec o e p = Some (b, p') -> Forall (fun c => (c < p_next_chan p')%nat) (learn e b).
Proof.
  intros Hacc. destruct e; cbn [exec learn]; try (intros _; by apply List.Forall_nil).
  destruct b as [rx lead]. intros [= Hj].
  apply (join_accounts p [] n) in Hj as (_ & Hlt & _); [|done]. by repeat constructor.
Qed.

(** Only an await can keep a task waiting. *)
Definition is_recv {B} (e : Ev B) : bool := match e with Recv _ => true | _ => false end.

Lemma exec_enabled B (e : Ev B) p n :
  accounts p n -> is_recv e = false -> exists o b p', exec o e p = Some (b, p').
Proof.
  intros Hacc Hr. destruct (acc_cache _ _ Hacc) as (a & Ha).
  exists (mkOracle 0 0 NoUpstream None). destruct e; cbn [exec]; try done; try by eexists _, _.
  - destruct (get_stands_for _ _ key now Ha) as (s' & -> & _). by eexists _, _.
  - destruct (insert_stands_for _ _ key m now Ha) as (s' & -> & _). by eexists _, _.
  - destruct (join_lookup p key) as [r p']. by eexists _, _.
  - destruct (s ← p_shadow p; try_acquire s); by eexists _, _.
Qed.
End Accounts.
