(* ===== verification/ServerLiveness.v ===== *)
(** * ServerLiveness: every query is answered

    The invariant of reachable configurations, the bound on the work left
    in each tree, progress, and the theorems about the running server. *)
From S2P Require Import Prelude Text Time IpAddr FilterTypes Engine Dns Cache CacheSpec FailCache SafeSearch Shadow Db Proc Pipeline Server ServerSpec Scheduler SchedulerSpec.

Section Bounds.
Context `{HickoryOps} `{HashIter} `{IpNetOps} `{RcodeDisplay}.

(** A spawned task performs at most 7 events and ends. *)
Definition task_cost : nat := 8.
Definition weight (B : Type) (e : Ev B) : nat := match spawned e with [] => 0%nat | _ => task_cost end.
Definition handler_cost : nat := 48.

Lemma bounded_event {B C} n (e : Ev B) (f : B -> Proc Ev C) :
  (S (weight B e) <= n)%nat -> (forall b, bounded weight (n - S (weight B e)) (f b)) -> bounded weight n (event e ≫= f).
Proof. intros Hle Hf. exact (conj Hle Hf). Qed.

Lemma bounded_last {B} n (e : Ev B) : (S (weight B e) <= n)%nat -> bounded weight n (event e).
Proof. intros Hle. exact (conj Hle (fun _ => I)). Qed.

Lemma bounded_then {A C} n m (p : Proc Ev A) (f : A -> Proc Ev C) :
  (n <= m)%nat -> bounded weight n p -> (forall a, bounded weight (m - n) (f a)) -> bounded weight m (p ≫= f).
Proof. intros Hle Hp Hf. replace m with (n + (m - n))%nat by lia. by apply bounded_bind. Qed.

Lemma finish_bounded n l resp started : (2 <= n)%nat -> bounded weight n (finish l resp started).
Proof.
  intros Hn. apply bounded_event; [cbn; lia|]. intros t. apply bounded_event; [cbn; lia|]. done.
Qed.

Lemma shadow_tap_bounded n request resp b qname qtype : (11 <= n)%nat -> bounded weight n (shadow_tap request resp b qname qtype).
Proof.
  intros Hn. apply bounded_event; [cbn; lia|]. intros []; [|done]. apply bounded_event; [cbn; lia|].
  intros []; [|done]. apply bounded_last. unfold weight, task_cost. cbn. lia.
Qed.

Lemma settle_bounded n key m now : (2 <= n)%nat -> bounded weight n (settle key m now).
Proof.
  intros Hn. unfold settle. destruct (_ =? _); (apply bounded_event; [cbn; lia|]); intros b; [done|].
  apply bounded_last. cbn. lia.
Qed.

Lemma task_bounded t : bounded weight 7 (task_body t).
Proof.
  destruct t as [req qname key now tx|req key|req ours blocked qname qtype]; cbn [task_body].
  - apply bounded_event; [cbn; lia|]. intros r.
    assert (Hend : forall n (p : Proc Ev (option Message)), (n <= 3)%nat -> bounded weight n p ->
      bounded weight 6 (answer ← p; _ ← event (RemoveLookup key); _ ← event (Send tx answer); event (DropSender tx))).
    { intros n p Hn Hp. apply (bounded_then n); [lia|done|]. intros a. apply bounded_event; [cbn; lia|]. intros _.
      apply bounded_event; [cbn; lia|]. intros _. apply bounded_last. cbn. lia. }
    destruct r as [m| |].
    + apply (Hend 2%nat); [lia|]. apply (bounded_then 2); [lia|by apply settle_bounded|done].
    + apply (Hend 1%nat); [lia|]. apply bounded_event; [cbn; lia|done].
    + apply bounded_event; [cbn; lia|]. intros _. apply bounded_last. cbn. lia.
  - apply bounded_event; [cbn; lia|]. intros now. apply bounded_event; [cbn; lia|].
    intros [h|]; [apply bounded_last; cbn; lia|]. apply bounded_event; [cbn; lia|]. intros r.
    apply (bounded_then 2); [cbn; lia| |intros _; apply bounded_last; cbn; lia].
    destruct r as [m| |]; [by apply settle_bounded|apply bounded_event; [cbn; lia|done]|done].
  - unfold compare_task, reference_query. destruct (to_vec req) as [bytes|]; [|apply bounded_last; cbn; lia].
    apply (bounded_then 1); [lia|by apply bounded_event; [cbn; lia|]|].
    intros [theirs|]; [|apply bounded_last; cbn; lia].
    destruct (classify ours blocked theirs) as [[[a b] c]|]; [|apply bounded_last; cbn; lia].
    apply bounded_event; [cbn; lia|]. intros ts. apply bounded_event; [cbn; lia|]. intros ok. apply bounded_last. cbn. lia.
Qed.

Lemma resolve_cached_bounded n request qname qtype now :
  (14 <= n)%nat -> bounded weight n (resolve_cached request qname qtype now).
Proof.
  intros Hn. unfold resolve_cached. destruct (name_from_ascii qname) as [name|]; [|done].
  apply bounded_event; [cbn; lia|]. intros [m|m|]; [done| |].
  - apply (bounded_then 10); [cbn; lia| |done]. apply bounded_event; [cbn; lia|]. intros []; [|done].
    apply bounded_last. unfold weight, task_cost. cbn. lia.
  - apply bounded_event; [cbn; lia|]. intros [h|]; [done|]. apply bounded_event; [cbn; lia|]. intros [rx lead].
    apply (bounded_then 9); [cbn; lia| |].
    + destruct lead; [|done]. apply bounded_last. unfold weight, task_cost. cbn. lia.
    + intros _. apply bounded_event; [cbn; lia|]. by intros [[m|]|].
Qed.

Lemma answer_safesearch_bounded n request qname qtype target now :
  (14 <= n)%nat -> bounded weight n (answer_safesearch request qname qtype target now).
Proof.
  intros Hn. unfold answer_safesearch.
  destruct (name_from_ascii (qname ++ _)) as [a|]; [|done]. destruct (name_from_ascii (target ++ _)) as [t|]; [|done].
  apply (bounded_then 14); [done|by apply resolve_cached_bounded|]. intros [r src]. by destruct (_ =? _).
Qed.

Lemma block_bounded n request l started qname qtype : (13 <= n)%nat -> bounded weight n (block request l started qname qtype).
Proof.
  intros Hn. unfold block. apply (bounded_then 0); [lia|by destruct (synth_block_response request)|]. intros m.
  apply (bounded_then 2); [lia|by apply finish_bounded|]. intros _.
  apply (bounded_then 11); [lia|by apply shadow_tap_bounded|done].
Qed.

Lemma answer_unblocked_bounded n pol request l started qname qtype now :
  (27 <= n)%nat -> bounded weight n (answer_unblocked pol request l started qname qtype now).
Proof.
  intros Hn. unfold answer_unblocked. destruct (SafeSearch.rewrite _ _) as [target|].
  - apply (bounded_then 14); [lia|by apply answer_safesearch_bounded|]. intros r.
    apply (bounded_then 2); [lia|by apply finish_bounded|done].
  - apply (bounded_then 14); [lia|by apply resolve_cached_bounded|]. intros [r src].
    apply (bounded_then 0); [lia|destruct (bool_decide _); [done|by destruct (blocked_cname_target _ _)]|].
    intros [[[t i] rule]|]; [apply block_bounded; lia|].
    apply (bounded_then 2); [lia|by apply finish_bounded|]. intros _.
    apply (bounded_then 11); [lia|by apply shadow_tap_bounded|done].
Qed.

Lemma handle_at_bounded request client now : bounded weight handler_cost (handle_at request client now).
Proof.
  unfold handler_cost, handle_at. apply bounded_event; [cbn; lia|]. intros prev.
  apply (bounded_then 46); [cbn; lia| |intros r; apply bounded_event; [cbn; lia|done]].
  apply bounded_event; [cbn; lia|]. intros started. apply bounded_event; [cbn; lia|]. intros ts.
  destruct (_ <=? _).
  { apply (bounded_then 2); [cbn; lia|by apply finish_bounded|done]. }
  destruct (Dns.queries request) as [|q qs].
  { apply (bounded_then 2); [cbn; lia|by apply finish_bounded|done]. }
  apply bounded_event; [cbn; lia|]. intros pol.
  destruct (negb _); [apply (bounded_then 2); [cbn; lia|by apply finish_bounded|done]|].
  destruct (_ =? _); [apply (bounded_then 2); [cbn; lia|by apply finish_bounded|done]|].
  apply (bounded_then 0); [lia|by destruct (verdict _ _)|].
  intros [|lst rule|lst rule]; [apply answer_unblocked_bounded|apply block_bounded|apply answer_unblocked_bounded]; cbn; lia.
Qed.

(** Tasks never await a channel, nor log a query. *)
Definition for_queries {B} (e : Ev B) : bool := match e with Recv _ | Log (LQuery _) => true | _ => false end.
Definition never_waits {A} (p : Proc Ev A) : Prop := all_events (fun B e => for_queries e = false) p.

Lemma never_waits_event {B C} (e : Ev B) (f : B -> Proc Ev C) :
  for_queries e = false -> (forall b, never_waits (f b)) -> never_waits (event e ≫= f).
Proof. intros He Hf. exact (conj He Hf). Qed.
Lemma never_waits_bind {A C} (p : Proc Ev A) (f : A -> Proc Ev C) :
  never_waits p -> (forall a, never_waits (f a)) -> never_waits (p ≫= f).
Proof. apply all_events_bind. Qed.
Lemma never_waits_last {B} (e : Ev B) : for_queries e = false -> never_waits (event e).
Proof. intros He. exact (conj He (fun _ => I)). Qed.

Lemma task_never_waits t : never_waits (task_body t).
Proof.
  assert (Hsettle : forall key m now, never_waits (settle key m now)).
  { intros key m now. unfold settle. destruct (_ =? _); (apply never_waits_event; [done|]); intros b; [done|by apply never_waits_last]. }
  destruct t as [req qname key now tx|req key|req ours blocked qname qtype]; cbn [task_body].
  - apply never_waits_event; [done|]. intros r.
    assert (Hend : forall p : Proc Ev (option Message), never_waits p ->
      never_waits (answer ← p; _ ← event (RemoveLookup key); _ ← event (Send tx answer); event (DropSender tx))).
    { intros p Hp. apply never_waits_bind; [done|]. intros a. do 2 (apply never_waits_event; [done|]; intros _).
      by apply never_waits_last. }
    destruct r as [m| |].
    + apply (Hend (_ ← settle key m now; Ret (Some m))). by apply never_waits_bind.
    + apply (Hend (_ ← event (FailRecord key now); Ret None)). by apply never_waits_event.
    + apply never_waits_event; [done|]. intros _. by apply never_waits_last.
  - do 2 (apply never_waits_event; [done|]; intros ?). destruct b0 as [h|]; [by apply never_waits_last|].
    apply never_waits_event; [done|]. intros r. apply never_waits_bind; [|intros _; by apply never_waits_last].
    destruct r; [apply Hsettle|by apply never_waits_event|done].
  - unfold compare_task, reference_query. destruct (to_vec req) as [bytes|]; [|by apply never_waits_last].
    apply never_waits_bind; [by apply never_waits_event|]. intros [theirs|]; [|by apply never_waits_last].
    destruct (classify ours blocked theirs) as [[[a b] c]|]; [|by apply never_waits_last].
    do 2 (apply never_waits_event; [done|]; intros ?). by apply never_waits_last.
Qed.
End Bounds.

(** ** The invariant *)
Section Invariant.
Context `{HickoryOps} `{HashIter} `{IpNetOps} `{RcodeDisplay}.

(** What is known of a task: the channels it heard of, the tokens it
    holds, a bound on what it still does. *)
Record Slot := mkSlot { s_rs : list Chan; s_ts : list Token; s_n : nat }.

Definition thread_ok {A} (next : Chan) (p : Proc Ev A) (s : Slot) : Prop :=
  owns (s_rs s) (s_ts s) p owes_nothing /\ bounded weight (s_n s) p /\ Forall (fun c => (c < next)%nat) (s_rs s).

Definition client_ok (next : Chan) (c : Client) (s : Slot) : Prop :=
  thread_ok next (cl_code c) s /\ all_results (reply_ok (cl_request c)) (cl_code c) /\ grounded (s_ts s).
Definition task_ok (next : Chan) (t : Task * Proc Ev unit) (s : Slot) : Prop :=
  thread_ok next (snd t) s /\ never_waits (snd t) /\ keeps (task_tokens (fst t)) (s_ts s) (snd t).

Definition tokens (ss : list Slot) : list Token := concat (map s_ts ss).
Definition work_left (ss : list Slot) : nat := foldr (fun s n => S (s_n s) + n)%nat 0%nat ss.

Record inv (c : Config) (cs ts : list Slot) : Prop := {
  inv_clients : all2 (client_ok (p_next_chan (g_pipe c))) (g_clients c) cs;
  inv_tasks : all2 (task_ok (p_next_chan (g_pipe c))) (g_tasks c) ts;
  inv_accounts : accounts (g_pipe c) (fun x => cnt x (tokens cs ++ tokens ts));
  inv_replies : Forall (fun rm => reply_ok (fst rm) (snd rm)) (g_replies c);
  inv_count : g_arrived c = (length (g_clients c) + length (g_replies c) + g_cancelled c)%nat
}.

Lemma tokens_app a b : tokens (a ++ b) = tokens a ++ tokens b.
Proof. unfold tokens. by rewrite map_app, concat_app. Qed.
Lemma tokens_cons s b : tokens (s :: b) = s_ts s ++ tokens b.
Proof. done. Qed.
Lemma work_left_cons s b : work_left (s :: b) = (S (s_n s) + work_left b)%nat.
Proof. done. Qed.
#[local] Arguments work_left : simpl never.
#[local] Arguments tokens : simpl never.
Lemma work_left_app a b : work_left (a ++ b) = (work_left a + work_left b)%nat.
Proof. induction a as [|s a IH]; cbn [app]; [done|]. rewrite !work_left_cons, IH. lia. Qed.

Lemma thread_ok_later {A} next next' (p : Proc Ev A) s : (next <= next')%nat -> thread_ok next p s -> thread_ok next' p s.
Proof. intros Hle (Ho & Hb & Hr). split; [done|]. split; [done|]. eapply Forall_impl; [exact Hr|]. cbn. lia. Qed.

Lemma clients_later next next' cl cs : (next <= next')%nat -> all2 (client_ok next) cl cs -> all2 (client_ok next') cl cs.
Proof. intros Hle. apply all2_impl. intros c s (Ht & Hr). split; [by eapply thread_ok_later|done]. Qed.
Lemma tasks_later next next' ps ts : (next <= next')%nat -> all2 (task_ok next) ps ts -> all2 (task_ok next') ps ts.
Proof. intros Hle. apply all2_impl. intros c s (Ht & Hr). split; [by eapply thread_ok_later|done]. Qed.

(** One event of one thread. *)
Lemma thread_step {A} o B (e : Ev B) (k : B -> Proc Ev A) p b p' s m :
  thread_ok (p_next_chan p) (Vis e k) s -> accounts p (hold (s_ts s) m) -> exec o e p = Some (b, p') ->
  exists s', thread_ok (p_next_chan p') (k b) s' /\ accounts p' (hold (passed e ++ s_ts s') m)
    /\ (s_n s' + S (weight B e) <= s_n s)%nat /\ spend (s_ts s) e b = Some (s_ts s').
Proof.
  intros ((Hw & Hk) & (Hn & Hb) & Hr) Hacc Hex.
  pose proof (exec_answer _ _ _ _ _ _ _ Hacc Hex) as Hans. specialize (Hk b Hans).
  destruct (spend (s_ts s) e b) as [ts'|] eqn:Es; [|done].
  exists (mkSlot (learn e b ++ s_rs s) ts' (s_n s - S (weight B e))). split; [|split].
  - split; [done|]. split; [apply Hb|]. cbn. apply Forall_app. split.
    + by eapply exec_learn.
    + pose proof (exec_next_chan _ _ _ _ _ _ Hex). eapply Forall_impl; [exact Hr|]. cbn. lia.
  - by eapply exec_accounts.
  - cbn. split; [lia|done].
Qed.

(** The tasks an event spawns. *)
Definition slot_of (t : Task) : Slot := mkSlot [] (task_tokens t) 7.

Lemma spawned_ok next {B} (e : Ev B) :
  all2 (task_ok next) (map start_task (spawned e)) (map slot_of (spawned e))
  /\ tokens (map slot_of (spawned e)) = passed e
  /\ (work_left (map slot_of (spawned e)) <= weight B e)%nat.
Proof.
  assert (Hall : forall l : list Task, all2 (task_ok next) (map start_task l) (map slot_of l)).
  { intros l. induction l as [|t l IH]; cbn; [done|]. split; [|done]. split; [|split; [apply task_never_waits|apply task_keeps]].
    split; [apply task_owns|]. split; [apply task_bounded|constructor]. }
  split; [apply Hall|]. split; [unfold tokens, passed; by rewrite map_map|].
  destruct e; unfold work_left, weight, task_cost; cbn; lia.
Qed.

(** Re-arranging who holds what. *)
Lemma accounts_swap p n n' : accounts p n -> (forall x, n x = n' x) -> accounts p n'.
Proof. intros Ha Hn. by eapply accounts_ext. Qed.

Lemma work_inv c c' cs ts :
  inv c cs ts -> work c c' ->
  exists cs' ts', inv c' cs' ts' /\ (work_left cs' + work_left ts' < work_left cs + work_left ts)%nat.
Proof.
  intros [Ic It Ia Ir Ik] Hw. destruct Hw as [o p p' pre post r B e k b tl rs n m Hex|p pre post r resp tl rs n m
    |o p p' pre post t B e k b cl rs n m Hex|p pre post t cl rs n m]; cbn in *.
  - apply all2_middle in Ic as (c1 & s & c3 & -> & I1 & (Hth & Hres & Hgr) & I3).
    set (rest := fun x => (cnt x (tokens c1) + cnt x (tokens c3) + cnt x (tokens ts))%nat).
    assert (Hacc : accounts p (hold (s_ts s) rest)).
    { eapply accounts_swap; [exact Ia|]. intros x. unfold hold, rest. rewrite tokens_app, tokens_cons, !cnt_app. lia. }
    destruct (thread_step _ _ _ _ _ _ _ _ _ Hth Hacc Hex) as (s' & Hth' & Hacc' & Hn & Hsp).
    pose proof (exec_next_chan _ _ _ _ _ _ Hex) as Hnext.
    destruct (spawned_ok (p_next_chan p') e) as (S1 & S2 & S3).
    exists (c1 ++ s' :: c3), (map slot_of (spawned e) ++ ts). split.
    + split; cbn.
      * apply all2_app; [by eapply clients_later|]. split; [|by eapply clients_later].
        split; [done|]. split; [apply Hres|]. destruct Hth as (Hown & _). pose proof (proj1 Hown) as Hact. cbn in Hact. by apply (spend_grounded _ _ _ _ _ Hact Hsp).
      * apply all2_app; [done|by eapply tasks_later].
      * eapply accounts_swap; [exact Hacc'|]. intros x. unfold hold, rest.
        rewrite !tokens_app, tokens_cons, S2, !cnt_app. lia.
      * done.
      * rewrite Ik, !length_middle. cbn. lia.
    + rewrite !work_left_app, ?work_left_cons. lia.
  - apply all2_middle in Ic as (c1 & s & c3 & -> & I1 & (Hth & Hres & Hgr) & I3).
    exists (c1 ++ c3), ts. split.
    + destruct Hth as (Hown & _). cbn in Hown. unfold owes_nothing in Hown.
      split; cbn; [by apply all2_app|done| |constructor; [exact Hres|done]|rewrite Ik, !length_middle; cbn; lia].
      eapply accounts_swap; [exact Ia|]. intros x. rewrite !tokens_app, tokens_cons, Hown, !cnt_app, cnt_nil. lia.
    + rewrite !work_left_app, ?work_left_cons. lia.
  - apply all2_middle in It as (t1 & s & t3 & -> & I1 & (Hth & Hnw & Hkeep) & I3).
    set (rest := fun x => (cnt x (tokens cs) + cnt x (tokens t1) + cnt x (tokens t3))%nat).
    assert (Hacc : accounts p (hold (s_ts s) rest)).
    { eapply accounts_swap; [exact Ia|]. intros x. unfold hold, rest. rewrite tokens_app, tokens_cons, !cnt_app. lia. }
    destruct (thread_step _ _ _ _ _ _ _ _ _ Hth Hacc Hex) as (s' & Hth' & Hacc' & Hn & Hsp).
    pose proof (exec_next_chan _ _ _ _ _ _ Hex) as Hnext.
    destruct (spawned_ok (p_next_chan p') e) as (S1 & S2 & S3).
    exists cs, (map slot_of (spawned e) ++ t1 ++ s' :: t3). split.
    + split; cbn; [by eapply clients_later| | |done|done].
      * apply all2_app; [done|]. apply all2_app; [by eapply tasks_later|]. split; [|by eapply tasks_later].
        split; [done|]. split; [apply Hnw|]. cbn [fst snd] in *. destruct Hkeep as (_ & Hkeep). specialize (Hkeep b).
        by rewrite Hsp in Hkeep.
      * eapply accounts_swap; [exact Hacc'|]. intros x. unfold hold, rest.
        rewrite !tokens_app, tokens_cons, S2, !cnt_app. lia.
    + rewrite !work_left_app, ?work_left_cons. lia.
  - apply all2_middle in It as (t1 & s & t3 & -> & I1 & (Hth & Hnw & Hkeep) & I3).
    exists cs, (t1 ++ t3). split.
    + destruct Hth as (Hown & _). cbn in Hown. unfold owes_nothing in Hown.
      split; cbn; [done|by apply all2_app| |done|done].
      eapply accounts_swap; [exact Ia|]. intros x. rewrite !tokens_app, tokens_cons, Hown, !cnt_app, cnt_nil. lia.
    + rewrite !work_left_app, ?work_left_cons. lia.
Qed.

Lemma outside_inv c c' cs ts :
  static_names_ok -> inv c cs ts -> outside c c' -> exists cs' ts', inv c' cs' ts'.
Proof.
  intros Hnames [Ic It Ia Ir Ik] Ho.
  destruct Ho as [p cl tl rs n m request client now|p pre post r rx k tl rs n m|p pol cl tl rs n m Hpol|p w cl tl rs n m]; cbn in *.
  - exists (mkSlot [] [] handler_cost :: cs), ts. split; cbn [g_pipe g_clients g_tasks g_replies g_arrived g_cancelled length]; [|done|done|done|lia]. split; [|done].
    split; cbn [cl_code cl_request].
    + split; [by apply handle_at_owns|]. split; [apply handle_at_bounded|constructor].
    + split; [apply handle_at_ok|by left].
  - apply all2_middle in Ic as (c1 & s & c3 & -> & I1 & (Hth & _) & I3).
    exists (c1 ++ c3), ts. destruct Hth as (((_ & _ & Hts) & _) & _). split; cbn.
    + by apply all2_app.
    + done.
    + pose proof Ia as [A1 A2 A3 A4 A5 A6 A7 A8 A9].
      assert (Hcnt : forall x, cnt x (tokens (c1 ++ s :: c3) ++ tokens ts)
        = ((if decide (TAdmit = x) then 1 else 0) + cnt x (tokens (c1 ++ c3) ++ tokens ts))%nat).
      { intros x. rewrite !tokens_app, tokens_cons, Hts, !cnt_app, cnt_cons, cnt_nil. lia. }
      assert (Hother : forall x, x <> TAdmit -> cnt x (tokens (c1 ++ c3) ++ tokens ts) = cnt x (tokens (c1 ++ s :: c3) ++ tokens ts))
        by (intros x Hx; rewrite Hcnt, decide_False by done; lia).
      eapply accounts_same_channels; [exact Ia| | | |intros; by apply Hother|intros; by apply Hother|intros; by apply Hother|..]; try done; cbn.
      * rewrite A1, (Hother TShed) by done. rewrite (Hcnt TAdmit), decide_True by done. lia.
      * rewrite (Hcnt TAdmit), decide_True in A2 by done. lia.
      * intros k'. rewrite Hother by done. apply A5.
      * rewrite Hother by done. done.
    + done.
    + rewrite Ik, !length_middle. cbn. lia.
  - exists cs, ts. split; cbn; try done. eapply accounts_neutral; [exact Ia|..]; try done. apply (acc_cache _ _ Ia).
  - exists cs, ts. split; cbn; try done. eapply accounts_neutral; [exact Ia|..]; try done; [apply (acc_cache _ _ Ia)|apply (acc_policy _ _ Ia)].
Qed.

(** A pipeline as the daemon starts it. *)
Definition starts (p : Pipeline) : Prop :=
  (exists policy cache writer a, (p = from_policy policy cache writer \/ p = set_shadow (from_policy policy cache writer))
     /\ stands_for cache a /\ policy_ok policy)
  /\ static_names_ok.

Lemma start_inv p : starts p -> inv (config_new p) [] [].
Proof.
  intros ((policy & cache & writer & a & Hp & Ha & Hpol) & _). split; cbn; [done|done| |constructor|done].
  assert (Hchan : forall c, chan_ok (from_policy policy cache writer) (fun x => cnt x (tokens [] ++ tokens [])) c).
  { intros c. unfold chan_ok. cbn. rewrite lookup_empty. split; [lia|]. split; [|done]. intros k. by rewrite lookup_empty. }
  assert (Hbase : accounts (from_policy policy cache writer) (fun x => cnt x (tokens [] ++ tokens []))).
  { split; cbn; try done.
    by exists a. }
  destruct Hp as [-> | ->]; [done|]. pose proof Hbase as [B1 B2 B3 B4 B5 B6 B7 B8 B9].
  eapply accounts_same_channels; [exact Hbase|..]; try done.
Qed.

Lemma reachable_inv p c : starts p -> reachable p c -> exists cs ts, inv c cs ts.
Proof.
  intros Hs (n & Hr). assert (Hi : exists cs ts, inv (config_new p) cs ts) by (eexists _, _; by apply start_inv).
  revert Hi. induction Hr as [c|n c c' c'' Hstep Hr IH]; [done|]. intros (cs & ts & Hi). apply IH.
  destruct Hstep as [Hw|Ho].
  - destruct (work_inv _ _ _ _ Hi Hw) as (cs' & ts' & Hi' & _). by exists cs', ts'.
  - eapply outside_inv; [apply Hs|done|done].
Qed.

(** ** Progress *)

(** A thread that is not waiting can move. *)
Lemma thread_moves {A} next (p : Proc Ev A) s pipe n :
  thread_ok next p s -> accounts pipe n ->
  (exists a, p = Ret a) \/ (exists B e (k : B -> Proc Ev A) o b pipe', p = Vis e k /\ exec o e pipe = Some (b, pipe'))
  \/ (exists rx k, p = Vis (Recv rx) k /\ rx_chan rx ∈ s_rs s /\ rx_from rx = 0%nat /\ s_ts s = [TAdmit]).
Proof.
  intros (Ho & _) Hacc. destruct p as [a|B e k|]; [left; by exists a| |done]. right.
  destruct (is_recv e) eqn:Er.
  - right. destruct e; try done. destruct Ho as ((H1' & H2' & H3') & _). by eexists _, _.
  - left. destruct (exec_enabled _ _ _ _ Hacc Er) as (o & b & pipe' & Hex). by eexists _, _, _, o, b, pipe'.
Qed.

Lemma client_moves c cs ts pre cl post s :
  inv c cs ts -> g_clients c = pre ++ cl :: post -> client_ok (p_next_chan (g_pipe c)) cl s ->
  (exists c', work c c') \/ (exists rx k, cl_code cl = Vis (Recv rx) k /\ rx_chan rx ∈ s_rs s /\ rx_from rx = 0%nat /\ s_ts s = [TAdmit]).
Proof.
  intros Hi Hc (Hth & _). destruct c as [p cl0 tl rs n m], cl as [r code]. cbn in *. subst cl0.
  destruct (thread_moves _ _ _ _ _ Hth (inv_accounts _ _ _ Hi)) as [(a & ->)|[(B & e & k & o & b & p' & -> & Hex)|Hwait]].
  - left. eexists. apply w_reply.
  - left. eexists. by eapply w_client.
  - by right.
Qed.

Lemma token_holder x ss : (0 < cnt x (tokens ss))%nat -> exists s, s ∈ ss /\ x ∈ s_ts s.
Proof.
  induction ss as [|s ss IH]; [change (tokens []) with (@nil Token); rewrite cnt_nil; lia|]. rewrite tokens_cons, cnt_app. intros Hc.
  destruct (decide (0 < cnt x (s_ts s))%nat) as [Hs|Hs].
  - exists s. split; [by left|by apply cnt_pos].
  - destruct IH as (s' & Hin & Hx); [lia|]. exists s'. split; [by right|done].
Qed.

Lemma progress c cs ts : inv c cs ts -> (g_clients c = [] /\ g_tasks c = []) \/ exists c', work c c'.
Proof.
  intros Hi. pose proof Hi as [Ic It Ia Ir Ik]. destruct (g_tasks c) as [|t tl] eqn:Et.
  2:{ right. destruct ts as [|s ts']; [done|]. destruct t as [t code]. destruct It as ((Hth & Hnw & _) & _). destruct c as [p cl tl0 rs n m]. cbn in *. subst tl0.
      destruct (thread_moves _ _ _ _ _ Hth Ia) as [([] & ->)|[(B & e & k & o & b & p' & -> & Hex)|(rx & k & -> & _)]].
      - eexists. apply (w_task_done _ []).
      - eexists. eapply (w_task _ _ _ [] _ t). exact Hex.
      - by destruct Hnw. }
  destruct ts as [|? ?]; [|done]. destruct (g_clients c) as [|cl cls] eqn:Ec; [by left|right].
  rewrite <- Ec in Ic. pose proof Ic as Ic'. rewrite Ec in Ic'. destruct cs as [|s cs']; [done|]. destruct Ic' as (Hcl & _).
  destruct (client_moves c _ _ [] cl cls s Hi Ec Hcl) as [?|(rx & k & Hcode & Hin & Hfrom & Hts)]; [done|].
  destruct Hcl as ((_ & _ & Hrs) & _). rewrite Forall_forall in Hrs. specialize (Hrs _ Hin).
  pose proof (acc_chan _ _ Ia (rx_chan rx)) as Hch. unfold chan_ok in Hch.
  destruct (p_channels (g_pipe c) !! rx_chan rx) as [ch|] eqn:Ech; [|lia].
  assert (Hready : forall r, recv ch 0 = Some r -> exists c', work c c').
  { intros r Hr. destruct c as [p cl0 tl rs n m], cl as [rq code]. cbn in *. subst cl0 tl code. eexists.
    eapply (w_client (mkOracle 0 0 NoUpstream None) _ _ []). cbn [exec]. rewrite Ech. cbn. rewrite Hfrom, Hr. reflexivity. }
  (* whoever can still publish on the channel is a client that is not waiting *)
  assert (Hholder : forall x, (x = TTx (rx_chan rx) \/ exists kk, x = TLead kk (rx_chan rx)) ->
    (0 < cnt x (tokens (s :: cs') ++ tokens []))%nat -> exists c', work c c').
  { intros x Hx Hpos. rewrite app_nil_r in Hpos. apply token_holder in Hpos as (s1 & Hin1 & Hx1).
    apply list_elem_of_In in Hin1. destruct (all2_find _ _ _ _ Ic Hin1) as (pre1 & cl1 & post1 & Hsplit & Hok1).
    destruct (client_moves c _ _ pre1 cl1 post1 s1 Hi Hsplit Hok1) as [?|(rx1 & k1 & _ & _ & _ & Hts1)]; [done|].
    rewrite Hts1 in Hx1. apply list_elem_of_singleton in Hx1. destruct Hx as [-> | (kk & ->)]; done. }
  destruct Hch as (_ & [(kk & Hk & Hsent & Hsend & _)|(Hno & [(Hsent & Hsend & Ht & _)|[(Hsent & _)|(Hsent & Hsend & _)]])]).
  - apply (Hholder (TLead kk (rx_chan rx))); [right; by eexists|]. rewrite (acc_lead _ _ Ia kk (rx_chan rx)).
    rewrite decide_True by done. lia.
  - apply (Hholder (TTx (rx_chan rx))); [by left|]. cbv beta in Ht. rewrite Ht. lia.
  - destruct (ch_sent ch) as [|v [|]] eqn:Es; cbn in Hsent; try lia. apply (Hready (RecvOk v)). unfold recv. by rewrite Es.
  - destruct (ch_sent ch) as [|v [|]] eqn:Es; cbn in Hsent; try lia.
    + apply (Hready RecvErr). unfold recv. by rewrite Es, Hsend.
    + apply (Hready (RecvOk v)). unfold recv. by rewrite Es.
Qed.

(** With no query in flight, every query is finished or not yet counted. *)
Definition uncounted {A} (p : Proc Ev A) : bool := match p with Vis FetchAdd _ => true | _ => false end.
Definition finished {A} (p : Proc Ev A) : bool := match p with Ret _ => true | _ => false end.

Lemma none_in_flight c cs ts :
  inv c cs ts -> p_in_flight (g_pipe c) = 0 ->
  forall pre cl post, g_clients c = pre ++ cl :: post -> uncounted (cl_code cl) = true \/ finished (cl_code cl) = true.
Proof.
  intros [Ic _ Ia _ _] Hz pre cl post Hc. rewrite Hc in Ic. apply all2_middle in Ic as (c1 & s & c3 & -> & _ & ((Ho & _) & _ & Hg) & _).
  rewrite (acc_flight _ _ Ia), tokens_app, tokens_cons, !cnt_app in Hz.
  assert (Hts : s_ts s = []).
  { destruct Hg as [|(u & x & E & Hx)]; [done|]. rewrite E, !cnt_app, !cnt_cons, !cnt_nil in Hz. destruct Hx as [-> | ->]; count_tokens. }
  destruct (cl_code cl) as [a|B e k|]; [by right| |done]. rewrite Hts in Ho. destruct Ho as (Ha & _). left. destruct e; cbn in Ha; try done. by destruct Ha as (_ & _ & Ha).
Qed.

(** ** Idle servers and counts *)
Lemma idle_state c : inv c [] [] ->
  p_in_flight (g_pipe c) = 0 /\ p_lookups (g_pipe c) = ∅ /\ p_refreshing (g_pipe c) = ∅
  /\ (forall s, p_shadow (g_pipe c) = Some s -> sh_permits s = MAX_INFLIGHT).
Proof.
  intros [_ _ [A1 A2 A3 A4 A5 A6 A7 A8 A9] _ _]. split; [exact A1|]. split; [|split].
  - apply map_eq. intros k. rewrite lookup_empty. destruct (p_lookups (g_pipe c) !! k) as [ch|] eqn:E; [|done].
    specialize (A3 k ch). rewrite decide_True in A3 by done. done.
  - apply leibniz_equiv. intros k. specialize (A5 k). split; [|set_solver]. intros Hk. by rewrite decide_True in A5.
  - intros s Es. rewrite Es in A6. change (cnt TPermit _) with 0%nat in A6. lia.
Qed.

Lemma steps_work_inv k c c' cs ts :
  inv c cs ts -> steps work k c c' ->
  exists cs' ts', inv c' cs' ts' /\ (k + work_left cs' + work_left ts' <= work_left cs + work_left ts)%nat.
Proof.
  intros Hi Hs. revert cs ts Hi. induction Hs as [c|k c c1 c' Hw Hs IH]; intros cs ts Hi; [exists cs, ts; split; [done|lia]|].
  destruct (work_inv _ _ _ _ Hi Hw) as (cs1 & ts1 & Hi1 & Hlt). destruct (IH _ _ Hi1) as (cs' & ts' & Hi' & Hle).
  exists cs', ts'. split; [done|]. lia.
Qed.

Lemma waiting_admitted next cl cs :
  all2 (client_ok next) cl cs -> (length (List.filter (fun c => waiting (cl_code c)) cl) <= cnt TAdmit (tokens cs))%nat.
Proof.
  revert cs. induction cl as [|[r code] cl IH]; intros [|s cs]; cbn; try done; try lia. intros (((Ho & _) & _) & Hcl).
  specialize (IH cs Hcl). rewrite tokens_cons, cnt_app. destruct code as [|B e k|]; cbn in *; try lia.
  destruct e; try lia. destruct Ho as ((_ & _ & ->) & _). rewrite cnt_cons, decide_True by done. cbn. lia.
Qed.

Lemma comparing_permits next tl ts :
  all2 (task_ok next) tl ts ->
  (length (List.filter (fun t => match fst t with TCompare _ _ _ _ _ => networking (snd t) | _ => false end) tl)
   <= cnt TPermit (tokens ts))%nat.
Proof.
  revert ts. induction tl as [|[t code] tl IH]; intros [|s ts]; cbn; try done; try lia. intros ((_ & _ & Hk) & Htl).
  specialize (IH ts Htl). rewrite tokens_cons, cnt_app. destruct t; cbn in *; try lia.
  destruct code as [|B e k|]; cbn in *; try lia. destruct Hk as (Hk & _). destruct (on_network e); [|lia].
  rewrite Hk by done. rewrite cnt_cons, decide_True by done. cbn. lia.
Qed.

(** What two tasks both on the network hold. *)
Lemma networking_holds next t p s : task_ok next (t, p) s -> networking p = true -> s_ts s = task_tokens t.
Proof. intros (_ & _ & Hk) Hn. destruct p as [|B e k|]; try done. cbn in *. by apply Hk. Qed.
End Invariant.

(** ** Properties *)
Section Properties.
Context `{HickoryOps} `{HashIter} `{IpNetOps} `{RcodeDisplay}.

(** C2: no query is lost. From any reachable state of the server, whatever
    the interleaving, the upstream answers, the deaths of lookup tasks and
    the cancellations so far: the work left is bounded, so every schedule
    comes to rest; and at rest nothing is waiting: every query that arrived
    was answered with a reply that fits it (or its client went away), the
    in-flight counter is zero, no lookup or refresh entry is left behind,
    and every shadow permit is back. *)
Theorem every_query_answered p c :
  starts p -> reachable p c ->
  (exists bound, forall k c', steps work k c c' -> (k <= bound)%nat)
  /\ forall k c', steps work k c c' -> (forall c'', ~ work c' c'') ->
      g_clients c' = [] /\ g_tasks c' = []
      /\ g_arrived c' = (length (g_replies c') + g_cancelled c')%nat
      /\ Forall (fun rm => reply_ok (fst rm) (snd rm)) (g_replies c')
      /\ p_in_flight (g_pipe c') = 0 /\ p_lookups (g_pipe c') = ∅ /\ p_refreshing (g_pipe c') = ∅
      /\ (forall s, p_shadow (g_pipe c') = Some s -> sh_permits s = MAX_INFLIGHT).
Proof.
  intros Hs Hr. destruct (reachable_inv _ _ Hs Hr) as (cs & ts & Hi). split.
  - exists (work_left cs + work_left ts)%nat. intros k c' Hk.
    destruct (steps_work_inv _ _ _ _ _ Hi Hk) as (cs' & ts' & _ & Hle). lia.
  - intros k c' Hk Hrest. destruct (steps_work_inv _ _ _ _ _ Hi Hk) as (cs' & ts' & Hi' & _).
    destruct (progress _ _ _ Hi') as [(Hc & Ht)|(c'' & Hw)]; [|by destruct (Hrest c'')].
    pose proof Hi' as [Ic It _ Ir Ik]. rewrite Hc in Ic, Ik. rewrite Ht in It.
    destruct cs' as [|? ?]; [|done]. destruct ts' as [|? ?]; [|done].
    split; [done|]. split; [done|]. split; [done|]. split; [done|]. by apply idle_state.
Qed.

(** C8: single flight. In every reachable state no two tasks are asking
    the upstream for the same cache key as lookups, nor as refreshes,
    however many clients asked for it (a key compares its name without
    case). *)
Theorem single_flight p c pre mid post t1 t2 code1 code2 :
  starts p -> reachable p c ->
  g_tasks c = pre ++ (t1, code1) :: mid ++ (t2, code2) :: post ->
  networking code1 = true -> networking code2 = true ->
  match t1, t2 with
  | TLeader _ _ key1 _ _, TLeader _ _ key2 _ _ => key_id key1 <> key_id key2
  | TRefresh _ key1, TRefresh _ key2 => key_id key1 <> key_id key2
  | _, _ => True
  end.
Proof.
  intros Hs Hr Hsplit N1 N2. destruct (reachable_inv _ _ Hs Hr) as (cs & ts & [_ It Ia _ _]).
  rewrite Hsplit in It. apply all2_middle in It as (ts1 & s1 & ts2 & -> & _ & T1 & It).
  apply all2_middle in It as (ts3 & s2 & ts4 & -> & _ & T2 & _).
  apply networking_holds in T1; [|done]. apply networking_holds in T2; [|done].
  assert (Hcnt : forall x, (cnt x (task_tokens t1) + cnt x (task_tokens t2)
    <= cnt x (tokens cs ++ tokens (ts1 ++ s1 :: ts3 ++ s2 :: ts4)))%nat).
  { intros x. rewrite !tokens_app, !tokens_cons, !tokens_app, !tokens_cons, !cnt_app, T1, T2. lia. }
  destruct t1 as [q1 n1 key1 now1 tx1|q1 key1|], t2 as [q2 n2 key2 now2 tx2|q2 key2|]; try done; intros Hkey; cbn in Hcnt.
  - pose proof (acc_lead _ _ Ia (key_id key1) tx1) as L1. pose proof (acc_lead _ _ Ia (key_id key2) tx2) as L2.
    pose proof (Hcnt (TLead (key_id key1) tx1)) as C1. pose proof (Hcnt (TLead (key_id key2) tx2)) as C2.
    rewrite !cnt_cons, cnt_nil in C1, C2. rewrite L1 in C1. rewrite L2 in C2.
    rewrite (decide_True (P := TLead (key_id key1) tx1 = TLead (key_id key1) tx1)) in C1 by done.
    rewrite (decide_True (P := TLead (key_id key2) tx2 = TLead (key_id key2) tx2)) in C2 by done.
    destruct (decide (p_lookups (g_pipe c) !! key_id key1 = Some tx1)) as [E1|]; [|lia].
    destruct (decide (p_lookups (g_pipe c) !! key_id key2 = Some tx2)) as [E2|]; [|lia].
    rewrite Hkey in E1. rewrite E1 in E2. injection E2 as ->. rewrite Hkey in C1. rewrite decide_True in C1 by done. lia.
  - pose proof (acc_ref _ _ Ia (key_id key1)) as L1. pose proof (Hcnt (TRef (key_id key1))) as C1.
    rewrite !cnt_cons, cnt_nil, L1, Hkey in C1. rewrite !decide_True in C1 by done.
    destruct (decide (key_id key2 ∈ p_refreshing (g_pipe c))); lia.
Qed.

(** C21: load is bounded in every reachable state: at most 512 queries wait
    for a lookup (the others are shed), at most 64 reference comparisons
    are on the network, and the in-flight counter never goes negative. *)
Theorem load_is_bounded p c :
  starts p -> reachable p c ->
  Z.of_nat (length (List.filter (fun cl => waiting (cl_code cl)) (g_clients c))) <= 512
  /\ Z.of_nat (length (List.filter (fun t => match fst t with TCompare _ _ _ _ _ => networking (snd t) | _ => false end) (g_tasks c))) <= 64
  /\ 0 <= in_flight (g_pipe c).
Proof.
  intros Hs Hr. destruct (reachable_inv _ _ Hs Hr) as (cs & ts & [Ic It Ia _ _]).
  pose proof Ia as [A1 A2 _ _ _ A6 _ _ _]. rewrite !cnt_app in *. unfold MAX_IN_FLIGHT_QUERIES, MAX_INFLIGHT in *.
  pose proof (waiting_admitted _ _ _ Ic). pose proof (comparing_permits _ _ _ It).
  split; [lia|]. split; [|unfold in_flight; lia]. destruct (p_shadow (g_pipe c)); lia.
Qed.
End Properties.
