(* ===== verification/NodeSpec.v ===== *)
(** * NodeSpec: every query is answered where it came from, and none of
    their records is lost by a clean stop

    The daemon simulates the server of [Scheduler], so what holds of its
    configurations holds of the daemon; the answers go back to their
    origins, the connections keep their order, and the log's history
    explains the tables. *)
From S2P Require Import Prelude Text Time IpAddr FilterTypes Engine Dns Cache CacheSpec FailCache SafeSearch Shadow Db DbSpec Proc Pipeline Server ServerSpec Serving ServingSpec Config Sockets Scheduler SchedulerSpec ServerLiveness Node.

(** Every element satisfies [P]. *)
Fixpoint each {A : Type} (P : A -> Prop) (l : list A) : Prop := match l with [] => True | a :: l => P a /\ each P l end.

Lemma each_app {A : Type} (P : A -> Prop) l k : each P (l ++ k) <-> each P l /\ each P k.
Proof. induction l as [|a l IH]; cbn; [tauto|]. rewrite IH. tauto. Qed.
Lemma each_impl {A : Type} (P Q : A -> Prop) l : (forall a, P a -> Q a) -> each P l -> each Q l.
Proof. intros HPQ. induction l as [|a l IH]; cbn; [done|]. intros (Ha & Hl). auto. Qed.

(** [map_app], for lists of trees. *)
Lemma map_middle {A B : Type} (f : A -> B) l a k : map f (l ++ a :: k) = map f l ++ f a :: map f k.
Proof. induction l as [|b l IH]; cbn; [done|]. by rewrite IH. Qed.
Lemma map_join {A B : Type} (f : A -> B) l k : map f (l ++ k) = map f l ++ map f k.
Proof. induction l as [|b l IH]; cbn; [done|]. by rewrite IH. Qed.

Section Spec.
Context `{HickoryOps} `{HashIter} `{IpNetOps} `{RcodeDisplay} `{IpDisplay}.

(** ** Simulation *)
Lemma works_core x x' : works x x' -> work (core x) (core x').
Proof.
  intros [o p p' pre post h B e k b ts io lg ph rc an _ Hc He|p pre post h resp taken ts io lg ph rc an _ Hc
         |o p p' pre post t B e k b hs io lg ph rc an _ He|p pre post t hs io lg ph rc an _]; unfold core; cbn.
  - rewrite !map_middle. unfold client_of at 2 5. rewrite Hc. cbn. by eapply w_client.
  - rewrite map_middle, map_join. unfold client_of at 2. rewrite Hc. apply w_reply.
  - by eapply w_task.
  - apply w_task_done.
Qed.

Lemma happens_core x x' : happens x x' -> outside (core x) (core x') \/ core x' = core x.
Proof.
  intros Hx. destruct Hx; unfold core; cbn; try (by right); left; first [apply o_arrive|by apply o_install|apply o_writer].
Qed.

Lemma comes_to_reachable p sockets t x : comes_to p sockets t x -> reachable p (core x).
Proof.
  intros (n & Hr). remember (node_new p sockets t) as x0 eqn:E0.
  assert (H0' : reachable p (core x0)) by (rewrite E0; exists 0%nat; apply steps_nil). clear E0.
  induction Hr as [x|n x x1 x2 Hm Hr IH]; [done|]. apply IH. destruct H0' as (m & Hs).
  assert (Hstep : step (core x) (core x1) \/ core x1 = core x).
  { destruct Hm as [Hw|Hx]; [left; left; by apply works_core|]. apply happens_core in Hx as [Ho| ->]; [left; by right|by right]. }
  destruct Hstep as [Hst| ->]; [|by exists m]. exists (m + 1)%nat. eapply steps_trans; [exact Hs|]. econstructor; [exact Hst|apply steps_nil].
Qed.

Lemma runs_to_core k x x' : runs_to works k x x' -> steps work k (core x) (core x').
Proof. induction 1 as [x|n x x1 x2 Hw Hr IH]; [apply steps_nil|]. econstructor; [by apply works_core|done]. Qed.

Lemma works_phase x x' : works x x' -> nd_phase x' = nd_phase x.
Proof. by intros []. Qed.
Lemma runs_to_phase k x x' : runs_to works k x x' -> nd_phase x' = nd_phase x.
Proof. induction 1 as [x|n x x1 x2 Hw Hr IH]; [done|]. rewrite IH. by apply works_phase. Qed.

Lemma map_split {A B : Type} (f : A -> B) l pre b post :
  map f l = pre ++ b :: post -> exists l1 a l2, l = l1 ++ a :: l2 /\ map f l1 = pre /\ f a = b /\ map f l2 = post.
Proof.
  revert pre. induction l as [|a l IH]; intros [|c pre]; cbn; intros E; try discriminate E.
  - injection E as <- <-. by exists [], a, l.
  - injection E as <- E. apply IH in E as (l1 & a' & l2 & -> & <- & <- & <-). by exists (a :: l1), a', l2.
Qed.

(** The daemon moves whenever its server can. *)
Lemma core_works x c' : nd_phase x <> Stopped -> work (core x) c' -> exists x', works x x'.
Proof.
  intros Hph Hw. destruct x as [p hs ts io lg ph rc an]. unfold core in Hw. cbn in *.
  inversion Hw as [o p1 p' pre post r B e k b ts1 rs n m He E1|p1 pre post r resp ts1 rs n m E1|o p1 p' pre post t B e k b cs rs n m He E1|p1 pre post t cs rs n m E1].
  - match goal with E : _ = map client_of hs |- _ => symmetry in E; apply map_split in E as (l1 & h & l2 & -> & _ & Hh & _) end.
    destruct h as [og cl now rq tr code]. injection Hh as _ Hcode. eexists. eapply k_handle; [done| |exact He]. exact Hcode.
  - match goal with E : _ = map client_of hs |- _ => symmetry in E; apply map_split in E as (l1 & h & l2 & -> & _ & Hh & _) end.
    destruct h as [og cl now rq tr code]. injection Hh as _ Hcode. eexists. eapply (k_reply _ _ _ _ _ true); [done|exact Hcode].
  - eexists. by eapply k_task.
  - eexists. by eapply k_task_done.
Qed.

(** An invariant of every reachable state. *)
Lemma comes_to_ind (P : Node -> Prop) p sockets t :
  P (node_new p sockets t) -> (forall x x', comes_to p sockets t x -> P x -> moves x x' -> P x') -> forall x, comes_to p sockets t x -> P x.
Proof.
  intros H0' Hstep x (n & Hr). assert (Hc : comes_to p sockets t (node_new p sockets t)) by (exists 0%nat; constructor).
  revert Hc H0' Hr. generalize (node_new p sockets t). intros x0 Hc H0' Hr.
  induction Hr as [x|n x x1 x2 Hm Hr IH]; [done|]. apply IH; [|by apply (Hstep x)]. destruct Hc as (k & Hk). exists (k + 1)%nat.
  clear -Hk Hm. induction Hk as [y|k y y1 y2 Hy Hk IH]; [econstructor; [exact Hm|constructor]|]. econstructor; [exact Hy|by apply IH].
Qed.

(** ** Queries and their answers *)

(** What is left continues what was run. *)
Definition continues (h : Handling) : Prop :=
  forall u a, runs (h_code h) u a -> runs (handle_at (h_request h) (h_client h) (h_now h)) (h_trace h ++ u) a.
Definition complete (a : Answer) : Prop :=
  runs (handle_at (h_request (a_query a)) (h_client (a_query a)) (h_now (a_query a))) (h_trace (a_query a)) (a_reply a).

Definition asked (h : Handling) : Origin * Message := (h_origin h, h_request h).

(** The datagrams of answers, newest first. *)
Definition datagram (a : Answer) : list (Fd * SocketAddr * list Z) :=
  match h_origin (a_query a) with
  | FromUdp fd peer => match udp_reply (h_request (a_query a)) (a_reply a) with Some bytes => [(fd, peer, bytes)] | None => [] end
  | FromTcp _ => []
  end.
Definition datagrams (l : list Answer) : list (Fd * SocketAddr * list Z) := concat (map datagram l).

Record answers_inv (x : Node) : Prop := {
  ai_asked : nd_received x ≡ₚ map asked (nd_handling x) ++ map (fun a => asked (a_query a)) (nd_answered x);
  ai_handling : each continues (nd_handling x);
  ai_answered : each complete (nd_answered x);
  ai_sent : io_sent (nd_io x) = datagrams (nd_answered x)
}.

Lemma each_middle {A : Type} (P : A -> Prop) l a k : each P (l ++ a :: k) <-> P a /\ each P (l ++ k).
Proof. rewrite !each_app. cbn. tauto. Qed.

Lemma begin_continues origin client now request : continues (begin origin client now request).
Proof. by intros u a Hr. Qed.

Lemma advance_continues h {B} (e : Ev B) k b : h_code h = Vis e k -> continues h -> continues (advance h (mkObs _ e b) (k b)).
Proof. intros Hc Hh u a Hr. cbn. rewrite <- app_assoc. apply Hh. rewrite Hc. by exists b, u. Qed.

Lemma ret_complete h resp : h_code h = Ret resp -> continues h -> complete (mkAnswer h resp).
Proof. intros Hc Hh. red. cbn. rewrite <- (app_nil_r (h_trace h)). apply Hh. by rewrite Hc. Qed.

Lemma deliver_sent io h resp taken :
  io_sent (deliver io h resp taken) = datagram (mkAnswer h resp) ++ io_sent io.
Proof.
  unfold deliver, datagram. cbn. destruct (h_origin h) as [fd peer|c].
  - by destruct (udp_reply _ _).
  - destruct (to_vec resp ≫= frame); [by destruct taken|done].
Qed.

Lemma works_answers x x' : works x x' -> answers_inv x -> answers_inv x'.
Proof.
  intros Hw [Ha Hh Hd Hs]. destruct Hw as [o p p' pre post h B e k b ts io lg ph rc an _ Hc He|p pre post h resp taken ts io lg ph rc an _ Hc
         |o p p' pre post t B e k b hs io lg ph rc an _ He|p pre post t hs io lg ph rc an _]; cbn in *; (split; cbn; try done).
  - rewrite Ha, !map_middle. done.
  - apply each_middle in Hh as (H1' & H2'). apply each_middle. split; [by apply advance_continues|done].
  - rewrite Ha, map_middle, map_join. rewrite <- !app_assoc. apply Permutation_app_head, Permutation_middle.
  - by apply each_middle in Hh as (_ & Hh).
  - split; [|done]. apply each_middle in Hh as (Hh & _). by apply ret_complete.
  - rewrite deliver_sent, Hs. done.
Qed.

Lemma happens_answers x x' : happens x x' -> answers_inv x -> answers_inv x'.
Proof.
  intros Hx [Ha Hh Hd Hs]. destruct Hx; cbn in *; try done.
  - split; cbn; [by rewrite Ha|split; [apply begin_continues|done]|done|done].
  - split; cbn; try done. by destruct (fst (accept _ _ _)).
  - split; cbn; [by rewrite Ha|split; [apply begin_continues|done]|done|done].
Qed.

Lemma answers_hold p sockets t x : comes_to p sockets t x -> answers_inv x.
Proof.
  revert x. apply (comes_to_ind answers_inv).
  - by split.
  - intros x x' _ Hi [Hw|Hx]; [by eapply works_answers|by eapply happens_answers].
Qed.

(** ** Connections *)

(** The exchanges of connection [c], in order. *)
Definition exchange (c : nat) (a : Answer) : list (Message * Message) :=
  match h_origin (a_query a) with
  | FromTcp c' => if Nat.eqb c c' then [(h_request (a_query a), a_reply a)] else []
  | FromUdp _ _ => []
  end.
Fixpoint exchanges (c : nat) (l : list Answer) : list (Message * Message) :=
  match l with [] => [] | a :: l => exchanges c l ++ exchange c a end.

(** The connections whose query is being handled. *)
Definition conn_of (h : Handling) : list nat := match h_origin h with FromTcp c => [c] | FromUdp _ _ => [] end.
Definition busy (hs : list Handling) : list nat := concat (map conn_of hs).
#[local] Arguments busy : simpl never.

(** Bytes from which [serve_tcp_conn] reads the queries [ms]. *)
Definition query_frame (m : Message) (f : list Z) : Prop := forall rest, conn_read (f ++ rest) = NextQuery m rest.
Definition reads_as (ms : list Message) (bytes : list Z) : Prop := exists frames, bytes = concat frames /\ Forall2 query_frame ms frames.

Record conn_ok (answered : list Answer) (c : nat) (cn : Conn) : Prop := {
  cn_in : exists bytes, cn_received cn = bytes ++ cn_unread cn
            /\ reads_as (map fst (cn_dialog cn) ++ match cn_asking cn with Some m => [m] | None => [] end) bytes;
  cn_out : framed_as (map snd (cn_dialog cn)) (cn_written cn);
  cn_all : cn_dialog cn = exchanges c answered
}.

Definition asks (io : Io) (h : Handling) : Prop :=
  match h_origin h with
  | FromTcp c => exists cn, io_conns io !! c = Some cn /\ cn_asking cn = Some (h_request h)
  | FromUdp _ _ => True
  end.

Record conns_inv (x : Node) : Prop := {
  ci_conns : forall c cn, io_conns (nd_io x) !! c = Some cn -> (c < io_next (nd_io x))%nat /\ conn_ok (nd_answered x) c cn;
  ci_asks : each (asks (nd_io x)) (nd_handling x);
  ci_once : NoDup (busy (nd_handling x));
  ci_fresh : forall c, (io_next (nd_io x) <= c)%nat -> exchanges c (nd_answered x) = [];
  ci_waits : forall c cn, io_conns (nd_io x) !! c = Some cn -> cn_asking cn <> None -> c ∈ busy (nd_handling x)
}.

Lemma busy_middle pre h post : busy (pre ++ h :: post) = busy pre ++ conn_of h ++ busy post.
Proof. unfold busy. by rewrite map_middle, concat_app. Qed.
Lemma busy_join pre post : busy (pre ++ post) = busy pre ++ busy post.
Proof. unfold busy. by rewrite map_join, concat_app. Qed.

Lemma asks_busy io hs c : each (asks io) hs -> c ∈ busy hs -> exists cn m, io_conns io !! c = Some cn /\ cn_asking cn = Some m.
Proof.
  induction hs as [|h hs IH]; cbn; [by intros _ Hc%elem_of_nil|]. intros (Hh & Hhs). unfold busy. cbn. rewrite elem_of_app. intros [Hc|Hc]; [|by apply IH].
  unfold conn_of, asks in *. destruct (h_origin h) as [|c']; [by apply elem_of_nil in Hc|]. apply list_elem_of_singleton in Hc as ->.
  destruct Hh as (cn & H1' & H2'). by exists cn, (h_request h).
Qed.

(** A change of connections no other query comes from. *)
Lemma asks_other io io' hs :
  (forall c cn, c ∈ busy hs -> io_conns io !! c = Some cn -> exists cn', io_conns io' !! c = Some cn' /\ cn_asking cn' = cn_asking cn) ->
  each (asks io) hs -> each (asks io') hs.
Proof.
  induction hs as [|h hs IH]; cbn; [done|]. intros Hc (Hh & Hhs). split.
  - unfold asks, busy, conn_of in *. cbn in Hc. destruct (h_origin h) as [|c]; [done|]. destruct Hh as (cn & H1' & H2').
    destruct (Hc c cn) as (cn' & E1 & E2); [by left|done|]. exists cn'. by rewrite E2.
  - apply IH; [|done]. intros c cn Hin. apply Hc. unfold busy. cbn. apply elem_of_app. by right.
Qed.

Lemma framed_snoc ms out m bytes framed : framed_as ms out -> to_vec m = Some bytes -> frame bytes = Some framed -> framed_as (ms ++ [m]) (out ++ framed).
Proof.
  intros (fs & -> & Hf) Hb Hr. exists (fs ++ [framed]). split; [by rewrite concat_app; cbn; rewrite app_nil_r|].
  apply Forall2_app; [done|]. constructor; [|constructor]. by exists bytes.
Qed.

Lemma read_exact_split n i a r : read_exact n i = Some (a, r) -> i = a ++ r /\ forall r', read_exact n (a ++ r') = Some (a, r').
Proof.
  unfold read_exact. destruct (Z.leb_spec n (len i)) as [Hle|]; [|done]. intros [= <- <-]. split; [by rewrite take_drop|]. intros r'.
  assert (E : length (take (Z.to_nat n) i) = Z.to_nat n) by (rewrite length_take; unfold len in Hle; lia).
  pose proof (len_nonneg r'). rewrite (proj2 (Z.leb_le _ _)) by (rewrite len_app; unfold len at 1; lia).
  by rewrite take_app_length', drop_app_length' by done.
Qed.

Lemma conn_read_frame input m rest : conn_read input = NextQuery m rest -> exists f, input = f ++ rest /\ query_frame m f.
Proof.
  unfold query_frame. unfold conn_read at 1. destruct (read_exact 2 input) as [[l i1]|] eqn:E1; [|done]. destruct (read_exact _ i1) as [[b i2]|] eqn:E2; [|done].
  destruct (from_vec b) as [request|] eqn:Ev; [|done]. intros [= -> ->].
  apply read_exact_split in E1 as (-> & R1), E2 as (-> & R2). exists (l ++ b). split; [by rewrite app_assoc|]. intros rest'.
  unfold conn_read. rewrite <- app_assoc, R1, R2. by rewrite Ev.
Qed.

Lemma conn_ok_other an a c cn : exchange c a = [] -> conn_ok an c cn -> conn_ok (a :: an) c cn.
Proof. intros E [H1' H2' H3']. split; [done|done|]. cbn [exchanges]. by rewrite E, app_nil_r. Qed.

Lemma exchange_other c a c' : h_origin (a_query a) = FromTcp c' -> c <> c' -> exchange c a = [].
Proof. intros E Hne. unfold exchange. rewrite E. by destruct (Nat.eqb_spec c c'). Qed.

(** The answer of a connection's query. *)
Lemma deliver_conns p hs ts io lg ph rc an h resp taken c :
  h_origin h = FromTcp c -> asks io h -> c ∉ busy hs ->
  each (asks io) hs -> NoDup (busy hs) ->
  (forall c cn, io_conns io !! c = Some cn -> (c < io_next io)%nat /\ conn_ok an c cn) ->
  (forall c, (io_next io <= c)%nat -> exchanges c an = []) ->
  (forall c' cn, io_conns io !! c' = Some cn -> cn_asking cn <> None -> c' <> c -> c' ∈ busy hs) ->
  conns_inv (mkNode p hs ts (deliver io h resp taken) lg ph rc (mkAnswer h resp :: an)).
Proof.
  intros Eo Ha Hc Hasks Hnd Hok Hfresh Hwait. unfold asks in Ha. rewrite Eo in Ha. destruct Ha as (cn0 & Hcn0 & Hasking).
  pose proof (Hok c cn0 Hcn0) as (Hlt & [I1 I2 I3]).
  assert (Hex : forall c', c' <> c -> exchange c' (mkAnswer h resp) = []) by (intros c' Hne; by apply (exchange_other _ _ c)).
  assert (Hf : forall c', (io_next io <= c')%nat -> exchanges c' (mkAnswer h resp :: an) = []).
  { intros c' Hle. cbn [exchanges]. rewrite Hfresh by done. rewrite Hex; [done|lia]. }
  assert (Hgone : conns_inv (mkNode p hs ts (set_conns io (delete c (io_conns io))) lg ph rc (mkAnswer h resp :: an))).
  { split; cbn; [| |done|done|].
    3:{ intros c' cn'. rewrite lookup_delete_Some. intros (Hne & Hl) Hq. by apply (Hwait c' cn'). }
    - intros c' cn'. rewrite lookup_delete_Some. intros (Hne & Hl). destruct (Hok c' cn' Hl) as (? & ?). split; [done|]. apply conn_ok_other; auto.
    - revert Hasks. apply asks_other. intros c' cn' Hin Hl. exists cn'. split; [|done]. cbn. apply lookup_delete_Some. split; [by intros ->|done]. }
  unfold deliver. rewrite Eo. destruct (to_vec resp) as [bytes|] eqn:Eb; [|done]. cbn [mbind option_bind].
  destruct (frame bytes) as [framed|] eqn:Ef; [|done]. destruct taken; [|done].
  split; cbn; [| |done|done|].
  3:{ intros c' cn'. rewrite lookup_alter_Some. intros [(<- & cn1 & Hl & ->)|(Hne & Hl)] Hq; [done|]. by apply (Hwait c' cn'). }
  - intros c' cn' Hl. destruct (decide (c' = c)) as [->|Hne].
    + rewrite lookup_alter_eq, Hcn0 in Hl. injection Hl as <-. split; [done|]. rewrite Hasking in I1. split; cbn.
      * rewrite map_join. cbn. by rewrite app_nil_r.
      * rewrite map_join. by apply (framed_snoc _ _ _ bytes).
      * rewrite I3. f_equal. unfold exchange. cbn. by rewrite Eo, Nat.eqb_refl.
    + rewrite lookup_alter_ne in Hl by done. destruct (Hok c' cn' Hl) as (? & ?). split; [done|]. apply conn_ok_other; auto.
  - revert Hasks. apply asks_other. intros c' cn' Hin Hl. exists cn'. split; [|done]. cbn. rewrite lookup_alter_ne; [done|]. by intros ->.
Qed.

Lemma works_conns x x' : works x x' -> conns_inv x -> conns_inv x'.
Proof.
  intros Hw [Hc Ha Ho Hf Hq]. destruct Hw as [o p p' pre post h B e k b ts io lg ph rc an _ Hcode He|p pre post h resp taken ts io lg ph rc an _ Hcode
         |o p p' pre post t B e k b hs io lg ph rc an _ He|p pre post t hs io lg ph rc an _]; cbn in *.
  - split; cbn; [done| |rewrite busy_middle; by rewrite busy_middle in Ho|done|rewrite busy_middle; by rewrite busy_middle in Hq]. apply each_middle in Ha as (H1' & H2'). by apply each_middle.
  - apply each_middle in Ha as (Hh & Ha). rewrite busy_middle in Ho. setoid_rewrite busy_middle in Hq.
    destruct (h_origin h) as [fd peer|c] eqn:Eo.
    + assert (En : conn_of h = []) by (unfold conn_of; by rewrite Eo). rewrite En in Ho, Hq.
      assert (Ed : io_conns (deliver io h resp taken) = io_conns io /\ io_next (deliver io h resp taken) = io_next io)
        by (unfold deliver; rewrite Eo; by destruct (udp_reply _ _)). destruct Ed as (Ed1 & Ed2).
      assert (Ex : forall c, exchange c (mkAnswer h resp) = []) by (intros c; unfold exchange; cbn; by rewrite Eo).
      split; cbn; rewrite ?Ed1, ?Ed2.
      * intros c cn Hl. destruct (Hc c cn Hl) as (? & ?). split; [done|]. by apply conn_ok_other.
      * eapply each_impl; [|exact Ha]. intros h'. unfold asks. by rewrite Ed1.
      * by rewrite busy_join.
      * intros c Hle. rewrite Hf by done. apply Ex.
      * by rewrite busy_join.
    + assert (En : conn_of h = [c]) by (unfold conn_of; by rewrite Eo). rewrite En in Ho, Hq. cbn in Ho.
      apply (deliver_conns _ _ _ _ _ _ _ _ _ _ _ c); try done; rewrite busy_join.
      * apply NoDup_app in Ho as (_ & Hd & Ho). apply NoDup_cons in Ho as (Ho & _). rewrite elem_of_app. intros [Hin|Hin]; [|done].
        apply (Hd c Hin). by left.
      * apply NoDup_app in Ho as (H1' & Hd & Ho). apply NoDup_cons in Ho as (_ & Ho). apply NoDup_app. split; [done|]. split; [|done].
        intros c' Hin Hin'. apply (Hd c' Hin). by right.
      * intros c' cn Hl Hask Hne. specialize (Hq c' cn Hl Hask). rewrite !elem_of_app, list_elem_of_singleton in Hq. rewrite elem_of_app. tauto.
  - by split.
  - by split.
Qed.

Lemma happens_conns x x' : happens x x' -> conns_inv x -> conns_inv x'.
Proof.
  intros Hx [Hc Ha Ho Hf Hw].
  destruct Hx as [p hs ts io lg ph rc an fd peer bytes request now _ _ _|p hs ts io lg ph rc an fd peer _ _|p hs ts io lg ph rc an c bytes
    |p hs ts io lg ph rc an c cn request rest now _ Hl Hq Hr|p hs ts io lg ph rc an c cn Hl Hq|p pol hs ts io lg rc an _
    |p hs ts io t ops sw ph rc an fails w t' ok acks _|p hs ts io t ops sw rc an now|p hs ts io lg rc an|p hs ts io lg rc an now deadline _|p hs ts io t ops sw rc an ack w _|p hs ts io lg rc an ack _|p hs ts io t ops sw ph rc an h s];
    cbn in *; try (by split).
  - destruct (fst (accept _ _ _)); [by split|by split|]. split; cbn.
    + intros c cn. rewrite lookup_insert_Some. intros [(<- & <-)|(Hne & Hl)].
      * split; [lia|]. split; cbn; [exists []; split; [done|by exists []]|by exists []|by rewrite Hf].
      * destruct (Hc c cn Hl) as (? & ?). split; [lia|done].
    + revert Ha. apply asks_other. intros c cn Hin Hl. exists cn. split; [|done]. cbn. rewrite lookup_insert_ne; [done|].
      intros <-. destruct (Hc _ _ Hl) as (? & _). lia.
    + done.
    + intros c Hle. apply Hf. lia.
    + intros c cn. rewrite lookup_insert_Some. intros [(<- & <-)|(Hne & Hl)]; [done|by apply Hw].
  - split; cbn; [| |done|done|].
    3:{ intros c' cn'. rewrite lookup_alter_Some. intros [(<- & cn & Hl & ->)|(Hne & Hl)]; [exact (Hw c cn Hl)|exact (Hw c' cn' Hl)]. }
    + intros c' cn'. rewrite lookup_alter_Some. intros [(<- & cn & Hl & ->)|(Hne & Hl)]; [|by apply Hc].
      destruct (Hc c cn Hl) as (? & [(b & E & Hr) ? ?]). split; [done|]. split; cbn; [|done|done]. exists b. split; [by rewrite E, app_assoc|done].
    + revert Ha. apply asks_other. intros c' cn' Hin Hl. cbn. rewrite lookup_alter. destruct (decide (c = c')) as [->|Hne].
      * rewrite Hl. by eexists.
      * by exists cn'.
  - assert (Hfree : c ∉ busy hs).
    { intros Hin. destruct (asks_busy _ _ _ Ha Hin) as (cn' & m & Hl' & Hq'). rewrite Hl in Hl'. injection Hl' as <-. by rewrite Hq in Hq'. }
    destruct (Hc c cn Hl) as (Hlt & [(b & E & Hrd) Hout Hall]). apply conn_read_frame in Hr as (f & Ef & Hfr).
    split; cbn.
    + intros c' cn'. rewrite lookup_alter_Some. intros [(<- & cn1 & Hl' & ->)|(Hne & Hl')]; [|by apply Hc].
      rewrite Hl in Hl'. injection Hl' as <-. split; [done|]. split; cbn; [|done|done]. exists (b ++ f). split; [by rewrite E, Ef, app_assoc|].
      rewrite Hq, app_nil_r in Hrd. destruct Hrd as (fs & -> & Hfs). exists (fs ++ [f]). split; [by rewrite concat_app; cbn; rewrite app_nil_r|].
      apply Forall2_app; [done|]. by repeat constructor.
    + split.
      * unfold asks. cbn. rewrite lookup_alter_eq, Hl. by eexists.
      * revert Ha. apply asks_other. intros c' cn' Hin Hl'. exists cn'. split; [|done]. cbn. rewrite lookup_alter_ne; [done|]. by intros ->.
    + change (busy (begin (FromTcp c) (cn_peer cn) now request :: hs)) with (c :: busy hs). by constructor.
    + done.
    + intros c' cn'. change (busy (begin (FromTcp c) (cn_peer cn) now request :: hs)) with (c :: busy hs). rewrite lookup_alter_Some.
      intros [(<- & _)|(Hne & Hl')] Hask; [by left|right]. by apply (Hw c' cn').
  - assert (Hfree : c ∉ busy hs).
    { intros Hin. destruct (asks_busy _ _ _ Ha Hin) as (cn' & m & Hl' & Hq'). rewrite Hl in Hl'. injection Hl' as <-. by rewrite Hq in Hq'. }
    split; cbn; [| |done|done|].
    3:{ intros c' cn'. rewrite lookup_delete_Some. intros (_ & Hl') Hask. by apply (Hw c' cn'). }
    + intros c' cn'. rewrite lookup_delete_Some. intros (_ & Hl'). by apply Hc.
    + revert Ha. apply asks_other. intros c' cn' Hin Hl'. exists cn'. split; [|done]. cbn. rewrite lookup_delete_ne; [done|]. by intros ->.
Qed.

Lemma conns_hold p sockets t x : comes_to p sockets t x -> conns_inv x.
Proof.
  revert x. apply (comes_to_ind conns_inv).
  - split; cbn; [by intros c cn; rewrite lookup_empty|done|constructor|done|by intros c cn; rewrite lookup_empty].
  - intros x x' _ Hi [Hw|Hx]; [by eapply works_conns|by eapply happens_conns].
Qed.

(** ** The log *)
Definition ledger (cap : Z) (t : Tables) (ops : list LogOp) : Ledger := fold_left log_step ops (ledger_new cap t).

(** The query records offered. *)
Definition record_of (o : LogOp) : list QueryRecord := match o with OpLog (LQuery q) => [q] | _ => [] end.
Definition offered (ops : list LogOp) : list QueryRecord := concat (map record_of ops).

(** The records in the traces of queries. *)
Definition recorded (hs : list Handling) : list QueryRecord := concat (map (fun h => logs (h_trace h)) hs).

#[local] Arguments recorded : simpl never.
#[local] Arguments offered : simpl never.
#[local] Arguments ledger : simpl never.

(** The tables against the ledger's, which knows no sweeps. *)
Definition swept (sweeps : list Z) (row : QueryRow) : Prop := exists now, now ∈ sweeps /\ row_ts row < now - LOG_RETENTION_SECS.
Definition tables_like (sweeps : list Z) (t l : Tables) : Prop :=
  t_shape t = t_shape l /\ t_next_query t = t_next_query l /\ (forall row, row ∈ t_queries l -> row ∈ t_queries t \/ swept sweeps row).

Record log_inv (cap : Z) (t : Tables) (x : Node) : Prop := {
  li_writer : p_writer (nd_pipe x) = l_writer (ledger cap t (lg_ops (nd_log x)));
  li_tables : tables_like (lg_sweeps (nd_log x)) (lg_tables (nd_log x)) (l_tables (ledger cap t (lg_ops (nd_log x))));
  li_records : offered (lg_ops (nd_log x)) ≡ₚ recorded (nd_handling x) ++ recorded (map a_query (nd_answered x))
}.

Lemma ledger_snoc cap t ops o : ledger cap t (ops ++ [o]) = log_step (ledger cap t ops) o.
Proof. unfold ledger. by rewrite fold_left_app. Qed.
Lemma offered_snoc ops o : offered (ops ++ [o]) = offered ops ++ record_of o.
Proof. unfold offered. rewrite map_app, concat_app. cbn. by rewrite app_nil_r. Qed.

Definition logged_event {B} (e : Ev B) : option LogEvent := match e with Log ev => Some ev | _ => None end.

(** Every event's effect on one part of the pipeline, by computation. *)
Ltac by_event e p :=
  destruct e; cbn; intros b He; try (by injection He as _ <-);
  [ destruct (get _ _ _) as [[l c]|]; [|done]; by injection He as _ <-
  | destruct (Cache.insert _ _ _ _); [|done]; by injection He as _ <-
  | injection He as He; unfold join_lookup in He; destruct (p_lookups p !! _); by injection He as _ <-
  | injection He as _ <-; unfold remove_lookup; by destruct (p_lookups p !! _)
  | destruct (p_channels p !! _); [|done]; cbn in He; destruct (recv _ _); [|done]; by injection He as _ <-
  | destruct (s ← p_shadow p; try_acquire s); by injection He as _ <- ].

Lemma exec_writer o B (e : Ev B) p b p' :
  exec o e p = Some (b, p') ->
  p_writer p' = match logged_event e with Some ev => snd (log (p_writer p) ev) | None => p_writer p end.
Proof. revert b. by_event e p. Qed.

Lemma offer_ops lg B (e : Ev B) : lg_tables (offer lg e) = lg_tables lg /\ lg_sweeps (offer lg e) = lg_sweeps lg
  /\ lg_ops (offer lg e) = lg_ops lg ++ match logged_event e with Some ev => [OpLog ev] | None => [] end.
Proof. destruct e; cbn; rewrite ?app_nil_r; done. Qed.

(** An event of a query or a task, as the log sees it. *)
Lemma log_event cap t lg o B (e : Ev B) p b p' :
  exec o e p = Some (b, p') ->
  p_writer p = l_writer (ledger cap t (lg_ops lg)) -> tables_like (lg_sweeps lg) (lg_tables lg) (l_tables (ledger cap t (lg_ops lg))) ->
  p_writer p' = l_writer (ledger cap t (lg_ops (offer lg e)))
  /\ tables_like (lg_sweeps (offer lg e)) (lg_tables (offer lg e)) (l_tables (ledger cap t (lg_ops (offer lg e)))).
Proof.
  intros He Hw Ht. destruct (offer_ops lg B e) as (-> & -> & ->). rewrite (exec_writer _ _ _ _ _ _ He). destruct (logged_event e) as [ev|].
  - rewrite ledger_snoc. cbn [log_step]. rewrite <- Hw. by destruct (log (p_writer p) ev) as [[] w]; cbn.
  - by rewrite app_nil_r.
Qed.

(** A batch fails or commits whatever rows there are. *)
Lemma batch_loop_like fails batch : forall i t l acks,
  knows_rewritten (t_shape t) = true -> t_shape t = t_shape l ->
  (is_Some (fst (batch_loop fails i t batch acks)) <-> is_Some (fst (batch_loop fails i l batch acks)))
  /\ snd (batch_loop fails i t batch acks) = snd (batch_loop fails i l batch acks).
Proof.
  induction batch as [|m batch IH]; intros i t l acks Hk Hs; cbn [batch_loop].
  - destruct (fails i); cbn; [done|]. split; [split; by eexists|done].
  - destruct m as [[q|d]|a]; [| |by apply IH].
    + destruct (fails i); [done|]. unfold insert_query. rewrite <- Hs.
      replace (verdict_check (t_shape t) (row_verdict (row_of_query (t_next_query t) q))) with true by (symmetry; by apply verdict_check_ok).
      replace (verdict_check (t_shape t) (row_verdict (row_of_query (t_next_query l) q))) with true by (symmetry; by apply verdict_check_ok).
      by apply IH.
    + destruct (fails i); [done|]. by apply IH.
Qed.

Lemma process_batch_like fails sweeps t l batch :
  knows_rewritten (t_shape t) = true -> tables_like sweeps t l ->
  let '(t', ok, acks) := process_batch fails t batch in let '(l', ok', acks') := process_batch fails l batch in
  ok = ok' /\ acks = acks' /\ tables_like sweeps t' l'.
Proof.
  intros Hk Hl. pose proof Hl as (Hs & Hn & Hrows). unfold process_batch. destruct (fails 0%nat); [done|].
  destruct (batch_loop_like fails batch 1 t l [] Hk Hs) as (Hi & Ha).
  destruct (batch_loop fails 1 t batch []) as [[t1|] a1] eqn:E1, (batch_loop fails 1 l batch []) as [[l1|] a2] eqn:E2; cbn in *.
  - assert (Hkl : knows_rewritten (t_shape l) = true) by (by rewrite <- Hs).
    destruct (batch_loop_spec _ _ _ _ _ _ _ Hk E1) as (-> & _), (batch_loop_spec _ _ _ _ _ _ _ Hkl E2) as (-> & _).
    split; [done|]. split; [done|]. split; [done|]. cbn. rewrite Hn. split; [done|]. intros row. rewrite !elem_of_app. intros [Hr|Hr]; [|left; by right].
    destruct (Hrows row Hr); [left; by left|by right].
  - destruct (proj1 Hi) as (x & Hx); [by eexists|done].
  - destruct (proj2 Hi) as (x & Hx); [by eexists|done].
  - done.
Qed.

Lemma logs_snoc tr B (e : Ev B) b :
  logs (tr ++ [mkObs _ e b]) = logs tr ++ match logged_event e with Some (LQuery q) => [q] | _ => [] end.
Proof. rewrite logs_app. f_equal. by destruct e as [| | | | | | | | | | | | | | | | | |[]| | | | |]. Qed.

Lemma recorded_middle pre h post : recorded (pre ++ h :: post) = recorded pre ++ logs (h_trace h) ++ recorded post.
Proof. unfold recorded. by rewrite map_middle, concat_app. Qed.
Lemma recorded_join pre post : recorded (pre ++ post) = recorded pre ++ recorded post.
Proof. unfold recorded. by rewrite map_join, concat_app. Qed.

Lemma works_log cap t x x' : (exists cs ts, inv (core x) cs ts) -> works x x' -> log_inv cap t x -> log_inv cap t x'.
Proof.
  intros (cs & tsl & Hi) Hw [Hwr Ht Hr]. destruct Hw as [o p p' pre post h B e k b ts io lg ph rc an _ Hcode He|p pre post h resp taken ts io lg ph rc an _ Hcode
         |o p p' pre post tk B e k b hs io lg ph rc an _ He|p pre post tk hs io lg ph rc an _]; cbn in *.
  - destruct (log_event cap t lg o B e p b p' He Hwr Ht) as (W & T). split; cbn; [done|done|].
    destruct (offer_ops lg B e) as (_ & _ & ->). rewrite recorded_middle in Hr. rewrite recorded_middle. cbn [advance h_trace]. rewrite logs_snoc.
    destruct (logged_event e) as [[q|d]|]; rewrite ?offered_snoc; cbn [record_of]; rewrite ?app_nil_r, Hr; [|done..].
    rewrite <- !app_assoc. apply Permutation_app_head, Permutation_app_head. rewrite !(app_assoc (recorded post)). by rewrite Permutation_app_comm.
  - rewrite recorded_middle in Hr. split; cbn; [done|done|]. rewrite Hr, recorded_join. unfold recorded at 6. cbn [map concat]. fold (recorded (map a_query an)).
    cbn. rewrite <- !app_assoc. apply Permutation_app_head. rewrite !app_assoc. by rewrite (Permutation_app_comm (logs _)).
  - destruct (log_event cap t lg o B e p b p' He Hwr Ht) as (W & T). split; cbn; [done|done|].
    destruct (offer_ops lg B e) as (_ & _ & ->). destruct Hi as [_ It _ _ _]. unfold core in It. cbn in It.
    apply all2_middle in It as (t1 & s & t3 & -> & _ & (_ & Hnw & _) & _). destruct Hnw as (Hq & _).
    destruct (logged_event e) as [[q|d]|] eqn:El; rewrite ?offered_snoc; cbn [record_of]; rewrite ?app_nil_r; [|done..].
    destruct e; try discriminate El. cbn in El. injection El as ->. discriminate Hq.
  - by split.
Qed.

Lemma ledger_shape cap t ops : 0 <= cap -> knows_rewritten (t_shape t) = true -> t_shape (l_tables (ledger cap t ops)) = t_shape t.
Proof. intros Hc Hk. unfold ledger. by rewrite (bal_tables _ _ _ (ledger_balanced cap t ops Hc Hk)). Qed.

Lemma happens_log cap t x x' :
  0 <= cap -> knows_rewritten (t_shape t) = true -> happens x x' -> log_inv cap t x -> log_inv cap t x'.
Proof.
  intros Hcap Hk Hx [Hwr Ht Hr].
  destruct Hx as [p hs ts io lg ph rc an fd peer bytes request now _ _ _|p hs ts io lg ph rc an fd peer _ _|p hs ts io lg ph rc an c bytes
    |p hs ts io lg ph rc an c cn request rest now _ Hl Hq Hrd|p hs ts io lg ph rc an c cn Hl Hq|p pol hs ts io lg rc an _
    |p hs ts io t0 ops sw ph rc an fails w t' ok acks Hw|p hs ts io t0 ops sw rc an now|p hs ts io lg rc an|p hs ts io lg rc an now deadline _
    |p hs ts io t0 ops sw rc an ack w Hw|p hs ts io lg rc an ack _|p hs ts io t0 ops sw ph rc an h s];
    cbn in *; try (by split).
  - pose proof (ledger_shape cap t ops Hcap Hk) as Hsh. assert (Hk0 : knows_rewritten (t_shape t0) = true) by (by rewrite (proj1 Ht), Hsh).
    split; cbn; rewrite ?ledger_snoc, ?offered_snoc; cbn [log_step record_of]. 3: by rewrite app_nil_r.
    all: rewrite <- Hwr; unfold writer_turn in *; destruct (w_queue (p_writer p)) as [|m q] eqn:Eq; [done|].
    all: pose proof (process_batch_like fails sw t0 (l_tables (ledger cap t ops)) (take (Z.to_nat BATCH_SIZE) (m :: q)) Hk0 Ht) as Hp.
    all: destruct (process_batch fails t0 _) as [[t1 ok1] a1], (process_batch fails (l_tables _) _) as [[l1 ok2] a2]; injection Hw as <- <- <- <-; cbn; first [done|apply Hp].
  - split; cbn; [done| |done]. destruct Ht as (H1' & H2' & H3'). split; [done|]. split; [done|]. intros row Hrow. cbn.
    destruct (H3' row Hrow) as [Hin|(n & Hn & Hts)]; [|right; exists n; split; [by right|done]].
    destruct (Z.ltb_spec (row_ts row) (now - LOG_RETENTION_SECS)) as [Hlt|Hge]; [right; exists now; split; [by left|done]|].
    left. apply list_elem_of_In, filter_In. split; [by apply list_elem_of_In|]. by rewrite (proj2 (Z.ltb_ge _ _)).
  - split; cbn; rewrite ?ledger_snoc, ?offered_snoc; cbn [log_step record_of]; rewrite <- ?Hwr, ?Hw; [done|done|by rewrite app_nil_r].
Qed.

Lemma log_holds cap t p sockets x :
  0 <= cap -> knows_rewritten (t_shape t) = true -> starts p -> p_writer p = writer_new cap -> comes_to p sockets t x -> log_inv cap t x.
Proof.
  intros Hcap Hk Hs Hw. revert x. apply (comes_to_ind (log_inv cap t)).
  - split; cbn; [done| |done]. split; [done|]. split; [done|]. by left.
  - intros x x' Hc Hi [Hwk|Hx]; [|by eapply happens_log]. eapply works_log; [|done|done].
    by apply (reachable_inv p), (comes_to_reachable p sockets t).
Qed.

(** ** At rest, and at the end *)
Lemma comes_to_runs (R : Node -> Node -> Prop) p sockets t k x x' :
  (forall y y', R y y' -> moves y y') -> comes_to p sockets t x -> runs_to R k x x' -> comes_to p sockets t x'.
Proof.
  intros HR (n & Hn) Hr. exists (n + k)%nat. induction Hn as [y|n y y1 y2 Hy Hn IH].
  - induction Hr as [y|k y y1 y2 Hy Hr IH]; [constructor|]. econstructor; [by apply HR|done].
  - econstructor; [exact Hy|by apply IH].
Qed.

(** The history of the log only grows. *)
Lemma moves_ops x x' : moves x x' -> exists more, lg_ops (nd_log x') = lg_ops (nd_log x) ++ more.
Proof.
  assert (Hn : forall ops : list LogOp, exists more, ops = ops ++ more) by (intros ops; exists []; by rewrite app_nil_r).
  intros [Hw|Hx].
  - destruct Hw as [o p p' pre post h B e k b ts io lg|p pre post h resp taken ts io lg|o p p' pre post tk B e k b hs io lg|p pre post tk hs io lg]; cbn; try apply Hn.
    all: destruct (offer_ops lg B e) as (_ & _ & ->); by eexists.
  - destruct Hx; cbn; try apply Hn; by eexists.
Qed.

(** The ledger only grows. *)
Lemma log_step_grows s o :
  l_accepted s `prefix_of` l_accepted (log_step s o) /\ l_batches s `prefix_of` l_batches (log_step s o).
Proof.
  destruct o as [e|a|fails]; cbn [log_step].
  - destruct (log (l_writer s) e) as [[] w]; cbn; split; try done; by apply prefix_app_r.
  - destruct (try_send _ _); cbn; split; try done; by apply prefix_app_r.
  - destruct (writer_turn _ _ _) as [[[[w t] ok] acks]|]; cbn; split; try done; by apply prefix_app_r.
Qed.
Lemma ledger_grows cap t ops more :
  l_accepted (ledger cap t ops) `prefix_of` l_accepted (ledger cap t (ops ++ more))
  /\ l_batches (ledger cap t ops) `prefix_of` l_batches (ledger cap t (ops ++ more)).
Proof.
  induction more as [|o more IH] using rev_ind; [by rewrite app_nil_r|]. rewrite app_assoc, ledger_snoc.
  destruct IH as (I1 & I2), (log_step_grows (ledger cap t (ops ++ more)) o) as (G1 & G2). split; by etransitivity.
Qed.

(** From the drain to the return: what was accepted by then is in a batch
    when the flush returns. *)
Definition stop_inv (cap : Z) (t : Tables) (acc : list Msg) (x : Node) : Prop :=
  let l := ledger cap t (lg_ops (nd_log x)) in
  match nd_phase x with
  | Running => False
  | Draining | FlushWait => acc `prefix_of` l_accepted l
  | Flushing a => exists mid, (acc ++ mid ++ [MFlush a]) `prefix_of` l_accepted l
  | Stopped => acc `prefix_of` concat (map snd (l_batches l))
  end.

Lemma prefix_concat {A : Type} (l k : list (bool * list A)) : l `prefix_of` k -> concat (map snd l) `prefix_of` concat (map snd k).
Proof. intros (m & ->). rewrite map_app, concat_app. by apply prefix_app_r. Qed.

Lemma stop_inv_grows cap t acc x x' :
  nd_phase x' = nd_phase x -> (exists more, lg_ops (nd_log x') = lg_ops (nd_log x) ++ more) -> stop_inv cap t acc x -> stop_inv cap t acc x'.
Proof.
  unfold stop_inv. intros -> (more & ->). destruct (ledger_grows cap t (lg_ops (nd_log x)) more) as (G1 & G2).
  destruct (nd_phase x); [done|intros Hp; by etransitivity..| |].
  - intros (mid & Hp). exists mid. by etransitivity.
  - intros Hp. etransitivity; [exact Hp|]. by apply prefix_concat.
Qed.

(** A message that is accepted and no longer queued is in a batch, and so
    is what was accepted before it. *)
Lemma prefix_past {A : Type} (l k q : list A) (m : A) : (l ++ [m]) `prefix_of` (k ++ q) -> m ∉ q -> l `prefix_of` k.
Proof.
  revert k. induction l as [|a l IH]; intros k (r & E) Hm; [apply prefix_nil|]. destruct k as [|b k].
  - destruct Hm. cbn in E. rewrite E. right. rewrite <- app_assoc. apply elem_of_app. right. by left.
  - injection E as <- E. apply prefix_cons. apply IH; [|done]. by exists r.
Qed.

Lemma moves_stop cap t acc p sockets x x' :
  0 <= cap -> knows_rewritten (t_shape t) = true -> starts p -> p_writer p = writer_new cap -> comes_to p sockets t x ->
  moves x x' -> stop_inv cap t acc x -> stop_inv cap t acc x'.
Proof.
  intros Hcap Hk Hs Hw Hc Hm. pose proof (log_holds cap t p sockets x Hcap Hk Hs Hw Hc) as [Hwr _ _].
  pose proof (moves_ops x x' Hm) as Hops. destruct Hm as [Hwk|Hx]; [apply stop_inv_grows; [by apply works_phase|done]|].
  destruct Hx; try (by apply stop_inv_grows); unfold stop_inv; cbn in *; try done.
  - intros Hp. rewrite ledger_snoc. cbn [log_step]. rewrite <- Hwr. match goal with E : try_send _ _ = Some _ |- _ => rewrite E end. cbn. exists (drop (length acc) (l_accepted (ledger cap t ops))).
    destruct Hp as (r & ->). rewrite drop_app_length, <- app_assoc. done.
  - intros (mid & Hp). pose proof (bal_order _ _ _ (ledger_balanced cap t (lg_ops lg) Hcap Hk)) as Eo. fold (ledger cap t (lg_ops lg)) in Eo. rewrite Eo in Hp.
    rewrite app_assoc in Hp. apply prefix_past in Hp; [|by rewrite <- Hwr]. etransitivity; [|exact Hp]. by apply prefix_app_r.
Qed.

(** Nothing refused: the records accepted are the records offered. *)
Lemma offered_accepted cap t ops : l_rejected (ledger cap t ops) = 0%nat -> batch_queries (l_accepted (ledger cap t ops)) = offered ops.
Proof.
  induction ops as [|o ops IH] using rev_ind; [done|]. rewrite ledger_snoc, offered_snoc.
  destruct o as [e|a|fails]; cbn [log_step].
  - destruct (log _ e) as [[] w]; cbn; [|done]. intros Hz. unfold batch_queries in *. rewrite omap_app, IH by done. f_equal. by destruct e.
  - destruct (try_send _ _); cbn; intros Hz; rewrite ?app_nil_r; [|by apply IH]. unfold batch_queries in *. rewrite omap_app, IH by done. by rewrite app_nil_r.
  - destruct (writer_turn _ _ _) as [[[[w t'] ok] acks]|]; cbn; intros Hz; rewrite ?app_nil_r; by apply IH.
Qed.

Lemma number_rows_elem i qs q : q ∈ qs -> exists j, row_of_query j q ∈ number_rows i qs.
Proof.
  intros (k & Hk)%list_elem_of_lookup. exists (i + Z.of_nat k). apply list_elem_of_lookup. exists k. unfold number_rows. by rewrite list_lookup_imap, Hk.
Qed.

Lemma complete_logs a : complete a -> exists q, logs (h_trace (a_query a)) = [q].
Proof.
  intros Hc. destruct (handle_at_runs _ _ _ _ _ Hc) as (Hh & _). clear Hc. unfold handled_as in Hh.
  destruct Hh as (prev & l & d & _ & Hl & _). eexists. exact Hl.
Qed.

Lemma each_elem {A B : Type} (P : A -> Prop) (f : A -> list B) (l : list A) b :
  each P l -> b ∈ concat (map f l) -> exists a, P a /\ b ∈ f a.
Proof.
  induction l as [|a l IH]; cbn; [by intros _ Hb%elem_of_nil|]. intros (Ha & Hl). rewrite elem_of_app. intros [Hb|Hb]; [by exists a|by apply IH].
Qed.

(** A reply is what the policy made of the query, and fits it. *)
Definition served (a : Answer) : Prop :=
  handled_as (h_request (a_query a)) (h_client (a_query a)) (h_now (a_query a)) (h_trace (a_query a)) (a_reply a)
  /\ reply_ok (h_request (a_query a)) (a_reply a).
Lemma complete_served a : complete a -> served a.
Proof. intros Hc. exact (handle_at_runs _ _ _ _ _ Hc). Qed.

(** ** The policies in force *)
Lemma exec_policy o B (e : Ev B) p b p' : exec o e p = Some (b, p') -> p_policy p' = p_policy p.
Proof. revert b. by_event e p. Qed.

Lemma works_policy x x' : works x x' -> p_policy (nd_pipe x') = p_policy (nd_pipe x).
Proof. intros []; cbn; by eauto using exec_policy. Qed.

(** A query reads the policy in force. *)
Lemma exec_reads o B (e : Ev B) p b p' tr (P : Policy -> Prop) :
  exec o e p = Some (b, p') -> P (p_policy p) -> each P (policies tr) -> each P (policies (tr ++ [mkObs _ e b])).
Proof.
  intros He Hp Ht. unfold policies. rewrite project_app. apply each_app. split; [done|].
  destruct e; try done. cbn in He. injection He as <- _. by split.
Qed.

(** Every policy a query has read satisfies [P]. *)
Record reads_only (P : Policy -> Prop) (x : Node) : Prop := {
  ro_handling : each (fun h => each P (policies (h_trace h))) (nd_handling x);
  ro_answered : each (fun a => each P (policies (h_trace (a_query a)))) (nd_answered x)
}.

Lemma moves_reads (P : Policy -> Prop) x x' : moves x x' -> P (p_policy (nd_pipe x)) -> reads_only P x -> reads_only P x'.
Proof.
  intros [Hw|Hx] Hp [Hh Ha].
  - destruct Hw; cbn in *; (split; cbn; try done).
    + apply each_middle in Hh as (Hh & Hr). apply each_middle. split; [|done]. by eapply exec_reads.
    + by apply each_middle in Hh as (_ & Hr).
    + split; [|done]. by apply each_middle in Hh as (Hh & _).
  - destruct Hx; cbn in *; by split.
Qed.

(** While only policies that satisfy [P] are in force, queries read no other. *)
Definition moves_under (P : Policy -> Prop) (x x' : Node) : Prop := moves x x' /\ P (p_policy (nd_pipe x')).

Lemma under_reads (P : Policy -> Prop) k p sockets t x :
  P (p_policy p) -> runs_to (moves_under P) k (node_new p sockets t) x -> reads_only P x.
Proof.
  intros Hp Hr. assert (H0' : reads_only P (node_new p sockets t)) by by split.
  assert (Hp' : P (p_policy (nd_pipe (node_new p sockets t)))) by done. revert Hp' H0'.
  induction Hr as [x|n x x1 x2 (Hm & Hn) Hr IH]; [done|]. intros Hp0 Ho. apply IH; [done|]. by eapply moves_reads.
Qed.

Lemma under_comes (P : Policy -> Prop) k p sockets t x : runs_to (moves_under P) k (node_new p sockets t) x -> comes_to p sockets t x.
Proof. apply (comes_to_runs (moves_under P) p sockets t k); [by intros y y' (Hm & _)|]. exists 0%nat. constructor. Qed.

Lemma works_under (P : Policy -> Prop) k x x' : runs_to works k x x' -> P (p_policy (nd_pipe x)) -> runs_to (moves_under P) k x x'.
Proof.
  induction 1 as [x|n x x1 x2 Hw Hr IH]; [constructor|]. intros Hp. pose proof (works_policy _ _ Hw) as E.
  econstructor; [split; [by left|by rewrite E]|]. apply IH. by rewrite E.
Qed.
End Spec.

(** ** Properties *)
Section Properties.
Context `{HickoryOps} `{HashIter} `{IpNetOps} `{RcodeDisplay} `{IpDisplay}.

(** C4: every query that reaches the daemon is answered, where it came
    from. From any state a started daemon reaches, serving or draining,
    its own work is bounded, and when it comes to rest no query is left:
    the answers belong one to one to the queries read from the sockets,
    each decided by the policy and fitting its request; the datagrams sent
    are the answers to the datagrams received, each to its sender from the
    socket it came to, and no others; no connection waits, and on each
    open one the queries spelled by the bytes read are answered by the
    bytes written, in order. *)
Theorem daemon_answers p sockets t x :
  starts p -> comes_to p sockets t x -> nd_phase x <> Stopped ->
  (exists bound, forall k x', runs_to works k x x' -> (k <= bound)%nat)
  /\ forall k x', runs_to works k x x' -> (forall x'', ~ works x' x'') ->
      nd_handling x' = []
      /\ nd_received x' ≡ₚ map (fun a => asked (a_query a)) (nd_answered x')
      /\ each served (nd_answered x')
      /\ io_sent (nd_io x') = datagrams (nd_answered x')
      /\ forall c cn, io_conns (nd_io x') !! c = Some cn ->
           cn_asking cn = None /\ cn_dialog cn = exchanges c (nd_answered x')
           /\ (exists bytes, cn_received cn = bytes ++ cn_unread cn /\ reads_as (map fst (cn_dialog cn)) bytes)
           /\ framed_as (map snd (cn_dialog cn)) (cn_written cn).
Proof.
  intros Hs Hc Hph. destruct (reachable_inv _ _ Hs (comes_to_reachable _ _ _ _ Hc)) as (cs & ts & Hi). split.
  - exists (work_left cs + work_left ts)%nat. intros k x' Hk. apply runs_to_core in Hk.
    destruct (steps_work_inv _ _ _ _ _ Hi Hk) as (cs' & ts' & _ & Hle). lia.
  - intros k x' Hk Hrest. pose proof (runs_to_phase _ _ _ Hk) as Hph'.
    pose proof (comes_to_runs works _ _ _ _ _ _ (fun y y' Hy => or_introl Hy) Hc Hk) as Hc'.
    apply runs_to_core in Hk. destruct (steps_work_inv _ _ _ _ _ Hi Hk) as (cs' & ts' & Hi' & _).
    destruct (progress _ _ _ Hi') as [(Hcl & _)|(c'' & Hw)].
    2:{ destruct (core_works x' c'') as (x'' & Hx); [by rewrite Hph'|done|by destruct (Hrest x'')]. }
    assert (Hn : nd_handling x' = []) by (unfold core in Hcl; cbn in Hcl; by destruct (nd_handling x')).
    destruct (answers_hold _ _ _ _ Hc') as [Ha _ Hd Hsent], (conns_hold _ _ _ _ Hc') as [Hcn _ _ _ Hwait].
    rewrite Hn in Ha, Hwait. split; [done|]. split; [done|]. split; [eapply each_impl; [|exact Hd]; apply complete_served|]. split; [done|].
    intros c cn Hl. destruct (Hcn c cn Hl) as (_ & [I1 I2 I3]).
    assert (Hidle : cn_asking cn = None) by (destruct (cn_asking cn) eqn:E; [|done]; specialize (Hwait c cn Hl); rewrite E in Hwait; by specialize (Hwait ltac:(done)) as ?%elem_of_nil).
    rewrite Hidle, app_nil_r in I1. done.
Qed.

End Properties.
