(* ===== verification/ServerRun.v ===== *)
(** * ServerRun: running the server model

    A query run alone and a scheduler that drives the newest query, both
    executable, with the witnesses of the server's theorems: a blocked, an
    allowed and a shed query, a cloaked tracker, and two lookups in flight. *)
From S2P Require Import Prelude Text Time IpAddr FilterTypes Parse Engine KeyIndexSpec EngineSpec VerdictSpec Dns Cache CacheSpec FailCache SafeSearch Shadow Db Proc Pipeline Server ServerSpec Scheduler SchedulerSpec ServerLiveness.

Section Run.
Context `{HickoryOps} `{HashIter} `{IpNetOps} `{RcodeDisplay}.

(** A task run alone from a shared state, against one oracle. *)
Fixpoint run_alone (o : Oracle) {A} (p : Proc Ev A) (s : Pipeline) : option (list (Obs Ev) * A * Pipeline) :=
  match p with
  | Ret a => Some ([], a, s)
  | Panic => None
  | Vis e k =>
      match exec o e s with
      | None => None
      | Some (b, s') =>
          match run_alone o (k b) s' with
          | Some (tr, a, s'') => Some (mkObs _ e b :: tr, a, s'')
          | None => None
          end
      end
  end.

Lemma run_alone_runs o {A} (p : Proc Ev A) s tr a s' : run_alone o p s = Some (tr, a, s') -> runs p tr a.
Proof.
  revert s tr. induction p as [a'|B e k IH|]; intros s tr; cbn [run_alone runs]; [by intros [= <- <- _]| |done].
  destruct (exec o e s) as [[b s1]|]; [|done]. destruct (run_alone o (k b) s1) as [[[tr1 a1] s2]|] eqn:E; [|done].
  intros [= <- <- <-]. exists b, tr1. split; [done|]. by eapply IH.
Qed.

(** [n] events of the newest query. *)
Fixpoint drive (o : Oracle) (n : nat) (c : Config) : option Config :=
  match n with
  | O => Some c
  | S n =>
      match g_clients c with
      | [] => None
      | cl :: post =>
          match cl_code cl with
          | Vis e k =>
              match exec o e (g_pipe c) with
              | Some (b, p') =>
                  drive o n (mkConfig p' (mkClient (cl_request cl) (k b) :: post)
                               (map start_task (spawned e) ++ g_tasks c) (g_replies c) (g_arrived c) (g_cancelled c))
              | None => None
              end
          | _ => None
          end
      end
  end.

Definition arrive (request : Message) (client : IpAddr) (now : Instant) (c : Config) : Config :=
  mkConfig (g_pipe c) (mkClient request (handle_at request client now) :: g_clients c) (g_tasks c) (g_replies c)
    (S (g_arrived c)) (g_cancelled c).

Lemma drive_steps o n c c' : drive o n c = Some c' -> steps step n c c'.
Proof.
  revert c. induction n as [|n IH]; intros c; cbn [drive]; [intros [= <-]; constructor|].
  destruct c as [p cls ts rs a m]. cbn. destruct cls as [|[r code] post]; [done|]. cbn.
  destruct code as [|B e k|]; [done| |done]. destruct (exec o e p) as [[b p']|] eqn:E; [|done].
  intros Hd. econstructor; [|by apply IH]. left. by apply (w_client o _ _ []).
Qed.

Lemma arrive_step request client now c : step c (arrive request client now c).
Proof. destruct c as [p cls ts rs a m]. right. constructor. Qed.

Lemma reachable_arrive p request client now c : reachable p c -> reachable p (arrive request client now c).
Proof.
  intros (n & Hn). exists (n + 1)%nat. eapply steps_trans; [exact Hn|]. econstructor; [apply arrive_step|constructor].
Qed.

Lemma reachable_drive p o n c c' : reachable p c -> drive o n c = Some c' -> reachable p c'.
Proof. intros (m & Hm) Hd. exists (m + n)%nat. eapply steps_trans; [exact Hm|by eapply drive_steps]. Qed.
End Run.

(** ** A concrete server *)
#[local] Existing Instance text_names.
#[local] Existing Instance text_ops.
#[local] Existing Instance map_order.
#[local] Existing Instance merge_sort_keys.
#[local] Instance one_host : IpNetOps := {| IpNet := IpAddr; net_contains := fun a b => bool_decide (a = b) |}.
#[local] Instance rcode_numbers : RcodeDisplay := {| rcode_display := fun rc => [rc] |}.

Definition run_list : list Z := lit "||ads.com^".
Definition run_engine : Engine := default engine_default (build_texts [run_list]).
Definition run_client : IpAddr := V4 [127; 0; 0; 1].
Definition run_policy : Policy := mkPolicy run_engine (mkSafeSearch 0) [run_client].
Definition run_cache : Inner := default (mkInner ∅ [] 0 0 0 0 0 0 0) (with_limits 16 1000000 3600).
Definition run_pipeline : Pipeline := from_policy run_policy run_cache (writer_new 64).
Definition run_request (name : string) : Message :=
  add_query (message_new 7 MQuery OpQuery) (mkQuery (lit name) 1 CLASS_IN).
Definition run_oracle : Oracle := mkOracle 0 0 NoUpstream None.

Lemma run_pipeline_starts : starts run_pipeline.
Proof.
  split.
  - destruct (with_limits_stands_for 16 1000000 3600) as (s & Es & Hs); [split; [|split]; zcompute|].
    exists run_policy, run_cache, (writer_new 64), (mkAbs [] 16 1000000 3600). split; [by left|].
    split; [unfold run_cache; by rewrite Es|].
    destruct (build_texts_built [run_list]) as (e & He & _); [split; zcompute|].
    unfold policy_ok, run_policy, run_engine. cbn [pol_engine]. rewrite He. exact (build_answers [run_list] e He).
  - split; vm_compute; by eexists.
Qed.

(** A tracker behind an alias: cached, so that the query runs alone. *)
Definition cloaked_answer : Message :=
  add_answer (message_new 0 MResponse OpQuery)
    (mkRecord (lit "metrics.shop.example.") CLASS_IN 300 (RCNAME (lit "t.ads.com."))).
Definition cloaked_pipeline : Pipeline :=
  set_cache run_pipeline
    (default run_cache (Cache.insert run_cache (mkKey (lit "metrics.shop.example") 1 CLASS_IN) cloaked_answer 0)).

Definition run_query (p : Pipeline) (name : string) : option (list (Obs Ev) * Message * Pipeline) :=
  run_alone run_oracle (handle_at (run_request name) run_client 0) p.

Definition answer_code (r : option (list (Obs Ev) * Message * Pipeline)) : option Z :=
  match r with Some (_, m, _) => Some (rcode m) | None => None end.

Example blocked_name : answer_code (run_query run_pipeline "x.ads.com.") = Some NXDomain.
Proof. vm_compute. reflexivity. Qed.
Example cloaked_name : answer_code (run_query cloaked_pipeline "metrics.shop.example.") = Some NXDomain.
Proof. vm_compute. reflexivity. Qed.

(** A search host whose endpoint is an alias of a blocked name: the
    endpoint's records come back unchecked. *)
Definition search_answer : Message :=
  add_answer (message_new 0 MResponse OpQuery)
    (mkRecord (lit "forcesafesearch.google.com.") CLASS_IN 300 (RCNAME (lit "t.ads.com."))).
Definition search_pipeline : Pipeline :=
  set_cache (from_policy (mkPolicy run_engine (mkSafeSearch 1) [run_client]) run_cache (writer_new 64))
    (default run_cache (Cache.insert run_cache (mkKey (lit "forcesafesearch.google.com") 1 CLASS_IN) search_answer 0)).

Example safesearch_endpoint_unchecked :
  match run_query search_pipeline "www.google.com." with
  | Some (_, m, _) => rcode m = NoError /\ map r_data (answers m) = [RCNAME (lit "forcesafesearch.google.com."); RCNAME (lit "t.ads.com.")]
  | None => False
  end
  /\ answer_code (run_query search_pipeline "t.ads.com.") = Some NXDomain.
Proof. vm_compute. split; [split|]; reflexivity. Qed.

(** A reply with the question of the upstream's message: the cached records
    come without one, a shared lookup's message may have any. *)
Definition own_question : Message := add_query (message_new 9 MResponse OpQuery) (mkQuery (lit "WWW.example.") 1 CLASS_IN).

Example question_kept :
  queries (restamp own_question (run_request "www.example.")) = queries own_question
  /\ queries own_question <> queries (run_request "www.example.").
Proof. split; [reflexivity|vm_compute; congruence]. Qed.

(** ** Witnesses *)

(** The run of a query, with what it is a run of. *)
Lemma run_query_runs p name :
  match run_query p name with
  | Some (tr, m, _) => runs (handle_at (run_request name) run_client 0) tr m
  | None => True
  end.
Proof. destruct (run_query p name) as [[[tr m] p']|] eqn:E; [by eapply run_alone_runs|done]. Qed.


Lemma replies_fit_requests_witness :
  match run_query run_pipeline "x.ads.com." with
  | Some (tr, m, _) => msg_id (metadata m) = 7
  | None => False
  end.
Proof.
  pose proof (run_query_runs run_pipeline "x.ads.com.") as Hr.
  assert (Hs : match run_query run_pipeline "x.ads.com." with Some _ => True | None => False end) by (vm_compute; exact I).
  destruct (run_query run_pipeline "x.ads.com.") as [[[tr m] p']|]; [|destruct Hs].
  exact (proj1 (replies_fit_requests _ _ _ _ _ Hr)).
Defined.

(** The cloaked run loads the one policy. *)
Lemma cloaked_policy :
  match run_query cloaked_pipeline "metrics.shop.example." with
  | Some (tr, _, _) => policies tr = [run_policy]
  | None => True
  end.
Proof. vm_compute. reflexivity. Qed.

Lemma no_cloaked_tracker_witness :
  match run_query cloaked_pipeline "metrics.shop.example." with
  | Some (tr, m, _) => forall r target lst rule, r ∈ answers m -> r_data r = RCNAME target ->
      verdict run_engine (normalize_qname (name_to_ascii target)) <> Some (VBlock lst rule)
  | None => False
  end.
Proof.
  pose proof (run_query_runs cloaked_pipeline "metrics.shop.example.") as Hr. pose proof cloaked_policy as Hp.
  assert (Hs : match run_query cloaked_pipeline "metrics.shop.example." with Some _ => True | None => False end) by (vm_compute; exact I).
  destruct (run_query cloaked_pipeline "metrics.shop.example.") as [[[tr m] p']|]; [|destruct Hs].
  refine (no_cloaked_tracker _ _ _ _ _ run_policy (mkQuery (lit "metrics.shop.example.") 1 CLASS_IN) [] Hr Hp eq_refl _ _).
  - intros lst rule. vm_compute. intros HF; discriminate HF.
  - vm_compute. reflexivity.
Defined.

(** A cached name, resolved alone. *)
Definition run_resolution : option (list (Obs Ev) * (Message * ResponseSource) * Pipeline) :=
  run_alone run_oracle (resolve_cached (run_request "metrics.shop.example.") (lit "metrics.shop.example") 1 0) cloaked_pipeline.

Lemma resolution_order_witness :
  match run_resolution with
  | Some (tr, (m, src), _) => exists l, project obs_lookup tr = [l]
  | None => False
  end.
Proof.
  assert (Hs : match run_resolution with Some _ => True | None => False end) by (vm_compute; exact I).
  destruct run_resolution as [[[tr [m src]] p']|] eqn:E; [|destruct Hs].
  apply run_alone_runs in E.
  destruct (resolution_order (run_request "metrics.shop.example.") (lit "metrics.shop.example") 1 0 tr m src
    (lit "metrics.shop.example") eq_refl E) as (l & Hl & _). exists l. exact Hl.
Defined.

(** Two queries for different names, both waiting for their lookups. *)
Definition two_lookups : option Config :=
  match drive run_oracle 8 (arrive (run_request "one.example.") run_client 0 (config_new run_pipeline)) with
  | Some c => drive run_oracle 8 (arrive (run_request "two.example.") run_client 0 c)
  | None => None
  end.

Lemma two_lookups_reachable c : two_lookups = Some c -> reachable run_pipeline c.
Proof.
  unfold two_lookups. intros H2.
  destruct (drive run_oracle 8 (arrive (run_request "one.example.") run_client 0 (config_new run_pipeline))) as [c1|] eqn:H1; [|done].
  eapply reachable_drive; [apply reachable_arrive|exact H2]. eapply reachable_drive; [apply reachable_arrive|exact H1].
  exists 0%nat. constructor.
Qed.

Definition networking_leaders (c : Config) : bool :=
  match g_tasks c with
  | [(TLeader _ _ _ _ _, p1); (TLeader _ _ _ _ _, p2)] => networking p1 && networking p2
  | _ => false
  end.

Lemma single_flight_witness :
  match two_lookups with
  | Some c => match g_tasks c with
              | [(TLeader _ _ key1 _ _, _); (TLeader _ _ key2 _ _, _)] => key_id key1 <> key_id key2
              | _ => False
              end
  | None => False
  end.
Proof.
  assert (Hn : match two_lookups with Some c => networking_leaders c | None => false end = true) by (vm_compute; reflexivity).
  pose proof two_lookups_reachable as Hr.
  destruct two_lookups as [c|]; [|discriminate Hn]. specialize (Hr c eq_refl). unfold networking_leaders in Hn.
  destruct (g_tasks c) as [|[[q1 n1 key1 now1 tx1|q1 key1|q1 o1 b1 n1 y1] p1] [|[[q2 n2 key2 now2 tx2|q2 key2|q2 o2 b2 n2 y2] p2] [|t tl]]] eqn:Et;
    try discriminate Hn.
  apply andb_true_iff in Hn as [N1 N2].
  exact (single_flight run_pipeline c [] [] [] _ _ p1 p2 run_pipeline_starts Hr Et N1 N2).
Defined.

Lemma every_query_answered_witness :
  exists c, reachable run_pipeline c /\ g_arrived c = 2%nat
    /\ exists bound, forall k c', steps work k c c' -> (k <= bound)%nat.
Proof.
  assert (Ha : match two_lookups with Some c => g_arrived c | None => 0%nat end = 2%nat) by (vm_compute; reflexivity).
  pose proof two_lookups_reachable as Hr. destruct two_lookups as [c|]; [|discriminate Ha].
  specialize (Hr c eq_refl). exists c. split; [exact Hr|]. split; [exact Ha|].
  exact (proj1 (every_query_answered run_pipeline c run_pipeline_starts Hr)).
Defined.

Lemma load_is_bounded_witness :
  exists c, reachable run_pipeline c
    /\ Z.of_nat (length (List.filter (fun cl => waiting (cl_code cl)) (g_clients c))) <= 512.
Proof.
  pose proof two_lookups_reachable as Hr.
  assert (Hs : match two_lookups with Some _ => True | None => False end) by (vm_compute; exact I).
  destruct two_lookups as [c|]; [|destruct Hs]. specialize (Hr c eq_refl). exists c. split; [exact Hr|].
  exact (proj1 (load_is_bounded run_pipeline c run_pipeline_starts Hr)).
Defined.
