(* ===== verification/NodeRun.v ===== *)
(** * NodeRun: a daemon from its first datagram to its end

    A driver of the newest query, and a run in which a blocked name is
    asked over UDP and over TCP and the daemon stops; the witnesses of
    NodeSpec. *)
From S2P Require Import Prelude Text Time IpAddr FilterTypes Parse Engine KeyIndexSpec EngineSpec VerdictSpec Dns Cache CacheSpec FailCache SafeSearch Shadow Db DbSpec Proc Pipeline Server ServerSpec Serving ServingSpec Config Sockets Scheduler SchedulerSpec ServerLiveness Node NodeSpec ServerRun.

Section Run.
Context `{HickoryOps} `{HashIter} `{IpNetOps} `{RcodeDisplay} `{IpDisplay}.

(** [n] steps of the newest query, its reply the last. *)
Fixpoint node_drive (o : Oracle) (n : nat) (x : Node) : option Node :=
  match n with
  | O => Some x
  | S n =>
      match nd_handling x with
      | [] => None
      | h :: post =>
          match h_code h with
          | Vis e k =>
              match exec o e (nd_pipe x) with
              | Some (b, p') =>
                  node_drive o n
                    (mkNode p' (advance h (mkObs _ e b) (k b) :: post) (map start_task (spawned e) ++ nd_tasks x) (nd_io x)
                       (offer (nd_log x) e) (nd_phase x) (nd_received x) (nd_answered x))
              | None => None
              end
          | Ret resp =>
              node_drive o n
                (mkNode (nd_pipe x) post (nd_tasks x) (deliver (nd_io x) h resp true) (nd_log x) (nd_phase x) (nd_received x)
                   (mkAnswer h resp :: nd_answered x))
          | Panic => None
          end
      end
  end.

Lemma node_drive_runs o n : forall x x', nd_phase x <> Stopped -> node_drive o n x = Some x' -> runs_to works n x x'.
Proof.
  induction n as [|n IH]; intros x x' Hp; cbn [node_drive]; [intros [= <-]; constructor|].
  destruct x as [p hs ts io lg ph rc an]. cbn in *. destruct hs as [|h post]; [done|]. destruct (h_code h) as [resp|B e k|] eqn:Eh; [| |done].
  - intros Hd. econstructor; [|by apply IH; [|exact Hd]]. by apply (k_reply _ []).
  - destruct (exec o e p) as [[b p']|] eqn:E; [|done]. intros Hd. econstructor; [|by apply IH; [|exact Hd]]. by apply (k_handle o _ _ []).
Qed.

Lemma comes_to_drive p sockets t o n x x' :
  comes_to p sockets t x -> nd_phase x <> Stopped -> node_drive o n x = Some x' -> comes_to p sockets t x'.
Proof. intros Hc Hp Hd. eapply (comes_to_runs works); [by left|exact Hc|by eapply node_drive_runs]. Qed.

Lemma comes_to_happens p sockets t x x' : comes_to p sockets t x -> happens x x' -> comes_to p sockets t x'.
Proof. intros Hc Hx. apply (comes_to_runs moves p sockets t 1 x x' (fun y y' Hy => Hy) Hc). econstructor; [by right|constructor]. Qed.
Definition stop_sockets (x : Node) : Node :=
  mkNode (nd_pipe x) (nd_handling x) (nd_tasks x) (mkIo [] (io_conns (nd_io x)) (io_next (nd_io x)) (io_sent (nd_io x)))
    (nd_log x) Draining (nd_received x) (nd_answered x).

(** [n] steps, then the sockets stop. *)
Definition stopping (o : Oracle) (n : nat) (x : Node) : option Node :=
  match node_drive o n x with
  | Some y => match nd_phase y with Running => Some (stop_sockets y) | _ => None end
  | None => None
  end.

Lemma stopping_comes p sockets t o n x x' :
  comes_to p sockets t x -> nd_phase x <> Stopped -> stopping o n x = Some x' -> comes_to p sockets t x'.
Proof.
  intros Hc Hp. unfold stopping. destruct (node_drive o n x) as [y|] eqn:E; [|done].
  pose proof (comes_to_drive _ _ _ _ _ _ _ Hc Hp E) as Hy. destruct (nd_phase y) eqn:Ep; try done. intros [= <-].
  apply (comes_to_happens _ _ _ y); [done|]. destruct y as [? ? ? ? ? ph ? ?]. cbn in Ep. subst ph. apply x_stop.
Qed.

(** A query asked and driven while its policy stays in force. *)
Lemma asked_under (P : Policy -> Prop) o n x y z :
  P (p_policy (nd_pipe x)) -> happens x y -> nd_pipe y = nd_pipe x -> nd_phase y <> Stopped -> node_drive o n y = Some z ->
  runs_to (moves_under P) (S n) x z.
Proof.
  intros Hp Hx E Hph Hd. econstructor; [split; [by right|by rewrite E]|].
  apply works_under; [by eapply node_drive_runs|by rewrite E].
Qed.
End Run.

(** ** A concrete daemon *)
#[local] Existing Instance text_names.
#[local] Existing Instance text_ops.
#[local] Existing Instance map_order.
#[local] Existing Instance merge_sort_keys.
#[local] Existing Instance one_host.
#[local] Existing Instance rcode_numbers.
#[local] Existing Instance show_v4.

Definition run_sockets : list SocketTask := [mkSocketTask Udp 1%nat; mkSocketTask Tcp 0%nat].
Definition run_peer : SocketAddr := mkSocketAddr run_client 5353.
Definition run_start : Node := node_new run_pipeline run_sockets wit_tables.

(** A question for a blocked name arrives as a datagram. *)
Definition ask_udp (x : Node) : Node :=
  mkNode (nd_pipe x) (begin (FromUdp 1%nat run_peer) run_client 0 (run_request "x.ads.com.") :: nd_handling x) (nd_tasks x) (nd_io x)
    (nd_log x) (nd_phase x) ((FromUdp 1%nat run_peer, run_request "x.ads.com.") :: nd_received x) (nd_answered x).
Lemma ask_udp_happens x : nd_phase x = Running -> mkSocketTask Udp 1%nat ∈ io_sockets (nd_io x) -> happens x (ask_udp x).
Proof.
  intros Hp Hs. destruct x as [p hs ts io lg ph rc an]. cbn in *. subst ph.
  by apply (x_datagram p hs ts io lg Running rc an 1%nat run_peer (7 :: lit "x.ads.com.")).
Qed.

Lemma run_start_comes : comes_to run_pipeline run_sockets wit_tables run_start.
Proof. exists 0%nat. constructor. Qed.

Lemma ask_once_comes : comes_to run_pipeline run_sockets wit_tables (ask_udp run_start).
Proof. apply (comes_to_happens _ _ _ run_start); [exact run_start_comes|]. apply ask_udp_happens; [reflexivity|left]. Qed.

(** The same, answered: eight events and the reply. *)
Notation run_answered := (node_drive run_oracle 9 (ask_udp run_start)).

Example run_answer :
  match run_answered with
  | Some x => (length (nd_handling x), length (nd_answered x), io_sent (nd_io x), len (offered (lg_ops (nd_log x))), in_flight (nd_pipe x))
  | None => (1%nat, 0%nat, [], 0, 0)
  end = (0%nat, 1%nat, [(1%nat, run_peer, [0])], 1, 0).
Proof. vm_compute. reflexivity. Qed.

Lemma daemon_answers_witness :
  exists x, comes_to run_pipeline run_sockets wit_tables x /\ length (nd_received x) = 1%nat
    /\ exists bound, forall k x', runs_to works k x x' -> (k <= bound)%nat.
Proof.
  pose proof ask_once_comes as Hc. exists (ask_udp run_start). split; [exact Hc|]. split; [reflexivity|].
  refine (proj1 (daemon_answers run_pipeline run_sockets wit_tables (ask_udp run_start) run_pipeline_starts Hc _)). intros HF; discriminate HF.
Defined.

Definition run_stopping : option Node := stopping run_oracle 9 (ask_udp run_start).

Lemma run_stopping_comes x : run_stopping = Some x -> comes_to run_pipeline run_sockets wit_tables x.
Proof. apply (stopping_comes run_pipeline run_sockets wit_tables run_oracle 9 (ask_udp run_start) x ask_once_comes). intros HF; discriminate HF. Qed.

Definition ready_to_flush (x : Node) : bool :=
  (match nd_phase x with Draining => true | _ => false end) && (in_flight (nd_pipe x) =? 0) && (length (nd_answered x) =? 1)%nat.

