(* ===== verification/EndToEnd.v ===== *)
(** * EndToEnd: from the lists of the configuration to the answer

    The daemon's policy, built from one acquired text per effective list,
    meets a query: what the lists say decides the answer, for one query and
    in any run of the node; [SystemSpec] says the policies are such. *)
From S2P Require Import Prelude Text Time Num IpAddr FilterTypes Parse Engine KeyIndexSpec LabelsSpec EngineSpec VerdictSpec Dns Cache FailCache SafeSearch Proc Shadow Db DbSpec Pipeline Server ServerSpec Scheduler ServerLiveness ServerRun.
From S2P Require Import Result Config Upstream Lists ListsSpec Daemon DaemonSpec Sockets Node NodeSpec NodeRun.

(** What a rule set says of a name. *)
Definition excepts (R : list Located) (q : list Z) : Prop := exists x, x ∈ R /\ action (snd x) = Except /\ covers (pattern (snd x)) q.
Definition blocks (R : list Located) (q : list Z) : Prop :=
  (exists x, x ∈ R /\ action (snd x) = Block /\ covers (pattern (snd x)) q) /\ ~ excepts R q.
Definition silent (R : list Located) (q : list Z) : Prop := forall x, x ∈ R -> ~ covers (pattern (snd x)) q.

(** A name as queries have it, once lowered and without its final dot. *)
Definition ordinary (q : list Z) : Prop := 1 <= len q <= 253 /\ no_trailing_dot q /\ c_star ∉ q.

Section EndToEnd.
Context `{HickoryOps} `{HashIter} `{ConfigOps} `{RcodeDisplay} `{UnstableSort} `{IpDisplay}.

(** The answer to an ordinary question of an allowed client, under
    [policy]. *)
Definition answered_as (policy : Policy) (R : list Located) (request : Message) (query : Query) (client : IpAddr) (now : Instant)
  (tr : list (Obs Ev)) (resp : Message) : Prop :=
  let qname := normalize_qname (name_to_ascii (q_name query)) in
  exists log d, logs tr = [log_stamp log (rcode resp) d]
  /\ (blocks R (query_name qname) ->
        synth_block_response request = Some resp /\ resolution tr = [] /\ q_verdict log = Blocked
        /\ exists lst r, q_list log = Some lst /\ (lst, r) ∈ R /\ action r = Block /\ covers (pattern r) (query_name qname))
  /\ (excepts R (query_name qname) -> exists l, q_verdict l = Excepted /\ resolved_as policy request qname (q_type query) now l (resolution tr) log resp)
  /\ (silent R (query_name qname) -> exists l, q_verdict l = Allowed /\ resolved_as policy request qname (q_type query) now l (resolution tr) log resp).

Lemma policy_decides policy texts request client now tr resp query rest :
  build_texts texts = Some (pol_engine policy) ->
  runs (handle_at request client now) tr resp -> policies tr = [policy] -> queries request = query :: rest ->
  client_allowed (pol_allow policy) client = true -> q_type query <> TYPE_ANY ->
  ordinary (query_name (normalize_qname (name_to_ascii (q_name query)))) ->
  answered_as policy (rules_of texts) request query client now tr resp.
Proof.
  intros Hb Hr Hp Hq Ha Ht (Hl & Hd & Hs). unfold answered_as. cbn zeta. set (qname := normalize_qname (name_to_ascii (q_name query))) in *.
  apply handle_at_runs in Hr as [(prev & log & d & _ & Hlog & _ & Hh) _]. rewrite Hp, Hq in Hh.
  destruct (_ <=? prev); [by destruct Hh as (? & _)|]. destruct Hh as (pol' & ts & [= <-] & Hh). unfold decided_as in Hh. cbn zeta in Hh.
  fold qname in Hh. rewrite Ha, (proj2 (Z.eqb_neq _ _) Ht) in Hh. cbn [negb orb] in Hh.
  destruct (verdict_decided texts _ qname Hb Hl Hd Hs) as (v & Hv & Hspec). rewrite Hv in Hh.
  exists log, d. split; [done|]. destruct v as [|lst m|lst m]; cbn [verdict_spec] in Hspec.
  - split; [|split].
    + intros ((x & Hx & _ & Hc) & _). by destruct (Hspec x Hx).
    + intros (x & Hx & _ & Hc). by destruct (Hspec x Hx).
    + intros _. eexists. split; [|exact Hh]. done.
  - destruct Hspec as ((r & Hin & Hact & Hc & _) & Hno). destruct Hh as (Hresp & Hres & ->). split; [|split].
    + intros _. split; [done|]. split; [done|]. split; [done|]. by exists lst, r.
    + intros (x & Hx & Hex & Hcx). by destruct (Hno x Hx Hex).
    + intros Hsil. by destruct (Hsil _ Hin).
  - destruct Hspec as (r & Hin & Hact & Hc & _). split; [|split].
    + intros (_ & Hne). destruct Hne. by exists (lst, r).
    + intros _. eexists. split; [|exact Hh]. done.
    + intros Hsil. by destruct (Hsil _ Hin).
Qed.

(** The lists decide the answers. A policy the daemon builds from a
    configuration ([daemon_never_unfiltered] says a serving daemon has no
    other) stands for the texts acquired for the configuration's lists: it
    satisfies what every theorem about the server asks of a policy, and under it, whatever the caches, the
    upstreams and the other queries do, an ordinary question of an allowed
    client for a name that some block rule of those texts covers and no
    exception does gets the block answer without touching cache or
    upstream, and the log names a list with such a rule; an excepted or
    unlisted name is resolved. *)
Theorem lists_decide_answers config policy l acqs :
  policy_from config policy l -> compiled (effective_lists config) acqs l ->
  policy_ok policy
  /\ forall request client now tr resp query rest,
       runs (handle_at request client now) tr resp -> policies tr = [policy] -> queries request = query :: rest ->
       client_allowed (allow (server config)) client = true -> q_type query <> TYPE_ANY ->
       ordinary (query_name (normalize_qname (name_to_ascii (q_name query)))) ->
       answered_as policy (rules_of (map ac_text acqs)) request query client now tr resp.
Proof.
  intros (_ & He & _ & Ha) Hc. pose proof (c_engine _ _ _ Hc) as Hb. rewrite <- He in Hb. split.
  - exact (build_answers (map ac_text acqs) _ Hb).
  - intros request client now tr resp query rest Hr Hp Hq Hcl Ht Ho. eapply policy_decides; try done. by rewrite Ha.
Qed.
(** [policy] was built whole from [config] and these texts of its lists. *)
Definition stands_for (config : Config.Config) (policy : Policy) (acqs : list Acquired) : Prop :=
  exists l, policy_from config policy l /\ compiled (effective_lists config) acqs l.
Definition built (policy : Policy) : Prop := exists config acqs, stands_for config policy acqs.

(** What became of a query: shed, refused to a stranger, or decided by the
    lists of one configuration. *)
Definition filtered (a : Answer) : Prop :=
  let request := h_request (a_query a) in
  forall query rest, queries request = query :: rest -> q_type query <> TYPE_ANY ->
    ordinary (query_name (normalize_qname (name_to_ascii (q_name query)))) ->
    policies (h_trace (a_query a)) = [] /\ a_reply a = synth_servfail request
    \/ exists config policy acqs, stands_for config policy acqs /\ policies (h_trace (a_query a)) = [policy]
       /\ if client_allowed (allow (server config)) (h_client (a_query a))
          then answered_as policy (rules_of (map ac_text acqs)) request query (h_client (a_query a)) (h_now (a_query a))
                 (h_trace (a_query a)) (a_reply a)
          else a_reply a = synth_refused request /\ resolution (h_trace (a_query a)) = [].

Lemma complete_filtered a : complete a -> each built (policies (h_trace (a_query a))) -> filtered a.
Proof.
  intros Hc Hp query rest Hq Ht Ho. pose proof (complete_served _ Hc) as ((prev & log & d & _ & _ & _ & Hh) & _).
  destruct (_ <=? prev); [left; by destruct Hh as (-> & _ & -> & _)|]. rewrite Hq in Hh. destruct Hh as (policy & ts & Hpol & Hd).
  right. rewrite Hpol in Hp. destruct Hp as ((config & acqs & Hs) & _). exists config, policy, acqs. split; [done|]. split; [done|].
  destruct Hs as (l & (_ & He & _ & Ha) & Hl). rewrite <- Ha. destruct (client_allowed (pol_allow policy) _) eqn:Hcl.
  - apply (policy_decides policy (map ac_text acqs) _ _ _ _ _ _ rest); try done. rewrite He. exact (c_engine _ _ _ Hl).
  - unfold decided_as in Hd. cbn zeta in Hd. rewrite Hcl in Hd. cbn [negb orb] in Hd. by destruct Hd as (-> & -> & _).
Qed.

(** The lists decide what the daemon answers. While every policy put
    in force is one built whole from a configuration and texts acquired
    for its lists ([daemon_never_unfiltered]: a serving daemon has no
    other), then whatever reaches its sockets and however its queries,
    tasks, reloads and shutdown interleave: an ordinary question is shed
    with SERVFAIL before any policy is read; or refused, unresolved, to a
    client that configuration does not allow; or decided by those texts: a
    name some block rule covers and no exception does gets the block answer
    without touching cache or upstream, and the log names a list with such
    a rule; an excepted or unlisted name is resolved. *)
Theorem daemon_filters p sockets t k x :
  built (p_policy p) -> runs_to (moves_under built) k (node_new p sockets t) x -> each filtered (nd_answered x).
Proof.
  intros Hp Hr. pose proof (under_reads built k p sockets t x Hp Hr) as [_ Ha].
  destruct (answers_hold p sockets t x (under_comes built k p sockets t x Hr)) as [_ _ Hd _].
  induction (nd_answered x) as [|a an IH]; [done|]. destruct Ha as (Ha & Han), Hd as (Hd & Hdn). split; [by apply complete_filtered|by apply IH].
Qed.
End EndToEnd.

(** ** A configured server

    One list, and the policy of [ServerRun] as what it compiles to. *)
#[local] Existing Instance text_names.
#[local] Existing Instance text_ops.
#[local] Existing Instance map_order.
#[local] Existing Instance merge_sort_keys.
#[local] Existing Instance one_host.
#[local] Existing Instance rcode_numbers.
#[local] Existing Instance show_v4.
#[local] Instance plain_files : ConfigOps := {|
  toml_from_str := fun _ => inr [];
  toml_to_string := fun _ => None;
  sha256 := fun b => take 8 b;
  Cert := unit;
  pem_file := fun _ => inr []
|}.

Definition ads_list : ListSource := mkListSource (lit "ads") (Some (lit "https://example.com/ads.txt")) None.
Definition ads_config : Config.Config := Config.mkConfig
  (mkServerConfig [mkSocketAddr (V4 [0; 0; 0; 0]) 53] [run_client])
  (mkFilteringConfig None [ads_list] (lit "/lists"))
  (mkUpstreamsConfig [lit "https://9.9.9.9/dns-query"] [] 3000)
  (mkDatabaseConfig (lit "/db"))
  (mkSafeSearchConfig false [])
  (mkTlsConfig [])
  (mkCacheConfig 16 3600).
Definition ads_text : Acquired := mkAcquired run_list Downloaded None.
Definition ads_loaded : LoadedLists :=
  mkLoaded run_engine [lit "ads"] (hex_encode (sha256 run_list)) [] [report_of ads_list ads_text].

Lemma ads_compiled : compiled (effective_lists ads_config) [ads_text] ads_loaded.
Proof. split; vm_compute; reflexivity. Qed.

Lemma ads_policy : policy_from ads_config run_policy ads_loaded.
Proof. split; [exists [ads_text]; exact ads_compiled|]. split; [done|]. split; vm_compute; reflexivity. Qed.

Lemma ads_blocks : blocks (rules_of [run_list]) (lit "x.ads.com").
Proof.
  split.
  - eexists. split; [left|]. split; [vm_compute; reflexivity|]. right. exists (lit "x"). vm_compute. reflexivity.
  - intros (x & Hx & Ha & _). apply list_elem_of_singleton in Hx as ->. vm_compute in Ha. discriminate Ha.
Qed.

(** The question for a host under the listed domain, alone. *)
Definition run_question : Query := mkQuery (lit "x.ads.com." : Name) 1 CLASS_IN.
Lemma ads_policies :
  match run_query run_pipeline "x.ads.com." with Some (tr, _, _) => policies tr = [run_policy] | None => False end.
Proof. vm_compute. reflexivity. Qed.

Lemma lists_decide_answers_witness :
  match run_query run_pipeline "x.ads.com." with
  | Some (tr, m, _) => synth_block_response (run_request "x.ads.com.") = Some m /\ resolution tr = []
  | None => False
  end.
Proof.
  pose proof (run_query_runs run_pipeline "x.ads.com.") as Hr. pose proof ads_policies as Hp.
  destruct (run_query run_pipeline "x.ads.com.") as [[[tr m] p']|]; [|destruct Hp].
  destruct (proj2 (lists_decide_answers ads_config run_policy ads_loaded [ads_text] ads_policy ads_compiled)
    _ run_client 0 tr m run_question [] Hr Hp eq_refl) as (log & d & _ & Hb & _).
  - vm_compute. reflexivity.
  - vm_compute. intros HF; discriminate HF.
  - split; [split; vm_compute; intros HF; discriminate HF|]. split; [vm_compute; intros HF; discriminate HF|].
    apply contains_char_false. vm_compute. reflexivity.
  - destruct (Hb ads_blocks) as (Hresp & Hres & _). by split.
Defined.

(** The same question over UDP, to the daemon of [NodeRun]. *)
Lemma ads_built : built run_policy.
Proof.
  exists ads_config, [ads_text], ads_loaded. split; [exact ads_policy|exact ads_compiled].
Qed.

Lemma daemon_filters_witness :
  match run_answered with
  | Some x => exists a, nd_answered x = [a] /\ filtered a
  | None => False
  end.
Proof.
  pose proof (asked_under built run_oracle 9 run_start (ask_udp run_start)) as Hr.
  pose proof run_answer as Hl. destruct run_answered as [x|]; [|discriminate Hl].
  assert (Hx : runs_to (moves_under built) 10 run_start x).
  { apply Hr; [exact ads_built|apply ask_udp_happens; [reflexivity|left]|reflexivity|intros HF; discriminate HF|reflexivity]. }
  pose proof (daemon_filters run_pipeline run_sockets wit_tables 10 x ads_built Hx) as Hf.
  destruct (nd_answered x) as [|a [|b an]]; [discriminate Hl| |discriminate Hl]. exists a. split; [reflexivity|exact (proj1 Hf)].
Defined.
