(* ===== verification/System.v ===== *)
(** * System: the whole daemon ([daemon::run])

    The node of [Node] with the refresher task and the signal loop as the
    code of [Daemon], over one shared state: the pipeline and the database
    are the node's, the disk, the pool, the report and the reload channel
    the rest of [Daemon]. A step is one event of a query, a task, a
    connection, the writer thread, the refresher or the signal loop. *)
From S2P Require Import Prelude Text Time IpAddr FilterTypes Engine Dns Cache FailCache SafeSearch Shadow Db Proc Pipeline Server Serving Sockets Scheduler Result Config Upstream Lists Daemon Node.

Section System.
Context `{HickoryOps} `{HashIter} `{ConfigOps} `{ListsOps} `{UnstableSort} `{UpstreamOps} `{RcodeDisplay} `{!DaemonOps} `{IpDisplay}.
Notation Async := (Proc DEv).

(** The signal loop of [run]: in its [select!], with the drop count of the
    last sample; in a turn; broken. *)
Inductive Loop := Selecting (dropped_at_last_sample : Z) | Turning (code : Async (option Z)) | Broken.

(** [sy_refresher] is what is left of the refresher's turn; [None] once it
    ended or was aborted. *)
Record System := mkSystem {
  sy_node : Node;
  sy_rest : Daemon;
  sy_refresher : option (Async (option Refresher));
  sy_loop : Loop
}.

(** The shared state as [Daemon] has it. *)
Definition view (s : System) : Daemon :=
  let x := sy_node s in let d := sy_rest s in
  mkDaemon (dm_disk d) (dm_pool d) (Some (nd_pipe x)) (dm_report d) (Some (lg_tables (nd_log x))) (dm_queue d) (dm_sender d) (dm_serving d).

(** After an event of the refresher or the signal loop. *)
Definition sweep_of {B} (e : DEv B) : B -> list Z :=
  match e in DEv B return B -> list Z with
  | DSweep now => fun b => match b with inl _ => [now] | inr _ => [] end
  | _ => fun _ => []
  end.
Definition absorb (x : Node) (d : Daemon) (sweeps : list Z) : Node :=
  mkNode (default (nd_pipe x) (dm_pipeline d)) (nd_handling x) (nd_tasks x) (nd_io x)
    (mkLogbook (default (lg_tables (nd_log x)) (dm_db d)) (lg_ops (nd_log x)) (sweeps ++ lg_sweeps (nd_log x)))
    (nd_phase x) (nd_received x) (nd_answered x).

(** What the node does by itself: not the steps that stand for the
    refresher and the signal loop, which are tasks here. *)
Definition own (x x' : Node) : Prop :=
  moves x x' /\ p_policy (nd_pipe x') = p_policy (nd_pipe x) /\ lg_sweeps (nd_log x') = lg_sweeps (nd_log x)
  /\ t_heartbeat (lg_tables (nd_log x')) = t_heartbeat (lg_tables (nd_log x))
  /\ t_stats (lg_tables (nd_log x')) = t_stats (lg_tables (nd_log x))
  /\ (nd_phase x = Running -> nd_phase x' = Running).

(** [server.shutdown()]: the socket tasks are gone. *)
Definition stop_node (x : Node) : Node :=
  mkNode (nd_pipe x) (nd_handling x) (nd_tasks x) (mkIo [] (io_conns (nd_io x)) (io_next (nd_io x)) (io_sent (nd_io x)))
    (nd_log x) Draining (nd_received x) (nd_answered x).

Section Steps.
Context (config_path : list Z) (started_ts : Z).

Inductive turns : System -> System -> Prop :=
| s_node x x' d rf lp : own x x' -> turns (mkSystem x d rf lp) (mkSystem x' d rf lp)
| s_pool x d p rf lp :
    (* the connections and counters of the upstreams *)
    turns (mkSystem x d rf lp) (mkSystem x (set_pool d p) rf lp)
| s_refresher x d o B (e : DEv B) k b d' lp :
    dexec o e (view (mkSystem x d (Some (Vis e k)) lp)) = Some (b, d') ->
    turns (mkSystem x d (Some (Vis e k)) lp) (mkSystem (absorb x d' (sweep_of e b)) d' (Some (k b)) lp)
| s_refreshed x d r lp :
    turns (mkSystem x d (Some (Ret (Some r))) lp) (mkSystem x d (Some (refresher_turn r)) lp)
| s_refresher_ends x d lp :
    turns (mkSystem x d (Some (Ret None)) lp) (mkSystem x d None lp)
| s_wake x d rf n w :
    turns (mkSystem x d rf (Selecting n)) (mkSystem x d rf (Turning (signal_turn config_path started_ts n w)))
| s_signal x d rf o B (e : DEv B) k b d' :
    dexec o e (view (mkSystem x d rf (Turning (Vis e k)))) = Some (b, d') ->
    turns (mkSystem x d rf (Turning (Vis e k))) (mkSystem (absorb x d' (sweep_of e b)) d' rf (Turning (k b)))
| s_signalled x d rf n :
    turns (mkSystem x d rf (Turning (Ret (Some n)))) (mkSystem x d rf (Selecting n))
| s_terminated x d rf :
    (* refresher.abort(); server.shutdown().await *)
    turns (mkSystem x d rf (Turning (Ret None))) (mkSystem (stop_node x) d None Broken).

(** As the start-up leaves it: the refresher spawned, the loop entered. *)
Definition system_new (sockets : list SocketTask) (p : Pipeline) (t : Tables) (d : Daemon) (r : Refresher) (n : Z) : System :=
  mkSystem (node_new p sockets t) d (Some (refresher_turn r)) (Selecting n).
End Steps.

(** [p] run from [d] alone: its result and what it leaves. *)
Fixpoint performs {A} (p : Async A) (d : Daemon) (a : A) (d' : Daemon) : Prop :=
  match p with
  | Ret a' => a' = a /\ d' = d
  | Vis e k => exists o b d1, dexec o e d = Some (b, d1) /\ performs (k b) d1 a d'
  | Panic => False
  end.
End System.
