(* ===== verification/SystemSpec.v ===== *)
(** * SystemSpec: every task of the daemon keeps the policy whole

    The refresher satisfies its specification of [DaemonSpec] under the
    interference it has in [System], since every other step is [outside];
    so each step of the system is none or a step of the node under a
    policy built whole from one configuration. *)
From S2P Require Import Prelude Text Time Num IpAddr FilterTypes Parse Engine KeyIndexSpec LabelsSpec EngineSpec VerdictSpec Dns Cache CacheSpec FailCache SafeSearch Proc Shadow Db DbSpec Pipeline Server ServerSpec Scheduler ServerLiveness ServerRun.
From S2P Require Import Result Config Upstream Lists ListsSpec Daemon DaemonSpec Sockets Node NodeSpec EndToEnd System.

Section Spec.
Context `{HickoryOps} `{HashIter} `{ConfigOps} `{ListsOps} `{UnstableSort} `{UpstreamOps} `{RcodeDisplay} `{!DaemonOps} `{IpDisplay}.
Notation Async := (Proc DEv).

(** ** The events of a running daemon *)

(** Those of start-up are over. *)
Definition turn_event {B} (e : DEv B) : bool :=
  match e with DShare _ | DDbOpen _ | DServe _ | DPoolNew _ => false | _ => true end.
Notation turning p := (all_events (fun B (e : DEv B) => turn_event e = true) p).

Lemma lift_turning {A} (p : Proc LEv A) : turning (lift p).
Proof. induction p as [a|B e k IH|]; cbn; auto. Qed.

Ltac turns_through := repeat first
  [ done
  | apply lift_turning
  | apply all_events_bind; [|intros ?]
  | progress unfold expect
  | progress cbn [all_events event]
  | split; [reflexivity|intros ?]
  | match goal with |- all_events _ (match ?x with _ => _ end) => destruct x end ].

Lemma refresher_turn_turning r : turning (refresher_turn r).
Proof.
  assert (Hb : forall c online, turning (build_policy c online)) by (intros c online; unfold build_policy; turns_through).
  assert (Ho : forall t s x, turning (outcome t s x)) by (intros; unfold outcome; turns_through).
  assert (Hp : turning publish_runtime) by (unfold publish_runtime; turns_through).
  assert (Hr : forall trigger c, turning (refresh r trigger c)).
  { intros. unfold refresh. apply all_events_bind; [by split|intros s]. apply all_events_bind; [apply Hb|intros [[pol l]|e]]; turns_through. }
  assert (Hps : forall trigger c, turning (refresher_pass r trigger c)).
  { intros. unfold refresher_pass. apply all_events_bind; [apply Hr|intros [c' wait]]. turns_through. }
  unfold refresher_turn. apply all_events_bind; [by split|]. intros [|c|]; [done|apply Hps..].
Qed.

Lemma signal_turn_turning path ts n w : turning (signal_turn path ts n w).
Proof. destruct w; unfold signal_turn, on_sighup, on_heartbeat, on_retention, publish_stats, heartbeat_row, publish_runtime; turns_through. Qed.

(** ** One event over the node *)
Lemma event_pipeline o B (e : DEv B) d b d' :
  dexec o e d = Some (b, d') -> is_Some (dm_pipeline d) -> is_Some (dm_db d) -> is_Some (dm_pipeline d') /\ is_Some (dm_db d').
Proof.
  destruct d as [dk pl pp rp db qu sn sv]. cbn. intros He (p & ->) (t & ->).
  destruct pl; destruct e; cbn in He; unfold db_write in He; cbn in He; repeat case_match; simplify_eq/=; eauto.
Qed.

(** After its event the shared state is what the event left. *)
Lemma absorbed o B (e : DEv B) x d rf lp b d' rf' lp' :
  dexec o e (view (mkSystem x d rf lp)) = Some (b, d') -> view (mkSystem (absorb x d' (sweep_of e b)) d' rf' lp') = d'.
Proof.
  intros He. apply event_pipeline in He as ((p & Ep) & (t & Et)); [|by eexists|by eexists]. destruct d'. cbn in *. by subst.
Qed.

(** What an event does to the node: nothing, or one of its steps. *)
Lemma event_node o B (e : DEv B) x d rf lp b d' :
  turn_event e = true -> dexec o e (view (mkSystem x d rf lp)) = Some (b, d') -> nd_phase x = Running ->
  (forall policy, policy_of d' = Some policy -> policy_ok policy) ->
  absorb x d' (sweep_of e b) = x \/ happens x (absorb x d' (sweep_of e b)).
Proof.
  intros Ht He Hph Hok. destruct x as [p hs ts io [t ops sw] ph rc an]. cbn in Hph. subst ph.
  assert (Hrows : forall h s, happens (mkNode p hs ts io (mkLogbook t ops sw) Running rc an)
    (mkNode p hs ts io (mkLogbook (set_rows t h s) ops sw) Running rc an)) by (intros; apply x_rows).
  destruct e; try discriminate Ht; cbn in He; unfold db_write in He; cbn in He;
    try match type of He with context [dm_pool d ≫= _] => destruct (dm_pool d) end;
    repeat case_match; simplify_eq/=; try (by left); right.
  - apply x_install. by apply Hok.
  - unfold absorb, write_runtime. cbn. destruct (t_stats t); apply Hrows.
  - apply Hrows.
  - apply Hrows.
  - apply (x_sweep p hs ts io t ops sw rc an now).
Qed.

(** ** The invariant *)
Lemma under_outside I {A} (p : Async A) Q d d' : under outside I p Q d -> outside d d' -> under outside I p Q d'.
Proof. intros Hp Hd. destruct p; intros d2 Hd2; apply Hp; by apply (outside_trans d d'). Qed.

Lemma under_now I {A} (p : Async A) Q d : under outside I p Q d -> I d.
Proof. intros Hp. destruct p; by apply (Hp d (outside_refl d)). Qed.

Lemma whole_built d policy : whole d -> policy_of d = Some policy -> built policy /\ policy_ok policy.
Proof.
  intros (c & pol & l & Hp & Hf) E. rewrite E in Hp. injection Hp as <-. destruct Hf as ((acqs & Hc) & He & Hr). split.
  - exists c, acqs, l. split; [|done]. split; [by exists acqs|done].
  - pose proof (c_engine _ _ _ Hc) as Hb. rewrite <- He in Hb. exact (build_answers (map ac_text acqs) _ Hb).
Qed.

(** What the refresher has left keeps the policy whole, and ends with the
    report of what is in force; the signal loop disturbs neither. *)
Record system_inv (started : Config) (s : System) : Prop := {
  si_whole : whole (view s);
  si_refresher : match sy_refresher s with
                 | Some p => turning p /\ exists r, started_with r = started /\ under outside whole p (turn_post r) (view s)
                 | None => True
                 end;
  si_loop : match sy_loop s with Turning p => turning p /\ keeps_to outside p | _ => True end;
  si_running : sy_refresher s = None /\ sy_loop s = Broken \/ nd_phase (sy_node s) = Running
}.

Lemma own_outside x x' d rf lp : own x x' -> outside (view (mkSystem x d rf lp)) (view (mkSystem x' d rf lp)).
Proof. intros (_ & Ep & _). repeat split. unfold policy_of. cbn. by rewrite Ep. Qed.

(** Another task's step disturbs neither. *)
Lemma inv_outside started x d x' d' rf lp lp' :
  system_inv started (mkSystem x d rf lp) -> outside (view (mkSystem x d rf lp)) (view (mkSystem x' d' rf lp')) ->
  match lp' with Turning p => turning p /\ keeps_to outside p | _ => True end ->
  rf = None /\ lp' = Broken \/ nd_phase x' = Running ->
  system_inv started (mkSystem x' d' rf lp').
Proof.
  intros [Hw Hr _ _] Ho Hl Hp. split; [by apply (whole_stable _ _ Hw)| |done|done]. cbn in *. destruct rf as [p|]; [|done].
  destruct Hr as (Ht & r & Hs & Hu). split; [done|]. exists r. split; [done|]. by apply (under_outside _ _ _ _ _ Hu).
Qed.

(** A step of the system is none or one of the node, under a whole policy. *)
Definition projected (x x' : Node) : Prop := x' = x \/ moves_under built x x'.

Lemma whole_moves s x : moves x (sy_node s) -> whole (view s) -> moves_under built x (sy_node s).
Proof. intros Hm Hw. split; [done|]. by apply (whole_built (view s) _ Hw). Qed.

Lemma event_inv o B (e : DEv B) x d rf lp b d' rf' lp' :
  turn_event e = true -> dexec o e (view (mkSystem x d rf lp)) = Some (b, d') -> nd_phase x = Running -> whole d' ->
  projected x (absorb x d' (sweep_of e b)) /\ nd_phase (absorb x d' (sweep_of e b)) = Running
  /\ view (mkSystem (absorb x d' (sweep_of e b)) d' rf' lp') = d'.
Proof.
  intros Ht He Hp Hw. pose proof (absorbed _ _ _ _ _ _ _ _ _ rf' lp' He) as Ev. split; [|done].
  destruct (event_node o B e x d rf lp b d' Ht He Hp) as [E|Hx]; [by intros policy; apply whole_built|by left|right].
  apply (whole_moves (mkSystem (absorb x d' (sweep_of e b)) d' rf' lp')); [by right|]. by rewrite Ev.
Qed.

Context (config_path : list Z) (started_ts : Z).

Lemma turns_inv started s s' :
  turns config_path started_ts s s' -> system_inv started s -> system_inv started s' /\ projected (sy_node s) (sy_node s').
Proof.
  intros Ht Hi. pose proof Hi as [Hw Hr Hl Hp].
  destruct Ht as [x x' d rf lp Ho|x d p rf lp|x d o B e k b d' lp He|x d r lp|x d lp|x d rf n w|x d rf o B e k b d' He|x d rf n|x d rf];
    cbn [sy_node sy_refresher sy_loop] in *.
  - pose proof (own_outside x x' d rf lp Ho) as Hout. split.
    + apply (inv_outside started x d x' d rf lp lp Hi Hout Hl). destruct Hp as [|Hp]; [by left|right]. by apply Ho.
    + right. apply (whole_moves (mkSystem x' d rf lp)); [by apply Ho|]. by apply (whole_stable _ _ Hw).
  - split; [|by left]. by apply (inv_outside started x d x _ rf lp lp Hi).
  - destruct Hp as [(? & _)|Hp]; [done|]. destruct Hr as ((Hte & Htk) & r & Hs & Hu). cbn [under] in Hu. destruct (Hu _ (outside_refl _)) as (_ & Hk).
    specialize (Hk o b d' He). destruct (event_inv o B e x d _ lp b d' (Some (k b)) lp Hte He Hp (under_now _ _ _ _ Hk)) as (Hm & Hph & Ev).
    split; [|done]. split; cbn [sy_node sy_refresher sy_loop]; rewrite ?Ev; [by eapply under_now|split; [done|]; exists r; by split|done|by right].
  - split; [|by left]. destruct Hr as (_ & r0 & Hs & Hu). destruct (Hu _ (outside_refl _)) as (_ & Htr & Es).
    destruct Hp as [(? & _)|Hp]; [done|]. split; cbn; [done| |done|by right].
    split; [apply refresher_turn_turning|]. exists r. split; [congruence|]. by apply refresher_turn_holds.
  - split; [|by left]. split; cbn; [done|done|done|]. destruct Hp as [(? & _)|Hp]; [done|by right].
  - split; [|by left]. apply (inv_outside started x d x d rf (Selecting n) (Turning _) Hi); [apply outside_refl|split; [apply signal_turn_turning|apply signal_turn_keeps]|].
    destruct Hp as [(_ & ?)|Hp]; [done|by right].
  - destruct Hp as [(_ & ?)|Hp]; [done|]. destruct Hl as ((Hte & Htk) & Hke & Hkk). pose proof (Hke o _ b d' He) as Hout.
    destruct (event_inv o B e x d rf _ b d' rf (Turning (k b)) Hte He Hp (whole_stable _ _ Hw Hout)) as (Hm & Hph & Ev).
    split; [|done]. apply (inv_outside started x d _ d' rf _ (Turning (k b)) Hi); [by rewrite Ev|split; [apply Htk|apply Hkk]|by right].
  - split; [|by left]. apply (inv_outside started x d x d rf (Turning _) (Selecting n) Hi); [apply outside_refl|done|]. destruct Hp as [(_ & ?)|Hp]; [done|by right].
  - destruct Hp as [(_ & ?)|Hp]; [done|]. split.
    + split; cbn; [done|done|done|by left].
    + right. apply (whole_moves (mkSystem (stop_node x) d None Broken)); [right|done].
      destruct x as [p hs ts io lg ph rc an]. cbn in Hp. subst ph. apply x_stop.
Qed.

(** ** Start-up *)
Lemma performs_bind {A C} (p : Async A) (f : A -> Async C) d c d' :
  performs (p ≫= f) d c d' -> exists a d1, performs p d a d1 /\ performs (f a) d1 c d'.
Proof.
  revert d. induction p as [a|B e k IH|]; intros d; cbn; [intros Hp; by exists a, d| |done].
  intros (o & b & d1 & He & Hp). destruct (IH b d1 Hp) as (a & d2 & H1' & H2'). exists a, d2. split; [by exists o, b, d1|done].
Qed.

Lemma performs_under I {A} (p : Async A) Q d a d' : under outside I p Q d -> performs p d a d' -> Q a d'.
Proof.
  revert d. induction p as [a'|B e k IH|]; intros d Hu; cbn; [intros (-> & ->)| |done].
  - by apply (Hu d (outside_refl d)).
  - intros (o & b & d1 & He & Hp). apply (IH b d1); [|done]. by apply (proj2 (Hu d (outside_refl d)) o).
Qed.

(** Nobody removes the database, and only two events touch the pipeline. *)
Definition spares_pipeline {B} (e : DEv B) : bool := match e with DShare _ | DInstall _ => false | _ => true end.
Lemma event_keeps o B (e : DEv B) d b d' :
  dexec o e d = Some (b, d') -> (is_Some (dm_db d) -> is_Some (dm_db d')) /\ (spares_pipeline e = true -> dm_pipeline d' = dm_pipeline d).
Proof.
  destruct e; cbn; unfold db_write; intros He;
    try match type of He with context [dm_pool d ≫= _] => destruct (dm_pool d) end;
    try match type of He with context [dm_pipeline d ≫= _] => destruct (dm_pipeline d) eqn:Ep end;
    repeat case_match; simplify_eq/=; try (split; [eauto|done]).
Qed.

Lemma performs_db {A} (p : Async A) d a d' : performs p d a d' -> is_Some (dm_db d) -> is_Some (dm_db d').
Proof.
  revert d. induction p as [a'|B e k IH|]; intros d; cbn; [by intros (-> & ->)| |done].
  intros (o & b & d1 & He & Hp) Hd. apply (IH b d1 Hp). by apply (event_keeps _ _ _ _ _ _ He).
Qed.

Lemma performs_spares {A} (p : Async A) d a d' :
  all_events (fun B (e : DEv B) => spares_pipeline e = true) p -> performs p d a d' -> dm_pipeline d' = dm_pipeline d.
Proof.
  revert d. induction p as [a'|B e k IH|]; intros d; cbn; [by intros _ (-> & ->)| |done].
  intros (He & Hk) (o & b & d1 & Hd & Hp). rewrite (IH b d1 (Hk b) Hp). by apply (event_keeps _ _ _ _ _ _ Hd).
Qed.

(** The pipeline [run] shares, built from [policy] and [config]. *)
Definition shared (config : Config) (policy : Policy) (shadow : bool) (writer : DbWriter) (p : Pipeline) : Prop :=
  exists cache, with_limits (max_entries (Config.cache config)) DEFAULT_MAX_BYTES (serve_stale_secs (Config.cache config)) = Some cache
    /\ p = if shadow then set_shadow (from_policy policy cache writer) else from_policy policy cache writer.

Lemma performs_result {A} (P : A -> Prop) (p : Async A) d a d' : all_results P p -> performs p d a d' -> P a.
Proof.
  revert d. induction p as [a'|B e k IH|]; intros d; cbn; [by intros HP (-> & _)| |done].
  intros Hk (o & b & d1 & _ & Hp). by apply (IH b d1).
Qed.

Ltac results_through := repeat first
  [ done
  | apply all_results_seq; intros ?
  | progress cbn [all_results]; intros ?
  | match goal with |- all_results _ (match ?x with _ => _ end) => destruct x end ].

Lemma serve_policy_leaves config ts started policy loaded refresh_in shadow writer d r n d' :
  performs (serve_policy config ts started policy loaded refresh_in shadow writer) d (inl (r, n)) d' ->
  started_with r = config /\ rf_started_ts r = ts /\ exists p, dm_pipeline d' = Some p /\ shared config policy shadow writer p.
Proof.
  unfold serve_policy. intros Hp.
  apply performs_bind in Hp as (ts1 & d1 & _ & Hp). apply performs_bind in Hp as (hash & d2 & _ & Hp).
  apply performs_bind in Hp as (last & d3 & _ & Hp). apply performs_bind in Hp as (ts2 & d4 & _ & Hp).
  apply performs_bind in Hp as ([] & d5 & _ & Hp). apply performs_bind in Hp as (cache & d6 & Hc & Hp).
  apply performs_bind in Hp as ([] & d7 & (o & [] & d8 & Hs & Hs2) & Hp).
  destruct Hs2 as (_ & ->). injection Hs as <-. destruct (with_limits _ _ _) as [c|] eqn:Ec; [|done]. destruct Hc as (-> & _).
  assert (Hr : started_with r = config /\ rf_started_ts r = ts).
  { refine (performs_result (fun x => match x with inl (r, _) => started_with r = config /\ rf_started_ts r = ts | inr _ => True end) _ _ _ _ _ Hp).
    results_through. }
  destruct Hr as (Hr1 & Hr2). split; [done|]. split; [done|].
  apply performs_spares in Hp; [|unfold heartbeat_row, publish_stats; turns_through]. rewrite Hp. eexists. split; [reflexivity|]. by exists cache.
Qed.

(** What a start-up that succeeds leaves. *)
Lemma startup_leaves path shadow writer d r n d' :
  performs (startup path shadow writer) d (inl (r, n)) d' ->
  exists policy p t, dm_pipeline d' = Some p /\ shared (started_with r) policy shadow writer p /\ dm_db d' = Some t.
Proof.
  unfold startup. intros Hp. apply performs_bind in Hp as (file & d1 & _ & Hp). destruct (config_load file path) as [config|e]; [|by destruct Hp].
  apply performs_bind in Hp as (opened & d2 & Ho & Hp). destruct opened as [[]|e]; [|by destruct Hp].
  assert (Hd : is_Some (dm_db d2)).
  { destruct Ho as (o & b & d3 & He & -> & ->). cbn in He. destruct (do_fail o); [done|]. destruct (db_open _); [|done].
    injection He as <-. by eexists. }
  pose proof (performs_db _ _ _ _ Hp Hd) as (t & Et).
  apply performs_bind in Hp as (ts & d3 & _ & Hp). apply performs_bind in Hp as (roots & d4 & _ & Hp). destruct roots as [roots|e]; [|by destruct Hp].
  apply performs_bind in Hp as (pool & d5 & _ & Hp). destruct pool as [[]|e]; [|by destruct Hp].
  apply performs_bind in Hp as (fetcher & d6 & _ & Hp). destruct fetcher as [[]|e]; [|by destruct Hp].
  apply performs_bind in Hp as (started & d7 & _ & Hp). apply performs_bind in Hp as (built & d8 & _ & Hp).
  destruct built as [[[policy loaded] refresh_in]|e]; [|by destruct Hp].
  apply serve_policy_leaves in Hp as (<- & _ & p & Ep & Hs). by exists policy, p, t.
Qed.

(** ** From start-up on *)
Lemma started_system path shadow writer disk db r n d sockets :
  static_names_ok -> max_entries (Config.cache (started_with r)) < NONE ->
  performs (startup path shadow writer) (daemon_initial disk db) (inl (r, n)) d ->
  exists p t, dm_pipeline d = Some p /\ dm_db d = Some t /\ starts p /\ p_writer p = writer
    /\ system_inv (started_with r) (system_new sockets p t d r n) /\ built (p_policy p).
Proof.
  intros Hn Hm Hp. pose proof (startup_leaves _ _ _ _ _ _ _ Hp) as (policy & p & t & Ep & (cache & Hc & E) & Et).
  pose proof (performs_under _ _ _ _ _ _ (startup_holds path shadow writer (daemon_initial disk db) eq_refl) Hp) as (_ & Ht).
  pose proof (truthful_whole _ _ _ Ht) as Hw. assert (Epol : policy_of d = Some (p_policy p)) by (unfold policy_of; by rewrite Ep).
  destruct (whole_built d _ Hw Epol) as (Hb & Hok). exists p, t.
  assert (Hcap : exists a, CacheSpec.stands_for cache a).
  { pose proof Hc as Hc'. unfold with_limits, assert in Hc. destruct (0 <? max_entries _) eqn:E0; [|done]. apply Z.ltb_lt in E0.
    destruct (with_limits_stands_for (max_entries (Config.cache (started_with r))) DEFAULT_MAX_BYTES (serve_stale_secs (Config.cache (started_with r)))) as (s & Es & Hs).
    { split; [lia|]. split; zcompute. }
    rewrite Es in Hc'. injection Hc' as ->. by eexists. }
  destruct Hcap as (a & Ha).
  assert (Epp : p_policy p = policy) by (subst p; by destruct shadow).
  split; [done|]. split; [done|]. split; [|split; [subst p; by destruct shadow|split; [|done]]].
  - split; [|done]. exists policy, cache, writer, a. split; [subst p; destruct shadow; auto|]. split; [done|by rewrite <- Epp].
  - assert (Ev : view (system_new sockets p t d r n) = d) by (destruct d; cbn in *; by subst).
    split; cbn [sy_refresher sy_loop system_new]; rewrite ?Ev; [done| |done|by right].
    split; [apply refresher_turn_turning|]. exists r. split; [done|]. by apply refresher_turn_holds.
Qed.

Lemma turns_run started k s s' :
  runs_to (turns config_path started_ts) k s s' -> system_inv started s ->
  system_inv started s' /\ exists m, runs_to (moves_under built) m (sy_node s) (sy_node s').
Proof.
  induction 1 as [s|k s s1 s2 Ht Hr IH]; intros Hi; [split; [done|]; exists 0%nat; constructor|].
  destruct (turns_inv _ _ _ Ht Hi) as (Hi1 & Hm). destruct (IH Hi1) as (Hi2 & m & Hrun). split; [done|].
  destruct Hm as [<-|Hm]; [by exists m|]. exists (S m). by econstructor.
Qed.
End Spec.

(** ** Properties *)
Section Properties.
Context `{HickoryOps} `{HashIter} `{ConfigOps} `{ListsOps} `{UnstableSort} `{UpstreamOps} `{RcodeDisplay} `{!DaemonOps} `{IpDisplay}.

(** C7: the whole daemon filters. Once its start-up has succeeded,
    whatever reaches its sockets, whatever the clocks, the signals, the
    network, the disk and the database do, and however its queries, tasks,
    writer, refresher, signal loop and shutdown interleave: the node is in
    a state [comes_to] speaks of, so that every theorem about it applies;
    the policy in force is one built whole from a configuration; when a
    turn of the refresher ends, the report tells exactly what is in force;
    and every answer to an ordinary question was shed with SERVFAIL before
    any policy was read, or refused, unresolved, to a client a
    configuration does not allow, or decided by the texts acquired for the
    lists of one configuration: a name some block rule covers and no
    exception does gets the block answer without touching cache or
    upstream, and the log names a list with such a rule; an excepted or
    unlisted name is resolved. *)
Theorem system_filters path shadow writer disk db r n d sockets :
  static_names_ok -> max_entries (Config.cache (started_with r)) < NONE ->
  performs (startup path shadow writer) (daemon_initial disk db) (inl (r, n)) d ->
  exists p t, dm_pipeline d = Some p /\ dm_db d = Some t /\ starts p /\ p_writer p = writer
    /\ forall k s, runs_to (turns path (rf_started_ts r)) k (system_new sockets p t d r n) s ->
         comes_to p sockets t (sy_node s)
         /\ whole (view s)
         /\ (forall r', sy_refresher s = Some (Ret (Some r')) ->
               started_with r' = started_with r /\ truthful (started_with r) (current r') (view s))
         /\ each EndToEnd.filtered (nd_answered (sy_node s)).
Proof.
  intros Hn Hm Hp. destruct (started_system _ _ _ _ _ _ _ _ sockets Hn Hm Hp) as (p & t & Ep & Et & Hs & Hw & Hi & Hb).
  exists p, t. do 4 (split; [done|]). intros k s Hr. destruct (turns_run _ _ _ _ _ _ Hr Hi) as ([Hwh Href _ _] & m & Hm').
  split; [by eapply under_comes|]. split; [done|]. split; [|by apply (daemon_filters p sockets t m)].
  intros r' E. rewrite E in Href. destruct Href as (_ & r0 & E0 & Hu). destruct (Hu _ (outside_refl _)) as (_ & Ht & E1). cbn [turn_post] in Ht, E1.
  rewrite E1, E0 in Ht. split; [congruence|done].
Qed.
End Properties.
