(* ===== verification/SystemRun.v ===== *)
(** * SystemRun: the machine of [DaemonRun] as a whole system

    It starts, is asked over UDP for a name its list blocks, and answers;
    the witness of [SystemSpec]. *)
From S2P Require Import Prelude Text Time Num IpAddr FilterTypes Parse Engine KeyIndexSpec EngineSpec VerdictSpec Dns Cache CacheSpec FailCache SafeSearch Proc Shadow Db DbSpec StatsSpec Pipeline Server Serving Scheduler ServerRun.
From S2P Require Import Result Config ConfigSpec Upstream UpstreamRun Lists ListsSpec Daemon DaemonSpec Cli CliSpec Commands CommandsSpec DaemonRun Sockets Node NodeSpec NodeRun EndToEnd System SystemSpec.

Section Run.
Context `{HickoryOps} `{HashIter} `{ConfigOps} `{ListsOps} `{UnstableSort} `{UpstreamOps} `{RcodeDisplay} `{!DaemonOps} `{IpDisplay}.

Lemma perform_performs o {A} (p : Proc DEv A) : forall n d a d' m, DaemonRun.perform o n p d = Some (a, d', m) -> performs p d a d'.
Proof.
  induction p as [a'|B e k IH|]; intros n d a d' m; cbn [DaemonRun.perform performs]; [by intros [= -> -> _]| |done].
  destruct (dexec (o n) e d) as [[b d1]|] eqn:E; [|done]. intros Hp. exists (o n), b, d1. split; [done|by eapply IH].
Qed.

Lemma works_own x x' : works x x' -> own x x'.
Proof.
  intros Hw. split; [by left|]. split; [by apply works_policy|]. rewrite (works_phase _ _ Hw).
  assert (E : lg_tables (nd_log x') = lg_tables (nd_log x) /\ lg_sweeps (nd_log x') = lg_sweeps (nd_log x)).
  { destruct Hw; cbn; try done; by match goal with |- context [offer ?lg ?e] => destruct (offer_ops lg _ e) as (-> & -> & _) end. }
  destruct E as (-> & ->). done.
Qed.

Lemma works_turns path ts d rf lp k x x' : runs_to works k x x' -> runs_to (turns path ts) k (mkSystem x d rf lp) (mkSystem x' d rf lp).
Proof. induction 1 as [x|k x x1 x2 Hw Hr IH]; [constructor|]. econstructor; [apply s_node; by apply works_own|exact IH]. Qed.

(** A datagram read, and the query driven to its answer. *)
Definition ask (fd : Fd) (peer : SocketAddr) (now : Instant) (request : Message) (x : Node) : Node :=
  mkNode (nd_pipe x) (begin (FromUdp fd peer) (sa_ip peer) now request :: nd_handling x) (nd_tasks x) (nd_io x)
    (nd_log x) (nd_phase x) ((FromUdp fd peer, request) :: nd_received x) (nd_answered x).

Lemma ask_own fd peer bytes request now x :
  nd_phase x <> Stopped -> mkSocketTask Udp fd ∈ io_sockets (nd_io x) -> udp_request bytes = Some request -> own x (ask fd peer now request x).
Proof.
  intros Hp Hs Hb. split; [|done]. right. destruct x as [p hs ts io lg ph rc an]. by apply (x_datagram p hs ts io lg ph rc an fd peer bytes).
Qed.

Lemma asked_turns path ts d rf lp o n fd peer bytes request now x x' :
  nd_phase x <> Stopped -> mkSocketTask Udp fd ∈ io_sockets (nd_io x) -> udp_request bytes = Some request ->
  node_drive o n (ask fd peer now request x) = Some x' ->
  runs_to (turns path ts) (S n) (mkSystem x d rf lp) (mkSystem x' d rf lp).
Proof.
  intros Hp Hs Hb Hd. econstructor; [apply s_node; by apply (ask_own fd peer bytes request now)|].
  apply works_turns. by apply (node_drive_runs o).
Qed.
End Run.

#[local] Existing Instance text_names.
#[local] Existing Instance text_ops.
#[local] Existing Instance map_order.
#[local] Existing Instance merge_sort_keys.
#[local] Existing Instance host_nets.
#[local] Existing Instance rcode_numbers.
#[local] Existing Instance toy_net.
#[local] Existing Instance home_ops.
#[local] Existing Instance home_lists.
#[local] Existing Instance home_json.
#[local] Existing Instance show_v4.

(** The booted machine, asked. *)
Notation home_path := (lit "/etc/sumidero.toml").
Notation home_sockets := [mkSocketTask Udp 1%nat; mkSocketTask Tcp 0%nat].
Notation home_peer := (mkSocketAddr (V4 [127; 0; 0; 1]) 5353).
Definition home_question : Message := add_query (message_new 7 MQuery OpQuery) (mkQuery (lit "x.ads.com.") 1 CLASS_IN).
Notation home_asked p t := (node_drive (mkOracle 0 0 NoUpstream None) 9 (ask 1%nat home_peer 0 home_question (node_new p home_sockets t))).

Example home_answers :
  match booted with
  | Some (inl (r, _), d, _) =>
      match dm_pipeline d, dm_db d with
      | Some p, Some t => (max_entries (Config.cache (started_with r)) <? NONE) && match home_asked p t with Some x => (length (nd_answered x) =? 1)%nat | None => false end
      | _, _ => false
      end
  | _ => false
  end = true.
Proof. vm_compute. reflexivity. Qed.

Lemma home_starts x : booted = Some x ->
  performs (startup home_path false (writer_new 64)) (daemon_initial home_disk None) (fst (fst x)) (snd (fst x)).
Proof. destruct x as [[a d] m]. exact (perform_performs home_oracle _ 0 _ a d m). Qed.

Lemma home_names : static_names_ok.
Proof. split; vm_compute; by eexists. Qed.

Lemma system_filters_witness :
  match booted with
  | Some (inl (r, n), d, _) =>
      exists p t k s, runs_to (turns home_path (rf_started_ts r)) k (system_new home_sockets p t d r n) s
        /\ length (nd_answered (sy_node s)) = 1%nat /\ each EndToEnd.filtered (nd_answered (sy_node s))
  | _ => False
  end.
Proof.
  pose proof home_answers as Ha. pose proof home_starts as Hs. destruct booted as [[[[[r n]|e] d] m]|]; [|discriminate Ha..].
  specialize (Hs _ eq_refl). cbn [fst snd] in Hs.
  destruct (dm_pipeline d) as [p|] eqn:Ep; [|discriminate Ha]. destruct (dm_db d) as [t|] eqn:Et; [|discriminate Ha].
  apply andb_true_iff in Ha as [Hm Ha]. apply Z.ltb_lt in Hm.
  destruct (system_filters home_path false (writer_new 64) home_disk None r n d home_sockets home_names Hm Hs) as (p' & t' & Ep' & Et' & _ & _ & Hr).
  rewrite Ep in Ep'. injection Ep' as <-. rewrite Et in Et'. injection Et' as <-.
  destruct (home_asked p t) as [x|] eqn:Ex; [|discriminate Ha]. apply Nat.eqb_eq in Ha.
  assert (Hrun : runs_to (turns home_path (rf_started_ts r)) 10 (system_new home_sockets p t d r n) (mkSystem x d (Some (refresher_turn r)) (Selecting n))).
  { refine (asked_turns home_path (rf_started_ts r) d _ _ (mkOracle 0 0 NoUpstream None) 9 1%nat home_peer (7 :: (lit "x.ads.com." : list Z)) home_question 0 (node_new p home_sockets t) x _ _ _ Ex); [discriminate|left|reflexivity]. }
  exists p, t, 10%nat, (mkSystem x d (Some (refresher_turn r)) (Selecting n)).
  split; [exact Hrun|]. split; [exact Ha|]. exact (proj2 (proj2 (proj2 (Hr _ _ Hrun)))).
Defined.
