(* ===== verification/ListHost.v ===== *)
(** * ListHost: the blocklist host of the test kit ([crates/testkit/src/lib.rs])

    The HTTPS host the tests download lists from: its modes, its ETags, how
    it reads a request and what it writes back, byte for byte. TLS is left
    out; the HTTP client in front of it is the class [HttpClient]: what a
    request looks like on the wire and what a reply is decoded to. *)
From S2P Require Import Prelude Text Time Num IpAddr FilterTypes Parse Engine Dns Cache SafeSearch Proc Shadow Pipeline Result Config Upstream Lists.

Inductive ListMode := Serve | Status (code : Z) | Stall | CaptivePortal.

Record ListState := mkListState {
  lh_files : gmap (list Z) (list Z);
  lh_mode : ListMode;
  lh_requests : Z
}.
Definition host_new : ListState := mkListState ∅ Serve 0.
Definition put (st : ListState) (name body : list Z) : ListState :=
  mkListState (<[name := body]> (lh_files st)) (lh_mode st) (lh_requests st).
Definition set_mode (st : ListState) (mode : ListMode) : ListState := mkListState (lh_files st) mode (lh_requests st).
Definition host_requests (st : ListState) : Z := lh_requests st.
Definition host_url (addr name : list Z) : list Z := lit "https://" ++ addr ++ lit "/" ++ name.
Definition named_url (port : Z) (name : list Z) : list Z := host_url (lit "lists.test:" ++ to_string port) name.

(** FNV-1a over 64 bits, as 16 hex digits between quotes. *)
Definition fnv_step (h b : Z) : Z := (Z.lxor h b * 1099511628211) mod (u64_max + 1).
Definition fnv (body : list Z) : Z := fold_left fnv_step body 14695981039346656037.
Definition hex16 (h : Z) : list Z := map (fun i => hex_digit (Z.land (Z.shiftr h (4 * Z.of_nat i)) 15)) (reverse (seq 0 16)).
Definition etag_of (body : list Z) : list Z := [34] ++ hex16 (fnv body) ++ [34].

(** ** Text on the wire *)
Definition crlf : list Z := [c_cr; c_nl].
Definition HEAD_END : list Z := crlf ++ crlf.
Definition head_text (ls : list (list Z)) : list Z := concat (map (fun l => l ++ crlf) ls) ++ crlf.

(** The first line of [head] whose name is [name], its value trimmed. *)
Fixpoint find_header (name : list Z) (ls : list (list Z)) : option (list Z) :=
  match ls with
  | [] => None
  | l :: ls =>
      match split_once c_colon l with
      | Some (k, v) => if eq_ignore_ascii_case k name then Some (trim v) else find_header name ls
      | None => find_header name ls
      end
  end.

Fixpoint trim_start_slashes (s : list Z) : list Z :=
  match s with c :: r => if c =? c_slash then trim_start_slashes r else s | [] => [] end.

(** ** A connection *)

(** The bytes up to the end of the head, as the reads deliver them;
    [None]: the peer closed before. *)
Fixpoint read_head (buf : list Z) (chunks : list (list Z)) : option (list Z) :=
  if contains HEAD_END buf then Some buf
  else match chunks with
       | [] | [] :: _ => None
       | chunk :: chunks => read_head (buf ++ chunk) chunks
       end.

Section Host.
Context `{ConfigOps} `{ListsOps}.

Definition request_path (head : list Z) : list Z :=
  trim_start_slashes (default (lit "/") (l ← List.hd_error (lines head); split_whitespace l !! 1%nat)).
Definition if_none_match (head : list Z) : option (list Z) := find_header (lit "if-none-match") (lines head).

Definition portal_page : list Z := lit "<html><body>Please log in to the hotel Wi-Fi</body></html>".

(** The bytes of the answer; [None]: none is ever sent. *)
Definition respond (st : ListState) (head : list Z) : option (list Z) :=
  match lh_mode st with
  | Stall => None
  | Status code => Some (head_text [lit "HTTP/1.1 " ++ to_string code ++ lit " Error"; lit "content-length: 0"; lit "connection: close"])
  | CaptivePortal =>
      Some (head_text [lit "HTTP/1.1 200 OK"; lit "content-type: text/html"; lit "content-length: " ++ to_string (len portal_page);
                       lit "connection: close"] ++ portal_page)
  | Serve =>
      match lh_files st !! request_path head with
      | None => Some (head_text [lit "HTTP/1.1 404 Not Found"; lit "content-length: 0"; lit "connection: close"])
      | Some body =>
          let etag := etag_of body in
          if bool_decide (if_none_match head = Some etag)
          then Some (head_text [lit "HTTP/1.1 304 Not Modified"; lit "etag: " ++ etag; lit "connection: close"])
          else Some (head_text [lit "HTTP/1.1 200 OK"; lit "etag: " ++ etag; lit "content-length: " ++ to_string (len body);
                                lit "connection: close"] ++ body)
      end
  end.

Definition serve_http (st : ListState) (chunks : list (list Z)) : ListState * option (list Z) :=
  match read_head [] chunks with
  | None => (st, None)
  | Some buf =>
      let st := mkListState (lh_files st) (lh_mode st) (lh_requests st + 1) in
      (st, respond st (from_utf8_lossy buf))
  end.
End Host.

(** ** The client

    A header as both sides write it, and what reqwest does with heads and
    bodies (RFC 9110, RFC 9112): a request is its request line and headers,
    [If-None-Match] among them when asked for; a reply whose body is framed
    by its length, not encoded and not a redirect, is decoded to its
    status, its ETag and its body, in some chunks. *)
Definition Header : Type := list Z * list Z.
Definition header_line (h : Header) : list Z := fst h ++ lit ": " ++ snd h.
Definition token (s : list Z) : Prop := s <> [] /\ Forall (fun c => 33 <= c <= 126 /\ c <> c_colon) s.
Definition value_char (c : Z) : bool := (32 <=? c) && (c <=? 126).
Definition field_value (s : list Z) : Prop := s <> [] /\ forallb value_char s = true /\ trim s = s.
Definition field (h : Header) : Prop := token (fst h) /\ field_value (snd h).
Fixpoint field_of (name : list Z) (hs : list Header) : option (list Z) :=
  match hs with
  | [] => None
  | h :: hs => if eq_ignore_ascii_case (fst h) name then Some (snd h) else field_of name hs
  end.

Definition status_line (code : Z) (reason : list Z) : list Z := lit "HTTP/1.1 " ++ to_string code ++ lit " " ++ reason.
Definition plain_reply (code : Z) (hs : list Header) (body : list Z) : Prop :=
  200 <= code <= 999
  /\ field_of (lit "location") hs = None /\ field_of (lit "transfer-encoding") hs = None /\ field_of (lit "content-encoding") hs = None
  /\ if (code =? 204) || (code =? 304) then body = [] else field_of (lit "content-length") hs = Some (to_string (len body)).

(** A host with its port, and a file name that an URL carries as it is. *)
Definition authority (s : list Z) : Prop :=
  s <> [] /\ Forall (fun c => is_ascii_alphanumeric c = true \/ c ∈ [c_dot; c_colon; c_hyphen; c_lbracket; c_rbracket]) s.
Definition plain_name (s : list Z) : Prop :=
  (exists a r, s = a :: r /\ is_ascii_alphanumeric a = true)
  /\ Forall (fun c => is_ascii_alphanumeric c = true \/ c ∈ [c_dot; c_hyphen; c_underscore]) s.

Class HttpClient := {
  url_path : list Z -> list Z;
  url_path_law : forall addr name, authority addr -> plain_name name -> url_path (host_url addr name) = lit "/" ++ name;
  http_request : list Z -> option (list Z) -> list Z;
  http_request_law : forall url tag, (forall t, tag = Some t -> field_value t) -> exists hs,
    http_request url tag = head_text ((lit "GET " ++ url_path url ++ lit " HTTP/1.1") :: map header_line hs)
    /\ Forall field hs /\ field_of (lit "if-none-match") hs = tag;
  http_response : list Z -> Response + list Z;
  http_response_law : forall code reason hs body, forallb value_char reason = true -> Forall field hs -> plain_reply code hs body ->
    exists length chunks,
      http_response (head_text (status_line code reason :: map header_line hs) ++ body)
        = inl (mkResponse code length (field_of (lit "etag") hs) (map inl chunks))
      /\ concat chunks = body /\ ((code =? 204) || (code =? 304) = true \/ length = None \/ length = Some (len body));
  http_timeout : list Z
}.

(** ** Acquiring from a host

    [chop] is how the network cuts a request into reads; the disk works and
    every HTTP request goes to the host. *)
Section Exchange.
Context `{ConfigOps} `{ListsOps} `{!HttpClient}.
Context (chop : list Z -> list (list Z)) (now : Instant).

Definition exchange (st : ListState) (url : list Z) (tag : option (list Z)) : ListState * (Response + list Z) :=
  match serve_http st (chop (http_request url tag)) with
  | (st, Some wire) => (st, http_response wire)
  | (st, None) => (st, inr http_timeout)
  end.

Definition asks_host (st : ListState) {B} (e : LEv B) : ListState * (Response + list Z) :=
  match e with HttpGet url tag => exchange st url tag | _ => (st, inr []) end.

Fixpoint against {A} (p : Proc LEv A) (st : ListState) (d : Disk) : option (A * ListState * Disk) :=
  match p with
  | Ret a => Some (a, st, d)
  | Panic => None
  | Vis e k =>
      let '(st, answer) := asks_host st e in
      let '(b, d) := lexec (mkLOracle now None 0 answer) e d in
      against (k b) st d
  end.
End Exchange.
