(* ===== verification/ListHostSpec.v ===== *)
(** * ListHostSpec: acquiring from the host of the test kit

    The bytes of the host and the bytes of the client agree: a list is
    downloaded once, revalidated while it does not change, replaced when it
    does, and kept through every way the host misbehaves. *)
From S2P Require Import Prelude Text Time Num IpAddr FilterTypes Parse ParseSpec Engine EngineSpec Dns Cache SafeSearch Proc Shadow Pipeline Result Config Upstream Lists ListsSpec ListHost.

(** ** Heads *)

(** A line of a head: plain text, not empty. *)
Definition wire_line (l : list Z) : Prop := l <> [] /\ forallb value_char l = true.

Lemma value_char_range s : forallb value_char s = true <-> Forall (fun c => 32 <= c <= 126) s.
Proof.
  induction s as [|c s IH]; cbn; [done|]. rewrite andb_true_iff, IH, Forall_cons. unfold value_char.
  rewrite andb_true_iff, !Z.leb_le. tauto.
Qed.

Lemma value_char_not s c : forallb value_char s = true -> c < 32 -> c ∉ s.
Proof. rewrite value_char_range, Forall_forall. intros Hs Hc Hin. specialize (Hs c Hin). cbn in Hs. lia. Qed.

Lemma lines_go_line cur l rest : c_nl ∉ l -> c_cr ∉ l -> lines_go cur (l ++ crlf ++ rest) = strip_cr (reverse cur ++ l ++ [c_cr]) :: lines rest.
Proof.
  revert cur. induction l as [|a l IH]; intros cur Hn Hc; cbn [app lines_go crlf].
  - change (c_cr =? c_nl) with false. change (c_nl =? c_nl) with true. cbn iota. by rewrite reverse_cons.
  - apply not_elem_of_cons in Hn as [Ha Hn], Hc as [_ Hc]. destruct (Z.eqb_spec a c_nl); [by subst|].
    change (l ++ c_cr :: c_nl :: rest) with (l ++ crlf ++ rest). rewrite IH by done. by rewrite reverse_cons, <- app_assoc.
Qed.

Lemma strip_cr_snoc l : strip_cr (l ++ [c_cr]) = l.
Proof. unfold strip_cr, strip_suffix. rewrite reverse_snoc. cbn. by rewrite reverse_involutive. Qed.

Lemma lines_head ls : Forall wire_line ls -> lines (head_text ls) = ls ++ [[]].
Proof.
  unfold head_text. induction 1 as [|l ls (_ & Hl) Hls IH]; [done|]. cbn [map concat]. unfold lines. rewrite <- !app_assoc.
  rewrite lines_go_line by (by apply (value_char_not l _ Hl)). cbn [reverse rev_append app]. by rewrite strip_cr_snoc, IH.
Qed.

(** The end of a head is its only blank line. *)
Lemma head_end_last ls u w : Forall wire_line ls -> head_text ls = u ++ HEAD_END ++ w -> w = [].
Proof.
  intros Hls. revert u. induction Hls as [|l ls (Hne & Hl) Hls IH]; intros u E.
  { apply (f_equal length) in E. rewrite !length_app in E. cbn in E. lia. }
  assert (Hcut : forall l u : list Z, c_cr ∉ l -> forall x y, l ++ c_cr :: x = u ++ c_cr :: y -> exists u', u = l ++ u' /\ c_cr :: x = u' ++ c_cr :: y).
  { clear. induction l as [|a l IHl]; intros u Hl x y E; [by exists u|]. apply not_elem_of_cons in Hl as [Ha Hl].
    destruct u as [|b u]; injection E as -> E; [done|]. destruct (IHl u Hl x y E) as (u' & -> & E'). by exists u'. }
  unfold head_text in E. cbn [map concat] in E. rewrite <- !app_assoc in E.
  destruct (Hcut l u (value_char_not l c_cr Hl ltac:(done)) _ _ E) as (u' & -> & E').
  destruct u' as [|a [|b u']]; cbn in E'.
  - injection E' as E'. destruct Hls as [|l2 ls (Hne2 & Hl2) Hls].
    + cbn in E'. by injection E'.
    + destruct l2 as [|c l2]; [done|]. cbn in E'. injection E' as -> _.
      destruct (value_char_not _ c_cr Hl2 ltac:(done)). by left.
  - by injection E' as <- E'.
  - injection E' as <- <- E'. apply (IH u'). exact E'.
Qed.

Lemma contains_starts p s : contains p s = true -> exists u w, s = u ++ p ++ w.
Proof.
  induction s as [|a s IH]; cbn [contains]; rewrite orb_true_iff.
  - intros [Hs|]; [|done]. apply starts_with_true in Hs as (w & E). by exists [], w.
  - intros [Hs|Hs]; [apply starts_with_true in Hs as (w & E); by exists [], w|]. destruct (IH Hs) as (u & w & ->). by exists (a :: u), w.
Qed.

Lemma contains_app p u w : contains p (u ++ p ++ w) = true.
Proof.
  induction u as [|a u IH]; cbn [app].
  - assert (Hs : starts_with p (p ++ w) = true) by (apply starts_with_true; by exists w). destruct (p ++ w); cbn [contains]; by rewrite Hs.
  - cbn [contains]. by rewrite IH, orb_true_r.
Qed.

Lemma head_has_end ls : ls <> [] -> exists u, head_text ls = u ++ HEAD_END.
Proof.
  intros Hne. destruct (exists_last Hne) as (ls' & l & ->). unfold head_text. rewrite map_app, concat_app. cbn.
  exists (concat (map (fun l => l ++ crlf) ls') ++ l). by rewrite <- !app_assoc.
Qed.

(** However the network cuts it, a head is read to its end. *)
Lemma read_head_all ls chunks : forall buf,
  ls <> [] -> Forall wire_line ls -> Forall (fun c => c <> []) chunks -> buf ++ concat chunks = head_text ls -> read_head buf chunks = Some (head_text ls).
Proof.
  induction chunks as [|c chunks IH]; intros buf Hne Hls Hc E.
  - rewrite app_nil_r in E. subst buf. destruct (head_has_end ls Hne) as (u & Eu). cbn [read_head].
    replace (contains HEAD_END (head_text ls)) with true; [done|]. rewrite Eu. rewrite <- (app_nil_r HEAD_END) at 2. by rewrite contains_app.
  - apply Forall_cons in Hc as [Hc Hcs]. cbn [read_head]. destruct (contains HEAD_END buf) eqn:Ec.
    + apply contains_starts in Ec as (u & w & ->). rewrite <- !app_assoc in E. apply eq_sym, (head_end_last ls u _ Hls) in E as Ew.
      destruct w; [|done]. destruct c; done.
    + destruct c as [|b c]; [done|]. apply IH; [done..|]. rewrite <- app_assoc. exact E.
Qed.

(** ** Headers *)
Lemma header_split k v : token k -> split_once c_colon (header_line (k, v)) = Some (k, c_space :: v).
Proof.
  intros (_ & Hk). unfold split_once, header_line. cbn [fst snd]. change (lit ": " ++ v) with (c_colon :: c_space :: v).
  rewrite find_app. 2: { intros Hin. rewrite Forall_forall in Hk. by destruct (Hk _ Hin). }
  cbn [mbind option_bind]. rewrite take_app_length. by rewrite drop_app_ge, Nat.sub_succ_l, Nat.sub_diag by lia.
Qed.

Lemma find_header_fields name hs : Forall field hs -> find_header name (map header_line hs) = field_of name hs.
Proof.
  induction 1 as [|[k v] hs (Hk & Hv) Hhs IH]; [done|]. cbn [map find_header field_of fst snd]. rewrite header_split by done.
  destruct (eq_ignore_ascii_case k name); [|done]. f_equal. destruct Hv as (_ & _ & Ht). cbn [snd] in Ht.
  unfold trim in *. cbn [trim_start]. change (ws1 c_space) with true. exact Ht.
Qed.

Lemma field_wire h : field h -> wire_line (header_line h).
Proof.
  intros ((Hk & Hkc) & Hv & Hvc & _). unfold wire_line, header_line. split; [by destruct (fst h)|]. rewrite !forallb_app, Hvc, andb_true_r.
  apply value_char_range. eapply Forall_impl; [exact Hkc|]. cbn. lia.
Qed.

(** The entity tag: a quoted word. *)
Lemma hex_digit_range d : 0 <= d < 16 -> 48 <= hex_digit d <= 102.
Proof. unfold hex_digit. intros Hd. destruct (d <? 10) eqn:E; bool_to_prop; lia. Qed.

Lemma etag_plain body : Forall (fun c => 33 <= c <= 126) (etag_of body).
Proof.
  unfold etag_of. repeat apply Forall_app_2; try (by constructor). apply Forall_map, Forall_forall. intros i _. cbn.
  assert (0 <= Z.land (Z.shiftr (fnv body) (4 * Z.of_nat i)) 15 < 16) by (change 15 with (Z.ones 4); rewrite Z.land_ones by lia; apply Z.mod_pos_bound; lia).
  pose proof (hex_digit_range _ H). lia.
Qed.

Lemma etag_value body : field_value (etag_of body).
Proof.
  pose proof (etag_plain body) as Hp. split; [done|]. split; [apply value_char_range; eapply Forall_impl; [exact Hp|]; cbn; lia|].
  apply (trim_id _ 34 34); [done| |done|done]. unfold etag_of. rewrite app_assoc. by rewrite last_snoc.
Qed.

(** ** One exchange *)
Lemma find_header_blank name ls : find_header name (ls ++ [[]]) = find_header name ls.
Proof. induction ls as [|l ls IH]; [done|]. cbn [app find_header]. rewrite IH. done. Qed.

Lemma alphanumeric_range c : is_ascii_alphanumeric c = true -> 48 <= c <= 122 /\ c <> c_colon.
Proof.
  unfold is_ascii_alphanumeric, is_ascii_uppercase, is_ascii_lowercase, is_ascii_digit, c_colon. rewrite !orb_true_iff, !andb_true_iff, !Z.leb_le. lia.
Qed.

Lemma plain_name_chars name : plain_name name -> Forall (fun c => 33 <= c <= 126 /\ c <> c_colon) name.
Proof.
  intros (_ & Hc). eapply Forall_impl; [exact Hc|]. cbn. intros c [Ha%alphanumeric_range|Hin]; [lia|].
  rewrite !elem_of_cons, elem_of_nil in Hin. unfold c_dot, c_hyphen, c_underscore, c_colon in *. lia.
Qed.

(** The second word of a line. *)
Lemma flush_reverse w : w <> [] -> flush_word (reverse w) = [w].
Proof.
  intros Hw. unfold flush_word. destruct (reverse w) as [|a r] eqn:E.
  - apply (f_equal reverse) in E. by rewrite reverse_involutive in E.
  - by rewrite <- E, reverse_involutive.
Qed.

Lemma split_second w v rest :
  w <> [] -> Forall (fun b => plain_byte b = true) w -> v <> [] -> Forall (fun b => plain_byte b = true) v ->
  split_whitespace (w ++ c_space :: v ++ c_space :: rest) !! 1%nat = Some v.
Proof.
  intros Hw Pw Hv Pv. unfold split_whitespace. rewrite split_ws_go_plain by done. cbn [split_ws_go]. change (ws1 c_space) with true. cbn iota.
  rewrite split_ws_go_plain by done. cbn [split_ws_go]. change (ws1 c_space) with true. cbn iota.
  rewrite !app_nil_r. by rewrite (flush_reverse w Hw), (flush_reverse v Hv).
Qed.

Section Exchange.
Context `{ConfigOps} `{ListsOps} `{UnstableSort} `{!HttpClient}.
Context (chop : list Z -> list (list Z)) (now : Instant).
Context (Hchop : forall s, concat (chop s) = s /\ Forall (fun c => c <> []) (chop s)).
Context (addr name : list Z) (Haddr : authority addr) (Hname : plain_name name).
Notation url := (host_url addr name).

Definition bump (st : ListState) : ListState := mkListState (lh_files st) (lh_mode st) (lh_requests st + 1).

(** What the host means to answer: status, ETag and body. *)
Definition replied (st : ListState) (tag : option (list Z)) : option (Z * option (list Z) * list Z) :=
  match lh_mode st with
  | Stall => None
  | Status code => Some (code, None, [])
  | CaptivePortal => Some (200, None, portal_page)
  | Serve =>
      match lh_files st !! name with
      | None => Some (404, None, [])
      | Some body => if bool_decide (tag = Some (etag_of body)) then Some (304, Some (etag_of body), []) else Some (200, Some (etag_of body), body)
      end
  end.

Definition request_line : list Z := lit "GET " ++ (lit "/" ++ name) ++ lit " HTTP/1.1".

Lemma request_line_wire : wire_line request_line.
Proof.
  split; [done|]. unfold request_line. rewrite !forallb_app. replace (forallb value_char name) with true; [done|].
  symmetry. apply value_char_range. eapply Forall_impl; [exact (plain_name_chars name Hname)|]. cbn. lia.
Qed.

(** The host reads from a request what the client put into it. *)
Lemma request_read tag : (forall t, tag = Some t -> field_value t) ->
  exists buf, read_head [] (chop (http_request url tag)) = Some buf /\ request_path (from_utf8_lossy buf) = name /\ if_none_match (from_utf8_lossy buf) = tag.
Proof.
  intros Ht. destruct (http_request_law url tag Ht) as (hs & Er & Hf & Htag). rewrite url_path_law in Er by done.
  set (ls := request_line :: map header_line hs). change (http_request url tag = head_text ls) in Er.
  assert (Hw : Forall wire_line ls) by (constructor; [apply request_line_wire|]; apply Forall_map; by eapply Forall_impl; [exact Hf|]; apply field_wire).
  exists (head_text ls). destruct (Hchop (http_request url tag)) as (Hc1 & Hc2).
  split; [apply read_head_all; [done|done|done|by rewrite Hc1, <- Er]|].
  assert (Eb : from_utf8_lossy (head_text ls) = head_text ls).
  { apply from_utf8_lossy_valid, utf8_valid_ascii. unfold head_text. apply Forall_app_2; [|by repeat constructor].
    apply Forall_concat, Forall_map. eapply Forall_impl; [exact Hw|]. intros l (_ & Hl). apply Forall_app_2; [|by repeat constructor].
    eapply Forall_impl; [by apply value_char_range|]. cbn. lia. }
  rewrite Eb. unfold request_path, if_none_match. rewrite (lines_head ls Hw). split.
  - cbn [List.hd_error app ls mbind option_bind]. subst ls. cbn [app List.hd_error].
    assert (Es : split_whitespace request_line !! 1%nat = Some (lit "/" ++ name)).
    { unfold request_line. change (lit "GET " ++ (lit "/" ++ name) ++ lit " HTTP/1.1") with (lit "GET" ++ c_space :: ((lit "/" ++ name) ++ lit " HTTP/1.1")).
      apply split_second; [done|by repeat constructor|done|].
      apply Forall_cons. split; [done|]. eapply Forall_impl; [exact (plain_name_chars name Hname)|]. unfold plain_byte. intros c Hc. cbn in Hc. by zguard. }
    rewrite Es. destruct (proj1 Hname) as (a & r & -> & Ha%alphanumeric_range). cbn. unfold c_slash. by zguard.
  - rewrite find_header_blank. subst ls. cbn [find_header].
    assert (En : split_once c_colon request_line = None).
    { unfold split_once. rewrite (proj2 (find_None c_colon request_line)); [done|]. intros Hin. unfold request_line in Hin. rewrite !elem_of_app in Hin.
      pose proof (plain_name_chars name Hname) as Hc. rewrite Forall_forall in Hc. destruct Hin as [Hin|[[Hin|Hin]|Hin]]; [|..|].
      1, 2, 4: by apply contains_char_true in Hin. by destruct (Hc _ Hin). }
    rewrite En. by rewrite find_header_fields.
Qed.

(** The answer as the client decodes it. *)
Definition decoded (reply : option (Z * option (list Z) * list Z)) (r : Response + list Z) : Prop :=
  match reply with
  | None => r = inr http_timeout
  | Some (code, etag, body) => exists length chunks, r = inl (mkResponse code length etag (map inl chunks)) /\ concat chunks = body
      /\ ((code =? 204) || (code =? 304) = true \/ length = None \/ length = Some (len body))
  end.

Lemma reply_decoded code reason hs body :
  forallb value_char reason = true -> Forall field hs -> plain_reply code hs body ->
  decoded (Some (code, field_of (lit "etag") hs, body)) (http_response (head_text (status_line code reason :: map header_line hs) ++ body)).
Proof. intros Hr Hf Hp. destruct (http_response_law code reason hs body Hr Hf Hp) as (l & cs & E & Hc & Hl). rewrite E. by exists l, cs. Qed.

Definition mode_ok (st : ListState) : Prop := match lh_mode st with Status code => 200 <= code <= 999 | _ => True end.

Lemma number_value n : 0 <= n -> field_value (to_string n).
Proof.
  intros Hn. destruct (to_string_digits n Hn) as (Hne & Hd). split; [done|].
  split; [apply value_char_range; eapply Forall_impl; [exact Hd|]; cbn; lia|].
  destruct (to_string n) as [|a r] eqn:E; [done|]. destruct (last (a :: r)) as [z|] eqn:El; [|by apply last_None in El].
  assert (Hz : z ∈ a :: r) by (apply last_Some in El as (l & ->); apply elem_of_app; right; by left).
  rewrite Forall_forall in Hd. assert (48 <= a <= 57) by (apply Hd; by left). assert (48 <= z <= 57) by (by apply Hd).
  apply (trim_id _ a z); [done|done|unfold plain_byte; by zguard..].
Qed.

Ltac fields := repeat (apply Forall_cons; split; [solve [auto]|]); apply Forall_nil.

(** Each of the host's texts, as the client sees it. *)
Lemma exchange_replies st tag : mode_ok st -> (forall t, tag = Some t -> field_value t) ->
  exists r, exchange chop st url tag = (bump st, r) /\ decoded (replied st tag) r.
Proof.
  intros Hm Ht. destruct (request_read tag Ht) as (buf & Er & Ep & Ei). unfold exchange, serve_http. rewrite Er.
  fold (bump st). unfold respond. cbn [lh_mode lh_files bump].
  assert (Hclose : field (lit "connection", lit "close")) by (split; [split; [done|by repeat constructor]|by split]).
  assert (Hlen : forall n, 0 <= n -> field (lit "content-length", to_string n)).
  { intros n Hn. split; [split; [done|by repeat constructor]|by apply number_value]. }
  assert (Htag : forall body, field (lit "etag", etag_of body)).
  { intros body. split; [split; [done|by repeat constructor]|apply etag_value]. }
  pose proof (Hlen 0 ltac:(done)) as Hzero. pose proof (Hlen (len portal_page) ltac:(done)) as Hpage.
  assert (Hhtml : field (lit "content-type", lit "text/html")) by (split; [split; [done|by repeat constructor]|by split]).
  unfold mode_ok in Hm. unfold replied. destruct (lh_mode st) as [|code| |].
  - rewrite Ep. destruct (lh_files st !! name) as [body|].
    + pose proof (Hlen (len body) (Zle_0_nat _)). rewrite Ei. case_bool_decide.
      * eexists. split; [reflexivity|].
        refine (reply_decoded 304 (lit "Not Modified") [(lit "etag", etag_of body); (lit "connection", lit "close")] [] _ _ _);
          [done|by fields|done].
      * eexists. split; [reflexivity|].
        refine (reply_decoded 200 (lit "OK") [(lit "etag", etag_of body); (lit "content-length", to_string (len body)); (lit "connection", lit "close")] body _ _ _);
          [done|by fields|done].
    + eexists. split; [reflexivity|].
      refine (reply_decoded 404 (lit "Not Found") [(lit "content-length", lit "0"); (lit "connection", lit "close")] [] _ _ _);
        [done|by fields|done].
  - eexists. split; [reflexivity|]. rewrite <- (app_nil_r (head_text _)).
    refine (reply_decoded code (lit "Error") [(lit "content-length", lit "0"); (lit "connection", lit "close")] [] _ _ _);
      [done|by fields|]. split; [done|]. do 3 (split; [done|]). by destruct (_ || _).
  - by eexists.
  - eexists. split; [reflexivity|].
    refine (reply_decoded 200 (lit "OK") [(lit "content-type", lit "text/html"); (lit "content-length", to_string (len portal_page)); (lit "connection", lit "close")] portal_page _ _ _);
      [done|by fields|done].
Qed.

(** ** Acquiring *)
Notation against := (against chop now).

Lemma against_bind {A C} (p : Proc LEv A) (f : A -> Proc LEv C) st d :
  against (p ≫= f) st d = match against p st d with Some (a, st, d) => against (f a) st d | None => None end.
Proof.
  revert st d. induction p as [a|B e k IH|]; intros st d; cbn; [done| |done].
  destruct (asks_host chop st e) as [st' answer]. destruct (lexec _ e d) as [b d']. apply IH.
Qed.

Context (source : ListSource) (list_dir : list Z).
Context (Hurl : ls_url source = Some url).
Notation stored := (stored_path_of list_dir (ls_name source)).
Notation etag_file := (etag_path_of list_dir (ls_name source)).

(** The copy of [text] that a download leaves. *)
Definition mirrors (d : Disk) (text : list Z) : Prop := content d stored = Some text /\ content d etag_file = Some (etag_of text).

Lemma content_some d p b : content d p = Some b -> exists m, dk_files d !! p = Some (mkFile b m).
Proof. unfold content. destruct (dk_files d !! p) as [[b' m]|]; [|done]. intros [= ->]. by exists m. Qed.

Lemma write_against p b st d :
  exists d', against (write_atomic p b) st d = Some (inl tt, st, d') /\ content d' p = Some b
    /\ forall q, q <> p -> q <> with_extension_tmp p -> content d' q = content d q.
Proof.
  cbn. rewrite lookup_insert_eq. eexists. split; [reflexivity|]. unfold content. cbn. split; [by rewrite lookup_insert_eq|].
  intros q Hq Hq'. by rewrite lookup_insert_ne, lookup_delete_ne, lookup_insert_ne by done.
Qed.

Lemma store_against text st d :
  exists d', against (store_body text (Some (etag_of text)) stored etag_file) st d = Some (tt, st, d') /\ mirrors d' text.
Proof.
  destruct (paths_differ list_dir (ls_name source) etag_file) as (P1 & P2 & P3).
  destruct (write_against stored text st d) as (d1 & E1 & C1 & _). unfold store_body. rewrite against_bind, E1.
  destruct (write_against etag_file (etag_of text) st d1) as (d2 & E2 & C2 & K2). rewrite against_bind, E2. cbn.
  exists d2. split; [done|]. split; [|done]. rewrite K2; [done|done|by apply not_eq_sym].
Qed.

(** The tag a fetch sends. *)
Lemma tag_against st d :
  (content d stored = None -> against (request_etag stored etag_file) st d = Some (None, st, d))
  /\ forall text, mirrors d text -> against (request_etag stored etag_file) st d = Some (Some (etag_of text), st, d).
Proof.
  split.
  - unfold content. intros Hc. cbn. destruct (dk_files d !! stored) as [f|] eqn:E; [done|]. by rewrite bool_decide_false by (by intros (? & ?)).
  - intros text (Hs & He). apply content_some in Hs as (m & Es), He as (m' & Ee).
    assert (Hu : utf8_valid (etag_of text) = true) by (apply utf8_valid_ascii; eapply Forall_impl; [exact (etag_plain text)|]; cbn; lia).
    destruct (etag_value text) as (Hne & _ & Ht). revert Ee Hu Hne Ht. generalize (etag_of text). intros tag Ee Hu Hne Ht.
    cbn. rewrite Es, bool_decide_true by (by eexists). cbn. rewrite Ee. cbn [fl_bytes]. rewrite Hu. cbn. by rewrite Ht, bool_decide_false.
Qed.

Lemma get_against tag st d :
  mode_ok st -> (forall t, tag = Some t -> field_value t) ->
  exists r, decoded (replied st tag) r /\ forall A (k : Response + list Z -> Proc LEv A),
    against (response ← event (HttpGet url tag); k response) st d = against (k r) (bump st) d.
Proof. intros Hm Ht. destruct (exchange_replies st tag Hm Ht) as (r & Er & Hd). exists r. split; [done|]. intros A k.
  cbn [ListHost.against asks_host mbind Proc_bind bind event lexec lo_http]. by rewrite Er. Qed.

Lemma read_chunks chunks body : len (body ++ concat chunks) <= MAX_LIST_BYTES -> read_body (map inl chunks) body = inl (body ++ concat chunks).
Proof.
  revert body. induction chunks as [|c chunks IH]; intros body Hl; cbn [map read_body concat]; [by rewrite app_nil_r|].
  cbn [concat] in Hl. rewrite app_assoc in Hl. replace (MAX_LIST_BYTES <? len body + len c) with false.
  - rewrite IH by done. by rewrite <- app_assoc.
  - symmetry. apply Z.ltb_ge. unfold len in *. rewrite !length_app in *. lia.
Qed.

(** A published text that was not confirmed is downloaded. *)
Lemma fetch_downloads tag st d text :
  lh_mode st = Serve -> lh_files st !! name = Some text -> utf8_valid text = true -> has_rules text -> len text <= MAX_LIST_BYTES ->
  (forall t, tag = Some t -> field_value t) -> tag <> Some (etag_of text) -> against (request_etag stored etag_file) st d = Some (tag, st, d) ->
  exists d', against (fetch_with_etag url stored etag_file) st d = Some (inl (mkAcquired text Downloaded (Some 0)), bump st, d') /\ mirrors d' text.
Proof.
  intros Hm Hf Hu Hr Hl Ht Hne Htag. unfold fetch_with_etag. rewrite against_bind, Htag.
  destruct (get_against tag st d) as (r & Hd & Hg); [unfold mode_ok; by rewrite Hm|done|]. rewrite Hg.
  unfold replied in Hd. rewrite Hm, Hf, bool_decide_false in Hd by done. destruct Hd as (length & chunks & -> & Hc & Hlen).
  cbn [rs_status rs_length rs_chunks rs_etag]. change (200 =? 304) with false. change (negb (is_success 200)) with false. cbn iota.
  replace (match length with Some n => MAX_LIST_BYTES <? n | None => false end) with false.
  2: { destruct Hlen as [Hlen|[Hlen|Hlen]]; [done|by rewrite Hlen|rewrite Hlen]. symmetry. by apply Z.ltb_ge. }
  rewrite read_chunks by (by rewrite Hc). rewrite Hc. cbn [app].
  assert (Eb : body_text text = text) by (unfold body_text, from_utf8; by rewrite Hu). rewrite Eb.
  rewrite (proj2 (Z.eqb_neq _ _) Hr). destruct (store_against text (bump st) d) as (d' & Es & Hmir).
  exists d'. rewrite against_bind, Es. done.
Qed.

(** A published text that is the stored one is confirmed. *)
Lemma fetch_confirms st d text :
  lh_mode st = Serve -> (exists current, lh_files st !! name = Some current /\ etag_of current = etag_of text) -> utf8_valid text = true -> mirrors d text ->
  exists d', against (fetch_with_etag url stored etag_file) st d = Some (inl (mkAcquired text NotModified (Some 0)), bump st, d') /\ mirrors d' text.
Proof.
  intros Hm (current & Hf & Ee) Hu Hmir. unfold fetch_with_etag. rewrite against_bind, (proj2 (tag_against st d) text Hmir).
  destruct (get_against (Some (etag_of text)) st d) as (r & Hd & Hg); [unfold mode_ok; by rewrite Hm|intros t [= <-]; apply etag_value|]. rewrite Hg.
  unfold replied in Hd. rewrite Hm, Hf, Ee, bool_decide_true in Hd by done. destruct Hd as (length & chunks & -> & Hc & Hlen).
  destruct Hmir as (Hs & He). apply content_some in Hs as (m & Es).
  cbn [rs_status]. change (304 =? 304) with true. cbn iota. cbn. rewrite Es. cbn [fl_bytes]. rewrite Hu. cbn. rewrite Es.
  eexists. split; [reflexivity|]. unfold mirrors, content in *. cbn. rewrite lookup_insert_eq. split; [done|].
  rewrite lookup_insert_ne; [done|]. apply (paths_differ list_dir (ls_name source) etag_file).
Qed.

(** The host in trouble: nothing is taken from it. *)
Definition trouble (st : ListState) : Prop :=
  match lh_mode st with Stall | CaptivePortal => True | Status code => code <> 304 /\ 200 <= code <= 999 | Serve => lh_files st !! name = None end.

Lemma no_rules_no_list body : body = [] \/ body = portal_page -> lc_rules (count_rules (body_text body)) =? 0 = true.
Proof. intros [-> | ->]; reflexivity. Qed.

Lemma fetch_fails tag st d :
  trouble st -> (forall t, tag = Some t -> field_value t) -> against (request_etag stored etag_file) st d = Some (tag, st, d) ->
  exists reason, against (fetch_with_etag url stored etag_file) st d = Some (inr reason, bump st, d).
Proof.
  intros Htr Ht Htag. unfold fetch_with_etag. rewrite against_bind, Htag.
  assert (Hm : mode_ok st) by (unfold mode_ok; unfold trouble in Htr; destruct (lh_mode st); tauto).
  destruct (get_against tag st d Hm Ht) as (r & Hd & Hg). rewrite Hg.
  assert (Hrep : replied st tag = None \/ exists code body, replied st tag = Some (code, None, body) /\ code <> 304 /\ (body = [] \/ body = portal_page)
      /\ len body <= MAX_LIST_BYTES).
  { unfold replied. unfold trouble in Htr. destruct (lh_mode st) as [|code| |]; [rewrite Htr| | |]; [right|right|by left|right];
      eexists _, _; (split; [reflexivity|]); (split; [tauto || done|]); (split; [by auto|vm_compute; discriminate]). }
  destruct Hrep as [E|(code & body & E & Hc & Hb & Hl)]; rewrite E in Hd; cbn [decoded] in Hd; [rewrite Hd; by eexists|].
  destruct Hd as (length & chunks & -> & Hcat & _). cbn [rs_status rs_length rs_chunks rs_etag].
  rewrite (proj2 (Z.eqb_neq _ _) Hc). destruct (negb _); [by eexists|].
  destruct (match length with Some n => MAX_LIST_BYTES <? n | None => false end); [by eexists|].
  rewrite read_chunks by (by rewrite Hcat). rewrite Hcat. cbn [app]. rewrite no_rules_no_list by done. by eexists.
Qed.

(** What [acquire_list] makes of what the fetch returns. *)
Lemma acquire_fetched st d r st' d' :
  against (fetch_with_etag url stored etag_file) st d = Some (r, st', d') ->
  match r with
  | inl a => against (acquire_list source list_dir true) st d = Some (inl a, st', d')
  | inr reason =>
      forall text, utf8_valid text = true -> content d' stored = Some text ->
        exists age, against (acquire_list source list_dir true) st d
          = Some (inl (mkAcquired text (StoredAfterFetchFailure reason) age), st', d')
  end.
Proof.
  intros Hf. assert (Hs : exists seed, against (seed_of source) st d = Some (seed, st, d)).
  { unfold seed_of. destruct (ls_path source); cbn; [|by eexists]. destruct (bool_decide _); by eexists. }
  destruct Hs as (seed & Hs). unfold acquire_list. rewrite Hurl. destruct r as [a|reason].
  - rewrite against_bind, Hs, against_bind, Hf. done.
  - intros text Hu Hc. apply content_some in Hc as (m & Em). rewrite against_bind, Hs, against_bind, Hf.
    cbn. rewrite Em, bool_decide_true by (by eexists). cbn. rewrite Em. cbn [fl_bytes]. rewrite Hu. cbn. rewrite Em. cbn. by eexists.
Qed.

(** C30: the daemon's fetch against a host that speaks HTTP, byte for byte,
    however the network cuts the requests. A published text with rules
    that is not on disk is downloaded, and leaves a copy and its ETag; one
    whose ETag is the stored copy's is confirmed and the copy kept; a text
    replaced by one of another ETag is downloaded in its place; and while
    the host answers with an error, shows a captive portal, has lost the
    file or never answers, the stored copy is used and stays as it is.
    Every case costs the host one request. *)
Theorem list_host_revalidates st d :
  let acquire := against (acquire_list source list_dir true) st d in
  (forall text, lh_mode st = Serve -> lh_files st !! name = Some text -> utf8_valid text = true -> has_rules text -> len text <= MAX_LIST_BYTES ->
     (content d stored = None \/ (exists old, mirrors d old /\ etag_of old <> etag_of text)) ->
     exists d', acquire = Some (inl (mkAcquired text Downloaded (Some 0)), bump st, d') /\ mirrors d' text)
  /\ (forall text, mirrors d text -> utf8_valid text = true ->
       (lh_mode st = Serve -> (exists current, lh_files st !! name = Some current /\ etag_of current = etag_of text) ->
          exists d', acquire = Some (inl (mkAcquired text NotModified (Some 0)), bump st, d') /\ mirrors d' text)
       /\ (trouble st -> exists reason age, acquire = Some (inl (mkAcquired text (StoredAfterFetchFailure reason) age), bump st, d))).
Proof.
  cbn zeta. split.
  - intros text Hm Hf Hu Hr Hl Hd.
    assert (Ht : exists tag, against (request_etag stored etag_file) st d = Some (tag, st, d) /\ (forall t, tag = Some t -> field_value t) /\ tag <> Some (etag_of text)).
    { destruct Hd as [Hd|(old & Hd & Hne)].
      - exists None. split; [by apply tag_against|done].
      - exists (Some (etag_of old)). split; [by apply tag_against|]. split; [intros t [= <-]; apply etag_value|congruence]. }
    destruct Ht as (tag & Htag & Hv & Hne). destruct (fetch_downloads tag st d text Hm Hf Hu Hr Hl Hv Hne Htag) as (d' & E & Hmir).
    exists d'. split; [exact (acquire_fetched _ _ _ _ _ E)|done].
  - intros text Hmir Hu. split.
    + intros Hm Hc. destruct (fetch_confirms st d text Hm Hc Hu Hmir) as (d' & E & Hmir').
      exists d'. split; [exact (acquire_fetched _ _ _ _ _ E)|done].
    + intros Htr. destruct (fetch_fails (Some (etag_of text)) st d Htr) as (reason & E); [intros t [= <-]; apply etag_value|by apply tag_against|].
      destruct (acquire_fetched _ _ _ _ _ E text Hu (proj1 Hmir)) as (age & E'). by exists reason, age.
Qed.
End Exchange.
