(* ===== verification/ListHostRun.v ===== *)
(** * ListHostRun: a client for the host

    A client that satisfies the laws of [HttpClient], and a list published,
    acquired and confirmed; the witness of [ListHostSpec]. *)
From S2P Require Import Prelude Text Time Num IpAddr FilterTypes Parse ParseSpec Engine KeyIndexSpec EngineSpec Dns Cache SafeSearch Proc Shadow Pipeline Result Config ConfigSpec Upstream UpstreamRun Lists ListsSpec Daemon Cli CliSpec DaemonRun ListHost ListHostSpec.

(** ** Decoding a reply *)
Fixpoint http_head (fuel : nat) (s : list Z) : option (list (list Z) * list Z) :=
  match fuel with
  | O => None
  | S fuel =>
      i ← find c_nl s;
      let l := strip_cr (take i s) in
      if bool_decide (l = []) then Some ([], drop (S i) s)
      else '(ls, body) ← http_head fuel (drop (S i) s); Some (l :: ls, body)
  end.

Lemma find_line l rest : c_nl ∉ l -> find c_nl (l ++ crlf ++ rest) = Some (S (length l)).
Proof.
  intros Hl. change (l ++ crlf ++ rest) with (l ++ [c_cr] ++ c_nl :: rest). rewrite app_assoc, find_app.
  - f_equal. rewrite length_app. cbn. lia.
  - rewrite elem_of_app, list_elem_of_singleton. intros [|]; done.
Qed.

Lemma cut_line l rest : take (S (length l)) (l ++ crlf ++ rest) = l ++ [c_cr] /\ drop (S (S (length l))) (l ++ crlf ++ rest) = rest.
Proof.
  split.
  - change (l ++ crlf ++ rest) with (l ++ [c_cr] ++ c_nl :: rest). rewrite app_assoc. apply take_app_length'. rewrite length_app. cbn. lia.
  - rewrite app_assoc. apply drop_app_length'. rewrite length_app. cbn. lia.
Qed.

Lemma http_head_read ls body : forall fuel, Forall wire_line ls -> (length ls < fuel)%nat -> http_head fuel (head_text ls ++ body) = Some (ls, body).
Proof.
  induction ls as [|l ls IH]; intros fuel Hls Hf; (destruct fuel as [|fuel]; [cbn in Hf; lia|]); cbn [http_head].
  - reflexivity.
  - apply Forall_cons in Hls as [(Hne & Hl) Hls]. unfold head_text. cbn [map concat]. rewrite <- !app_assoc.
    pose proof (value_char_not l c_nl Hl ltac:(done)) as Hnl. rewrite find_line by done. cbn [mbind option_bind].
    destruct (cut_line l (concat (map (fun l => l ++ crlf) ls) ++ crlf ++ body)) as (-> & ->). rewrite strip_cr_snoc, bool_decide_false by done.
    change (concat (map (fun l => l ++ crlf) ls) ++ crlf ++ body) with (concat (map (fun l => l ++ crlf) ls) ++ (crlf ++ body)). rewrite app_assoc.
    fold (head_text ls). rewrite IH; [done|done|cbn in Hf; lia].
Qed.

Lemma head_text_length ls : (length ls < length (head_text ls))%nat.
Proof.
  unfold head_text. induction ls as [|l ls IH]; cbn [map concat]; [cbn; lia|]. rewrite !length_app in *. cbn in *. lia.
Qed.

(** ** A client *)
Definition plain_path (url : list Z) : list Z :=
  match strip_prefix (lit "https://") url with
  | Some r => match find c_slash r with Some i => drop i r | None => lit "/" end
  | None => lit "/"
  end.

Definition plain_headers (tag : option (list Z)) : list Header :=
  (lit "Accept", lit "*/*") :: match tag with Some t => [(lit "If-None-Match", t)] | None => [] end.
Definition plain_request (url : list Z) (tag : option (list Z)) : list Z :=
  head_text ((lit "GET " ++ plain_path url ++ lit " HTTP/1.1") :: map header_line (plain_headers tag)).

Definition plain_response (wire : list Z) : Response + list Z :=
  match http_head (length wire) wire with
  | Some (first :: ls, body) =>
      match w ← split_whitespace first !! 1%nat; parse_uint 999 w with
      | Some code => inl (mkResponse code (Some (len body)) (find_header (lit "etag") ls) [inl body])
      | None => inr (lit "status")
      end
  | _ => inr (lit "head")
  end.

Lemma plain_path_law addr name : authority addr -> plain_name name -> plain_path (host_url addr name) = lit "/" ++ name.
Proof.
  intros (_ & Ha) _. unfold plain_path, host_url.
  assert (Hs : forall r, strip_prefix (lit "https://") (lit "https://" ++ r) = Some r) by (intros r; reflexivity). rewrite Hs.
  change (addr ++ lit "/" ++ name) with (addr ++ c_slash :: name). rewrite find_app, drop_app_length; [done|].
  intros Hin. rewrite Forall_forall in Ha. destruct (Ha _ Hin) as [Hc|Hc]; [by vm_compute in Hc|]. rewrite !elem_of_cons, elem_of_nil in Hc. by destruct Hc as [|[|[|[|[|]]]]].
Qed.

Lemma plain_request_law url tag : (forall t, tag = Some t -> field_value t) -> exists hs,
  plain_request url tag = head_text ((lit "GET " ++ plain_path url ++ lit " HTTP/1.1") :: map header_line hs)
  /\ Forall field hs /\ field_of (lit "if-none-match") hs = tag.
Proof.
  intros Ht. exists (plain_headers tag). split; [done|]. unfold plain_headers. split.
  - constructor; [split; [split; [done|by repeat constructor]|by split]|]. destruct tag as [t|]; [|done].
    constructor; [|done]. split; [split; [done|by repeat constructor]|by apply Ht].
  - by destruct tag.
Qed.

Lemma plain_response_law code reason hs body :
  forallb value_char reason = true -> Forall field hs -> plain_reply code hs body ->
  exists length chunks,
    plain_response (head_text (status_line code reason :: map header_line hs) ++ body)
      = inl (mkResponse code length (field_of (lit "etag") hs) (map inl chunks))
    /\ concat chunks = body /\ ((code =? 204) || (code =? 304) = true \/ length = None \/ length = Some (len body)).
Proof.
  intros Hr Hf (Hc & _). exists (Some (len body)), [body]. split; [|split; [cbn; by rewrite app_nil_r|auto]].
  assert (Hd : forallb value_char (to_string code) = true) by (apply (number_value code); lia).
  assert (Hw : Forall wire_line (status_line code reason :: map header_line hs)).
  { constructor; [|apply Forall_map; eapply Forall_impl; [exact Hf|]; apply field_wire]. split; [done|].
    unfold status_line. by rewrite !forallb_app, Hd, Hr. }
  unfold plain_response. rewrite http_head_read; [|done|rewrite length_app; pose proof (head_text_length (status_line code reason :: map header_line hs)); lia].
  rewrite find_header_fields by done.
  assert (Es : split_whitespace (status_line code reason) !! 1%nat = Some (to_string code)).
  { destruct (to_string_digits code ltac:(lia)) as (Hne & Hdig).
    change (status_line code reason) with (lit "HTTP/1.1" ++ c_space :: to_string code ++ c_space :: reason).
    apply split_second; [done|by repeat constructor|done|]. eapply Forall_impl; [exact Hdig|]. unfold plain_byte. intros c Hc'. cbn in Hc'. by zguard. }
  rewrite Es. cbn [mbind option_bind]. by rewrite parse_to_string by lia.
Qed.

#[local] Instance plain_client : HttpClient := {|
  url_path := plain_path;
  url_path_law := plain_path_law;
  http_request := plain_request;
  http_request_law := plain_request_law;
  http_response := plain_response;
  http_response_law := plain_response_law;
  http_timeout := lit "timed out"
|}.

(** ** A list published, acquired, confirmed, replaced *)
#[local] Existing Instance merge_sort_keys.
#[local] Existing Instance host_nets.
#[local] Existing Instance home_ops.
#[local] Existing Instance home_lists.

(** One byte at a time. *)
Definition trickle (s : list Z) : list (list Z) := map (fun c => [c]) s.
Lemma trickle_ok s : concat (trickle s) = s /\ Forall (fun c => c <> []) (trickle s).
Proof. split; [induction s as [|c s IH]; [done|]; cbn; by f_equal|]. apply Forall_map, Forall_forall. done. Qed.

Definition ads_url : list Z := host_url (lit "127.0.0.1:8443") (lit "ads.txt").
Definition ads_source : ListSource := mkListSource (lit "ads") (Some ads_url) None.
Definition ads_host : ListState := put host_new (lit "ads.txt") (lit "||ads.com^").
Definition empty_disk : Disk := mkDisk ∅ {[ lit "/lists" ]}.

Example acquired_in_turn :
  let acquire := against trickle 0 (acquire_list ads_source (lit "/lists") true) in
  match acquire ads_host empty_disk with
  | Some (inl a, h, d) =>
      match acquire h d, acquire (put h (lit "ads.txt") (lit "||ads.net^")) d, acquire (set_mode h CaptivePortal) d with
      | Some (inl b, h2, _), Some (inl c, _, _), Some (inl e, _, _) =>
          (ac_origin a, ac_origin b, ac_text c, ac_text e, host_requests h2) = (Downloaded, NotModified, lit "||ads.net^", lit "||ads.com^", 2)
      | _, _, _ => False
      end
  | _ => False
  end.
Proof. vm_compute. reflexivity. Qed.

Lemma url_chars marks s :
  forallb (fun c => is_ascii_alphanumeric c || contains_char c marks) s = true -> Forall (fun c => is_ascii_alphanumeric c = true \/ c ∈ marks) s.
Proof.
  rewrite forallb_forall, Forall_forall. intros Hs c Hc%list_elem_of_In. specialize (Hs c Hc). apply orb_true_iff in Hs.
  by rewrite contains_char_true in Hs.
Qed.

Lemma list_host_revalidates_witness :
  exists d, against trickle 0 (acquire_list ads_source (lit "/lists") true) ads_host empty_disk
      = Some (inl (mkAcquired (lit "||ads.com^") Downloaded (Some 0)), bump ads_host, d)
    /\ exists d', against trickle 0 (acquire_list ads_source (lit "/lists") true) (bump ads_host) d
      = Some (inl (mkAcquired (lit "||ads.com^") NotModified (Some 0)), bump (bump ads_host), d').
Proof.
  assert (Ha : authority (lit "127.0.0.1:8443")) by (split; [discriminate|by apply url_chars]).
  assert (Hn : plain_name (lit "ads.txt")) by (split; [by eexists _, _|by apply url_chars]).
  pose proof (list_host_revalidates trickle 0 trickle_ok (lit "127.0.0.1:8443") (lit "ads.txt") Ha Hn ads_source (lit "/lists") eq_refl) as Hall.
  destruct (proj1 (Hall ads_host empty_disk) (lit "||ads.com^")) as (d & E & Hm); [reflexivity|reflexivity|reflexivity|vm_compute; discriminate|vm_compute; discriminate|left; reflexivity|].
  exists d. split; [exact E|].
  destruct (proj1 (proj2 (Hall (bump ads_host) d) (lit "||ads.com^") Hm eq_refl)) as (d' & E' & _); [reflexivity|exists (lit "||ads.com^"); split; reflexivity|].
  exists d'. exact E'.
Defined.
