(* ===== verification/CapacitySpec.v ===== *)
(** * CapacitySpec: how much the arenas of the engine hold

    Lists whose lines name one host each cannot overflow them, up to two
    gigabytes of text, and no lists of 46 kilobytes can; one hosts line with many names can, in less than a
    hundred kilobytes, because every name stores the whole line. *)
From S2P Require Import Lists.
From S2P Require Import Prelude Text Time Num IpAddr FilterTypes Parse ParseSpec Engine KeyIndexSpec EngineSpec VerdictSpec.

(** ** One line *)
Lemma strip_prefix_len p s t : strip_prefix p s = Some t -> len t <= len s.
Proof. intros Hs%strip_prefix_Some. subst s. rewrite len_app. pose proof (len_nonneg p). lia. Qed.

Lemma strip_suffix_len p s : len (default s (strip_suffix p s)) <= len s.
Proof.
  destruct (strip_suffix p s) as [t|] eqn:E; cbn; [|lia]. apply strip_suffix_Some in E as ->. rewrite len_app. pose proof (len_nonneg p). lia.
Qed.

Lemma normalize_wildcard_len s e : normalize_wildcard s = Some e -> len e <= len s.
Proof. intros (-> & _)%normalize_wildcard_Some. rewrite to_ascii_lowercase_len. apply strip_suffix_len. Qed.

Definition slight (line : list Z) (r : RuleRef) : Prop := text r = line /\ pattern_len (pattern r) <= len line.

Lemma hosts_loop_slight line no names acc issues :
  Forall (fun n => n ∈ hosts_names line) names -> Forall (slight line) acc ->
  Forall (slight line) (fst (hosts_loop (fun acc r => acc ++ [r]) line no names acc issues)).
Proof.
  intros Hn. revert acc issues. induction Hn as [|n names Hn Hns IH]; intros acc issues Ha; cbn [hosts_loop]; [done|].
  destruct (normalize_domain n) as [d|] eqn:E; [|by apply IH]. apply IH. apply Forall_app. split; [done|]. constructor; [|done].
  split; [done|]. cbn. apply normalize_domain_len in E. destruct (hosts_names_pos _ _ Hn) as (a & x & b & -> & _).
  rewrite !len_app. pose proof (len_nonneg a). pose proof (len_nonneg b). pose proof (len_nonneg [x]). lia.
Qed.

Lemma line_refs_slight line no : Forall (slight line) (line_refs line no).
Proof.
  unfold line_refs, parse_line. destruct (hosts_ip line) as [ip|].
  { unfold parse_hosts_line. destruct (hosts_names line) as [|n ns] eqn:E; [by constructor|]. destruct (negb _); [by constructor|].
    apply hosts_loop_slight; [|by constructor]. rewrite <- E. apply Forall_forall. auto. }
  destruct (existsb _ COSMETIC_MARKERS); [by constructor|]. destruct (contains_char c_dollar line); [by constructor|].
  destruct (_ && _ && _); [by constructor|].
  destruct (match strip_prefix (lit "@@") line with Some rest => (Except, rest) | None => (Block, line) end) as [act rest1] eqn:E1.
  destruct (match strip_prefix (lit "||") rest1 with Some rest => (true, rest) | None => (false, rest1) end) as [sub rest2] eqn:E2.
  assert (L1 : len rest1 <= len line) by (destruct (strip_prefix (lit "@@") line) as [t|] eqn:E; simplify_eq; [by eapply strip_prefix_len|lia]).
  assert (L2 : len rest2 <= len rest1) by (destruct (strip_prefix (lit "||") rest1) as [t|] eqn:E; simplify_eq; [by eapply strip_prefix_len|lia]).
  pose proof (strip_suffix_len [c_caret] rest2) as L3. cbn zeta. set (rest := default rest2 (strip_suffix [c_caret] rest2)) in *.
  destruct (contains_char c_caret rest || _); [by constructor|]. destruct (contains_char c_star rest).
  - destruct (normalize_wildcard rest) as [e|] eqn:E; cbn; [|by constructor]. constructor; [|done]. split; [done|]. cbn.
    apply normalize_wildcard_len in E. lia.
  - destruct (normalize_domain rest) as [d|] eqn:E; cbn; [|by constructor]. constructor; [|done]. split; [done|]. cbn.
    apply normalize_domain_len in E. destruct sub; cbn; lia.
Qed.

Lemma line_load i line no : (expected_events line <= 1)%nat -> load (map (pair i) (line_refs line no)) <= 1 + 2 * len line.
Proof.
  rewrite <- (line_events_expected line no). unfold line_events. pose proof (line_refs_slight line no) as Hs. pose proof (len_nonneg line).
  destruct (line_refs line no) as [|r [|r2 rs]]; cbn; [lia| |lia]. intros _. apply Forall_cons in Hs as [(-> & Hp) _]. lia.
Qed.

(** ** A text *)

(** No line names two hosts. *)
Definition narrow (txt : list Z) : Prop := Forall (fun raw => (expected_events (trim raw) <= 1)%nat) (lines txt).
Definition lines_weight (raws : list (list Z)) : Z := foldr (fun raw n => 1 + len raw + n) 0 raws.

Lemma lines_go_weight s : forall cur, lines_weight (lines_go cur s) <= len cur + len s + 1.
Proof.
  induction s as [|a s IH]; intros cur; cbn [lines_go].
  - destruct cur as [|c cur]; cbn [lines_weight foldr]; [unfold len; cbn; lia|].
    replace (len (reverse (c :: cur))) with (len (c :: cur)) by (unfold len; by rewrite length_reverse). change (@len Z []) with 0. lia.
  - rewrite len_cons. destruct (a =? c_nl).
    + cbn [lines_weight foldr]. fold (lines_weight (lines_go [] s)). specialize (IH []). rewrite len_nil in IH.
      assert (len (strip_cr (reverse cur)) <= len cur).
      { etransitivity; [apply strip_suffix_len|]. unfold len. by rewrite length_reverse. }
      lia.
    + specialize (IH (a :: cur)). rewrite len_cons in IH. lia.
Qed.

Lemma trim_len s : len (trim s) <= len s.
Proof. destruct (trim_infix s) as (u & v & E). rewrite E at 2. rewrite !len_app. pose proof (len_nonneg u). pose proof (len_nonneg v). lia. Qed.

Lemma stream_load i raws : forall idx acc issues, Forall (fun raw => (expected_events (trim raw) <= 1)%nat) raws ->
  load (map (pair i) (fst (stream_lines (fun acc r => acc ++ [r]) raws idx acc issues))) <= load (map (pair i) acc) + 2 * lines_weight raws.
Proof.
  induction raws as [|raw raws IH]; intros idx acc issues Hn; cbn [stream_lines lines_weight foldr fst]; [lia|]. fold (lines_weight raws).
  apply Forall_cons in Hn as [Hraw Hn]. unfold parse_raw_line. pose proof (trim_len raw). pose proof (len_nonneg raw).
  destruct (skip_or_report_comment (trim raw) (line_number idx) issues) as [[] issues']; [specialize (IH (S idx) acc issues' Hn); lia|].
  rewrite parse_line_spec, fold_left_snoc. match goal with |- context [stream_lines _ raws _ ?a ?issues0] => specialize (IH (S idx) a issues0 Hn) end.
  rewrite map_app, load_app in IH. pose proof (line_load i (trim raw) (line_number idx) Hraw). lia.
Qed.

Lemma narrow_load i txt : narrow txt -> load (map (pair i) (refs_of txt)) <= 2 * (len txt + 1).
Proof.
  intros Hn. pose proof (stream_load i (lines txt) 0 [] [] Hn) as Hs. pose proof (lines_go_weight txt []) as Hw. rewrite len_nil in Hw.
  unfold lines in *. cbn [map load foldr] in Hs. unfold refs_of, parse_list_streamed, lines. lia.
Qed.

Definition total (txts : list (list Z)) : Z := foldr (fun t n => len t + 1 + n) 0 txts.

Lemma narrow_rules_load txts : forall i, Forall narrow txts -> load (rules_from i txts) <= 2 * total txts.
Proof.
  induction txts as [|t txts IH]; intros i Hn; [done|]. apply Forall_cons in Hn as [Ht Hn]. cbn [rules_from total foldr]. fold (total txts).
  rewrite load_app. pose proof (narrow_load i t Ht). specialize (IH (i + 1) Hn). lia.
Qed.

(** ** Any text *)
Lemma split_head_len c s : len (default s (head (split c s))) <= len s.
Proof.
  induction s as [|a s IH]; [done|]. cbn [split]. destruct (a =? c); [pose proof (len_nonneg (a :: s)); exact H|].
  destruct (split c s) as [|w ws] eqn:E; [by apply split_nonempty in E|]. cbn in *. rewrite !len_cons. lia.
Qed.

Lemma split_whitespace_len s : len (split_whitespace s) <= 1 + len s.
Proof.
  unfold split_whitespace. enough (H : forall cur, len (split_ws_go cur s) <= 1 + len s) by apply H.
  assert (Hf : forall cur, len (flush_word cur) <= 1) by (intros [|? ?]; cbn; unfold len; cbn; lia).
  induction s as [s IH] using bytes_ind3. intros cur. destruct s as [|a r]; cbn [split_ws_go]; [specialize (Hf cur); unfold len in *; cbn in *; lia|].
  assert (K : forall r' cur', (length r' < length (a :: r))%nat -> len (split_ws_go cur' r') <= 1 + len r') by (intros; by apply IH).
  repeat case_match; subst; rewrite ?len_app, ?len_cons;
    repeat match goal with |- context [len (split_ws_go ?c ?x)] => pose proof (K x c ltac:(cbn; lia)); generalize dependent (len (split_ws_go c x)); intros end;
    pose proof (Hf cur); rewrite ?len_cons in *; lia.
Qed.

Lemma line_events_bound line no : len (line_refs line no) <= 1 + len line.
Proof.
  assert (Hn : len (hosts_names line) <= 1 + len line).
  { unfold hosts_names. etransitivity; [apply Nat2Z.inj_le, List.filter_length_le|]. etransitivity; [|apply Z.add_le_mono_l, (split_head_len c_hash)].
    etransitivity; [|apply Z.add_le_mono_l, trim_len]. etransitivity; [|apply split_whitespace_len].
    unfold len. rewrite length_drop. lia. }
  assert (He : Z.of_nat (expected_events line) <= 1 + len line).
  { unfold expected_events. pose proof (len_nonneg line). unfold len in *. destruct (hosts_ip line); [|lia].
    destruct (_ || _); [done|]. destruct (hosts_names line); lia. }
  rewrite <- (line_events_expected line no) in He. unfold line_events, len in *. lia.
Qed.

Lemma load_slight i line rs : Forall (slight line) rs -> load (map (pair i) rs) <= len rs * (1 + 2 * len line).
Proof.
  induction 1 as [|r rs (Ht & Hp) Hrs IH]; [done|]. cbn [map load foldr]. fold (load (map (pair i) rs)). cbn [snd]. rewrite Ht, len_cons. lia.
Qed.

Lemma line_load_any i line no : load (map (pair i) (line_refs line no)) <= 2 * ((1 + len line) * (1 + len line)).
Proof.
  pose proof (load_slight i line _ (line_refs_slight line no)) as Hl. pose proof (line_events_bound line no) as He.
  pose proof (len_nonneg line). pose proof (len_nonneg (line_refs line no)). nia.
Qed.

Lemma lines_weight_nonneg raws : 0 <= lines_weight raws.
Proof. induction raws as [|raw raws IH]; cbn; [lia|]. fold (lines_weight raws). pose proof (len_nonneg raw). lia. Qed.

Lemma stream_load_any i raws : forall idx acc issues,
  load (map (pair i) (fst (stream_lines (fun acc r => acc ++ [r]) raws idx acc issues))) <= load (map (pair i) acc) + 2 * (lines_weight raws * lines_weight raws).
Proof.
  induction raws as [|raw raws IH]; intros idx acc issues; cbn [stream_lines lines_weight foldr fst]; [lia|]. fold (lines_weight raws).
  pose proof (lines_weight_nonneg raws). unfold parse_raw_line. pose proof (trim_len raw). pose proof (len_nonneg raw). pose proof (len_nonneg (trim raw)).
  destruct (skip_or_report_comment (trim raw) (line_number idx) issues) as [[] issues']; [specialize (IH (S idx) acc issues'); nia|].
  rewrite parse_line_spec, fold_left_snoc. match goal with |- context [stream_lines _ raws _ ?a ?issues0] => specialize (IH (S idx) a issues0) end.
  rewrite map_app, load_app in IH. pose proof (line_load_any i (trim raw) (line_number idx)). nia.
Qed.

Lemma any_load i txt : load (map (pair i) (refs_of txt)) <= 2 * ((len txt + 1) * (len txt + 1)).
Proof.
  pose proof (stream_load_any i (lines txt) 0 [] []) as Hs. pose proof (lines_go_weight txt []) as Hw. rewrite len_nil in Hw.
  pose proof (lines_weight_nonneg (lines txt)). unfold lines in *. cbn [map load foldr] in Hs. unfold refs_of, parse_list_streamed, lines. nia.
Qed.

Lemma total_nonneg txts : 0 <= total txts.
Proof. induction txts as [|t txts IH]; cbn; [lia|]. fold (total txts). pose proof (len_nonneg t). lia. Qed.

Lemma any_rules_load txts : forall i, load (rules_from i txts) <= 2 * (total txts * total txts).
Proof.
  induction txts as [|t txts IH]; intros i; [done|]. cbn [rules_from total foldr]. fold (total txts).
  rewrite load_app. pose proof (any_load i t). specialize (IH (i + 1)). pose proof (total_nonneg txts). pose proof (len_nonneg t). nia.
Qed.

Lemma total_count txts : len txts <= total txts.
Proof. induction txts as [|t txts IH]; [done|]. cbn [total foldr]. fold (total txts). rewrite len_cons. pose proof (len_nonneg t). lia. Qed.

(** Texts of 46,340 bytes together fit, whatever they are. *)
Lemma small_fits txts : total txts <= 46340 -> fits txts.
Proof.
  intros Ht. pose proof (total_nonneg txts). pose proof (total_count txts). pose proof (any_rules_load txts 0). split; [lia|].
  change (rules_of txts) with (rules_from 0 txts). unfold u32_max. nia.
Qed.

(** ** One long hosts line *)
Definition crowd (n : nat) : list Z := concat (replicate n (lit " a")).
Definition crowded (n : nat) : list Z := lit "0.0.0.0" ++ crowd n.

Lemma crowd_chars n : Forall (fun c => c = 32 \/ c = 97) (crowd n).
Proof. apply Forall_concat, Forall_replicate. apply Forall_cons; split; [by left|]. apply Forall_cons; split; [by right|constructor]. Qed.

Lemma crowd_len n : len (crowd n) = 2 * Z.of_nat n.
Proof. unfold crowd. induction n as [|n IH]; [done|]. cbn [replicate concat]. rewrite len_app, IH. change (len (lit " a")) with 2. lia. Qed.

Lemma crowded_without c n : c ∉ lit "0.0.0.0 a" -> c ∉ crowded n.
Proof.
  intros Hc. unfold crowded. apply not_elem_of_app. split; [intros Hin; apply Hc; change (lit "0.0.0.0 a") with (lit "0.0.0.0" ++ lit " a"); apply elem_of_app; by left|].
  intros Hin. pose proof (crowd_chars n) as Hf. rewrite Forall_forall in Hf. apply Hc. destruct (Hf c Hin) as [-> | ->]; vm_compute; set_solver.
Qed.

Lemma crowded_last n : exists r, crowded (S n) = r ++ [97].
Proof.
  unfold crowded, crowd. rewrite replicate_S_end, concat_app. cbn [concat]. rewrite app_nil_r.
  change (lit " a") with ([32] ++ [97]) at 2. exists (lit "0.0.0.0" ++ concat (replicate n (lit " a")) ++ [32]). by rewrite <- !app_assoc.
Qed.

Lemma crowded_trim n : trim (crowded (S n)) = crowded (S n).
Proof. destruct (crowded_last n) as (r & E). apply (trim_id _ 48 97); [done|by rewrite E, last_snoc|done|done]. Qed.

Lemma crowd_words n : forall w, w <> [] -> split_ws_go (reverse w) (crowd n) = w :: replicate n (lit "a").
Proof.
  induction n as [|n IH]; intros w Hw.
  - cbn [crowd replicate concat split_ws_go]. unfold flush_word. destruct (reverse w) as [|c r] eqn:E.
    + apply (f_equal reverse) in E. by rewrite reverse_involutive in E.
    + by rewrite <- E, reverse_involutive.
  - change (crowd (S n)) with (32 :: lit "a" ++ crowd n). cbn [split_ws_go]. change (ws1 32) with true. cbn iota.
    rewrite split_ws_go_plain by (by repeat constructor). rewrite app_nil_r, IH by done. unfold flush_word.
    destruct (reverse w) as [|c r] eqn:E.
    + apply (f_equal reverse) in E. by rewrite reverse_involutive in E.
    + rewrite <- E, reverse_involutive. done.
Qed.

Lemma crowded_words n : split_whitespace (crowded n) = lit "0.0.0.0" :: replicate n (lit "a").
Proof.
  unfold split_whitespace, crowded. rewrite split_ws_go_plain by (by repeat constructor). rewrite app_nil_r. by apply crowd_words.
Qed.

Definition crowd_rule (n : nat) : RuleRef := mkRef Block (PatternRef_Exact (lit "a")) (crowded n) 1.

Lemma crowd_hosts line no k issues : forall acc,
  hosts_loop (fun acc r => acc ++ [r]) line no (replicate k (lit "a")) acc issues
  = (acc ++ replicate k (mkRef Block (PatternRef_Exact (lit "a")) line no), issues).
Proof.
  induction k as [|k IH]; intros acc; cbn [replicate hosts_loop]; [by rewrite app_nil_r|].
  change (normalize_domain (lit "a")) with (Some (lit "a")). cbn iota. rewrite IH. by rewrite <- app_assoc.
Qed.

Lemma crowded_refs n : refs_of (crowded (S n)) = replicate (S n) (crowd_rule (S n)).
Proof.
  unfold refs_of, parse_list_streamed. rewrite lines_single; [|apply crowded_without; vm_compute; set_solver|done].
  cbn [stream_lines]. unfold parse_raw_line. rewrite crowded_trim.
  assert (Hs : skip_or_report_comment (crowded (S n)) (line_number 0) [] = (false, [])) by reflexivity. rewrite Hs.
  unfold parse_line, hosts_ip. rewrite crowded_words. change (parse_ip _) with (Some (V4 [0; 0; 0; 0])). cbn iota.
  unfold parse_hosts_line, hosts_names. rewrite split_no_sep by (apply crowded_without; vm_compute; set_solver).
  change (default (crowded (S n)) (head [crowded (S n)])) with (crowded (S n)). rewrite crowded_trim, crowded_words. cbn [drop].
  assert (Hf : List.filter (fun x => negb (is_localhost x)) (replicate (S n) (lit "a")) = replicate (S n) (lit "a")).
  { generalize (S n). intros k. induction k as [|k IH]; [done|]. cbn [replicate List.filter]. change (negb (is_localhost (lit "a"))) with true. by rewrite IH. }
  rewrite drop_0, Hf. change (negb (is_unspecified (V4 [0; 0; 0; 0]) || is_loopback (V4 [0; 0; 0; 0]))) with false. cbn [replicate]. cbn iota.
  change (lit "a" :: replicate n (lit "a")) with (replicate (S n) (lit "a")). by rewrite crowd_hosts.
Qed.

Lemma crowded_form n : (2 <= n)%nat -> exact_form false (crowded n) (lit "a") = Some FORM_VERBATIM.
Proof.
  intros Hn. destruct n as [|n]; [lia|]. unfold exact_form, str_eqb. rewrite bool_decide_false by (intros E; discriminate E).
  assert (Hs : strip_suffix [c_caret] (crowded (S n)) = None).
  { destruct (crowded_last n) as (r & E). rewrite E. unfold strip_suffix. rewrite reverse_snoc. reflexivity. }
  rewrite Hs. unfold hosts_zero_form. change (strip_prefix (lit "0.0.0.0") (crowded (S n))) with (Some (crowd (S n))). cbn iota.
  rewrite crowd_len. change (len (lit "a") + 1) with 2. by replace (2 * Z.of_nat (S n) =? 2) with false by (symmetry; apply Z.eqb_neq; lia).
Qed.

Notation stored_bytes e := (len (st_verbatim (en_store e))).

(** Every name of the line stores the whole line. *)
Lemma crowd_adds n e e' :
  (2 <= n)%nat -> add_rule e (crowd_rule n) = Some e' ->
  stored_bytes e <= u32_max /\ stored_bytes e' = stored_bytes e + len (crowded n).
Proof.
  intros Hn. unfold add_rule. cbn [crowd_rule action text pattern line]. rewrite bool_decide_false by done.
  destruct (try_from u16_max _) as [l|]; cbn [mbind option_bind]; [|done]. rewrite crowded_form by done. cbn [mbind option_bind].
  destruct (store_push (en_store e) l 1 false FORM_VERBATIM) as [[id s]|] eqn:Ep; cbn [mbind option_bind]; [|done].
  assert (Es : st_verbatim s = st_verbatim (en_store e)).
  { unfold store_push in Ep. destruct (try_from u32_max _); cbn in Ep; [|done]. injection Ep as _ <-. done. }
  destruct (ki_insert _ _ _) as [ex|]; cbn [mbind option_bind]; [|done]. change (FORM_VERBATIM =? FORM_VERBATIM) with true. cbn iota.
  unfold push_verbatim. rewrite Es. destruct (try_from u32_max (stored_bytes e)) as [off|] eqn:Eo; cbn [mbind option_bind]; [|done].
  apply try_from_inv in Eo. unfold set_span, set_span_off, set_span_len. cbn [st_lists st_lines st_flags st_span_off st_span_len st_verbatim].
  destruct (index_set _ _ off) as [offs|]; cbn [mbind option_bind]; [|done]. destruct (try_from u8_max _) as [w|]; cbn [mbind option_bind]; [|done].
  destruct (index_set _ _ w) as [lens|]; cbn [mbind option_bind]; [|done]. intros [= <-]. cbn [en_store st_verbatim]. rewrite len_app. lia.
Qed.


Lemma crowd_fold n k : (2 <= n)%nat -> forall m e e',
  snd (fold_left add_text_sink (replicate (S k) (crowd_rule n)) (m, Some e)) = Some e' ->
  stored_bytes e + Z.of_nat k * len (crowded n) <= u32_max.
Proof.
  intros Hn. induction k as [|k IH]; intros m e e'; rewrite replicate_S; cbn [fold_left]; unfold add_text_sink at 2;
    cbn [fst snd mbind option_bind]; (destruct (add_rule e (crowd_rule n)) as [e1|] eqn:Ea; [|rewrite fold_add_none; done]);
    destruct (crowd_adds n e e1 Hn Ea) as [Hs He].
  - intros _. lia.
  - intros Hf%IH. lia.
Qed.

Lemma crowded_len n : len (crowded n) = 7 + 2 * Z.of_nat n.
Proof. unfold crowded. rewrite len_app, crowd_len. done. Qed.

(** A list that is this one line does not build once its copies pass the arena. *)
Lemma crowded_overflows n :
  (1 <= n)%nat -> u32_max < Z.of_nat n * len (crowded (S n)) -> add_list_text engine_default (crowded (S n)) = None.
Proof.
  intros Hn Hbig. unfold add_list_text. change (begin_list engine_default) with (Some (0, mkEngine (en_store engine_default) (en_subtree engine_default)
    (en_exact engine_default) (en_wildcards engine_default) (en_wildcard_buckets engine_default) (en_wildcard_unanchored engine_default) 1)).
  cbn [mbind option_bind]. rewrite streamed_spec, crowded_refs.
  match goal with |- context [fold_left add_text_sink ?rs ?st] => destruct (fold_left add_text_sink rs st) as [c o] eqn:E end.
  destruct o as [e'|]; [|done]. exfalso. apply (f_equal snd) in E. cbn [snd] in E. apply crowd_fold in E; [|lia].
  cbn [en_store engine_default] in E. change (len (st_verbatim store_default)) with 0 in E. lia.
Qed.

Section Capacity.
Context `{UnstableSort}.

(** C22: up to 65,536 lists of two gigabytes together always build when no
    line of theirs names two hosts, and lists of 46,340 bytes together build
    whatever they hold, the engine then standing for their rules; one hosts line of 94,009 bytes, far below the limit on a body,
    makes the build panic, because every name on it stores the whole line. *)
Theorem list_capacity :
  (forall txts, Forall narrow txts -> len txts <= 65536 -> total txts <= 2147483647 ->
     exists e, build_texts txts = Some e /\ built e (rules_of txts))
  /\ (forall txts, total txts <= 46340 -> exists e, build_texts txts = Some e /\ built e (rules_of txts))
  /\ (exists txt, len txt = 94009 /\ len txt <= MAX_LIST_BYTES /\ build_texts [txt] = None).
Proof.
  split; [|split; [intros txts Ht; by apply build_texts_built, small_fits|]].
  - intros txts Hn Hc Ht. apply build_texts_built. split; [done|]. pose proof (narrow_rules_load txts 0 Hn).
    change (rules_of txts) with (rules_from 0 txts). unfold u32_max. lia.
  - assert (Hn : Z.of_nat (Z.to_nat 47000) = 47000) by lia. generalize dependent (Z.to_nat 47000). intros n Hn.
    exists (crowded (S n)). rewrite crowded_len. split; [lia|]. split; [unfold MAX_LIST_BYTES; lia|].
    unfold build_texts. cbn [fold_left mbind option_bind]. rewrite crowded_overflows; [done|lia|]. rewrite crowded_len. unfold u32_max. lia.
Qed.
End Capacity.

(** A small list is narrow. *)
Definition slight_list : list Z := lit "! ads
||ads.example^
0.0.0.0 x.example".

Lemma list_capacity_witness : Forall narrow [slight_list] /\ (exists e, @build_texts merge_sort_keys [slight_list] = Some e /\ built e (rules_of [slight_list])).
Proof.
  assert (Hn : Forall narrow [slight_list]).
  { constructor; [|constructor]. unfold narrow. change (Forall (fun raw => expected_events (trim raw) <= 1)%nat (lines slight_list)).
    apply Forall_forall. intros raw. vm_compute lines. rewrite !elem_of_cons, elem_of_nil. intros [-> |[-> |[-> |[]]]]; vm_compute; lia. }
  split; [exact Hn|]. apply (proj1 (@list_capacity merge_sort_keys)); [exact Hn|vm_compute; discriminate|vm_compute; discriminate].
Defined.
