(* ===== verification/Harness.v ===== *)
(** * Harness: the fuzz targets and the bench of the filter
      ([crates/filter/fuzz/fuzz_targets], [crates/filter/benches])

    What they do with the library; a panic is what a fuzzer looks for. *)
From S2P Require Import Prelude Text FilterTypes Parse Engine ParseSpec KeyIndexSpec LabelsSpec GlobSpec EngineSpec VerdictSpec CapacitySpec.

Section Harness.
Context `{UnstableSort}.

(** ** [fuzz_targets/parse.rs] and [verdict.rs] *)
Definition fuzz_parse (data : list Z) : ParsedList := parse_list (from_utf8_lossy data).

Definition fuzz_verdict (data : list Z) : option Verdict :=
  let text := from_utf8_lossy data in
  let '(rules, query) := default (text, lit "sub.example.com") (split_once 0 text) in
  let parsed := parse_list rules in
  '(_, builder) ← add_list engine_default (pl_rules parsed);
  engine ← finish builder;
  verdict engine query.

(** ** [lookup.rs]

    [read] is the file system; [None] of the variable, an unreadable file
    and the lack of a sample end the bench. *)
Definition sample_domain (rules : list Rule) : option (list Z) :=
  head (omap (fun r => match rule_pattern r with Subtree d | Exact d => Some d | Wildcard _ _ => None end) rules).

Record Loaded := mkLoaded { be_builder : Engine; be_total : Z; be_sample : option (list Z) }.

Definition bench_add (read : list Z -> option (list Z)) (st : Loaded) (path : list Z) : option Loaded :=
  text ← read path;
  let parsed := parse_list text in
  let sample := match be_sample st with None => sample_domain (pl_rules parsed) | Some d => Some d end in
  '(_, builder) ← add_list (be_builder st) (pl_rules parsed);
  Some (mkLoaded builder (be_total st + len (pl_rules parsed)) sample).

Definition bench_load (read : list Z -> option (list Z)) (lists : option (list Z)) : option (Engine * Z * list Z) :=
  lists ← lists;
  st ← fold_left (fun st path => st ← st; bench_add read st path) (split c_colon lists) (Some (mkLoaded engine_default 0 None));
  engine ← finish (be_builder st);
  blocked ← be_sample st;
  Some (engine, be_total st, blocked).

(** What the four benchmarks ask. *)
Definition bench_queries (blocked : list Z) : list (list Z * list Z) :=
  [(lit "miss_allowed", lit "www.wikipedia.org"); (lit "hit_blocked_apex", blocked); (lit "hit_blocked_subdomain", lit "deep.sub." ++ blocked);
   (lit "miss_deep_name", lit "a.very.deep.and.unlikely.name.in.some.zone.example")].

Definition bench_lookup (read : list Z -> option (list Z)) (lists : option (list Z)) : option (list (list Z * Verdict)) :=
  '(engine, total, blocked) ← bench_load read lists;
  mapM (fun q => v ← verdict engine (snd q); Some (fst q, v)) (bench_queries blocked).
End Harness.

(** ** Properties *)
Section Properties.
Context `{UnstableSort}.

Lemma add_list_text_engine e t : (x ← add_list_text e t; Some (snd x)) = (x ← add_list e (pl_rules (parse_list t)); Some (snd x)).
Proof. rewrite add_list_text_agrees. by destruct (add_list _ _) as [[i e']|]. Qed.

Lemma build_one t : build_texts [t] = ('(_, b) ← add_list engine_default (pl_rules (parse_list t)); finish b).
Proof.
  unfold build_texts. cbn [fold_left mbind option_bind]. rewrite add_list_text_agrees. by destruct (add_list _ _) as [[i e]|].
Qed.

(** The fuzzer cannot make the library panic: with inputs of up to 15,446
    bytes of any kind, the arenas hold whatever rules they spell, and every
    query gets a verdict. *)
Theorem fuzz_never_panics data : len data <= 15446 -> exists v, fuzz_verdict data = Some v.
Proof.
  intros Hl. unfold fuzz_verdict. pose proof (from_utf8_lossy_len data) as Ht.
  set (text := from_utf8_lossy data) in *. destruct (default (text, lit "sub.example.com") (split_once 0 text)) as [rules query] eqn:E.
  assert (Hr : len rules <= len text).
  { unfold split_once in E. destruct (find 0 text) as [i|]; cbn in E; [|injection E as <- _; lia]. injection E as <- _.
    unfold len. rewrite length_take. lia. }
  destruct (verdict_total [rules]) as (e & He & Hv); [apply small_fits; cbn [total foldr]; lia|]. rewrite build_one in He.
  destruct (add_list engine_default _) as [[i b]|]; cbn [mbind option_bind] in *; [|done]. rewrite He. cbn [mbind option_bind].
  destruct (Hv query) as (v & -> & _). by exists v.
Qed.

Lemma rules_from_elem t txts : forall i, t ∈ txts -> exists l, forall r, r ∈ refs_of t -> (l, r) ∈ rules_from i txts.
Proof.
  induction txts as [|t' txts IH]; intros i Hin; [by apply elem_of_nil in Hin|]. cbn [rules_from].
  apply elem_of_cons in Hin as [->|Hin].
  - exists i. intros r Hr. apply elem_of_app. left. apply list_elem_of_fmap. by exists r.
  - destruct (IH (i + 1) Hin) as (l & Hl). exists l. intros r Hr. apply elem_of_app. right. by apply Hl.
Qed.

(** The sample is the domain of a rule of one of the files. *)
Definition sampled (texts : list (list Z)) (d : list Z) : Prop :=
  exists t r, t ∈ texts /\ r ∈ refs_of t /\ (pattern r = PatternRef_Exact d \/ pattern r = PatternRef_Subtree d).

Lemma sample_domain_sampled t d : sample_domain (pl_rules (parse_list t)) = Some d -> sampled [t] d.
Proof.
  unfold sample_domain. intros Hs. apply head_Some_elem_of, list_elem_of_omap in Hs as (r & Hr & Hp).
  exists t, (from_rule r). split; [by apply list_elem_of_singleton|]. split; [rewrite refs_of_parse_list; apply list_elem_of_fmap; by exists r|].
  destruct r as [a p tx l]. cbn in *. destruct p; simplify_eq; auto.
Qed.

(** The bench builds the engine of its files, and counts their rules. *)
Definition bench_state (texts : list (list Z)) (st : Loaded) : Prop :=
  fold_left (fun e t => e ← e; '(_, e) ← add_list_text e t; Some e) texts (Some engine_default) = Some (be_builder st)
  /\ be_total st = foldr (fun t n => len (refs_of t) + n) 0 texts /\ forall d, be_sample st = Some d -> sampled texts d.

Lemma sampled_app ts us d : sampled ts d \/ sampled us d -> sampled (ts ++ us) d.
Proof. intros [(t & r & Ht & H')|(t & r & Ht & H')]; exists t, r; (split; [apply elem_of_app; auto|done]). Qed.

Lemma rules_count_app ts us :
  foldr (fun t n => len (refs_of t) + n) 0 (ts ++ us) = foldr (fun t n => len (refs_of t) + n) 0 ts + foldr (fun t n => len (refs_of t) + n) 0 us.
Proof. induction ts as [|t ts IH]; [done|]. cbn. rewrite IH. lia. Qed.

Lemma bench_start : bench_state [] (mkLoaded engine_default 0 None).
Proof. split; [done|]. split; [done|]. intros d Hd. discriminate Hd. Qed.

Lemma bench_add_state read texts st path st' :
  bench_state texts st -> bench_add read st path = Some st' -> exists t, read path = Some t /\ bench_state (texts ++ [t]) st'.
Proof.
  intros (Hf & Ht & Hs). unfold bench_add. destruct (read path) as [t|]; cbn [mbind option_bind]; [|done].
  destruct (add_list _ _) as [[i b]|] eqn:Ea; cbn [mbind option_bind]; [|done]. intros [= <-]. exists t. split; [done|].
  split; [|split]; cbn [be_builder be_total be_sample].
  - rewrite fold_left_app, Hf. cbn [fold_left mbind option_bind]. by rewrite add_list_text_agrees, Ea.
  - rewrite rules_count_app, Ht. cbn. rewrite refs_of_parse_list. unfold len. rewrite length_map. lia.
  - intros d Hd. apply sampled_app. destruct (be_sample st) as [d'|]; [left; apply Hs; done|right; by apply sample_domain_sampled].
Qed.

Lemma bench_fold_state read paths : forall texts st st',
  bench_state texts st -> fold_left (fun st path => st ← st; bench_add read st path) paths (Some st) = Some st' ->
  exists ts, mapM read paths = Some ts /\ bench_state (texts ++ ts) st'.
Proof.
  assert (Hn : forall paths, fold_left (fun st path => st ← st; bench_add read st path) paths None = None) by (by induction paths0).
  induction paths as [|path paths IH]; intros texts st st' Hst; cbn [fold_left mbind option_bind].
  { intros [= <-]. exists []. by rewrite app_nil_r. }
  destruct (bench_add read st path) as [st1|] eqn:Ea; [|by rewrite Hn].
  destruct (bench_add_state _ _ _ _ _ Hst Ea) as (t & Hr & Hst1). intros Hf. destruct (IH _ _ _ Hst1 Hf) as (ts & Hm & Hst').
  exists (t :: ts). split; [cbn; by rewrite Hr; cbn [mbind option_bind]; rewrite Hm|by rewrite <- app_assoc in Hst'].
Qed.

Lemma query_name_domain d : valid_domain d -> query_name d = d.
Proof. intros Hd. rewrite query_name_lower, valid_domain_lower by done. by rewrite valid_domain_no_trailing_dot. Qed.

(** What the bench calls a blocked apex is a name some rule covers: it
    never measures a miss under that label, and it counts every rule of its
    files. *)
Theorem bench_apex_hits read lists e total blocked :
  bench_load read lists = Some (e, total, blocked) ->
  exists paths texts, lists = Some paths /\ mapM read (split c_colon paths) = Some texts /\ build_texts texts = Some e
    /\ total = foldr (fun t n => len (refs_of t) + n) 0 texts
    /\ exists v, verdict e blocked = Some v /\ v <> VNoMatch.
Proof.
  unfold bench_load. destruct lists as [paths|]; cbn [mbind option_bind]; [|done]. destruct (fold_left _ _ _) as [st|] eqn:Ef; cbn [mbind option_bind]; [|done].
  destruct (bench_fold_state read _ [] _ _ bench_start Ef) as (texts & Hm & Hf & Ht & Hs). cbn [app] in *.
  destruct (finish (be_builder st)) as [e'|] eqn:Ee; cbn [mbind option_bind]; [|done]. destruct (be_sample st) as [d|] eqn:Ed; cbn [mbind option_bind]; [|done].
  intros [= <- <- <-]. exists paths, texts. split; [done|]. split; [done|].
  assert (Hb : build_texts texts = Some e') by (unfold build_texts; by rewrite Hf). split; [done|]. split; [done|].
  destruct (Hs d eq_refl) as (t & r & Hin & Hr & Hp). destruct (rules_from_elem t texts 0 Hin) as (l & Hl). specialize (Hl r Hr).
  assert (Hd : valid_domain d).
  { pose proof (refs_of_wf t) as Hw. rewrite Forall_forall in Hw. destruct (Hw r Hr) as (Hv & _). by destruct Hp as [E|E]; rewrite E in Hv. }
  pose proof (verdict_decided texts e' d Hb) as Hdec. rewrite query_name_domain in Hdec by done.
  destruct Hdec as (v & Hv & Hspec); [exact (proj1 Hd)|by apply valid_no_trailing_dot|by apply valid_domain_no_star|].
  exists v. split; [done|]. intros ->. apply (Hspec (l, r) Hl). cbn [snd].
  destruct Hp as [E|E]; rewrite E; [done|by left].
Qed.

End Properties.

Lemma fuzz_never_panics_witness : exists v, @fuzz_verdict merge_sort_keys [124; 124; 97; 255; 0; 97; 46] = Some v.
Proof. apply (@fuzz_never_panics merge_sort_keys). vm_compute. intros HF; discriminate HF. Defined.

(** Its subdomain need not be one: an exact rule, as of a hosts file,
    leaves the names under its own alone, and [hit_blocked_subdomain] then
    measures a miss. *)
Theorem bench_subdomain_may_miss :
  @bench_lookup merge_sort_keys (fun _ => Some (lit "0.0.0.0 ads.example")) (Some (lit "hosts"))
  = Some [(lit "miss_allowed", VNoMatch); (lit "hit_blocked_apex", VBlock 0 (mkMatched Block (lit "0.0.0.0 ads.example") 1));
          (lit "hit_blocked_subdomain", VNoMatch); (lit "miss_deep_name", VNoMatch)].
Proof. vm_compute. reflexivity. Qed.
