(* ===== verification/Prng.v ===== *)
(** * Prng: the xorshift generator of the load tools
      ([crates/core/examples/latency_probe.rs], [loadgen.rs])

    A 64-bit state, shifted and xored. It is a permutation of the states
    that keeps only zero fixed, so a generator that starts anywhere else
    never reaches zero. *)
From S2P Require Import Prelude.

(** A [u64] drops the bits a left shift moves out. *)
Definition u64_shl (x k : Z) : Z := Z.land (Z.shiftl x k) u64_max.

Definition xorshift (state : Z) : Z :=
  let state := Z.lxor state (u64_shl state 13) in
  let state := Z.lxor state (Z.shiftr state 7) in
  Z.lxor state (u64_shl state 17).

Definition u64 (x : Z) : Prop := 0 <= x <= u64_max.

(** ** Bits *)
Lemma u64_max_bit n : 0 <= n -> Z.testbit u64_max n = (n <? 64).
Proof.
  intros Hn. change u64_max with (Z.ones 64). destruct (n <? 64) eqn:E; bool_to_prop.
  - apply Z.ones_spec_low. lia.
  - apply Z.ones_spec_high. lia.
Qed.

Lemma u64_shl_bit x k n : 0 <= n -> Z.testbit (u64_shl x k) n = Z.testbit x (n - k) && (n <? 64).
Proof. intros Hn. unfold u64_shl. by rewrite Z.land_spec, Z.shiftl_spec, u64_max_bit. Qed.

Lemma u64_high x n : u64 x -> 64 <= n -> Z.testbit x n = false.
Proof.
  intros (H0 & Hm) Hn. destruct (decide (x = 0)) as [->|]; [apply Z.bits_0|]. apply Z.bits_above_log2; [done|].
  apply Z.lt_le_trans with 64; [|done]. apply Z.log2_lt_pow2; [lia|]. unfold u64_max in Hm. lia.
Qed.

Lemma u64_bits x : 0 <= x -> (forall n, 64 <= n -> Z.testbit x n = false) -> u64 x.
Proof.
  intros H0 Hb. split; [done|]. destruct (decide (x <= u64_max)) as [|Hlt]; [done|]. exfalso.
  assert (H64 : 64 <= Z.log2 x) by (apply Z.log2_le_pow2; unfold u64_max in *; lia).
  specialize (Hb _ H64). rewrite Z.bit_log2 in Hb by (unfold u64_max in *; lia). done.
Qed.

Lemma u64_lxor x y : u64 x -> u64 y -> u64 (Z.lxor x y).
Proof.
  intros Hx Hy. apply u64_bits; [apply Z.lxor_nonneg; split; intros; [apply Hy|apply Hx]|].
  intros n Hn. by rewrite Z.lxor_spec, !u64_high.
Qed.

Lemma u64_shl_u64 x k : 0 <= k -> u64 x -> u64 (u64_shl x k).
Proof.
  intros Hk Hx. unfold u64_shl. apply u64_bits; [apply Z.land_nonneg; by right|].
  intros n Hn. rewrite Z.land_spec, u64_max_bit by lia. zguard. apply andb_false_r.
Qed.

Lemma u64_shr_u64 x k : 0 <= k -> u64 x -> u64 (Z.shiftr x k).
Proof.
  intros Hk Hx. apply u64_bits; [apply Z.shiftr_nonneg; apply Hx|]. intros n Hn. rewrite Z.shiftr_spec by lia. apply u64_high; [done|lia].
Qed.

(** ** One shift and xor is injective *)
Lemma shl_kernel x k : u64 x -> 0 < k -> Z.lxor x (u64_shl x k) = 0 -> x = 0.
Proof.
  intros Hx Hk Hz. apply Z.bits_inj'. intros n. rewrite Z.bits_0. induction (Z.lt_wf 0 n) as [n _ IH]. intros Hn.
  pose proof (f_equal (fun z => Z.testbit z n) Hz) as Hb. cbn beta in Hb. rewrite Z.lxor_spec, u64_shl_bit, Z.bits_0 in Hb by done.
  destruct (decide (n < k)) as [|Hge]; [rewrite (Z.testbit_neg_r x (n - k)) in Hb by lia; by destruct (Z.testbit x n)|].
  rewrite (IH (n - k)) in Hb by lia. by destruct (Z.testbit x n).
Qed.

Lemma shr_kernel x k : u64 x -> 0 < k -> Z.lxor x (Z.shiftr x k) = 0 -> x = 0.
Proof.
  intros Hx Hk Hz. apply Z.bits_inj'. intros n Hn. rewrite Z.bits_0.
  remember (Z.to_nat (64 - n)) as d eqn:Ed. revert n Hn Ed. induction (lt_wf d) as [d _ IH]. intros n Hn ->.
  destruct (decide (64 <= n)) as [|Hlt]; [by apply u64_high|].
  pose proof (f_equal (fun z => Z.testbit z n) Hz) as Hb. cbn beta in Hb. rewrite Z.lxor_spec, Z.shiftr_spec, Z.bits_0 in Hb by done.
  rewrite (IH (Z.to_nat (64 - (n + k))) ltac:(lia) (n + k) ltac:(lia) eq_refl) in Hb. by destruct (Z.testbit x n).
Qed.

Lemma u64_shl_lxor x y k : u64_shl (Z.lxor x y) k = Z.lxor (u64_shl x k) (u64_shl y k).
Proof.
  unfold u64_shl. apply Z.bits_inj'. intros n Hn. rewrite Z.lxor_spec, !Z.land_spec, !Z.shiftl_spec, Z.lxor_spec by done.
  by destruct (Z.testbit x _), (Z.testbit y _), (Z.testbit u64_max n).
Qed.

(** The step is linear, sends [u64] to [u64] and only zero to zero. *)
Lemma lxor_swap a b c d : Z.lxor (Z.lxor a b) (Z.lxor c d) = Z.lxor (Z.lxor a c) (Z.lxor b d).
Proof. rewrite !Z.lxor_assoc. f_equal. rewrite <- !Z.lxor_assoc. f_equal. apply Z.lxor_comm. Qed.

Lemma shl_step_lxor x y k : Z.lxor (Z.lxor x y) (u64_shl (Z.lxor x y) k) = Z.lxor (Z.lxor x (u64_shl x k)) (Z.lxor y (u64_shl y k)).
Proof. rewrite u64_shl_lxor. apply lxor_swap. Qed.

Lemma shr_step_lxor x y k : Z.lxor (Z.lxor x y) (Z.shiftr (Z.lxor x y) k) = Z.lxor (Z.lxor x (Z.shiftr x k)) (Z.lxor y (Z.shiftr y k)).
Proof. rewrite Z.shiftr_lxor. apply lxor_swap. Qed.

Lemma xorshift_lxor x y : xorshift (Z.lxor x y) = Z.lxor (xorshift x) (xorshift y).
Proof. unfold xorshift. cbn zeta. rewrite (shl_step_lxor x y 13), shr_step_lxor. apply shl_step_lxor. Qed.

Lemma xorshift_u64 x : u64 x -> u64 (xorshift x).
Proof.
  intros Hx. unfold xorshift. cbn zeta.
  assert (H1 : u64 (Z.lxor x (u64_shl x 13))) by (apply u64_lxor; [done|by apply u64_shl_u64]).
  set (y := Z.lxor x _) in *. assert (H2 : u64 (Z.lxor y (Z.shiftr y 7))) by (apply u64_lxor; [done|by apply u64_shr_u64]).
  set (z := Z.lxor y _) in *. apply u64_lxor; [done|by apply u64_shl_u64].
Qed.

Lemma xorshift_kernel x : u64 x -> xorshift x = 0 -> x = 0.
Proof.
  intros Hx. unfold xorshift. cbn zeta.
  assert (H1 : u64 (Z.lxor x (u64_shl x 13))) by (apply u64_lxor; [done|by apply u64_shl_u64]).
  set (y := Z.lxor x _) in *. assert (H2 : u64 (Z.lxor y (Z.shiftr y 7))) by (apply u64_lxor; [done|by apply u64_shr_u64]).
  set (z := Z.lxor y _) in *. intros Hz%shl_kernel; [|done..]. apply shr_kernel in Hz; [|done..]. by apply shl_kernel in Hz.
Qed.

(** The generator never repeats a state by merging two, and never stops at
    zero. *)
Theorem xorshift_injective x y : u64 x -> u64 y -> xorshift x = xorshift y -> x = y.
Proof.
  intros Hx Hy E. apply Z.lxor_eq. apply xorshift_kernel; [by apply u64_lxor|]. by rewrite xorshift_lxor, E, Z.lxor_nilpotent.
Qed.

Lemma xorshift_injective_witness : xorshift 1 = xorshift 1 -> 1 = 1.
Proof. intros E. apply (xorshift_injective 1 1); [split; vm_compute; discriminate|split; vm_compute; discriminate|exact E]. Defined.

Lemma xorshift_nonzero x : u64 x -> x <> 0 -> u64 (xorshift x) /\ xorshift x <> 0.
Proof. intros Hx Hn. split; [by apply xorshift_u64|]. intros Hz. by apply Hn, xorshift_kernel. Qed.

Lemma xorshift_zero : xorshift 0 = 0.
Proof. reflexivity. Qed.
