(* ===== verification/F64.v ===== *)
(** * F64: the [f64] arithmetic of the load tools

    IEEE 754 doubles as the Standard Library specifies them (a sign, a
    mantissa of 53 bits, an exponent), the casts, and what one rounded
    product can do to a count. *)
From Stdlib Require Import SpecFloat.
From S2P Require Import Prelude.

Definition f64 : Type := spec_float.

(** [n as f64], the operators, and a decimal literal, which is the quotient
    correctly rounded. *)
Definition f64_of (n : Z) : f64 := binary_normalize 53 1024 n 0 false.
Definition f64_mul : f64 -> f64 -> f64 := SFmul 53 1024.
Definition f64_sub : f64 -> f64 -> f64 := SFsub 53 1024.
Definition f64_add : f64 -> f64 -> f64 := SFadd 53 1024.
Definition f64_div : f64 -> f64 -> f64 := SFdiv 53 1024.
Definition f64_lit (num den : Z) : f64 := f64_div (f64_of num) (f64_of den).

(** [x as u64], [x.ceil() as usize] and [x.round() as usize]: the casts
    saturate, and NaN is zero. *)
Definition scale_floor (m e : Z) : Z := if 0 <=? e then m * 2 ^ e else m / 2 ^ (- e).
Definition as_u64 (part : Z -> Z -> Z) (x : f64) : Z :=
  match x with
  | S754_finite false m e => Z.min u64_max (part (Z.pos m) e)
  | S754_infinity false => u64_max
  | _ => 0
  end.
Definition f64_floor : f64 -> Z := as_u64 scale_floor.
Definition f64_ceil : f64 -> Z := as_u64 (fun m e => - scale_floor (- m) e).
Definition f64_round : f64 -> Z := as_u64 (fun m e => scale_floor (2 * m + 2 ^ (- e)) (e - 1)).

(** ** Shifting out bits *)

(** After [k] bits of [M] went out, [m] is left and the two flags say how
    what went out compares with half of [2 ^ k]. *)
Definition shifted (M k : Z) (mrs : shr_record) : Prop :=
  exists rest, M = shr_m mrs * 2 ^ k + rest /\ 0 <= rest < 2 ^ k /\ 0 <= shr_m mrs
    /\ match shr_r mrs, shr_s mrs with
       | false, false => rest = 0
       | false, true => 0 < 2 * rest < 2 ^ k
       | true, false => 2 * rest = 2 ^ k
       | true, true => 2 ^ k < 2 * rest
       end.

Lemma shr_1_shifted M k mrs : 0 <= k -> shifted M k mrs -> shifted M (k + 1) (shr_1 mrs).
Proof.
  intros Hk (rest & HM & Hr & Hm & Hf). unfold shifted. rewrite Z.pow_add_r by lia. change (2 ^ 1) with 2.
  pose proof (Z.pow_pos_nonneg 2 k ltac:(lia) Hk) as Hp. set (P := 2 ^ k) in *.
  destruct mrs as [m r s]. cbn [shr_m shr_r shr_s] in *. destruct m as [|[p|p|]|p]; [..|lia]; cbn [shr_1 shr_m shr_r shr_s].
  - exists rest. repeat split; try lia. destruct r, s; cbn; lia.
  - exists (P + rest). repeat split; try lia. destruct r, s; cbn; lia.
  - exists rest. repeat split; try lia. destruct r, s; cbn; lia.
  - exists (P + rest). repeat split; try lia. destruct r, s; cbn; lia.
Qed.

Lemma iter_pos_nat {A} (f : A -> A) p : forall x, SpecFloat.iter_pos f p x = Nat.iter (Pos.to_nat p) f x.
Proof.
  induction p as [p IH|p IH|]; intros x; [| |done].
  - change (SpecFloat.iter_pos f p~1 x) with (SpecFloat.iter_pos f p (SpecFloat.iter_pos f p (f x))).
    rewrite !IH, Pos2Nat.inj_xI, <- Nat.iter_add. replace (S (2 * Pos.to_nat p)) with ((Pos.to_nat p + Pos.to_nat p) + 1)%nat by lia.
    by rewrite (Nat.iter_add _ 1).
  - change (SpecFloat.iter_pos f p~0 x) with (SpecFloat.iter_pos f p (SpecFloat.iter_pos f p x)).
    rewrite !IH, Pos2Nat.inj_xO, <- Nat.iter_add. f_equal. lia.
Qed.

Lemma iter_shifted M n : shifted M (Z.of_nat n) (Nat.iter n shr_1 (Build_shr_record M false false)) \/ M < 0.
Proof.
  destruct (decide (M < 0)) as [|HM]; [by right|left]. induction n as [|n IH]; [exists 0; cbn; lia|].
  change (Nat.iter (S n) shr_1 ?x) with (shr_1 (Nat.iter n shr_1 x)). rewrite Nat2Z.inj_succ. apply shr_1_shifted; [lia|done].
Qed.

(** Rounding to even leaves less than half a unit. *)
Lemma round_shifted M k mrs :
  0 <= k -> shifted M k mrs ->
  let q := round_nearest_even (shr_m mrs) (loc_of_shr_record mrs) in
  - 2 ^ k <= 2 * (q * 2 ^ k - M) <= 2 ^ k /\ shr_m mrs <= q <= shr_m mrs + 1.
Proof.
  intros Hk (rest & HM & Hr & Hm & Hf). destruct mrs as [m r s]. cbn [shr_m shr_r shr_s] in *.
  pose proof (Z.pow_pos_nonneg 2 k ltac:(lia) Hk). destruct r, s; cbn [loc_of_shr_record round_nearest_even]; [|destruct (Z.even m)| |]; nia.
Qed.

(** ** Digits *)
Lemma digits2_size p : digits2_pos p = Pos.size p.
Proof. by induction p as [p IH|p IH|]; cbn; rewrite ?IH. Qed.

Lemma digits2_bounds p : 2 ^ (Z.pos (digits2_pos p) - 1) <= Z.pos p < 2 ^ Z.pos (digits2_pos p).
Proof.
  rewrite digits2_size. pose proof (Pos.size_gt p). pose proof (Pos.size_le p).
  assert (E : 2 ^ Z.pos (Pos.size p) = 2 * 2 ^ (Z.pos (Pos.size p) - 1)) by (rewrite <- Z.pow_succ_r by lia; f_equal; lia).
  change 2 with (Z.pos 2) in *. rewrite <- Pos2Z.inj_pow in *. lia.
Qed.

Lemma digits2_unique p d : 0 <= d -> 2 ^ (d - 1) <= Z.pos p < 2 ^ d -> Z.pos (digits2_pos p) = d.
Proof.
  intros Hd Hb. pose proof (digits2_bounds p) as Hp. set (x := Z.pos (digits2_pos p)) in *. assert (1 <= x) by lia.
  destruct (Z.lt_trichotomy x d) as [|[|]]; [|done|].
  - pose proof (Z.pow_le_mono_r 2 x (d - 1) ltac:(lia) ltac:(lia)). lia.
  - pose proof (Z.pow_le_mono_r 2 d (x - 1) ltac:(lia) ltac:(lia)). lia.
Qed.

(** ** Rounding a mantissa *)
Lemma shr_fexp_by m e l n :
  fexp 53 1024 (Zdigits2 m + e) - e = n ->
  shr_fexp 53 1024 m e l = match n with Z.pos p => (SpecFloat.iter_pos shr_1 p (shr_record_of_loc m l), e + n) | _ => (shr_record_of_loc m l, e) end.
Proof. intros E. unfold shr_fexp, shr. by rewrite E. Qed.

Lemma fexp_normal d e : -1074 <= e + d - 53 -> fexp 53 1024 (d + e) - e = d - 53.
Proof. intros H. unfold fexp, emin. lia. Qed.

(** A mantissa of more than 53 bits is cut to 53, at most half a unit away. *)
Lemma round_spec p E k :
  Z.pos (digits2_pos p) = 53 + k -> 0 < k -> -1074 <= E + k <= 970 ->
  exists q m e, binary_round_aux 53 1024 false (Z.pos p) E loc_Exact = S754_finite false m e
    /\ - 2 ^ k <= 2 * (q * 2 ^ k - Z.pos p) <= 2 ^ k /\ E + k <= e /\ q = Z.pos m * 2 ^ (e - (E + k)) /\ 2 ^ 52 <= Z.pos m < 2 ^ 53.
Proof.
  intros Hd Hk HE. unfold binary_round_aux. rewrite (shr_fexp_by _ _ _ k) by (cbn [Zdigits2]; rewrite Hd, fexp_normal; lia).
  destruct k as [|kp|kp]; [lia| |lia]. cbn [shr_record_of_loc]. rewrite iter_pos_nat.
  destruct (iter_shifted (Z.pos p) (Pos.to_nat kp)) as [Hs|]; [|lia]. rewrite positive_nat_Z in Hs.
  set (mrs := Nat.iter _ _ _) in *. pose proof (digits2_bounds p) as Hp. rewrite Hd in Hp. set (k := Z.pos kp) in *.
  pose proof (Z.pow_pos_nonneg 2 k ltac:(lia) ltac:(lia)) as HP.
  rewrite (Z.pow_add_r 2 53 k) in Hp by lia. replace (53 + k - 1) with (52 + k) in Hp by lia. rewrite (Z.pow_add_r 2 52 k) in Hp by lia.
  destruct (round_shifted _ k _ ltac:(lia) Hs) as (Hq & Hm). destruct Hs as (rest & HM & Hr & Hm0 & _).
  set (q := round_nearest_even _ _) in *. assert (H52 : 2 ^ 52 <= shr_m mrs < 2 ^ 53) by nia.
  assert (Hq52 : 2 ^ 52 <= q <= 2 ^ 53) by lia. clearbody q. destruct q as [|qp|qp]; [lia| |lia].
  destruct (decide (Z.pos qp < 2 ^ 53)) as [Hlt|Hge].
  - rewrite (shr_fexp_by _ _ _ 0). 2:{ cbn [Zdigits2]. rewrite (digits2_unique qp 53) by lia. rewrite fexp_normal; lia. }
    cbn [shr_record_of_loc shr_m]. rewrite (proj2 (Z.leb_le _ _)) by lia.
    exists (Z.pos qp), qp, (E + k). split; [done|]. rewrite Z.sub_diag. split; [done|]. split; [lia|]. split; [lia|]. lia.
  - assert (Eq : Z.pos qp = 2 ^ 53) by lia. assert (qp = 9007199254740992%positive) as -> by lia.
    rewrite (shr_fexp_by _ _ _ 1). 2:{ cbn [Zdigits2]. rewrite (digits2_unique _ 54) by lia. rewrite fexp_normal; lia. }
    cbn [shr_record_of_loc SpecFloat.iter_pos shr_1 shr_m]. rewrite (proj2 (Z.leb_le _ _)) by lia.
    eexists _, _, (E + k + 1). split; [done|]. split; [exact Hq|]. split; [lia|]. replace (E + k + 1 - (E + k)) with 1 by lia. lia.
Qed.

(** ** Counts *)

(** The double of a count between 1 and 2^53: its normal mantissa. *)
Definition normal (n : Z) (x : f64) : Prop :=
  exists m e, x = S754_finite false m e /\ 2 ^ 52 <= Z.pos m < 2 ^ 53 /\ e <= 0 /\ Z.pos m = n * 2 ^ (- e).

(** A product of normal mantissas, in units of [2 ^ -F]. *)
Lemma mul_spec n x m2 e2 :
  normal n x -> n < 2 ^ 53 -> 2 ^ 52 <= Z.pos m2 < 2 ^ 53 -> -60 <= e2 <= 0 ->
  exists q k F M m e, f64_mul x (S754_finite false m2 e2) = S754_finite false m e
    /\ 0 <= F /\ M = n * Z.pos m2 * 2 ^ (F + e2) /\ 0 <= F + e2 /\ 2 ^ 52 * 2 ^ k <= M < 2 ^ 53 * 2 ^ k /\ 0 < k
    /\ - 2 ^ k <= 2 * (q * 2 ^ k - M) <= 2 ^ k /\ 0 <= e + F - k /\ q * 2 ^ k = Z.pos m * 2 ^ (e + F).
Proof.
  intros (m1 & e1 & -> & Hm1 & He1 & En) Hn Hm2 He2. unfold f64_mul, SFmul. cbn [xorb].
  set (M := (m1 * m2)%positive). pose proof (digits2_bounds M) as HM. assert (EM : Z.pos M = Z.pos m1 * Z.pos m2) by done.
  assert (Hlo : 2 ^ 104 <= Z.pos M < 2 ^ 106) by (change (2 ^ 104) with (2 ^ 52 * 2 ^ 52); change (2 ^ 106) with (2 ^ 53 * 2 ^ 53); nia).
  assert (Hd : 105 <= Z.pos (digits2_pos M) <= 106).
  { set (d := Z.pos (digits2_pos M)) in *. assert (1 <= d) by lia. split.
    - destruct (decide (105 <= d)) as [|Hlt]; [done|]. pose proof (Z.pow_le_mono_r 2 d 104 ltac:(lia) ltac:(lia)). lia.
    - destruct (decide (d <= 106)) as [|Hgt]; [done|]. pose proof (Z.pow_le_mono_r 2 106 (d - 1) ltac:(lia) ltac:(lia)). lia. }
  assert (He1' : -52 <= e1).
  { destruct (decide (-52 <= e1)) as [|Hlt]; [done|]. pose proof (Z.pow_le_mono_r 2 53 (- e1) ltac:(lia) ltac:(lia)).
    assert (0 < n) by (destruct (decide (0 < n)); [done|nia]). nia. }
  destruct (round_spec M (e1 + e2) (Z.pos (digits2_pos M) - 53)) as (q & m & e & -> & Hq & He & Eq & Hm); [lia..|].
  set (k := Z.pos (digits2_pos M) - 53) in *.
  exists q, k, (- (e1 + e2)), (Z.pos M), m, e. split; [done|]. split; [lia|]. split.
  { rewrite EM, En. replace (- (e1 + e2) + e2) with (- e1) by lia. lia. }
  split; [lia|]. split.
  { rewrite <- !Z.pow_add_r by lia. replace (52 + k) with (Z.pos (digits2_pos M) - 1) by (subst k; lia).
    replace (53 + k) with (Z.pos (digits2_pos M)) by (subst k; lia). lia. }
  split; [lia|]. split; [done|]. split; [lia|]. rewrite Eq, <- Z.mul_assoc, <- Z.pow_add_r by lia. f_equal. f_equal. lia.
Qed.

Lemma scale_floor_spec m e F : 0 <= F -> 0 <= e + F -> scale_floor m e = m * 2 ^ (e + F) / 2 ^ F.
Proof.
  intros HF HeF. unfold scale_floor. destruct (0 <=? e) eqn:E; bool_to_prop.
  - rewrite Z.pow_add_r, Z.mul_assoc by lia. by rewrite Z.div_mul by (pose proof (Z.pow_pos_nonneg 2 F); lia).
  - assert (EF : 2 ^ F = 2 ^ (- e) * 2 ^ (e + F)) by (rewrite <- Z.pow_add_r by lia; f_equal; lia). rewrite EF.
    rewrite Z.div_mul_cancel_r; [done|pose proof (Z.pow_pos_nonneg 2 (- e)); lia|pose proof (Z.pow_pos_nonneg 2 (e + F)); lia].
Qed.

Lemma round_id p E : Z.pos (digits2_pos p) = 53 -> -1074 <= E <= 971 -> binary_round_aux 53 1024 false (Z.pos p) E loc_Exact = S754_finite false p E.
Proof.
  intros Hd HE. assert (Hs : forall l, shr_fexp 53 1024 (Z.pos p) E l = (shr_record_of_loc (Z.pos p) l, E)).
  { intros l. rewrite (shr_fexp_by _ _ _ 0); [done|]. cbn [Zdigits2]. rewrite Hd, fexp_normal; lia. }
  unfold binary_round_aux. rewrite Hs. cbn [shr_record_of_loc shr_m loc_of_shr_record round_nearest_even]. rewrite Hs.
  cbn [shr_record_of_loc shr_m]. by rewrite (proj2 (Z.leb_le _ _)) by lia.
Qed.

Lemma iter_xO m d : Z.pos (Pos.iter xO m d) = Z.pos m * 2 ^ Z.pos d.
Proof.
  induction d as [|d IH] using Pos.peano_ind; [cbn; lia|]. rewrite Pos.iter_succ, Pos2Z.inj_succ, Z.pow_succ_r by lia.
  rewrite Pos2Z.inj_xO, IH. lia.
Qed.

Lemma f64_of_normal n : 1 <= n < 2 ^ 53 -> normal n (f64_of n).
Proof.
  intros Hn. destruct n as [|p|p]; [lia| |lia]. unfold f64_of, binary_normalize, binary_round.
  pose proof (digits2_bounds p) as Hp. set (d := Z.pos (digits2_pos p)) in *.
  assert (Hd : 1 <= d <= 53).
  { split; [lia|]. destruct (decide (d <= 53)); [done|]. pose proof (Z.pow_le_mono_r 2 53 (d - 1) ltac:(lia) ltac:(lia)). lia. }
  replace (fexp 53 1024 (d + 0)) with (d - 53) by (unfold fexp, emin; lia). unfold shl_align. rewrite Z.sub_0_r.
  assert (E53 : 2 ^ 53 = 2 ^ d * 2 ^ (53 - d)) by (rewrite <- Z.pow_add_r by lia; f_equal; lia).
  assert (E52 : 2 ^ 52 = 2 ^ (d - 1) * 2 ^ (53 - d)) by (rewrite <- Z.pow_add_r by lia; f_equal; lia).
  destruct (d - 53) as [|s|s] eqn:Es; [|lia|].
  - rewrite round_id by lia. exists p, 0. split; [done|]. split; [|split; [lia|cbn; lia]]. replace d with 53 in Hp by lia. exact Hp.
  - assert (Hs : 53 - d = Z.pos s) by (apply (f_equal Z.opp) in Es; change (- Z.neg s) with (Z.pos s) in Es; lia).
    assert (Em : Z.pos (Pos.iter xO p s) = Z.pos p * 2 ^ (53 - d)) by (rewrite iter_xO, Hs; lia).
    assert (Hm : 2 ^ 52 <= Z.pos (Pos.iter xO p s) < 2 ^ 53) by (pose proof (Z.pow_pos_nonneg 2 (53 - d)); nia).
    rewrite round_id by (try apply digits2_unique; lia). exists (Pos.iter xO p s), (Z.neg s). split; [done|]. split; [done|]. split; [lia|].
    rewrite Em, Hs. change (- Z.neg s) with (Z.pos s). lia.
Qed.

(** The distance between a ratio and its double, relative to the ratio. *)
Definition close (a b m2 e2 : Z) : Prop := Z.abs (m2 * b - a * 2 ^ (- e2)) * 2 ^ 54 <= b * m2.

(** The smallest whole number that is at least [n * a / b]. *)
Definition ceil_ratio (n a b : Z) : Z := - (- (n * a) / b).

Lemma ceil_ratio_spec n a b : 0 < b -> (ceil_ratio n a b - 1) * b < n * a <= ceil_ratio n a b * b.
Proof. intros Hb. unfold ceil_ratio. pose proof (Z.div_mod (- (n * a)) b ltac:(lia)). pose proof (Z.mod_pos_bound (- (n * a)) b Hb). nia. Qed.

Lemma multiple_le P q c x : 0 < P -> q * P < c * x * P + P -> q * P <= c * x * P.
Proof. intros HP H. assert (q < c * x + 1) by nia. nia. Qed.

(** The arithmetic of one rounded product near a ratio, in units of [P]:
    the unit of the product divides [P] many times. *)
Lemma ceil_window n a b c q K J M X :
  0 < K -> 2 ^ 19 <= J -> 1 <= b <= 1000 ->
  M * b = n * a * (K * J) + X -> Z.abs X * 2 ^ 54 <= b * M -> M < 2 ^ 53 * K ->
  - K <= 2 * (q * K - M) <= K -> (c - 1) * b < n * a <= c * b ->
  (c - 1) * (K * J) < q * K <= c * (K * J).
Proof.
  intros HK HJ Hb HM HX HMK Hq Hc.
  assert (HXK : 2 * Z.abs X < b * K) by nia. split.
  - assert (Hlow : ((c - 1) * b + 1) * (K * J) <= n * a * (K * J)) by (apply Z.mul_le_mono_nonneg_r; nia).
    assert (H1 : 2 * b * (q * K) >= 2 * (M * b) - b * K) by nia.
    assert (H2 : 2 * b * (q * K) >= 2 * (((c - 1) * b + 1) * (K * J)) - 2 * (b * K)) by nia.
    assert (H3 : 2 ^ 19 * K <= K * J) by nia. assert (H4 : b * K <= 1000 * K) by nia.
    assert (H5 : 2 * b * (q * K) > 2 * b * ((c - 1) * (K * J))) by nia. nia.
  - assert (Hup : n * a * (K * J) <= c * b * (K * J)) by (apply Z.mul_le_mono_nonneg_r; nia).
    assert (H1 : 2 * b * (q * K) <= 2 * (M * b) + b * K) by nia.
    assert (H2 : 2 * b * (q * K) < 2 * b * (c * (K * J) + K)) by nia.
    assert (H3 : q * K < c * (K * J) + K) by nia.
    assert (H4 : q < c * J + 1) by nia. nia.
Qed.

(** A count times a double close to a ratio rounds up to the very number
    the ratio rounds up to. *)
Theorem ceil_exact n a b m2 e2 :
  1 <= n <= 2 ^ 32 -> 0 < a <= b -> b <= 1000 -> 2 ^ 52 <= Z.pos m2 < 2 ^ 53 -> -60 <= e2 <= 0 -> close a b (Z.pos m2) e2 ->
  f64_ceil (f64_mul (f64_of n) (S754_finite false m2 e2)) = ceil_ratio n a b.
Proof.
  intros Hn Ha Hb Hm2 He2 Hc. pose proof (ceil_ratio_spec n a b ltac:(lia)) as Hr.
  destruct (mul_spec n (f64_of n) m2 e2) as (q & k & F & M & m & e & -> & HF & EM & HFe & HM & Hk & Hq & He & Eq); [apply f64_of_normal; lia|lia|done|done|].
  unfold f64_ceil, as_u64. rewrite (scale_floor_spec _ _ F) by lia. rewrite Z.mul_opp_l, <- Eq.
  pose proof (Z.pow_pos_nonneg 2 k ltac:(lia) ltac:(lia)) as HK. pose proof (Z.pow_pos_nonneg 2 (F + e2) ltac:(lia) ltac:(lia)) as HA.
  assert (EF : 2 ^ F = 2 ^ (F + e2) * 2 ^ (- e2)) by (rewrite <- Z.pow_add_r by lia; f_equal; lia).
  unfold close in Hc. set (A := 2 ^ (F + e2)) in *. set (D := Z.pos m2 * b - a * 2 ^ (- e2)) in *.
  assert (EX : M * b = n * a * 2 ^ F + n * A * D) by (rewrite EM, EF; subst D; ring).
  assert (HX : Z.abs (n * A * D) * 2 ^ 54 <= b * M).
  { rewrite EM, Z.abs_mul, (Z.abs_eq (n * A)) by nia. replace (n * A * Z.abs D * 2 ^ 54) with (n * A * (Z.abs D * 2 ^ 54)) by ring.
    replace (b * (n * Z.pos m2 * A)) with (n * A * (b * Z.pos m2)) by ring. apply Z.mul_le_mono_nonneg_l; [nia|done]. }
  pose proof (Z.pow_pos_nonneg 2 F ltac:(lia) ltac:(lia)) as HP.
  assert (HMF : M <= 2 ^ 33 * 2 ^ F).
  { assert (HnP : n * a * 2 ^ F <= 2 ^ 32 * b * 2 ^ F) by (apply Z.mul_le_mono_nonneg_r; [lia|apply Z.mul_le_mono_nonneg; lia]).
    clearbody D. clear - EX HX HnP Ha HP. apply (Z.mul_le_mono_pos_l _ _ b); lia. }
  assert (HkF : 19 <= F - k).
  { assert (Hp : 2 ^ (52 + k) <= 2 ^ (33 + F)) by (rewrite !Z.pow_add_r by lia; lia). apply Z.pow_le_mono_r_iff in Hp; lia. }
  assert (EJ : 2 ^ F = 2 ^ k * 2 ^ (F - k)) by (rewrite <- Z.pow_add_r by lia; f_equal; lia).
  destruct (ceil_window n a b (ceil_ratio n a b) q (2 ^ k) (2 ^ (F - k)) M (n * A * D)) as (H1 & H2);
    [done|apply Z.pow_le_mono_r; lia|lia|by rewrite <- EJ|done|lia|done|done|]. rewrite <- EJ in H1, H2.
  assert (Ed : - (- (q * 2 ^ k) / 2 ^ F) = ceil_ratio n a b).
  { assert (Hd : - (q * 2 ^ k) / 2 ^ F = - ceil_ratio n a b); [|lia]. symmetry.
    apply (Z.div_unique _ _ _ (ceil_ratio n a b * 2 ^ F - q * 2 ^ k)); [left; nia|ring]. }
  rewrite Ed. apply Z.min_r. assert (ceil_ratio n a b <= n); [|unfold u64_max; lia].
  clear - Hr Ha Hn. apply Z.lt_succ_r, Z.lt_sub_lt_add_r. apply (Z.mul_lt_mono_pos_r b); nia.
Qed.

(** ** One less *)
Lemma shl_align_to m e ez : ez <= e -> Z.pos (fst (shl_align m e ez)) = Z.pos m * 2 ^ (e - ez).
Proof.
  intros He. unfold shl_align. destruct (ez - e) as [|d|d] eqn:E; [|lia|]; cbn [fst].
  - replace (e - ez) with 0 by lia. cbn. lia.
  - rewrite iter_xO. apply (f_equal Z.opp) in E. change (- Z.neg d) with (Z.pos d) in E. do 2 f_equal. lia.
Qed.

Lemma near_multiple K q z : 0 < K -> - K <= 2 * (q * K - z * K) <= K -> q = z.
Proof. nia. Qed.

Lemma sub_one_normal n : 2 <= n < 2 ^ 53 -> normal (n - 1) (f64_sub (f64_of n) (f64_of 1)).
Proof.
  intros Hn. destruct (f64_of_normal n) as (m1 & e1 & -> & Hm1 & He1 & En); [lia|].
  assert (E1 : -52 <= e1).
  { destruct (decide (-52 <= e1)) as [|Hlt]; [done|]. pose proof (Z.pow_le_mono_r 2 53 (- e1) ltac:(lia) ltac:(lia)). nia. }
  change (f64_of 1) with (S754_finite false 4503599627370496 (-52)). unfold f64_sub, SFsub. rewrite Z.min_r by lia. cbn [cond_Zopp].
  rewrite shl_align_to by lia. change (Z.pos (fst (shl_align 4503599627370496 (-52) (-52)))) with (2 ^ 52).
  assert (EM : Z.pos m1 * 2 ^ (e1 - -52) - 2 ^ 52 = (n - 1) * 2 ^ 52).
  { rewrite En, <- Z.mul_assoc, <- Z.pow_add_r by lia. replace (- e1 + (e1 - -52)) with 52 by lia. lia. }
  rewrite EM. destruct ((n - 1) * 2 ^ 52) as [|p|p] eqn:Ep; [lia| |lia]. unfold binary_normalize, binary_round.
  pose proof (digits2_bounds p) as Hp. set (d := Z.pos (digits2_pos p)) in *.
  assert (Hd : 53 <= d <= 105).
  { split.
    - destruct (decide (53 <= d)) as [|Hlt]; [done|]. pose proof (Z.pow_le_mono_r 2 d 52 ltac:(lia) ltac:(lia)). lia.
    - destruct (decide (d <= 105)) as [|Hgt]; [done|]. pose proof (Z.pow_le_mono_r 2 105 (d - 1) ltac:(lia) ltac:(lia)).
      change (2 ^ 105) with (2 ^ 53 * 2 ^ 52) in *. lia. }
  assert (Ea : shl_align p (-52) (fexp 53 1024 (d + -52)) = (p, -52)).
  { unfold shl_align. replace (fexp 53 1024 (d + -52) - -52) with (d - 53) by (unfold fexp, emin; lia). by destruct (d - 53) eqn:?; [..|lia]. }
  rewrite Ea. destruct (decide (d = 53)) as [E53|N53].
  - rewrite round_id by lia. exists p, (-52). rewrite E53 in Hp. split; [done|]. split; [exact Hp|]. split; [lia|]. rewrite <- Ep. done.
  - destruct (round_spec p (-52) (d - 53)) as (q & m & e & -> & Hq & He & Eq & Hm); [lia..|].
    assert (EK : (n - 1) * 2 ^ 52 = (n - 1) * 2 ^ (52 - (d - 53)) * 2 ^ (d - 53)).
    { rewrite <- Z.mul_assoc, <- Z.pow_add_r by lia. do 2 f_equal. lia. }
    rewrite <- Ep, EK in Hq. apply near_multiple in Hq; [|apply Z.pow_pos_nonneg; lia]. rewrite Eq in Hq.
    assert (Hq' : Z.pos m * 2 ^ (e + 52) = (n - 1) * 2 ^ 52).
    { rewrite EK, <- Hq, <- Z.mul_assoc, <- Z.pow_add_r by lia. do 2 f_equal. lia. }
    assert (He0 : e <= 0).
    { destruct (decide (e <= 0)) as [|Hgt]; [done|]. pose proof (Z.pow_le_mono_r 2 53 (e + 52) ltac:(lia) ltac:(lia)). nia. }
    exists m, e. split; [done|]. split; [done|]. split; [done|].
    assert (E52 : 2 ^ 52 = 2 ^ (- e) * 2 ^ (e + 52)) by (rewrite <- Z.pow_add_r by lia; f_equal; lia).
    rewrite E52, Z.mul_assoc in Hq'. apply Z.mul_cancel_r in Hq'; [done|]. pose proof (Z.pow_pos_nonneg 2 (e + 52)). lia.
Qed.

(** A count times a fraction of at most one rounds to at most the count. *)
Lemma round_at_most n x m2 e2 :
  normal n x -> 1 <= n < 2 ^ 53 -> 2 ^ 52 <= Z.pos m2 < 2 ^ 53 -> -60 <= e2 <= 0 -> Z.pos m2 <= 2 ^ (- e2) ->
  0 <= f64_round (f64_mul x (S754_finite false m2 e2)) <= n.
Proof.
  intros Hx Hn Hm2 He2 Hone.
  destruct (mul_spec n x m2 e2) as (q & k & F & M & m & e & -> & HF & EM & HFe & HM & Hk & Hq & He & Eq); [done|lia|done|done|].
  assert (HMF : M <= n * 2 ^ F).
  { rewrite EM, <- Z.mul_assoc. apply Z.mul_le_mono_nonneg_l; [lia|]. replace F with (- e2 + (F + e2)) at 2 by lia. rewrite (Z.pow_add_r 2 (- e2)) by lia.
    apply Z.mul_le_mono_nonneg_r; [apply Z.pow_nonneg; lia|done]. }
  pose proof (Z.pow_pos_nonneg 2 k ltac:(lia) ltac:(lia)) as HK. pose proof (Z.pow_pos_nonneg 2 F ltac:(lia) ltac:(lia)) as HP.
  assert (HkF : k <= F).
  { assert (Hp : 2 ^ (52 + k) < 2 ^ (53 + F)) by (rewrite !Z.pow_add_r by lia; nia). apply Z.pow_lt_mono_r_iff in Hp; lia. }
  assert (EJ : 2 ^ F = 2 ^ (F - k) * 2 ^ k) by (rewrite <- Z.pow_add_r by lia; f_equal; lia).
  assert (HN : q * 2 ^ k <= n * 2 ^ F).
  { rewrite EJ, Z.mul_assoc. apply Z.mul_le_mono_nonneg_r; [lia|]. rewrite EJ, Z.mul_assoc in HMF. nia. }
  assert (H0 : 0 <= q * 2 ^ k) by lia.
  unfold f64_round, as_u64.
  assert (Er : scale_floor (2 * Z.pos m + 2 ^ (- e)) (e - 1) = (2 * (q * 2 ^ k) + 2 ^ F * (if decide (e <= 0) then 1 else 0)) / (2 * 2 ^ F)).
  { rewrite (scale_floor_spec _ _ (F + 1)) by lia. replace (e - 1 + (F + 1)) with (e + F) by lia.
    rewrite (Z.pow_add_r 2 F 1) by lia. rewrite (Z.mul_comm (2 ^ F) (2 ^ 1)). change (2 ^ 1) with 2. f_equal. rewrite Eq.
    rewrite Z.mul_add_distr_r. f_equal; [ring|]. destruct (decide (e <= 0)).
    - rewrite <- Z.pow_add_r by lia. replace (- e + (e + F)) with F by lia. lia.
    - rewrite (Z.pow_neg_r 2 (- e)) by lia. lia. }
  rewrite Er. set (t := if decide (e <= 0) then 1 else 0). assert (Ht : 0 <= t <= 1) by (subst t; case_decide; lia). clearbody t.
  assert (HPt : 0 <= 2 ^ F * t <= 2 ^ F) by (clear - Ht HP; nia).
  assert (Hd0 : 0 <= (2 * (q * 2 ^ k) + 2 ^ F * t) / (2 * 2 ^ F)) by (apply Z.div_pos; lia).
  assert (Hd1 : (2 * (q * 2 ^ k) + 2 ^ F * t) / (2 * 2 ^ F) < n + 1) by (apply Z.div_lt_upper_bound; lia). unfold u64_max. lia.
Qed.
