(* ===== verification/Probe.v ===== *)
(** * Probe: the latency probe ([crates/core/examples/latency_probe.rs])

    Its arguments, the shuffle and the partition of the names, one query,
    the pool of bursts, and the figures it prints (as numbers). Pools are
    those of [Upstream]; sockets are answers. *)
From S2P Require Import Prelude Text Time Num IpAddr Dns Shadow Config Upstream Prng F64.

Definition TIMEOUT_MS : Z := 5000.
Definition CONCURRENT_BURSTS : Z := 4.
Definition TYPE_A : Z := 1.
Definition TYPE_AAAA : Z := 28.
Definition TYPE_HTTPS : Z := 65.
Definition QTYPES : list Z := [TYPE_A; TYPE_AAAA; TYPE_HTTPS].

(** [str::parse::<SocketAddr>()]: an address, a colon and a port, an IPv6
    address in brackets with perhaps a scope. *)
Definition read_char (c : Z) (s : list Z) : option (list Z) := match s with a :: r => if a =? c then Some r else None | [] => None end.
Definition read_port (s : list Z) : option (Z * list Z) :=
  s ← read_char c_colon s; read_number 10 (1 + len s) u16_max true s.
Definition read_scope (s : list Z) : list Z :=
  default s (s ← read_char c_percent s; snd <$> read_number 10 (1 + len s) u32_max true s).
Definition read_socket_addr_v4 (s : list Z) : option (SocketAddr * list Z) :=
  '(o, s) ← read_ipv4_addr s; '(port, s) ← read_port s; Some (mkSocketAddr (V4 o) port, s).
Definition read_socket_addr_v6 (s : list Z) : option (SocketAddr * list Z) :=
  s ← read_char c_lbracket s; '(g, s) ← read_ipv6_addr s; s ← read_char c_rbracket (read_scope s); '(port, s) ← read_port s;
  Some (mkSocketAddr (V6 g) port, s).
Definition parse_socket_addr (s : list Z) : option SocketAddr :=
  match (match read_socket_addr_v4 s with Some x => Some x | None => read_socket_addr_v6 s end) with
  | Some (addr, []) => Some addr
  | _ => None
  end.

(** ** Names: the shuffle and the shares *)

(** [items.swap(i, j)] panics out of range. *)
Definition swap {A} (items : list A) (i j : nat) : option (list A) :=
  x ← items !! i; y ← items !! j; Some (<[j := x]> (<[i := y]> items)).

(** [for i in (1..len).rev()], from [i] down. *)
Fixpoint shuffle_loop {A} (i : nat) (state : Z) (items : list A) : option (list A) :=
  match i with
  | O => Some items
  | S i' =>
      let state := xorshift state in
      items ← swap items i (Z.to_nat (state mod (Z.of_nat i + 1)));
      shuffle_loop i' state items
  end.
Definition SEED_MASK : Z := 11400714819323198485. (* 0x9E37_79B9_7F4A_7C15 *)
Definition shuffle {A} (items : list A) (seed : Z) : option (list A) :=
  shuffle_loop (length items - 1) (Z.lxor seed SEED_MASK) items.

(** [iter().skip(t).step_by(n)] *)
Fixpoint every {A} (wait n : nat) (l : list A) : list A :=
  match l with
  | [] => []
  | x :: l => match wait with O => x :: every (n - 1) n l | S wait => every wait n l end
  end.
Definition share {A} (n : nat) (names : list A) (t : nat) : list A := every 0 n (drop t names).
Definition per_target {A} (n : nat) (names : list A) : list (list A) := map (share n names) (seq 0 n).

(** [names.truncate(limit)] *)
Definition truncated {A} (names : list A) (limit : Z) : list A := if limit <? len names then take (Z.to_nat limit) names else names.

(** ** Figures *)
Definition percentile (sorted : list Duration) (p : f64) : option Duration :=
  match sorted with
  | [] => Some 0
  | _ => index sorted (Z.min (saturating_sub (f64_ceil (f64_mul (f64_of (len sorted)) p)) 1) (len sorted - 1))
  end.

Definition P50 : f64 := f64_lit 50 100.
Definition P90 : f64 := f64_lit 90 100.
Definition P95 : f64 := f64_lit 95 100.
Definition P99 : f64 := f64_lit 99 100.
Definition P999 : f64 := f64_lit 999 1000.

Record Sample := mkSample { sa_qtype : Z; sa_elapsed : Duration; sa_rcode : option Z }.
Record TypeStats := mkTypeStats { ts_qtype : Z; ts_n : Z; ts_ranks : list Duration }.
Record Stats := mkStats { ps_queries : Z; ps_failed : Z; ps_ranks : list Duration; ps_max : Duration; ps_types : list TypeStats }.

Definition answered_in (samples : list Sample) (keep : Sample -> bool) : list Duration :=
  merge_sort Z.le (map sa_elapsed (List.filter (fun s => keep s && bool_decide (is_Some (sa_rcode s))) samples)).

Definition print_stats (samples : list Sample) : option Stats :=
  let ok := answered_in samples (fun _ => true) in
  ranks ← mapM (percentile ok) [P50; P90; P95; P99; P999];
  types ← mapM (fun qtype =>
    let v := answered_in samples (fun s => sa_qtype s =? qtype) in
    ranks ← mapM (percentile v) [P50; P90; P99];
    Some (mkTypeStats qtype (len v) ranks)) QTYPES;
  Some (mkStats (len samples) (len samples - len ok) ranks (default 0 (last ok)) types).

(** ** One query *)
Definition fastrand_id (name_ascii : list Z) (qtype : Z) : Z :=
  fold_left (fun h b => ((h * 31) mod (u32_max + 1) + b) mod (u32_max + 1)) name_ascii qtype mod (u16_max + 1).

(** What the sockets of one UDP query do; [None]: an error or the timeout. *)
Record Wire := mkWire { w_bind : bool; w_connect : bool; w_send : bool; w_recv : option (list Z) }.

Section Probe.
Context `{HickoryOps} `{UpstreamOps} `{RcodeDisplay}.

Inductive Target := TPool (pool : UpstreamPool) | TUdp (addr : SocketAddr).

(** The receive buffer holds 4,096 bytes; the rest of a datagram is lost. *)
Definition udp_query (w : Wire) (msg : Message) : option Z :=
  if negb (w_bind w) then None else
  if negb (w_connect w) then None else
  bytes ← to_vec msg;
  if negb (w_send w) then None else
  reply ← w_recv w;
  resp ← from_vec (take (Z.to_nat 4096) reply);
  if msg_id (metadata resp) =? msg_id (metadata msg) then Some (response_code (metadata resp)) else None.

Definition probe_message (name : Name) (qtype : Z) : Message :=
  set_meta (add_query (message_new (fastrand_id (name_to_ascii name) qtype) MQuery OpQuery) (mkQuery name qtype CLASS_IN)) (with_rd true).

(** What the world does to one query: the answers of the pool's tasks in
    the order they arrive, the sockets, and the time it takes. *)
Record Weather := mkWeather { we_arrivals : list (Message + list Z); we_wire : Wire; we_elapsed : Duration }.

Definition target_query (t : Target) (w : Weather) (name : Name) (qtype : Z) : Sample :=
  let msg := probe_message name qtype in
  let rcode := match t with
               | TPool pool => match fst (resolve pool msg (we_arrivals w)) with inl resp => Some (response_code (metadata resp)) | inr _ => None end
               | TUdp _ => udp_query (we_wire w) msg
               end in
  mkSample qtype (we_elapsed w) rcode.

(** ** Bursts

    [main] takes a permit for each name before it spawns the name's task,
    and a task gives its permit back when its three answers are there. *)
Record Bursts := mkBursts { bu_todo : list Name; bu_free : Z; bu_running : list Name; bu_done : list Name }.
Definition bursts_start (names : list Name) (concurrency : Z) : Bursts := mkBursts names concurrency [] [].

Inductive burst_step : Bursts -> Bursts -> Prop :=
| burst_spawn n names free running finished :
    0 < free -> burst_step (mkBursts (n :: names) free running finished) (mkBursts names (free - 1) (running ++ [n]) finished)
| burst_finish names free before n after finished :
    burst_step (mkBursts names free (before ++ n :: after) finished) (mkBursts names (free + 1) (before ++ after) (finished ++ [n])).

(** The samples, in the order the tasks are awaited: by name. *)
Definition burst_samples (t : Target) (weather : Name -> Z -> Weather) (names : list Name) : list Sample :=
  concat (map (fun name => map (fun qtype => target_query t (weather name qtype) name qtype) QTYPES) names).

(** ** Arguments *)
Record Opts := mkOpts { o_names : option (list Z); o_seed : Z; o_limit : Z; o_concurrency : Z; o_targets : list (list Z) }.
Definition opts_default : Opts := mkOpts None 1 usize_max CONCURRENT_BURSTS [].

(** [None] is [usage()]: the process exits with 2. *)
Fixpoint parse_args (o : Opts) (args : list (list Z)) : option Opts :=
  match args with
  | [] => Some o
  | arg :: rest =>
      if str_eqb arg (lit "--names") then
        match rest with
        | [] => Some (mkOpts None (o_seed o) (o_limit o) (o_concurrency o) (o_targets o))
        | v :: rest => parse_args (mkOpts (Some v) (o_seed o) (o_limit o) (o_concurrency o) (o_targets o)) rest
        end
      else if str_eqb arg (lit "--seed") then
        match rest with
        | [] => None
        | v :: rest => n ← parse_uint u64_max v; parse_args (mkOpts (o_names o) n (o_limit o) (o_concurrency o) (o_targets o)) rest
        end
      else if str_eqb arg (lit "--limit") then
        match rest with
        | [] => None
        | v :: rest => n ← parse_uint usize_max v; parse_args (mkOpts (o_names o) (o_seed o) n (o_concurrency o) (o_targets o)) rest
        end
      else if str_eqb arg (lit "--concurrency") then
        match rest with
        | [] => None
        | v :: rest => n ← parse_uint usize_max v; parse_args (mkOpts (o_names o) (o_seed o) (o_limit o) n (o_targets o)) rest
        end
      else if starts_with (lit "pool:") arg || starts_with (lit "udp:") arg
      then parse_args (mkOpts (o_names o) (o_seed o) (o_limit o) (o_concurrency o) (o_targets o ++ [arg])) rest
      else None
  end.

Inductive Fatal := Usage | Panicked (why : list Z).

Definition probe_config (urls : list Z) : UpstreamConfig :=
  mkUpstreamConfig (split 44 urls) [V4 [8; 8; 8; 8]; V4 [9; 9; 9; 9]] TIMEOUT_MS [] DEFAULT_CONNECT_BUDGET.

(** [connect] is [UpstreamPool::new]. *)
Definition build_target (connect : UpstreamConfig -> UpstreamPool + UpstreamError) (spec : list Z) : Target + Fatal :=
  match strip_prefix (lit "pool:") spec with
  | Some urls => match connect (probe_config urls) with inl pool => inl (TPool pool) | inr _ => inr (Panicked spec) end
  | None =>
      match strip_prefix (lit "udp:") spec with
      | Some addr => match parse_socket_addr addr with Some a => inl (TUdp a) | None => inr (Panicked spec) end
      | None => inr Usage
      end
  end.

Fixpoint build_targets (connect : UpstreamConfig -> UpstreamPool + UpstreamError) (specs : list (list Z)) : list (list Z * Target) + Fatal :=
  match specs with
  | [] => inl []
  | spec :: specs =>
      match build_target connect spec with
      | inr f => inr f
      | inl t => match build_targets connect specs with inr f => inr f | inl ts => inl ((spec, t) :: ts) end
      end
  end.

(** The names of the file: its candidates, and those that are names. *)
Definition candidates (raw : list Z) : list (list Z) :=
  List.filter (fun l => negb (bool_decide (l = [])) && negb (starts_with [c_hash] l)) (map trim (lines raw)).
Definition read_names (raw : list Z) : list Name * Z :=
  let names := omap (fun l => name_from_ascii (l ++ [c_dot])) (candidates raw) in
  (names, len (candidates raw) - len names).

(** What [main] sets up before it measures: the targets, each with its
    share of the names. *)
Definition prepare (read : list Z -> list Z + list Z) (connect : UpstreamConfig -> UpstreamPool + UpstreamError) (args : list (list Z))
    : list ((list Z * Target) * list Name) + Fatal :=
  match parse_args opts_default args with
  | None => inr Usage
  | Some o =>
      match o_names o with
      | None => inr Usage
      | Some path =>
          if bool_decide (o_targets o = []) then inr Usage else
          match read path with
          | inr e => inr (Panicked (lit "cannot read " ++ path ++ lit ": " ++ e))
          | inl raw =>
              match shuffle (fst (read_names raw)) (o_seed o) with
              | None => inr (Panicked [])
              | Some names =>
                  match build_targets connect (o_targets o) with
                  | inr f => inr f
                  | inl targets => inl (combine targets (per_target (length targets) (truncated names (o_limit o))))
                  end
              end
          end
      end
  end.
End Probe.
