(* ===== verification/ProbeSpec.v ===== *)
(** * ProbeSpec: what the latency probe measures

    The shuffle loses no name and its generator degenerates for one seed
    alone; the shares are a partition; the percentiles are the nearest
    ranks, in spite of their doubles; the bursts never stall. *)
From Stdlib Require Import SpecFloat.
From S2P Require Import Prelude Text Time Num IpAddr Dns Shadow Config Upstream Prng F64 Probe.

(** ** The shuffle *)
Lemma swap_permutes {A} (items : list A) i j :
  (i < length items)%nat -> (j < length items)%nat -> exists items', swap items i j = Some items' /\ Permutation items' items.
Proof.
  intros (x & Hx)%lookup_lt_is_Some_2 (y & Hy)%lookup_lt_is_Some_2. unfold swap. rewrite Hx. cbn [mbind option_bind]. rewrite Hy. cbn [mbind option_bind].
  eexists. split; [done|]. destruct (decide (i = j)) as [->|Hij].
  - rewrite Hx in Hy. injection Hy as <-. by rewrite list_insert_insert_eq, list_insert_id.
  - apply Permutation_inj. split; [by rewrite !length_insert|].
    exists (fun k => if decide (k = i) then j else if decide (k = j) then i else k). split.
    + intros a b. repeat case_decide; congruence.
    + intros k. pose proof (lookup_lt_Some _ _ _ Hx). pose proof (lookup_lt_Some _ _ _ Hy).
      destruct (decide (k = i)) as [->|Hki]; [rewrite list_lookup_insert_ne, list_lookup_insert_eq by done; by rewrite Hy|].
      destruct (decide (k = j)) as [->|Hkj]; [rewrite list_lookup_insert_eq by (by rewrite length_insert); by rewrite Hx|].
      by rewrite !list_lookup_insert_ne.
Qed.

Lemma shuffle_loop_permutes {A} i : forall state (items : list A),
  (i < length items)%nat \/ i = 0%nat -> exists items', shuffle_loop i state items = Some items' /\ Permutation items' items.
Proof.
  induction i as [|i IH]; intros state items Hi; cbn [shuffle_loop]; [by exists items|]. destruct Hi as [Hi|]; [|done].
  destruct (swap_permutes items (S i) (Z.to_nat (xorshift state mod (Z.of_nat (S i) + 1)))) as (items1 & -> & Hp); [done| |].
  { pose proof (Z.mod_pos_bound (xorshift state) (Z.of_nat (S i) + 1) ltac:(lia)). lia. }
  cbn [mbind option_bind]. destruct (IH (xorshift state) items1) as (items2 & -> & Hp2); [left; rewrite (Permutation_length Hp); lia|].
  exists items2. split; [done|by rewrite Hp2].
Qed.

Lemma shuffle_permutes {A} (items : list A) seed : exists items', shuffle items seed = Some items' /\ Permutation items' items.
Proof. apply shuffle_loop_permutes. destruct items; cbn; lia. Qed.

(** The states the loop draws from. *)
Definition shuffle_states (seed : Z) (k : nat) : Z := Nat.iter k xorshift (Z.lxor seed SEED_MASK).

Lemma shuffle_stuck {A} i : forall (x : A) l, (i <= length l)%nat -> shuffle_loop i 0 (x :: l) = Some (take i l ++ x :: drop i l).
Proof.
  induction i as [|i IH]; intros x l Hi; cbn [shuffle_loop]; [done|]. rewrite xorshift_zero, Z.mod_0_l by lia. change (Z.to_nat 0) with 0%nat.
  destruct (lookup_lt_is_Some_2 l i ltac:(lia)) as (y & Hy). unfold swap.
  change ((x :: l) !! S i) with (l !! i). rewrite Hy. cbn [mbind option_bind]. change ((x :: l) !! 0%nat) with (Some x). cbn [mbind option_bind].
  change (<[0%nat := y]> (<[S i := x]> (x :: l))) with (y :: <[i := x]> l). rewrite IH by (rewrite length_insert; lia). f_equal.
  rewrite take_insert_ge by lia. rewrite (take_S_r l i y Hy), <- app_assoc. f_equal. cbn [app]. f_equal.
  rewrite (drop_S (<[i := x]> l) x i) by (apply list_lookup_insert_eq; lia). by rewrite drop_insert_lt by lia.
Qed.

(** The shuffle never panics and returns the items in some order; its
    generator is never at zero, whatever [u64] seeds it, but for one seed,
    where it stays at zero and the shuffle only moves the first item to the
    end. *)
Theorem shuffle_sound {A} (items : list A) seed :
  u64 seed ->
  (exists items', shuffle items seed = Some items' /\ Permutation items' items)
  /\ (seed <> SEED_MASK -> forall k, u64 (shuffle_states seed k) /\ shuffle_states seed k <> 0)
  /\ (seed = SEED_MASK -> (forall k, shuffle_states seed k = 0) /\ shuffle items seed = Some (drop 1 items ++ take 1 items)).
Proof.
  intros Hs. split; [apply shuffle_permutes|]. split.
  - intros Hn k. induction k as [|k (IH1 & IH2)]; unfold shuffle_states; cbn [Nat.iter]; [|by apply xorshift_nonzero].
    split; [apply u64_lxor; [done|split; vm_compute; discriminate]|]. intros Hz. by apply Hn, Z.lxor_eq.
  - intros ->. split.
    + intros k. unfold shuffle_states. rewrite Z.lxor_nilpotent. induction k as [|k IH]; [done|]. change (xorshift (Nat.iter k xorshift 0) = 0). by rewrite IH.
    + unfold shuffle. rewrite Z.lxor_nilpotent. destruct items as [|x l]; [done|]. cbn [length]. rewrite Nat.sub_succ, Nat.sub_0_r.
      rewrite shuffle_stuck by done. rewrite take_ge, drop_ge by done. done.
Qed.

Lemma shuffle_sound_witness :
  (exists items', shuffle [1; 2; 3] 1 = Some items' /\ Permutation items' [1; 2; 3]) /\ shuffle [1; 2; 3] SEED_MASK = Some [2; 3; 1].
Proof.
  split.
  - apply (shuffle_sound [1; 2; 3] 1). split; vm_compute; discriminate.
  - apply (shuffle_sound [1; 2; 3] SEED_MASK); [split; vm_compute; discriminate|reflexivity].
Defined.

(** ** The shares *)
Lemma every_drop {A} w n (l : list A) : every w n l = every 0 n (drop w l).
Proof. revert w. induction l as [|x l IH]; intros [|w]; try done. cbn [every drop]. apply IH. Qed.

Lemma every_partition {A} n (l : list A) : (0 < n)%nat -> Permutation (concat (map (fun t => every t n l) (seq 0 n))) l.
Proof.
  intros Hn. induction l as [|x l IH].
  - assert (E : forall ts, concat (map (fun t => every t n ([] : list A)) ts) = []) by (induction ts; done). by rewrite E.
  - destruct n as [|n]; [lia|]. rewrite <- cons_seq. cbn [map concat every]. rewrite Nat.sub_succ, Nat.sub_0_r. cbn [app]. constructor.
    rewrite <- seq_shift, map_map. cbn [every]. rewrite seq_S, map_app, concat_app in IH. cbn [map concat] in IH. rewrite app_nil_r in IH.
    by rewrite Permutation_app_comm.
Qed.

Lemma every_length {A} n (l : list A) : forall t, (t < n)%nat -> length (every t n l) = ((length l + (n - 1) - t) / n)%nat.
Proof.
  induction l as [|x l IH]; intros t Ht; cbn [every length].
  - symmetry. apply Nat.div_small. lia.
  - destruct t as [|t]; cbn [length].
    + rewrite IH by lia. replace (length l + (n - 1) - (n - 1))%nat with (length l) by lia.
      replace (S (length l) + (n - 1) - 0)%nat with (length l + 1 * n)%nat by lia. rewrite Nat.div_add by lia. lia.
    + rewrite IH by lia. done.
Qed.

(** The shares of [n] targets hold every name once, their sizes one apart
    at most. *)
Lemma per_target_partition {A} n (names : list A) :
  (0 < n)%nat ->
  Permutation (concat (per_target n names)) names
  /\ forall s, s ∈ per_target n names -> (length names / n <= length s <= length names / n + 1)%nat.
Proof.
  intros Hn. unfold per_target. split.
  - rewrite (map_ext _ (fun t => every t n names)); [by apply every_partition|]. intros t. unfold share. by rewrite <- every_drop.
  - intros s (t & -> & Ht)%list_elem_of_fmap. apply elem_of_seq in Ht. unfold share. rewrite <- every_drop, every_length by lia. split.
    + apply Nat.div_le_mono; lia.
    + replace (length names / n + 1)%nat with ((length names + 1 * n) / n)%nat by (rewrite Nat.div_add; lia). apply Nat.div_le_mono; lia.
Qed.

(** ** The percentiles *)
Definition count_by (f : Z -> bool) (l : list Z) : Z := len (List.filter f l).

(** [x] is the smallest sample that at least [a] in [b] samples do not
    exceed. *)
Definition nearest_rank (a b : Z) (l : list Z) (x : Z) : Prop :=
  x ∈ l /\ len l * a <= count_by (fun y => y <=? x) l * b /\ count_by (fun y => y <? x) l * b < len l * a.

Lemma count_app f l k : count_by f (l ++ k) = count_by f l + count_by f k.
Proof. unfold count_by. by rewrite List.filter_app, len_app. Qed.

Lemma count_bounds f l : 0 <= count_by f l <= len l.
Proof. unfold count_by, len. pose proof (List.filter_length_le f l). lia. Qed.

Lemma count_all f l : (forall y, y ∈ l -> f y = true) -> count_by f l = len l.
Proof.
  induction l as [|y l IH]; intros Hf; [done|]. unfold count_by in *. cbn [List.filter]. rewrite Hf by apply elem_of_cons, or_introl, eq_refl.
  rewrite !len_cons. f_equal. apply IH. intros z Hz. apply Hf, elem_of_cons. by right.
Qed.

Lemma count_none f l : (forall y, y ∈ l -> f y = false) -> count_by f l = 0.
Proof.
  induction l as [|y l IH]; intros Hf; [done|]. unfold count_by in *. cbn [List.filter]. rewrite Hf by apply elem_of_cons, or_introl, eq_refl.
  apply IH. intros z Hz. apply Hf, elem_of_cons. by right.
Qed.

Lemma sorted_counts l i x :
  StronglySorted Z.le l -> l !! i = Some x -> Z.of_nat i + 1 <= count_by (fun y => y <=? x) l /\ count_by (fun y => y <? x) l <= Z.of_nat i.
Proof.
  intros Hs Hx. pose proof (take_drop_middle l i x Hx) as E. rewrite <- E in Hs.
  assert (Hi : len (take i l) = Z.of_nat i) by (pose proof (lookup_lt_Some _ _ _ Hx); unfold len; rewrite length_take; lia).
  assert (Hb : forall y, y ∈ take i l -> y <= x) by (intros y Hy; eapply (StronglySorted_app_1_elem_of Z.le); [exact Hs|exact Hy|apply elem_of_cons; by left]).
  assert (Ha : forall y, y ∈ drop (S i) l -> x <= y).
  { apply StronglySorted_app_1_r in Hs. apply StronglySorted_inv in Hs as (_ & Hf). by rewrite Forall_forall in Hf. }
  rewrite <- E, !count_app. rewrite (count_all (fun y => y <=? x) (take i l)) by (intros y Hy; specialize (Hb y Hy); lia).
  pose proof (count_bounds (fun y => y <? x) (take i l)). rewrite (count_none (fun y => y <? x) (x :: drop (S i) l)).
  2:{ intros y [->|Hy]%elem_of_cons; [lia|]. specialize (Ha y Hy). lia. }
  unfold count_by at 1. cbn [List.filter]. rewrite Z.leb_refl, len_cons. pose proof (len_nonneg (List.filter (fun y => y <=? x) (drop (S i) l))). lia.
Qed.

(** A fraction whose double is close enough. *)
Definition fraction (p : f64) (a b : Z) : Prop :=
  0 < a <= b /\ b <= 1000 /\ exists m e, p = S754_finite false m e /\ 2 ^ 52 <= Z.pos m < 2 ^ 53 /\ -60 <= e <= 0 /\ close a b (Z.pos m) e.

Lemma percentile_nearest p a b l :
  fraction p a b -> 1 <= len l <= 2 ^ 32 -> StronglySorted Z.le l -> exists x, percentile l p = Some x /\ nearest_rank a b l x.
Proof.
  intros (Ha & Hb & m & e & -> & Hm & He & Hc) Hl Hs. pose proof (ceil_ratio_spec (len l) a b ltac:(lia)) as Hr.
  assert (E : percentile l (S754_finite false m e) = index l (ceil_ratio (len l) a b - 1)).
  { unfold percentile, Duration. destruct l as [|y l]; [rewrite len_nil in Hl; lia|]. rewrite (ceil_exact (len (y :: l)) a b m e Hl Ha Hb Hm He Hc).
    unfold saturating_sub. f_equal. assert (1 <= ceil_ratio (len (y :: l)) a b <= len (y :: l)) by nia. lia. }
  assert (Hc1 : 1 <= ceil_ratio (len l) a b <= len l) by nia. set (c := ceil_ratio (len l) a b) in *.
  destruct (lookup_lt_is_Some_2 l (Z.to_nat (c - 1))) as (x & Hx); [unfold len in *; lia|].
  exists x. rewrite E. replace (c - 1) with (Z.of_nat (Z.to_nat (c - 1))) by lia. rewrite index_nat. split; [done|].
  destruct (sorted_counts l _ x Hs Hx) as (H1 & H2). split; [by eapply list_elem_of_lookup_2|]. split; nia.
Qed.

Ltac fraction_tac := split; [lia|]; split; [lia|]; eexists _, _; split; [vm_compute; reflexivity|]; split; [lia|]; split; [lia|]; vm_compute; discriminate.

Lemma P50_fraction : fraction P50 1 2.
Proof. fraction_tac. Qed.
Lemma P90_fraction : fraction P90 9 10.
Proof. fraction_tac. Qed.
Lemma P95_fraction : fraction P95 19 20.
Proof. fraction_tac. Qed.
Lemma P99_fraction : fraction P99 99 100.
Proof. fraction_tac. Qed.
Lemma P999_fraction : fraction P999 999 1000.
Proof. fraction_tac. Qed.

Ltac fractions_tac :=
  repeat (apply Forall2_cons_2; [first [apply P50_fraction|apply P90_fraction|apply P95_fraction|apply P99_fraction|apply P999_fraction]|]);
  constructor.

Lemma mapM_all {A B} (f : A -> option B) (R : A -> B -> Prop) l :
  (forall x, exists y, f x = Some y /\ R x y) -> exists rows, mapM f l = Some rows /\ Forall2 R l rows.
Proof.
  intros Hf. induction l as [|x l (rows & Er & Hr)]; [exists []; split; [done|constructor]|].
  destruct (Hf x) as (y & Ey & Hy). exists (y :: rows). cbn [mapM]. rewrite Ey. cbn [mbind option_bind]. rewrite Er. split; [done|by constructor].
Qed.

(** What a row of figures says of the samples: zeros for none. *)
Definition ranks_of (l : list Z) (fractions : list (Z * Z)) (row : list Z) : Prop :=
  Forall2 (fun '(a, b) x => (l = [] /\ x = 0) \/ nearest_rank a b l x) fractions row.

Lemma mapM_ranks l ps fractions :
  len l <= 2 ^ 32 -> StronglySorted Z.le l -> Forall2 (fun p '(a, b) => fraction p a b) ps fractions ->
  exists row, mapM (percentile l) ps = Some row /\ ranks_of l fractions row.
Proof.
  intros Hl Hs Hp. induction Hp as [|p [a b] ps fractions Hp Hps (row & Em & Hrow)]; [exists []; split; [done|constructor]|].
  assert (Hx : exists x, percentile l p = Some x /\ ((l = [] /\ x = 0) \/ nearest_rank a b l x)).
  { destruct l as [|y l]; [exists 0; split; [done|by left]|]. destruct (percentile_nearest p a b (y :: l)) as (x & Hx & Hn); [done| |done|exists x; auto].
    rewrite len_cons in *. pose proof (len_nonneg l). lia. }
  destruct Hx as (x & Ex & Hx). exists (x :: row). cbn [mapM]. rewrite Ex. cbn [mbind option_bind]. rewrite Em. split; [done|by constructor].
Qed.

Definition ALL_RANKS : list (Z * Z) := [(1, 2); (9, 10); (19, 20); (99, 100); (999, 1000)].
Definition TYPE_RANKS : list (Z * Z) := [(1, 2); (9, 10); (99, 100)].

Lemma answered_in_sorted samples keep : StronglySorted Z.le (answered_in samples keep).
Proof. apply StronglySorted_merge_sort; apply _. Qed.

Lemma answered_in_len samples keep :
  len (answered_in samples keep) = len (List.filter (fun s => keep s && bool_decide (is_Some (sa_rcode s))) samples).
Proof. unfold answered_in, len. by rewrite merge_sort_Permutation, length_map. Qed.

Lemma filter_split {A} (f : A -> bool) l : len l = len (List.filter f l) + len (List.filter (fun x => negb (f x)) l).
Proof. induction l as [|x l IH]; [done|]. cbn [List.filter]. destruct (f x); cbn [negb]; rewrite !len_cons; lia. Qed.

(** For up to 2^32 samples the figures are exact: the failures are the
    samples without an answer, and each percentile, computed with doubles,
    is the nearest rank of the answered ones, the smallest time that at
    least that share of them took; the maximum is the largest. *)
Theorem print_stats_exact samples :
  len samples <= 2 ^ 32 ->
  exists st, print_stats samples = Some st /\ ps_queries st = len samples
    /\ ps_failed st = len (List.filter (fun s => negb (bool_decide (is_Some (sa_rcode s)))) samples)
    /\ ranks_of (answered_in samples (fun _ => true)) ALL_RANKS (ps_ranks st)
    /\ (forall x, x ∈ answered_in samples (fun _ => true) -> x <= ps_max st)
    /\ Forall2 (fun qtype ts => let v := answered_in samples (fun s => sa_qtype s =? qtype) in
                  ts_qtype ts = qtype /\ ts_n ts = len v /\ ranks_of v TYPE_RANKS (ts_ranks ts)) QTYPES (ps_types st).
Proof.
  intros Hl. assert (Hle : forall keep, len (answered_in samples keep) <= 2 ^ 32).
  { intros keep. rewrite answered_in_len. etransitivity; [|exact Hl]. unfold len. apply Nat2Z.inj_le, List.filter_length_le. }
  unfold print_stats. set (ok := answered_in samples (fun _ => true)) in *.
  destruct (mapM_ranks ok [P50; P90; P95; P99; P999] ALL_RANKS) as (row & -> & Hrow); [apply Hle|apply answered_in_sorted| |].
  { fractions_tac. }
  cbn [mbind option_bind].
  match goal with |- context [mapM ?f QTYPES] => pose (g := f); change (mapM f QTYPES) with (mapM g QTYPES) end.
  destruct (mapM_all g (fun qtype ts => let v := answered_in samples (fun s => sa_qtype s =? qtype) in
                  ts_qtype ts = qtype /\ ts_n ts = len v /\ ranks_of v TYPE_RANKS (ts_ranks ts)) QTYPES) as (rows & -> & Hrows).
  { intros q. subst g. cbn beta zeta. set (v := answered_in samples _).
    destruct (mapM_ranks v [P50; P90; P99] TYPE_RANKS) as (row' & -> & Hrow'); [apply Hle|apply answered_in_sorted|fractions_tac|].
    by exists (mkTypeStats q (len v) row'). }
  cbn [mbind option_bind]. eexists. split; [done|]. split; [done|]. split.
  { cbn [ps_failed]. subst ok. rewrite answered_in_len. rewrite (filter_split (fun s => bool_decide (is_Some (sa_rcode s))) samples). cbn [andb]. lia. }
  split; [exact Hrow|]. split; [|exact Hrows]. intros x Hx. cbn [ps_max]. pose proof (answered_in_sorted samples (fun _ => true)) as Hs. fold ok in Hs.
  destruct ok as [|y l _] using rev_ind; [by apply elem_of_nil in Hx|]. rewrite last_snoc. cbn [default from_option id].
  apply elem_of_app in Hx as [Hx| ->%list_elem_of_singleton]; [|done]. eapply (StronglySorted_app_1_elem_of Z.le); [exact Hs|done|by apply list_elem_of_singleton].
Qed.

Lemma print_stats_exact_witness :
  let samples := [mkSample 1 30 (Some 0); mkSample 28 10 (Some 0); mkSample 1 20 None] in
  len samples <= 2 ^ 32 /\ exists st, print_stats samples = Some st /\ ps_failed st = 1 /\ ps_max st = 30.
Proof.
  cbn zeta. split; [vm_compute; discriminate|].
  destruct (print_stats_exact [mkSample 1 30 (Some 0); mkSample 28 10 (Some 0); mkSample 1 20 None]) as (st & Hst & _); [vm_compute; discriminate|].
  exists st. split; [exact Hst|]. vm_compute in Hst. injection Hst as <-. split; reflexivity.
Defined.

(** ** Bursts and set-up *)
Section Main.
Context `{HickoryOps} `{UpstreamOps} `{RcodeDisplay}.

Definition bursts_ok (names : list Name) (concurrency : Z) (b : Bursts) : Prop :=
  Permutation (bu_todo b ++ bu_running b ++ bu_done b) names /\ 0 <= bu_free b /\ bu_free b + len (bu_running b) = concurrency.
Definition burst_work (b : Bursts) : Z := 2 * len (bu_todo b) + len (bu_running b).

Lemma burst_step_ok names c b b' : bursts_ok names c b -> burst_step b b' -> bursts_ok names c b' /\ burst_work b = burst_work b' + 1.
Proof.
  intros (Hp & Hf & Hc) Hs. destruct Hs as [n todo free running finished Hfree|todo free before n after finished];
    unfold bursts_ok, burst_work in *; cbn [bu_todo bu_free bu_running bu_done] in *; rewrite ?len_app, ?len_cons in *; change (len (@nil Name)) with 0 in *.
  - split; [|lia]. split; [|lia]. rewrite <- Hp. cbn [app]. rewrite <- !app_assoc. cbn [app]. rewrite app_assoc, <- Permutation_middle. by rewrite <- app_assoc.
  - split; [|lia]. split; [|lia]. rewrite <- Hp. rewrite <- !app_assoc. cbn [app]. apply Permutation_app_head, Permutation_app_head.
    by rewrite app_assoc, (Permutation_app_comm _ [n]).
Qed.

Lemma burst_nsteps names c n : forall b b',
  bursts_ok names c b -> nsteps burst_step n b b' -> bursts_ok names c b' /\ burst_work b = burst_work b' + Z.of_nat n.
Proof.
  induction n as [|n IH]; intros b b' Hb Hn; [inversion Hn; subst; split; [done|lia]|].
  inversion Hn as [|? ? b1 ? Hs Hr]; subst. destruct (burst_step_ok _ _ _ _ Hb Hs) as (Hb1 & Hw1). destruct (IH _ _ Hb1 Hr) as (Hb' & Hw2).
  split; [done|lia].
Qed.

(** With a permit to give, the bursts never stall: at most as many
    tasks as permits run at once, no name is lost or asked twice, every
    schedule stops within two steps a name, and it stops only when every
    name was asked. With none to give and names to ask, nothing ever
    happens: the probe hangs. *)
Theorem bursts_finish names concurrency :
  0 <= concurrency ->
  (forall n b, nsteps burst_step n (bursts_start names concurrency) b ->
     Z.of_nat n <= 2 * len names /\ len (bu_running b) <= concurrency /\ Permutation (bu_todo b ++ bu_running b ++ bu_done b) names
     /\ (0 < concurrency -> (exists b', burst_step b b') \/ (bu_todo b = [] /\ bu_running b = [] /\ Permutation (bu_done b) names)))
  /\ (concurrency = 0 -> forall b, ~ burst_step (bursts_start names concurrency) b).
Proof.
  intros Hc. split.
  - intros n b Hn. assert (Hstart : bursts_ok names concurrency (bursts_start names concurrency)).
    { split; [cbn; by rewrite app_nil_r|]. cbn. change (len (@nil Name)) with 0. lia. }
    destruct (burst_nsteps names concurrency n _ b Hstart Hn) as ((Hp & Hf & Hr) & Hw). unfold burst_work in Hw. cbn [bursts_start bu_todo bu_running] in Hw. change (len (@nil Name)) with 0 in Hw.
    pose proof (len_nonneg (bu_todo b)). pose proof (len_nonneg (bu_running b)). split; [lia|]. split; [lia|]. split; [done|]. intros Hpos.
    destruct b as [todo free running finished]. cbn [bu_todo bu_free bu_running bu_done] in *. destruct running as [|m running].
    + destruct todo as [|m todo]; [by right|left]. rewrite len_nil in Hr. eexists. apply burst_spawn. lia.
    + left. eexists. apply (burst_finish todo free [] m running finished).
  - intros -> b Hs. inversion Hs as [|? ? before ? after]; subst; [lia|]. destruct before; discriminate.
Qed.

Lemma build_targets_specs connect specs : forall ts, build_targets connect specs = inl ts -> map fst ts = specs.
Proof.
  induction specs as [|spec specs IH]; intros ts; cbn [build_targets]; [by intros [= <-]|].
  destruct (build_target connect spec) as [t|f]; [|done]. destruct (build_targets connect specs) as [ts'|f]; [|done].
  intros [= <-]. cbn. by rewrite (IH ts').
Qed.

Lemma combine_fst {A B} (l : list A) (k : list B) : length l = length k -> map fst (combine l k) = l /\ map snd (combine l k) = k.
Proof.
  revert k. induction l as [|x l IH]; intros [|y k] E; try done. cbn in *. injection E as E. destruct (IH k E) as (-> & ->). done.
Qed.

Lemma NoDup_concat_apart {A} (ls : list (list A)) i j a b x :
  NoDup (concat ls) -> ls !! i = Some a -> ls !! j = Some b -> x ∈ a -> x ∈ b -> i = j.
Proof.
  revert i j. induction ls as [|l ls IH]; intros i j Hn Hi Hj Ha Hb; [done|]. cbn [concat] in Hn. apply NoDup_app in Hn as (_ & Hd & Hn).
  assert (Hin : forall k c, ls !! k = Some c -> x ∈ c -> x ∈ concat ls) by (intros k c Hk Hc; apply list_elem_of_In, in_concat; exists c; split; apply list_elem_of_In; [by eapply list_elem_of_lookup_2|done]).
  destruct i as [|i], j as [|j]; cbn in Hi, Hj.
  - done.
  - injection Hi as ->. exfalso. by eapply Hd, Hin.
  - injection Hj as ->. exfalso. by eapply Hd, Hin.
  - f_equal. by eapply IH.
Qed.

(** What the probe measures: one share a target, in the order of the
    command line; the shares together are the names of the file, shuffled,
    up to the limit, their sizes one apart at most; and no name of a file
    without repetitions is asked of two targets. *)
Theorem prepare_partitions read connect args plan :
  prepare read connect args = inl plan ->
  exists o path raw names, parse_args opts_default args = Some o /\ o_names o = Some path /\ read path = inl raw
    /\ Permutation names (fst (read_names raw)) /\ map (fun x => fst (fst x)) plan = o_targets o
    /\ Permutation (concat (map snd plan)) (truncated names (o_limit o))
    /\ (forall x, x ∈ plan -> (length (truncated names (o_limit o)) / length plan <= length (snd x) <= length (truncated names (o_limit o)) / length plan + 1)%nat)
    /\ (NoDup (fst (read_names raw)) -> forall i j a b n, plan !! i = Some a -> plan !! j = Some b -> n ∈ snd a -> n ∈ snd b -> i = j).
Proof.
  unfold prepare. destruct (parse_args opts_default args) as [o|]; [|done]. destruct (o_names o) as [path|] eqn:Eo; [|done].
  case_bool_decide as Ht; [done|]. destruct (read path) as [raw|e] eqn:Er; [|done].
  destruct (shuffle_permutes (fst (read_names raw)) (o_seed o)) as (names & -> & Hp).
  destruct (build_targets connect (o_targets o)) as [ts|f] eqn:Eb; [|done]. intros [= <-]. apply build_targets_specs in Eb.
  assert (Hpos : (0 < length ts)%nat) by (destruct ts; [by rewrite <- Eb in Ht|cbn; lia]).
  set (cut := truncated names (o_limit o)). destruct (per_target_partition (length ts) cut Hpos) as (Hpart & Hsize).
  assert (El : length ts = length (per_target (length ts) cut)) by (unfold per_target; by rewrite length_map, length_seq).
  destruct (combine_fst _ _ El) as (Ef & Es).
  assert (Hlen : length (combine ts (per_target (length ts) cut)) = length ts) by (rewrite length_combine, <- El; lia).
  exists o, path, raw, names. split; [done|]. split; [done|]. split; [done|]. split; [done|]. split.
  { rewrite <- Eb. transitivity (map fst (map fst (combine ts (per_target (length ts) cut)))); [symmetry; apply map_map|by rewrite Ef]. }
  split; [by rewrite Es|]. split.
  - intros x Hx. rewrite Hlen. apply Hsize. rewrite <- Es. apply list_elem_of_fmap. by exists x.
  - intros Hnd i j a b n Hi Hj Ha Hb. apply (NoDup_concat_apart (map snd (combine ts (per_target (length ts) cut))) i j (snd a) (snd b) n); try done.
    + rewrite Es, Hpart. subst cut. unfold truncated. rewrite <- Hp in Hnd. destruct (_ <? _); [|done].
      rewrite <- (take_drop (Z.to_nat (o_limit o)) names) in Hnd. by apply NoDup_app in Hnd as (Hnd & _).
    + by rewrite list_lookup_fmap, Hi.
    + by rewrite list_lookup_fmap, Hj.
Qed.
End Main.
