(* ===== verification/Loadgen.v ===== *)
(** * Loadgen: the load generator ([crates/core/examples/loadgen.rs])

    Arguments, the names it asks for, one step of its open loop (a query
    sent, a datagram received), and the figures of its summary line. A
    panic is [None]; sockets and clocks are arguments. *)
From S2P Require Import Prelude Text Time Num IpAddr Dns Config Prng F64 Probe.

Definition SOCKETS : Z := 32.
Definition LOSS_AFTER : Duration := from_secs 2.

Definition POPULAR : list (list Z) := map lit
  ["google.com"; "www.google.com"; "youtube.com"; "i.ytimg.com"; "facebook.com"; "graph.facebook.com"; "instagram.com"; "whatsapp.net";
   "apple.com"; "icloud.com"; "microsoft.com"; "login.microsoftonline.com"; "amazon.com"; "netflix.com"; "spotify.com"; "github.com";
   "api.github.com"; "cloudflare.com"; "wikipedia.org"; "tiktok.com"; "twitter.com"; "x.com"; "linkedin.com"; "mercadolibre.com.co"]%string.

(** ** Arguments *)
Record Args := mkArgs { a_server : SocketAddr; a_qps : Z; a_secs : Z; a_mode : list Z; a_names : list (list Z); a_zone : list Z }.
Definition args_default : Args := mkArgs (mkSocketAddr (V4 [127; 0; 0; 1]) 53) 1000 10 (lit "hit") [] (lit "stress.invalid").

(** The lines of the names file. *)
Definition names_of (text : list Z) : list (list Z) := List.filter (fun l => negb (bool_decide (l = []))) (map trim (lines text)).

(** One flag and its value; a flag at the end has the empty value. *)
Definition set_arg (read : list Z -> option (list Z)) (a : Args) (flag v : list Z) : option Args :=
  if str_eqb flag (lit "--server") then
    addr ← parse_socket_addr v; Some (mkArgs addr (a_qps a) (a_secs a) (a_mode a) (a_names a) (a_zone a))
  else if str_eqb flag (lit "--qps") then
    n ← parse_uint u64_max v; Some (mkArgs (a_server a) n (a_secs a) (a_mode a) (a_names a) (a_zone a))
  else if str_eqb flag (lit "--secs") then
    n ← parse_uint u64_max v; Some (mkArgs (a_server a) (a_qps a) n (a_mode a) (a_names a) (a_zone a))
  else if str_eqb flag (lit "--mode") then Some (mkArgs (a_server a) (a_qps a) (a_secs a) v (a_names a) (a_zone a))
  else if str_eqb flag (lit "--zone") then Some (mkArgs (a_server a) (a_qps a) (a_secs a) (a_mode a) (a_names a) v)
  else if str_eqb flag (lit "--names") then
    text ← read v; Some (mkArgs (a_server a) (a_qps a) (a_secs a) (a_mode a) (names_of text) (a_zone a))
  else None.

Fixpoint args_loop (read : list Z -> option (list Z)) (a : Args) (argv : list (list Z)) : option Args :=
  match argv with
  | [] => Some a
  | [flag] => set_arg read a flag []
  | flag :: v :: argv => a ← set_arg read a flag v; args_loop read a argv
  end.
Definition args (read : list Z -> option (list Z)) (argv : list (list Z)) : option Args := args_loop read args_default argv.

(** ** Names *)
Definition popular (i : Z) : option (list Z) :=
  base ← index POPULAR (i mod len POPULAR);
  let n := (i / len POPULAR) mod 21 in
  Some (if n =? 0 then base else lit "s" ++ to_string n ++ lit "." ++ base).

(** [{:x}] *)
Fixpoint hex_go (fuel : nat) (n : Z) (acc : list Z) : list Z :=
  match fuel with
  | O => acc
  | S fuel => let d := n mod 16 in
              let acc := (if d <? 10 then 48 + d else 87 + d) :: acc in
              if n <? 16 then acc else hex_go fuel (n / 16) acc
  end.
Definition lower_hex (n : Z) : list Z := hex_go (S (Z.to_nat (Z.log2 n))) n [].

Definition mode_of (a : Args) (rng : Z) : list Z :=
  if str_eqb (a_mode a) (lit "mix") then
    let d := rng mod 10 in if d =? 0 then lit "blocked" else if d =? 1 then lit "miss" else lit "hit"
  else a_mode a.

(** The name of query [seq] and the next state of the generator. *)
Definition pick (a : Args) (seq rng : Z) : option (list Z * Z) :=
  let rng := xorshift rng in
  let mode := mode_of a rng in
  if str_eqb mode (lit "hit") then name ← popular (rng mod 500); Some (name, rng)
  else if str_eqb mode (lit "blocked") then
    _ ← assert (negb (bool_decide (a_names a = [])));
    name ← index (a_names a) (rng mod len (a_names a)); Some (name, rng)
  else if str_eqb mode (lit "miss") then
    Some (lit "q" ++ to_string seq ++ lit "-" ++ lower_hex (Z.land rng u32_max) ++ lit "." ++ a_zone a, rng)
  else None.

(** [a.qps * a.secs]; [None] where a checked build panics. *)
Definition total_of (a : Args) : option Z := try_from u64_max (a_qps a * a_secs a).

(** ** The loop *)
Section Loop.
Context `{HickoryOps}.

(** Each socket has its map from message ids to the time of the query. *)
Record Load := mkLoad {
  lo_seq : Z;
  lo_rng : Z;
  lo_sent : Z;
  lo_pending : list (gmap Z Instant);
  lo_latencies : list Z;      (* newest last *)
  lo_rcodes : gmap (list Z) Z
}.

(** [rng] is [nanos | 1]. *)
Definition load_start (nanos : Z) : Load := mkLoad 0 (Z.lor nanos 1) 0 (replicate (Z.to_nat SOCKETS) ∅) [] ∅.

(** What is due at a tick, of [total]. *)
Definition as_secs_f64 (d : Duration) : f64 := f64_add (f64_of (d / ns_per_sec)) (f64_div (f64_of (d mod ns_per_sec)) (f64_of ns_per_sec)).
Definition due_at (a : Args) (total : Z) (elapsed : Duration) : Z := Z.min (f64_floor (f64_mul (as_secs_f64 elapsed) (f64_of (a_qps a)))) total.

Definition load_query (id : Z) (name : Name) : Message :=
  set_meta (add_query (message_new id MQuery OpQuery) (mkQuery name TYPE_A CLASS_IN)) (with_rd true).

Definition socket_of (seq : Z) : Z := seq mod SOCKETS.
Definition id_of (seq : Z) : Z := Z.land (seq / SOCKETS) 65535.

(** One query: the entry first, then the datagram, whose fate does not
    matter. *)
Definition send_one (a : Args) (now : Instant) (l : Load) : option (Load * list Z) :=
  let k := socket_of (lo_seq l) in
  let id := id_of (lo_seq l) in
  '(name, rng) ← pick a (lo_seq l) (lo_rng l);
  qname ← name_from_ascii (name ++ [c_dot]);
  pending ← index (lo_pending l) k;
  pendings ← index_set (lo_pending l) k (<[id := now]> pending);
  wire ← to_vec (load_query id qname);
  Some (mkLoad (lo_seq l + 1) rng (lo_sent l + 1) pendings (lo_latencies l) (lo_rcodes l), wire).

(** A datagram on socket [k]: what it does not know it drops. [name] is
    the [Display] of a response code. *)
Definition receive (name : Z -> list Z) (k : Z) (bytes : list Z) (now : Instant) (l : Load) : Load :=
  match from_vec (take (Z.to_nat 4096) bytes), index (lo_pending l) k with
  | Some msg, Some pending =>
      match pending !! msg_id (metadata msg) with
      | Some t0 =>
          let rcode := name (response_code (metadata msg)) in
          mkLoad (lo_seq l) (lo_rng l) (lo_sent l)
            (default (lo_pending l) (index_set (lo_pending l) k (delete (msg_id (metadata msg)) pending)))
            (lo_latencies l ++ [as_micros (duration_since now t0) mod (u64_max + 1)])
            (<[rcode := default 0 (lo_rcodes l !! rcode) + 1]> (lo_rcodes l))
      | None => l
      end
  | _, _ => l
  end.

(** The sender stops at [total]; datagrams come whenever they come. *)
Inductive load_step (a : Args) (name : Z -> list Z) (total : Z) : Load -> Load -> Prop :=
| load_send l l' now wire : lo_seq l < total -> send_one a now l = Some (l', wire) -> load_step a name total l l'
| load_receive l k bytes now : load_step a name total l (receive name k bytes now l).

(** ** The summary *)
Definition pct (lat : list Z) (p : f64) : option (option Z) :=
  match lat with
  | [] => Some None
  | _ => x ← index lat (f64_round (f64_mul (f64_sub (f64_of (len lat)) (f64_of 1)) p)); Some (Some x)
  end.

Record Summary := mkSummary { su_sent : Z; su_answered : Z; su_lost : Z; su_pcts : list (option Z); su_rcodes : gmap (list Z) Z }.

(** The subtraction of two [u64]; below zero a checked build panics. *)
Definition u64_sub (a b : Z) : option Z := if b <=? a then Some (a - b) else None.

Definition summary (l : Load) : option Summary :=
  let lat := merge_sort Z.le (lo_latencies l) in
  pcts ← mapM (pct lat) [P50; P90; P99; P999; f64_lit 1 1];
  lost ← u64_sub (lo_sent l) (len lat);
  Some (mkSummary (lo_sent l) (len lat) lost pcts (lo_rcodes l)).
End Loop.
