(* ===== verification/LoadgenSpec.v ===== *)
(** * LoadgenSpec: what the load generator reports

    Its counters never contradict each other, a message id is not reused
    before two million queries, and its names are as many and as fresh as
    its documentation says. *)
From Stdlib Require Import SpecFloat.
From S2P Require Import Prelude Text Time Num IpAddr Dns Config Prng F64 Probe Loadgen.

(** ** Names *)

(** Reads the number of a popular name back. *)
Fixpoint position (x : list Z) (l : list (list Z)) : option Z :=
  match l with
  | [] => None
  | y :: l => if str_eqb x y then Some 0 else Z.succ <$> position x l
  end.
Definition unpopular (name : list Z) : option Z :=
  let '(n, base) :=
    match name with
    | 115 :: rest =>
        match split_once c_dot rest with
        | Some (d, b) => match parse_uint 20 d with Some n => (n, b) | None => (0, name) end
        | None => (0, name)
        end
    | _ => (0, name)
    end in
  (fun i => 24 * n + i) <$> position base POPULAR.

(** The 500 names of the mode [hit] are 500 names. *)
Theorem popular_distinct i j name : 0 <= i < 500 -> 0 <= j < 500 -> popular i = Some name -> popular j = Some name -> i = j.
Proof.
  assert (Hall : forallb (fun i => bool_decide ((name ← popular i; unpopular name) = Some i)) (seqZ 0 500) = true) by (vm_compute; reflexivity).
  rewrite forallb_forall in Hall.
  assert (Hb : forall i, 0 <= i < 500 -> (name ← popular i; unpopular name) = Some i).
  { intros k Hk. specialize (Hall k). rewrite bool_decide_eq_true in Hall. apply Hall, list_elem_of_In, elem_of_seqZ. lia. }
  intros Hi Hj Ei Ej. specialize (Hb i Hi) as Bi. specialize (Hb j Hj) as Bj. rewrite Ei in Bi. rewrite Ej in Bj. cbn [mbind option_bind] in *. congruence.
Qed.

Lemma popular_total i : 0 <= i -> exists name, popular i = Some name.
Proof.
  intros Hi. unfold popular. pose proof (Z.mod_pos_bound i (len POPULAR) ltac:(vm_compute; reflexivity)) as Hb.
  destruct (lookup_lt_is_Some_2 POPULAR (Z.to_nat (i mod len POPULAR))) as (b & Eb); [unfold len in *; lia|].
  replace (i mod len POPULAR) with (Z.of_nat (Z.to_nat (i mod len POPULAR))) by lia. rewrite index_nat, Eb. cbn [mbind option_bind]. by eexists.
Qed.

(** No two queries of the mode [miss] ask for the same name. *)
Theorem miss_names_fresh a seq rng seq' rng' name name' r r' :
  0 <= seq <= u64_max -> 0 <= seq' <= u64_max -> mode_of a (xorshift rng) = lit "miss" -> mode_of a (xorshift rng') = lit "miss" ->
  pick a seq rng = Some (name, r) -> pick a seq' rng' = Some (name', r') -> name = name' -> seq = seq'.
Proof.
  intros Hs Hs' Em Em'. unfold pick. rewrite Em, Em'. cbn [str_eqb]. change (str_eqb (lit "miss") (lit "hit")) with false.
  change (str_eqb (lit "miss") (lit "blocked")) with false. change (str_eqb (lit "miss") (lit "miss")) with true. cbn iota.
  intros [= <- _] [= <- _] E. injection E as E.
  assert (Hno : forall n, 0 <= n -> c_hyphen ∉ to_string n).
  { intros n Hn Hin. destruct (to_string_digits n Hn) as (_ & Hf). rewrite Forall_forall in Hf. specialize (Hf _ Hin). unfold c_hyphen in Hf. lia. }
  change (lit "-") with [c_hyphen] in E.
  apply (f_equal (fun s => take (default 0%nat (find c_hyphen s)) s)) in E. cbn beta in E. cbn [app] in E.
  rewrite !find_app in E by (apply Hno; lia). cbn [default from_option id] in E. rewrite !take_app_length in E. apply to_string_inj in E; [done|lia|lia].
Qed.

(** ** Ids *)

(** Two queries that share a socket and an id are at least 2,097,152 apart. *)
Theorem ids_apart s s' : 0 <= s < s' -> socket_of s = socket_of s' -> id_of s = id_of s' -> 2097152 <= s' - s.
Proof.
  intros Hs Ek Ei. unfold socket_of, id_of, SOCKETS in *. change 65535 with (Z.ones 16) in Ei. rewrite !Z.land_ones in Ei by lia.
  change (2 ^ 16) with 65536 in Ei. Z.div_mod_to_equations. lia.
Qed.

(** ** Counters *)
Definition tally (m : gmap (list Z) Z) : Z := map_fold (fun _ n acc => n + acc) 0 m.

Lemma tally_insert m k v : m !! k = None -> tally (<[k := v]> m) = v + tally m.
Proof. intros Hk. unfold tally. rewrite map_fold_insert_L; [done| |done]. intros. lia. Qed.

Lemma tally_count m k : tally (<[k := default 0 (m !! k) + 1]> m) = tally m + 1.
Proof.
  destruct (m !! k) as [n|] eqn:E; cbn [default from_option id].
  - rewrite <- (insert_delete_id m k n E) at 2. rewrite <- insert_delete_eq, !tally_insert by apply lookup_delete_eq. lia.
  - rewrite tally_insert by done. lia.
Qed.

Definition outstanding (pendings : list (gmap Z Instant)) : Z := foldr (fun m n => Z.of_nat (size m) + n) 0 pendings.

Lemma outstanding_set pendings k m m' :
  pendings !! k = Some m -> outstanding (<[k := m']> pendings) = outstanding pendings - Z.of_nat (size m) + Z.of_nat (size m').
Proof.
  revert k. induction pendings as [|p pendings IH]; intros [|k] Hk; try done.
  - injection Hk as ->. cbn. lia.
  - change (<[S k := m']> (p :: pendings)) with (p :: <[k := m']> pendings). cbn [outstanding foldr]. fold (outstanding (<[k := m']> pendings)) (outstanding pendings).
    rewrite IH by done. lia.
Qed.

Lemma outstanding_start n : outstanding (replicate n ∅) = 0.
Proof. induction n as [|n IH]; [done|]. cbn [replicate outstanding foldr]. fold (outstanding (replicate n ∅)). rewrite IH, map_size_empty. done. Qed.

Lemma outstanding_nonneg l : 0 <= outstanding l.
Proof. induction l as [|m l IH]; [done|]. cbn [outstanding foldr]. fold (outstanding l). lia. Qed.

Lemma index_update {A} (l : list A) k x y l' :
  index l k = Some x -> index_set l k y = Some l' -> l !! Z.to_nat k = Some x /\ l' = <[Z.to_nat k := y]> l.
Proof. unfold index, index_set. intros Hx Hy. destruct (0 <=? k); [|done]. cbn [andb] in Hy. destruct (k <? len l); [|done]. by injection Hy as <-. Qed.

Section Loop.
Context `{HickoryOps}.

Record load_ok (total : Z) (l : Load) : Prop := {
  lk_seq : lo_seq l = lo_sent l /\ 0 <= lo_seq l <= total;
  lk_rng : u64 (lo_rng l) /\ lo_rng l <> 0;
  lk_sockets : len (lo_pending l) = SOCKETS;
  lk_accounts : len (lo_latencies l) + outstanding (lo_pending l) <= lo_sent l;
  lk_rcodes : tally (lo_rcodes l) = len (lo_latencies l)
}.

Lemma load_start_ok total nanos : 0 <= total -> u64 nanos -> load_ok total (load_start nanos).
Proof.
  intros Ht Hn. split; cbn [load_start lo_seq lo_rng lo_sent lo_pending lo_latencies lo_rcodes].
  - lia.
  - split.
    + apply u64_bits; [apply Z.lor_nonneg; split; [apply Hn|done]|]. intros n H64. rewrite Z.lor_spec, u64_high by done.
      apply (u64_high 1); [split; vm_compute; discriminate|done].
    + intros E. apply Z.lor_eq_0_iff in E as [_ E]. discriminate.
  - done.
  - rewrite outstanding_start. done.
  - done.
Qed.

Lemma pick_rng a seq rng name rng' : pick a seq rng = Some (name, rng') -> rng' = xorshift rng.
Proof.
  unfold pick. destruct (str_eqb _ (lit "hit")).
  { destruct (popular _); cbn [mbind option_bind]; [|done]. by intros [= _ <-]. }
  destruct (str_eqb _ (lit "blocked")).
  { destruct (assert _); cbn [mbind option_bind]; [|done]. destruct (index _ _); cbn [mbind option_bind]; [|done]. by intros [= _ <-]. }
  destruct (str_eqb _ (lit "miss")); [|done]. by intros [= _ <-].
Qed.

Lemma send_one_ok a total now l l' wire : load_ok total l -> lo_seq l < total -> send_one a now l = Some (l', wire) -> load_ok total l'.
Proof.
  intros [(Hs & Hq) (Hu & Hz) Hk Ha Hc] Hlt. unfold send_one. destruct (pick a (lo_seq l) (lo_rng l)) as [[name rng]|] eqn:Ep; cbn [mbind option_bind]; [|done].
  apply pick_rng in Ep as ->. destruct (name_from_ascii _) as [qname|]; cbn [mbind option_bind]; [|done].
  destruct (index (lo_pending l) _) as [pending|] eqn:Ei; cbn [mbind option_bind]; [|done].
  destruct (index_set (lo_pending l) _ _) as [pendings|] eqn:Es; cbn [mbind option_bind]; [|done].
  destruct (to_vec _) as [w|]; cbn [mbind option_bind]; [|done]. intros [= <- _].
  destruct (index_update _ _ _ _ _ Ei Es) as (El & ->).
  split; cbn [lo_seq lo_rng lo_sent lo_pending lo_latencies lo_rcodes]; [lia|by apply xorshift_nonzero|by rewrite len_insert| |done].
  rewrite (outstanding_set _ _ _ _ El). rewrite map_size_insert. destruct (pending !! _); unfold id; lia.
Qed.

Lemma receive_ok total name k bytes now l : load_ok total l -> load_ok total (receive name k bytes now l).
Proof.
  intros Hl. pose proof Hl as [(Hs & Hq) (Hu & Hz) Hk Ha Hc]. unfold receive. destruct (from_vec (take (Z.to_nat 4096) bytes)) as [msg|]; [|done].
  destruct (index (lo_pending l) k) as [pending|] eqn:Ei; [|done]. destruct (pending !! msg_id (metadata msg)) as [t0|] eqn:Et; [|done].
  assert (Es : index_set (lo_pending l) k (delete (msg_id (metadata msg)) pending) = Some (<[Z.to_nat k := delete (msg_id (metadata msg)) pending]> (lo_pending l))).
  { apply index_Some_lt in Ei. unfold index_set. by zguard. }
  destruct (index_update _ _ _ _ _ Ei Es) as (El & _). rewrite Es. cbn [default from_option id].
  split; cbn [lo_seq lo_rng lo_sent lo_pending lo_latencies lo_rcodes]; [done|done|by rewrite len_insert| |].
  - rewrite (outstanding_set _ _ _ _ El), map_size_delete, Et, len_app. change (len [_]) with 1.
    assert (size pending <> 0%nat) by (intros E; apply map_size_empty_inv in E; by rewrite E, lookup_empty in Et). lia.
  - rewrite tally_count, Hc, len_app. done.
Qed.

Lemma load_reachable_ok a name total nanos l :
  0 <= total -> u64 nanos -> rtc (load_step a name total) (load_start nanos) l -> load_ok total l.
Proof.
  intros Ht Hn Hr. assert (Hs : load_ok total (load_start nanos)) by (by apply load_start_ok). revert Hs.
  induction Hr as [x|x y z Hxy _ IH]; [done|]. intros Hx. apply IH.
  destruct Hxy as [l0 l' now wire Hlt E|l0 k bytes now]; [by eapply send_one_ok|by apply receive_ok].
Qed.

(** A percentile of the summary is one of the latencies. *)
Lemma pct_total lat p m e :
  p = S754_finite false m e -> 2 ^ 52 <= Z.pos m < 2 ^ 53 -> -60 <= e <= 0 -> Z.pos m <= 2 ^ (- e) -> len lat < 2 ^ 53 ->
  exists o, pct lat p = Some o /\ (lat = [] /\ o = None \/ exists x, o = Some x /\ x ∈ lat).
Proof.
  intros -> Hm He Hone Hl. destruct lat as [|y lat]; [exists None; auto|]. set (l := y :: lat) in *. unfold pct.
  change (match l with [] => Some None | _ :: _ => ?b end) with b.
  assert (Hi : 0 <= f64_round (f64_mul (f64_sub (f64_of (len l)) (f64_of 1)) (S754_finite false m e)) < len l).
  { assert (H1 : 1 <= len l) by (subst l; rewrite len_cons; pose proof (len_nonneg lat); lia).
    destruct (decide (len l = 1)) as [->|Hne]; [vm_compute; split; [discriminate|reflexivity]|].
    pose proof (round_at_most (len l - 1) _ m e (sub_one_normal (len l) ltac:(lia)) ltac:(lia) Hm He Hone). lia. }
  set (i := f64_round _) in *. destruct (lookup_lt_is_Some_2 l (Z.to_nat i)) as (x & Hx); [unfold len in Hi; lia|].
  exists (Some x). replace i with (Z.of_nat (Z.to_nat i)) by lia. rewrite index_nat, Hx. split; [done|right]. exists x. split; [done|by eapply list_elem_of_lookup_2].
Qed.

Definition share_of_one (p : f64) : Prop :=
  exists m e, p = S754_finite false m e /\ 2 ^ 52 <= Z.pos m < 2 ^ 53 /\ -60 <= e <= 0 /\ Z.pos m <= 2 ^ (- e).

(** The figures of a run never contradict each other: whatever the
    server sends and however datagrams interleave with the sending, no more
    queries are answered than were sent, so the losses do not underflow;
    the response codes add up to the answers; every percentile is one of
    the measured times; and the generator of the names never gets stuck. *)
Theorem summary_accounts a name total nanos l :
  0 <= total < 2 ^ 53 -> u64 nanos -> rtc (load_step a name total) (load_start nanos) l ->
  lo_rng l <> 0 /\ lo_sent l <= total
  /\ exists s, summary l = Some s /\ su_sent s = lo_sent l /\ su_lost s + su_answered s = su_sent s /\ 0 <= su_lost s
     /\ tally (su_rcodes s) = su_answered s
     /\ Forall (fun o => lo_latencies l = [] /\ o = None \/ exists x, o = Some x /\ x ∈ lo_latencies l) (su_pcts s).
Proof.
  intros Ht Hn Hr. apply load_reachable_ok in Hr as [(Hs & Hq) (Hu & Hz) Hk Ha Hc]; [|lia|done]. split; [done|]. split; [lia|].
  set (lat := merge_sort Z.le (lo_latencies l)). assert (Hp : Permutation lat (lo_latencies l)) by apply merge_sort_Permutation.
  assert (El : len lat = len (lo_latencies l)) by (unfold len; by rewrite Hp). pose proof (outstanding_nonneg (lo_pending l)).
  assert (Hps : Forall share_of_one [P50; P90; P99; P999; f64_lit 1 1]).
  { repeat (apply Forall_cons; split; [eexists _, _; split; [vm_compute; reflexivity|split; [lia|split; [lia|vm_compute; discriminate]]]|]). constructor. }
  assert (Hm : exists pcts, mapM (pct lat) [P50; P90; P99; P999; f64_lit 1 1] = Some pcts
             /\ Forall (fun o => lo_latencies l = [] /\ o = None \/ exists x, o = Some x /\ x ∈ lo_latencies l) pcts).
  { induction Hps as [|p ps (m & e & Ep & Hm & He & Hone) Hps (pcts & Em & Hall)]; [exists []; split; [done|constructor]|].
    destruct (pct_total lat p m e) as (o & Eo & Ho); [done..|lia|]. exists (o :: pcts). cbn [mapM]. rewrite Eo. cbn [mbind option_bind]. rewrite Em. split; [done|].
    constructor; [|done]. destruct Ho as [(E & ->)|(x & -> & Hx)]; [left; split; [|done]|right; exists x; split; [done|by rewrite <- Hp]].
    rewrite E in Hp. by apply Permutation_nil in Hp. }
  destruct Hm as (pcts & Em & Hall). unfold summary. fold lat. rewrite Em. cbn [mbind option_bind]. unfold u64_sub.
  replace (len lat <=? lo_sent l) with true by (symmetry; apply Z.leb_le; lia). cbn [mbind option_bind].
  eexists. split; [done|]. cbn. split; [done|]. split; [lia|]. split; [lia|]. split; [lia|done].
Qed.
End Loop.

Lemma summary_accounts_witness :
  exists s, @summary (load_start 7) = Some s /\ su_lost s = 0 /\ su_pcts s = [None; None; None; None; None].
Proof.
  destruct (@summary_accounts text_names text_ops args_default to_string 0 7 (load_start 7)) as (_ & _ & s & Hs & _);
    [lia|split; vm_compute; discriminate|apply rtc_refl|].
  exists s. split; [exact Hs|]. vm_compute in Hs. injection Hs as <-. split; reflexivity.
Defined.
