(* ===== verification/Testkit.v ===== *)
(** * Testkit: the upstream and the client of the test kit
      ([crates/testkit/src/lib.rs])

    [DnsUpstream], a resolver look-alike with its zone and its modes, and
    the DNS client of the tests. The HTTPS list host is [ListHost].
    hickory-server's listeners and TLS are not modelled: the handler is what
    they call, and [served] whether they listen. *)
From S2P Require Import Prelude Text Time Num IpAddr Dns Config Serving.

(** What hickory does with a request's header, the text of names, the
    types of opaque data, and data it does not interpret. *)
Class HickoryServer `{Hickory} := {
  name_to_string : Name -> list Z;
  num_labels : Name -> Z;
  other_type : OtherRData -> Z;
  unknown_rdata : Z -> list Z -> OtherRData;
  unknown_type : forall code bytes, other_type (unknown_rdata code bytes) = code;
  response_from_request : Metadata -> Metadata;
  response_id : forall m, msg_id (response_from_request m) = msg_id m;
  response_no_error : forall m, response_code (response_from_request m) = NoError
}.

Definition RRSIG : Z := 46.

(** How the upstream answers right now. *)
Module Mode.
Inductive Mode :=
| Answer
| ServFail
| Hang
| Delay (d : Duration).
End Mode.

Section Upstream.
Context `{HickoryServer}.

Definition record_type (d : RData) : Z :=
  match d with RA _ => 1 | RAAAA _ => 28 | RCNAME _ => 5 | RSOA _ => 6 | ROther o => other_type o end.

Record Zone := mkZone { z_cnames : gmap (list Z) (list Z); z_a : gmap (list Z) (list (list Z)); z_nx : list (list Z) }.
Record UpstreamState := mkUpState {
  up_mode : Mode.Mode;
  up_signed : bool;
  up_zone : Zone;
  up_ttl : Z;
  up_queries : Z;
  up_names : list (list Z)
}.

(** ** Data *)
Definition synth_v4 (name : list Z) : list Z :=
  let h := fold_left (fun h b => ((h * 31) mod (u32_max + 1) + b) mod (u32_max + 1)) name 7 in
  [198; 51; 100; default 0 (try_from u8_max (h mod 250)) + 1].

(** [None]: the name is no name, and the test dies. *)
Definition fqdn (name : list Z) : option Name := name_from_ascii (name ++ [c_dot]).

Definition soa_record (ttl : Z) : option DnsRecord :=
  origin ← fqdn (lit "test");
  rname ← fqdn (lit "hostmaster.test");
  Some (record_from_rdata origin ttl (RSOA (mkSoa origin rname 1 3600 600 86400 ttl))).

Definition be16 (n : Z) : list Z := [n / 256; n mod 256].
Definition be32 (n : Z) : list Z := be16 (n / 65536) ++ be16 (n mod 65536).

Definition rrsig_for (name : Name) (covered ttl : Z) : DnsRecord :=
  record_from_rdata name ttl (ROther (unknown_rdata RRSIG
    (be16 covered ++ [13; num_labels name] ++ be32 ttl ++ be32 u32_max ++ be32 0 ++ be16 4242
     ++ [4] ++ lit "test" ++ [0] ++ replicate 64 171))).

(** ** The handler *)

(** A response before hickory-server encodes it. *)
Record Reply := mkReply { rp_metadata : Metadata; rp_answers : list DnsRecord; rp_authority : list DnsRecord; rp_edns : option Edns }.

Definition trim_end_dots (s : list Z) : list Z := reverse ((fix go l := match l with a :: r => if a =? c_dot then go r else l | [] => [] end) (reverse s)).

(** At most [n] links of the zone's CNAMEs. *)
Fixpoint follow (n : nat) (zone : Zone) (ttl : Z) (name : list Z) : option (list DnsRecord * list Z) :=
  match n with
  | O => Some ([], name)
  | S n =>
      match z_cnames zone !! name with
      | None => Some ([], name)
      | Some target =>
          owner ← fqdn name;
          tname ← fqdn target;
          '(rest, last) ← follow n zone ttl target;
          Some (record_from_rdata owner ttl (RCNAME tname) :: rest, last)
      end
  end.

(** The answers, the authority section and the code for one question. *)
Definition lookup_zone (zone : Zone) (ttl : Z) (qname : list Z) (qtype : Z) : option (list DnsRecord * list DnsRecord * Z) :=
  '(chain, name) ← follow 8 zone ttl qname;
  if bool_decide (name ∈ z_nx zone) then soa ← soa_record ttl; Some (chain, [soa], NXDomain)
  else if qtype =? 1 then
    let ips := default [synth_v4 name] (z_a zone !! name) in
    records ← mapM (fun ip => owner ← fqdn name; Some (record_from_rdata owner ttl (RA ip))) ips;
    Some (chain ++ records, [], NoError)
  else if qtype =? 28 then
    owner ← fqdn name;
    let group := default 0 (synth_v4 name !! 3%nat) in
    Some (chain ++ [record_from_rdata owner ttl (RAAAA [8193; 3512; 0; 0; 0; 0; 0; group])], [], NoError)
  else soa ← soa_record ttl; Some (chain, [soa], NoError).

Definition reply_rcode (meta : Metadata) (rc : Z) : Reply := mkReply (with_rcode rc meta) [] [] None.
Definition question (request : Message) : option Query := head (queries request).
Definition qname_of (q : Query) : list Z := to_ascii_lowercase (trim_end_dots (name_to_string (q_name q))).

(** On arrival: the counters, and how long the answer waits ([None]: for
    ever). *)
Definition arrive (st : UpstreamState) (request : Message) : UpstreamState * option Duration :=
  let st := mkUpState (up_mode st) (up_signed st) (up_zone st) (up_ttl st) (up_queries st + 1) (up_names st) in
  match question request with
  | None => (st, Some 0)
  | Some q =>
      let st := mkUpState (up_mode st) (up_signed st) (up_zone st) (up_ttl st) (up_queries st) (up_names st ++ [qname_of q]) in
      (st, match up_mode st with Mode.Hang => None | Mode.Delay d => Some d | Mode.Answer | Mode.ServFail => Some 0 end)
  end.

(** After the wait: [mode] is the one of the arrival, the rest is as it is
    now. *)
Definition answer (mode : Mode.Mode) (st : UpstreamState) (request : Message) : option Reply :=
  let meta := with_ra true (response_from_request (metadata request)) in
  match question request with
  | None => Some (reply_rcode meta FormErr)
  | Some q =>
      match mode with
      | Mode.ServFail => Some (reply_rcode meta ServFail)
      | _ =>
          let ttl := default 300 (try_from u32_max (up_ttl st)) in
          '(answers, authority, rcode) ← lookup_zone (up_zone st) ttl (qname_of q) (q_type q);
          let meta := with_rcode rcode meta in
          let dnssec_ok := match edns request with Some e => edns_dnssec_ok e | None => false end in
          match answers with
          | first :: _ =>
              if up_signed st && dnssec_ok
              then Some (mkReply meta (answers ++ [rrsig_for (r_name first) (record_type (r_data first)) ttl]) authority
                           (Some (edns_set_dnssec_ok (edns_set_max_payload edns_new 1232) true)))
              else Some (mkReply meta answers authority None)
          | [] => Some (mkReply meta answers authority None)
          end
      end
  end.

(** ** The operations of [DnsUpstream] *)
Definition up_new : UpstreamState := mkUpState Mode.Answer false (mkZone ∅ ∅ []) 300 0 [].
Definition up_set_mode (st : UpstreamState) (m : Mode.Mode) : UpstreamState := mkUpState m (up_signed st) (up_zone st) (up_ttl st) (up_queries st) (up_names st).
Definition set_signed (st : UpstreamState) (b : bool) : UpstreamState := mkUpState (up_mode st) b (up_zone st) (up_ttl st) (up_queries st) (up_names st).
Definition up_set_ttl (st : UpstreamState) (ttl : Z) : UpstreamState := mkUpState (up_mode st) (up_signed st) (up_zone st) ttl (up_queries st) (up_names st).
Definition set_zone (st : UpstreamState) (z : Zone) : UpstreamState := mkUpState (up_mode st) (up_signed st) z (up_ttl st) (up_queries st) (up_names st).
Definition add_cname (st : UpstreamState) (name target : list Z) : UpstreamState :=
  set_zone st (mkZone (<[name := target]> (z_cnames (up_zone st))) (z_a (up_zone st)) (z_nx (up_zone st))).
Definition add_a (st : UpstreamState) (name : list Z) (ips : list (list Z)) : UpstreamState :=
  set_zone st (mkZone (z_cnames (up_zone st)) (<[name := ips]> (z_a (up_zone st))) (z_nx (up_zone st))).
Definition add_nxdomain (st : UpstreamState) (name : list Z) : UpstreamState :=
  set_zone st (mkZone (z_cnames (up_zone st)) (z_a (up_zone st)) (z_nx (up_zone st) ++ [name])).
Definition asked (st : UpstreamState) (name : list Z) : Z := len (List.filter (fun n => str_eqb n name) (up_names st)).

(** The addresses, and whether the server is up. *)
Record DnsUpstream := mkUpstream { du_doh : list Z; du_doq : list Z; du_udp : list Z; du_served : bool }.
Definition doh_url (u : DnsUpstream) : list Z := lit "https://" ++ du_doh u ++ lit "/dns-query".
Definition doq_url (u : DnsUpstream) : list Z := lit "quic://" ++ du_doq u.
Definition stop (u : DnsUpstream) : DnsUpstream := mkUpstream (du_doh u) (du_doq u) (du_udp u) false.
(** [bind]: whether an address can be bound again; if not the test dies. *)
Definition restart (bind : list Z -> bool) (u : DnsUpstream) : option DnsUpstream :=
  let u := stop u in
  if bind (du_doh u) && bind (du_doq u) && bind (du_udp u) then Some (mkUpstream (du_doh u) (du_doq u) (du_udp u) true) else None.
End Upstream.

(** ** The client *)
Section Client.
Context `{HickoryOps} `{!HickoryServer}.

Record ClientAnswer := mkClientAnswer { ca_rcode : Z; ca_records : list (list Z * Z * list Z); ca_ttl : option Z; ca_truncated : bool }.

(** [rdata] is the text of record data. *)
Definition addrs (a : ClientAnswer) : list IpAddr := omap (fun '(_, _, data) => parse_ip data) (ca_records a).

Definition rand_id (name : list Z) : Z := Z.land (fold_left (fun h b => Z.lxor ((h * 33) mod (u32_max + 1)) b) name 17) 65535.

Definition query_message (id : Z) (name : list Z) (qtype : Z) : option Message :=
  qname ← fqdn name;
  Some (set_edns (set_meta (add_query (message_new id MQuery OpQuery) (mkQuery qname qtype CLASS_IN)) (with_rd true))
          (Some (edns_set_max_payload edns_new 1232))).
Definition query_wire (id : Z) (name : list Z) (qtype : Z) : option (list Z) := msg ← query_message id name qtype; to_vec msg.

Definition parse_answer (rdata : RData -> list Z) (bytes : list Z) (id : Z) : option ClientAnswer :=
  msg ← from_vec bytes;
  _ ← assert (msg_id (metadata msg) =? id);
  Some (mkClientAnswer (response_code (metadata msg))
          (map (fun r => (trim_end_dots (name_to_string (r_name r)), record_type (r_data r), trim_end_dots (rdata (r_data r)))) (answers msg))
          (r_ttl <$> head (answers msg)) (truncation (metadata msg))).

(** What the server sends back for a datagram, [None] if nothing comes
    within the 10 seconds. *)
Definition query_udp (rdata : RData -> list Z) (server : list Z -> option (list Z)) (name : list Z) (qtype : Z) : option ClientAnswer :=
  let id := default 1 (try_from u16_max (rand_id name)) in
  wire ← query_wire id name qtype;
  reply ← server wire;
  parse_answer rdata (take (Z.to_nat 65535) reply) id.

Definition TCP_ID : Z := 4242.

(** [server] is what a connection carries back for what it carries there. *)
Definition query_tcp (rdata : RData -> list Z) (server : list Z -> list Z) (name : list Z) (qtype : Z) : option ClientAnswer :=
  wire ← query_wire TCP_ID name qtype;
  n ← try_from u16_max (len wire);
  let back := server (to_be_bytes n ++ wire) in
  '(lenbuf, back) ← read_exact 2 back;
  '(buf, _) ← read_exact (from_be_bytes lenbuf) back;
  parse_answer rdata buf TCP_ID.

(** The port loop: [tcp_free] is whether TCP binds on the [i]-th port UDP
    gets; the fuel bounds the tries. *)
Fixpoint free_port (fuel : nat) (ports : nat -> Z) (tcp_free : Z -> bool) (i : nat) : option Z :=
  match fuel with
  | O => None
  | S fuel => if tcp_free (ports i) then Some (ports i) else free_port fuel ports tcp_free (S i)
  end.
End Client.
