(* ===== verification/TestkitSpec.v ===== *)
(** * TestkitSpec: the test upstream and the test client

    The upstream answers from its zone as its documentation says; the
    client's queries are read by the framing of the server and its answers
    by the client. *)
From S2P Require Import Prelude Text Time Num IpAddr Cache Dns Config Serving ServingSpec Testkit.

(** ** The upstream *)
Section Upstream.
Context `{HickoryServer}.

(** The records of a walk along the CNAMEs of the zone, and its end. *)
Inductive chased (zone : Zone) (ttl : Z) : list Z -> list DnsRecord -> list Z -> Prop :=
| chased_end name : chased zone ttl name [] name
| chased_link name target owner tname rest last :
    z_cnames zone !! name = Some target -> fqdn name = Some owner -> fqdn target = Some tname -> chased zone ttl target rest last ->
    chased zone ttl name (record_from_rdata owner ttl (RCNAME tname) :: rest) last.

Lemma follow_chased zone ttl n : forall name chain last,
  follow n zone ttl name = Some (chain, last) ->
  chased zone ttl name chain last /\ (length chain <= n)%nat /\ (length chain = n \/ z_cnames zone !! last = None).
Proof.
  induction n as [|n IH]; intros name chain last; cbn [follow]; [intros [= <- <-]; split; [constructor|cbn; auto]|].
  destruct (z_cnames zone !! name) as [target|] eqn:E; [|intros [= <- <-]; split; [constructor|]; split; [cbn; lia|by right]].
  destruct (fqdn name) as [owner|] eqn:Eo; cbn [mbind option_bind]; [|done]. destruct (fqdn target) as [tname|] eqn:Et; cbn [mbind option_bind]; [|done].
  destruct (follow n zone ttl target) as [[rest l]|] eqn:Ef; cbn [mbind option_bind]; [|done]. intros [= <- <-].
  destruct (IH _ _ _ Ef) as (Hc & Hl & Hend). split; [by econstructor|]. cbn [length]. split; [lia|]. destruct Hend; [left; lia|by right].
Qed.

Lemma chased_ttl zone ttl name chain last : chased zone ttl name chain last -> Forall (fun r => r_ttl r = ttl) chain.
Proof. induction 1; constructor; done. Qed.

(** What a zone says of a name at the end of its chain. *)
Definition zone_says (zone : Zone) (ttl : Z) (name : list Z) (qtype : Z) (tail authority : list DnsRecord) (rc : Z) : Prop :=
  if decide (name ∈ z_nx zone) then rc = NXDomain /\ tail = [] /\ exists soa, soa_record ttl = Some soa /\ authority = [soa]
  else rc = NoError /\
    if decide (qtype = 1) then map r_data tail = map RA (default [synth_v4 name] (z_a zone !! name)) /\ authority = []
                               /\ Forall (fun r => Some (r_name r) = fqdn name) tail
    else if decide (qtype = 28) then authority = [] /\ exists owner, fqdn name = Some owner
                                     /\ tail = [record_from_rdata owner ttl (RAAAA [8193; 3512; 0; 0; 0; 0; 0; default 0 (synth_v4 name !! 3%nat)])]
    else tail = [] /\ exists soa, soa_record ttl = Some soa /\ authority = [soa].

Lemma address_records name ttl ips records :
  mapM (fun ip => owner ← fqdn name; Some (record_from_rdata owner ttl (RA ip))) ips = Some records ->
  map r_data records = map RA ips /\ Forall (fun r => Some (r_name r) = fqdn name) records /\ Forall (fun r => r_ttl r = ttl) records.
Proof.
  revert records. induction ips as [|ip ips IH]; intros records; cbn [mapM]; [by intros [= <-]|].
  destruct (fqdn name) as [owner|]; cbn [mbind option_bind]; [|done]. destruct (mapM _ ips) as [rs|]; cbn [mbind option_bind]; [|done]. intros [= <-].
  destruct (IH rs eq_refl) as (Hd & Hn & Ht). split; [cbn; by rewrite Hd|]. split; by constructor.
Qed.

Lemma soa_record_ttl ttl soa : soa_record ttl = Some soa -> r_ttl soa = ttl.
Proof. unfold soa_record. intros. inv_bind. done. Qed.

Lemma lookup_zone_says zone ttl qname qtype answers authority rc :
  lookup_zone zone ttl qname qtype = Some (answers, authority, rc) ->
  exists chain name tail, answers = chain ++ tail /\ chased zone ttl qname chain name /\ (length chain <= 8)%nat
    /\ (length chain = 8%nat \/ z_cnames zone !! name = None) /\ zone_says zone ttl name qtype tail authority rc
    /\ Forall (fun r => r_ttl r = ttl) (answers ++ authority).
Proof.
  unfold lookup_zone. destruct (follow 8 zone ttl qname) as [[chain name]|] eqn:Ef; cbn [mbind option_bind]; [|done].
  destruct (follow_chased _ _ _ _ _ _ Ef) as (Hc & Hl & Hend). pose proof (chased_ttl _ _ _ _ _ Hc) as Ht. unfold zone_says.
  case_bool_decide as Hnx.
  { destruct (soa_record ttl) as [soa|] eqn:Es; cbn [mbind option_bind]; [|done]. intros [= <- <- <-].
    exists chain, name, []. rewrite app_nil_r, decide_True by done. repeat (split; [done|]). split; [by eauto|].
    apply Forall_app. split; [done|]. constructor; [by apply soa_record_ttl|constructor]. }
  destruct (qtype =? 1) eqn:E1; bool_to_prop.
  { destruct (mapM _ _) as [records|] eqn:Em; cbn [mbind option_bind]; [|done]. intros [= <- <- <-]. destruct (address_records _ _ _ _ Em) as (Hd & Hn & Htt).
    exists chain, name, records. rewrite decide_False, decide_True by done. repeat (split; [done|]). rewrite app_nil_r. by apply Forall_app. }
  destruct (qtype =? 28) eqn:E2; bool_to_prop.
  { destruct (fqdn name) as [owner|] eqn:Eo; cbn [mbind option_bind]; [|done]. intros [= <- <- <-].
    eexists chain, name, [_]. rewrite !decide_False, decide_True by done. repeat (split; [done|]). split; [by eauto|]. rewrite app_nil_r.
    apply Forall_app. split; [done|]. constructor; [done|constructor]. }
  destruct (soa_record ttl) as [soa|] eqn:Es; cbn [mbind option_bind]; [|done]. intros [= <- <- <-].
  exists chain, name, []. rewrite app_nil_r, !decide_False by done. repeat (split; [done|]). split; [by eauto|].
  apply Forall_app. split; [done|]. constructor; [by apply soa_record_ttl|constructor].
Qed.

(** Out of [ServFail], the upstream answers from its zone: the chain of
    CNAMEs from the name asked, eight at most, then what the zone says of
    its end, all with the zone's TTL; a signature only for a client that
    set DO, over answers that exist; and always under the request's id. *)
Theorem upstream_answers mode st request q r :
  question request = Some q -> mode <> Mode.ServFail -> answer mode st request = Some r ->
  exists chain name tail sig, let ttl := default 300 (try_from u32_max (up_ttl st)) in
    rp_answers r = (chain ++ tail) ++ sig /\ chased (up_zone st) ttl (qname_of q) chain name /\ (length chain <= 8)%nat
    /\ (length chain = 8%nat \/ z_cnames (up_zone st) !! name = None)
    /\ zone_says (up_zone st) ttl name (q_type q) tail (rp_authority r) (response_code (rp_metadata r))
    /\ Forall (fun x => r_ttl x = ttl) (rp_answers r ++ rp_authority r)
    /\ (sig <> [] <-> up_signed st = true /\ (exists e, edns request = Some e /\ edns_dnssec_ok e = true) /\ chain ++ tail <> [])
    /\ Forall (fun x => record_type (r_data x) = RRSIG) sig
    /\ msg_id (rp_metadata r) = msg_id (metadata request) /\ recursion_available (rp_metadata r) = true.
Proof.
  intros Hq Hm. unfold answer. rewrite Hq. set (meta := with_ra true _).
  assert (Hid : forall rc, msg_id (with_rcode rc meta) = msg_id (metadata request)) by (intros; subst meta; cbn; apply response_id).
  intros Ha. assert (Ha' : ('(answers, authority, rcode) ← lookup_zone (up_zone st) (default 300 (try_from u32_max (up_ttl st))) (qname_of q) (q_type q);
    match answers with
    | first :: _ =>
        if up_signed st && (match edns request with Some e => edns_dnssec_ok e | None => false end)
        then Some (mkReply (with_rcode rcode meta) (answers ++ [rrsig_for (r_name first) (record_type (r_data first)) (default 300 (try_from u32_max (up_ttl st)))])
                     authority (Some (edns_set_dnssec_ok (edns_set_max_payload edns_new 1232) true)))
        else Some (mkReply (with_rcode rcode meta) answers authority None)
    | [] => Some (mkReply (with_rcode rcode meta) answers authority None)
    end) = Some r) by (destruct mode; done). clear Ha. set (ttl := default 300 _) in *. cbn zeta.
  destruct (lookup_zone _ _ _ _) as [[[answers authority] rc]|] eqn:Ez; cbn [mbind option_bind] in Ha'; [|done].
  destruct (lookup_zone_says _ _ _ _ _ _ _ Ez) as (chain & name & tail & -> & Hc & Hl & Hend & Hsays & Ht).
  exists chain, name, tail.
  assert (Hdo : (match edns request with Some e => edns_dnssec_ok e | None => false end) = true <-> exists e, edns request = Some e /\ edns_dnssec_ok e = true).
  { destruct (edns request) as [e|]; [|split; [done|intros (e & E & _); done]]. split; [intros E; by exists e|intros (e' & [= <-] & E); done]. }
  destruct (chain ++ tail) as [|first rest] eqn:Ect.
  { injection Ha' as <-. exists []. cbn. repeat (split; [done|]). split; [split; [done|intros (_ & _ & E); done]|]. split; [constructor|]. by split; [exact (Hid rc)|]. }
  destruct (up_signed st) eqn:Es, (match edns request with Some e => edns_dnssec_ok e | None => false end) eqn:Ed; cbn [andb] in Ha'; injection Ha' as <-.
  1: exists [rrsig_for (r_name first) (record_type (r_data first)) ttl]; cbn [rp_answers rp_authority rp_metadata].
  2, 3, 4: exists []; cbn [rp_answers rp_authority rp_metadata]; rewrite app_nil_r.
  - repeat (split; [done|]). split.
    { apply Forall_app in Ht as [Ht1 Ht2]. apply (Forall_app_2 _ ((first :: rest) ++ [_])); [|exact Ht2]. apply Forall_app_2; [exact Ht1|].
      constructor; [done|constructor]. }
    split; [split; [intros _; split; [done|split; [by apply Hdo|done]]|done]|]. split; [constructor; [cbn; apply unknown_type|constructor]|]. by split; [exact (Hid rc)|].
  - repeat (split; [done|]). split; [split; [done|intros (_ & E & _); apply Hdo in E; done]|]. split; [constructor|]. by split; [exact (Hid rc)|].
  - repeat (split; [done|]). split; [split; [done|intros (E & _); done]|]. split; [constructor|]. by split; [exact (Hid rc)|].
  - repeat (split; [done|]). split; [split; [done|intros (E & _); done]|]. split; [constructor|]. by split; [exact (Hid rc)|].
Qed.

(** Every request is counted, and its name under [asked]. *)
Theorem asked_counts st request name :
  up_queries (fst (arrive st request)) = up_queries st + 1
  /\ asked (fst (arrive st request)) name
     = asked st name + match question request with Some q => if str_eqb (qname_of q) name then 1 else 0 | None => 0 end.
Proof.
  unfold arrive, asked. destruct (question request) as [q|]; cbn [fst up_queries up_names]; [|split; [done|lia]]. split; [done|].
  rewrite List.filter_app, len_app. cbn [List.filter]. destruct (str_eqb _ _); done.
Qed.

(** A synthesized address is in the documentation range, its last octet
    between 1 and 250. *)
Lemma synth_v4_range name : exists d, synth_v4 name = [198; 51; 100; d] /\ 1 <= d <= 250.
Proof.
  unfold synth_v4. set (h := fold_left _ _ _). pose proof (Z.mod_pos_bound h 250 ltac:(lia)). rewrite try_from_Some by (unfold u8_max; lia).
  cbn [default from_option id]. eexists. split; [done|]. lia.
Qed.
End Upstream.

(** ** The client *)
Section Client.
Context `{HashIter} `{IpNetOps}.
Context `{HickoryOps} `{!HickoryServer}.

(** An id is a [u16], so [unwrap_or(1)] is never taken. *)
Lemma rand_id_u16 name : try_from u16_max (rand_id name) = Some (rand_id name).
Proof.
  apply try_from_Some. unfold rand_id. change 65535 with (Z.ones 16). rewrite Z.land_ones by lia. change (2 ^ 16) with 65536.
  pose proof (Z.mod_pos_bound (fold_left (fun h b => Z.lxor ((h * 33) mod (u32_max + 1)) b) name 17) 65536 ltac:(lia)). unfold u16_max. lia.
Qed.

(** What the client makes of a message. *)
Definition client_answer (rdata : RData -> list Z) (m : Message) : ClientAnswer :=
  mkClientAnswer (response_code (metadata m))
    (map (fun r => (trim_end_dots (name_to_string (r_name r)), record_type (r_data r), trim_end_dots (rdata (r_data r)))) (answers m))
    (r_ttl <$> head (answers m)) (truncation (metadata m)).

Lemma parse_answer_reads rdata bytes m id : from_vec bytes = Some m -> msg_id (metadata m) = id -> parse_answer rdata bytes id = Some (client_answer rdata m).
Proof. intros Hb <-. unfold parse_answer. rewrite Hb. cbn [mbind option_bind]. by rewrite Z.eqb_refl. Qed.

(** What the encoder writes the decoder reads back, and a message cut to
    fit keeps its id. *)
Context (wire_law : forall m w, to_vec m = Some w -> from_vec w = Some m).
Context (truncate_id : forall m, msg_id (metadata (truncate m)) = msg_id (metadata m)).

(** The client over UDP: against a server that answers a datagram as
    [Serving] does, it sees the server's response, or its truncation when
    the response does not fit the 1,232 bytes the client offers. *)
Theorem query_udp_sees rdata handle name qtype query bytes :
  query_message (rand_id name) name qtype = Some query -> to_vec query = Some bytes ->
  (forall m, msg_id (metadata (handle m)) = msg_id (metadata m)) ->
  forall sent, udp_reply query (handle query) = Some sent ->
  exists m, query_udp rdata (fun d => r ← udp_request d; udp_reply r (handle r)) name qtype = Some (client_answer rdata m)
    /\ (m = handle query /\ len sent <= udp_payload_limit query \/ m = truncate (handle query)).
Proof.
  intros Hq Hb Hid sent Hs. unfold query_udp, query_wire. rewrite rand_id_u16. cbn [default from_option id].
  rewrite Hq. cbn [mbind option_bind]. rewrite Hb. cbn [mbind option_bind]. unfold udp_request. rewrite (wire_law _ _ Hb). cbn [mbind option_bind]. rewrite Hs. cbn [mbind option_bind].
  assert (Eid : msg_id (metadata query) = rand_id name) by (unfold query_message in Hq; destruct (fqdn name); [|done]; by injection Hq as <-).
  assert (Hall : forall m, to_vec m = Some sent -> msg_id (metadata m) = rand_id name -> parse_answer rdata (take (Z.to_nat 65535) sent) (rand_id name) = Some (client_answer rdata m)).
  { intros m Hm Hmid. pose proof (to_vec_bound m sent Hm) as Hl. rewrite take_ge by (unfold len, u16_max in Hl; lia). by apply parse_answer_reads; [apply wire_law|]. }
  unfold udp_reply in Hs. destruct (to_vec (handle query)) as [full|] eqn:Ef; [|done].
  destruct (len full <=? udp_payload_limit query) eqn:El; bool_to_prop.
  - injection Hs as <-. exists (handle query). split; [apply Hall; [done|by rewrite Hid]|by left].
  - exists (truncate (handle query)). split; [apply Hall; [done|by rewrite truncate_id, Hid]|by right].
Qed.

(** The client over TCP: against the framing loop of [Serving] it reads
    exactly the response to its query. *)
Theorem query_tcp_sees rdata handle writes fuel name qtype query bytes reply :
  query_message TCP_ID name qtype = Some query -> to_vec query = Some bytes -> writes 0%nat = true -> (0 < fuel)%nat ->
  to_vec (handle 0%nat query) = Some reply -> msg_id (metadata (handle 0%nat query)) = msg_id (metadata query) ->
  query_tcp rdata (serve_tcp_conn fuel handle writes 0) name qtype = Some (client_answer rdata (handle 0%nat query)).
Proof.
  intros Hq Hb Hw Hf Hr Hid. unfold query_tcp, query_wire. rewrite Hq. cbn [mbind option_bind]. rewrite Hb. cbn [mbind option_bind].
  pose proof (to_vec_bound _ _ Hb) as Hlb. pose proof (len_nonneg bytes). pose proof (to_vec_bound _ _ Hr) as Hlr. pose proof (len_nonneg reply).
  rewrite try_from_Some by lia. cbn [mbind option_bind]. destruct fuel as [|fuel]; [lia|]. cbn [serve_tcp_conn].
  assert (Efr : frame bytes = Some (to_be_bytes (len bytes) ++ bytes)) by (unfold frame; by rewrite try_from_Some by lia).
  assert (Efr' : frame reply = Some (to_be_bytes (len reply) ++ reply)) by (unfold frame; by rewrite try_from_Some by lia).
  destruct (read_frame _ _ [] Efr) as (R1 & R2). rewrite !app_nil_r in *. rewrite R1, R2. cbn iota. rewrite (wire_law _ _ Hb), Hr. cbn iota. rewrite Efr', Hw.
  match goal with |- context [_ ++ ?rest] => destruct (read_frame _ _ rest Efr') as (R3 & R4) end. rewrite R3. cbn [mbind option_bind]. rewrite R4. cbn [mbind option_bind].
  apply parse_answer_reads; [by apply wire_law|]. rewrite Hid. unfold query_message in Hq. destruct (fqdn name); [|done]. by injection Hq as <-.
Qed.
End Client.
